(* ===== verification/_CoqProject ===== *)
-Q . S2P
Prelude.v
Bytes.v
Text.v
Gix.v
Proto.v
Types.v
Handlers.v
Sigverify.v
Auth.v
Serve.v
Graph.v
Inspect.v
KvKeys.v
Kv.v
PackCache.v
PackTools.v
KvPack.v
KvBackend.v
Lfs.v
LfsHandlers.v
LfsFs.v
Axum.v
Interleave.v
Interfere.v
Ssh.v
Sql.v
SqlGraph.v
SqlObjects.v
SqlPack.v
SqlBackend.v
Agree.v
Dense.v
Bitmap.v
PackWalk.v
FsStream.v
FsGitoxide.v
FsBackend.v
GitPipes.v
FsGitCli.v
CliBackend.v
Examples.v
KvExamples.v
LfsExamples.v
SqlExamples.v
BitmapExamples.v
PackWalkExamples.v
FsExamples.v
CliExamples.v
SshExamples.v
BackendExamples.v
InterleaveExamples.v
InterfereExamples.v
