(* ===== verification/Prelude.v ===== *)
(** * mizzle: a verification of its servers, request pipeline, comparison, LFS and storage backends

    [mizzle] is a library for Git servers: it parses the Git protocol, asks a forge for
    permission, and stores refs and objects behind a storage trait.

    The parts and how they interact:

    - the parsers of [mizzle-proto/src] turn packet lines and bytes into commands,
      arguments and ref updates, within limits;
    - [serve.rs] routes an HTTP request or runs an SSH session: it parses, asks the
      forge ([traits.rs]) twice, ingests the pack, and updates refs; the handlers of
      [ls_refs.rs], [fetch.rs] and [receive.rs] write the responses;
    - between the two questions [auth.rs] gives the forge a [Comparison] of the push
      with the repository, computed lazily and cached;
    - [backend/mod.rs] is the storage trait; [backend/kv] implements it over a
      transactional key-value store and [backend/sql] over SQL tables, both with
      [backend/pack_cache.rs] in front of packs; [fs_gitoxide.rs] and [fs_git_cli.rs]
      implement it over a repository on disk, through gitoxide and the [git] program;
    - [pack.rs] selects the objects that gitoxide packs for a fetch, and [bitmap.rs] with
      [pack_reuse.rs] finds out whether a stored pack already is the answer;
    - [lfs] stores large files beside the repository; [servers/axum.rs] dispatches an HTTP
      request to the Git pipeline or to LFS, and [servers/ssh.rs] a command of an SSH
      channel to a session.

    What models what:

    - [Prelude], [Bytes]: errors, results, computations with state ([ST]), preserved
      observations ([pres]), byte strings and their integers, decimal and hexadecimal;
      [Text]: lossy decoding, white space and lines.
    - [Gix]: object ids and packet lines of the [gix] crates, as classes with their
      documented laws, and a SHA-1 instance.
    - [Proto]: [limits.rs], [utils.rs], [command.rs], [ls_refs.rs], [fetch.rs],
      [receive.rs], [pack.rs], [types.rs] of [mizzle-proto].  A packet stream is the list
      of results of [read_line]; the receive-pack parser frames bytes itself.
    - [Types]: [auth_types.rs] and [backend/mod.rs].  The trait is the class
      [StorageBackend] over an abstract store.  [RefsLaws] is what every backend promises of
      refs; the documented contract adds all-or-nothing pushes, [BackendLaws] (refs change
      only through [update_refs], which is a compare-and-swap: [cas_updates]),
      [ReadOnlyLaws] and [GraphLaws].
    - [Handlers]: [ls_refs.rs], [fetch.rs], [receive.rs] and the advertisements of
      [serve.rs], as computations on the store and a writer that may fail.
    - [Sigverify]: [sigverify.rs].
    - [Auth]: [auth.rs] and [traits.rs].  A policy is the tree of its questions.
    - [Serve]: [serve.rs].  A handler returns, returns early or panics ([Flow]); a
      response carries the future it spawns as a function on store and writer.
    - [Graph]: the breadth-first walks of [backend/kv/graph.rs], over any fetch of parents.
    - [Inspect]: [inspect.rs], over the entries [gix-pack] reads from a bundle.
    - [KvKeys], [Kv]: [backend/kv/keys.rs], [txn.rs], [refs.rs], [objects.rs], [graph.rs]
      and the repository table of [mod.rs], over a map of keys to values in which any call
      may fail.
    - [PackCache]: [backend/pack_cache.rs].
    - [PackTools]: selection, staging and diffing that both database backends share, over
      abstract reads, and what is reachable from an object by the objects it names
      ([links]); [KvPack]: [backend/kv/build_pack.rs]; [KvBackend]: the
      [StorageBackend] implementation of [backend/kv/mod.rs] as an instance, with the laws
      proved for it.
    - [Sql]: the tables of [backend/sql/schema.rs] as maps, the statements and
      transactions on them, and the operations of [refs.rs], [graph.rs], [objects.rs] and
      [mod.rs]; [SqlGraph]: its recursive queries and walks; [SqlObjects]: ingestion;
      [SqlPack]: [build_pack] and [tree_diff]; [SqlBackend]: the instance with its laws.
    - [Agree]: the KV and the SQL backend compared.
    - [PackWalk]: [pack.rs], the visitors over gitoxide's traversals, the walk by depth and
      the selection.  [Dense]: the 64-bit words of [DenseBitmap]; [Bitmap]: the files of
      [bitmap.rs], the chains of XORed bitmaps, and the search of [pack_reuse.rs].
    - [FsStream]: how [fs_gitoxide.rs] streams a generated pack, with its thread, bounded
      channel and reader as one step relation; [FsGitoxide]: its operations, over what
      gitoxide gives it; [FsBackend]: the instance of the trait on a disk of repositories,
      with [RefsLaws], [ReadOnlyLaws] and [GraphLaws].
    - [GitPipes]: the pipes of [has_objects] of [fs_git_cli.rs], as a step relation;
      [FsGitCli]: its operations, as the arguments and text [git] gets and what is made of
      the output, over a function that stands for [git]; [CliBackend]: the instance of the
      trait, with [RefsLaws].
    - [Lfs]: [mizzle-proto/src/lfs.rs]; [LfsHandlers]: [lfs/mod.rs], [batch.rs] and
      [transfer.rs]; [LfsFs]: [lfs/fs.rs], also with uploads that interleave; [Axum]:
      [servers/axum.rs].
    - [Ssh]: [servers/ssh.rs], the handler of a connection as a machine on the callbacks
      of [russh] and the clock.
    - [Interleave]: a server that answers many requests, each with the forge that judges it,
      whose steps are handlers, the futures they leave and SSH sessions, in any order.  [Interfere]: one push on a store
      that others change between any two of its calls of the trait; that store is itself
      an instance of the trait.
    - [Examples], [KvExamples], [LfsExamples], [SqlExamples], [BitmapExamples],
      [PackWalkExamples], [FsExamples], [CliExamples], [SshExamples], [BackendExamples],
      [InterleaveExamples], [InterfereExamples]: small concrete servers, repositories and programs on which the
      theorems' hypotheses hold.

    What the theorems show:

    - parsers: round trips with an encoder, limits respected, the pack left unread;
    - pipeline: refs change only through a push the forge accepted twice, over HTTP and
      SSH; rejected pushes report and roll back; read requests change no ref; interleaved
      requests change refs as some sequence of pushes does, each accepted by the forge of
      its own request, also when they interleave between storage calls; responses are well formed; the session loop ends;
    - comparison: the caches are unobservable to a policy that asks about distinct refs it
      was shown; the commits reported as new are those that no ref outside the push has, so
      the old history of a fast-forwarded ref is among them; nothing is verified natively;
    - handlers: the exact packets of listings, negotiation and packs;
    - KV backend: compare-and-swap refinement, listing, ancestry, reachability, ingestion,
      repository allocation, key encoding, tree diffs, cache; that a pack holds exactly the
      objects reachable from wanted commits and blobs and from no have, and of a wanted tag
      the tag alone;
    - SQL backend: the same contract from its statements, ingestion, selection, the
      recursive queries and their cost; and that the two backends agree, but for updates
      from null to null and walks whose excluded side exceeds the cap;
    - pack walk: the objects selected for a fetch are exactly those within depth and
      filter that the client lacks, and with a depth also the commits it has that are met
      beside a have; the walk ends; bitmaps: what the files encode is
      read back, operations on words are operations on sets, and a pack is reused if and
      only if it has bitmaps for the request and holds exactly what that needs;
    - gitoxide backend: a committed push is compare-and-swap, which of the three ways answers a
      fetch and with which objects, that a rollback removes only its own files, and that a
      streamed pack arrives whole, or its error does, whatever the scheduling; over HTTP
      and SSH, that a push changes refs only as far as the forge accepted it, and that a
      rejected one leaves the disk as it was, but for files of its own that the file system
      does not remove;
    - git CLI backend: compare-and-swap over an account of [git update-ref], of the refs
      that names stand for when symbolic refs are followed, reading back
      refs, objects, diffs and walks from what [git] prints, when [has_objects] blocks, and
      the same about pushes;
    - SSH: a session is served only on an open channel, for a command the forge allowed;
      commands are parsed back; the deadline for a command;
    - LFS: batch answers, uploads that store exactly what was announced, content
      addressing under any interleaving, the life of an object over HTTP, and what one
      request can change at all;
    - where the code departs from what it documents, theorems that show it does.

    Fuel.  The receive parser's is the length of the body, each round consuming at least
    four bytes; the walks' is the number of ids the store can name plus the tips
    ([kv_walk_total], [collect_tree_total], [fetch_trees_spec], [sql_collect_tree_spec]);
    the session loop's is the number of packets ([upload_pack_loop_fuel]); that of a fetch
    is the number of commits the repository can name ([objects_for_fetch_total]); readers
    of text take the length of the text, each round consuming a byte.  No default of
    an exhausted fuel is ever reached.  The recursive SQL query need not end: it is [None]
    beyond more generations than an acyclic history has ([cte_rows_total]).

    Not modelled: interleaving within one call of a storage backend (a transaction of the
    databases; on disk, LFS uploads, the threads and pipes of a streamed pack and those of
    [has_objects] do interleave within), logging, temporary-file I/O of staging, the
    internals of [gix-*], [flate2], TiKV, SQLite, [git], [russh] and [axum], JSON and SHA
    functions (parameters with their documented behaviour), listening on sockets, and the
    demo server and sniffer.  A path names one repository: links between repositories are
    not followed. *)

From stdpp Require Import base gmap list strings.
From Stdlib Require Import Strings.Byte.
From Stdlib Require Strings.String.

(** ** Bytes *)

#[global] Instance byte_eq_dec : EqDecision byte := Byte.byte_eq_dec.

#[global] Program Instance byte_countable : Countable byte :=
  inj_countable Byte.to_N Byte.of_N _.
Next Obligation. intros x. exact (Byte.of_to_N x). Qed.

(** A Rust [Vec<u8>], [&[u8]], [String] or [&str]: strings are their UTF-8 bytes. *)
Abbreviation bytes := (list byte).

Declare Scope mizzle_scope.
Delimit Scope mizzle_scope with mizzle.
Open Scope mizzle_scope.

Notation "'b!' s" := (String.list_byte_of_string s%string)
  (at level 1, s at level 0, only parsing) : mizzle_scope.

(** ** Errors and results *)

(** An [anyhow::Error].  [Msg] is a message built by the program, [Fmt m e] a message
    that ends in the display of another error, [Context c e] an error with a context
    line, [Lossy raw] the text [String::from_utf8_lossy(raw)], the next three the
    standard library's errors the parsers meet, and [Foreign m] an error of third-party
    code that displays as [m]. *)
Inductive error : Type :=
| Msg (m : bytes)
| Fmt (m : bytes) (e : error)
| Context (c : bytes) (e : error)
| Lossy (raw : bytes)
| Utf8Error
| ParseIntError
| UnexpectedEof
| Foreign (m : bytes).

#[global] Instance error_eq_dec : EqDecision error.
Proof. solve_decision. Defined.

Inductive result (E A : Type) : Type :=
| Ok (a : A)
| Err (e : E).
Arguments Ok {E A} a.
Arguments Err {E A} e.

#[global] Instance result_eq_dec `{EqDecision E, EqDecision A} : EqDecision (result E A).
Proof. solve_decision. Defined.

#[global] Instance result_ret {E} : MRet (result E) := fun A a => Ok a.
#[global] Instance result_bind {E} : MBind (result E) :=
  fun A B f m => match m with Ok a => f a | Err e => Err e end.
#[global] Instance result_fmap {E} : FMap (result E) :=
  fun A B f m => match m with Ok a => Ok (f a) | Err e => Err e end.

Definition is_ok {E A} (r : result E A) : bool :=
  match r with Ok _ => true | Err _ => false end.

(** [r.map_err(f)]. *)
Definition map_err {E F A} (f : E → F) (r : result E A) : result F A :=
  match r with Ok a => Ok a | Err e => Err (f e) end.

(** [o.ok_or(e)]; [o.context(c)] on an option is [ok_or (Msg c) o]. *)
Definition ok_or {E A} (e : E) (o : option A) : result E A :=
  match o with Some a => Ok a | None => Err e end.

(** [r.ok()]. *)
Definition ok {E A} (r : result E A) : option A :=
  match r with Ok a => Some a | Err _ => None end.

(** [bail!(msg)]. *)
Definition bail {A} (msg : bytes) : result error A := Err (Msg msg).

Lemma result_bind_Ok {E A B} (f : A → result E B) m b :
  m ≫= f = Ok b ↔ ∃ a, m = Ok a ∧ f a = Ok b.
Proof. destruct m; simpl; naive_solver. Qed.

Lemma NoDup_omap {A B} (f : A → option B) l :
  NoDup l → (∀ x y z, x ∈ l → y ∈ l → f x = Some z → f y = Some z → x = y) → NoDup (omap f l).
Proof.
  induction 1 as [|x l Hx Hl IH]; intros Hf; [constructor|].
  assert (NoDup (omap f l)) as Hnd by (apply IH; intros; eapply Hf; eauto; by right).
  change (omap f (x :: l)) with (match f x with Some y => y :: omap f l | None => omap f l end).
  destruct (f x) as [y|] eqn:Hy; [|done]. constructor; [|done].
  intros (x' & Hin & Hx')%list_elem_of_omap.
  rewrite (Hf x x' y ltac:(by left) ltac:(by right) Hy Hx') in Hx. done.
Qed.

Lemma result_mapM_Ok {E A B} (f : A → result E B) l k :
  mapM f l = Ok k ↔ Forall2 (λ x y, f x = Ok y) l k.
Proof.
  revert k; induction l as [|x l IH]; intros k.
  - split; [by intros [= <-]|]. by intros ->%Forall2_nil_inv_l.
  - change (mapM f (x :: l)) with (y ← f x; k ← mapM f l; mret (y :: k)).
    rewrite result_bind_Ok. setoid_rewrite result_bind_Ok. setoid_rewrite IH. split.
    + intros (y & Hy & k' & Hk & [= <-]). by constructor.
    + intros (y & k' & Hy & Hk & ->)%Forall2_cons_inv_l. eauto.
Qed.

Lemma result_mapM_total {E A B} (f : A → result E B) l :
  (∀ x, x ∈ l → ∃ y, f x = Ok y) → ∃ k, mapM f l = Ok k.
Proof.
  intros Hf. setoid_rewrite result_mapM_Ok. induction l as [|x l IH]; [by exists []|].
  destruct (Hf x) as [y Hy]; [by left|]. destruct IH as [k Hk]; [intros z Hz; apply Hf; by right|].
  exists (y :: k). by constructor.
Qed.

(** ** Computations with state

    The sources are asynchronous functions that may fail; awaited calls run in
    sequence, so a call is a function from the state it finds to its result and the
    state it leaves.  An error keeps the state reached so far. *)
Definition ST (S A : Type) : Type := S → result error A * S.

#[global] Instance ST_ret {S} : MRet (ST S) := fun A a s => (Ok a, s).
#[global] Instance ST_bind {S} : MBind (ST S) :=
  fun A B f m s => match m s with
                   | (Ok a, s') => f a s'
                   | (Err e, s') => (Err e, s')
                   end.

(** A pure result inside a stateful computation: the [?] operator. *)
Definition lift {S A} (r : result error A) : ST S A := fun s => (r, s).

(** [for x in l { f(x)?; }]. *)
Fixpoint for_each {S A} (f : A → ST S ()) (l : list A) : ST S () :=
  match l with
  | [] => mret ()
  | x :: l' => f x ;; for_each f l'
  end.

(** [m.context(c)]. *)
Definition with_context {S A} (c : bytes) (m : ST S A) : ST S A :=
  fun s => let '(r, s') := m s in (map_err (Context c) r, s').

(** Two computations that agree on every state. *)
Definition st_eq {S A} : relation (ST S A) := fun m n => ∀ s, m s = n s.

#[global] Instance st_eq_equivalence {S A} : Equivalence (@st_eq S A).
Proof.
  split; [by intros m s|by intros m n H s|].
  intros m n o H1 H2 s. by rewrite H1, H2.
Qed.

#[global] Instance st_bind_proper {S A B} :
  Proper (pointwise_relation A st_eq ==> st_eq ==> st_eq) (@mbind (ST S) _ A B).
Proof.
  intros f g Hfg m n Hmn s. unfold mbind, ST_bind. rewrite Hmn.
  destruct (n s) as [[a|e] s']; [apply Hfg|done].
Qed.

Lemma st_bind_assoc {S A B C} (m : ST S A) (f : A → ST S B) (g : B → ST S C) :
  st_eq ((m ≫= f) ≫= g) (m ≫= λ a, f a ≫= g).
Proof. intros s. unfold mbind, ST_bind. by destruct (m s) as [[a|e] s']. Qed.

Lemma st_ret_bind {S A B} (a : A) (f : A → ST S B) : st_eq (mret a ≫= f) (f a).
Proof. by intros s. Qed.

Lemma for_each_app {S A} (f : A → ST S ()) l1 l2 :
  st_eq (for_each f (l1 ++ l2)) (for_each f l1 ;; for_each f l2).
Proof.
  induction l1 as [|x l1 IH]; simpl; [by intros s|].
  etransitivity; [|symmetry; apply st_bind_assoc]. f_equiv. intros _. exact IH.
Qed.

(** ** Observations that a computation preserves *)

(** [m] leaves what [V] sees of the state as it was, whatever it returns. *)
Definition pres {S X T} (V : S → T) (m : S → X * S) : Prop := ∀ s, V (m s).2 = V s.

Section pres.
Context {S T : Type} (V : S → T).

Lemma pres_ret {A} (a : A) : pres V (mret (M := ST S) a).
Proof. by intros s. Qed.

Lemma pres_lift {A} (r : result error A) : pres V (lift r).
Proof. by intros s. Qed.

Lemma pres_bind {A B} (m : ST S A) (f : A → ST S B) :
  pres V m → (∀ a, pres V (f a)) → pres V (m ≫= f).
Proof.
  intros Hm Hf s. unfold mbind, ST_bind. specialize (Hm s).
  destruct (m s) as [[a|e] s']; simpl in *; [by rewrite Hf|done].
Qed.

Lemma pres_for_each {A} (f : A → ST S ()) l : (∀ a, pres V (f a)) → pres V (for_each f l).
Proof. intros Hf. induction l; simpl; [apply pres_ret|by apply pres_bind]. Qed.

Lemma pres_with_context {A} c (m : ST S A) : pres V m → pres V (with_context c m).
Proof. intros Hm s. unfold with_context. specialize (Hm s). by destruct (m s). Qed.
End pres.

(** ** Automation *)

(** Equations between closed terms, by evaluation. *)
Ltac by_vm := lazymatch goal with |- _ = ?b => vm_cast_no_check (eq_refl b) end.

(** Case analysis on every scrutinee of the goal or of the hypotheses, then closing
    the branches that contradict themselves. *)
Ltac crush := repeat (simplify_eq/=; try case_match; try done).

Create HintDb mizzle.

#[export] Hint Resolve pres_ret pres_lift pres_bind pres_for_each pres_with_context : mizzle.

(** What a computation preserves, along the structure of its code; [step] knows the
    control structures of a component. *)
Ltac walk_pres step :=
  repeat first
    [ progress intros
    | match goal with |- pres _ (let '(_, _) := ?p in _) => destruct p end
    | match goal with |- pres _ (match ?x with _ => _ end) => destruct x end
    | match goal with |- pres _ (if ?b then _ else _) => destruct b end
    | solve [eauto with mizzle nocore]
    | step
    | apply pres_bind ].
