(* ===== verification/Bytes.v ===== *)
(** * Byte-string operations of the Rust standard library

    What the sources use of [slice], [str], [u32], [u64] and [usize]: prefixes,
    suffixes, splitting, UTF-8 validation, number parsing and printing, and
    big-endian encodings, with the lemmas the components share. *)

From stdpp Require Import base gmap list strings.
From Stdlib Require Import Strings.Byte Lia.
From S2P Require Import Prelude.

#[local] Open Scope N_scope.

(** ** Bytes as numbers *)

Definition of_N (n : N) : byte := default x00 (Byte.of_N n).

Lemma to_N_of_N n : n < 256 → Byte.to_N (of_N n) = n.
Proof.
  intros Hn. unfold of_N. destruct (Byte.of_N n) as [b|] eqn:E; simpl.
  - by apply Byte.to_of_N in E.
  - apply Byte.of_N_None_iff in E. lia.
Qed.

Lemma of_N_to_N b : of_N (Byte.to_N b) = b.
Proof. unfold of_N. by rewrite Byte.of_to_N. Qed.

Lemma to_N_lt b : Byte.to_N b < 256.
Proof. pose proof (Byte.to_N_bounded b). lia. Qed.

Lemma to_N_inj b c : Byte.to_N b = Byte.to_N c → b = c.
Proof. intros E. by rewrite <- (of_N_to_N b), E, of_N_to_N. Qed.

(** ** Prefixes and suffixes *)

(** [s.strip_prefix(p)]. *)
Fixpoint strip_prefix (p s : bytes) : option bytes :=
  match p, s with
  | [], _ => Some s
  | x :: p', y :: s' => if decide (x = y) then strip_prefix p' s' else None
  | _ :: _, [] => None
  end.

(** [s.starts_with(p)]. *)
Definition starts_with (p s : bytes) : bool :=
  match strip_prefix p s with Some _ => true | None => false end.

(** [s.strip_suffix(p)]. *)
Definition strip_suffix (p s : bytes) : option bytes :=
  reverse <$> strip_prefix (reverse p) (reverse s).

(** [d.strip_suffix(b"\n").unwrap_or(d)]. *)
Definition strip_newline (d : bytes) : bytes := default d (strip_suffix [x0a] d).

Lemma strip_prefix_Some p s r : strip_prefix p s = Some r ↔ s = p ++ r.
Proof.
  revert s; induction p as [|x p IH]; intros s; simpl.
  - split; [by intros [= ->] | by intros ->].
  - destruct s as [|y s]; [done|]. case_decide as E; [subst|].
    + rewrite IH. split; [by intros -> | by intros [= ->]].
    + split; [done | by intros [= ? ?]].
Qed.

Lemma strip_prefix_app p r : strip_prefix p (p ++ r) = Some r.
Proof. by apply strip_prefix_Some. Qed.

Lemma strip_prefix_None p s : strip_prefix p s = None ↔ ∀ r, s ≠ p ++ r.
Proof.
  rewrite eq_None_not_Some. split.
  - intros H r ->. apply H. exists r. apply strip_prefix_app.
  - intros H [r Hr]. by apply (H r), strip_prefix_Some.
Qed.

Lemma starts_with_true p s : starts_with p s = true ↔ ∃ r, s = p ++ r.
Proof.
  unfold starts_with. destruct (strip_prefix p s) as [r|] eqn:E.
  - apply strip_prefix_Some in E. split; eauto.
  - split; [done|]. intros [r Hr]. by destruct (proj1 (strip_prefix_None p s) E r).
Qed.

Lemma strip_suffix_Some p s r : strip_suffix p s = Some r ↔ s = r ++ p.
Proof.
  unfold strip_suffix. rewrite fmap_Some. split.
  - intros (x & Hx%strip_prefix_Some & ->).
    apply (f_equal reverse) in Hx. by rewrite reverse_app, !reverse_involutive in Hx.
  - intros ->. exists (reverse r). rewrite reverse_app, reverse_involutive.
    split; [by apply strip_prefix_Some | done].
Qed.

Lemma strip_newline_snoc d : strip_newline (d ++ [x0a]) = d.
Proof. unfold strip_newline. by rewrite (proj2 (strip_suffix_Some _ _ d)). Qed.

Lemma strip_newline_noop d : last d ≠ Some x0a → strip_newline d = d.
Proof.
  intros H. unfold strip_newline. destruct (strip_suffix [x0a] d) eqn:E; [|done].
  apply strip_suffix_Some in E as ->. by rewrite last_snoc in H.
Qed.

(** ** Searching and splitting *)

(** [s.iter().position(|b| b == c)]. *)
Fixpoint position (c : byte) (s : bytes) : option nat :=
  match s with
  | [] => None
  | x :: s' => if decide (x = c) then Some 0%nat else S <$> position c s'
  end.

(** [s.splitn(2, |b| b == c)] as (first piece, rest if the separator occurs). *)
Fixpoint split_once (c : byte) (s : bytes) : bytes * option bytes :=
  match s with
  | [] => ([], None)
  | x :: s' =>
      if decide (x = c) then ([], Some s')
      else let '(a, r) := split_once c s' in (x :: a, r)
  end.

(** [s.splitn(n, |b| b == c)], for [n > 0]: at most [n] pieces. *)
Fixpoint splitn (n : nat) (c : byte) (s : bytes) : list bytes :=
  match n with
  | O => []
  | S O => [s]
  | S n' =>
      match split_once c s with
      | (a, None) => [a]
      | (a, Some r) => a :: splitn n' c r
      end
  end.

(** [s.split(|b| b == c)]: always at least one piece. *)
Fixpoint split (c : byte) (s : bytes) : list bytes :=
  match s with
  | [] => [[]]
  | x :: s' =>
      if decide (x = c) then [] :: split c s'
      else match split c s' with
           | [] => [[x]]
           | p :: ps => (x :: p) :: ps
           end
  end.

Lemma split_once_no_sep c s : c ∉ s → split_once c s = (s, None).
Proof.
  induction s as [|x s IH]; intros Hc; simpl; [done|].
  rewrite decide_False by set_solver. by rewrite IH by set_solver.
Qed.

Lemma split_once_sep c a r : c ∉ a → split_once c (a ++ c :: r) = (a, Some r).
Proof.
  induction a as [|x a IH]; intros Hc; simpl; [by rewrite decide_True|].
  rewrite decide_False by set_solver. by rewrite IH by set_solver.
Qed.

Lemma split_once_spec c s a o :
  split_once c s = (a, o) →
  (c ∉ a) ∧ s = a ++ (match o with Some r => c :: r | None => [] end).
Proof.
  revert a o; induction s as [|x s IH]; intros a o; simpl.
  - intros [= <- <-]. set_solver.
  - case_decide as E; [intros [= <- <-]; subst; split; [set_solver|done]|].
    destruct (split_once c s) as [a' o'] eqn:Hs. intros [= <- <-].
    destruct (IH _ _ eq_refl) as [H1 H2]. split; [set_solver|]. by rewrite H2 at 1.
Qed.

(** The pieces joined with the separator are the input again. *)
Fixpoint join (sep : bytes) (ps : list bytes) : bytes :=
  match ps with
  | [] => []
  | [p] => p
  | p :: ps' => p ++ sep ++ join sep ps'
  end.

Lemma split_not_nil c s : split c s ≠ [].
Proof. destruct s as [|x s]; simpl; [done|]. case_decide; [done|]. by destruct (split c s). Qed.

Lemma join_split c s : join [c] (split c s) = s.
Proof.
  induction s as [|x s IH]; simpl; [done|].
  pose proof (split_not_nil c s) as Hn.
  case_decide as E; destruct (split c s) as [|p ps] eqn:Hs; try done; simpl in *.
  - subst x. by rewrite IH.
  - destruct ps; simpl in *; by rewrite <- IH.
Qed.

(** [text.lines()]: the pieces between newlines without a final carriage return;
    a trailing newline does not start another line. *)
Definition strip_cr (l : bytes) : bytes := default l (strip_suffix [x0d] l).

Fixpoint lines (s : bytes) : list bytes :=
  match s with
  | [] => []
  | x :: s' =>
      if decide (x = x0a) then [] :: lines s'
      else match lines s' with
           | [] => [[x]]
           | l :: ls => (x :: l) :: ls
           end
  end.

Definition str_lines (s : bytes) : list bytes := strip_cr <$> lines s.

Lemma lines_app_nl l s : x0a ∉ l → lines (l ++ x0a :: s) = l :: lines s.
Proof.
  induction l as [|x l IH]; intros H; simpl; [done|].
  rewrite decide_False by set_solver. by rewrite IH by set_solver.
Qed.

Lemma strip_cr_noop l : last l ≠ Some x0d → strip_cr l = l.
Proof.
  intros H. unfold strip_cr. destruct (strip_suffix [x0d] l) eqn:E; [|done].
  apply strip_suffix_Some in E as ->. by rewrite last_snoc in H.
Qed.

(** ** UTF-8 *)

Definition in_range (lo hi : N) (b : byte) : bool :=
  (lo <=? Byte.to_N b) && (Byte.to_N b <=? hi).

Definition utf8_cont : byte → bool := in_range 128 191.

(** The second byte of a three- or four-byte sequence, by its first byte. *)
Definition utf8_second (b0 b1 : byte) : bool :=
  if in_range 224 224 b0 then in_range 160 191 b1
  else if in_range 237 237 b0 then in_range 128 159 b1
  else if in_range 240 240 b0 then in_range 144 191 b1
  else if in_range 244 244 b0 then in_range 128 143 b1
  else utf8_cont b1.

(** [std::str::from_utf8(s).is_ok()]. *)
Fixpoint utf8_valid (s : bytes) : bool :=
  match s with
  | [] => true
  | b0 :: s0 =>
      if in_range 0 127 b0 then utf8_valid s0
      else if in_range 194 223 b0 then
        match s0 with
        | b1 :: s1 => utf8_cont b1 && utf8_valid s1
        | [] => false
        end
      else if in_range 224 239 b0 then
        match s0 with
        | b1 :: b2 :: s2 => utf8_second b0 b1 && utf8_cont b2 && utf8_valid s2
        | _ => false
        end
      else if in_range 240 244 b0 then
        match s0 with
        | b1 :: b2 :: b3 :: s3 =>
            utf8_second b0 b1 && utf8_cont b2 && utf8_cont b3 && utf8_valid s3
        | _ => false
        end
      else false
  end.

(** [String::from_utf8(s)]. *)
Definition from_utf8 (s : bytes) : result error bytes :=
  if utf8_valid s then Ok s else Err Utf8Error.

Definition is_ascii (b : byte) : bool := in_range 0 127 b.

Lemma utf8_valid_ascii s t :
  Forall (λ b, is_ascii b = true) s → utf8_valid (s ++ t) = utf8_valid t.
Proof. induction 1 as [|b s Hb _ IH]; simpl; [done|]. unfold is_ascii in Hb. by rewrite Hb. Qed.

(** ** Numbers *)

(** [c.to_digit(radix)] on a byte. *)
Definition to_digit (radix : N) (b : byte) : option N :=
  let n := Byte.to_N b in
  let d := if in_range 48 57 b then Some (n - 48)
           else if in_range 97 122 b then Some (n - 87)
           else if in_range 65 90 b then Some (n - 55)
           else None in
  d ← d; if d <? radix then Some d else None.

(** The accumulation loop of [from_str_radix]: checked multiplication and addition. *)
Fixpoint parse_digits (radix max acc : N) (s : bytes) : option N :=
  match s with
  | [] => Some acc
  | b :: s' =>
      d ← to_digit radix b;
      if max <? acc * radix then None
      else if max <? acc * radix + d then None
      else parse_digits radix max (acc * radix + d) s'
  end.

(** [uN::from_str_radix(s, radix)]: an optional leading [+], then at least one digit. *)
Definition from_str_radix (radix max : N) (s : bytes) : option N :=
  match s with
  | [] => None
  | b :: s' =>
      if decide (b = x2b) then
        match s' with [] => None | _ => parse_digits radix max 0 s' end
      else parse_digits radix max 0 s
  end.

Definition u16_max : N := 65535.
Definition u32_max : N := 4294967295.
Definition u64_max : N := 18446744073709551615.
Definition usize_max : N := u64_max.

(** [s.parse::<u32>()] and [s.parse::<u64>()]. *)
Definition parse_u32 : bytes → option N := from_str_radix 10 u32_max.
Definition parse_u64 : bytes → option N := from_str_radix 10 u64_max.

Lemma parse_digits_app radix max acc s t :
  parse_digits radix max acc (s ++ t) =
  parse_digits radix max acc s ≫= λ a, parse_digits radix max a t.
Proof.
  revert acc; induction s as [|b s IH]; intros acc; simpl; [done|].
  destruct (to_digit radix b); simpl; [|done]. repeat (case_match; [done|]). apply IH.
Qed.

Lemma parse_digits_le radix max acc s n :
  acc ≤ max → parse_digits radix max acc s = Some n → n ≤ max.
Proof.
  revert acc; induction s as [|b s IH]; intros acc Hacc; simpl; [by intros [= <-]|].
  destruct (to_digit radix b) as [d|]; simpl; [|done].
  destruct (N.ltb_spec max (acc * radix)); [done|].
  destruct (N.ltb_spec max (acc * radix + d)); [done|]. by apply IH.
Qed.

Lemma from_str_radix_le radix max s n : from_str_radix radix max s = Some n → n ≤ max.
Proof.
  destruct s as [|b s]; [done|]. unfold from_str_radix. case_decide.
  - destruct s; [done|]. apply parse_digits_le. lia.
  - apply parse_digits_le. lia.
Qed.

(** [{:x}] and [{}] of one digit. *)
Definition digit (d : N) : byte := of_N (if d <? 10 then 48 + d else 87 + d).

(** [format!("{}", n)]: the decimal digits, most significant first. *)
Fixpoint decimal_fuel (fuel : nat) (n : N) : bytes :=
  match fuel with
  | O => []
  | S f => if n <? 10 then [digit n] else decimal_fuel f (n / 10) ++ [digit (n mod 10)]
  end.

Definition decimal (n : N) : bytes := decimal_fuel (S (N.size_nat n)) n.

Lemma digit_to_N d : d < 16 → Byte.to_N (digit d) = if d <? 10 then 48 + d else 87 + d.
Proof. intros H. unfold digit. apply to_N_of_N. case_match; lia. Qed.

Lemma to_digit_digit radix d : radix ≤ 16 → d < radix → to_digit radix (digit d) = Some d.
Proof.
  intros Hr Hd. unfold to_digit, in_range. rewrite digit_to_N by lia.
  destruct (N.ltb_spec d 10).
  - rewrite (proj2 (N.leb_le 48 _)), (proj2 (N.leb_le _ 57)) by lia; simpl.
    replace (48 + d - 48) with d by lia. by rewrite (proj2 (N.ltb_lt d radix)).
  - rewrite (proj2 (N.leb_gt (87 + d) 57)), andb_false_r by lia.
    rewrite (proj2 (N.leb_le 97 _)), (proj2 (N.leb_le _ 122)) by lia; simpl.
    replace (87 + d - 87) with d by lia. by rewrite (proj2 (N.ltb_lt d radix)).
Qed.

Lemma parse_digits_one radix max acc d :
  radix ≤ 16 → d < radix → acc * radix + d ≤ max →
  parse_digits radix max acc [digit d] = Some (acc * radix + d).
Proof.
  intros Hr Hd Hm. simpl. rewrite to_digit_digit by done. simpl.
  rewrite (proj2 (N.ltb_ge max (acc * radix))) by lia.
  by rewrite (proj2 (N.ltb_ge max (acc * radix + d))) by lia.
Qed.

Lemma decimal_fuel_parse fuel n max :
  n < 10 ^ N.of_nat fuel → n ≤ max → parse_digits 10 max 0 (decimal_fuel fuel n) = Some n.
Proof.
  revert n; induction fuel as [|f IH]; intros n Hn Hm; cbn [decimal_fuel].
  - simpl. f_equal. change (10 ^ N.of_nat 0) with 1 in Hn. lia.
  - rewrite Nat2N.inj_succ, N.pow_succ_r' in Hn.
    destruct (N.ltb_spec n 10) as [H|H]; [by rewrite parse_digits_one by lia|].
    pose proof (N.div_mod n 10 ltac:(lia)). pose proof (N.mod_lt n 10 ltac:(lia)).
    assert (n / 10 < 10 ^ N.of_nat f) by (apply N.Div0.div_lt_upper_bound; lia).
    assert (n / 10 ≤ max) by (apply N.Div0.div_le_upper_bound; lia).
    rewrite parse_digits_app, IH by done.
    cbn [mbind option_bind]. rewrite parse_digits_one by lia. f_equal. lia.
Qed.

Lemma decimal_not_nil n : decimal n ≠ [].
Proof. unfold decimal. cbn [decimal_fuel]. case_match; [done|]. by destruct (decimal_fuel _ _). Qed.

Lemma size_nat_pow n : n < 10 ^ N.of_nat (S (N.size_nat n)).
Proof.
  assert (n < 2 ^ N.of_nat (N.size_nat n)) as H.
  { destruct n as [|p]; [done|]. simpl. induction p as [p IH|p IH|]; [| |done];
      cbn [Pos.size_nat]; rewrite Nat2N.inj_succ, N.pow_succ_r'; lia. }
  assert (2 ^ N.of_nat (N.size_nat n) ≤ 10 ^ N.of_nat (N.size_nat n))
    by (apply N.pow_le_mono_l; lia).
  rewrite Nat2N.inj_succ, N.pow_succ_r'. lia.
Qed.

Lemma decimal_digits n : Forall (λ b, in_range 48 57 b = true) (decimal n).
Proof.
  unfold decimal. generalize (S (N.size_nat n)) as f. intros f; revert n.
  induction f as [|f IH]; intros n; cbn [decimal_fuel]; [constructor|].
  assert (∀ d, d < 10 → in_range 48 57 (digit d) = true) as Hd.
  { intros d H. unfold in_range. rewrite digit_to_N, (proj2 (N.ltb_lt d 10)) by lia.
    rewrite (proj2 (N.leb_le 48 _)), (proj2 (N.leb_le _ 57)) by lia. done. }
  destruct (N.ltb_spec n 10); [repeat constructor; by apply Hd|].
  apply Forall_app; split; [apply IH|]. repeat constructor. apply Hd, N.mod_lt. lia.
Qed.

(** Printing then parsing a number in range gives it back. *)
Lemma from_str_radix_decimal max n : n ≤ max → from_str_radix 10 max (decimal n) = Some n.
Proof.
  intros H. pose proof (decimal_not_nil n) as Hn. pose proof (decimal_digits n) as Hd.
  pose proof (decimal_fuel_parse _ n max (size_nat_pow n) H) as Hp. fold (decimal n) in Hp.
  destruct (decimal n) as [|b s]; [done|]. unfold from_str_radix.
  rewrite decide_False; [done|]. intros ->. by apply Forall_cons in Hd as [? _].
Qed.

(** ** Fixed-width encodings *)

(** [n.to_be_bytes()] for a [k]-byte integer. *)
Fixpoint to_be_bytes (k : nat) (n : N) : bytes :=
  match k with
  | O => []
  | S k' => to_be_bytes k' (n / 256) ++ [of_N (n mod 256)]
  end.

(** [uN::from_be_bytes(s)]. *)
Definition from_be_bytes (s : bytes) : N := foldl (λ a b, a * 256 + Byte.to_N b) 0 s.

(** [n.to_le_bytes()]. *)
Definition to_le_bytes (k : nat) (n : N) : bytes := reverse (to_be_bytes k n).

Lemma length_to_be_bytes k n : length (to_be_bytes k n) = k.
Proof. revert n; induction k as [|k IH]; intros n; simpl; [done|]. rewrite length_app, IH. simpl; lia. Qed.

Lemma length_to_le_bytes k n : length (to_le_bytes k n) = k.
Proof. unfold to_le_bytes. by rewrite length_reverse, length_to_be_bytes. Qed.

Lemma from_be_bytes_snoc s b : from_be_bytes (s ++ [b]) = from_be_bytes s * 256 + Byte.to_N b.
Proof. unfold from_be_bytes. by rewrite foldl_app. Qed.

Lemma from_to_be_bytes k n : n < 256 ^ N.of_nat k → from_be_bytes (to_be_bytes k n) = n.
Proof.
  revert n; induction k as [|k IH]; intros n Hn.
  - change (256 ^ N.of_nat 0) with 1 in Hn. cbn. lia.
  - rewrite Nat2N.inj_succ, N.pow_succ_r' in Hn. cbn [to_be_bytes].
    pose proof (N.div_mod n 256 ltac:(lia)). pose proof (N.mod_lt n 256 ltac:(lia)).
    rewrite from_be_bytes_snoc, IH by (apply N.Div0.div_lt_upper_bound; lia).
    rewrite to_N_of_N by done. lia.
Qed.

Lemma from_be_bytes_bound s : from_be_bytes s < 256 ^ N.of_nat (length s).
Proof.
  induction s as [|b s IH] using rev_ind; [done|].
  rewrite from_be_bytes_snoc, length_app, Nat.add_comm. cbn [length Nat.add].
  rewrite Nat2N.inj_succ, N.pow_succ_r'. pose proof (to_N_lt b). nia.
Qed.

Lemma to_from_be_bytes s : to_be_bytes (length s) (from_be_bytes s) = s.
Proof.
  induction s as [|b s IH] using rev_ind; [done|].
  rewrite from_be_bytes_snoc, length_app, Nat.add_comm. cbn [length Nat.add to_be_bytes].
  pose proof (to_N_lt b).
  rewrite N.div_add_l, (N.div_small (Byte.to_N b)), N.add_0_r, IH by lia.
  rewrite N.add_comm, N.Div0.mod_add, N.mod_small, of_N_to_N by done. done.
Qed.

Lemma to_be_bytes_inj k n m :
  n < 256 ^ N.of_nat k → m < 256 ^ N.of_nat k → to_be_bytes k n = to_be_bytes k m → n = m.
Proof. intros Hn Hm E. by rewrite <- (from_to_be_bytes k n), E, from_to_be_bytes. Qed.

(** ** Hexadecimal *)

(** [{:02x}] of every byte in turn. *)
Definition hex_byte (b : byte) : bytes :=
  [digit (Byte.to_N b / 16); digit (Byte.to_N b mod 16)].

Definition hex (s : bytes) : bytes := s ≫= hex_byte.

Lemma length_hex s : length (hex s) = (2 * length s)%nat.
Proof. induction s as [|b s IH]; simpl; [done|]. unfold hex in *. lia. Qed.

(** The characters of a lowercase hexadecimal string. *)
Definition is_hex_digit (b : byte) : bool := in_range 48 57 b || in_range 97 102 b.

Lemma digit_is_hex d : d < 16 → is_hex_digit (digit d) = true.
Proof.
  intros H. unfold is_hex_digit, in_range. rewrite digit_to_N by done.
  destruct (N.ltb_spec d 10).
  - by rewrite (proj2 (N.leb_le 48 _)), (proj2 (N.leb_le _ 57)) by lia.
  - by rewrite (proj2 (N.leb_le 97 _)), (proj2 (N.leb_le _ 102)), orb_true_r by lia.
Qed.

Lemma hex_digits s : Forall (λ b, is_hex_digit b = true) (hex s).
Proof.
  induction s as [|b s IH]; simpl; [constructor|].
  pose proof (to_N_lt b).
  repeat constructor; try done; apply digit_is_hex.
  - apply N.Div0.div_lt_upper_bound. lia.
  - apply N.mod_lt. lia.
Qed.

Lemma is_hex_digit_ascii b : is_hex_digit b = true → is_ascii b = true.
Proof.
  unfold is_hex_digit, is_ascii, in_range.
  rewrite orb_true_iff, !andb_true_iff, !N.leb_le. intros. split; lia.
Qed.

Lemma hex_utf8 s t :
  Forall (λ b, is_hex_digit b = true) s → utf8_valid (s ++ t) = utf8_valid t.
Proof. intros H. apply utf8_valid_ascii. by eapply Forall_impl; [|apply is_hex_digit_ascii]. Qed.

Lemma parse_digits_hex max acc s :
  acc * 256 ^ N.of_nat (length s) + from_be_bytes s ≤ max →
  parse_digits 16 max acc (hex s) = Some (acc * 256 ^ N.of_nat (length s) + from_be_bytes s).
Proof.
  revert acc. induction s as [|b s IH] using rev_ind; intros acc Hm.
  - unfold from_be_bytes in *. change (256 ^ N.of_nat (length [])) with 1 in *. simpl. f_equal. lia.
  - rewrite from_be_bytes_snoc, length_app, Nat.add_comm in *. cbn [length Nat.add] in *.
    rewrite Nat2N.inj_succ, N.pow_succ_r' in *.
    set (P := 256 ^ N.of_nat (length s)) in *. clearbody P.
    replace (acc * (256 * P)) with (256 * (acc * P)) in * by lia.
    specialize (IH acc). set (Q := acc * P) in *. clearbody Q.
    unfold hex in *. rewrite bind_app, parse_digits_app, IH by lia.
    change ([b] ≫= hex_byte) with
      ([digit (Byte.to_N b / 16)] ++ [digit (Byte.to_N b mod 16)]). cbn [mbind option_bind].
    pose proof (to_N_lt b). pose proof (N.div_mod (Byte.to_N b) 16 ltac:(lia)).
    pose proof (N.mod_lt (Byte.to_N b) 16 ltac:(lia)).
    assert (Byte.to_N b / 16 < 16) by (apply N.Div0.div_lt_upper_bound; lia).
    generalize dependent (Byte.to_N b / 16). intros hi.
    generalize dependent (Byte.to_N b mod 16). intros lo. intros.
    rewrite parse_digits_app, parse_digits_one by lia. cbn [mbind option_bind].
    rewrite parse_digits_one by lia. f_equal. lia.
Qed.

(** [{:04x}] read back in base 16. *)
Lemma from_str_radix_hex max s :
  s ≠ [] → from_be_bytes s ≤ max → from_str_radix 16 max (hex s) = Some (from_be_bytes s).
Proof.
  intros Hs Hm. pose proof (hex_digits s) as Hd.
  pose proof (parse_digits_hex max 0 s ltac:(lia)) as Hp. rewrite N.mul_0_l, N.add_0_l in Hp.
  destruct s as [|b s]; [done|]. revert Hp Hd.
  change (hex (b :: s)) with (hex_byte b ++ hex s). unfold hex_byte. cbn [app].
  intros Hp Hd. unfold from_str_radix. rewrite decide_False; [done|].
  intros E. apply Forall_cons in Hd as [Hd _]. by rewrite E in Hd.
Qed.

(** ** Lexicographic order *)

(** The byte order of keys: [Ord] of [Vec<u8>]. *)
Fixpoint lex_ltb (s t : bytes) : bool :=
  match s, t with
  | [], [] => false
  | [], _ :: _ => true
  | _ :: _, [] => false
  | x :: s', y :: t' =>
      if decide (x = y) then lex_ltb s' t' else Byte.to_N x <? Byte.to_N y
  end.

Definition lex_leb (s t : bytes) : bool := negb (lex_ltb t s).

Lemma lex_ltb_irrefl s : lex_ltb s s = false.
Proof. induction s as [|x s IH]; simpl; [done|]. by rewrite decide_True. Qed.

Lemma lex_ltb_trans s t u : lex_ltb s t = true → lex_ltb t u = true → lex_ltb s u = true.
Proof.
  revert t u; induction s as [|x s IH]; intros [|y t] [|z u]; simpl; try done.
  repeat case_decide; subst; eauto; try congruence.
  - rewrite !N.ltb_lt. lia.
  - rewrite !N.ltb_lt. lia.
Qed.

Lemma lex_ltb_total s t : lex_ltb s t = false → lex_ltb t s = false → s = t.
Proof.
  revert t; induction s as [|x s IH]; intros [|y t]; simpl; try done.
  case_decide as E; [subst; rewrite decide_True by done; intros; f_equal; auto|].
  rewrite decide_False by done. rewrite !N.ltb_ge. intros.
  destruct E. apply to_N_inj. lia.
Qed.

Lemma lex_ltb_app_l p s t : lex_ltb (p ++ s) (p ++ t) = lex_ltb s t.
Proof. induction p as [|x p IH]; simpl; [done|]. by rewrite decide_True. Qed.

Lemma lex_ltb_prefix p s : s ≠ [] → lex_ltb p (p ++ s) = true.
Proof. intros H. rewrite <- (app_nil_r p) at 1. rewrite lex_ltb_app_l. by destruct s. Qed.

(** On encodings of one width the byte order is the numeric order. *)
Lemma lex_ltb_snoc s t x y :
  length s = length t →
  lex_ltb (s ++ [x]) (t ++ [y]) =
  if decide (s = t) then Byte.to_N x <? Byte.to_N y else lex_ltb s t.
Proof.
  revert t; induction s as [|a s IH]; intros [|c t] Hl; simplify_eq/=.
  - case_decide as E; [subst; by rewrite N.ltb_irrefl|done].
  - rewrite IH by done. repeat case_decide; simplify_eq; done.
Qed.

Lemma lt_div_mod_256 n m :
  n < m ↔ n / 256 < m / 256 ∨ (n / 256 = m / 256 ∧ n mod 256 < m mod 256).
Proof.
  pose proof (N.div_mod n 256 ltac:(lia)). pose proof (N.mod_lt n 256 ltac:(lia)).
  pose proof (N.div_mod m 256 ltac:(lia)). pose proof (N.mod_lt m 256 ltac:(lia)).
  generalize dependent (n / 256). generalize dependent (n mod 256).
  generalize dependent (m / 256). generalize dependent (m mod 256). lia.
Qed.

Lemma lex_ltb_be k n m :
  n < 256 ^ N.of_nat k → m < 256 ^ N.of_nat k →
  lex_ltb (to_be_bytes k n) (to_be_bytes k m) = (n <? m).
Proof.
  revert n m; induction k as [|k IH]; intros n m Hn Hm.
  - change (256 ^ N.of_nat 0) with 1 in *. assert (n = 0 ∧ m = 0) as [-> ->] by lia. done.
  - rewrite Nat2N.inj_succ, N.pow_succ_r' in Hn, Hm. cbn [to_be_bytes].
    assert (n / 256 < 256 ^ N.of_nat k) by (apply N.Div0.div_lt_upper_bound; lia).
    assert (m / 256 < 256 ^ N.of_nat k) by (apply N.Div0.div_lt_upper_bound; lia).
    rewrite lex_ltb_snoc by (by rewrite !length_to_be_bytes).
    rewrite !to_N_of_N, IH by (done || by apply N.mod_lt).
    apply Bool.eq_iff_eq_true. rewrite (N.ltb_lt n m), lt_div_mod_256.
    case_decide as E; rewrite N.ltb_lt.
    + apply to_be_bytes_inj in E; [|done..]. lia.
    + assert (n / 256 ≠ m / 256) by (intros F; by rewrite F in E). lia.
Qed.

(** ** Streams *)

(** An [AsyncRead] as the results of its reads: what it delivers: the bytes up to the first empty read or error. *)
Fixpoint reads_data (reads : list (result error bytes)) : bytes * result error () :=
  match reads with
  | [] | Ok [] :: _ => ([], Ok ())
  | Err e :: _ => ([], Err e)
  | Ok c :: reads' => let '(d, r) := reads_data reads' in (c ++ d, r)
  end.
