(* ===== verification/Text.v ===== *)
(** * More of the standard library's strings

    [String::from_utf8_lossy], [str::trim] and [str::split_whitespace], which the code
    that reads the output of other programs uses.  Strings are their UTF-8 bytes; white
    space is Unicode's. *)

From stdpp Require Import base gmap list sorting strings.
From Stdlib Require Import Strings.Byte NArith Lia.
From S2P Require Import Prelude Bytes.
Open Scope N_scope.

(** ** Lossy decoding *)

(** U+FFFD. *)
Definition REPLACEMENT : bytes := [xef; xbf; xbd].

(** [String::from_utf8_lossy]: each longest prefix of a character that is not
    completed becomes a replacement character. *)
Fixpoint lossy (s : bytes) : bytes :=
  match s with
  | [] => []
  | b0 :: s0 =>
      if in_range 0 127 b0 then b0 :: lossy s0
      else if in_range 194 223 b0 then
        match s0 with
        | b1 :: s1 => if utf8_cont b1 then b0 :: b1 :: lossy s1 else REPLACEMENT ++ lossy s0
        | [] => REPLACEMENT
        end
      else if in_range 224 239 b0 then
        match s0 with
        | b1 :: s1 =>
            if utf8_second b0 b1 then
              match s1 with
              | b2 :: s2 => if utf8_cont b2 then b0 :: b1 :: b2 :: lossy s2 else REPLACEMENT ++ lossy s1
              | [] => REPLACEMENT
              end
            else REPLACEMENT ++ lossy s0
        | [] => REPLACEMENT
        end
      else if in_range 240 244 b0 then
        match s0 with
        | b1 :: s1 =>
            if utf8_second b0 b1 then
              match s1 with
              | b2 :: s2 =>
                  if utf8_cont b2 then
                    match s2 with
                    | b3 :: s3 => if utf8_cont b3 then b0 :: b1 :: b2 :: b3 :: lossy s3 else REPLACEMENT ++ lossy s2
                    | [] => REPLACEMENT
                    end
                  else REPLACEMENT ++ lossy s1
              | [] => REPLACEMENT
              end
            else REPLACEMENT ++ lossy s0
        | [] => REPLACEMENT
        end
      else REPLACEMENT ++ lossy s0
  end.

(** Induction that follows the characters of a valid string. *)
Lemma utf8_ind (P : bytes → Prop) :
  P [] →
  (∀ b0 s, in_range 0 127 b0 = true → utf8_valid s = true → P s → P (b0 :: s)) →
  (∀ b0 b1 s, in_range 0 127 b0 = false → in_range 194 223 b0 = true → utf8_cont b1 = true →
     utf8_valid s = true → P s → P (b0 :: b1 :: s)) →
  (∀ b0 b1 b2 s, in_range 0 127 b0 = false → in_range 194 223 b0 = false → in_range 224 239 b0 = true →
     utf8_second b0 b1 = true → utf8_cont b2 = true → utf8_valid s = true → P s → P (b0 :: b1 :: b2 :: s)) →
  (∀ b0 b1 b2 b3 s, in_range 0 127 b0 = false → in_range 194 223 b0 = false → in_range 224 239 b0 = false →
     in_range 240 244 b0 = true → utf8_second b0 b1 = true → utf8_cont b2 = true → utf8_cont b3 = true →
     utf8_valid s = true → P s → P (b0 :: b1 :: b2 :: b3 :: s)) →
  ∀ s, utf8_valid s = true → P s.
Proof.
  intros H0 H1 H2 H3 H4. assert (∀ n s, (length s ≤ n)%nat → utf8_valid s = true → P s) as Hn; [|intros s; by eapply Hn].
  induction n as [|n IH]; intros [|b0 s] Hl; cbn [length] in Hl; try lia; [done..|]. cbn [utf8_valid].
  destruct (in_range 0 127 b0) eqn:E0. { intros Hv. apply H1; [done..|]. apply IH; [lia|done]. }
  destruct (in_range 194 223 b0) eqn:E1.
  { destruct s as [|b1 s]; [done|]. intros [Hc Hv]%andb_true_iff. apply H2; [done..|]. apply IH; [cbn in Hl; lia|done]. }
  destruct (in_range 224 239 b0) eqn:E2.
  { destruct s as [|b1 [|b2 s]]; try done. intros [[Hs Hc]%andb_true_iff Hv]%andb_true_iff.
    apply H3; [done..|]. apply IH; [cbn in Hl; lia|done]. }
  destruct (in_range 240 244 b0) eqn:E3; [|done].
  destruct s as [|b1 [|b2 [|b3 s]]]; try done. intros [[[Hs Hc]%andb_true_iff Hd]%andb_true_iff Hv]%andb_true_iff.
  apply H4; [done..|]. apply IH; [cbn in Hl; lia|done].
Qed.

(** A valid string, and what follows one, is read as it is. *)
Lemma lossy_app s t : utf8_valid s = true → lossy (s ++ t) = s ++ lossy t.
Proof.
  revert s. apply utf8_ind; [done|..]; intros; cbn [app lossy];
    repeat match goal with H : @eq bool _ _ |- _ => rewrite H; clear H end; congruence.
Qed.

Lemma lossy_valid s : utf8_valid s = true → lossy s = s.
Proof. intros Hs. rewrite <- (app_nil_r s) at 1. by rewrite lossy_app, app_nil_r. Qed.

(** ** White space *)

(** The characters with the White_Space property. *)
Definition whitespace : list bytes :=
  [[x09]; [x0a]; [x0b]; [x0c]; [x0d]; [x20]; [xc2; x85]; [xc2; xa0]; [xe1; x9a; x80];
   [xe2; x80; x80]; [xe2; x80; x81]; [xe2; x80; x82]; [xe2; x80; x83]; [xe2; x80; x84]; [xe2; x80; x85];
   [xe2; x80; x86]; [xe2; x80; x87]; [xe2; x80; x88]; [xe2; x80; x89]; [xe2; x80; x8a];
   [xe2; x80; xa8]; [xe2; x80; xa9]; [xe2; x80; xaf]; [xe2; x81; x9f]; [xe3; x80; x80]].

(** The string without one white-space character at its start, or at its end. *)
Definition first_space (s : bytes) : option bytes := head (omap (λ w, strip_prefix w s) whitespace).
Definition last_space (s : bytes) : option bytes := head (omap (λ w, strip_suffix w s) whitespace).

(** Repeat as long as something is stripped; every round takes a byte, so [length s]
    rounds are enough. *)
Fixpoint strip_all (fuel : nat) (strip : bytes → option bytes) (s : bytes) : bytes :=
  match fuel with
  | O => s
  | S fuel => match strip s with Some s' => strip_all fuel strip s' | None => s end
  end.

Definition trim_start (s : bytes) : bytes := strip_all (length s) first_space s.
Definition trim_end (s : bytes) : bytes := strip_all (length s) last_space s.

(** [s.trim()]. *)
Definition trim (s : bytes) : bytes := trim_end (trim_start s).

(** The bytes before the next white space, and the rest from there. *)
Fixpoint word (s : bytes) : bytes * bytes :=
  match s with
  | [] => ([], [])
  | b :: s' => if first_space s is Some _ then ([], s) else let '(w, rest) := word s' in (b :: w, rest)
  end.

Fixpoint words (fuel : nat) (s : bytes) : list bytes :=
  match fuel with
  | O => []
  | S fuel =>
      match trim_start s with
      | [] => []
      | s' => let '(w, rest) := word s' in w :: words fuel rest
      end
  end.

(** [s.split_whitespace()]. *)
Definition split_whitespace (s : bytes) : list bytes := words (S (length s)) s.

(** Printable ASCII is not white space, and neither is what starts or ends with it. *)
Definition graphic (b : byte) : bool := in_range 33 126 b.

Lemma first_space_graphic b s : graphic b = true → first_space (b :: s) = None.
Proof. intros Hb. by destruct b. Qed.

Lemma strip_suffix_snoc w x s b : x ≠ b → strip_suffix (w ++ [x]) (s ++ [b]) = None.
Proof.
  intros Hne. destruct (strip_suffix _ _) as [r|] eqn:E; [|done]. apply strip_suffix_Some in E.
  rewrite app_assoc in E. apply app_inj_tail in E as [_ E]. done.
Qed.

Lemma no_suffix l s b :
  Forall (λ w, ∃ w' x, w = w' ++ [x] ∧ x ≠ b) l → omap (λ w, strip_suffix w (s ++ [b])) l = [].
Proof.
  induction 1 as [|w l (w' & x & -> & Hx) _ IH]; [done|]. cbn [omap list_omap]. by rewrite strip_suffix_snoc.
Qed.

(** The bytes that end a white-space character. *)
Definition space_ends : list byte := omap last whitespace.

Lemma last_space_other b s : b ∉ space_ends → last_space (s ++ [b]) = None.
Proof.
  intros Hb. unfold last_space. rewrite no_suffix; [done|].
  assert (Forall (λ w, ∃ w' x, w = w' ++ [x] ∧ x ∈ space_ends) whitespace) as Hw.
  { apply Forall_forall. intros w Hw. destruct w as [|x w' _] using rev_ind; [by apply (bool_decide_eq_true _) in Hw|].
    exists w', x. split; [done|]. unfold space_ends. apply list_elem_of_omap. eexists. split; [exact Hw|]. apply last_snoc. }
  eapply Forall_impl; [exact Hw|]. intros w (w' & x & -> & Hx). exists w', x. split; [done|congruence].
Qed.

Lemma last_space_graphic b s : graphic b = true → last_space (s ++ [b]) = None.
Proof. intros Hb. apply last_space_other. apply (bool_decide_eq_false _). by destruct b. Qed.

Lemma last_space_nul s : last_space (s ++ [x00]) = None.
Proof. apply last_space_other. by apply (bool_decide_eq_false _). Qed.

Lemma strip_all_noop fuel strip s : strip s = None → strip_all fuel strip s = s.
Proof. intros Hs. destruct fuel as [|fuel]; [done|]. cbn. by rewrite Hs. Qed.

(** The space and the newline, which the programs that are read put around their output. *)
Definition blank (b : byte) : Prop := b = x20 ∨ b = x0a.

Lemma first_space_blank b s : blank b → first_space (b :: s) = Some s.
Proof. by intros [->| ->]. Qed.

Lemma last_space_blank s b : blank b → last_space (s ++ [b]) = Some s.
Proof.
  assert (strip_suffix [b] (s ++ [b]) = Some s) as Hs by by apply strip_suffix_Some.
  assert (∀ l1 l2, whitespace = l1 ++ [b] :: l2 → Forall (λ w, ∃ w' x, w = w' ++ [x] ∧ x ≠ b) l1 →
            last_space (s ++ [b]) = Some s) as Hl.
  { intros l1 l2 E Hl. unfold last_space. rewrite E, omap_app, (no_suffix l1) by done. cbn [app omap list_omap]. by rewrite Hs. }
  intros [->| ->].
  - apply (Hl [[x09]; [x0a]; [x0b]; [x0c]; [x0d]] _ eq_refl). repeat constructor; exists []; eexists; (split; [reflexivity|done]).
  - apply (Hl [[x09]] _ eq_refl). repeat constructor; exists []; eexists; (split; [reflexivity|done]).
Qed.

Lemma trim_end_blanks fuel s ws :
  Forall blank ws → strip_all (length ws + fuel) last_space (s ++ ws) = strip_all fuel last_space s.
Proof.
  revert fuel. induction ws as [|w ws IH] using rev_ind; intros fuel Hw; [by rewrite app_nil_r|].
  apply Forall_app in Hw as [Hws Hw%Forall_inv].
  rewrite length_app, app_assoc. replace (length ws + length [w] + fuel)%nat with (S (length ws + fuel)) by (cbn; lia).
  cbn [strip_all]. rewrite last_space_blank by done. by apply IH.
Qed.

(** Text that starts and ends with a graphic character. *)
Record framed (t : bytes) : Prop := {
  framed_first : ∃ b t', t = b :: t' ∧ graphic b = true;
  framed_last : ∃ t' b, t = t' ++ [b] ∧ graphic b = true }.

Lemma trim_framed t ws : framed t → Forall blank ws → trim (t ++ ws) = t.
Proof.
  intros [(b & t' & E & Hb) (t'' & b' & E' & Hb')] Hw. unfold trim, trim_start.
  rewrite (strip_all_noop _ _ (t ++ ws)) by (rewrite E; cbn [app]; by apply first_space_graphic).
  unfold trim_end. rewrite length_app, Nat.add_comm, trim_end_blanks by done.
  apply strip_all_noop. rewrite E'. by apply last_space_graphic.
Qed.

Lemma framed_app s m t : framed s → framed t → framed (s ++ m ++ t).
Proof.
  intros [(b & s' & -> & Hb) _] [_ (t' & c & -> & Hc)]. split.
  - exists b, (s' ++ m ++ t' ++ [c]). by rewrite <- ?app_assoc.
  - exists ((b :: s') ++ m ++ t'), c. by rewrite <- !app_assoc.
Qed.

Lemma framed_graphic t : t ≠ [] → Forall (λ b, graphic b = true) t → framed t.
Proof.
  intros Hn Ht. split.
  - destruct t as [|b t]; [done|]. apply Forall_cons in Ht as [Hb _]. eauto.
  - destruct t as [|b t _] using rev_ind; [done|]. apply Forall_app in Ht as [_ Hb%Forall_inv]. eauto.
Qed.

Lemma hex_digit_graphic b : is_hex_digit b = true → graphic b = true.
Proof. by destruct b. Qed.

(** ** Words *)

Lemma word_graphic w rest :
  Forall (λ b, graphic b = true) w → (rest = [] ∨ ∃ b r, rest = b :: r ∧ blank b) → word (w ++ rest) = (w, rest).
Proof.
  intros Hw Hr. induction Hw as [|b w Hb _ IH].
  - destruct Hr as [->|(b & r & -> & Hb)]; [done|]. cbn [app word]. by rewrite first_space_blank.
  - cbn [app word]. rewrite first_space_graphic by done. by rewrite IH.
Qed.

Lemma trim_start_graphic b s : graphic b = true → trim_start (b :: s) = b :: s.
Proof. intros Hb. apply strip_all_noop. by apply first_space_graphic. Qed.

Lemma trim_start_blank b s : blank b → trim_start (b :: s) = trim_start s.
Proof. intros Hb. unfold trim_start. cbn [length strip_all]. by rewrite first_space_blank. Qed.

Lemma words_join ws fuel :
  Forall (λ w, w ≠ [] ∧ Forall (λ b, graphic b = true) w) ws → (length ws < fuel)%nat →
  words fuel (join [x20] ws) = ws.
Proof.
  intros Hws. revert fuel. induction Hws as [|w ws [Hn Hw] Hws IH]; intros [|fuel] Hf; [lia|done|lia|].
  destruct w as [|b w]; [done|]. pose proof (Forall_inv Hw) as Hb.
  assert (∀ f s, (length ws < f)%nat → s = join [x20] ws ∨ (∃ r, s = x20 :: r ∧ r = join [x20] ws) → words f s = ws) as Hrest.
  { intros [|f] s Hl [->|(r & -> & ->)]; [lia|lia|by apply IH|]. rewrite <- (IH (S f)) at 2 by done. cbn [words].
    rewrite trim_start_blank by by left. done. }
  cbn [words]. destruct ws as [|w' ws].
  - cbn [join]. rewrite trim_start_graphic by done. rewrite <- (app_nil_r (b :: w)).
    rewrite word_graphic by auto. f_equal; [by rewrite app_nil_r|]. apply Hrest; [cbn in *; lia|by left].
  - change (join [x20] ((b :: w) :: w' :: ws)) with ((b :: w) ++ [x20] ++ join [x20] (w' :: ws)).
    cbn [app]. rewrite trim_start_graphic by done. change (b :: w ++ ?r) with ((b :: w) ++ r).
    rewrite word_graphic; [|done|right; eexists _, _; split; [done|by left]]. f_equal.
    apply Hrest; [cbn in *; lia|]. right. eauto.
Qed.

Lemma split_whitespace_join ws :
  Forall (λ w, w ≠ [] ∧ Forall (λ b, graphic b = true) w) ws → split_whitespace (join [x20] ws) = ws.
Proof.
  intros Hws. apply words_join; [done|]. enough (length ws ≤ length (join [x20] ws))%nat by lia.
  induction Hws as [|w ws [Hn _] Hws IH]; [done|]. destruct w as [|b w]; [done|].
  destruct ws as [|w' ws]; [cbn; lia|].
  change (join [x20] ((b :: w) :: w' :: ws)) with ((b :: w) ++ [x20] ++ join [x20] (w' :: ws)).
  rewrite !length_app. cbn [length] in *. lia.
Qed.

(** ** Substrings *)

(** [s.contains(needle)]. *)
Fixpoint contains (needle s : bytes) : bool :=
  starts_with needle s || match s with [] => false | _ :: s' => contains needle s' end.

(** ** Lossy decoding and separators *)

Lemma ascii_not_cont b : is_ascii b = true → utf8_cont b = false.
Proof. by destruct b. Qed.

Lemma ascii_not_second b0 b : is_ascii b = true → utf8_second b0 b = false.
Proof. intros Hb. unfold utf8_second. repeat case_match; by destruct b. Qed.

(** An ASCII character ends whatever is incomplete before it. *)
Lemma lossy_sep s b t : is_ascii b = true → lossy (s ++ b :: t) = lossy s ++ b :: lossy t.
Proof.
  intros Hb. assert (∀ n s, (length s ≤ n)%nat → lossy (s ++ b :: t) = lossy s ++ b :: lossy t) as Hn; [|by apply (Hn (length s))].
  pose proof (ascii_not_cont b Hb) as Hc. pose proof (fun b0 => ascii_not_second b0 b Hb) as Hs. unfold is_ascii in Hb.
  assert (lossy (b :: t) = b :: lossy t) as Hone by (cbn [lossy]; by rewrite Hb).
  induction n as [|n IH]; intros [|b0 s0] Hl; cbn [length] in Hl; try lia; [done..|].
  cbn [app lossy]. destruct (in_range 0 127 b0); [by rewrite IH by lia|].
  destruct (in_range 194 223 b0).
  { destruct s0 as [|b1 s1]; cbn [app]; [by rewrite Hc, Hone|]. cbn [length] in Hl.
    destruct (utf8_cont b1); [by rewrite IH by lia|]. change (b1 :: s1 ++ b :: t) with ((b1 :: s1) ++ b :: t).
    by rewrite IH by (cbn; lia). }
  destruct (in_range 224 239 b0).
  { destruct s0 as [|b1 s1]; cbn [app]; [by rewrite Hs, Hone|]. cbn [length] in Hl.
    destruct (utf8_second b0 b1).
    - destruct s1 as [|b2 s2]; cbn [app]; [by rewrite Hc, Hone|]. cbn [length] in Hl.
      destruct (utf8_cont b2); [by rewrite IH by lia|]. change (b2 :: s2 ++ b :: t) with ((b2 :: s2) ++ b :: t).
      by rewrite IH by (cbn; lia).
    - change (b1 :: s1 ++ b :: t) with ((b1 :: s1) ++ b :: t). by rewrite IH by (cbn; lia). }
  destruct (in_range 240 244 b0).
  { destruct s0 as [|b1 s1]; cbn [app]; [by rewrite Hs, Hone|]. cbn [length] in Hl.
    destruct (utf8_second b0 b1).
    - destruct s1 as [|b2 s2]; cbn [app]; [by rewrite Hc, Hone|]. cbn [length] in Hl.
      destruct (utf8_cont b2).
      + destruct s2 as [|b3 s3]; cbn [app]; [by rewrite Hc, Hone|]. cbn [length] in Hl.
        destruct (utf8_cont b3); [by rewrite IH by lia|]. change (b3 :: s3 ++ b :: t) with ((b3 :: s3) ++ b :: t).
        by rewrite IH by (cbn; lia).
      + change (b2 :: s2 ++ b :: t) with ((b2 :: s2) ++ b :: t). by rewrite IH by (cbn; lia).
    - change (b1 :: s1 ++ b :: t) with ((b1 :: s1) ++ b :: t). by rewrite IH by (cbn; lia). }
  cbn [app]. by rewrite IH by lia.
Qed.

(** Decoding keeps the ASCII characters and adds none. *)
Lemma elem_of_lossy s b : is_ascii b = true → b ∈ lossy s ↔ b ∈ s.
Proof.
  intros Hb. split.
  - intros Hin. destruct (decide (b ∈ s)) as [|Hn]; [done|exfalso].
    assert (∀ n s, (length s ≤ n)%nat → b ∈ lossy s → b ∈ s) as H; [|by apply Hn, (H (length s))].
    clear -Hb. assert (b ∉ REPLACEMENT) as Hr by (unfold REPLACEMENT; intros Hr; rewrite !elem_of_cons, elem_of_nil in Hr; destruct Hr as [->|[->|[->|[]]]]; done).
    induction n as [|n IH]; intros s Hl; [destruct s; [done|cbn in Hl; lia]|].
    destruct s as [|b0 s0]; [done|]. cbn [lossy]. cbn [length] in Hl.
    repeat case_match; subst; cbn [length] in *; rewrite ?elem_of_app, ?elem_of_cons; try tauto;
      repeat match goal with |- context [b ∈ lossy ?l] =>
        lazymatch goal with
        | H : b ∈ lossy l → _ |- _ => fail
        | _ => pose proof (IH l ltac:(cbn [length] in *; lia))
        end end; rewrite ?elem_of_cons in *; tauto.
  - intros (s1 & s2 & ->)%list_elem_of_split. rewrite lossy_sep by done. apply elem_of_app. right. by left.
Qed.

Lemma utf8_valid_app s t : utf8_valid s = true → utf8_valid (s ++ t) = utf8_valid t.
Proof.
  revert s. apply utf8_ind; [done|..]; intros; cbn [app utf8_valid];
    repeat match goal with H : @eq bool _ _ |- _ => rewrite H; clear H end; done.
Qed.

Lemma contains_char needle s c : c ∈ needle → c ∉ s → contains needle s = false.
Proof.
  intros Hc. induction s as [|b s IH]; intros Hn; cbn [contains]; apply orb_false_iff; split.
  - unfold starts_with. by destruct needle; [apply elem_of_nil in Hc|].
  - done.
  - destruct (starts_with needle (b :: s)) eqn:E; [|done]. apply starts_with_true in E as [r E]. exfalso.
    apply Hn. rewrite E. apply elem_of_app. by left.
  - apply IH. set_solver.
Qed.

Lemma contains_suffix needle s : contains needle (s ++ needle) = true.
Proof.
  induction s as [|b s IH]; cbn [app contains].
  - assert (starts_with needle needle = true) as E by (apply starts_with_true; exists []; by rewrite app_nil_r).
    destruct needle; cbn [contains]; by rewrite E.
  - by rewrite IH, orb_true_r.
Qed.

(** One line without a newline at its end. *)
Lemma lines_one l : l ≠ [] → x0a ∉ l → lines l = [l].
Proof.
  induction l as [|b l IH]; intros Hne Hn; [done|]. cbn [lines]. rewrite decide_False by set_solver.
  destruct l as [|b' l]; [done|]. rewrite IH by set_solver. done.
Qed.

Lemma str_lines_cons l s : x0a ∉ l → last l ≠ Some x0d → str_lines (l ++ x0a :: s) = l :: str_lines s.
Proof. intros Hn Hc. unfold str_lines. rewrite lines_app_nl by done. rewrite fmap_cons. by rewrite strip_cr_noop. Qed.

Lemma str_lines_one l : l ≠ [] → x0a ∉ l → last l ≠ Some x0d → str_lines l = [l].
Proof. intros Hne Hn Hc. unfold str_lines. rewrite lines_one by done. change (strip_cr <$> [l]) with [strip_cr l]. by rewrite strip_cr_noop. Qed.
