(* ===== verification/Gix.v ===== *)
(** * Third-party code the sources rely on

    [gix-hash] (object ids) and [gix-packetline] (packet lines) are not part of the
    repository.  Object ids are a class of operations whose documented behaviour is
    a second class of laws; [Sha1] is an instance that satisfies them.  A packet-line
    iterator is the sequence of results its [read_line] returns, and a packet-line
    writer the packets it was given, with a decision for each whether the write
    succeeds. *)

From stdpp Require Import base gmap list strings vector.
From Stdlib Require Import Strings.Byte.
From S2P Require Import Prelude Bytes.

(** ** Object ids *)

Class GixHash := {
  ObjectId : Type;
  oid_eq_dec :: EqDecision ObjectId;
  oid_countable :: Countable ObjectId;
  (** [ObjectId::null(Kind::Sha1)] and [ObjectId::empty_tree(Kind::Sha1)]. *)
  oid_null : ObjectId;
  oid_empty_tree : ObjectId;
  (** [ObjectId::from_hex], and [to_hex] / [Display]. *)
  oid_from_hex : bytes → result error ObjectId;
  oid_to_hex : ObjectId → bytes;
  (** [ObjectId::try_from(&[u8])], and [as_bytes]. *)
  oid_try_from : bytes → result error ObjectId;
  oid_as_bytes : ObjectId → bytes;
}.

(** [oid.is_null()]. *)
Definition is_null `{GixHash} (o : ObjectId) : bool := bool_decide (o = oid_null).

Lemma is_null_true `{GixHash} o : is_null o = true ↔ o = oid_null.
Proof. apply bool_decide_eq_true. Qed.

Lemma is_null_false `{GixHash} o : is_null o = false ↔ o ≠ oid_null.
Proof. apply bool_decide_eq_false. Qed.

(** The documented behaviour: ids are 20 bytes, printed as 40 lowercase hexadecimal
    digits; parsing accepts what printing produces, and a raw id is its bytes. *)
Class GixHashLaws `{GixHash} : Prop := {
  oid_from_to_hex o : oid_from_hex (oid_to_hex o) = Ok o;
  length_oid_to_hex o : length (oid_to_hex o) = 40;
  oid_to_hex_digits o : Forall (λ b, is_hex_digit b = true) (oid_to_hex o);
  oid_try_from_as_bytes o : oid_try_from (oid_as_bytes o) = Ok o;
  oid_as_bytes_try_from s o : oid_try_from s = Ok o → oid_as_bytes o = s;
  length_oid_as_bytes o : length (oid_as_bytes o) = 20;
}.

Section oid_laws.
Context `{GixHashLaws}.

Lemma oid_as_bytes_inj o p : oid_as_bytes o = oid_as_bytes p → o = p.
Proof.
  intros E. pose proof (oid_try_from_as_bytes o) as E1.
  rewrite E, oid_try_from_as_bytes in E1. by injection E1.
Qed.

Lemma oid_to_hex_inj o p : oid_to_hex o = oid_to_hex p → o = p.
Proof.
  intros E. pose proof (oid_from_to_hex o) as E1.
  rewrite E, oid_from_to_hex in E1. by injection E1.
Qed.

(** Hexadecimal text contains none of the protocol's separators. *)
Lemma oid_to_hex_no c o : is_hex_digit c = false → c ∉ oid_to_hex o.
Proof.
  intros Hc Hin. pose proof (oid_to_hex_digits o) as Hd.
  rewrite Forall_forall in Hd. specialize (Hd _ Hin). congruence.
Qed.
End oid_laws.

(** ** Byte arrays *)

(** [<[u8; n]>::try_from(s).ok()]. *)
Definition array_of {n} (s : bytes) : option (vec byte n) :=
  match decide (length s = n) with
  | left E => Some (eq_rect _ (vec byte) (list_to_vec s) _ E)
  | right _ => None
  end.

Lemma array_of_Some {n} s (o : vec byte n) : array_of s = Some o → vec_to_list o = s.
Proof.
  unfold array_of. destruct (decide _) as [E|]; [|done]. intros [= <-].
  subst n. simpl. apply vec_to_list_to_vec.
Qed.

Lemma array_of_to_list {n} (o : vec byte n) : array_of (vec_to_list o) = Some o.
Proof.
  unfold array_of. destruct (decide _) as [E|E].
  - f_equal. apply vec_to_list_inj2.
    generalize dependent (vec_to_list o). intros l E. subst n. simpl. apply vec_to_list_to_vec.
  - destruct E. apply length_vec_to_list.
Qed.

Lemma array_of_total n s : length s = n → ∃ o : vec byte n, array_of s = Some o.
Proof. intros E. unfold array_of. destruct (decide _); [eauto|done]. Qed.

(** ** A concrete hash *)

(** Twenty bytes, with the hexadecimal notation of [gix-hash]. *)
Module Sha1.
Definition oid : Type := vec byte 20.

Definition nibble (b : byte) : option N := to_digit 16 b.

Fixpoint unhex (s : bytes) : option bytes :=
  match s with
  | [] => Some []
  | h :: l :: s' =>
      hi ← nibble h; lo ← nibble l; r ← unhex s'; Some (of_N (hi * 16 + lo) :: r)
  | [_] => None
  end.

Lemma unhex_hex s : unhex (hex s) = Some s.
Proof.
  induction s as [|b s IH]; [done|].
  pose proof (to_N_lt b). pose proof (N.div_mod (Byte.to_N b) 16 ltac:(lia)).
  pose proof (N.mod_lt (Byte.to_N b) 16 ltac:(lia)).
  assert (Byte.to_N b / 16 < 16)%N by (apply N.Div0.div_lt_upper_bound; lia).
  change (hex (b :: s)) with (hex_byte b ++ hex s). unfold hex_byte, nibble in *.
  cbn [app unhex]. unfold nibble. rewrite !to_digit_digit by lia.
  cbn [mbind option_bind]. rewrite IH. cbn [mbind option_bind]. do 2 f_equal.
  rewrite N.mul_comm, <- H0. apply of_N_to_N.
Qed.

(** The library's instance for vectors does not compute. *)
Definition countable : Countable oid := inj_countable vec_to_list array_of array_of_to_list.

#[local] Instance hash : GixHash := {|
  ObjectId := oid;
  oid_countable := countable;
  oid_null := vreplicate 20 x00;
  oid_empty_tree :=
    list_to_vec [x4b; x82; x5d; xc6; x42; xcb; x6e; xb9; xa0; x60;
                 xe5; x4b; xf8; xd6; x92; x88; xfb; xee; x49; x04];
  oid_from_hex s := ok_or (Foreign (b! "invalid hex object id")) (unhex s ≫= array_of);
  oid_to_hex o := hex (vec_to_list o);
  oid_try_from s := ok_or (Foreign (b! "invalid object id length")) (array_of s);
  oid_as_bytes o := vec_to_list o;
|}.

#[local] Instance hash_laws : GixHashLaws.
Proof.
  split; simpl.
  - intros o. rewrite unhex_hex. simpl. by rewrite array_of_to_list.
  - intros o. by rewrite length_hex, length_vec_to_list.
  - intros o. apply hex_digits.
  - intros o. by rewrite array_of_to_list.
  - intros s o. destruct (array_of s) eqn:E; simpl; [|done].
    intros [= <-]. by apply array_of_Some.
  - intros o. apply length_vec_to_list.
Qed.

(** An id that is one byte repeated. *)
Definition rep (b : byte) : oid := vreplicate 20 b.
End Sha1.

(** ** Packet lines *)

Inductive PacketLineRef := Data (d : bytes) | Flush | Delimiter | ResponseEnd.

(** What [StreamingPeekableIter::read_line] returns from here on; the end of the list
    is the end of the stream. *)
Abbreviation packet_stream := (list (result error PacketLineRef)).

(** ** Packet-line output *)

Inductive Channel := ChData | ChProgress.

(** [text_to_write], [flush_to_write], [delim_to_write] and [band_to_write]. *)
Inductive pkt :=
| PText (d : bytes)
| PFlush
| PDelim
| PBand (c : Channel) (d : bytes).

#[global] Instance pkt_eq_dec : EqDecision pkt.
Proof. assert (EqDecision Channel) by solve_decision. solve_decision. Defined.

Record writer := Writer {
  (** The packets written so far. *)
  w_out : list pkt;
  (** Whether writing this packet after those succeeds: a closed pipe and an
      over-long line are errors. *)
  w_accepts : list pkt → pkt → result error ();
}.

Definition put_pkt (p : pkt) : ST writer () := fun w =>
  match w_accepts w (w_out w) p with
  | Ok _ => (Ok (), Writer (w_out w ++ [p]) (w_accepts w))
  | Err e => (Err e, w)
  end.

Definition text_to_write (d : bytes) : ST writer () := put_pkt (PText d).
Definition flush_to_write : ST writer () := put_pkt PFlush.
Definition delim_to_write : ST writer () := put_pkt PDelim.
Definition band_to_write (c : Channel) (d : bytes) : ST writer () := put_pkt (PBand c d).

(** The reference computation: write these packets in order, stop at the first error. *)
Definition write_all (l : list pkt) : ST writer () := for_each put_pkt l.

(** A writer that never fails. *)
Definition open_writer : writer := Writer [] (λ _ _, Ok ()).

Lemma write_all_app l1 l2 : st_eq (write_all (l1 ++ l2)) (write_all l1 ;; write_all l2).
Proof. apply for_each_app. Qed.

Lemma write_all_one p : st_eq (put_pkt p) (write_all [p]).
Proof.
  intros w. unfold write_all. simpl. unfold mbind, ST_bind, put_pkt.
  by destruct (w_accepts w (w_out w) p).
Qed.

(** A writer without errors receives every packet. *)
Lemma write_all_open l out :
  write_all l (Writer out (λ _ _, Ok ())) = (Ok (), Writer (out ++ l) (λ _ _, Ok ())).
Proof.
  revert out; induction l as [|p l IH]; intros out; [by rewrite app_nil_r|].
  unfold write_all in *. simpl. unfold mbind, ST_bind, put_pkt at 1. simpl.
  rewrite IH. by rewrite <- app_assoc.
Qed.

(** Any writer receives a prefix, all of it exactly when the result is [Ok]. *)
Lemma write_all_prefix l w r w' :
  write_all l w = (r, w') →
  ∃ l1 l2, l = l1 ++ l2 ∧ w' = Writer (w_out w ++ l1) (w_accepts w) ∧
           (is_ok r = true ↔ l2 = []).
Proof.
  revert w; induction l as [|p l IH]; intros w; unfold write_all; simpl.
  - intros [= <- <-]. exists [], [].
    split_and!; [done | rewrite app_nil_r; by destruct w | done].
  - unfold mbind, ST_bind, put_pkt at 1.
    destruct (w_accepts w (w_out w) p) as [[]|e] eqn:Hp.
    + intros (l1 & l2 & -> & -> & Hok)%IH. exists (p :: l1), l2. simpl.
      rewrite <- app_assoc. by split_and!.
    + intros [= <- <-]. exists [], (p :: l).
      split_and!; [done | rewrite app_nil_r; by destruct w | done].
Qed.

(** [f] on every element writes the concatenation of what each writes. *)
Lemma for_each_write_all {A} (f : A → ST writer ()) (g : A → list pkt) l :
  (∀ x, st_eq (f x) (write_all (g x))) → st_eq (for_each f l) (write_all (l ≫= g)).
Proof.
  intros Hf. induction l as [|x l IH]; [by intros s|].
  change ((x :: l) ≫= g) with (g x ++ l ≫= g).
  etransitivity; [|symmetry; apply write_all_app]. simpl.
  apply st_bind_proper; [intros _; exact IH | apply Hf].
Qed.
