(* ===== verification/Proto.v ===== *)
(** * Protocol parsing ([mizzle-proto])

    The request parsers of both protocol versions: [limits.rs], [utils.rs],
    [command.rs], [ls_refs.rs], [fetch.rs], [receive.rs], [pack.rs] and [types.rs] of
    [mizzle-proto/src].  A parser that reads packet lines consumes a [packet_stream];
    the receive-pack parser frames the lines itself and consumes bytes. *)

From stdpp Require Import base gmap list strings.
From Stdlib Require Import Strings.Byte.
From S2P Require Import Prelude Bytes Gix.

#[local] Open Scope N_scope.

(** ** Limits *)

Record ProtocolLimits := {
  max_ref_updates : N;
  max_wants : N;
  max_haves : N;
  max_want_refs : N;
  max_ref_prefixes : N;
}.

Definition default_limits : ProtocolLimits := {|
  max_ref_updates := 10000;
  max_wants := 100000;
  max_haves := 100000;
  max_want_refs := 10000;
  max_ref_prefixes := 1000;
|}.

Definition check_limit (count max : N) (name : bytes) : result error () :=
  if count <=? max then Ok ()
  else bail (b! "too many " ++ name ++ b! " (" ++ decimal count ++
             b! " exceeds limit of " ++ decimal max ++ b! ")").

Definition len {A} (l : list A) : N := N.of_nat (length l).

Lemma check_limit_Ok count max name : check_limit count max name = Ok () ↔ count ≤ max.
Proof. unfold check_limit. destruct (N.leb_spec count max); split; (done || lia). Qed.

(** ** Push kinds, filters and commands *)

Inductive PushKind := Create | Delete | FastForward | ForcePush.

#[global] Instance PushKind_eq_dec : EqDecision PushKind.
Proof. solve_decision. Defined.

Inductive Filter := BlobNone | TreeNone.

#[global] Instance Filter_eq_dec : EqDecision Filter.
Proof. solve_decision. Defined.

Definition Filter_parse (spec : bytes) : result error Filter :=
  if decide (spec = b! "blob:none") then Ok BlobNone
  else if decide (spec = b! "tree:0") then Ok TreeNone
  else bail (b! "unsupported filter: " ++ spec).

Fixpoint skip_till_delimiter (p : packet_stream) : result error () * packet_stream :=
  match p with
  | [] => (bail (b! "expected delimiter"), [])
  | Err e :: p' => (Err e, p')
  | Ok line :: p' =>
      match line with
      | ResponseEnd | Flush => (bail (b! "found end of response expected delimiter"), p')
      | Delimiter => (Ok (), p')
      | Data _ => skip_till_delimiter p'
      end
  end.

Inductive Command := Fetch | ListRefs | Empty.

(** [line.as_bstr()]: the payload of a data line. *)
Definition as_bstr (l : PacketLineRef) : option bytes :=
  match l with Data d => Some d | _ => None end.

(** [{:?}] of a byte slice. *)
Definition debug_bytes (s : bytes) : bytes :=
  b! "[" ++ join (b! ", ") ((λ c, decimal (Byte.to_N c)) <$> s) ++ b! "]".

Definition read_command (p : packet_stream) : result error Command * packet_stream :=
  match p with
  | [] => (bail (b! "no line when expecting command"), [])
  | Err e :: p' => (Err e, p')
  | Ok Flush :: p' => (Ok Empty, p')
  | Ok line :: p' =>
      (bstr ← ok_or (Msg (b! "no data when expecting command")) (as_bstr line);
       command ← ok_or (Msg (b! "expected command"))
                   (strip_prefix (b! "command=") (strip_newline bstr));
       if decide (command = b! "ls-refs") then Ok ListRefs
       else if decide (command = b! "fetch") then Ok Fetch
       else bail (b! "unrecognised command: " ++ debug_bytes command), p')
  end.

(** ** [ls-refs] arguments *)

Record ListRefsArgs := {
  symrefs : bool;
  peel : bool;
  prefixes : list bytes;
  unborn : bool;
}.

Definition empty_lsrefs_args : ListRefsArgs :=
  {| symrefs := false; peel := false; prefixes := []; unborn := false |}.

(** One data line of the argument loop. *)
Definition lsrefs_arg (limits : ProtocolLimits) (args : ListRefsArgs) (d : bytes) :
    result error ListRefsArgs :=
  let arg := strip_newline d in
  match strip_prefix (b! "ref-prefix ") arg with
  | Some prefix =>
      let args' := {| symrefs := symrefs args; peel := peel args;
                      prefixes := prefixes args ++ [prefix]; unborn := unborn args |} in
      check_limit (len (prefixes args')) (max_ref_prefixes limits) (b! "ref-prefix lines") ;;
      Ok args'
  | None =>
      if decide (arg = b! "peel") then
        Ok {| symrefs := symrefs args; peel := true;
              prefixes := prefixes args; unborn := unborn args |}
      else if decide (arg = b! "symrefs") then
        Ok {| symrefs := true; peel := peel args;
              prefixes := prefixes args; unborn := unborn args |}
      else if decide (arg = b! "unborn") then
        Ok {| symrefs := symrefs args; peel := peel args;
              prefixes := prefixes args; unborn := true |}
      else bail (b! "unrecognised lsrefs argument")
  end.

(** The loop over packet lines that [read_lsrefs_args] and [read_fetch_args] share:
    data lines update the arguments, a flush or response-end ends the loop. *)
Fixpoint read_args_loop {A} (step : A → bytes → result error A) (args : A)
    (p : packet_stream) : result error A * packet_stream :=
  match p with
  | [] => (bail (b! "unexpected eof (missing flush packet?)"), [])
  | Err e :: p' => (Err e, p')
  | Ok (ResponseEnd | Flush) :: p' => (Ok args, p')
  | Ok Delimiter :: p' => (bail (b! "unexpected delimiter"), p')
  | Ok (Data d) :: p' =>
      match step args d with
      | Ok args' => read_args_loop step args' p'
      | Err e => (Err e, p')
      end
  end.

Definition read_lsrefs_args (limits : ProtocolLimits) (p : packet_stream) :
    result error ListRefsArgs * packet_stream :=
  match skip_till_delimiter p with
  | (Err e, p') => (Err e, p')
  | (Ok _, p') => read_args_loop (lsrefs_arg limits) empty_lsrefs_args p'
  end.

(** ** [fetch] arguments *)

Section fetch_args.
Context `{GixHash}.

Record FetchArgs := {
  want : list ObjectId;
  want_refs : list bytes;
  have : list ObjectId;
  done : bool;
  thin_pack : bool;
  no_progress : bool;
  include_tag : bool;
  ofs_delta : bool;
  wait_for_done : bool;
  deepen : option N;
  filter : option bytes;
}.

Definition empty_fetch_args : FetchArgs := {|
  want := []; want_refs := []; have := []; done := false; thin_pack := false;
  no_progress := false; include_tag := false; ofs_delta := false;
  wait_for_done := false; deepen := None; filter := None |}.

Definition push_want (o : ObjectId) (a : FetchArgs) : FetchArgs :=
  {| want := want a ++ [o]; want_refs := want_refs a; have := have a; done := done a;
     thin_pack := thin_pack a; no_progress := no_progress a; include_tag := include_tag a;
     ofs_delta := ofs_delta a; wait_for_done := wait_for_done a; deepen := deepen a;
     filter := filter a |}.
Definition push_have (o : ObjectId) (a : FetchArgs) : FetchArgs :=
  {| want := want a; want_refs := want_refs a; have := have a ++ [o]; done := done a;
     thin_pack := thin_pack a; no_progress := no_progress a; include_tag := include_tag a;
     ofs_delta := ofs_delta a; wait_for_done := wait_for_done a; deepen := deepen a;
     filter := filter a |}.
Definition push_want_ref (r : bytes) (a : FetchArgs) : FetchArgs :=
  {| want := want a; want_refs := want_refs a ++ [r]; have := have a; done := done a;
     thin_pack := thin_pack a; no_progress := no_progress a; include_tag := include_tag a;
     ofs_delta := ofs_delta a; wait_for_done := wait_for_done a; deepen := deepen a;
     filter := filter a |}.
Definition set_deepen (n : N) (a : FetchArgs) : FetchArgs :=
  {| want := want a; want_refs := want_refs a; have := have a; done := done a;
     thin_pack := thin_pack a; no_progress := no_progress a; include_tag := include_tag a;
     ofs_delta := ofs_delta a; wait_for_done := wait_for_done a; deepen := Some n;
     filter := filter a |}.
Definition set_filter (s : bytes) (a : FetchArgs) : FetchArgs :=
  {| want := want a; want_refs := want_refs a; have := have a; done := done a;
     thin_pack := thin_pack a; no_progress := no_progress a; include_tag := include_tag a;
     ofs_delta := ofs_delta a; wait_for_done := wait_for_done a; deepen := deepen a;
     filter := Some s |}.

Inductive fetch_flag := FDone | FThinPack | FNoProgress | FIncludeTag | FOfsDelta | FWaitForDone.

Definition set_flag (f : fetch_flag) (a : FetchArgs) : FetchArgs :=
  let on g := match f, g with
              | FDone, FDone | FThinPack, FThinPack | FNoProgress, FNoProgress
              | FIncludeTag, FIncludeTag | FOfsDelta, FOfsDelta
              | FWaitForDone, FWaitForDone => true
              | _, _ => false
              end in
  {| want := want a; want_refs := want_refs a; have := have a;
     done := done a || on FDone; thin_pack := thin_pack a || on FThinPack;
     no_progress := no_progress a || on FNoProgress;
     include_tag := include_tag a || on FIncludeTag;
     ofs_delta := ofs_delta a || on FOfsDelta;
     wait_for_done := wait_for_done a || on FWaitForDone;
     deepen := deepen a; filter := filter a |}.

(** [std::str::from_utf8(depth)?.parse::<u32>()] and the zero check of both versions. *)
Definition parse_deepen (depth : bytes) : result error N :=
  s ← from_utf8 depth;
  n ← ok_or (Fmt (b! "invalid deepen value: ") ParseIntError) (parse_u32 s);
  if n =? 0 then bail (b! "deepen 0 is not valid") else Ok n.

Definition fetch_flag_of (arg : bytes) : option fetch_flag :=
  if decide (arg = b! "done") then Some FDone
  else if decide (arg = b! "thin-pack") then Some FThinPack
  else if decide (arg = b! "no-progress") then Some FNoProgress
  else if decide (arg = b! "include-tag") then Some FIncludeTag
  else if decide (arg = b! "ofs-delta") then Some FOfsDelta
  else if decide (arg = b! "wait-for-done") then Some FWaitForDone
  else None.

(** One data line of the v2 argument loop. *)
Definition fetch_arg (limits : ProtocolLimits) (args : FetchArgs) (d : bytes) :
    result error FetchArgs :=
  let arg := strip_newline d in
  match strip_prefix (b! "want ") arg with
  | Some hex =>
      o ← oid_from_hex hex;
      let args' := push_want o args in
      check_limit (len (want args')) (max_wants limits) (b! "want lines") ;; Ok args'
  | None =>
  match strip_prefix (b! "have ") arg with
  | Some hex =>
      o ← oid_from_hex hex;
      let args' := push_have o args in
      check_limit (len (have args')) (max_haves limits) (b! "have lines") ;; Ok args'
  | None =>
  match strip_prefix (b! "want-ref ") arg with
  | Some refname =>
      r ← from_utf8 refname;
      let args' := push_want_ref r args in
      check_limit (len (want_refs args')) (max_want_refs limits) (b! "want-ref lines") ;;
      Ok args'
  | None =>
  match strip_prefix (b! "deepen ") arg with
  | Some depth => n ← parse_deepen depth; Ok (set_deepen n args)
  | None =>
  match strip_prefix (b! "filter ") arg with
  | Some spec => s ← from_utf8 spec; Ok (set_filter s args)
  | None =>
      if starts_with (b! "deepen-since ") arg || starts_with (b! "deepen-not ") arg
         || starts_with (b! "deepen-relative") arg
      then Err (Fmt (b! "unsupported fetch argument: ") (Lossy arg))
      else match fetch_flag_of arg with
           | Some f => Ok (set_flag f args)
           | None => bail (b! "unrecognised fetch argument")
           end
  end end end end end.

Definition read_fetch_args (limits : ProtocolLimits) (p : packet_stream) :
    result error FetchArgs * packet_stream :=
  match skip_till_delimiter p with
  | (Err e, p') => (Err e, p')
  | (Ok _, p') => read_args_loop (fetch_arg limits) empty_fetch_args p'
  end.

(** ** Protocol v1 upload-pack body *)

Definition v1_cap (a : FetchArgs) (cap : bytes) : FetchArgs :=
  if decide (cap = b! "ofs-delta") then set_flag FOfsDelta a
  else if decide (cap = b! "thin-pack") then set_flag FThinPack a
  else if decide (cap = b! "no-progress") then set_flag FNoProgress a
  else if decide (cap = b! "include-tag") then set_flag FIncludeTag a
  else a.

(** The first want line carries capabilities after its id. *)
Definition split_caps (rest : bytes) : bytes * option bytes :=
  match position x20 rest with
  | Some pos => (take pos rest, Some (drop (S pos) rest))
  | None => (rest, None)
  end.

Definition fetch_arg_v1 (limits : ProtocolLimits) (args : FetchArgs) (d : bytes) :
    result error FetchArgs :=
  let data := strip_newline d in
  match strip_prefix (b! "want ") data with
  | Some rest =>
      let '(oid_bytes, caps_opt) := split_caps rest in
      o ← oid_from_hex oid_bytes;
      let args' := push_want o args in
      check_limit (len (want args')) (max_wants limits) (b! "want lines") ;;
      Ok (match caps_opt with
          | Some caps => foldl v1_cap args' (split x20 caps)
          | None => args'
          end)
  | None =>
  match strip_prefix (b! "have ") data with
  | Some rest =>
      o ← oid_from_hex rest;
      let args' := push_have o args in
      check_limit (len (have args')) (max_haves limits) (b! "have lines") ;; Ok args'
  | None =>
  match strip_prefix (b! "deepen ") data with
  | Some depth => n ← parse_deepen depth; Ok (set_deepen n args)
  | None =>
  match strip_prefix (b! "filter ") data with
  | Some spec => s ← from_utf8 spec; Ok (set_filter s args)
  | None => Ok args
  end end end end.

(** The v1 loop ends at a flush only; other special packets are skipped. *)
Fixpoint read_args_loop_v1 (limits : ProtocolLimits) (args : FetchArgs)
    (p : packet_stream) : result error FetchArgs * packet_stream :=
  match p with
  | [] => (bail (b! "unexpected eof in v1 request body"), [])
  | Err e :: p' => (Err e, p')
  | Ok Flush :: p' => (Ok args, p')
  | Ok (Data d) :: p' =>
      match fetch_arg_v1 limits args d with
      | Ok args' => read_args_loop_v1 limits args' p'
      | Err e => (Err e, p')
      end
  | Ok (Delimiter | ResponseEnd) :: p' => read_args_loop_v1 limits args p'
  end.

Definition read_fetch_args_v1 (limits : ProtocolLimits) (p : packet_stream) :
    result error FetchArgs :=
  match read_args_loop_v1 limits empty_fetch_args p with
  | (Err e, _) => Err e
  | (Ok args, Ok (Data d) :: _) =>
      if decide (strip_newline d = b! "done") then Ok (set_flag FDone args) else Ok args
  | (Ok args, _) => Ok args
  end.
End fetch_args.

(** ** Receive-pack commands *)

Section receive.
Context `{GixHash}.

Record RefUpdate := {
  old_oid : ObjectId;
  new_oid : ObjectId;
  refname : bytes;
}.

Definition preliminary_push_kind (u : RefUpdate) : PushKind :=
  if is_null (old_oid u) then Create
  else if is_null (new_oid u) then Delete
  else FastForward.

(** [body.read_exact(buf)] of [n] bytes. *)
Definition read_exact (n : N) (body : bytes) : result error (bytes * bytes) :=
  if len body <? n then Err UnexpectedEof
  else Ok (take (N.to_nat n) body, drop (N.to_nat n) body).

(** A pkt-line length: four bytes of text in base 16. *)
Definition pkt_len (len_buf : bytes) : result error N :=
  s ← from_utf8 len_buf; ok_or ParseIntError (from_str_radix 16 usize_max s).

(** A command line, its newline and, on the first line, its capabilities removed. *)
Definition command_line (first_line : bool) (data : bytes) : bytes :=
  let data := strip_newline data in
  if first_line then default data (head (splitn 2 x00 data)) else data.

(** ["<old-oid> <new-oid> <refname>"]; a line with fewer fields is not a command. *)
Definition ref_command (line : bytes) : result error (option RefUpdate) :=
  match splitn 3 x20 line with
  | old_hex :: new_hex :: name :: _ =>
      o ← oid_from_hex old_hex;
      n ← oid_from_hex new_hex;
      r ← from_utf8 name;
      Ok (Some {| old_oid := o; new_oid := n; refname := r |})
  | _ => Ok None
  end.

(** The loop of [read_receive_request]; each round takes at least four bytes off
    [body], so [length body] rounds are enough. *)
Fixpoint receive_loop (fuel : nat) (limits : ProtocolLimits) (first_line : bool)
    (ref_updates : list RefUpdate) (body : bytes) : result error (list RefUpdate * bytes) :=
  match fuel with
  | O => Err UnexpectedEof
  | S fuel' =>
      '(len_buf, body) ← read_exact 4 body;
      len' ← pkt_len len_buf;
      if len' =? 0 then Ok (ref_updates, body)
      else if len' <? 4 then
        bail (b! "invalid pkt-line length: " ++ decimal len')
      else
        '(data, body) ← read_exact (len' - 4) body;
        c ← ref_command (command_line first_line data);
        match c with
        | Some u =>
            let updates := ref_updates ++ [u] in
            check_limit (len updates) (max_ref_updates limits) (b! "ref updates") ;;
            receive_loop fuel' limits false updates body
        | None => receive_loop fuel' limits false ref_updates body
        end
  end.

Definition read_receive_request (limits : ProtocolLimits) (body : bytes) :
    result error (list RefUpdate * bytes) :=
  receive_loop (S (length body)) limits true [] body.
End receive.

Definition pack_object_count (data : bytes) : option N :=
  if (12 <=? len data) && bool_decide (take 4 data = b! "PACK")
  then Some (from_be_bytes (take 4 (drop 8 data)))
  else None.

(** ** The receive-pack parser *)

(** What a client sends: a pkt-line, and the ref-update section followed by a pack. *)
Definition pkt_line (data : bytes) : bytes := hex (to_be_bytes 2 (len data + 4)) ++ data.

Definition pkt_fits (data : bytes) : Prop := len data + 4 < 65536.

Section receive_facts.
Context `{GixHashLaws}.

Definition command_text (u : RefUpdate) : bytes :=
  oid_to_hex (old_oid u) ++ [x20] ++ oid_to_hex (new_oid u) ++ [x20] ++ refname u.

Definition encode_request (caps : bytes) (us : list RefUpdate) (pack : bytes) : bytes :=
  match us with
  | [] => []
  | u :: us' =>
      pkt_line (command_text u ++ [x00] ++ caps ++ [x0a]) ++
      (us' ≫= λ v, pkt_line (command_text v ++ [x0a]))
  end ++ b! "0000" ++ pack.

Lemma read_exact_app n (d r : bytes) : len d = n → read_exact n (d ++ r) = Ok (d, r).
Proof.
  intros <-. unfold read_exact, len. rewrite length_app.
  rewrite (proj2 (N.ltb_ge _ _)) by lia. rewrite Nat2N.id.
  by rewrite take_app_length, drop_app_length.
Qed.

Lemma read_exact_Ok n b d r : read_exact n b = Ok (d, r) → b = d ++ r ∧ len d = n.
Proof.
  unfold read_exact. destruct (N.ltb_spec (len b) n) as [|Hn]; [done|]. intros [= <- <-].
  split; [by rewrite take_drop|]. unfold len in *. rewrite length_take. lia.
Qed.

Lemma pkt_len_hex n : n < 65536 → pkt_len (hex (to_be_bytes 2 n)) = Ok n.
Proof.
  intros Hn. unfold pkt_len, from_utf8.
  pose proof (hex_utf8 (hex (to_be_bytes 2 n)) [] (hex_digits _)) as Hu.
  rewrite app_nil_r in Hu. rewrite Hu. cbn -[from_str_radix to_be_bytes hex].
  rewrite from_str_radix_hex; [by rewrite from_to_be_bytes| |rewrite from_to_be_bytes].
  - intros E. by apply (f_equal length) in E; rewrite length_to_be_bytes in E.
  - unfold usize_max, u64_max. lia.
  - done.
Qed.

Lemma ref_command_text u :
  utf8_valid (refname u) = true → ref_command (command_text u) = Ok (Some u).
Proof.
  intros Hu. unfold ref_command, command_text. cbn [splitn app].
  rewrite split_once_sep by (by apply oid_to_hex_no). cbn [app].
  rewrite split_once_sep by (by apply oid_to_hex_no).
  rewrite !oid_from_to_hex. unfold from_utf8. rewrite Hu. by destruct u.
Qed.

Lemma command_line_first u caps :
  x00 ∉ refname u →
  command_line true (command_text u ++ [x00] ++ caps ++ [x0a]) = command_text u.
Proof.
  intros Hn. unfold command_line.
  replace (command_text u ++ [x00] ++ caps ++ [x0a])
    with ((command_text u ++ [x00] ++ caps) ++ [x0a]) by (by rewrite <- !app_assoc).
  rewrite strip_newline_snoc. cbn [splitn app]. rewrite split_once_sep; [done|].
  unfold command_text. rewrite !elem_of_app, !elem_of_cons.
  intros [Hh|[[|Hh]|[Hh|[[|Hh]|Hh]]]]; try done; try (by apply elem_of_nil in Hh);
    by apply oid_to_hex_no in Hh.
Qed.

(** One round on a well-formed command line. *)
Lemma receive_loop_step fuel limits first us data body :
  pkt_fits data →
  receive_loop (S fuel) limits first us (pkt_line data ++ body) =
  (c ← ref_command (command_line first data);
   match c with
   | Some u => check_limit (len (us ++ [u])) (max_ref_updates limits) (b! "ref updates") ;;
               receive_loop fuel limits false (us ++ [u]) body
   | None => receive_loop fuel limits false us body
   end).
Proof.
  intros Hf. unfold pkt_fits in Hf. cbn [receive_loop].
  unfold pkt_line. rewrite <- app_assoc. rewrite read_exact_app.
  2: { unfold len. by rewrite length_hex, length_to_be_bytes. }
  cbn [mbind result_bind]. rewrite pkt_len_hex by done. cbn [mbind result_bind].
  rewrite (proj2 (N.eqb_neq _ _)) by lia. rewrite (proj2 (N.ltb_ge _ _)) by lia.
  rewrite read_exact_app by lia. done.
Qed.

Lemma receive_loop_flush fuel limits first us pack :
  receive_loop (S fuel) limits first us (b! "0000" ++ pack) = Ok (us, pack).
Proof. cbn [receive_loop]. by rewrite (read_exact_app 4 (b! "0000")). Qed.

(** More fuel than the body is long changes nothing: the loop is total. *)
Lemma receive_loop_fuel f1 f2 limits first us body :
  (length body < f1)%nat → (length body < f2)%nat →
  receive_loop f1 limits first us body = receive_loop f2 limits first us body.
Proof.
  revert f2 first us body; induction f1 as [|f1 IH]; intros f2 first us body H1 H2; [lia|].
  destruct f2 as [|f2]; [lia|]. cbn [receive_loop].
  destruct (read_exact 4 body) as [[lb b1]|] eqn:E1; [|done].
  apply read_exact_Ok in E1 as [-> E1]. unfold len in E1. rewrite length_app in *.
  cbn [mbind result_bind]. destruct (pkt_len lb) as [n|]; [|done]. cbn [mbind result_bind].
  do 2 (case_match; [done|]).
  destruct (read_exact (n - 4) b1) as [[d b2]|] eqn:E2; [|done].
  apply read_exact_Ok in E2 as [-> _]. rewrite length_app in *. cbn [mbind result_bind].
  destruct (ref_command (command_line first d)) as [[u|]|]; [| |done]; cbn [mbind result_bind].
  - destruct (check_limit _ _ _); [|done]. apply IH; lia.
  - apply IH; lia.
Qed.

Lemma receive_loop_rest fuel limits us vs pack :
  Forall (λ u, utf8_valid (refname u) = true ∧ pkt_fits (command_text u ++ [x0a])) vs →
  len (us ++ vs) ≤ max_ref_updates limits → (length vs < fuel)%nat →
  receive_loop fuel limits false us
    ((vs ≫= λ v, pkt_line (command_text v ++ [x0a])) ++ b! "0000" ++ pack) =
  Ok (us ++ vs, pack).
Proof.
  intros Hv; revert fuel us; induction Hv as [|v vs [Hu Hf] _ IH]; intros fuel us Hl Hfu;
    (destruct fuel as [|fuel]; [simpl in Hfu; lia|]).
  - change ([] ≫= _) with (@nil byte). cbn [app]. rewrite receive_loop_flush. by rewrite app_nil_r.
  - change ((v :: vs) ≫= ?f) with (f v ++ (vs ≫= f)). rewrite <- app_assoc.
    rewrite receive_loop_step by done.
    unfold command_line. rewrite strip_newline_snoc, ref_command_text by done.
    cbn [mbind result_bind]. unfold len in *. rewrite !length_app in *. simpl in *.
    rewrite (proj2 (check_limit_Ok _ _ _)) by lia. cbn [mbind result_bind].
    rewrite IH; [by rewrite <- app_assoc| rewrite !length_app; simpl; lia | lia].
Qed.

Lemma length_pkt_line d : length (pkt_line d) = (4 + length d)%nat.
Proof. unfold pkt_line. by rewrite length_app, length_hex, length_to_be_bytes. Qed.

Lemma length_bind_ge {A} (f : A → bytes) l :
  (∀ x, 1 ≤ length (f x))%nat → (length l ≤ length (l ≫= f))%nat.
Proof.
  intros Hf. induction l as [|x l IH]; [done|].
  change ((x :: l) ≫= f) with (f x ++ (l ≫= f)). rewrite length_app. simpl.
  specialize (Hf x). lia.
Qed.
End receive_facts.

Section receive_properties.
Context `{GixHashLaws}.

(** The requests the grammar can express. *)
Definition encodable (caps : bytes) (us : list RefUpdate) : Prop :=
  Forall (λ u, utf8_valid (refname u) = true ∧
               pkt_fits (command_text u ++ [x00] ++ caps ++ [x0a])) us ∧
  Forall (λ u, x00 ∉ refname u) (take 1 us).

(** (C26) A receive-pack request that a client encodes (a ref-update section, with the
    capabilities on its first line, then the pack) is read back as exactly its ref
    updates, in order, with the reader left at the first byte of the pack. *)
Theorem read_receive_request_roundtrip limits caps us pack :
  encodable caps us → len us ≤ max_ref_updates limits →
  read_receive_request limits (encode_request caps us pack) = Ok (us, pack).
Proof.
  intros [Hu Hnul] Hl. unfold read_receive_request, encode_request.
  destruct us as [|u us]; [apply receive_loop_flush|].
  apply Forall_cons in Hu as [[Hu Hf] Hus]. simpl in Hnul. apply Forall_cons in Hnul as [Hnul _].
  rewrite <- app_assoc, receive_loop_step by done.
  rewrite command_line_first, ref_command_text by done. cbn [mbind result_bind app].
  rewrite (proj2 (check_limit_Ok _ _ _)) by (unfold len in *; simpl in *; lia).
  cbn [mbind result_bind]. rewrite (receive_loop_rest _ _ [u]); [done| |done|].
  - eapply Forall_impl; [exact Hus|]. intros v [Hv Hfv]. split; [done|].
    unfold pkt_fits, len in *. rewrite !length_app in *. simpl in *. lia.
  - rewrite !length_app, length_pkt_line.
    pose proof (length_bind_ge (λ v, pkt_line (command_text v ++ [x0a])) us) as Hg.
    enough (length us ≤ length (us ≫= λ v, pkt_line (command_text v ++ [x0a])))%nat by lia.
    apply Hg. intros x. rewrite length_pkt_line. lia.
Qed.

Lemma ref_command_utf8 line u : ref_command line = Ok (Some u) → utf8_valid (refname u) = true.
Proof.
  unfold ref_command. destruct (splitn 3 x20 line) as [|a [|b [|c l]]]; try done.
  unfold from_utf8. destruct (oid_from_hex a); [|done]. destruct (oid_from_hex b); [|done].
  cbn. destruct (utf8_valid c) eqn:E; cbn; [|done]. by intros [= <-].
Qed.

Lemma receive_loop_inv fuel limits first us body us' rest :
  receive_loop fuel limits first us body = Ok (us', rest) →
  len us ≤ max_ref_updates limits →
  Forall (λ u, utf8_valid (refname u) = true) us →
  len us' ≤ max_ref_updates limits ∧ Forall (λ u, utf8_valid (refname u) = true) us' ∧
  suffix rest body.
Proof.
  revert first us body; induction fuel as [|f IH]; intros first us body; [done|].
  cbn [receive_loop]. destruct (read_exact 4 body) as [[lb b1]|] eqn:E1; [|done].
  apply read_exact_Ok in E1 as [-> _]. cbn [mbind result_bind].
  destruct (pkt_len lb) as [n|]; [|done]. cbn [mbind result_bind].
  case_match; [intros [= <- <-] ??; split_and!; [done|done|by apply suffix_app_r]|].
  case_match; [done|].
  destruct (read_exact (n - 4) b1) as [[d b2]|] eqn:E2; [|done].
  apply read_exact_Ok in E2 as [-> _]. cbn [mbind result_bind].
  destruct (ref_command (command_line first d)) as [[u|]|] eqn:Hc; [| |done];
    cbn [mbind result_bind]; intros Hr Hl Hu.
  - destruct (check_limit _ _ _) as [[]|] eqn:Hk; [|done]. apply check_limit_Ok in Hk.
    apply IH in Hr as (? & ? & ?); [split_and!; [done|done|by do 2 apply suffix_app_r]|done|].
    apply Forall_app; split; [done|]. constructor; [|done]. by eapply ref_command_utf8.
  - apply IH in Hr as (? & ? & ?); [split_and!; [done|done|by do 2 apply suffix_app_r]|done|done].
Qed.

(** Whatever bytes a client sends, an accepted request has at most
    [max_ref_updates] updates, every refname is valid UTF-8, and the remaining
    reader is a suffix of the body: nothing past the flush packet is consumed. *)
Theorem read_receive_request_bounds limits body us rest :
  read_receive_request limits body = Ok (us, rest) →
  len us ≤ max_ref_updates limits ∧
  Forall (λ u, utf8_valid (refname u) = true) us ∧ suffix rest body.
Proof.
  intros Hr. eapply receive_loop_inv in Hr; [done| |constructor].
  unfold len. simpl. lia.
Qed.
End receive_properties.

(** ** The argument loops *)

Section fetch_facts.
Context `{GixHash}.

(** What a parsed fetch request guarantees to the pack layer. *)
Record fetch_args_ok (limits : ProtocolLimits) (a : FetchArgs) : Prop := {
  ok_wants : len (want a) ≤ max_wants limits;
  ok_haves : len (have a) ≤ max_haves limits;
  ok_want_refs : len (want_refs a) ≤ max_want_refs limits;
  ok_ref_names : Forall (λ r, utf8_valid r = true) (want_refs a);
  ok_deepen : ∀ n, deepen a = Some n → 1 ≤ n ≤ u32_max;
  ok_filter : ∀ s, filter a = Some s → utf8_valid s = true;
}.

Lemma parse_deepen_Ok d n : parse_deepen d = Ok n → 1 ≤ n ≤ u32_max.
Proof.
  unfold parse_deepen. rewrite result_bind_Ok. intros (s & _ & Hs).
  destruct (parse_u32 s) as [m|] eqn:E; [|done]. apply from_str_radix_le in E.
  cbn in Hs. destruct (N.eqb_spec m 0); [done|]. injection Hs as <-. lia.
Qed.

Lemma from_utf8_Ok s t : from_utf8 s = Ok t → t = s ∧ utf8_valid s = true.
Proof. unfold from_utf8. case_match; [|done]. by intros [= <-]. Qed.

Lemma check_bind_Ok {A} c m nm (a b : A) :
  (check_limit c m nm ;; Ok a) = Ok b → c ≤ m ∧ a = b.
Proof.
  rewrite result_bind_Ok. intros ([] & Hc%check_limit_Ok & Hb). by injection Hb.
Qed.

(** A flag changes none of the checked fields. *)
Lemma set_flag_ok limits f a : fetch_args_ok limits a → fetch_args_ok limits (set_flag f a).
Proof. by intros []. Qed.

Lemma empty_fetch_args_ok limits : fetch_args_ok limits empty_fetch_args.
Proof. split; unfold len; simpl; try done; lia. Qed.

Lemma fetch_arg_ok limits a d a' :
  fetch_arg limits a d = Ok a' → fetch_args_ok limits a → fetch_args_ok limits a'.
Proof.
  unfold fetch_arg. intros Hd [Hw Hh Hr Hn Hdp Hf].
  repeat (case_match; [|]);
    try (apply result_bind_Ok in Hd as (x & Hx & Hd)); try done.
  - apply check_bind_Ok in Hd as [Hc <-]. by split.
  - apply check_bind_Ok in Hd as [Hc <-]. by split.
  - apply check_bind_Ok in Hd as [Hc <-]. apply from_utf8_Ok in Hx as [-> Hx].
    split; try done. apply Forall_app. by repeat constructor.
  - injection Hd as <-. apply parse_deepen_Ok in Hx. split; try done.
    by intros n [= <-].
  - injection Hd as <-. apply from_utf8_Ok in Hx as [-> Hx]. split; try done.
    by intros n [= <-].
  - injection Hd as <-. by apply set_flag_ok.
Qed.

(** An invariant of the step is an invariant of the loop. *)
Lemma read_args_loop_inv {A} (P : A → Prop) step a p r p' :
  (∀ x d y, step x d = Ok y → P x → P y) → P a →
  read_args_loop step a p = (Ok r, p') → P r.
Proof.
  intros Hs. revert a; induction p as [|[[d| | |]|e] p IH]; intros a Ha; simpl; try done.
  - destruct (step a d) eqn:E; [|done]. apply IH. eauto.
  - by intros [= <- <-].
  - by intros [= <- <-].
Qed.
End fetch_facts.

Section v1_facts.
Context `{GixHash}.

Lemma v1_cap_ok limits caps a :
  fetch_args_ok limits a → fetch_args_ok limits (foldl v1_cap a caps).
Proof.
  revert a; induction caps as [|c caps IH]; intros a Ha; [done|]. simpl. apply IH.
  unfold v1_cap. repeat case_decide; by try apply set_flag_ok.
Qed.

Lemma v1_cap_fields caps a :
  want_refs (foldl v1_cap a caps) = want_refs a ∧
  wait_for_done (foldl v1_cap a caps) = wait_for_done a.
Proof.
  revert a; induction caps as [|c caps IH]; intros a; [done|]. simpl.
  destruct (IH (v1_cap a c)) as [-> ->]. unfold v1_cap. repeat case_decide; simpl;
    by rewrite ?orb_false_r.
Qed.

(** What v1 requests can express: no [want-ref] and no [wait-for-done]. *)
Definition v1_only (a : FetchArgs) : Prop := want_refs a = [] ∧ wait_for_done a = false.

Lemma fetch_arg_v1_ok limits a d a' :
  fetch_arg_v1 limits a d = Ok a' → fetch_args_ok limits a ∧ v1_only a →
  fetch_args_ok limits a' ∧ v1_only a'.
Proof.
  unfold fetch_arg_v1. intros Hd [Ha [H1 H2]]. pose proof Ha as [Hw Hh Hr Hn Hdp Hf].
  destruct (strip_prefix (b! "want ") _) as [rest|].
  { destruct (split_caps rest) as [ob co].
    apply result_bind_Ok in Hd as (x & _ & Hd). apply check_bind_Ok in Hd as [Hc Hd].
    assert (fetch_args_ok limits (push_want x a)) by (by split).
    destruct co as [caps|]; subst a'; [|by split].
    split; [by apply v1_cap_ok|]. unfold v1_only.
    by destruct (v1_cap_fields (split x20 caps) (push_want x a)) as [-> ->]. }
  repeat (case_match; [|]);
    try (apply result_bind_Ok in Hd as (x & Hx & Hd)); simplify_eq.
  - apply check_bind_Ok in Hd as [Hc <-]. split; [by split|done].
  - apply parse_deepen_Ok in Hx. split; [|done]. split; try done. by intros n [= <-].
  - apply from_utf8_Ok in Hx as [-> Hx]. split; [|done]. split; try done. by intros n [= <-].
  - by split.
Qed.

Lemma read_args_loop_v1_ok limits a p a' p' :
  read_args_loop_v1 limits a p = (Ok a', p') → fetch_args_ok limits a ∧ v1_only a →
  fetch_args_ok limits a' ∧ v1_only a'.
Proof.
  revert a; induction p as [|[[d| | |]|e] p IH]; intros a; simpl; try done; eauto.
  - destruct (fetch_arg_v1 limits a d) eqn:E; [|done]. intros Hr Ha.
    eapply IH; [done|]. by eapply fetch_arg_v1_ok.
  - by intros [= <- <-].
Qed.

(** A fetch request accepted by either parser is within every configured limit:
    the wants, haves and want-refs lists, a depth between 1 and [u32::MAX], and
    valid UTF-8 in names and filters; a v1 request never carries a [want-ref] or a
    [wait-for-done]. *)
Theorem fetch_args_bounds limits p :
  (∀ a p', read_fetch_args limits p = (Ok a, p') → fetch_args_ok limits a) ∧
  (∀ a, read_fetch_args_v1 limits p = Ok a → fetch_args_ok limits a ∧ v1_only a).
Proof.
  split.
  - intros a p'. unfold read_fetch_args. destruct (skip_till_delimiter p) as [[[]|] q]; [|done].
    apply read_args_loop_inv; [by intros; eapply fetch_arg_ok|apply empty_fetch_args_ok].
  - intros a. unfold read_fetch_args_v1.
    destruct (read_args_loop_v1 limits empty_fetch_args p) as [[b|] q] eqn:E; [|done].
    apply read_args_loop_v1_ok in E as [Hb Hv]; [|by split; [apply empty_fetch_args_ok|]].
    repeat case_match; intros [= <-]; try (by split).
    split; [by apply set_flag_ok|]. destruct Hv as [? ?]. split; simpl; by rewrite ?orb_false_r.
Qed.

(** An [ls-refs] request is accepted only with at most [max_ref_prefixes]
    prefixes. *)
Lemma lsrefs_args_bounds limits p a p' :
  read_lsrefs_args limits p = (Ok a, p') → len (prefixes a) ≤ max_ref_prefixes limits.
Proof.
  unfold read_lsrefs_args. destruct (skip_till_delimiter p) as [[[]|] q]; [|done].
  apply (read_args_loop_inv (λ a, len (prefixes a) ≤ max_ref_prefixes limits));
    [|unfold len; simpl; lia].
  intros x d y. unfold lsrefs_arg. case_match.
  - rewrite result_bind_Ok. intros ([] & Hc%check_limit_Ok & Hy). by injection Hy as <-.
  - repeat case_decide; try done; by intros [= <-].
Qed.
End v1_facts.

(** ** Fetch arguments round trip *)

Section fetch_roundtrip.
Context `{GixHashLaws}.

Definition flag_line (on : bool) (name : bytes) : list bytes := if on then [name] else [].

(** The argument lines of a v2 fetch request, without their newlines. *)
Definition fetch_lines (a : FetchArgs) : list bytes :=
  ((λ o, b! "want " ++ oid_to_hex o) <$> want a) ++
  ((λ o, b! "have " ++ oid_to_hex o) <$> have a) ++
  ((λ r, b! "want-ref " ++ r) <$> want_refs a) ++
  match deepen a with Some n => [b! "deepen " ++ decimal n] | None => [] end ++
  match filter a with Some s => [b! "filter " ++ s] | None => [] end ++
  flag_line (done a) (b! "done") ++ flag_line (thin_pack a) (b! "thin-pack") ++
  flag_line (no_progress a) (b! "no-progress") ++
  flag_line (include_tag a) (b! "include-tag") ++
  flag_line (ofs_delta a) (b! "ofs-delta") ++
  flag_line (wait_for_done a) (b! "wait-for-done").

Definition encode_fetch (agent : bytes) (a : FetchArgs) (rest : packet_stream) : packet_stream :=
  Ok (Data agent) :: Ok Delimiter ::
  ((λ l, Ok (Data (l ++ [x0a]))) <$> fetch_lines a) ++ Ok Flush :: rest.

(** Folding the step over data lines. *)
Fixpoint run_lines {A} (step : A → bytes → result error A) (a : A) (ls : list bytes) :
    result error A :=
  match ls with
  | [] => Ok a
  | l :: ls' => a' ← step a (l ++ [x0a]); run_lines step a' ls'
  end.

Lemma run_lines_app {A} step (a : A) l1 l2 :
  run_lines step a (l1 ++ l2) = run_lines step a l1 ≫= λ a', run_lines step a' l2.
Proof.
  revert a; induction l1 as [|l l1 IH]; intros a; simpl; [done|].
  destruct (step a (l ++ [x0a])); simpl; [apply IH|done].
Qed.

Lemma read_args_loop_lines {A} step (a b : A) ls p :
  run_lines step a ls = Ok b →
  read_args_loop step a (((λ l, Ok (Data (l ++ [x0a]))) <$> ls) ++ p) =
  read_args_loop step b p.
Proof.
  revert a; induction ls as [|l ls IH]; intros a; simpl; [by intros [= ->]|].
  destruct (step a (l ++ [x0a])); [apply IH|done].
Qed.

Lemma fetch_arg_want limits a o :
  len (want a) < max_wants limits →
  fetch_arg limits a ((b! "want " ++ oid_to_hex o) ++ [x0a]) = Ok (push_want o a).
Proof.
  intros Hl. unfold fetch_arg. rewrite strip_newline_snoc, strip_prefix_app, oid_from_to_hex.
  cbn [mbind result_bind]. rewrite (proj2 (check_limit_Ok _ _ _)); [done|].
  unfold len in *. simpl. rewrite length_app. simpl. lia.
Qed.

Lemma fetch_arg_have limits a o :
  len (have a) < max_haves limits →
  fetch_arg limits a ((b! "have " ++ oid_to_hex o) ++ [x0a]) = Ok (push_have o a).
Proof.
  intros Hl. unfold fetch_arg. rewrite strip_newline_snoc.
  change (strip_prefix (b! "want ") (b! "have " ++ oid_to_hex o)) with (@None bytes).
  rewrite strip_prefix_app, oid_from_to_hex. cbn [mbind result_bind].
  rewrite (proj2 (check_limit_Ok _ _ _)); [done|].
  unfold len in *. simpl. rewrite length_app. simpl. lia.
Qed.

Lemma fetch_arg_want_ref limits a r :
  utf8_valid r = true → len (want_refs a) < max_want_refs limits →
  fetch_arg limits a ((b! "want-ref " ++ r) ++ [x0a]) = Ok (push_want_ref r a).
Proof.
  intros Hr Hl. unfold fetch_arg. rewrite strip_newline_snoc.
  change (strip_prefix (b! "want ") (b! "want-ref " ++ r)) with (@None bytes).
  change (strip_prefix (b! "have ") (b! "want-ref " ++ r)) with (@None bytes).
  rewrite strip_prefix_app. unfold from_utf8. rewrite Hr. cbn [mbind result_bind].
  rewrite (proj2 (check_limit_Ok _ _ _)); [done|].
  unfold len in *. simpl. rewrite length_app. simpl. lia.
Qed.

Lemma decimal_utf8 n : utf8_valid (decimal n) = true.
Proof.
  rewrite <- (app_nil_r (decimal n)), utf8_valid_ascii; [done|].
  eapply Forall_impl; [apply decimal_digits|]. intros b.
  unfold is_ascii, in_range. rewrite !andb_true_iff, !N.leb_le. lia.
Qed.

Lemma fetch_arg_deepen limits a n :
  1 ≤ n ≤ u32_max → fetch_arg limits a ((b! "deepen " ++ decimal n) ++ [x0a]) = Ok (set_deepen n a).
Proof.
  intros Hn. unfold fetch_arg. rewrite strip_newline_snoc.
  change (strip_prefix (b! "want ") (b! "deepen " ++ decimal n)) with (@None bytes).
  change (strip_prefix (b! "have ") (b! "deepen " ++ decimal n)) with (@None bytes).
  change (strip_prefix (b! "want-ref ") (b! "deepen " ++ decimal n)) with (@None bytes).
  rewrite strip_prefix_app. unfold parse_deepen, from_utf8. rewrite decimal_utf8.
  cbn [mbind result_bind]. unfold parse_u32. rewrite from_str_radix_decimal by lia.
  cbn [mbind result_bind ok_or]. by rewrite (proj2 (N.eqb_neq n 0)) by lia.
Qed.

Lemma fetch_arg_filter limits a s :
  utf8_valid s = true → fetch_arg limits a ((b! "filter " ++ s) ++ [x0a]) = Ok (set_filter s a).
Proof.
  intros Hs. unfold fetch_arg. rewrite strip_newline_snoc.
  change (strip_prefix (b! "want ") (b! "filter " ++ s)) with (@None bytes).
  change (strip_prefix (b! "have ") (b! "filter " ++ s)) with (@None bytes).
  change (strip_prefix (b! "want-ref ") (b! "filter " ++ s)) with (@None bytes).
  change (strip_prefix (b! "deepen ") (b! "filter " ++ s)) with (@None bytes).
  rewrite strip_prefix_app. unfold from_utf8. by rewrite Hs.
Qed.

(** A list of lines of one kind folds the corresponding push. *)
Lemma run_lines_push {A B} (step : A → bytes → result error A) (line : B → bytes)
    (push : B → A → A) (size : A → N) max a xs :
  (∀ x b, size b < max → step b (line x ++ [x0a]) = Ok (push x b)) →
  (∀ x b, size (push x b) = size b + 1) → size a + len xs ≤ max →
  run_lines step a (line <$> xs) = Ok (foldl (λ b x, push x b) a xs).
Proof.
  intros Hs Hp. revert a; induction xs as [|x xs IH]; intros a Hl; [done|].
  unfold len in Hl. cbn [length fmap list_fmap run_lines foldl] in *.
  rewrite Hs by lia. cbn [mbind result_bind]. apply IH. rewrite Hp. unfold len. lia.
Qed.

Lemma fold_push_want ws a :
  foldl (λ b x, push_want x b) a ws =
  {| want := want a ++ ws; want_refs := want_refs a; have := have a; done := done a;
     thin_pack := thin_pack a; no_progress := no_progress a; include_tag := include_tag a;
     ofs_delta := ofs_delta a; wait_for_done := wait_for_done a; deepen := deepen a;
     filter := filter a |}.
Proof.
  revert a; induction ws as [|w ws IH]; intros a; simpl; [rewrite app_nil_r; by destruct a|].
  rewrite IH. simpl. by rewrite <- app_assoc.
Qed.

Lemma fold_push_have ws a :
  foldl (λ b x, push_have x b) a ws =
  {| want := want a; want_refs := want_refs a; have := have a ++ ws; done := done a;
     thin_pack := thin_pack a; no_progress := no_progress a; include_tag := include_tag a;
     ofs_delta := ofs_delta a; wait_for_done := wait_for_done a; deepen := deepen a;
     filter := filter a |}.
Proof.
  revert a; induction ws as [|w ws IH]; intros a; simpl; [rewrite app_nil_r; by destruct a|].
  rewrite IH. simpl. by rewrite <- app_assoc.
Qed.

(** Names are checked one by one, so the invariant carries them along. *)
Lemma run_want_refs limits rs a :
  Forall (λ r, utf8_valid r = true) rs → len (want_refs a) + len rs ≤ max_want_refs limits →
  run_lines (fetch_arg limits) a ((λ r, b! "want-ref " ++ r) <$> rs) =
  Ok {| want := want a; want_refs := want_refs a ++ rs; have := have a; done := done a;
        thin_pack := thin_pack a; no_progress := no_progress a; include_tag := include_tag a;
        ofs_delta := ofs_delta a; wait_for_done := wait_for_done a; deepen := deepen a;
        filter := filter a |}.
Proof.
  intros Hr; revert a; induction Hr as [|r rs Hr _ IH]; intros a Hl.
  - simpl. rewrite app_nil_r. by destruct a.
  - unfold len in Hl. cbn [length fmap list_fmap run_lines] in *.
    rewrite fetch_arg_want_ref by (done || unfold len; lia). cbn [mbind result_bind].
    rewrite IH by (unfold len; simpl; rewrite length_app; simpl; lia).
    simpl. by rewrite <- app_assoc.
Qed.

Lemma run_deepen limits b o :
  (∀ n, o = Some n → 1 ≤ n ≤ u32_max) →
  run_lines (fetch_arg limits) b
    (match o with Some n => [b! "deepen " ++ decimal n] | None => [] end) =
  Ok (match o with Some n => set_deepen n b | None => b end).
Proof.
  intros Ho. destruct o as [n|]; [|done]. cbn [run_lines].
  by rewrite fetch_arg_deepen by (by apply Ho).
Qed.

Lemma run_filter limits b o :
  (∀ s, o = Some s → utf8_valid s = true) →
  run_lines (fetch_arg limits) b
    (match o with Some s => [b! "filter " ++ s] | None => [] end) =
  Ok (match o with Some s => set_filter s b | None => b end).
Proof.
  intros Ho. destruct o as [s|]; [|done]. cbn [run_lines].
  by rewrite fetch_arg_filter by (by apply Ho).
Qed.

Lemma run_flag limits name f a (on : bool) b :
  (∀ c, fetch_arg limits c (name ++ [x0a]) = Ok (set_flag f c)) →
  (if on then set_flag f a else a) = b →
  run_lines (fetch_arg limits) a (flag_line on name) = Ok b.
Proof. intros Hf <-. destruct on; [|done]. simpl. by rewrite Hf. Qed.

(** The six flags, each set when its line is present. *)
Lemma run_flags limits ws rs hs d tp np it od wd dp fl :
  run_lines (fetch_arg limits)
    {| want := ws; want_refs := rs; have := hs; done := false; thin_pack := false;
       no_progress := false; include_tag := false; ofs_delta := false;
       wait_for_done := false; deepen := dp; filter := fl |}
    (flag_line d (b! "done") ++ flag_line tp (b! "thin-pack") ++
     flag_line np (b! "no-progress") ++ flag_line it (b! "include-tag") ++
     flag_line od (b! "ofs-delta") ++ flag_line wd (b! "wait-for-done")) =
  Ok {| want := ws; want_refs := rs; have := hs; done := d; thin_pack := tp;
        no_progress := np; include_tag := it; ofs_delta := od;
        wait_for_done := wd; deepen := dp; filter := fl |}.
Proof.
  rewrite run_lines_app, (run_flag _ _ FDone _ _ (Build_FetchArgs ws rs hs d false false
    false false false dp fl)) by (by destruct d). cbn [mbind result_bind].
  rewrite run_lines_app, (run_flag _ _ FThinPack _ _ (Build_FetchArgs ws rs hs d tp false
    false false false dp fl)) by (by destruct d, tp). cbn [mbind result_bind].
  rewrite run_lines_app, (run_flag _ _ FNoProgress _ _ (Build_FetchArgs ws rs hs d tp np
    false false false dp fl)) by (by destruct d, tp, np). cbn [mbind result_bind].
  rewrite run_lines_app, (run_flag _ _ FIncludeTag _ _ (Build_FetchArgs ws rs hs d tp np
    it false false dp fl)) by (by destruct d, tp, np, it). cbn [mbind result_bind].
  rewrite run_lines_app, (run_flag _ _ FOfsDelta _ _ (Build_FetchArgs ws rs hs d tp np
    it od false dp fl)) by (by destruct d, tp, np, it, od). cbn [mbind result_bind].
  by rewrite (run_flag _ _ FWaitForDone _ _ (Build_FetchArgs ws rs hs d tp np
    it od wd dp fl)) by (by destruct d, tp, np, it, od, wd).
Qed.

Lemma len_snoc {A} (l : list A) x : len (l ++ [x]) = len l + 1.
Proof. unfold len. rewrite length_app. simpl. lia. Qed.

(** Every request within the limits is parsed back from its encoding. *)
Lemma run_fetch_lines limits a :
  fetch_args_ok limits a → run_lines (fetch_arg limits) empty_fetch_args (fetch_lines a) = Ok a.
Proof.
  intros [Hw Hh Hr Hn Hd Hf]. unfold fetch_lines.
  rewrite run_lines_app, (run_lines_push _ _ push_want (λ b, len (want b)) (max_wants limits));
    [|by intros; apply fetch_arg_want|by intros; apply len_snoc|done].
  rewrite fold_push_want. cbn [mbind result_bind].
  rewrite run_lines_app, (run_lines_push _ _ push_have (λ b, len (have b)) (max_haves limits));
    [|by intros; apply fetch_arg_have|by intros; apply len_snoc|done].
  rewrite fold_push_have. cbn [mbind result_bind].
  rewrite run_lines_app, run_want_refs by done. cbn [mbind result_bind].
  rewrite run_lines_app, run_deepen by done. cbn [mbind result_bind].
  rewrite run_lines_app, run_filter by done. cbn [mbind result_bind].
  destruct a as [ws rs hs d tp np it od wd dp fl]. cbn -[flag_line String.list_byte_of_string].
  destruct dp, fl; apply run_flags.
Qed.

(** Any fetch request within the limits, written as v2 argument lines after the
    command's capability section, is read back unchanged, and the stream is left
    right after the flush. *)
Theorem read_fetch_args_roundtrip limits agent a rest :
  fetch_args_ok limits a → read_fetch_args limits (encode_fetch agent a rest) = (Ok a, rest).
Proof.
  intros Ha. unfold read_fetch_args, encode_fetch. cbn [skip_till_delimiter].
  by rewrite (read_args_loop_lines _ _ a) by (by apply run_fetch_lines).
Qed.
End fetch_roundtrip.

(** ** Concrete instances *)

Module ProtoExamples.
#[local] Existing Instances Sha1.hash Sha1.hash_laws.

Definition push_main : RefUpdate :=
  {| old_oid := Sha1.rep x11; new_oid := Sha1.rep x22; refname := b! "refs/heads/main" |}.
Definition new_tag : RefUpdate :=
  {| old_oid := oid_null; new_oid := Sha1.rep x33; refname := b! "refs/tags/v 1" |}.
Definition caps : bytes := b! " report-status agent=git/2.40".

Lemma read_receive_request_roundtrip_witness :
  read_receive_request default_limits
    (encode_request caps [push_main; new_tag] (b! "PACK....")) =
  Ok ([push_main; new_tag], b! "PACK....").
Proof.
  apply read_receive_request_roundtrip; [|done]. split.
  - repeat constructor.
  - repeat constructor. apply (bool_decide_unpack _). vm_compute. exact I.
Defined.

Lemma read_receive_request_bounds_witness :
  len [push_main] ≤ max_ref_updates default_limits ∧
  Forall (λ u, utf8_valid (refname u) = true) [push_main] ∧
  suffix (b! "PACK") (encode_request [] [push_main] (b! "PACK")).
Proof. apply (read_receive_request_bounds default_limits). vm_compute. reflexivity. Defined.

Lemma lsrefs_args_bounds_witness : len [b! "refs/heads/"] ≤ max_ref_prefixes default_limits.
Proof.
  apply (lsrefs_args_bounds default_limits
    [Ok Delimiter; Ok (Data (b! "ref-prefix refs/heads/")); Ok Flush]
    {| symrefs := false; peel := false; prefixes := [b! "refs/heads/"]; unborn := false |} []).
  vm_compute. reflexivity.
Defined.

Definition shallow_fetch : FetchArgs := {|
  want := [Sha1.rep x22]; want_refs := [b! "refs/heads/main"]; have := [Sha1.rep x11];
  done := true; thin_pack := true; no_progress := false; include_tag := false;
  ofs_delta := true; wait_for_done := false; deepen := Some 3;
  filter := Some (b! "blob:none") |}.

Lemma read_fetch_args_roundtrip_witness :
  read_fetch_args default_limits (encode_fetch (b! "agent=git/2.40") shallow_fetch []) =
  (Ok shallow_fetch, []).
Proof.
  apply read_fetch_args_roundtrip. split; try done.
  - repeat constructor.
  - by intros n [= <-].
  - by intros s [= <-].
Defined.
End ProtoExamples.
