(* ===== verification/Types.v ===== *)
(** * Auth-surface types and the storage interface

    The data of [auth_types.rs] and [backend/mod.rs], and the [StorageBackend] trait as
    a class of operations on an abstract store.  [BackendLaws] is the trait's contract:
    which operations leave the refs alone, and that [update_refs] is an all-or-nothing
    compare-and-swap.  Clients are verified against the contract; the backends
    discharge it. *)

From stdpp Require Import base gmap list strings.
From Stdlib Require Import Strings.Byte.
From S2P Require Import Prelude Bytes Gix Proto.

(** ** Commit, tag and signature metadata *)

Inductive SignatureFormat := OpenPgp | Ssh | X509Cms | UnknownFormat.

#[global] Instance SignatureFormat_eq_dec : EqDecision SignatureFormat.
Proof. solve_decision. Defined.

(** [SignatureFormat::detect]. *)
Definition detect (s : bytes) : SignatureFormat :=
  if starts_with (b! "-----BEGIN PGP SIGNATURE-----") s then OpenPgp
  else if starts_with (b! "-----BEGIN SSH SIGNATURE-----") s then Ssh
  else if starts_with (b! "-----BEGIN SIGNED MESSAGE-----") s
          || starts_with (b! "-----BEGIN CMS-----") s then X509Cms
  else UnknownFormat.

Record SignatureBlob := { sig_format : SignatureFormat; sig_bytes : bytes }.

Record Identity := { id_name : bytes; id_email : bytes; id_time : bytes }.

Inductive SignedIdentity :=
| Pgp (key_id : bytes) (email : bytes)
| SshId (fingerprint : bytes) (principal : option bytes)
| X509 (subject : bytes) (san : option bytes)
| OtherId (description : bytes).

Definition matches_email (i : SignedIdentity) (email : bytes) : bool :=
  match i with
  | Pgp _ e => bool_decide (e = email)
  | X509 _ (Some s) => bool_decide (s = email)
  | SshId _ (Some p) => bool_decide (p = email)
  | _ => false
  end.

Inductive VerificationStatus :=
| Verified (identity : SignedIdentity) (format : SignatureFormat)
| BadSignature
| UnknownKey
| UnsupportedFormat
| Unsigned.

Record Signer := {
  signer_email : bytes; signer_format : SignatureFormat; signer_identifier : option bytes }.

(** [SignerKey] has the same fields, owned. *)
Definition SignerKey : Type := Signer.
Definition signer_key (s : Signer) : SignerKey :=
  {| signer_email := signer_email s; signer_format := signer_format s;
     signer_identifier := signer_identifier s |}.

Record VerificationKey := { key_format : SignatureFormat; key_data : bytes }.

(** [HashMap<SignerKey, Vec<VerificationKey>>], as its entries in iteration order. *)
Definition VerificationKeys : Type := list (SignerKey * list VerificationKey).

Record ExternalSig := {
  ext_format : SignatureFormat; ext_signature : bytes;
  ext_payload : bytes; ext_email : bytes }.

Inductive RefDiffChange := Added | Modified | Removed.

#[global] Instance RefDiffChange_eq_dec : EqDecision RefDiffChange.
Proof. solve_decision. Defined.

Inductive ComparisonError :=
| CapExceededErr (what : bytes) (limit : N)
| BackendErr (e : error).

Inductive ReachableError :=
| CapExceeded (limit : N)
| ReachOther (e : error).

Section types.
Context `{GixHash}.

Record CommitInfo := {
  c_oid : ObjectId; c_tree : ObjectId; c_parents : list ObjectId;
  c_author : Identity; c_committer : Identity; c_message : bytes;
  c_encoding : option bytes; c_signature : option SignatureBlob }.

Record TagInfo := {
  t_oid : ObjectId; t_target : ObjectId; t_name : bytes; t_tagger : option Identity;
  t_message : bytes; t_signature : option SignatureBlob }.

Record RefDiffEntry := {
  d_path : bytes; d_change : RefDiffChange; d_mode : N; d_oid : ObjectId }.

Definition RefDiff : Type := list RefDiffEntry.

Definition touched_paths (d : RefDiff) : list bytes := d_path <$> d.
Definition added_or_modified (d : RefDiff) : list RefDiffEntry :=
  base.filter (λ e, d_change e ≠ Removed) d.
Definition removed (d : RefDiff) : list RefDiffEntry :=
  base.filter (λ e, d_change e = Removed) d.

Record PushRef := {
  pr_refname : bytes; pr_kind : PushKind; pr_old_oid : ObjectId; pr_new_oid : ObjectId }.

(** ** Packs and refs *)

Inductive ObjectKind := KBlob | KTree | KCommit (c : CommitInfo) | KTag (t : TagInfo).

Record PackObject := { po_oid : ObjectId; po_kind : ObjectKind; po_size : N }.

(** [PackMetadata], as its [objects]. *)
Definition PackMetadata : Type := list PackObject.

Definition commits (m : PackMetadata) : list CommitInfo :=
  omap (λ o, match po_kind o with KCommit c => Some c | _ => None end) m.
Definition tags (m : PackMetadata) : list TagInfo :=
  omap (λ o, match po_kind o with KTag t => Some t | _ => None end) m.
Definition find_commit (m : PackMetadata) (o : ObjectId) : option CommitInfo :=
  head (base.filter (λ c, c_oid c = o) (commits m)).

Record HeadInfo := { h_oid : ObjectId; h_symref_target : option bytes }.

Record RefInfo := {
  r_name : bytes; r_oid : ObjectId; r_peeled : option ObjectId;
  r_symref_target : option bytes }.

Record RefsSnapshot := { rs_head : option HeadInfo; rs_refs : list RefInfo }.

Definition concrete_refs (s : RefsSnapshot) : list (ObjectId * bytes) :=
  (λ r, (r_oid r, r_name r)) <$>
    base.filter (λ r, starts_with (b! "refs/") (r_name r) = true) (rs_refs s).

Definition as_upload_pack_v1 (s : RefsSnapshot) : list (ObjectId * bytes) :=
  match rs_head s with Some h => [(h_oid h, b! "HEAD")] | None => [] end ++ concrete_refs s.

Definition as_receive_pack (s : RefsSnapshot) : list (ObjectId * bytes) := concrete_refs s.

Record PackOptions := {
  po_deepen : option N; po_filter : option Filter; po_thin_pack : bool }.

(** [PackOutput]: what successive reads of [reader] return (an empty read or the end
    of the list is the end of the pack), the shallow boundary, and the progress
    messages that have arrived at each poll of the channel. *)
Record PackOutput := {
  out_reader : list (result error bytes);
  out_shallow : list ObjectId;
  out_progress : option (list (list bytes)) }.

(** ** The compare-and-swap contract of [update_refs] *)

Definition cas_update (m : gmap bytes ObjectId) (u : RefUpdate) : option (gmap bytes ObjectId) :=
  let m' := if is_null (new_oid u) then delete (refname u) m
            else <[refname u := new_oid u]> m in
  if is_null (old_oid u)
  then match m !! refname u with None => Some m' | Some _ => None end
  else if decide (m !! refname u = Some (old_oid u)) then Some m' else None.

Fixpoint cas_updates (m : gmap bytes ObjectId) (us : list RefUpdate) :
    option (gmap bytes ObjectId) :=
  match us with
  | [] => Some m
  | u :: us' => m' ← cas_update m u; cas_updates m' us'
  end.

Lemma cas_updates_app m us vs :
  cas_updates m (us ++ vs) = m' ← cas_updates m us; cas_updates m' vs.
Proof. revert m; induction us as [|u us IH]; intros m; cbn; [done|]. destruct (cas_update m u); cbn; [apply IH|done]. Qed.
End types.

(** A pack file: where it is, what it holds, and what the [.idx] file beside it holds. *)
Record PackFile := { pf_path : bytes; pf_pack : bytes; pf_idx : option bytes }.

(** ** The storage trait *)

Class StorageBackend `{GixHash} := {
  store : Type;
  RepoId : Type;
  Repo : Type;
  IngestedPack : Type;
  sb_open : RepoId → ST store Repo;
  sb_list_refs : Repo → ST store RefsSnapshot;
  sb_resolve_ref : Repo → bytes → ST store (option ObjectId);
  sb_update_refs : Repo → list RefUpdate → ST store ();
  sb_init_repo : RepoId → ST store ();
  sb_has_objects : Repo → list ObjectId → ST store (list bool);
  sb_compute_push_kind : Repo → RefUpdate → store → PushKind * store;
  sb_build_pack : Repo → list ObjectId → list ObjectId → PackOptions → ST store PackOutput;
  sb_ingest_pack : Repo → PackFile → ST store (option IngestedPack);
  sb_inspect_ingested : IngestedPack → ST store PackMetadata;
  sb_rollback_ingest : IngestedPack → store → store;
  sb_reachable_excluding :
    Repo → list ObjectId → list ObjectId → N → store → result ReachableError (list ObjectId) * store;
  sb_tree_diff : Repo → option ObjectId → ObjectId → ST store RefDiff;
  sb_read_commit_info : Repo → ObjectId → ST store CommitInfo;
  sb_read_blob : Repo → ObjectId → N → ST store (option bytes);
  sb_read_object_raw : Repo → ObjectId → N → ST store (option bytes);
}.

(** The default [has_objects]: [has_object] in a loop. *)
Fixpoint has_objects_default {S O} (has_object : O → ST S bool) (oids : list O) : ST S (list bool) :=
  match oids with
  | [] => mret []
  | o :: os => b ← has_object o; bs ← has_objects_default has_object os; mret (b :: bs)
  end.

(** What every backend promises of the refs.  [refs_view r s] is what the refs of [r] are in
    store [s], as far as the observer sees them; [ref_effect us m m'] holds of what an
    [update_refs] with [us] may make of [m]. *)
Class RefsLaws `{StorageBackend} {RefsView : Type} := {
  refs_view : Repo → store → RefsView;

  (** Handles with the same tag are handles of the same repository. *)
  RepoTag : Type;
  repo_tag : Repo → RepoTag;
  repo_tag_dec :: EqDecision RepoTag;
  refs_view_tag r r' s : repo_tag r = repo_tag r' → refs_view r s = refs_view r' s;

  ref_effect : list RefUpdate → RefsView → RefsView → Prop;
  update_refs_effect r us s x s' :
    sb_update_refs r us s = (x, s') →
    refs_view r s' = refs_view r s ∨ ref_effect us (refs_view r s) (refs_view r s');
  ref_effect_nil m m' : ref_effect [] m m' → m' = m;
  update_refs_frame r us s x s' r' :
    sb_update_refs r us s = (x, s') → repo_tag r' ≠ repo_tag r →
    refs_view r' s' = refs_view r' s;

  (** The packs that an [ingest_pack] may return, which are those that can be rolled back. *)
  ingested : IngestedPack → Prop;
  ingest_gives r staged s p s' : sb_ingest_pack r staged s = (Ok (Some p), s') → ingested p;
  rollback_refs p s r : ingested p → refs_view r (sb_rollback_ingest p s) = refs_view r s;

  open_refs i s r : refs_view r (sb_open i s).2 = refs_view r s;
  list_refs_refs r' s r : refs_view r (sb_list_refs r' s).2 = refs_view r s;
  resolve_ref_refs r' n s r : refs_view r (sb_resolve_ref r' n s).2 = refs_view r s;
  init_repo_refs i s r : refs_view r (sb_init_repo i s).2 = refs_view r s;
  has_objects_refs r' os s r : refs_view r (sb_has_objects r' os s).2 = refs_view r s;
  push_kind_refs r' u s r : refs_view r (sb_compute_push_kind r' u s).2 = refs_view r s;
  build_pack_refs r' w h o s r : refs_view r (sb_build_pack r' w h o s).2 = refs_view r s;
  ingest_refs r' p s r : refs_view r (sb_ingest_pack r' p s).2 = refs_view r s;
  inspect_refs p s r : refs_view r (sb_inspect_ingested p s).2 = refs_view r s;
  reachable_refs r' f x c s r : refs_view r (sb_reachable_excluding r' f x c s).2 = refs_view r s;
  tree_diff_refs r' p c s r : refs_view r (sb_tree_diff r' p c s).2 = refs_view r s;
  read_commit_refs r' o s r : refs_view r (sb_read_commit_info r' o s).2 = refs_view r s;
  read_blob_refs r' o c s r : refs_view r (sb_read_blob r' o c s).2 = refs_view r s;
  read_raw_refs r' o c s r : refs_view r (sb_read_object_raw r' o c s).2 = refs_view r s;
}.

(** The contract that the trait documents: a push is all or nothing, by compare-and-swap. *)
Class BackendLaws `{StorageBackend} := {
  backend_refs :: RefsLaws (RefsView := gmap bytes ObjectId);
  ref_effect_cas us m m' : ref_effect us m m' → cas_updates m us = Some m';
  update_refs_Ok r us s s' :
    sb_update_refs r us s = (Ok (), s') →
    cas_updates (refs_view r s) us = Some (refs_view r s');
  update_refs_Err r us s e s' r' :
    sb_update_refs r us s = (Err e, s') → refs_view r' s' = refs_view r' s;
}.

(** The contract as preservation facts. *)
Section refs_pres.
Context `{RefsLaws} (r : Repo).

Lemma pres_open i : pres (refs_view r) (sb_open i).
Proof. intros s. apply open_refs. Qed.
Lemma pres_list_refs r' : pres (refs_view r) (sb_list_refs r').
Proof. intros s. apply list_refs_refs. Qed.
Lemma pres_resolve_ref r' n : pres (refs_view r) (sb_resolve_ref r' n).
Proof. intros s. apply resolve_ref_refs. Qed.
Lemma pres_init_repo i : pres (refs_view r) (sb_init_repo i).
Proof. intros s. apply init_repo_refs. Qed.
Lemma pres_has_objects r' os : pres (refs_view r) (sb_has_objects r' os).
Proof. intros s. apply has_objects_refs. Qed.
Lemma pres_push_kind r' u : pres (refs_view r) (sb_compute_push_kind r' u).
Proof. intros s. apply push_kind_refs. Qed.
Lemma pres_build_pack r' w h o : pres (refs_view r) (sb_build_pack r' w h o).
Proof. intros s. apply build_pack_refs. Qed.
Lemma pres_ingest r' p : pres (refs_view r) (sb_ingest_pack r' p).
Proof. intros s. apply ingest_refs. Qed.
Lemma pres_inspect p : pres (refs_view r) (sb_inspect_ingested p).
Proof. intros s. apply inspect_refs. Qed.
End refs_pres.

#[export] Hint Resolve pres_open pres_list_refs pres_resolve_ref pres_init_repo pres_has_objects
  pres_push_kind pres_build_pack pres_ingest pres_inspect : mizzle.

(** ** Reads and the commit graph

    The remaining promises of the trait the [Comparison] relies on.  Reads leave the
    store as it is; [reachable_excluding] answers from the commit graph; and the
    metadata read for a commit carries the id it was asked for. *)

Class ReadOnlyLaws `{StorageBackend} : Prop := {
  reachable_ro r f x c s : (sb_reachable_excluding r f x c s).2 = s;
  tree_diff_ro r p c s : (sb_tree_diff r p c s).2 = s;
  read_commit_ro r o s : (sb_read_commit_info r o s).2 = s;
  read_blob_ro r o c s : (sb_read_blob r o c s).2 = s;
  read_raw_ro r o c s : (sb_read_object_raw r o c s).2 = s;
}.

(** [reaches parents o p]: [p] is [o] or an ancestor of it. *)
Definition reaches {O} (parents : O → list O) : O → O → Prop :=
  rtc (λ c p, p ∈ parents c).

Definition reached_from {O} (parents : O → list O) (from : list O) (o : O) : Prop :=
  ∃ f, f ∈ from ∧ reaches parents f o.

Class GraphLaws `{StorageBackend} := {
  graph_view : Repo → store → ObjectId → list ObjectId;
  reachable_Ok r from excluding cap s l s' :
    sb_reachable_excluding r from excluding cap s = (Ok l, s') →
    ∀ o, o ∈ l ↔ reached_from (graph_view r s) from o ∧
                 ¬ reached_from (graph_view r s) excluding o;
  read_commit_oid r o s ci s' : sb_read_commit_info r o s = (Ok ci, s') → c_oid ci = o;
}.

Lemma reached_from_app {O} (parents : O → list O) l1 l2 o :
  reached_from parents (l1 ++ l2) o ↔ reached_from parents l1 o ∨ reached_from parents l2 o.
Proof. unfold reached_from. set_solver. Qed.

Lemma reached_from_one {O} (parents : O → list O) f o :
  reached_from parents [f] o ↔ reaches parents f o.
Proof. unfold reached_from. set_solver. Qed.

Lemma find_commit_oid `{GixHash} (m : PackMetadata) o c : find_commit m o = Some c → c_oid c = o.
Proof.
  unfold find_commit. intros Hh. apply head_Some_elem_of in Hh.
  by apply list_elem_of_filter in Hh as [].
Qed.
