(* ===== verification/Handlers.v ===== *)
(** * Protocol responses

    The handlers that write packet lines: [ls_refs.rs], [receive.rs] and [fetch.rs] of
    [mizzle/src], and the advertisements of [serve.rs].  A handler acts on the store
    and on a writer; the theorems give the packets each writes, on every branch. *)

From stdpp Require Import base gmap list strings.
From Stdlib Require Import Strings.Byte.
From S2P Require Import Prelude Bytes Gix Proto Types.

(** ** Store and writer together *)

Definition on_store {S W A} (m : ST S A) : ST (S * W) A :=
  fun '(s, w) => let '(r, s') := m s in (r, (s', w)).
Definition on_writer {S W A} (m : ST W A) : ST (S * W) A :=
  fun '(s, w) => let '(r, w') := m w in (r, (s, w')).

(** Store computations preserve what they did of the store, and leave the writer;
    writer computations leave the store. *)
Lemma pres_on_store {S W A T} (V : S → T) (m : ST S A) :
  pres V m → pres (λ x : S * W, V x.1) (on_store m).
Proof. intros Hm [s w]. simpl. specialize (Hm s). by destruct (m s). Qed.

Lemma pres_on_writer {S W A T} (V : S → T) (m : ST W A) :
  pres (λ x : S * W, V x.1) (on_writer m).
Proof. intros [s w]. simpl. by destruct (m w). Qed.

#[export] Hint Resolve pres_on_store pres_on_writer : mizzle.

Section handlers.
Context `{GixHash}.

(** ** [ls-refs] *)

Definition prefix_match (args : ListRefsArgs) (name : bytes) : bool :=
  bool_decide (prefixes args = []) || existsb (λ p, starts_with p name) (prefixes args).

Definition write_head (head : option HeadInfo) (args : ListRefsArgs) : ST writer () :=
  match head with
  | Some h =>
      if symrefs args then
        match h_symref_target h with
        | Some target =>
            text_to_write (oid_to_hex (h_oid h) ++ b! " HEAD symref-target:" ++ target)
        | None => text_to_write (oid_to_hex (h_oid h) ++ b! " HEAD")
        end
      else text_to_write (oid_to_hex (h_oid h) ++ b! " HEAD")
  | None => if unborn args then text_to_write (b! "unborn HEAD") else mret ()
  end.

Definition write_ref (args : ListRefsArgs) (r : RefInfo) : ST writer () :=
  if negb (bool_decide (prefixes args = []))
     && negb (existsb (λ p, starts_with p (r_name r)) (prefixes args))
  then mret ()
  else
    match r_symref_target r, r_peeled r with
    | Some target, _ =>
        if symrefs args then
          text_to_write (oid_to_hex (r_oid r) ++ b! " " ++ r_name r ++
                         b! " symref-target:" ++ target)
        else text_to_write (oid_to_hex (r_oid r) ++ b! " " ++ r_name r)
    | None, Some peeled =>
        if peel args then
          text_to_write (oid_to_hex (r_oid r) ++ b! " " ++ r_name r ++
                         b! " peeled:" ++ oid_to_hex peeled)
        else text_to_write (oid_to_hex (r_oid r) ++ b! " " ++ r_name r)
    | None, None => text_to_write (oid_to_hex (r_oid r) ++ b! " " ++ r_name r)
    end.

Definition perform_listrefs (snapshot : RefsSnapshot) (args : ListRefsArgs) : ST writer () :=
  write_head (rs_head snapshot) args ;;
  for_each (write_ref args) (rs_refs snapshot) ;;
  flush_to_write.

(** ** Advertisements *)

Definition null_hex : bytes := b! "0000000000000000000000000000000000000000".

(** The ref advertisement both services share: capabilities ride on the first line. *)
Definition advertise_refs (caps : bytes) (refs : list (ObjectId * bytes)) : ST writer () :=
  match refs with
  | [] => text_to_write (null_hex ++ b! " capabilities^{}" ++ [x00] ++ caps)
  | (oid, name) :: rest =>
      text_to_write (oid_to_hex oid ++ b! " " ++ name ++ [x00] ++ caps) ;;
      for_each (λ '(oid, name), text_to_write (oid_to_hex oid ++ b! " " ++ name)) rest
  end ;;
  flush_to_write.

Definition info_refs_receive_pack_task : list (ObjectId * bytes) → ST writer () :=
  advertise_refs (b! "report-status delete-refs ofs-delta agent=mizzle/dev").

Definition upload_pack_v1_refs : list (ObjectId * bytes) → ST writer () :=
  advertise_refs (b! "side-band-64k ofs-delta shallow filter agent=mizzle/dev").

Definition capability_advertisement_v2 : ST writer () :=
  text_to_write (b! "version 2") ;;
  text_to_write (b! "agent=mizzle/dev") ;;
  text_to_write (b! "ls-refs=unborn") ;;
  text_to_write (b! "fetch=ref-in-want wait-for-done shallow filter") ;;
  flush_to_write.

Definition info_refs_task : ST writer () :=
  text_to_write (b! "# service=git-upload-pack") ;;
  flush_to_write ;;
  capability_advertisement_v2.

Definition info_refs_upload_pack_v1_task (refs : list (ObjectId * bytes)) : ST writer () :=
  text_to_write (b! "# service=git-upload-pack") ;;
  flush_to_write ;;
  upload_pack_v1_refs refs.

(** ** Receive-pack results *)

(** The rejection report: [unpack ok], then one [ng] line per ref. *)
Definition reject_report (refs : list bytes) (msg : bytes) : ST writer () :=
  text_to_write (b! "unpack ok") ;;
  for_each (λ name, text_to_write (b! "ng " ++ name ++ b! " " ++ msg)) refs ;;
  flush_to_write.

(** [stage_pack]: a temporary file at [temp] with the bytes of all reads up to the first
    empty one, [None] if there are none.  No [.idx] file is beside it. *)
Fixpoint stage_loop (reads : list (result error bytes)) (file : bytes) : result error bytes :=
  match reads with
  | [] | Ok [] :: _ => Ok file
  | Ok c :: reads' => stage_loop reads' (file ++ c)
  | Err e :: _ => Err e
  end.

Definition stage_pack (temp : bytes) (reads : list (result error bytes)) : result error (option PackFile) :=
  file ← stage_loop reads [];
  Ok (match file with [] => None | _ => Some {| pf_path := temp; pf_pack := file; pf_idx := None |} end).

(** ** Sideband streaming *)

Definition MAX_SIDEBAND : N := 65516 - 16.

(** The messages waiting on the progress channel, and the channel afterwards. *)
Definition try_iter (rx : option (list (list bytes))) : list bytes * option (list (list bytes)) :=
  match rx with
  | None => ([], None)
  | Some [] => ([], Some [])
  | Some (ms :: rx') => (ms, Some rx')
  end.

(** Drain the progress channel, then read a chunk and forward it; the end of the
    pack drains the channel once more. *)
Fixpoint stream_pack_sideband (reads : list (result error bytes))
    (rx : option (list (list bytes))) : ST writer () :=
  let '(msgs, rx') := try_iter rx in
  for_each (band_to_write ChProgress) msgs ;;
  match reads with
  | [] | Ok [] :: _ => for_each (band_to_write ChProgress) (try_iter rx').1
  | Err e :: _ => lift (Err e)
  | Ok c :: reads' => band_to_write ChData c ;; stream_pack_sideband reads' rx'
  end.
End handlers.

Section fetch.
Context `{StorageBackend}.

(** ** Fetch responses *)

(** The client's haves that the server knows. *)
Definition known_haves (have : list ObjectId) (known : list bool) : list ObjectId :=
  omap (λ '(id, exists_), if exists_ : bool then Some id else None) (zip have known).

Definition pack_options (args : FetchArgs) : result error PackOptions :=
  f ← match filter args with
      | None => Ok None
      | Some spec => x ← Filter_parse spec; Ok (Some x)
      end;
  Ok {| po_deepen := deepen args; po_filter := f; po_thin_pack := thin_pack args |}.

Definition progress_of (args : FetchArgs) (out : PackOutput) : option (list (list bytes)) :=
  if no_progress args then None else out_progress out.

Definition shallow_line (o : ObjectId) : ST writer () :=
  text_to_write (b! "shallow " ++ oid_to_hex o).

(** The packfile part of a v2 response. *)
Definition send_pack (repo : Repo) (args : FetchArgs) (have : list ObjectId) :
    ST (store * writer) () :=
  opts ← lift (pack_options args);
  out ← on_store (sb_build_pack repo (want args) have opts);
  on_writer
    (match out_shallow out with
     | [] => mret ()
     | _ => text_to_write (b! "shallow-info") ;;
            for_each shallow_line (out_shallow out) ;; delim_to_write
     end ;;
     text_to_write (b! "packfile") ;;
     stream_pack_sideband (out_reader out) (progress_of args out) ;;
     flush_to_write).

Definition perform_fetch (repo : Repo) (args : FetchArgs) : ST (store * writer) () :=
  known ← on_store (sb_has_objects repo (have args));
  let have := known_haves (have args) known in
  if done args then send_pack repo args have
  else
    let ready := negb (bool_decide (have = [])) && negb (wait_for_done args) in
    on_writer (text_to_write (b! "acknowledgments")) ;;
    on_writer (match have with
               | [] => text_to_write (b! "NAK")
               | _ => for_each (λ o, text_to_write (b! "ACK " ++ oid_to_hex o)) have
               end) ;;
    if negb ready then on_writer flush_to_write
    else
      on_writer (text_to_write (b! "ready")) ;;
      on_writer delim_to_write ;;
      send_pack repo args have.

Definition perform_fetch_v1 (repo : Repo) (args : FetchArgs) : ST (store * writer) () :=
  known ← on_store (sb_has_objects repo (have args));
  let have := known_haves (have args) known in
  opts ← lift (pack_options args);
  out ← on_store (sb_build_pack repo (want args) have opts);
  on_writer
    (for_each shallow_line (out_shallow out) ;;
     text_to_write (b! "NAK") ;;
     stream_pack_sideband (out_reader out) (progress_of args out) ;;
     flush_to_write).

Definition update_refs_and_report (repo : Repo) (us : list RefUpdate) : ST (store * writer) () :=
  on_store (with_context (b! "updating refs") (sb_update_refs repo us)) ;;
  on_writer
    (text_to_write (b! "unpack ok") ;;
     for_each (λ u, text_to_write (b! "ok " ++ refname u)) us ;;
     flush_to_write).
End fetch.

(** ** What [ls-refs] writes *)

Section listrefs_facts.
Context `{GixHash}.

(** The packets of a listing, as one expression of the snapshot and the arguments. *)
Definition head_packets (head : option HeadInfo) (args : ListRefsArgs) : list pkt :=
  match head with
  | Some h =>
      let target := if symrefs args then h_symref_target h else None in
      [PText (oid_to_hex (h_oid h) ++ b! " HEAD" ++
              match target with Some t => b! " symref-target:" ++ t | None => [] end)]
  | None => if unborn args then [PText (b! "unborn HEAD")] else []
  end.

Definition ref_attribute (args : ListRefsArgs) (r : RefInfo) : bytes :=
  match r_symref_target r, r_peeled r with
  | Some t, _ => if symrefs args then b! " symref-target:" ++ t else []
  | None, Some p => if peel args then b! " peeled:" ++ oid_to_hex p else []
  | None, None => []
  end.

Definition ref_packet (args : ListRefsArgs) (r : RefInfo) : pkt :=
  PText (oid_to_hex (r_oid r) ++ b! " " ++ r_name r ++ ref_attribute args r).

Definition listing (snapshot : RefsSnapshot) (args : ListRefsArgs) : list pkt :=
  head_packets (rs_head snapshot) args ++
  (ref_packet args <$> base.filter (λ r, prefix_match args (r_name r) = true) (rs_refs snapshot)) ++
  [PFlush].

Lemma mret_write_all : st_eq (mret ()) (write_all []).
Proof. by intros w. Qed.

Lemma write_head_packets head args :
  st_eq (write_head head args) (write_all (head_packets head args)).
Proof.
  unfold write_head, head_packets, text_to_write.
  repeat case_match; simplify_eq; rewrite ?app_nil_r; first [apply write_all_one|done].
Qed.

Lemma write_ref_packets args r :
  st_eq (write_ref args r)
    (write_all (if prefix_match args (r_name r) then [ref_packet args r] else [])).
Proof.
  unfold write_ref, prefix_match, ref_packet, ref_attribute, text_to_write.
  rewrite <- negb_orb. destruct (_ || _); simpl; [|done].
  repeat case_match; simplify_eq; rewrite ?app_nil_r; apply write_all_one.
Qed.

Lemma bind_singleton {A B} (f : A → B) l : (l ≫= λ x, [f x]) = f <$> l.
Proof. induction l as [|x l IH]; [done|]. change ((x :: l) ≫= ?g) with (g x ++ (l ≫= g)). by rewrite IH. Qed.

(** Filtering by a predicate is binding with a conditional singleton. *)
Lemma bind_filter {A B} (P : A → bool) (f : A → B) l :
  (l ≫= λ x, if P x then [f x] else []) = f <$> base.filter (λ x, P x = true) l.
Proof.
  induction l as [|x l IH]; [done|].
  change ((x :: l) ≫= ?g) with (g x ++ (l ≫= g)). rewrite IH, filter_cons.
  destruct (P x) eqn:E; [by rewrite decide_True|by rewrite decide_False by congruence].
Qed.

(** [ls-refs] writes the HEAD line (or [unborn HEAD] when asked and there is
    none), then exactly one line for each ref that matches a requested prefix, in
    snapshot order with its attribute, then a flush; on a writer that fails it
    writes a prefix of that and returns the error. *)
Theorem perform_listrefs_output snapshot args :
  st_eq (perform_listrefs snapshot args) (write_all (listing snapshot args)).
Proof.
  unfold perform_listrefs, listing.
  etransitivity; [|symmetry; apply write_all_app].
  apply st_bind_proper; [intros _|apply write_head_packets].
  etransitivity; [|symmetry; apply write_all_app].
  apply st_bind_proper; [intros _; apply write_all_one|].
  rewrite <- bind_filter. apply for_each_write_all. apply write_ref_packets.
Qed.
End listrefs_facts.

(** ** Sideband framing *)

Section sideband_facts.

(** The pack bytes a client reassembles from data-band packets. *)
Fixpoint band_data (out : list pkt) : bytes :=
  match out with
  | [] => []
  | PBand ChData d :: out' => d ++ band_data out'
  | _ :: out' => band_data out'
  end.

Lemma band_data_app o1 o2 : band_data (o1 ++ o2) = band_data o1 ++ band_data o2.
Proof.
  induction o1 as [|p o1 IH]; simpl; [done|].
  destruct p as [| | |[]]; rewrite IH; [..|by rewrite app_assoc|]; done.
Qed.

(** The packets of a stream, without the writer. *)
Definition progress_packets (ms : list bytes) : list pkt := PBand ChProgress <$> ms.

Fixpoint sideband_packets (reads : list (result error bytes))
    (rx : option (list (list bytes))) : list pkt :=
  let '(msgs, rx') := try_iter rx in
  progress_packets msgs ++
  match reads with
  | [] | Ok [] :: _ => progress_packets (try_iter rx').1
  | Err e :: _ => []
  | Ok c :: reads' => PBand ChData c :: sideband_packets reads' rx'
  end.

Lemma for_each_progress ms :
  st_eq (for_each (band_to_write ChProgress) ms) (write_all (progress_packets ms)).
Proof.
  etransitivity; [apply (for_each_write_all _ (λ m, [PBand ChProgress m]))|].
  - intros m. apply write_all_one.
  - by rewrite bind_singleton.
Qed.

Lemma bind_lift_ok {S} (m : ST S ()) : st_eq (m ;; lift (Ok ())) m.
Proof. intros w. unfold mbind, ST_bind. by destruct (m w) as [[[]|] ?]. Qed.

Lemma stream_pack_sideband_output reads rx :
  st_eq (stream_pack_sideband reads rx)
    (write_all (sideband_packets reads rx) ;; lift (reads_data reads).2).
Proof.
  revert rx; induction reads as [|[[|b c]|e] reads IH]; intros rx; simpl;
    destruct (try_iter rx) as [ms rx'].
  1-2: etransitivity; [|symmetry; apply bind_lift_ok];
       (etransitivity; [|symmetry; apply write_all_app]);
       apply st_bind_proper; [intros ?|]; apply for_each_progress.
  - replace (let '(d, r) := reads_data reads in (b :: c ++ d, r)).2 with (reads_data reads).2
      by (by destruct (reads_data reads)).
    set (L := λ _ : (), lift (reads_data reads).2).
    set (B := [PBand ChData (b :: c)]).
    transitivity (write_all (progress_packets ms) ≫= λ _,
                  write_all B ≫= λ _, write_all (sideband_packets reads rx') ≫= L).
    { apply st_bind_proper; [intros ?|apply for_each_progress].
      apply st_bind_proper; [intros ?; apply IH|apply write_all_one]. }
    intros w. change (PBand ChData (b :: c) :: ?x) with (B ++ x).
    unfold mbind at 4, ST_bind at 4. rewrite !write_all_app. unfold mbind, ST_bind.
    destruct (write_all (progress_packets ms) w) as [[[]|] w1]; [|done].
    rewrite write_all_app. unfold mbind, ST_bind.
    by destruct (write_all B w1) as [[[]|] w2].
  - rewrite app_nil_r. apply st_bind_proper; [intros ?; done|apply for_each_progress].
Qed.
End sideband_facts.

Section sideband_properties.

Lemma band_data_progress ms : band_data (progress_packets ms) = [].
Proof. by induction ms. Qed.

Lemma sideband_packets_data reads rx :
  band_data (sideband_packets reads rx) = (reads_data reads).1.
Proof.
  revert rx; induction reads as [|[[|b c]|e] reads IH]; intros rx; cbn [sideband_packets reads_data];
    destruct (try_iter rx) as [ms rx']; rewrite band_data_app, !band_data_progress; try done.
  change (band_data (PBand ChData (b :: c) :: ?x)) with ((b :: c) ++ band_data x).
  rewrite IH. by destruct (reads_data reads).
Qed.

(** A packet within the sideband-64k framing. *)
Definition band_fits (p : pkt) : Prop :=
  match p with PBand ChData d => 0 < len d ≤ MAX_SIDEBAND | _ => True end%N.

(** [Read::read] into a buffer of [MAX_SIDEBAND] bytes. *)
Definition read_fits (r : result error bytes) : Prop :=
  match r with Ok c => len c ≤ MAX_SIDEBAND | Err _ => True end%N.

Lemma sideband_packets_fit reads rx :
  Forall read_fits reads → Forall band_fits (sideband_packets reads rx).
Proof.
  intros Hr; revert rx; induction Hr as [|r reads Hr _ IH]; intros rx; cbn [sideband_packets];
    destruct (try_iter rx) as [ms rx']; apply Forall_app; split.
  1,3: by apply Forall_fmap, Forall_forall.
  - by apply Forall_fmap, Forall_forall.
  - destruct r as [[|b c]|e].
    + by apply Forall_fmap, Forall_forall.
    + constructor; [|apply IH]. simpl in *. unfold len in *. simpl in *. lia.
    + constructor.
Qed.

Lemma sideband_packets_quiet reads :
  Forall (λ p, ∀ m, p ≠ PBand ChProgress m) (sideband_packets reads None).
Proof. induction reads as [|[[|b c]|e] reads IH]; simpl; repeat constructor; done. Qed.

(** (C32) Streaming a pack frames it losslessly: the data-band payloads concatenated
    are exactly the bytes read from the backend up to its end (or up to the error it
    reports, which is returned), each data packet is non-empty and within the
    sideband limit, and without a progress channel no progress packet is sent. *)
Theorem stream_pack_sideband_correct reads rx out :
  Forall read_fits reads →
  ∃ ps, stream_pack_sideband reads rx (Writer out (λ _ _, Ok ())) =
          ((reads_data reads).2, Writer (out ++ ps) (λ _ _, Ok ())) ∧
        band_data ps = (reads_data reads).1 ∧ Forall band_fits ps ∧
        (rx = None → ∀ m, PBand ChProgress m ∉ ps).
Proof.
  intros Hf. exists (sideband_packets reads rx). split_and!.
  - rewrite stream_pack_sideband_output. unfold mbind, ST_bind. by rewrite write_all_open.
  - apply sideband_packets_data.
  - by apply sideband_packets_fit.
  - intros -> m Hm. pose proof (sideband_packets_quiet reads) as Hq.
    rewrite Forall_forall in Hq. by apply (Hq _ Hm m).
Qed.
End sideband_properties.

(** ** Reports *)

(** A report: a first line, a line per item, a flush. *)
Lemma report_packets {A} first (line : A → bytes) l :
  st_eq (text_to_write first ;; for_each (λ a, text_to_write (line a)) l ;; flush_to_write)
        (write_all (PText first :: ((λ a, PText (line a)) <$> l) ++ [PFlush])).
Proof.
  change (PText first :: ?x) with ([PText first] ++ x).
  etransitivity; [|symmetry; apply write_all_app].
  apply st_bind_proper; [intros ?|apply write_all_one].
  etransitivity; [|symmetry; apply write_all_app].
  apply st_bind_proper; [intros ?; apply write_all_one|].
  rewrite <- bind_singleton. apply for_each_write_all. intros x. apply write_all_one.
Qed.

(** ** Fetch negotiation *)

Section fetch_facts.
Context `{StorageBackend}.

Definition ack_packets (have : list ObjectId) : list pkt :=
  match have with
  | [] => [PText (b! "NAK")]
  | _ => (λ o, PText (b! "ACK " ++ oid_to_hex o)) <$> have
  end.

Lemma on_writer_st {S W A} (m n : ST W A) (s : S) (w : W) :
  st_eq m n → on_writer m (s, w) = on_writer n (s, w).
Proof. intros Hmn. simpl. by rewrite Hmn. Qed.

Lemma on_writer_write_all {S} l (s : S) w :
  on_writer (write_all l) (s, w) = let '(r, w') := write_all l w in (r, (s, w')).
Proof. done. Qed.

Lemma text_write d : st_eq (text_to_write d) (write_all [PText d]).
Proof. apply write_all_one. Qed.

Lemma delim_write : st_eq delim_to_write (write_all [PDelim]).
Proof. apply write_all_one. Qed.

Lemma ack_packets_write have :
  st_eq (match have with
         | [] => text_to_write (b! "NAK")
         | _ => for_each (λ o, text_to_write (b! "ACK " ++ oid_to_hex o)) have
         end) (write_all (ack_packets have)).
Proof.
  destruct have as [|h hs]; [apply write_all_one|]. unfold ack_packets.
  rewrite <- bind_singleton. apply for_each_write_all. intros o. apply write_all_one.
Qed.

(** Running a prefix of writes, then continuing. *)
Lemma on_writer_then {S A} l (k : ST (S * writer) A) s w :
  (on_writer (write_all l) ;; k) (s, w) =
  match write_all l w with
  | (Ok _, w') => k (s, w')
  | (Err e, w') => (Err e, (s, w'))
  end.
Proof.
  unfold mbind, ST_bind. rewrite on_writer_write_all. by destruct (write_all l w) as [[]].
Qed.

Lemma perform_fetch_ack repo args s s1 w known :
  sb_has_objects repo (have args) s = (Ok known, s1) → done args = false →
  perform_fetch repo args (s, w) =
  let hv := known_haves (have args) known in
  match write_all (PText (b! "acknowledgments") :: ack_packets hv) w with
  | (Err e, w') => (Err e, (s1, w'))
  | (Ok _, w') =>
      if bool_decide (hv = []) || wait_for_done args then on_writer flush_to_write (s1, w')
      else (on_writer (text_to_write (b! "ready")) ;; on_writer delim_to_write ;;
            send_pack repo args hv) (s1, w')
  end.
Proof.
  intros Hk Hd. unfold perform_fetch. unfold mbind at 1, ST_bind at 1.
  unfold on_store at 1. rewrite Hk, Hd. cbv zeta. set (hv := known_haves (have args) known).
  rewrite <- negb_orb, negb_involutive.
  change (PText (b! "acknowledgments") :: ack_packets hv)
    with ([PText (b! "acknowledgments")] ++ ack_packets hv).
  rewrite write_all_app. unfold mbind, ST_bind.
  rewrite (on_writer_st _ _ _ _ (text_write _)), on_writer_write_all.
  destruct (write_all [PText (b! "acknowledgments")] w) as [[[]|] w1]; [|done].
  rewrite (on_writer_st _ _ _ _ (ack_packets_write hv)), on_writer_write_all.
  destruct (write_all (ack_packets hv) w1) as [[[]|] w2]; [|done].
  by destruct (_ || _).
Qed.

(** A fetch without [done] that has no common object, or asked for
    [wait-for-done], answers with acknowledgments only: an ACK for exactly the haves
    the server has (a NAK when there are none), then a flush.  Neither [ready] nor
    pack data is sent, on any writer, and no pack is built. *)
Theorem perform_fetch_waits repo args s s1 w known r s2 w2 :
  sb_has_objects repo (have args) s = (Ok known, s1) → done args = false →
  known_haves (have args) known = [] ∨ wait_for_done args = true →
  perform_fetch repo args (s, w) = (r, (s2, w2)) →
  s2 = s1 ∧
  ∃ l1 l2, w_out w2 = w_out w ++ l1 ∧ (is_ok r = true ↔ l2 = []) ∧
    l1 ++ l2 = PText (b! "acknowledgments") ::
               ack_packets (known_haves (have args) known) ++ [PFlush].
Proof.
  intros Hk Hd Hw. rewrite (perform_fetch_ack _ _ _ _ _ _ Hk Hd). cbv zeta.
  set (hv := known_haves (have args) known) in *.
  replace (bool_decide (hv = []) || wait_for_done args) with true.
  2: { destruct Hw as [->| ->]; [done|by rewrite orb_true_r]. }
  intros Hr.
  assert (on_writer (write_all ((PText (b! "acknowledgments") :: ack_packets hv) ++ [PFlush]))
            (s1, w) = (r, (s2, w2))) as E.
  { rewrite <- Hr. rewrite (on_writer_st _ _ _ _ (write_all_app _ _)). unfold on_writer, mbind, ST_bind.
    destruct (write_all _ w) as [[[]|] w1]; [|done].
    by rewrite <- (write_all_one PFlush). }
  clear Hr. rewrite on_writer_write_all in E. destruct (write_all _ w) as [r' w'] eqn:Ew.
  simplify_eq. split; [done|].
  apply write_all_prefix in Ew as (l1 & l2 & E & -> & Hok).
  exists l1, l2. split_and!; [done|done|]. by rewrite <- E.
Qed.

(** Every have handed to the pack layer, and every ACK, is one the client sent
    and the backend reported as present. *)
Lemma known_haves_sound (have : list ObjectId) known o :
  o ∈ known_haves have known ↔ ∃ i, have !! i = Some o ∧ known !! i = Some true.
Proof.
  unfold known_haves. rewrite list_elem_of_omap. split.
  - intros ([id b] & Hin & Hb). apply list_elem_of_lookup in Hin as [i Hi].
    apply lookup_zip_with_Some in Hi as (x & y & [= -> ->] & Hx & Hy).
    destruct y; [|done]. injection Hb as ->. by exists i.
  - intros (i & Hx & Hy). exists (o, true). split; [|done].
    apply list_elem_of_lookup. exists i. apply lookup_zip_with_Some. eauto.
Qed.

(** Refs are reported [ok] only after [update_refs] succeeded: when the update
    fails the client receives no report line at all, and the error is returned. *)
Theorem update_refs_and_report_order repo us s w :
  match sb_update_refs repo us s with
  | (Err e, s') => update_refs_and_report repo us (s, w) = (Err (Context (b! "updating refs") e), (s', w))
  | (Ok _, s') =>
      update_refs_and_report repo us (s, w) =
      let '(r, w') := write_all (PText (b! "unpack ok") ::
                        ((λ u, PText (b! "ok " ++ refname u)) <$> us) ++ [PFlush]) w in
      (r, (s', w'))
  end.
Proof.
  destruct (sb_update_refs repo us s) as [[[]|e] s'] eqn:E;
    unfold update_refs_and_report; unfold mbind at 1, ST_bind at 1;
    unfold on_store at 1, with_context; rewrite E; [|done]. cbn [map_err].
  rewrite <- on_writer_write_all. apply on_writer_st. apply report_packets.
Qed.
End fetch_facts.
