(* ===== verification/Sigverify.v ===== *)
(** * Signed payloads ([sigverify.rs])

    The bytes a commit or tag signature covers: a commit without its [gpgsig] header,
    a tag up to its signature block; and the native verifier's dispatch. *)

From stdpp Require Import base gmap list strings.
From Stdlib Require Import Strings.Byte.
From S2P Require Import Prelude Bytes Gix Proto Types.

(** ** Lines with their terminator *)

(** [SplitLinesKeepTerm::next]: the line up to and including the newline, and the rest. *)
Definition slk_next (s : bytes) : option (bytes * bytes) :=
  match s with
  | [] => None
  | _ =>
      let end_ := match position x0a s with Some p => S p | None => length s end in
      Some (take end_ s, drop end_ s)
  end.

(** All the lines [next] yields. *)
Fixpoint split_keep (s : bytes) : list bytes :=
  match s with
  | [] => []
  | x :: s' =>
      if decide (x = x0a) then [x] :: split_keep s'
      else match split_keep s' with
           | [] => [[x]]
           | l :: ls => (x :: l) :: ls
           end
  end.

Lemma split_keep_next s :
  split_keep s = match slk_next s with
                 | None => []
                 | Some (l, r) => l :: split_keep r
                 end.
Proof.
  induction s as [|x s IH]; [done|]. simpl. case_decide; [done|].
  rewrite IH. destruct s as [|y s]; [done|]. unfold slk_next.
  by destruct (position x0a (y :: s)).
Qed.

(** ** Commit payloads *)

Definition is_blank (line : bytes) : bool :=
  bool_decide (line = [x0a]) || bool_decide (line = [x0d; x0a]) || bool_decide (line = []).

Definition is_gpgsig (line : bytes) : bool :=
  starts_with (b! "gpgsig ") line || starts_with (b! "gpgsig-sha256 ") line.

(** The loop over the lines, with its two flags. *)
Fixpoint strip_loop (in_body skipping : bool) (ls : list bytes) : list bytes :=
  match ls with
  | [] => []
  | line :: ls' =>
      if in_body then line :: strip_loop in_body skipping ls'
      else if is_blank line then line :: strip_loop true false ls'
      else if skipping && starts_with (b! " ") line then strip_loop false true ls'
      else if is_gpgsig line then strip_loop false true ls'
      else line :: strip_loop false false ls'
  end.

Definition strip_gpgsig (raw : bytes) : bytes := concat (strip_loop false false (split_keep raw)).

(** ** Tag payloads *)

(** [haystack.windows(n).position(|w| w == needle)]. *)
Fixpoint find_window (needle haystack : bytes) : option nat :=
  if starts_with needle haystack then Some 0
  else match haystack with
       | [] => None
       | _ :: h => S <$> find_window needle h
       end.

(** The search loop: [from] grows by at least one each round. *)
Fixpoint find_line_start_from (fuel : nat) (haystack needle : bytes) (from : nat) : option nat :=
  match fuel with
  | O => None
  | S f =>
      rel ← find_window needle (drop from haystack);
      let pos := from + rel in
      if (pos =? 0) || bool_decide (haystack !! (pos - 1) = Some x0a) then Some pos
      else find_line_start_from f haystack needle (S pos)
  end.

Definition find_line_start (haystack needle : bytes) : option nat :=
  find_line_start_from (S (S (length haystack))) haystack needle 0.

Definition markers : list bytes :=
  [b! "-----BEGIN PGP SIGNATURE-----"; b! "-----BEGIN SSH SIGNATURE-----";
   b! "-----BEGIN SIGNED MESSAGE-----"].

Fixpoint strip_at (ms : list bytes) (raw : bytes) : bytes :=
  match ms with
  | [] => raw
  | m :: ms' =>
      match find_line_start raw m with
      | Some pos => take pos raw
      | None => strip_at ms' raw
      end
  end.

Definition strip_tag_signature (raw : bytes) : bytes := strip_at markers raw.

(** ** Native verification *)

Definition verify_native (format : SignatureFormat) (signature payload : bytes)
    (keys : list VerificationKey) : VerificationStatus :=
  match format with
  | OpenPgp | Ssh | X509Cms =>
      match keys with [] => UnknownKey | _ => UnsupportedFormat end
  | UnknownFormat => UnsupportedFormat
  end.

(** ** Lemmas on lines *)

(** Lines as [split_keep] produces them: only the last may lack its newline. *)
Fixpoint wf_lines (ls : list bytes) : Prop :=
  match ls with
  | [] => True
  | [l] => l ≠ [] ∧ x0a ∉ removelast l
  | l :: ls' => (∃ l', l = l' ++ [x0a] ∧ x0a ∉ l') ∧ wf_lines ls'
  end.

Lemma concat_split_keep s : concat (split_keep s) = s.
Proof.
  induction s as [|x s IH]; simpl; [done|]. case_decide; simpl; [by rewrite IH|].
  destruct (split_keep s) as [|l ls]; simpl in *; by rewrite <- IH.
Qed.

Lemma split_keep_line l s : x0a ∉ l → split_keep (l ++ x0a :: s) = (l ++ [x0a]) :: split_keep s.
Proof.
  induction l as [|x l IH]; intros Hl; simpl; [done|].
  rewrite decide_False by set_solver. by rewrite IH by set_solver.
Qed.

Lemma split_keep_last l : l ≠ [] → x0a ∉ removelast l → split_keep l = [l].
Proof.
  induction l as [|x l IH]; [done|]. intros _ Hl.
  destruct l as [|y l]; [simpl; by case_decide|].
  change (removelast (x :: y :: l)) with (x :: removelast (y :: l)) in Hl.
  change (split_keep (x :: y :: l)) with
    (if decide (x = x0a) then [x] :: split_keep (y :: l)
     else match split_keep (y :: l) with [] => [[x]] | l' :: ls => (x :: l') :: ls end).
  rewrite decide_False by set_solver. rewrite IH; [done|done|set_solver].
Qed.

Lemma split_keep_concat ls : wf_lines ls → split_keep (concat ls) = ls.
Proof.
  induction ls as [|l ls IH]; [done|]. destruct ls as [|l2 ls].
  - intros [Hn Hl]. simpl. rewrite app_nil_r. by apply split_keep_last.
  - intros [(l' & -> & Hl) Hw]. change (concat (?a :: ?b)) with (a ++ concat b).
    rewrite <- app_assoc. cbn [app]. rewrite split_keep_line by done. f_equal. by apply IH.
Qed.

Lemma split_keep_wf s : wf_lines (split_keep s).
Proof.
  induction s as [|x s IH]; simpl; [done|]. case_decide as E.
  - subst. destruct (split_keep s); [split; [done|set_solver]|].
    split; [|done]. exists []. split; [done|set_solver].
  - destruct (split_keep s) as [|l ls]; [split; [done|set_solver]|].
    destruct ls as [|l2 ls].
    + destruct IH as [Hl Hn]. split; [done|]. destruct l; [done|].
      change (removelast (x :: b :: l)) with (x :: removelast (b :: l)). set_solver.
    + destruct IH as [(l' & -> & Hl') Hw]. split; [|done].
      exists (x :: l'). split; [done|set_solver].
Qed.

Lemma wf_lines_cons l ls :
  wf_lines (l :: ls) → (l ≠ []) ∧ (x0a ∉ removelast l) ∧ wf_lines ls.
Proof.
  destruct ls as [|l2 ls]; [by intros [? ?]|].
  intros [(l' & -> & Hl) Hw]. split_and!; [by destruct l'|by rewrite removelast_last|done].
Qed.

Lemma wf_lines_sublist ks ls : sublist ks ls → wf_lines ls → wf_lines ks.
Proof.
  induction 1 as [|l ks ls Hs IH|l ks ls Hs IH]; intros Hw; [done| |].
  - apply wf_lines_cons in Hw as Hw'. destruct Hw' as (? & ? & Hw').
    specialize (IH Hw'). destruct ks as [|k ks]; [done|].
    split; [|done]. destruct ls as [|l2 ls]; [by apply sublist_nil_r in Hs|].
    by destruct Hw as [? _].
  - apply IH. by apply wf_lines_cons in Hw as (_ & _ & ?).
Qed.

(** ** Commit payloads are canonical *)

(** The header lines, and the bytes from the blank line on. *)
Fixpoint header (ls : list bytes) : list bytes :=
  match ls with
  | [] => []
  | l :: ls' => if is_blank l then [] else l :: header ls'
  end.

Fixpoint body (ls : list bytes) : list bytes :=
  match ls with
  | [] => []
  | l :: ls' => if is_blank l then l :: ls' else body ls'
  end.

Definition header_lines (raw : bytes) : list bytes := header (split_keep raw).
Definition body_bytes (raw : bytes) : bytes := concat (body (split_keep raw)).

Lemma strip_loop_body sk ls : strip_loop true sk ls = ls.
Proof. induction ls as [|l ls IH]; simpl; by rewrite ?IH. Qed.

Lemma body_strip_loop sk ls : body (strip_loop false sk ls) = body ls.
Proof.
  revert sk; induction ls as [|l ls IH]; intros sk; simpl; [done|].
  destruct (is_blank l) eqn:E; [simpl; by rewrite E, strip_loop_body|].
  destruct (sk && starts_with (b! " ") l); [by rewrite IH|].
  destruct (is_gpgsig l); [by rewrite IH|]. cbn [body]. by rewrite E, IH.
Qed.

Lemma header_strip_loop sk ls :
  Forall (λ l, is_gpgsig l = false) (header (strip_loop false sk ls)).
Proof.
  revert sk; induction ls as [|l ls IH]; intros sk; simpl; [constructor|].
  destruct (is_blank l) eqn:E; [cbn [header]; rewrite E; constructor|].
  destruct (sk && starts_with (b! " ") l); [apply IH|].
  destruct (is_gpgsig l) eqn:Eg; [apply IH|]. cbn [header]. rewrite E. by constructor.
Qed.

Lemma strip_loop_id ls :
  Forall (λ l, is_gpgsig l = false) (header ls) → strip_loop false false ls = ls.
Proof.
  induction ls as [|l ls IH]; simpl; [done|].
  destruct (is_blank l); [by rewrite strip_loop_body|].
  intros [-> Hls]%Forall_cons. by rewrite IH.
Qed.

Lemma strip_loop_sublist ib sk ls : sublist (strip_loop ib sk ls) ls.
Proof.
  revert ib sk; induction ls as [|l ls IH]; intros ib sk; simpl; [done|].
  repeat case_match; by constructor.
Qed.

Lemma split_keep_strip raw :
  split_keep (strip_gpgsig raw) = strip_loop false false (split_keep raw).
Proof.
  apply split_keep_concat. eapply wf_lines_sublist; [apply strip_loop_sublist|apply split_keep_wf].
Qed.

(** The signed payload of a commit is canonical: no header line of it starts with
    [gpgsig ] or [gpgsig-sha256 ], the blank line and the message are byte for byte
    those of the commit, stripping again changes nothing, and a commit without such a
    header is its own payload. *)
Theorem strip_gpgsig_canonical raw :
  Forall (λ l, is_gpgsig l = false) (header_lines (strip_gpgsig raw)) ∧
  body_bytes (strip_gpgsig raw) = body_bytes raw ∧
  strip_gpgsig (strip_gpgsig raw) = strip_gpgsig raw ∧
  (Forall (λ l, is_gpgsig l = false) (header_lines raw) → strip_gpgsig raw = raw).
Proof.
  unfold header_lines, body_bytes. rewrite split_keep_strip. split_and!.
  - apply header_strip_loop.
  - by rewrite body_strip_loop.
  - unfold strip_gpgsig at 1. rewrite split_keep_strip.
    by rewrite strip_loop_id by apply header_strip_loop.
  - intros Hh. unfold strip_gpgsig. rewrite strip_loop_id by done. apply concat_split_keep.
Qed.

(** ** Tag payloads *)

Definition occurs_at (h n : bytes) (p : nat) : bool := starts_with n (drop p h).

(** [n] occurs at [p], at the start of a line. *)
Definition at_line_start (h n : bytes) (p : nat) : Prop :=
  occurs_at h n p = true ∧ (p = 0 ∨ h !! (p - 1) = Some x0a).

Lemma find_window_spec n h :
  match find_window n h with
  | Some k => occurs_at h n k = true ∧ ∀ j, j < k → occurs_at h n j = false
  | None => ∀ j, occurs_at h n j = false
  end.
Proof.
  unfold occurs_at. induction h as [|x h IH]; simpl.
  - destruct (starts_with n []) eqn:E; [split; [done|lia]|]. intros j. by rewrite drop_nil.
  - destruct (starts_with n (x :: h)) eqn:E; [split; [done|lia]|].
    destruct (find_window n h) as [k|]; simpl.
    + destruct IH as [Hk Hj]. split; [done|]. intros [|j] Hlt; [done|]. apply Hj. lia.
    + intros [|j]; [done|]. apply IH.
Qed.

Lemma occurs_at_drop h n f j : occurs_at (drop f h) n j = occurs_at h n (f + j).
Proof. unfold occurs_at. by rewrite drop_drop. Qed.

Lemma find_line_start_from_spec fuel h n from :
  n ≠ [] → length h < from + fuel → (∀ q, q < from → ¬ at_line_start h n q) →
  match find_line_start_from fuel h n from with
  | Some p => at_line_start h n p ∧ ∀ q, q < p → ¬ at_line_start h n q
  | None => ∀ q, ¬ at_line_start h n q
  end.
Proof.
  intros Hn. revert from; induction fuel as [|f IH]; intros from Hf Hq.
  - intros q Ha. destruct (decide (q < from)) as [Hl|Hl]; [by apply (Hq q Hl)|].
    destruct Ha as [Ho _].
    unfold occurs_at in Ho. rewrite drop_ge in Ho by lia. by destruct n.
  - simpl. pose proof (find_window_spec n (drop from h)) as Hw.
    destruct (find_window n (drop from h)) as [rel|]; simpl.
    + destruct Hw as [Hr Hj]. rewrite occurs_at_drop in Hr.
      assert (∀ q, q < from + rel → ¬ at_line_start h n q) as Hb.
      { intros q Hlt. destruct (decide (q < from)) as [Hl|Hl]; [by apply Hq|].
        intros [Ho _]. specialize (Hj (q - from) ltac:(lia)).
        rewrite occurs_at_drop in Hj. replace (from + (q - from)) with q in Hj by lia. congruence. }
      destruct (Nat.eqb_spec (from + rel) 0) as [E|E]; simpl; [split; [split; [done|by left]|done]|].
      case_bool_decide as Eb; [split; [split; [done|by right]|done]|].
      apply IH; [lia|]. intros q Hlt. destruct (decide (q = from + rel)) as [->|Hne].
      * intros [_ [?|?]]; [lia|done].
      * apply Hb. lia.
    + intros q Ha. destruct (decide (q < from)) as [Hl|Hl]; [by apply (Hq q Hl)|].
      destruct Ha as [Ho _].
      specialize (Hw (q - from)). rewrite occurs_at_drop in Hw.
      replace (from + (q - from)) with q in Hw by lia. congruence.
Qed.

(** The search finds the first line that starts with the needle. *)
Lemma find_line_start_spec h n :
  n ≠ [] →
  match find_line_start h n with
  | Some p => at_line_start h n p ∧ ∀ q, q < p → ¬ at_line_start h n q
  | None => ∀ q, ¬ at_line_start h n q
  end.
Proof. intros Hn. apply find_line_start_from_spec; [done|lia|lia]. Qed.

(** A tag's payload is the tag cut at the first line that starts the first of the
    signature markers present, in the order PGP, SSH, signed message; a tag with none
    of them is its own payload. *)
Theorem strip_tag_signature_spec raw :
  (strip_tag_signature raw = raw ∧ ∀ m p, m ∈ markers → ¬ at_line_start raw m p) ∨
  ∃ ms1 m ms2 p, markers = ms1 ++ m :: ms2 ∧ strip_tag_signature raw = take p raw ∧
    at_line_start raw m p ∧ (∀ q, q < p → ¬ at_line_start raw m q) ∧
    ∀ m' q, m' ∈ ms1 → ¬ at_line_start raw m' q.
Proof.
  unfold strip_tag_signature.
  assert (Forall (λ m, m ≠ []) markers) as Hne by (repeat constructor; discriminate).
  revert Hne. generalize markers. intros ms Hne.
  induction Hne as [|m ms Hm _ IH]; [left; split; [done|set_solver]|].
  cbn [strip_at]. pose proof (find_line_start_spec raw m Hm) as Hs.
  destruct (find_line_start raw m) as [p|].
  - right. exists [], m, ms, p. destruct Hs as [Hp Hq]. split_and!; try done. set_solver.
  - destruct IH as [[E Ha]|(ms1 & m' & ms2 & p & -> & E & Hp & Hq & Ha)].
    + left. split; [done|]. intros m' p [->|Hin]%elem_of_cons; [apply Hs|by apply Ha].
    + right. exists (m :: ms1), m', ms2, p. split_and!; try done.
      intros m1 q [->|Hin]%elem_of_cons; [apply Hs|by apply Ha].
Qed.
