(* ===== verification/Auth.v ===== *)
(** * The [Comparison] handle ([auth.rs]) and the [RepoAccess] trait ([traits.rs])

    A forge's policy is a program that asks the [Comparison] questions and returns a
    verdict; it is modelled as the tree of its questions ([Policy]).  The accessors
    compute on first use and cache: their state is the store and the caches. *)

From stdpp Require Import base gmap list strings.
From Stdlib Require Import Strings.Byte.
From S2P Require Import Prelude Bytes Gix Proto Types Sigverify.

Record ComparisonOptions := { max_reachable_commits : N }.
Definition default_options : ComparisonOptions := {| max_reachable_commits := 50000 |}.

Section auth.
Context `{StorageBackend}.

(** ** Policies *)

Inductive Query : Type → Type :=
| QRefs : Query (list PushRef)
| QNewCommits (r : PushRef) : Query (result ComparisonError (list CommitInfo))
| QDroppedCommits (r : PushRef) : Query (result ComparisonError (list CommitInfo))
| QRefDiff (r : PushRef) : Query (result ComparisonError RefDiff)
| QVerify (c : CommitInfo) : Query VerificationStatus
| QVerifyTag (t : TagInfo) : Query VerificationStatus
| QReadBlob (o : ObjectId) (cap : N) : Query (option bytes)
| QPackMetadata : Query PackMetadata
| QTags : Query (list TagInfo).

Inductive Policy (R : Type) : Type :=
| PRet (r : R)
| PAsk {A : Type} (q : Query A) (k : A → Policy R).
#[global] Arguments PRet {R} r.
#[global] Arguments PAsk {R A} q k.

(** The forge's per-request authorisation handle. *)
Class RepoAccess := {
  PushContext : Type;
  ra_repo_id : RepoId;
  ra_auto_init : bool;
  ra_authorize_preliminary : list PushRef → result bytes PushContext;
  ra_authorize_push : PushContext → Policy (result bytes ());
  ra_verification_keys : list Signer → VerificationKeys;
  ra_verify_external : ExternalSig → option VerificationStatus;
  ra_post_receive : Policy ();
}.

(** ** The comparison *)

(** What [run_comparison] fixes for the whole of a policy's run. *)
Record Comparison := {
  cmp_repo : Repo;
  cmp_pack : PackMetadata;
  cmp_refs : list PushRef;
  cmp_existing : list ObjectId;
  cmp_opts : ComparisonOptions }.

(** The caches: one slot per ref, a map by object id, and the keys. *)
Record Caches := {
  new_cache : list (option (result ComparisonError (list CommitInfo)));
  dropped_cache : list (option (result ComparisonError (list CommitInfo)));
  diff_cache : list (option (result ComparisonError RefDiff));
  verify_cache : gmap ObjectId VerificationStatus;
  keys_cache : option VerificationKeys }.

Definition fresh_caches (n : nat) : Caches := {|
  new_cache := replicate n None; dropped_cache := replicate n None;
  diff_cache := replicate n None; verify_cache := ∅; keys_cache := None |}.

(** [ref_index]: [None] is the panic of an unknown ref. *)
Definition ref_index (c : Comparison) (r : PushRef) : option nat :=
  fst <$> list_find (λ p, pr_refname p = pr_refname r) (cmp_refs c).

(** [OnceCell::get_or_init] on slot [i]. *)
Definition get_or_init {S A} (slots : list (option A)) (i : nat) (init : S → A * S) (s : S) :
    A * list (option A) * S :=
  match slots !! i with
  | Some (Some a) => (a, slots, s)
  | _ => let '(a, s') := init s in (a, <[i := Some a]> slots, s')
  end.

Definition cap_error (what : bytes) (e : ReachableError) : ComparisonError :=
  match e with
  | CapExceeded limit => CapExceededErr what limit
  | ReachOther e => BackendErr e
  end.

(** The metadata of each commit: from [lookup] when it has it, else from the store. *)
Fixpoint commit_infos (repo : Repo) (lookup : ObjectId → option CommitInfo)
    (oids : list ObjectId) (s : store) : result ComparisonError (list CommitInfo) * store :=
  match oids with
  | [] => (Ok [], s)
  | o :: oids' =>
      match lookup o with
      | Some c => let '(r, s') := commit_infos repo lookup oids' s in ((cons c) <$> r, s')
      | None =>
          match sb_read_commit_info repo o s with
          | (Err e, s') => (Err (BackendErr e), s')
          | (Ok c, s') =>
              let '(r, s'') := commit_infos repo lookup oids' s' in ((cons c) <$> r, s'')
          end
      end
  end.

Definition walk_commits (c : Comparison) (what : bytes) (from excluding : list ObjectId)
    (lookup : ObjectId → option CommitInfo) (s : store) :
    result ComparisonError (list CommitInfo) * store :=
  match sb_reachable_excluding (cmp_repo c) from excluding
          (max_reachable_commits (cmp_opts c)) s with
  | (Err e, s') => (Err (cap_error what e), s')
  | (Ok oids, s') => commit_infos (cmp_repo c) lookup oids s'
  end.

(** The exclusion set of [new_commits] for the ref at index [idx]. *)
Definition new_excluding (c : Comparison) (idx : nat) : list ObjectId :=
  cmp_existing c ++
  base.filter (λ o, is_null o = false) (pr_new_oid <$> take idx (cmp_refs c)).

Definition init_new_commits (c : Comparison) (idx : nat) (r : PushRef) (s : store) :
    result ComparisonError (list CommitInfo) * store :=
  if is_null (pr_new_oid r) then (Ok [], s)
  else walk_commits c (b! "new_commits walk") [pr_new_oid r] (new_excluding c idx)
         (find_commit (cmp_pack c)) s.

Definition init_dropped_commits (c : Comparison) (r : PushRef) (s : store) :
    result ComparisonError (list CommitInfo) * store :=
  if is_null (pr_old_oid r) then (Ok [], s)
  else walk_commits c (b! "dropped_commits walk") [pr_old_oid r]
         (if is_null (pr_new_oid r) then [] else [pr_new_oid r]) (λ _, None) s.

Definition backend_result {A} (r : result error A * store) : result ComparisonError A * store :=
  (map_err BackendErr r.1, r.2).

(** The tree of the new tip: from the pack, else from the store. *)
Definition new_tip_tree (c : Comparison) (r : PushRef) (s : store) :
    result ComparisonError ObjectId * store :=
  match find_commit (cmp_pack c) (pr_new_oid r) with
  | Some ci => (Ok (c_tree ci), s)
  | None =>
      match sb_read_commit_info (cmp_repo c) (pr_new_oid r) s with
      | (Ok ci, s') => (Ok (c_tree ci), s')
      | (Err _, s') =>
          (Err (BackendErr (Msg (b! "new tip " ++ oid_to_hex (pr_new_oid r) ++
                                 b! " not found"))), s')
      end
  end.

Definition init_ref_diff (c : Comparison) (r : PushRef) (s : store) :
    result ComparisonError RefDiff * store :=
  if is_null (pr_new_oid r) then
    match sb_read_commit_info (cmp_repo c) (pr_old_oid r) s with
    | (Err e, s') => (Err (BackendErr e), s')
    | (Ok old, s') =>
        backend_result (sb_tree_diff (cmp_repo c) (Some (c_tree old)) oid_empty_tree s')
    end
  else
    match new_tip_tree c r s with
    | (Err e, s') => (Err e, s')
    | (Ok new_tree, s') =>
        if is_null (pr_old_oid r) then
          backend_result (sb_tree_diff (cmp_repo c) None new_tree s')
        else
          match sb_read_commit_info (cmp_repo c) (pr_old_oid r) s' with
          | (Err e, s'') => (Err (BackendErr e), s'')
          | (Ok old, s'') =>
              backend_result (sb_tree_diff (cmp_repo c) (Some (c_tree old)) new_tree s'')
          end
    end.
End auth.

Section verify.
Context `{StorageBackend} {access : RepoAccess}.

(** ** Signature verification *)

(** The signers of a pack: committers of signed commits, then taggers of signed tags,
    each [(email, format)] once. *)
Definition add_signer (signers : list Signer) (email : bytes) (format : SignatureFormat) :
    list Signer :=
  if existsb (λ s, bool_decide (signer_email s = email) && bool_decide (signer_format s = format))
       signers
  then signers
  else signers ++ [{| signer_email := email; signer_format := format; signer_identifier := None |}].

Definition commit_signer (signers : list Signer) (ci : CommitInfo) : list Signer :=
  match c_signature ci with
  | Some sig => add_signer signers (id_email (c_committer ci)) (sig_format sig)
  | None => signers
  end.

Definition tag_signer (signers : list Signer) (t : TagInfo) : list Signer :=
  match t_signature t, t_tagger t with
  | Some sig, Some tagger => add_signer signers (id_email tagger) (sig_format sig)
  | _, _ => signers
  end.

Definition pack_signers (m : PackMetadata) : list Signer :=
  foldl tag_signer (foldl commit_signer [] (commits m)) (tags m).

Definition keys (c : Comparison) (cs : Caches) : VerificationKeys * Caches :=
  match keys_cache cs with
  | Some ks => (ks, cs)
  | None =>
      let ks := ra_verification_keys (pack_signers (cmp_pack c)) in
      (ks, {| new_cache := new_cache cs; dropped_cache := dropped_cache cs;
              diff_cache := diff_cache cs; verify_cache := verify_cache cs;
              keys_cache := Some ks |})
  end.

Definition matching_keys (ks : VerificationKeys) (email : bytes) (format : SignatureFormat) :
    list VerificationKey :=
  ks ≫= λ '(k, v), if bool_decide (signer_email k = email) && bool_decide (signer_format k = format)
                   then v else [].

Definition run_verify (c : Comparison) (cs : Caches) (email : bytes) (format : SignatureFormat)
    (signature payload : bytes) : VerificationStatus * Caches :=
  let '(ks, cs') := keys c cs in
  let native := verify_native format signature payload (matching_keys ks email format) in
  let external := ra_verify_external
    {| ext_format := format; ext_signature := signature;
       ext_payload := payload; ext_email := email |} in
  (default native external, cs').

Definition cache_status (o : ObjectId) (st : VerificationStatus) (cs : Caches) : Caches :=
  {| new_cache := new_cache cs; dropped_cache := dropped_cache cs; diff_cache := diff_cache cs;
     verify_cache := <[o := st]> (verify_cache cs); keys_cache := keys_cache cs |}.

Definition raw_cap : N := 16 * 1024 * 1024.

(** The part [verify] and [verify_tag] share: re-read the object, strip its signature,
    check.  An object that cannot be re-read is a bad signature, not cached. *)
Definition verify_signed (c : Comparison) (cs : Caches) (s : store) (o : ObjectId)
    (email : bytes) (blob : SignatureBlob) (strip : bytes → bytes) :
    VerificationStatus * Caches * store :=
  match sb_read_object_raw (cmp_repo c) o raw_cap s with
  | (Ok (Some raw), s') =>
      let '(st, cs') := run_verify c cs email (sig_format blob) (sig_bytes blob) (strip raw) in
      (st, cache_status o st cs', s')
  | (_, s') => (BadSignature, cs, s')
  end.

Definition verify (c : Comparison) (ci : CommitInfo) (cs : Caches) (s : store) :
    VerificationStatus * Caches * store :=
  match verify_cache cs !! c_oid ci with
  | Some st => (st, cs, s)
  | None =>
      match c_signature ci with
      | None => (Unsigned, cache_status (c_oid ci) Unsigned cs, s)
      | Some blob =>
          verify_signed c cs s (c_oid ci) (id_email (c_committer ci)) blob strip_gpgsig
      end
  end.

Definition verify_tag (c : Comparison) (t : TagInfo) (cs : Caches) (s : store) :
    VerificationStatus * Caches * store :=
  match verify_cache cs !! t_oid t with
  | Some st => (st, cs, s)
  | None =>
      match t_signature t, t_tagger t with
      | Some blob, Some tagger =>
          verify_signed c cs s (t_oid t) (id_email tagger) blob strip_tag_signature
      | _, _ => (Unsigned, cache_status (t_oid t) Unsigned cs, s)
      end
  end.

(** ** Accessors and runs *)

Definition set_new cs x := {| new_cache := x; dropped_cache := dropped_cache cs;
  diff_cache := diff_cache cs; verify_cache := verify_cache cs; keys_cache := keys_cache cs |}.
Definition set_dropped cs x := {| new_cache := new_cache cs; dropped_cache := x;
  diff_cache := diff_cache cs; verify_cache := verify_cache cs; keys_cache := keys_cache cs |}.
Definition set_diff cs x := {| new_cache := new_cache cs; dropped_cache := dropped_cache cs;
  diff_cache := x; verify_cache := verify_cache cs; keys_cache := keys_cache cs |}.

Definition new_commits (c : Comparison) (r : PushRef) (cs : Caches) (s : store) :
    option (result ComparisonError (list CommitInfo) * Caches * store) :=
  idx ← ref_index c r;
  let '(a, x, s') := get_or_init (new_cache cs) idx (init_new_commits c idx r) s in
  Some (a, set_new cs x, s').

Definition dropped_commits (c : Comparison) (r : PushRef) (cs : Caches) (s : store) :
    option (result ComparisonError (list CommitInfo) * Caches * store) :=
  idx ← ref_index c r;
  let '(a, x, s') := get_or_init (dropped_cache cs) idx (init_dropped_commits c r) s in
  Some (a, set_dropped cs x, s').

Definition ref_diff (c : Comparison) (r : PushRef) (cs : Caches) (s : store) :
    option (result ComparisonError RefDiff * Caches * store) :=
  idx ← ref_index c r;
  let '(a, x, s') := get_or_init (diff_cache cs) idx (init_ref_diff c r) s in
  Some (a, set_diff cs x, s').

Definition read_blob (c : Comparison) (o : ObjectId) (cap : N) (s : store) :
    option bytes * store :=
  let '(r, s') := sb_read_blob (cmp_repo c) o cap s in (default None (ok r), s').

(** One question; [None] is a panic. *)
Definition ask (c : Comparison) {A} (q : Query A) (cs : Caches) (s : store) :
    option (A * Caches * store) :=
  match q in Query A return option (A * Caches * store) with
  | QRefs => Some (cmp_refs c, cs, s)
  | QNewCommits r => new_commits c r cs s
  | QDroppedCommits r => dropped_commits c r cs s
  | QRefDiff r => ref_diff c r cs s
  | QVerify ci => Some (verify c ci cs s)
  | QVerifyTag t => Some (verify_tag c t cs s)
  | QReadBlob o cap => let '(b, s') := read_blob c o cap s in Some (b, cs, s')
  | QPackMetadata => Some (cmp_pack c, cs, s)
  | QTags => Some (tags (cmp_pack c), cs, s)
  end.

Fixpoint run_policy {R} (c : Comparison) (p : Policy R) (cs : Caches) (s : store) :
    option R * store :=
  match p with
  | PRet r => (Some r, s)
  | PAsk q k =>
      match ask c q cs s with
      | Some (a, cs', s') => run_policy c (k a) cs' s'
      | None => (None, s)
      end
  end.

Definition run_comparison {R} (repo : Repo) (pack : PackMetadata) (refs : list PushRef)
    (existing : list ObjectId) (opts : ComparisonOptions) (f : Policy R) (s : store) :
    option R * store :=
  run_policy {| cmp_repo := repo; cmp_pack := pack; cmp_refs := refs;
                cmp_existing := existing; cmp_opts := opts |} f
    (fresh_caches (length refs)) s.
End verify.

(** ** Reads only *)

(** What the reads of a backend keep of the store, so does every accessor. *)
Record reads_keep `{StorageBackend} {T : Type} (V : store → T) : Prop := {
  reachable_keeps r f x c s : V (sb_reachable_excluding r f x c s).2 = V s;
  tree_diff_keeps r p c s : V (sb_tree_diff r p c s).2 = V s;
  read_commit_keeps r o s : V (sb_read_commit_info r o s).2 = V s;
  read_blob_keeps r o c s : V (sb_read_blob r o c s).2 = V s;
  read_raw_keeps r o c s : V (sb_read_object_raw r o c s).2 = V s }.

Lemma refs_kept_by_reads `{RefsLaws} r : reads_keep (refs_view r).
Proof.
  split; intros; [apply reachable_refs|apply tree_diff_refs|apply read_commit_refs|apply read_blob_refs|apply read_raw_refs].
Qed.

Lemma store_kept_by_reads `{ReadOnlyLaws} : reads_keep (λ s : store, s).
Proof. split; intros; [apply reachable_ro|apply tree_diff_ro|apply read_commit_ro|apply read_blob_ro|apply read_raw_ro]. Qed.

Section accessors.
Context `{StorageBackend} {T : Type} (V : store → T) (keep : reads_keep V).

Lemma commit_infos_keeps repo lookup oids s :
  V (commit_infos repo lookup oids s).2 = V s.
Proof.
  revert s; induction oids as [|o oids IH]; intros s; simpl; [done|].
  destruct (lookup o) as [ci|].
  - specialize (IH s). by destruct (commit_infos _ _ _ s).
  - pose proof (read_commit_keeps _ keep repo o s) as Hr.
    destruct (sb_read_commit_info repo o s) as [[ci|e] s']; simpl in *; [|done].
    specialize (IH s'). destruct (commit_infos _ _ _ s'). simpl in *. congruence.
Qed.

Lemma walk_commits_keeps c what from excl lookup s :
  V (walk_commits c what from excl lookup s).2 = V s.
Proof.
  unfold walk_commits.
  pose proof (reachable_keeps _ keep (cmp_repo c) from excl (max_reachable_commits (cmp_opts c)) s) as Hr.
  destruct (sb_reachable_excluding _ _ _ _ s) as [[l|e] s']; simpl in *; [|done].
  by rewrite commit_infos_keeps.
Qed.

Lemma tree_diff_result_keeps r' p t s :
  V (backend_result (sb_tree_diff r' p t s)).2 = V s.
Proof. apply (tree_diff_keeps _ keep). Qed.

Lemma init_new_keeps c idx pr s :
  V (init_new_commits c idx pr s).2 = V s.
Proof. unfold init_new_commits. destruct (is_null _); [done|apply walk_commits_keeps]. Qed.

Lemma init_dropped_keeps c pr s :
  V (init_dropped_commits c pr s).2 = V s.
Proof. unfold init_dropped_commits. destruct (is_null _); [done|apply walk_commits_keeps]. Qed.

(** Reading a commit, then continuing with a computation that keeps what reads keep. *)
Lemma read_commit_then_keeps {A} r' o (k1 : error → store → A * store)
    (k2 : CommitInfo → store → A * store) s :
  (∀ e s, V (k1 e s).2 = V s) →
  (∀ ci s, V (k2 ci s).2 = V s) →
  V (match sb_read_commit_info r' o s with
               | (Err e, s') => k1 e s'
               | (Ok ci, s') => k2 ci s'
               end).2 = V s.
Proof.
  intros Hk1 Hk2. pose proof (read_commit_keeps _ keep r' o s) as Hr.
  destruct (sb_read_commit_info r' o s) as [[ci|e] s']; simpl in *; by rewrite ?Hk1, ?Hk2.
Qed.

Lemma init_diff_keeps c pr s : V (init_ref_diff c pr s).2 = V s.
Proof.
  unfold init_ref_diff. destruct (is_null (pr_new_oid pr)).
  { by apply read_commit_then_keeps; [|intros; apply tree_diff_result_keeps]. }
  assert (V (new_tip_tree c pr s).2 = V s) as Ht.
  { unfold new_tip_tree. destruct (find_commit _ _); [done|].
    pose proof (read_commit_keeps _ keep (cmp_repo c) (pr_new_oid pr) s) as Hr.
    by destruct (sb_read_commit_info _ _ s) as [[]]. }
  destruct (new_tip_tree c pr s) as [[t|e] s']; simpl in *; [|done]. rewrite <- Ht.
  destruct (is_null (pr_old_oid pr)); [apply tree_diff_result_keeps|].
  by apply read_commit_then_keeps; [|intros; apply tree_diff_result_keeps].
Qed.

Lemma get_or_init_keeps {A} (slots : list (option A)) i (init : store → A * store) s :
  (∀ s, V (init s).2 = V s) →
  V (get_or_init slots i init s).2 = V s.
Proof.
  intros Hi. unfold get_or_init. specialize (Hi s).
  destruct (slots !! i) as [[a|]|]; [done|..]; by destruct (init s).
Qed.

Context {access : RepoAccess}.

Lemma verify_signed_keeps c cs s o email blob strip :
  V (verify_signed c cs s o email blob strip).2 = V s.
Proof.
  unfold verify_signed. pose proof (read_raw_keeps _ keep (cmp_repo c) o raw_cap s) as Hr.
  destruct (sb_read_object_raw _ _ _ s) as [[[raw|]|e] s']; simpl in *; [|done..].
  by destruct (run_verify _ _ _ _ _ _).
Qed.

Lemma ask_keeps {A} c (q : Query A) cs s a cs' s' :
  ask c q cs s = Some (a, cs', s') → V s' = V s.
Proof.
  destruct q as [|pr|pr|pr|ci|t|o cap| |]; simpl; intros Hq; simplify_eq; try done.
  1-3: unfold new_commits, dropped_commits, ref_diff in Hq;
       destruct (ref_index c pr) as [idx|]; simplify_eq/=;
       match type of Hq with context [get_or_init ?sl ?i ?f ?s] =>
         pose proof (get_or_init_keeps sl i f s) as Hr; destruct (get_or_init sl i f s) as [[??]?]
       end; simplify_eq/=; apply Hr; intros;
       auto using init_new_keeps, init_dropped_keeps, init_diff_keeps.
  - unfold verify in Hq. destruct (verify_cache cs !! c_oid ci); [by simplify_eq|].
    destruct (c_signature ci) as [blob|]; [|by simplify_eq].
    pose proof (verify_signed_keeps c cs s (c_oid ci) (id_email (c_committer ci)) blob strip_gpgsig).
    by destruct (verify_signed _ _ _ _ _ _ _) as [[??]?]; simplify_eq/=.
  - unfold verify_tag in Hq. destruct (verify_cache cs !! t_oid t); [by simplify_eq|].
    destruct (t_signature t) as [blob|], (t_tagger t) as [tg|]; simplify_eq; try done.
    pose proof (verify_signed_keeps c cs s (t_oid t) (id_email tg) blob strip_tag_signature).
    by destruct (verify_signed _ _ _ _ _ _ _) as [[??]?]; simplify_eq/=.
  - unfold read_blob in Hq. pose proof (read_blob_keeps _ keep (cmp_repo c) o cap s) as Hr.
    by destruct (sb_read_blob _ _ _ s); simplify_eq/=.
Qed.

(** Whatever a policy asks, its run keeps it. *)
Lemma run_policy_keeps {R} c (p : Policy R) cs s :
  V (run_policy c p cs s).2 = V s.
Proof.
  revert cs s; induction p as [|A q k IH]; intros cs s; simpl; [done|].
  destruct (ask c q cs s) as [[[a cs'] s']|] eqn:Hq; [|done].
  rewrite IH. by eapply ask_keeps.
Qed.

Lemma run_comparison_keeps {R} repo pack refs existing opts (p : Policy R) s :
  V (run_comparison repo pack refs existing opts p s).2 = V s.
Proof. apply run_policy_keeps. Qed.
End accessors.

Lemma run_comparison_refs `{RefsLaws} {access : RepoAccess} {R} repo pack prs ex opts (p : Policy R) s r :
  refs_view r (run_comparison repo pack prs ex opts p s).2 = refs_view r s.
Proof. apply (run_comparison_keeps _ (refs_kept_by_reads r)). Qed.

Lemma run_comparison_ro `{ReadOnlyLaws} {access : RepoAccess} {R} repo pack prs ex opts (p : Policy R) s :
  (run_comparison repo pack prs ex opts p s).2 = s.
Proof. apply (run_comparison_keeps _ store_kept_by_reads). Qed.

(** ** Caching *)

(** The reference semantics: every question answered from scratch. *)
Section uncached.
Context `{StorageBackend} {access : RepoAccess}.

Definition fresh_status (c : Comparison) (s : store) (o : ObjectId) (email : bytes)
    (blob : SignatureBlob) (strip : bytes → bytes) : VerificationStatus :=
  match (sb_read_object_raw (cmp_repo c) o raw_cap s).1 with
  | Ok (Some raw) =>
      (run_verify c (fresh_caches 0) email (sig_format blob) (sig_bytes blob) (strip raw)).1
  | _ => BadSignature
  end.

Definition fresh_verify (c : Comparison) (s : store) (x : CommitInfo + TagInfo) :
    VerificationStatus :=
  match x with
  | inl ci =>
      match c_signature ci with
      | None => Unsigned
      | Some blob => fresh_status c s (c_oid ci) (id_email (c_committer ci)) blob strip_gpgsig
      end
  | inr t =>
      match t_signature t, t_tagger t with
      | Some blob, Some tagger =>
          fresh_status c s (t_oid t) (id_email tagger) blob strip_tag_signature
      | _, _ => Unsigned
      end
  end.

Definition answer (c : Comparison) {A} (q : Query A) (s : store) : option A :=
  match q in Query A return option A with
  | QRefs => Some (cmp_refs c)
  | QNewCommits r => idx ← ref_index c r; Some (init_new_commits c idx r s).1
  | QDroppedCommits r => idx ← ref_index c r; Some (init_dropped_commits c r s).1
  | QRefDiff r => idx ← ref_index c r; Some (init_ref_diff c r s).1
  | QVerify ci => Some (fresh_verify c s (inl ci))
  | QVerifyTag t => Some (fresh_verify c s (inr t))
  | QReadBlob o cap => Some (read_blob c o cap s).1
  | QPackMetadata => Some (cmp_pack c)
  | QTags => Some (tags (cmp_pack c))
  end.

Fixpoint run_uncached {R} (c : Comparison) (p : Policy R) (s : store) : option R :=
  match p with
  | PRet r => Some r
  | PAsk q k => a ← answer c q s; run_uncached c (k a) s
  end.

(** A policy asks about the refs of the push, and about commits and tags that are the
    objects their ids name: [objs] is the assignment of objects to ids. *)
Definition admissible (c : Comparison) (objs : ObjectId → option (CommitInfo + TagInfo))
    {A} (q : Query A) : Prop :=
  match q with
  | QNewCommits r | QDroppedCommits r | QRefDiff r => r ∈ cmp_refs c
  | QVerify ci => objs (c_oid ci) = Some (inl ci)
  | QVerifyTag t => objs (t_oid t) = Some (inr t)
  | _ => True
  end.

(** Every question the policy asks, when its questions are answered from scratch. *)
Fixpoint coherent {R} (c : Comparison) (objs : ObjectId → option (CommitInfo + TagInfo))
    (s : store) (p : Policy R) : Prop :=
  match p with
  | PRet _ => True
  | PAsk q k => admissible c objs q ∧ ∀ a, answer c q s = Some a → coherent c objs s (k a)
  end.

(** What the caches hold: each filled slot is the answer for its own ref, each status
    the one of its object, and the keys those of the pack's signers. *)
Definition slots_ok {A} (c : Comparison) (init : nat → PushRef → A) (slots : list (option A)) : Prop :=
  length slots = length (cmp_refs c) ∧
  ∀ i a, slots !! i = Some (Some a) → ∃ r, cmp_refs c !! i = Some r ∧ a = init i r.

Record caches_ok (c : Comparison) (objs : ObjectId → option (CommitInfo + TagInfo))
    (s : store) (cs : Caches) : Prop := {
  ok_new : slots_ok c (λ i r, (init_new_commits c i r s).1) (new_cache cs);
  ok_dropped : slots_ok c (λ _ r, (init_dropped_commits c r s).1) (dropped_cache cs);
  ok_diff : slots_ok c (λ _ r, (init_ref_diff c r s).1) (diff_cache cs);
  ok_verify o st : verify_cache cs !! o = Some st →
    ∃ x, objs o = Some x ∧ st = fresh_verify c s x;
  ok_keys ks : keys_cache cs = Some ks → ks = ra_verification_keys (pack_signers (cmp_pack c));
}.

Lemma slots_ok_fresh {A} c (init : nat → PushRef → A) :
  slots_ok c init (replicate (length (cmp_refs c)) None).
Proof.
  split; [apply length_replicate|]. intros i a Hi.
  apply lookup_replicate in Hi as [? _]. done.
Qed.

Lemma caches_ok_fresh c objs s : caches_ok c objs s (fresh_caches (length (cmp_refs c))).
Proof. split; try apply slots_ok_fresh; done. Qed.

(** With distinct names, a ref of the push is found at its own index. *)
Lemma ref_index_own c r :
  NoDup (pr_refname <$> cmp_refs c) → r ∈ cmp_refs c →
  ∃ i, ref_index c r = Some i ∧ cmp_refs c !! i = Some r.
Proof.
  intros Hnd Hr. unfold ref_index.
  destruct (list_find_elem_of (λ p, pr_refname p = pr_refname r) _ _ Hr eq_refl) as [[i p] Hf].
  rewrite Hf. exists i. split; [done|]. apply list_find_Some in Hf as (Hi & Hp & _).
  apply list_elem_of_lookup in Hr as [j Hj].
  assert (i = j) as ->; [|congruence].
  apply (NoDup_lookup _ _ _ (pr_refname r) Hnd); rewrite list_lookup_fmap.
  - rewrite Hi. simpl. by rewrite Hp.
  - by rewrite Hj.
Qed.

Lemma get_or_init_ok {A} c (init : nat → PushRef → store → A * store) slots i r s :
  slots_ok c (λ i r, (init i r s).1) slots → cmp_refs c !! i = Some r →
  (init i r s).2 = s →
  ∃ slots', get_or_init slots i (init i r) s = ((init i r s).1, slots', s) ∧
            slots_ok c (λ i r, (init i r s).1) slots'.
Proof.
  intros [Hl Hs] Hr Hro. unfold get_or_init.
  destruct (slots !! i) as [[a|]|] eqn:Hi.
  { destruct (Hs i a Hi) as (r' & Hr' & ->). simplify_eq. by exists slots. }
  all: destruct (init i r s) as [a s'] eqn:E; simplify_eq/=; exists (<[i:=Some a]> slots);
    (split; [done|]); split; [by rewrite length_insert|]; intros j b Hj;
    apply list_lookup_insert_Some in Hj as [(<- & ? & _)|[_ Hj]]; [|by apply Hs];
    simplify_eq; exists r; by rewrite E.
Qed.

Lemma keys_ok c objs s cs :
  caches_ok c objs s cs →
  ∃ cs', keys c cs = (ra_verification_keys (pack_signers (cmp_pack c)), cs') ∧
         caches_ok c objs s cs' ∧ verify_cache cs' = verify_cache cs.
Proof.
  intros Hok. unfold keys. destruct (keys_cache cs) as [ks|] eqn:Hk.
  - rewrite (ok_keys _ _ _ _ Hok _ Hk). by eexists.
  - eexists. split; [done|]. split; [|done]. destruct Hok. split; simpl; try done. congruence.
Qed.

Lemma cache_status_ok c objs s cs o x st :
  caches_ok c objs s cs → objs o = Some x → st = fresh_verify c s x →
  caches_ok c objs s (cache_status o st cs).
Proof.
  intros [] Ho Hst. split; simpl; try done. intros p st'. rewrite lookup_insert_Some.
  intros [[<- <-]|[_ ?]]; eauto.
Qed.
End uncached.

Section caching.
Context `{ReadOnlyLaws} {access : RepoAccess}.

Lemma verify_signed_ok c objs cs s o x email blob strip :
  caches_ok c objs s cs → objs o = Some x →
  fresh_verify c s x = fresh_status c s o email blob strip →
  ∃ cs', verify_signed c cs s o email blob strip = (fresh_verify c s x, cs', s) ∧
         caches_ok c objs s cs'.
Proof.
  intros Hok Ho Hx. rewrite Hx. unfold verify_signed, fresh_status in *.
  pose proof (read_raw_ro (cmp_repo c) o raw_cap s).
  destruct (sb_read_object_raw _ _ _ s) as [[[raw|]|e] s'] eqn:E; simplify_eq/=;
    [|by exists cs..].
  destruct (keys_ok c objs s cs Hok) as (cs1 & Hk & Hok1 & _).
  unfold run_verify at 1. rewrite Hk. simpl. eexists. split; [done|].
  by eapply cache_status_ok.
Qed.

(** One question answered through the caches is answered as from scratch, and leaves
    caches that are still right. *)
Lemma ask_ok {A} c objs (q : Query A) cs s :
  NoDup (pr_refname <$> cmp_refs c) → caches_ok c objs s cs → admissible c objs q →
  ∃ a cs', ask c q cs s = Some (a, cs', s) ∧ answer c q s = Some a ∧ caches_ok c objs s cs'.
Proof.
  intros Hnd Hok Hq. destruct q as [|pr|pr|pr|ci|t|o cap| |]; simpl in *; eauto.
  - destruct (ref_index_own c pr Hnd Hq) as (i & Hi & Hr).
    unfold new_commits. rewrite Hi. simpl.
    destruct (get_or_init_ok c (λ i r, init_new_commits c i r) (new_cache cs) i pr s)
      as (slots' & -> & Hs'); [apply Hok|done|apply (init_new_keeps _ store_kept_by_reads)|].
    do 2 eexists. split; [done|]. split; [done|]. by destruct Hok.
  - destruct (ref_index_own c pr Hnd Hq) as (i & Hi & Hr).
    unfold dropped_commits. rewrite Hi. simpl.
    destruct (get_or_init_ok c (λ _ r, init_dropped_commits c r) (dropped_cache cs) i pr s)
      as (slots' & -> & Hs'); [apply Hok|done|apply (init_dropped_keeps _ store_kept_by_reads)|].
    do 2 eexists. split; [done|]. split; [done|]. by destruct Hok.
  - destruct (ref_index_own c pr Hnd Hq) as (i & Hi & Hr).
    unfold ref_diff. rewrite Hi. simpl.
    destruct (get_or_init_ok c (λ _ r, init_ref_diff c r) (diff_cache cs) i pr s)
      as (slots' & -> & Hs'); [apply Hok|done|apply (init_diff_keeps _ store_kept_by_reads)|].
    do 2 eexists. split; [done|]. split; [done|]. by destruct Hok.
  - unfold verify. destruct (verify_cache cs !! c_oid ci) as [st|] eqn:Hv.
    { destruct (ok_verify _ _ _ _ Hok _ _ Hv) as (x & Hx & ->). simplify_eq. eauto. }
    destruct (c_signature ci) as [blob|] eqn:Hsig.
    + destruct (verify_signed_ok c objs cs s (c_oid ci) (inl ci) (id_email (c_committer ci)) blob
                  strip_gpgsig Hok Hq) as (cs' & -> & Hok'); simpl; [by rewrite Hsig|].
      rewrite Hsig. eauto.
    + do 2 eexists. split; [done|]. split; [done|].
      eapply cache_status_ok; [done|done|]. simpl. by rewrite Hsig.
  - unfold verify_tag. destruct (verify_cache cs !! t_oid t) as [st|] eqn:Hv.
    { destruct (ok_verify _ _ _ _ Hok _ _ Hv) as (x & Hx & ->). simplify_eq. eauto. }
    destruct (t_signature t) as [blob|] eqn:Hsig, (t_tagger t) as [tg|] eqn:Htg.
    1: destruct (verify_signed_ok c objs cs s (t_oid t) (inr t) (id_email tg) blob
                  strip_tag_signature Hok Hq) as (cs' & -> & Hok'); simpl;
         [by rewrite Hsig, Htg|rewrite Hsig, Htg; eauto].
    all: do 2 eexists; (split; [done|]); (split; [done|]);
      eapply cache_status_ok; [done|done|]; simpl; by rewrite Hsig, ?Htg.
  - unfold read_blob. pose proof (read_blob_ro (cmp_repo c) o cap s).
    destruct (sb_read_blob _ _ _ s) as [r s']; simplify_eq/=. eauto.
Qed.

Lemma run_policy_ok {R} c objs (p : Policy R) cs s :
  NoDup (pr_refname <$> cmp_refs c) → caches_ok c objs s cs → coherent c objs s p →
  run_policy c p cs s = (run_uncached c p s, s).
Proof.
  intros Hnd. revert cs; induction p as [|A q k IH]; intros cs Hok Hp; simpl; [done|].
  destruct Hp as [Hq Hk]. destruct (ask_ok c objs q cs s Hnd Hok Hq) as (a & cs' & -> & Ha & Hok').
  rewrite Ha. by apply IH; [|apply Hk].
Qed.

(** (C27) The comparison's lazy caches are unobservable: for a push of distinct refs,
    any policy that asks only about the refs and objects it was shown ([coherent]) gets,
    through the caches, the verdict it would get with every answer computed from scratch,
    and the store is untouched.  In particular it never panics.  Two updates of one ref
    share a cache slot ([duplicate_ref_shares_answer]), and an unknown ref does panic
    ([ref_index]), so both conditions are needed. *)
Theorem run_comparison_uncached {R} repo pack refs existing opts objs (p : Policy R) s :
  let c := {| cmp_repo := repo; cmp_pack := pack; cmp_refs := refs;
              cmp_existing := existing; cmp_opts := opts |} in
  NoDup (pr_refname <$> refs) → coherent c objs s p →
  run_comparison repo pack refs existing opts p s = (run_uncached c p s, s) ∧
  run_uncached c p s ≠ None.
Proof.
  intros c Hnd Hp. split.
  - apply (run_policy_ok c objs); [done|apply (caches_ok_fresh c)|done].
  - revert Hp. induction p as [|A q k IH]; simpl; [done|]. intros [Hq Hk].
    destruct (ask_ok c objs q (fresh_caches (length (cmp_refs c))) s Hnd (caches_ok_fresh c objs s) Hq)
      as (a & ? & _ & Ha & _). rewrite Ha. by apply IH, Hk.
Qed.

End caching.

Section stale_cache.
Context `{StorageBackend} {access : RepoAccess}.

Lemma ref_index_name c r1 r2 :
  pr_refname r2 = pr_refname r1 → ref_index c r2 = ref_index c r1.
Proof. unfold ref_index. by intros ->. Qed.

Lemma ref_index_lt c r i : ref_index c r = Some i → i < length (cmp_refs c).
Proof.
  unfold ref_index. destruct (list_find _ _) as [[j p]|] eqn:Hf; simpl; [|done].
  intros [= <-]. apply list_find_Some in Hf as (Hi & _). by eapply lookup_lt_Some.
Qed.

(** A filled slot answers without running its initialiser. *)
Lemma get_or_init_again {S A} (slots slots' : list (option A)) i (f g : S → A * S) s s' s'' a :
  i < length slots → get_or_init slots i f s = (a, slots', s') →
  get_or_init slots' i g s'' = (a, slots', s'').
Proof.
  intros Hi. unfold get_or_init at 1.
  destruct (slots !! i) as [[b|]|] eqn:E.
  { intros [= <- <- <-]. unfold get_or_init. by rewrite E. }
  all: destruct (f s) as [b t]; intros [= <- <- <-]; unfold get_or_init;
    by rewrite list_lookup_insert_eq.
Qed.

(** The caches are keyed by ref name: once [new_commits], [dropped_commits] or
    [ref_diff] was asked about one update of a ref, another update of the same name in
    the same push gets that update's answer, whatever its own object ids are. *)
Theorem duplicate_ref_shares_answer c r1 r2 cs s :
  pr_refname r2 = pr_refname r1 →
  length (new_cache cs) = length (cmp_refs c) →
  length (dropped_cache cs) = length (cmp_refs c) →
  length (diff_cache cs) = length (cmp_refs c) →
  (∀ a cs' s' s'', new_commits c r1 cs s = Some (a, cs', s') →
     new_commits c r2 cs' s'' = Some (a, cs', s'')) ∧
  (∀ a cs' s' s'', dropped_commits c r1 cs s = Some (a, cs', s') →
     dropped_commits c r2 cs' s'' = Some (a, cs', s'')) ∧
  (∀ a cs' s' s'', ref_diff c r1 cs s = Some (a, cs', s') →
     ref_diff c r2 cs' s'' = Some (a, cs', s'')).
Proof.
  intros Hn Hl1 Hl2 Hl3. unfold new_commits, dropped_commits, ref_diff.
  rewrite (ref_index_name c r1 r2 Hn).
  destruct (ref_index c r1) as [i|] eqn:Hi; [|done]. apply ref_index_lt in Hi. simpl.
  split_and!; intros a cs' s' s'';
    match goal with |- context [get_or_init ?sl ?i ?f s] =>
      destruct (get_or_init sl i f s) as [[b slots'] t] eqn:E end;
    intros [= <- <- <-]; simpl;
    (erewrite get_or_init_again; [done| |exact E]); lia.
Qed.
End stale_cache.

(** ** What [new_commits] reports *)

Section new_commits_facts.
Context `{GraphLaws}.

Lemma commit_infos_oids repo lookup oids s l s' :
  (∀ o ci, lookup o = Some ci → c_oid ci = o) →
  commit_infos repo lookup oids s = (Ok l, s') → c_oid <$> l = oids.
Proof.
  intros Hl. revert s l; induction oids as [|o oids IH]; intros s l; simpl; [by intros [= <-]|].
  destruct (lookup o) as [ci|] eqn:Ho.
  - destruct (commit_infos _ _ oids s) as [[l'|] s1] eqn:E; [|done]. intros [= <- <-].
    rewrite fmap_cons. by rewrite (IH _ _ E), (Hl _ _ Ho).
  - destruct (sb_read_commit_info repo o s) as [[ci|] s1] eqn:Hc; [|done].
    destruct (commit_infos _ _ oids s1) as [[l'|] s2] eqn:E; [|done]. intros [= <- <-].
    rewrite fmap_cons. by rewrite (IH _ _ E), (read_commit_oid _ _ _ _ _ Hc).
Qed.

(** The non-null new tips of the first [n] refs. *)
Definition new_tips (c : Comparison) (n : nat) : list ObjectId :=
  base.filter (λ o, is_null o = false) (pr_new_oid <$> take n (cmp_refs c)).

Lemma new_tips_S c n r :
  cmp_refs c !! n = Some r →
  new_tips c (S n) = new_tips c n ++ (if is_null (pr_new_oid r) then [] else [pr_new_oid r]).
Proof.
  intros Hr. unfold new_tips. rewrite (take_S_r _ _ _ Hr), fmap_app, filter_app. f_equal.
  cbn [fmap list_fmap]. rewrite filter_cons, filter_nil.
  destruct (is_null _) eqn:E; [by rewrite decide_False by congruence|by rewrite decide_True].
Qed.

Lemma init_new_commits_oids c i r s l s' :
  init_new_commits c i r s = (Ok l, s') →
  ∀ o, o ∈ c_oid <$> l ↔
    (is_null (pr_new_oid r) = false ∧ reaches (graph_view (cmp_repo c) s) (pr_new_oid r) o) ∧
    ¬ reached_from (graph_view (cmp_repo c) s) (cmp_existing c ++ new_tips c i) o.
Proof.
  unfold init_new_commits. destruct (is_null (pr_new_oid r)).
  { intros [= <- <-] o. set_solver. }
  unfold walk_commits. destruct (sb_reachable_excluding _ _ _ _ s) as [[oids|] s1] eqn:E; [|done].
  intros Hc o. apply commit_infos_oids in Hc as ->; [|by apply find_commit_oid].
  rewrite (reachable_Ok _ _ _ _ _ _ _ E), reached_from_one. set_solver.
Qed.

Lemma new_tips_elem c i n r :
  cmp_refs c !! i = Some r → i < n → is_null (pr_new_oid r) = false →
  pr_new_oid r ∈ new_tips c n.
Proof.
  intros Hr Hi Hn. apply list_elem_of_filter. split; [done|].
  apply list_elem_of_fmap. exists r. split; [done|].
  apply list_elem_of_lookup. exists i. by rewrite lookup_take_lt.
Qed.

(** A commit reached from one of the first [n] tips is reported by one of the first [n]
    refs, unless it is excluded. *)
Lemma new_commits_cover c s (ls : list (list CommitInfo)) n o :
  n ≤ length ls → length ls = length (cmp_refs c) →
  (∀ i r l, cmp_refs c !! i = Some r → ls !! i = Some l →
     ∃ s', init_new_commits c i r s = (Ok l, s')) →
  reached_from (graph_view (cmp_repo c) s) (new_tips c n) o →
  ¬ reached_from (graph_view (cmp_repo c) s) (cmp_existing c) o →
  Exists (λ l, o ∈ c_oid <$> l) (take n ls).
Proof.
  intros Hn Hlen Hls Ho Hex. induction n as [|n IH]; [by destruct Ho as (? & ?%elem_of_nil & _)|].
  destruct (lookup_lt_is_Some_2 ls n) as [l Hl]; [lia|].
  destruct (lookup_lt_is_Some_2 (cmp_refs c) n) as [r Hr]; [lia|].
  rewrite (take_S_r _ _ _ Hl), Exists_app.
  destruct (decide (Exists (λ l, o ∈ c_oid <$> l) (take n ls))) as [?|Hnot]; [by left|right].
  assert (¬ reached_from (graph_view (cmp_repo c) s) (new_tips c n) o) as Hnt.
  { intros Ht. apply Hnot, IH; [lia|done]. }
  destruct (Hls _ _ _ Hr Hl) as [s' Hi]. constructor.
  rewrite (init_new_commits_oids _ _ _ _ _ _ Hi), reached_from_app.
  rewrite (new_tips_S _ _ _ Hr), reached_from_app in Ho.
  destruct Ho as [Ho|Ho]; [done|]. destruct (is_null (pr_new_oid r)).
  - by destruct Ho as (? & ?%elem_of_nil & _).
  - rewrite reached_from_one in Ho. naive_solver.
Qed.

(** Over all refs of a push [new_commits] reports exactly the commits reachable from a
    pushed tip and not from the excluded tips. *)
Lemma new_commits_complete c s (ls : list (list CommitInfo)) :
  length ls = length (cmp_refs c) →
  (∀ i r l, cmp_refs c !! i = Some r → ls !! i = Some l →
     ∃ s', init_new_commits c i r s = (Ok l, s')) →
  ∀ o, (∃ l, l ∈ ls ∧ o ∈ c_oid <$> l) ↔
     reached_from (graph_view (cmp_repo c) s) (new_tips c (length ls)) o ∧
     ¬ reached_from (graph_view (cmp_repo c) s) (cmp_existing c) o.
Proof.
  intros Hlen Hls o. split.
  - intros (l & [i Hl]%list_elem_of_lookup & Ho).
    destruct (lookup_lt_is_Some_2 (cmp_refs c) i) as [r Hr]; [apply lookup_lt_Some in Hl; lia|].
    destruct (Hls _ _ _ Hr Hl) as [s' Hi].
    rewrite (init_new_commits_oids _ _ _ _ _ _ Hi), reached_from_app in Ho.
    destruct Ho as [[Hn Hr'] Hx]. split; [|tauto]. exists (pr_new_oid r). split; [|done].
    eapply new_tips_elem; [done| |done]. by eapply lookup_lt_Some.
  - intros [Ho Hx].
    pose proof (new_commits_cover c s ls (length ls) o ltac:(lia) Hlen Hls Ho Hx) as He.
    rewrite firstn_all in He. by apply Exists_exists in He.
Qed.

Lemma new_tips_inv c n o :
  o ∈ new_tips c n → ∃ j r, j < n ∧ cmp_refs c !! j = Some r ∧ is_null o = false ∧ o = pr_new_oid r.
Proof.
  intros [Hn (r & -> & [j [Hj Hlt]%lookup_take_Some]%list_elem_of_lookup)%list_elem_of_fmap]%list_elem_of_filter.
  by exists j, r.
Qed.

(** The first question about a ref of a push is answered for the index of that ref. *)
Lemma new_commits_own c i r n s :
  NoDup (pr_refname <$> cmp_refs c) → cmp_refs c !! i = Some r →
  ∃ cs, new_commits c r (fresh_caches n) s =
    Some ((init_new_commits c i r s).1, cs, (init_new_commits c i r s).2).
Proof.
  intros Hnd Hr. destruct (ref_index_own c r Hnd) as (j & Hj & Hrj); [by eapply list_elem_of_lookup_2|].
  assert (j = i) as ->.
  { eapply (NoDup_lookup _ _ _ (pr_refname r) Hnd); by rewrite list_lookup_fmap, ?Hr, ?Hrj. }
  unfold new_commits. rewrite Hj. cbn [mbind option_bind]. unfold get_or_init, fresh_caches. cbn [new_cache].
  destruct (replicate n _ !! i) as [[a|]|] eqn:E.
  - by apply lookup_replicate in E as [? _].
  - destruct (init_new_commits c i r s) as [a s']. by eexists.
  - destruct (init_new_commits c i r s) as [a s']. by eexists.
Qed.
End new_commits_facts.

(** ** Signatures *)

Section signature_facts.
Context `{StorageBackend} {access : RepoAccess}.

Definition signer_pair (s : Signer) : bytes * SignatureFormat := (signer_email s, signer_format s).

(** The signature a commit or tag presents: who claims it, and its format. *)
Definition commit_claim (ci : CommitInfo) : option (bytes * SignatureFormat) :=
  sig ← c_signature ci; Some (id_email (c_committer ci), sig_format sig).
Definition tag_claim (t : TagInfo) : option (bytes * SignatureFormat) :=
  sig ← t_signature t; tagger ← t_tagger t; Some (id_email tagger, sig_format sig).

Lemma add_signer_spec signers e f :
  NoDup (signer_pair <$> signers) →
  NoDup (signer_pair <$> add_signer signers e f) ∧
  ∀ p, p ∈ signer_pair <$> add_signer signers e f ↔ p ∈ signer_pair <$> signers ∨ p = (e, f).
Proof.
  intros Hnd. unfold add_signer. destruct (existsb _ _) eqn:E.
  - split; [done|]. intros p. split; [by left|]. intros [?| ->]; [done|].
    apply existsb_exists in E as (s & Hin & [?%bool_decide_eq_true ?%bool_decide_eq_true]%andb_prop).
    apply list_elem_of_fmap. exists s. split; [by unfold signer_pair; congruence|].
    by apply list_elem_of_In.
  - assert ((e, f) ∉ signer_pair <$> signers) as Hnot.
    { intros (s & Hs & Hin)%list_elem_of_fmap. apply not_true_iff_false in E. apply E.
      apply existsb_exists. exists s. split; [by apply list_elem_of_In|].
      unfold signer_pair in Hs. simplify_eq. by rewrite !bool_decide_eq_true_2. }
    rewrite fmap_app. split.
    + apply NoDup_app. split_and!; [done| |apply NoDup_singleton].
      intros p Hp Hp'. by apply list_elem_of_singleton in Hp' as ->.
    + intros p. rewrite elem_of_app. apply or_iff_compat_l. apply list_elem_of_singleton.
Qed.

(** Folding in the claims of a list of objects. *)
Lemma fold_signers_spec {X} (step : list Signer → X → list Signer) (claim : X → option (bytes * SignatureFormat)) xs signers :
  (∀ acc x, step acc x = match claim x with Some (e, f) => add_signer acc e f | None => acc end) →
  NoDup (signer_pair <$> signers) →
  NoDup (signer_pair <$> foldl step signers xs) ∧
  ∀ p, p ∈ signer_pair <$> foldl step signers xs ↔
       p ∈ signer_pair <$> signers ∨ ∃ x, x ∈ xs ∧ claim x = Some p.
Proof.
  intros Hstep. revert signers; induction xs as [|x xs IH]; intros signers Hnd; simpl.
  { split; [done|]. set_solver. }
  rewrite Hstep. destruct (claim x) as [[e f]|] eqn:Hc.
  - destruct (add_signer_spec signers e f Hnd) as [Hnd' Hin].
    destruct (IH _ Hnd') as [? Hp]. split; [done|]. intros p. rewrite Hp, Hin.
    setoid_rewrite elem_of_cons. naive_solver.
  - destruct (IH _ Hnd) as [? Hp]. split; [done|]. intros p. rewrite Hp.
    setoid_rewrite elem_of_cons. naive_solver.
Qed.

(** The forge is asked for keys once per claimed identity: the signer batch has
    no duplicate (email, format) pair, and contains exactly the pairs claimed by a
    signed commit or a signed tag of the pack. *)
Theorem pack_signers_spec (m : PackMetadata) :
  NoDup (signer_pair <$> pack_signers m) ∧
  ∀ p, p ∈ signer_pair <$> pack_signers m ↔
       (∃ ci, ci ∈ commits m ∧ commit_claim ci = Some p) ∨
       (∃ t, t ∈ tags m ∧ tag_claim t = Some p).
Proof.
  destruct (fold_signers_spec commit_signer commit_claim (commits m) []) as [Hnd1 Hin1].
  { intros acc ci. unfold commit_signer, commit_claim. by destruct (c_signature ci). }
  { constructor. }
  destruct (fold_signers_spec tag_signer tag_claim (tags m)
              (foldl commit_signer [] (commits m))) as [Hnd2 Hin2].
  { intros acc t. unfold tag_signer, tag_claim. by destruct (t_signature t), (t_tagger t). }
  { done. }
  split; [done|]. intros p. unfold pack_signers. rewrite Hin2, Hin1. set_solver.
Qed.

(** A status the forge's own verifier vouched for, if it says [Verified]. *)
Definition vouched (st : VerificationStatus) : Prop :=
  match st with
  | Verified _ _ => ∃ sig, ra_verify_external sig = Some st
  | _ => True
  end.

Lemma run_verify_vouched c cs e f sig p : vouched (run_verify c cs e f sig p).1.
Proof.
  unfold run_verify. destruct (keys c cs) as [ks cs']. simpl.
  destruct (ra_verify_external _) as [st|] eqn:E; simpl; [destruct st; simpl; eauto|].
  unfold verify_native. by destruct f; try destruct (matching_keys _ _ _).
Qed.

Lemma run_verify_cache c cs e f sig p :
  verify_cache (run_verify c cs e f sig p).2 = verify_cache cs.
Proof. unfold run_verify, keys. by destruct (keys_cache cs). Qed.

Lemma verify_signed_vouched c cs s o email blob strip :
  map_Forall (λ _, vouched) (verify_cache cs) →
  vouched (verify_signed c cs s o email blob strip).1.1 ∧
  map_Forall (λ _, vouched) (verify_cache (verify_signed c cs s o email blob strip).1.2).
Proof.
  intros Hv. unfold verify_signed.
  destruct (sb_read_object_raw _ _ _ s) as [[[raw|]|] s']; [|by split..].
  pose proof (run_verify_vouched c cs email (sig_format blob) (sig_bytes blob) (strip raw)) as Hst.
  pose proof (run_verify_cache c cs email (sig_format blob) (sig_bytes blob) (strip raw)) as Hc.
  destruct (run_verify _ _ _ _ _ _) as [st cs']. simpl in *. split; [done|].
  apply map_Forall_insert_2; [done|]. by rewrite Hc.
Qed.

(** The native verifier accepts nothing: a commit or tag is reported [Verified]
    only if the forge's external verifier returned that very verdict, now or when the
    cached answer was computed; an object without a signature never is. *)
Theorem verified_only_externally c ci t cs s :
  map_Forall (λ _, vouched) (verify_cache cs) →
  (vouched (verify c ci cs s).1.1 ∧
   map_Forall (λ _, vouched) (verify_cache (verify c ci cs s).1.2)) ∧
  (vouched (verify_tag c t cs s).1.1 ∧
   map_Forall (λ _, vouched) (verify_cache (verify_tag c t cs s).1.2)).
Proof.
  intros Hv. unfold verify, verify_tag. split.
  - destruct (verify_cache cs !! c_oid ci) as [st|] eqn:E; [split; [|done]; exact (Hv _ _ E)|].
    destruct (c_signature ci); [by apply verify_signed_vouched|].
    split; [done|]. by apply map_Forall_insert_2.
  - destruct (verify_cache cs !! t_oid t) as [st|] eqn:E; [split; [|done]; exact (Hv _ _ E)|].
    destruct (t_signature t), (t_tagger t); [by apply verify_signed_vouched|..];
      (split; [done|]; by apply map_Forall_insert_2).
Qed.
End signature_facts.
