(* ===== verification/Serve.v ===== *)
(** * The request pipeline ([serve.rs])

    Routing of HTTP requests for protocol v1 and v2, the receive-pack and upload-pack
    pipelines of both transports, and the theorems about them.  A handler may return
    early with a response (the [res_try!] macro, or [?] on the SSH path) or panic in
    the forge's policy; the response of an HTTP handler carries the future it spawned,
    whose output is the response's [reader]. *)

From stdpp Require Import base gmap list strings.
From Stdlib Require Import Strings.Byte.
From S2P Require Import Prelude Bytes Gix Proto Types Handlers Sigverify Auth.

(** ** Early returns *)

Inductive flow (E A : Type) : Type :=
| Go (a : A)
| Return (e : E)
| Panicked.
Arguments Go {E A} a.
Arguments Return {E A} e.
Arguments Panicked {E A}.

(** A computation on state [S] that may return [E] early. *)
Definition Flow (S E A : Type) : Type := S → flow E A * S.

#[global] Instance Flow_ret {S E} : MRet (Flow S E) := fun A a s => (Go a, s).
#[global] Instance Flow_bind {S E} : MBind (Flow S E) :=
  fun A B f m s => match m s with
                   | (Go a, s') => f a s'
                   | (Return e, s') => (Return e, s')
                   | (Panicked, s') => (Panicked, s')
                   end.

Definition early {S E A} (e : E) : Flow S E A := fun s => (Return e, s).

(** A step that cannot fail. *)
Definition step {S E A} (f : S → A * S) : Flow S E A := fun s => let '(a, s') := f s in (Go a, s').

(** A step that may panic. *)
Definition may_panic {S E A} (f : S → option A * S) : Flow S E A := fun s =>
  match f s with (Some a, s') => (Go a, s') | (None, s') => (Panicked, s') end.

(** [m?] in a function that returns [anyhow::Result<X>]. *)
Definition try_ {S X A} (m : ST S A) : Flow S (result error X) A := fun s =>
  match m s with (Ok a, s') => (Go a, s') | (Err e, s') => (Return (Err e), s') end.

(** What the caller of a function sees. *)
Definition returned {S E} (m : Flow S E E) : S → option E * S := fun s =>
  match m s with
  | (Go e, s') | (Return e, s') => (Some e, s')
  | (Panicked, s') => (None, s')
  end.

(** ** Code outside the repository

    The packet-line decoder of a body, how the transport delivers the rest of a body
    in reads, the path of the temporary file for them, and how [anyhow] renders an error with its context chain. *)
Class Transport := {
  packets_of : bytes → packet_stream;
  reads_of : bytes → list (result error bytes);
  temp_path : bytes → bytes;
  display : error → bytes;
}.

Section serve.
Context `{StorageBackend} {access : RepoAccess} {transport : Transport}.

(** ** Responses *)

(** A spawned future: its own errors are only logged. *)
Definition task : Type := store * writer → store * writer.
Definition spawn (m : ST (store * writer) ()) : task := fun x => (m x).2.
Definition spawn_write (m : ST writer ()) : task := spawn (on_writer m).

Record GitResponse := {
  status_code : N;
  content_type : option bytes;
  reader : option task;
  resp_body : option bytes }.

Definition HM : Type → Type := Flow store GitResponse.

Definition internal_error (e : error) : GitResponse :=
  {| reader := None; resp_body := Some (b! "internal error: " ++ display e);
     status_code := 500; content_type := Some (b! "text/plain") |}.

Definition res_try {A} (m : ST store A) : HM A := fun s =>
  match m s with (Ok a, s') => (Go a, s') | (Err e, s') => (Return (internal_error e), s') end.

Definition streaming (ct : option bytes) (t : task) : GitResponse :=
  {| status_code := 200; content_type := ct; reader := Some t; resp_body := None |}.

(** ** Receive-pack over HTTP *)

(** [if access.auto_init() { backend.init_repo(repo_id)?; }]. *)
Definition maybe_init : ST store () :=
  if ra_auto_init then sb_init_repo ra_repo_id else mret ().

Definition recv_pack_info_refs : HM GitResponse :=
  res_try maybe_init ;;
  repo ← res_try (sb_open ra_repo_id);
  snapshot ← res_try (sb_list_refs repo);
  mret (streaming (Some (b! "application/x-git-receive-pack-advertisement"))
    (spawn_write
       (text_to_write (b! "# service=git-receive-pack") ;;
        flush_to_write ;;
        info_refs_receive_pack_task (as_receive_pack snapshot)))).

Definition push_ref (u : RefUpdate) (k : PushKind) : PushRef :=
  {| pr_refname := refname u; pr_kind := k; pr_old_oid := old_oid u; pr_new_oid := new_oid u |}.

Definition build_push_refs (updates : list RefUpdate) (kind : RefUpdate → PushKind) : list PushRef :=
  (λ u, push_ref u (kind u)) <$> updates.

Fixpoint build_push_refs_async (updates : list RefUpdate) (repo : Repo) (s : store) :
    list PushRef * store :=
  match updates with
  | [] => ([], s)
  | u :: updates' =>
      let '(kind, s1) := sb_compute_push_kind repo u s in
      let '(out, s2) := build_push_refs_async updates' repo s1 in
      (push_ref u kind :: out, s2)
  end.

Definition existing_ref_tips (repo : Repo) (push_refs : list PushRef) (s : store) :
    list ObjectId * store :=
  match sb_list_refs repo s with
  | (Err _, s') => ([], s')
  | (Ok snapshot, s') =>
      (rs_refs snapshot ≫= λ r,
         if decide (r_name r ∈ pr_refname <$> push_refs) then []
         else r_oid r :: match r_peeled r with Some p => [p] | None => [] end, s')
  end.

Definition reject_response (updates : list RefUpdate) (msg : bytes) : GitResponse :=
  streaming (Some (b! "application/x-git-receive-pack-result"))
    (spawn_write (reject_report (refname <$> updates) msg)).

(** Stage the pack that follows the commands, then hand it to the backend. *)
Definition stage_and_ingest (repo : Repo) (rest : bytes) : ST store (option IngestedPack) :=
  staged ← lift (stage_pack (temp_path rest) (reads_of rest));
  match staged with
  | Some pack => sb_ingest_pack repo pack
  | None => mret None
  end.

Definition rollback (pack : option IngestedPack) (s : store) : store :=
  match pack with Some p => sb_rollback_ingest p s | None => s end.

Definition inspection_failed (e : error) : bytes := b! "pack inspection failed: " ++ display e.

(** The metadata of the ingested pack; a pack that cannot be inspected is rolled back
    and the push rejected. *)
Definition inspect_or_reject (updates : list RefUpdate) (written_pack : option IngestedPack) :
    HM (option PackMetadata) := fun s =>
  match written_pack with
  | None => (Go None, s)
  | Some pack =>
      match sb_inspect_ingested pack s with
      | (Ok meta, s') => (Go (Some meta), s')
      | (Err e, s') =>
          (Return (reject_response updates (inspection_failed e)), sb_rollback_ingest pack s')
      end
  end.

(** The future of an accepted push: update the refs, report, run [post_receive]. *)
Definition accepted_task (repo : Repo) (ref_updates : list RefUpdate) (meta : PackMetadata)
    (push_refs : list PushRef) (existing : list ObjectId) : task := fun x =>
  match update_refs_and_report repo ref_updates x with
  | (Ok _, (s, w)) =>
      let '(_, s') := run_comparison repo meta push_refs existing default_options ra_post_receive s in
      (s', w)
  | (Err _, x') => x'
  end.

Definition recv_pack_post (limits : ProtocolLimits) (body : bytes) : HM GitResponse :=
  '(ref_updates, rest) ← res_try (lift (read_receive_request limits body));
  match ra_authorize_preliminary (build_push_refs ref_updates preliminary_push_kind) with
  | Err msg => mret (reject_response ref_updates msg)
  | Ok push_ctx =>
      repo ← res_try (sb_open ra_repo_id);
      written_pack ← res_try (stage_and_ingest repo rest);
      pack_meta ← inspect_or_reject ref_updates written_pack;
      push_refs ← step (build_push_refs_async ref_updates repo);
      existing ← step (existing_ref_tips repo push_refs);
      auth_result ← may_panic (run_comparison repo (default [] pack_meta) push_refs existing
                                 default_options (ra_authorize_push push_ctx));
      rejected ← step (fun s =>
        match auth_result with
        | Err msg => ((λ u, (refname u, msg)) <$> ref_updates, rollback written_pack s)
        | Ok _ => ([], s)
        end);
      mret (streaming (Some (b! "application/x-git-receive-pack-result"))
        (match rejected with
         | _ :: _ =>
             spawn_write
               (text_to_write (b! "unpack ok") ;;
                for_each (λ '(name, msg), text_to_write (b! "ng " ++ name ++ b! " " ++ msg)) rejected ;;
                flush_to_write)
         | [] => accepted_task repo ref_updates (default [] pack_meta) push_refs existing
         end))
  end.

(** ** Routing *)

Definition has_service (service query_string : bytes) : bool :=
  existsb (λ kv, bool_decide (kv = b! "service=" ++ service)) (split x26 query_string).

Fixpoint resolve_want_refs (repo : Repo) (names : list bytes) (args : FetchArgs) (s : store) :
    FetchArgs * store :=
  match names with
  | [] => (args, s)
  | n :: names' =>
      match sb_resolve_ref repo n s with
      | (Ok (Some oid), s') => resolve_want_refs repo names' (push_want oid args) s'
      | (_, s') => resolve_want_refs repo names' args s'
      end
  end.

Definition not_found : GitResponse :=
  {| status_code := 404; content_type := None; reader := None; resp_body := None |}.

Definition bad_content_type (ct : option bytes) (expected : bytes) : GitResponse :=
  {| status_code := 400; content_type := ct; reader := None;
     resp_body := Some (b! "Expected content type " ++ expected) |}.

Definition receive_request_type : bytes := b! "application/x-git-receive-pack-request".
Definition upload_request_type : bytes := b! "application/x-git-upload-pack-request".
Definition upload_advertisement_type : bytes := b! "application/x-git-upload-pack-advertisement".

Definition serve_git_protocol_1 (protocol_path query_string ctype : bytes)
    (limits : ProtocolLimits) (body : bytes) : HM GitResponse :=
  if decide (protocol_path = b! "info/refs" ∧ has_service (b! "git-receive-pack") query_string = true)
  then recv_pack_info_refs
  else if decide (protocol_path = b! "info/refs" ∧ has_service (b! "git-upload-pack") query_string = true)
  then
    res_try maybe_init ;;
    repo ← res_try (sb_open ra_repo_id);
    snapshot ← res_try (sb_list_refs repo);
    mret (streaming (Some upload_advertisement_type)
            (spawn_write (info_refs_upload_pack_v1_task (as_upload_pack_v1 snapshot))))
  else if decide (protocol_path = b! "git-receive-pack") then
    if decide (ctype ≠ receive_request_type)
    then mret (bad_content_type None receive_request_type)
    else recv_pack_post limits body
  else if decide (protocol_path = b! "git-upload-pack") then
    if decide (ctype ≠ upload_request_type)
    then mret (bad_content_type None upload_request_type)
    else
      repo ← res_try (sb_open ra_repo_id);
      args ← res_try (lift (read_fetch_args_v1 limits (packets_of body)));
      args ← step (resolve_want_refs repo (want_refs args) args);
      mret (streaming None (spawn (perform_fetch_v1 repo args)))
  else mret not_found.

Definition serve_git_protocol_2 (protocol_path query_string ctype : bytes)
    (limits : ProtocolLimits) (body : bytes) : HM GitResponse :=
  if decide (protocol_path = b! "info/refs" ∧ has_service (b! "git-receive-pack") query_string = true)
  then recv_pack_info_refs
  else if decide (protocol_path = b! "info/refs") then
    mret (streaming (Some upload_advertisement_type) (spawn_write info_refs_task))
  else if decide (protocol_path = b! "git-receive-pack") then
    if decide (ctype ≠ receive_request_type)
    then mret (bad_content_type None receive_request_type)
    else recv_pack_post limits body
  else if decide (protocol_path = b! "git-upload-pack") then
    if decide (ctype ≠ upload_request_type)
    then mret (bad_content_type (Some upload_advertisement_type) upload_request_type)
    else
      let '(command, parser) := read_command (packets_of body) in
      command ← res_try (lift command);
      match command with
      | ListRefs =>
          args ← res_try (lift (read_lsrefs_args limits parser).1);
          repo ← res_try (sb_open ra_repo_id);
          snapshot ← res_try (sb_list_refs repo);
          mret (streaming None (spawn_write (perform_listrefs snapshot args)))
      | Empty => mret not_found
      | Fetch =>
          repo ← res_try (sb_open ra_repo_id);
          args ← res_try (lift (read_fetch_args limits parser).1);
          args ← step (resolve_want_refs repo (want_refs args) args);
          mret (streaming None (spawn (perform_fetch repo args)))
      end
  else mret not_found.

(** ** The SSH sessions *)

Definition on_store_step {S W A} (f : S → A * S) : S * W → A * (S * W) :=
  fun '(s, w) => let '(a, s') := f s in (a, (s', w)).

(** The [want-ref] names of a session's fetch, resolved and added to its wants. *)
Definition resolve_session (repo : Repo) (args : FetchArgs) : ST (store * writer) FetchArgs :=
  fun x => let '(a, x') := on_store_step (resolve_want_refs repo (want_refs args) args) x
           in (Ok a, x').

(** The v2 command loop.  Each round consumes at least the command packet, so the
    number of packets bounds the rounds. *)
Fixpoint upload_pack_loop (fuel : nat) (limits : ProtocolLimits) (repo : Repo)
    (parser : packet_stream) : ST (store * writer) () :=
  match fuel with
  | O => mret ()
  | S fuel =>
      match read_command parser with
      | (Err _, _) => mret ()
      | (Ok ListRefs, p) =>
          let '(args, p') := read_lsrefs_args limits p in
          args ← lift args;
          snapshot ← on_store (sb_list_refs repo);
          on_writer (perform_listrefs snapshot args) ;;
          upload_pack_loop fuel limits repo p'
      | (Ok Fetch, p) =>
          let '(args, p') := read_fetch_args limits p in
          args ← lift args;
          args ← resolve_session repo args;
          perform_fetch repo args ;;
          upload_pack_loop fuel limits repo p'
      | (Ok Empty, _) => mret ()
      end
  end.

Definition serve_upload_pack (version : N) (limits : ProtocolLimits) (body : bytes) :
    ST (store * writer) () :=
  on_store maybe_init ;;
  repo ← on_store (sb_open ra_repo_id);
  if (2 <=? version)%N then
    on_writer capability_advertisement_v2 ;;
    upload_pack_loop (S (length (packets_of body))) limits repo (packets_of body)
  else
    snapshot ← on_store (sb_list_refs repo);
    on_writer (upload_pack_v1_refs (as_upload_pack_v1 snapshot)) ;;
    args ← lift (read_fetch_args_v1 limits (packets_of body));
    args ← resolve_session repo args;
    perform_fetch_v1 repo args.

Definition SM : Type → Type := Flow (store * writer) (result error ()).

(** Write the rejection report, then [return Ok(())]. *)
Definition reject_session {A} (updates : list RefUpdate) (msg : bytes) : SM A :=
  try_ (on_writer (reject_report (refname <$> updates) msg)) ;; early (Ok ()).

Definition inspect_session (updates : list RefUpdate) (written_pack : option IngestedPack) :
    SM (option PackMetadata) := fun '(s, w) =>
  match written_pack with
  | None => (Go None, (s, w))
  | Some pack =>
      match sb_inspect_ingested pack s with
      | (Ok meta, s') => (Go (Some meta), (s', w))
      | (Err e, s') =>
          reject_session updates (inspection_failed e) (sb_rollback_ingest pack s', w)
      end
  end.

Definition serve_receive_pack (limits : ProtocolLimits) (body : bytes) : SM (result error ()) :=
  try_ (on_store maybe_init) ;;
  repo ← try_ (on_store (sb_open ra_repo_id));
  snapshot ← try_ (on_store (sb_list_refs repo));
  try_ (on_writer (info_refs_receive_pack_task (as_receive_pack snapshot))) ;;
  '(ref_updates, rest) ← try_ (lift (read_receive_request limits body));
  match ra_authorize_preliminary (build_push_refs ref_updates preliminary_push_kind) with
  | Err msg => reject_session ref_updates msg
  | Ok push_ctx =>
      written_pack ← try_ (on_store (stage_and_ingest repo rest));
      pack_meta ← inspect_session ref_updates written_pack;
      push_refs ← step (on_store_step (build_push_refs_async ref_updates repo));
      existing ← step (on_store_step (existing_ref_tips repo push_refs));
      auth_result ← may_panic (on_store_step
        (run_comparison repo (default [] pack_meta) push_refs existing default_options
           (ra_authorize_push push_ctx)));
      match auth_result with
      | Err msg =>
          step (on_store_step (fun s => ((), rollback written_pack s))) ;;
          reject_session ref_updates msg
      | Ok _ =>
          try_ (update_refs_and_report repo ref_updates) ;;
          post_refs ← step (on_store_step (build_push_refs_async ref_updates repo));
          may_panic (on_store_step
            (run_comparison repo (default [] pack_meta) post_refs existing default_options
               ra_post_receive)) ;;
          mret (Ok ())
      end
  end.
End serve.

(** ** Preservation for early-return computations *)

Section flow_pres.
Context {S T : Type} (V : S → T).

Lemma pres_flow_ret {E A} (a : A) : pres V (mret (M := Flow S E) a).
Proof. by intros s. Qed.

Lemma pres_flow_bind {E A B} (m : Flow S E A) (f : A → Flow S E B) :
  pres V m → (∀ a, pres V (f a)) → pres V (m ≫= f).
Proof.
  intros Hm Hf s. unfold mbind, Flow_bind. specialize (Hm s).
  destruct (m s) as [[a|e|] s']; simpl in *; [by rewrite Hf|done..].
Qed.

(** The same, with what is known of the result of the first step. *)
Lemma pres_flow_bind_with {E A B} (P : A → Prop) (m : Flow S E A) (f : A → Flow S E B) :
  pres V m → (∀ s a s', m s = (Go a, s') → P a) → (∀ a, P a → pres V (f a)) → pres V (m ≫= f).
Proof.
  intros Hm HP Hf s. unfold mbind, Flow_bind. specialize (Hm s). specialize (HP s).
  destruct (m s) as [[a|e|] s']; simpl in *; [rewrite Hf; eauto|done..].
Qed.

Lemma pres_early {E A} (e : E) : pres V (early (A := A) e).
Proof. by intros s. Qed.

Lemma pres_step {E A} (f : S → A * S) : pres V f → pres V (step (E := E) f).
Proof. intros Hf s. unfold step. specialize (Hf s). by destruct (f s). Qed.

Lemma pres_may_panic {E A} (f : S → option A * S) : pres V f → pres V (may_panic (E := E) f).
Proof. intros Hf s. unfold may_panic. specialize (Hf s). by destruct (f s) as [[]]. Qed.

Lemma returned_keeps {E} (m : Flow S E E) s o s' :
  pres V m → returned m s = (o, s') → V s' = V s.
Proof.
  intros Hm Hr. specialize (Hm s). unfold returned in Hr. by destruct (m s) as [[]]; simplify_eq/=.
Qed.

Lemma pres_try {X A} (m : ST S A) : pres V m → pres V (try_ (X := X) m).
Proof. intros Hm s. unfold try_. specialize (Hm s). by destruct (m s) as [[]]. Qed.
End flow_pres.

Lemma pres_on_store_step {S W A T} (V : S → T) (f : S → A * S) :
  pres V f → pres (λ x : S * W, V x.1) (on_store_step f).
Proof. intros Hf [s w]. simpl. specialize (Hf s). by destruct (f s). Qed.

#[export] Hint Resolve pres_flow_ret pres_flow_bind pres_early pres_step pres_may_panic pres_try
  pres_on_store_step : mizzle.

(** Preservation goals are solved along the structure of the computation. *)
Ltac solve_pres := walk_pres ltac:(apply pres_flow_bind).

(** ** Refs under the pipeline *)

Section refs_kept.
Context `{RefsLaws} {access : RepoAccess} {transport : Transport} (r : Repo).

Lemma pres_res_try {A} (m : ST store A) : pres (refs_view r) m → pres (refs_view r) (res_try m).
Proof. intros Hm s. unfold res_try. specialize (Hm s). by destruct (m s) as [[]]. Qed.

Lemma pres_maybe_init : pres (refs_view r) maybe_init.
Proof. unfold maybe_init. destruct ra_auto_init; [apply pres_init_repo|apply pres_ret]. Qed.

Lemma pres_build_push_refs us repo : pres (refs_view r) (build_push_refs_async us repo).
Proof.
  induction us as [|u us IH]; intros s; simpl; [done|].
  pose proof (push_kind_refs repo u s r) as Hk.
  destruct (sb_compute_push_kind repo u s) as [k s1]; simpl in *.
  specialize (IH s1). destruct (build_push_refs_async us repo s1); simpl in *. congruence.
Qed.

Lemma pres_existing repo prs : pres (refs_view r) (existing_ref_tips repo prs).
Proof.
  intros s. unfold existing_ref_tips. pose proof (list_refs_refs repo s r).
  by destruct (sb_list_refs repo s) as [[]].
Qed.

Lemma pres_stage repo rest : pres (refs_view r) (stage_and_ingest repo rest).
Proof.
  unfold stage_and_ingest. apply pres_bind; [apply pres_lift|].
  intros [p|]; [apply pres_ingest|apply pres_ret].
Qed.

(** A pack that the handlers may roll back. *)
Definition written (p : option IngestedPack) : Prop := match p with Some p => ingested p | None => True end.

Lemma stage_gives repo rest s wp s' : stage_and_ingest repo rest s = (Ok wp, s') → written wp.
Proof.
  unfold stage_and_ingest, mbind, ST_bind, lift. destruct (stage_pack _ _) as [[p|]|]; [|by intros [= <- _]|done].
  intros Hi. destruct wp; [by eapply ingest_gives|done].
Qed.

Lemma rollback_keeps p s : written p → refs_view r (rollback p s) = refs_view r s.
Proof. destruct p; simpl; [apply rollback_refs|done]. Qed.

Lemma pres_inspect_or_reject us p : written p → pres (refs_view r) (inspect_or_reject us p).
Proof.
  intros Hp s. destruct p as [p|]; simpl; [|done]. pose proof (inspect_refs p s r) as Hi.
  destruct (sb_inspect_ingested p s) as [[] s']; simpl in *; [done|by rewrite rollback_refs].
Qed.

Lemma pres_run_comparison {R} repo pack prs ex opts (p : Policy R) :
  pres (refs_view r) (run_comparison repo pack prs ex opts p).
Proof. intros s. apply run_comparison_refs. Qed.

Lemma pres_resolve_want repo ns args : pres (refs_view r) (resolve_want_refs repo ns args).
Proof.
  revert args; induction ns as [|n ns IH]; intros args s; simpl; [done|].
  pose proof (resolve_ref_refs repo n s r) as Hr.
  destruct (sb_resolve_ref repo n s) as [[[o|]|e] s']; simpl in *; by rewrite IH.
Qed.

Lemma pres_resolve_session repo args :
  pres (λ x, refs_view r x.1) (resolve_session repo args).
Proof.
  intros x. pose proof (pres_on_store_step (W := writer) (refs_view r) _
    (pres_resolve_want repo (want_refs args) args) x) as Hx.
  unfold resolve_session. by destruct (on_store_step _ x).
Qed.

Lemma pres_reject us (auth : result bytes ()) p :
  written p →
  pres (refs_view r) (fun s =>
    match auth with
    | Err msg => ((λ u, (refname u, msg)) <$> us, rollback p s)
    | Ok _ => ([], s)
    end).
Proof. intros Hp s. destruct auth; simpl; [done|by apply rollback_keeps]. Qed.
End refs_kept.

#[export] Hint Resolve pres_res_try pres_maybe_init pres_build_push_refs pres_existing pres_stage
  pres_inspect_or_reject pres_run_comparison pres_resolve_want pres_resolve_session
  pres_reject : mizzle.

Section handlers_keep_refs.
Context `{RefsLaws} {access : RepoAccess} {transport : Transport} (r : Repo).

Lemma recv_pack_post_keeps limits body : pres (refs_view r) (recv_pack_post limits body).
Proof.
  unfold recv_pack_post. apply pres_flow_bind; [solve_pres|]. intros [us rest].
  destruct (ra_authorize_preliminary _); [|solve_pres]. apply pres_flow_bind; [solve_pres|]. intros repo.
  apply (pres_flow_bind_with _ written); [solve_pres| |solve_pres].
  intros s wp s'. unfold res_try. destruct (stage_and_ingest repo rest s) as [[]] eqn:E; [|done].
  intros [= <- _]. by eapply stage_gives.
Qed.

Lemma serve_git_protocol_1_keeps path query ct limits body :
  pres (refs_view r) (serve_git_protocol_1 path query ct limits body).
Proof. unfold serve_git_protocol_1. pose proof (recv_pack_post_keeps limits body). solve_pres. Qed.

Lemma serve_git_protocol_2_keeps path query ct limits body :
  pres (refs_view r) (serve_git_protocol_2 path query ct limits body).
Proof. unfold serve_git_protocol_2. pose proof (recv_pack_post_keeps limits body). solve_pres. Qed.
End handlers_keep_refs.

(** ** What a push may do to the refs *)

Section push.
Context `{RefsLaws} {access : RepoAccess} {transport : Transport}.

Definition update_triple (u : RefUpdate) : bytes * ObjectId * ObjectId :=
  (refname u, old_oid u, new_oid u).
Definition push_triple (p : PushRef) : bytes * ObjectId * ObjectId :=
  (pr_refname p, pr_old_oid p, pr_new_oid p).

(** The forge accepted exactly these updates, twice: from the command list alone, and
    through a comparison that shows it those updates. *)
Definition accepted (limits : ProtocolLimits) (body : bytes) (us : list RefUpdate) (repo : Repo) : Prop :=
  ∃ rest ctx meta prs existing s,
    read_receive_request limits body = Ok (us, rest) ∧
    ra_authorize_preliminary (build_push_refs us preliminary_push_kind) = Ok ctx ∧
    push_triple <$> prs = update_triple <$> us ∧
    (run_comparison repo meta prs existing default_options (ra_authorize_push ctx) s).1 = Some (Ok ()).

Lemma build_push_refs_triples us repo s :
  push_triple <$> (build_push_refs_async us repo s).1 = update_triple <$> us.
Proof.
  revert s; induction us as [|u us IH]; intros s; simpl; [done|].
  destruct (sb_compute_push_kind repo u s) as [k s1]. specialize (IH s1).
  destruct (build_push_refs_async us repo s1) as [prs s2]. cbn [fst] in *.
  by rewrite !fmap_cons, IH.
Qed.

(** The future of a response either only writes, or updates the refs of a push that was
    accepted or is empty. *)
Lemma recv_pack_post_task limits body s resp s1 t :
  returned (recv_pack_post limits body) s = (Some resp, s1) → reader resp = Some t →
  (∃ m, t = spawn_write m) ∨
  ∃ repo us meta prs existing,
    t = accepted_task repo us meta prs existing ∧
    (us = [] ∨ accepted limits body us repo).
Proof.
  unfold returned, recv_pack_post. unfold mbind at 1, Flow_bind at 1, res_try at 1, lift at 1.
  destruct (read_receive_request limits body) as [[us rest]|e] eqn:Hreq;
    [|by intros [= <- <-]; simpl].
  destruct (ra_authorize_preliminary _) as [ctx|msg] eqn:Hpre;
    [|by intros [= <- <-] [= <-]; left; eexists].
  unfold mbind, Flow_bind, res_try.
  destruct (sb_open ra_repo_id s) as [[repo|e] s2]; [|by intros [= <- <-]].
  destruct (stage_and_ingest repo rest s2) as [[wp|e] s3]; [|by intros [= <- <-]].
  destruct (inspect_or_reject us wp s3) as [[meta|r'|] s4] eqn:Hi; [| |done].
  2: { intros [= <- <-] Ht. left. unfold inspect_or_reject in Hi.
       destruct wp as [p|]; [|done]. destruct (sb_inspect_ingested p s3) as [[]]; [done|].
       injection Hi as <- <-. injection Ht as <-. by eexists. }
  unfold step, may_panic.
  pose proof (build_push_refs_triples us repo s4) as Htr.
  destruct (build_push_refs_async us repo s4) as [prs s5]. simpl in Htr.
  destruct (existing_ref_tips repo prs s5) as [ex s6].
  destruct (run_comparison _ _ _ _ _ _ s6) as [[auth|] s7] eqn:Hrun; [|done].
  destruct auth as [[]|msg]; intros [= <- <-] [= <-].
  - right. exists repo, us, (default [] meta), prs, ex. split; [done|]. right.
    exists rest, ctx, (default [] meta), prs, ex, s6. rewrite Hrun. done.
  - destruct us as [|u us]; simpl; [|left; by eexists].
    right. exists repo, [], (default [] meta), prs, ex. split; [done|]. by left.
Qed.

(** The refs of [r] are as before, or the updates were applied to them. *)
Definition updated_or_kept (us : list RefUpdate) (repo r : Repo) (s s' : store) : Prop :=
  refs_view r s' = refs_view r s ∨
  repo_tag r = repo_tag repo ∧ ref_effect us (refs_view r s) (refs_view r s').

Lemma updated_by repo us s x s' r : sb_update_refs repo us s = (x, s') → updated_or_kept us repo r s s'.
Proof.
  intros Hu. destruct (decide (repo_tag r = repo_tag repo)) as [E|E].
  - destruct (update_refs_effect _ _ _ _ _ Hu) as [Hk|He]; [left|right; split; [done|]];
      by rewrite !(refs_view_tag _ _ _ E).
  - left. by eapply update_refs_frame.
Qed.

Lemma update_refs_and_report_refs repo us s w x s' w' r :
  update_refs_and_report repo us (s, w) = (x, (s', w')) → updated_or_kept us repo r s s'.
Proof.
  unfold update_refs_and_report, mbind, ST_bind, on_store, with_context.
  destruct (sb_update_refs repo us s) as [[[]|e] s1] eqn:Hu; cbn [map_err];
    pose proof (updated_by _ _ _ _ _ r Hu) as Hk; [|by intros [= <- <- <-]].
  unfold on_writer. destruct (text_to_write _ w) as [[]]; [|by intros [= <- <- <-]].
  by destruct (for_each _ _ _) as [[]]; [destruct (flush_to_write _)|]; intros [= <- <- <-].
Qed.

Lemma accepted_task_refs repo us meta prs ex s w s' w' r :
  accepted_task repo us meta prs ex (s, w) = (s', w') → updated_or_kept us repo r s s'.
Proof.
  unfold accepted_task.
  destruct (update_refs_and_report repo us (s, w)) as [x [s1 w1]] eqn:Hu.
  pose proof (update_refs_and_report_refs _ _ _ _ _ _ _ r Hu) as Hk.
  destruct x; [|by intros [= <- <-]].
  pose proof (run_comparison_refs repo meta prs ex default_options ra_post_receive s1 r) as Hr.
  destruct (run_comparison _ _ _ _ _ _ s1) as [? s2]. intros [= <- <-].
  unfold updated_or_kept in *. simpl in Hr. by rewrite Hr.
Qed.

(** The future of a push over HTTP, on any backend and whenever it runs: it leaves the refs of
    every repository alone, or the forge accepted the updates of the request and the backend
    makes of the refs what it may make of them with these updates. *)
Lemma http_task_refs limits body s resp s1 t s' w s2 w2 :
  returned (recv_pack_post limits body) s = (Some resp, s1) → reader resp = Some t →
  t (s', w) = (s2, w2) →
  ∀ r, refs_view r s2 = refs_view r s' ∨
       ∃ us repo, accepted limits body us repo ∧ repo_tag r = repo_tag repo ∧
                  ref_effect us (refs_view r s') (refs_view r s2).
Proof.
  intros Hh Ht Hrun r.
  destruct (recv_pack_post_task _ _ _ _ _ _ Hh Ht) as [[m ->]|(repo & us & meta & prs & ex & -> & Ha)].
  - left. unfold spawn_write, spawn, on_writer in Hrun. by destruct (m w); simplify_eq/=.
  - destruct (accepted_task_refs _ _ _ _ _ _ _ _ _ r Hrun) as [Hk|[Htag He]]; [by left|].
    destruct Ha as [->|Ha]; [|right; eauto 8]. left. by apply ref_effect_nil.
Qed.

(** A push over HTTP whose future runs right after the handler. *)
Lemma http_push_refs limits body s resp s1 t w s2 w2 :
  returned (recv_pack_post limits body) s = (Some resp, s1) → reader resp = Some t →
  t (s1, w) = (s2, w2) →
  ∀ r, refs_view r s2 = refs_view r s ∨
       ∃ us repo, accepted limits body us repo ∧ repo_tag r = repo_tag repo ∧
                  ref_effect us (refs_view r s) (refs_view r s2).
Proof.
  intros Hh Ht Hrun r.
  assert (refs_view r s1 = refs_view r s) as <-; [|by eapply http_task_refs].
  by apply (returned_keeps (refs_view r) _ _ _ _ (recv_pack_post_keeps r limits body) Hh).
Qed.

(** A computation that relates the refs before and after by [updated_or_kept]. *)
Lemma reject_session_refs {A} us msg : ∀ r, pres (λ x, refs_view r x.1) (reject_session (A := A) us msg).
Proof. intros r. unfold reject_session. solve_pres. Qed.

Lemma inspect_session_refs us p : written p → ∀ r, pres (λ x, refs_view r x.1) (inspect_session us p).
Proof.
  intros Hp r [s w]. destruct p as [p|]; [|done]. cbn [inspect_session].
  pose proof (inspect_refs p s r) as Hi. destruct (sb_inspect_ingested p s) as [[] s']; [done|].
  rewrite reject_session_refs. cbn [fst snd] in *. by rewrite rollback_refs.
Qed.

(** A preserving step, then the rest: the rest did not run, or ran from a state with
    the same view. *)
Lemma flow_bind_inv {S E A B T} (V : S → T) (m : Flow S E A) (f : A → Flow S E B) x o x' :
  pres V m → (m ≫= f) x = (o, x') →
  V x' = V x ∨ ∃ a x1, m x = (Go a, x1) ∧ V x1 = V x ∧ f a x1 = (o, x').
Proof.
  intros Hm. unfold mbind, Flow_bind. specialize (Hm x).
  destruct (m x) as [[a|e|] x1]; simpl in Hm; [|by intros [= <- <-]; left..].
  intros Hf. right. eauto.
Qed.

(** The refs of [r] in a session's state. *)
Definition session_refs (r : Repo) (x : store * writer) : RefsView := refs_view r x.1.

(** Steps that leave the refs alone: the session stopped there, or went on with the
    same refs. *)
Tactic Notation "keeps" constr(r) "in" ident(H) "as" simple_intropattern(p) :=
  let Hk := fresh "Hk" in
  apply (flow_bind_inv (session_refs r)) in H as [Hk|p];
  [by left| |first [by apply inspect_session_refs|unfold session_refs; solve_pres]].

Lemma rejected_session_refs us msg r x (o : flow (result error ()) (result error ())) x' :
  reject_session us msg x = (o, x') → session_refs r x' = session_refs r x.
Proof.
  intros Hr. pose proof (reject_session_refs (A := result error ()) us msg r x) as Hk.
  by rewrite Hr in Hk.
Qed.

Lemma session_update_refs {A} repo us (k : () → SM A) s w o s' w' r :
  (∀ a, pres (session_refs r) (k a)) →
  (try_ (update_refs_and_report repo us) ≫= k) (s, w) = (o, (s', w')) →
  updated_or_kept us repo r s s'.
Proof.
  intros Hk. unfold mbind, Flow_bind, try_.
  destruct (update_refs_and_report repo us (s, w)) as [rep [s1 w1]] eqn:Hrep. intros Hrun.
  apply (update_refs_and_report_refs _ _ _ _ _ _ _ r) in Hrep.
  assert (refs_view r s' = refs_view r s1) as E.
  { destruct rep as [a|]; [|by simplify_eq]. specialize (Hk a (s1, w1)). by rewrite Hrun in Hk. }
  unfold updated_or_kept in *. by rewrite E.
Qed.

(** The same over SSH, however the session ends. *)
Lemma ssh_push_refs limits body s w o s2 w2 :
  returned (serve_receive_pack limits body) (s, w) = (o, (s2, w2)) →
  ∀ r, refs_view r s2 = refs_view r s ∨
       ∃ us repo, accepted limits body us repo ∧ repo_tag r = repo_tag repo ∧
                  ref_effect us (refs_view r s) (refs_view r s2).
Proof.
  intros Hret r. revert Hret. unfold returned. intros Hret.
  destruct (serve_receive_pack limits body (s, w)) as [fl [s' w']] eqn:Hrun.
  assert (s' = s2) as -> by (destruct fl; by simplify_eq). clear Hret w2.
  change (refs_view r s2) with (session_refs r (s2, w')).
  change (refs_view r s) with (session_refs r (s, w)). unfold serve_receive_pack in Hrun.
  keeps r in Hrun as ([] & x1 & _ & <- & Hrun). keeps r in Hrun as (repo & x2 & _ & <- & Hrun).
  keeps r in Hrun as (snap & x3 & _ & <- & Hrun). keeps r in Hrun as ([] & x4 & _ & <- & Hrun).
  keeps r in Hrun as ([us rest] & x5 & Hreq & <- & Hrun).
  unfold try_, lift in Hreq. destruct (read_receive_request _ _) as [q|] eqn:Hq; simplify_eq.
  destruct (ra_authorize_preliminary _) as [ctx|msg] eqn:Hpre; [|left; by eapply rejected_session_refs].
  keeps r in Hrun as (wp & [s6 w6] & Hwp & <- & Hrun).
  assert (written wp) as Hw.
  { unfold try_, on_store in Hwp. destruct x5 as [s5 w5]. destruct (stage_and_ingest repo rest s5) as [[] s5'] eqn:E;
      simplify_eq/=. by eapply stage_gives. }
  keeps r in Hrun as (meta & [s7 w7] & _ & <- & Hrun).
  keeps r in Hrun as (prs & [s8 w8] & Hprs & <- & Hrun).
  keeps r in Hrun as (ex & [s9 w9] & Hex & <- & Hrun).
  keeps r in Hrun as (auth & [s10 w10] & Hauth & <- & Hrun). destruct auth as [[]|msg].
  - apply (session_update_refs _ _ _ _ _ _ _ _ r) in Hrun as [Hk|[Htag Hcas]]; [by left|right|].
    2: { intros a. unfold session_refs. solve_pres. }
    exists us, repo. split_and!; [|done|done].
    exists rest, ctx, (default [] meta), prs, ex, s9. split_and!; [done|done| |].
    + pose proof (build_push_refs_triples us repo s7) as Ht. unfold step, on_store_step in Hprs.
      by destruct (build_push_refs_async us repo s7); simplify_eq/=.
    + unfold may_panic, on_store_step in Hauth.
      by destruct (run_comparison _ _ _ _ _ _ s9) as [[]]; simplify_eq/=.
  - left. apply (flow_bind_inv (session_refs r)) in Hrun as [Hk|([] & x11 & _ & <- & Hrun)]; [done| |].
    + by eapply rejected_session_refs.
    + unfold session_refs. apply pres_step, pres_on_store_step. intros s0. by apply rollback_keeps.
Qed.
End push.

(** On a backend that keeps the documented contract, a push is compare-and-swap. *)
Section push_contract.
Context `{BackendLaws} {access : RepoAccess} {transport : Transport}.

(** (C1) A push over HTTP changes refs only if the forge accepted it: after the
    handler and the future it spawned have run, on any writer, the refs of every
    repository are what they were, unless both authorisation steps accepted exactly the
    updates of the request; then the refs of the repository are the result of applying
    those updates by compare-and-swap, all of them, and no other repository changed. *)
Theorem http_push_authorized limits body s resp s1 t w s2 w2 :
  returned (recv_pack_post limits body) s = (Some resp, s1) → reader resp = Some t →
  t (s1, w) = (s2, w2) →
  ∀ r, refs_view r s2 = refs_view r s ∨
       ∃ us repo, accepted limits body us repo ∧ repo_tag r = repo_tag repo ∧
                  cas_updates (refs_view r s) us = Some (refs_view r s2).
Proof.
  intros Hh Ht Hrun r. destruct (http_push_refs _ _ _ _ _ _ _ _ _ Hh Ht Hrun r) as [?|(us & repo & ? & ? & ?)];
    [by left|right]. eauto 10 using ref_effect_cas.
Qed.

(** (C2) The same over SSH, for every way the session ends (an accepted or a rejected
    push, an error, a closed channel, a panicking policy): refs change only to the
    result of applying a push the forge accepted. *)
Theorem ssh_push_authorized limits body s w o s2 w2 :
  returned (serve_receive_pack limits body) (s, w) = (o, (s2, w2)) →
  ∀ r, refs_view r s2 = refs_view r s ∨
       ∃ us repo, accepted limits body us repo ∧ repo_tag r = repo_tag repo ∧
                  cas_updates (refs_view r s) us = Some (refs_view r s2).
Proof.
  intros Hret r. destruct (ssh_push_refs _ _ _ _ _ _ _ Hret r) as [?|(us & repo & ? & ? & ?)]; [by left|right].
  eauto 10 using ref_effect_cas.
Qed.
End push_contract.

(** ** Rejections *)

Section rejections.
Context `{StorageBackend} {access : RepoAccess} {transport : Transport}.

Definition reject_packets (us : list RefUpdate) (msg : bytes) : list pkt :=
  PText (b! "unpack ok") ::
  ((λ u, PText (b! "ng " ++ refname u ++ b! " " ++ msg)) <$> us) ++ [PFlush].

Lemma reject_report_packets us msg :
  st_eq (reject_report (refname <$> us) msg) (write_all (reject_packets us msg)).
Proof.
  unfold reject_report, reject_packets. etransitivity; [apply report_packets|].
  by rewrite <- list_fmap_compose.
Qed.

Lemma spawn_write_run m l (s : store) w :
  st_eq m (write_all l) → spawn_write m (s, w) = (s, (write_all l w).2).
Proof.
  intros Hm. unfold spawn_write, spawn, on_writer. rewrite Hm. by destruct (write_all l w).
Qed.

Lemma ng_report_packets us (msg : bytes) :
  st_eq (text_to_write (b! "unpack ok") ;;
         for_each (λ '(name, m), text_to_write (b! "ng " ++ name ++ b! " " ++ m))
           ((λ u, (refname u, msg)) <$> us) ;;
         flush_to_write)
        (write_all (reject_packets us msg)).
Proof.
  unfold reject_packets.
  etransitivity; [|apply (report_packets (b! "unpack ok") (λ u, b! "ng " ++ refname u ++ b! " " ++ msg))].
  apply st_bind_proper; [intros ?|done]. apply st_bind_proper; [done|].
  induction us as [|u us IH]; [done|]. simpl. apply st_bind_proper; [intros ?; apply IH|done].
Qed.

Definition result_type : bytes := b! "application/x-git-receive-pack-result".

(** What the pipeline has reached when [authorize_push] is asked. *)
Record reaches_auth (limits : ProtocolLimits) (body : bytes) (s : store)
    (us : list RefUpdate) (ctx : PushContext) (repo : Repo) (wp : option IngestedPack)
    (meta : option PackMetadata) (prs : list PushRef) (ex : list ObjectId) (s6 : store) : Prop := {
  ra_request : ∃ rest s2 s3 s4 s5,
    read_receive_request limits body = Ok (us, rest) ∧
    ra_authorize_preliminary (build_push_refs us preliminary_push_kind) = Ok ctx ∧
    sb_open ra_repo_id s = (Ok repo, s2) ∧
    stage_and_ingest repo rest s2 = (Ok wp, s3) ∧
    inspect_or_reject us wp s3 = (Go meta, s4) ∧
    build_push_refs_async us repo s4 = (prs, s5) ∧
    existing_ref_tips repo prs s5 = (ex, s6);
}.

(** The whole handler, as a function of the policy's verdict. *)
Lemma recv_pack_post_verdict limits body s us ctx repo wp meta prs ex s6 :
  reaches_auth limits body s us ctx repo wp meta prs ex s6 →
  recv_pack_post limits body s =
  match run_comparison repo (default [] meta) prs ex default_options (ra_authorize_push ctx) s6 with
  | (None, s7) => (Panicked, s7)
  | (Some (Ok _), s7) =>
      (Go (streaming (Some result_type) (accepted_task repo us (default [] meta) prs ex)), s7)
  | (Some (Err msg), s7) =>
      (Go (streaming (Some result_type)
         (match (λ u, (refname u, msg)) <$> us with
          | [] => accepted_task repo us (default [] meta) prs ex
          | rejected =>
              spawn_write
                (text_to_write (b! "unpack ok") ;;
                 for_each (λ '(name, m), text_to_write (b! "ng " ++ name ++ b! " " ++ m)) rejected ;;
                 flush_to_write)
          end)), rollback wp s7)
  end.
Proof.
  intros [(rest & s2 & s3 & s4 & s5 & Hreq & Hpre & Hop & Hst & Hi & Hb & He)].
  unfold recv_pack_post. unfold mbind at 1, Flow_bind at 1, res_try at 1, lift at 1.
  rewrite Hreq, Hpre. unfold mbind, Flow_bind, res_try. rewrite Hop, Hst, Hi.
  unfold step, may_panic. rewrite Hb, He.
  destruct (run_comparison _ _ _ _ _ _ s6) as [[[[]|msg]|] s7]; [done| |done].
  by destruct us.
Qed.

(** (C3) A rejected push reports the reason for every ref and does nothing else: when
    the preliminary check says no, nothing of the store is touched; when
    [authorize_push] says no to a push with updates, the ingested pack is rolled back.
    Either way the answer is a 200 whose body is [unpack ok], one [ng <ref> <reason>]
    line per update in order, and a flush, and [update_refs] is never called. *)
Theorem http_push_rejected limits body s us rest msg :
  read_receive_request limits body = Ok (us, rest) →
  (ra_authorize_preliminary (build_push_refs us preliminary_push_kind) = Err msg →
   ∃ t, recv_pack_post limits body s = (Go (streaming (Some result_type) t), s) ∧
        ∀ w, t (s, w) = (s, (write_all (reject_packets us msg) w).2)) ∧
  (∀ ctx repo wp meta prs ex s6 s7,
   reaches_auth limits body s us ctx repo wp meta prs ex s6 → us ≠ [] →
   run_comparison repo (default [] meta) prs ex default_options (ra_authorize_push ctx) s6
     = (Some (Err msg), s7) →
   ∃ t, recv_pack_post limits body s = (Go (streaming (Some result_type) t), rollback wp s7) ∧
        ∀ s' w, t (s', w) = (s', (write_all (reject_packets us msg) w).2)).
Proof.
  intros Hreq. split.
  - intros Hpre. unfold recv_pack_post.
    unfold mbind at 1, Flow_bind at 1, res_try at 1, lift at 1. rewrite Hreq, Hpre.
    eexists. split; [done|]. intros w. apply spawn_write_run, reject_report_packets.
  - intros ctx repo wp meta prs ex s6 s7 Hra Hus Hrun.
    rewrite (recv_pack_post_verdict _ _ _ _ _ _ _ _ _ _ _ Hra), Hrun.
    eexists. split; [done|]. intros s' w. destruct us as [|u us]; [done|].
    apply spawn_write_run. apply (ng_report_packets (u :: us)).
Qed.

(** (C40) A push without ref updates escapes the rejection: when [authorize_push]
    rejects a request that carries a pack but no commands, the pack is rolled back and
    then the success path runs all the same: the client reads [unpack ok] and a flush,
    and the forge's [post_receive] is called for the push it has just rejected. *)
Theorem empty_push_rejection_ignored limits body s ctx repo wp meta prs ex s6 s7 msg :
  reaches_auth limits body s [] ctx repo wp meta prs ex s6 →
  run_comparison repo (default [] meta) prs ex default_options (ra_authorize_push ctx) s6
    = (Some (Err msg), s7) →
  ∃ t, recv_pack_post limits body s = (Go (streaming (Some result_type) t), rollback wp s7) ∧
       ∀ s' s'' out, sb_update_refs repo [] s' = (Ok (), s'') →
         t (s', Writer out (λ _ _, Ok ())) =
         ((run_comparison repo (default [] meta) prs ex default_options ra_post_receive s'').2,
          Writer (out ++ [PText (b! "unpack ok"); PFlush]) (λ _ _, Ok ())).
Proof.
  intros Hra Hrun. rewrite (recv_pack_post_verdict _ _ _ _ _ _ _ _ _ _ _ Hra), Hrun.
  eexists. split; [done|]. intros s' s'' out Hu. cbn [fmap list_fmap]. unfold accepted_task.
  unfold update_refs_and_report, mbind at 1, ST_bind at 1, on_store at 1, with_context. rewrite Hu.
  cbn [map_err]. rewrite (on_writer_st _ _ _ _ (report_packets _ (λ u, b! "ok " ++ refname u) [])).
  rewrite on_writer_write_all, write_all_open.
  by destruct (run_comparison _ _ _ _ _ _ s'').
Qed.
End rejections.

(** ** Reading services never write *)

Section upload_read_only.
Context `{RefsLaws} {access : RepoAccess} {transport : Transport} (r : Repo).

Lemma pres_try_opts args : pres (session_refs r) (lift (pack_options args)).
Proof. apply pres_lift. Qed.

Lemma pres_send_pack repo args hv : pres (session_refs r) (send_pack repo args hv).
Proof. unfold session_refs, send_pack. solve_pres. Qed.

Lemma pres_perform_fetch repo args : pres (session_refs r) (perform_fetch repo args).
Proof.
  unfold perform_fetch. pose proof (pres_send_pack repo args). unfold session_refs in *. solve_pres.
Qed.

Lemma pres_perform_fetch_v1 repo args : pres (session_refs r) (perform_fetch_v1 repo args).
Proof. unfold session_refs, perform_fetch_v1. solve_pres. Qed.

(** A response whose future leaves the refs alone. *)
Definition response_keeps (resp : GitResponse) : Prop :=
  ∀ t s w, reader resp = Some t → refs_view r (t (s, w)).1 = refs_view r s.

Lemma spawn_keeps ct (m : ST (store * writer) ()) :
  pres (session_refs r) m → response_keeps (streaming ct (spawn m)).
Proof. intros Hm t s w [= <-]. apply (Hm (s, w)). Qed.

Lemma spawn_write_keeps ct m : response_keeps (streaming ct (spawn_write m)).
Proof. apply spawn_keeps. unfold session_refs. apply pres_on_writer. Qed.

(** Every response a handler can return satisfies [P]. *)
Definition returns {S E} (P : E → Prop) (m : Flow S E E) : Prop :=
  ∀ s e s', returned m s = (Some e, s') → P e.

Lemma returns_ret {S E} (P : E → Prop) e : P e → returns P (mret (M := Flow S E) e).
Proof. by intros HP s e' s' [= <- <-]. Qed.

Lemma returns_bind {S E A} (P : E → Prop) (m : Flow S E A) (f : A → Flow S E E) :
  (∀ s e s', m s = (Return e, s') → P e) → (∀ a, returns P (f a)) → returns P (m ≫= f).
Proof.
  intros Hm Hf s e s'. unfold returned, mbind, Flow_bind.
  destruct (m s) as [[a|e'|] s1] eqn:E1; [apply Hf| |done]. intros [= <- <-]. by eapply Hm.
Qed.

Lemma returns_res_try {A} (P : GitResponse → Prop) (m : ST store A) f :
  (∀ e, P (internal_error e)) → (∀ a, returns P (f a)) → returns P (res_try m ≫= f).
Proof.
  intros Hi Hf. apply returns_bind; [|done]. intros s e s'. unfold res_try.
  destruct (m s) as [[]]; [done|]. by intros [= <- <-].
Qed.

Lemma returns_step {S E A} (P : E → Prop) (g : S → A * S) (f : A → Flow S E E) :
  (∀ a, returns P (f a)) → returns P (step g ≫= f).
Proof.
  intros Hf. apply returns_bind; [|done]. intros s e s'. unfold step. by destruct (g s).
Qed.

Lemma internal_error_keeps e : response_keeps (internal_error e).
Proof. by intros t s w. Qed.
Lemma not_found_keeps : response_keeps not_found.
Proof. by intros t s w. Qed.
Lemma bad_content_type_keeps ct e : response_keeps (bad_content_type ct e).
Proof. by intros t s w. Qed.
End upload_read_only.

#[export] Hint Resolve spawn_write_keeps internal_error_keeps not_found_keeps
  bad_content_type_keeps : mizzle.

(** The handlers, along the structure of their code. *)
Ltac solve_returns :=
  repeat first
    [ progress intros
    | contradiction | assumption
    | apply returns_res_try | apply returns_step | apply returns_ret
    | match goal with |- returns _ (let '(_, _) := ?p in _) => destruct p end
    | match goal with |- returns _ (match ?x with _ => _ end) => destruct x end
    | solve [eauto with mizzle nocore] ].

Section read_only_services.
Context `{RefsLaws} {access : RepoAccess} {transport : Transport}.

Lemma recv_pack_info_refs_reader r : returns (response_keeps r) recv_pack_info_refs.
Proof. unfold recv_pack_info_refs. solve_returns. Qed.

Lemma v1_reader r path query ct limits body :
  path ≠ b! "git-receive-pack" →
  returns (response_keeps r) (serve_git_protocol_1 path query ct limits body).
Proof.
  intros Hp. unfold serve_git_protocol_1. pose proof (recv_pack_info_refs_reader r).
  solve_returns. apply spawn_keeps, pres_perform_fetch_v1.
Qed.

Lemma v2_reader r path query ct limits body :
  path ≠ b! "git-receive-pack" →
  returns (response_keeps r) (serve_git_protocol_2 path query ct limits body).
Proof.
  intros Hp. unfold serve_git_protocol_2. pose proof (recv_pack_info_refs_reader r).
  solve_returns. apply spawn_keeps, pres_perform_fetch.
Qed.

Lemma upload_pack_loop_keeps r fuel limits repo p :
  pres (session_refs r) (upload_pack_loop fuel limits repo p).
Proof.
  revert p; induction fuel as [|fuel IH]; intros p; simpl; [by intros x|].
  pose proof (pres_perform_fetch r repo). unfold session_refs in *.
  destruct (read_command p) as [[[| |]|] p']; [| |by intros x..].
  - destruct (read_fetch_args limits p') as [args p'']. solve_pres.
  - destruct (read_lsrefs_args limits p') as [args p'']. solve_pres.
Qed.

Lemma upload_pack_keeps r version limits body s w :
  refs_view r (serve_upload_pack version limits body (s, w)).2.1 = refs_view r s.
Proof.
  assert (pres (session_refs r) (serve_upload_pack version limits body)) as Hp; [|apply (Hp (s, w))].
  pose proof (upload_pack_loop_keeps r). pose proof (pres_perform_fetch_v1 r).
  unfold serve_upload_pack, session_refs in *. solve_pres.
Qed.

(** (C25) Only a receive-pack POST can change refs: every other HTTP request of either
    protocol version, whatever its query, content type and body, leaves the refs of
    every repository alone, in the handler and in the future that streams its
    response; so does an SSH upload-pack session. *)
Theorem read_requests_keep_refs limits body r s w :
  (∀ path query ct resp s1 t,
     path ≠ b! "git-receive-pack" →
     returned (serve_git_protocol_1 path query ct limits body) s = (Some resp, s1) ∨
     returned (serve_git_protocol_2 path query ct limits body) s = (Some resp, s1) →
     refs_view r s1 = refs_view r s ∧
     (reader resp = Some t → refs_view r (t (s1, w)).1 = refs_view r s)) ∧
  (∀ version, refs_view r (serve_upload_pack version limits body (s, w)).2.1 = refs_view r s).
Proof.
  split.
  - intros path query ct resp s1 t Hp Hret.
    assert (refs_view r s1 = refs_view r s) as Hs1.
    { destruct Hret as [Hret|Hret]; apply (returned_keeps (refs_view r)) in Hret;
        auto using serve_git_protocol_1_keeps, serve_git_protocol_2_keeps. }
    split; [done|]. intros Ht. rewrite <- Hs1.
    destruct Hret as [Hret|Hret]; [apply v1_reader with (r := r) in Hret|apply v2_reader with (r := r) in Hret];
      auto.
  - intros version. apply upload_pack_keeps.
Qed.

(** Receive-pack does not depend on the protocol version: for the discovery
    request and the POST, the v1 and the v2 entry points return the same response and
    leave the same store, whatever the body and the forge. *)
Theorem receive_pack_version_agnostic path query ct limits body s :
  path = b! "git-receive-pack" ∨
  path = b! "info/refs" ∧ has_service (b! "git-receive-pack") query = true →
  serve_git_protocol_1 path query ct limits body s =
  serve_git_protocol_2 path query ct limits body s.
Proof.
  intros [->|[-> Hq]]; unfold serve_git_protocol_1, serve_git_protocol_2.
  - by rewrite !decide_False by (by vm_compute; intros [? _] || by vm_compute).
  - by rewrite !decide_True.
Qed.
End read_only_services.

(** ** Shape of the responses, and the length of a session *)

Section responses.
Context `{StorageBackend} {access : RepoAccess} {transport : Transport}.

(** A stream comes with status 200 and nothing else does; errors are plain bodies. *)
Definition response_ok (resp : GitResponse) : Prop :=
  match reader resp with
  | Some _ => status_code resp = 200%N ∧ resp_body resp = None
  | None => status_code resp ∈ [400; 404; 500]%N
  end.

Lemma streaming_ok ct t : response_ok (streaming ct t).
Proof. done. Qed.
Lemma internal_error_ok e : response_ok (internal_error e).
Proof. unfold response_ok. simpl. set_solver. Qed.
Lemma not_found_ok : response_ok not_found.
Proof. unfold response_ok. simpl. set_solver. Qed.
Lemma bad_content_type_ok ct e : response_ok (bad_content_type ct e).
Proof. unfold response_ok. simpl. set_solver. Qed.

Lemma returns_may_panic {S E A} (P : E → Prop) (g : S → option A * S) (f : A → Flow S E E) :
  (∀ a, returns P (f a)) → returns P (may_panic g ≫= f).
Proof.
  intros Hf. apply returns_bind; [|done]. intros s e s'. unfold may_panic. by destruct (g s) as [[]].
Qed.

Lemma returns_inspect P us wp f :
  (∀ msg, P (reject_response us msg)) → (∀ a, returns P (f a)) →
  returns P (inspect_or_reject us wp ≫= f).
Proof.
  intros Hr Hf. apply returns_bind; [|done]. intros s e s'. unfold inspect_or_reject.
  destruct wp as [p|]; [|done]. destruct (sb_inspect_ingested p s) as [[]]; [done|].
  by intros [= <- <-].
Qed.
End responses.

#[export] Hint Resolve streaming_ok internal_error_ok not_found_ok bad_content_type_ok : mizzle.

Section response_facts.
Context `{StorageBackend} {access : RepoAccess} {transport : Transport}.

Lemma recv_pack_info_refs_ok : returns response_ok recv_pack_info_refs.
Proof. unfold recv_pack_info_refs. solve_returns. Qed.

Lemma recv_pack_post_ok limits body : returns response_ok (recv_pack_post limits body).
Proof.
  unfold recv_pack_post. apply returns_res_try; [auto with mizzle|]. intros [us rest].
  destruct (ra_authorize_preliminary _); [|by apply returns_ret].
  do 2 (apply returns_res_try; [auto with mizzle|intros ?]).
  apply returns_inspect; [done|intros ?].
  do 2 (apply returns_step; intros ?). apply returns_may_panic; intros ?.
  solve_returns.
Qed.

(** (C36) Every HTTP response is well formed: exactly the streamed ones have status
    200, all others are a 400, a 404 or a 500 without a stream; a path that is none of
    the three Git endpoints is a 404 that never reaches the backend. *)
Theorem responses_well_formed path query ct limits body s resp s' :
  (returned (serve_git_protocol_1 path query ct limits body) s = (Some resp, s') ∨
   returned (serve_git_protocol_2 path query ct limits body) s = (Some resp, s') →
   response_ok resp) ∧
  (path ∉ [b! "info/refs"; b! "git-receive-pack"; b! "git-upload-pack"] →
   serve_git_protocol_1 path query ct limits body s = (Go not_found, s) ∧
   serve_git_protocol_2 path query ct limits body s = (Go not_found, s)).
Proof.
  pose proof recv_pack_info_refs_ok as Hi. pose proof (recv_pack_post_ok limits body) as Hp. split.
  - assert (returns response_ok (serve_git_protocol_1 path query ct limits body)) as Hr1.
    { unfold serve_git_protocol_1. solve_returns. }
    assert (returns response_ok (serve_git_protocol_2 path query ct limits body)) as Hr2.
    { unfold serve_git_protocol_2. solve_returns. }
    intros [Hr|Hr]; [by eapply Hr1|by eapply Hr2].
  - intros Hpath. rewrite !not_elem_of_cons in Hpath. destruct Hpath as (Hp1 & Hp2 & Hp3 & _).
    unfold serve_git_protocol_1, serve_git_protocol_2. by rewrite !decide_False by naive_solver.
Qed.

End response_facts.

Section session_length.
Context `{StorageBackend} {access : RepoAccess} {transport : Transport}.

Lemma skip_till_delimiter_length p : length (skip_till_delimiter p).2 ≤ length p.
Proof.
  induction p as [|[l|e] p IH]; simpl; [done| |lia]. destruct l; simpl; lia.
Qed.

Lemma read_args_loop_length {A} step (a : A) p : length (read_args_loop step a p).2 ≤ length p.
Proof.
  revert a; induction p as [|[l|e] p IH]; intros a; simpl; [done| |lia].
  destruct l as [d| | |]; simpl; try lia.
  destruct (step a d) as [a'|e]; simpl; [specialize (IH a')|]; lia.
Qed.

Lemma read_lsrefs_args_length limits p : length (read_lsrefs_args limits p).2 ≤ length p.
Proof.
  unfold read_lsrefs_args. pose proof (skip_till_delimiter_length p) as Hs.
  destruct (skip_till_delimiter p) as [[]]; simpl in *; [|lia].
  etransitivity; [apply read_args_loop_length|done].
Qed.

Lemma read_fetch_args_length limits p : length (read_fetch_args limits p).2 ≤ length p.
Proof.
  unfold read_fetch_args. pose proof (skip_till_delimiter_length p) as Hs.
  destruct (skip_till_delimiter p) as [[]]; simpl in *; [|lia].
  etransitivity; [apply read_args_loop_length|done].
Qed.

Lemma read_command_length p c p' : read_command p = (Ok c, p') → length p' < length p.
Proof.
  destruct p as [|[l|e] p]; simpl; [done| |done]. destruct l; intros [= ? <-]; lia.
Qed.

(** An upload-pack session ends: each round of its command loop consumes
    packets, so the number of packets received bounds the rounds and any larger bound
    gives the same session. *)
Theorem upload_pack_loop_fuel f1 f2 limits repo p :
  length p < f1 → length p < f2 →
  st_eq (upload_pack_loop f1 limits repo p) (upload_pack_loop f2 limits repo p).
Proof.
  revert f2 p; induction f1 as [|f1 IH]; intros [|f2] p Hf1 Hf2; [lia..|]. simpl.
  destruct (read_command p) as [[[| |]|] p'] eqn:Hc; [| |done..];
    apply read_command_length in Hc.
  - pose proof (read_fetch_args_length limits p'). destruct (read_fetch_args limits p') as [args p''].
    simpl in *. do 3 (apply st_bind_proper; [intros ?|done]). apply IH; lia.
  - pose proof (read_lsrefs_args_length limits p'). destruct (read_lsrefs_args limits p') as [args p''].
    simpl in *. do 3 (apply st_bind_proper; [intros ?|done]). apply IH; lia.
Qed.
End session_length.

(** ** What a push introduces *)

Section introduced.
Context `{GraphLaws} {access : RepoAccess}.

(** The refs the server has, as the handlers see them: none when they cannot be listed. *)
Definition listed (r : result error RefsSnapshot) : list RefInfo :=
  match r with Ok snapshot => rs_refs snapshot | Err _ => [] end.

Lemma existing_tips_reach (parents : ObjectId → list ObjectId) repo refs s0 r s existing o :
  sb_list_refs repo s0 = (r, s) → existing_ref_tips repo refs s0 = (existing, s) →
  reached_from parents existing o ↔
  ∃ e tip, e ∈ listed r ∧ (r_name e ∉ pr_refname <$> refs) ∧ (tip = r_oid e ∨ r_peeled e = Some tip) ∧
           reaches parents tip o.
Proof.
  intros Hl. unfold existing_ref_tips. rewrite Hl. destruct r as [snapshot|e]; intros [= <-]; cbn [listed].
  - unfold reached_from. setoid_rewrite list_elem_of_bind. split.
    + intros (tip & (e & Ht & He) & Ho). case_decide as Hn; [by apply elem_of_nil in Ht|].
      exists e, tip. split_and!; [done|done| |done]. apply elem_of_cons in Ht as [->|Ht]; [by left|].
      destruct (r_peeled e); [|by apply elem_of_nil in Ht]. apply list_elem_of_singleton in Ht as ->. by right.
    + intros (e & tip & He & Hn & Ht & Ho). exists tip. split; [|done]. exists e. split; [|done].
      rewrite decide_False by done. apply elem_of_cons. destruct Ht as [->|Ht]; [by left|right].
      rewrite Ht. by left.
  - split; [by intros (f & ?%elem_of_nil & _)|by intros (e' & tip & ?%elem_of_nil & _)].
Qed.

(** (C28) What a policy is told a push introduces.  With the tips the handlers exclude,
    those of the refs outside the push, [new_commits] reports for each ref exactly the
    commits its new tip reaches that no ref outside the push and no earlier ref of the push
    reaches: every commit that the push brings and no ref outside it has is reported, for
    the earliest ref only.  The history of the pushed refs themselves is not excluded: of a
    fast-forward the commits of the old tip are reported as well, unless another ref has
    them. *)
Theorem pushed_commits_partition c s0 r s (ls : list (list CommitInfo)) :
  NoDup (pr_refname <$> cmp_refs c) →
  sb_list_refs (cmp_repo c) s0 = (r, s) →
  existing_ref_tips (cmp_repo c) (cmp_refs c) s0 = (cmp_existing c, s) →
  length ls = length (cmp_refs c) →
  (∀ i r l, cmp_refs c !! i = Some r → ls !! i = Some l →
     ∃ cs s', new_commits c r (fresh_caches (length (cmp_refs c))) s = Some (Ok l, cs, s')) →
  let parents := graph_view (cmp_repo c) s in
  let brings (p : PushRef) o := is_null (pr_new_oid p) = false ∧ reaches parents (pr_new_oid p) o in
  let elsewhere o := ∃ e tip, e ∈ listed r ∧ (r_name e ∉ pr_refname <$> cmp_refs c) ∧
    (tip = r_oid e ∨ r_peeled e = Some tip) ∧ reaches parents tip o in
  (∀ i p l o, cmp_refs c !! i = Some p → ls !! i = Some l →
     o ∈ c_oid <$> l ↔
       brings p o ∧ ¬ elsewhere o ∧ ∀ j p', (j < i)%nat → cmp_refs c !! j = Some p' → ¬ brings p' o) ∧
  (∀ p o, p ∈ cmp_refs c → brings p o → ¬ elsewhere o → ∃ l, l ∈ ls ∧ o ∈ c_oid <$> l) ∧
  (∀ p o, p ∈ cmp_refs c → brings p (pr_old_oid p) → reaches parents (pr_old_oid p) o → ¬ elsewhere o →
     ∃ l, l ∈ ls ∧ o ∈ c_oid <$> l).
Proof.
  intros Hnd Hl He Hlen Hls parents brings elsewhere.
  assert (∀ i p l, cmp_refs c !! i = Some p → ls !! i = Some l →
    ∃ s', init_new_commits c i p s = (Ok l, s')) as Hi.
  { intros i p l Hp Hli. destruct (Hls _ _ _ Hp Hli) as (cs & s' & E).
    destruct (new_commits_own c i p (length (cmp_refs c)) s Hnd Hp) as [cs' E']. rewrite E' in E.
    exists s'. injection E as E1 _ E2. by rewrite <- E1, <- E2, <- surjective_pairing. }
  assert (∀ o, reached_from parents (cmp_existing c) o ↔ elsewhere o) as Hx
    by (intros o; by eapply existing_tips_reach).
  assert (∀ n o, reached_from parents (new_tips c n) o ↔
    ∃ j p, (j < n)%nat ∧ cmp_refs c !! j = Some p ∧ brings p o) as Ht.
  { intros n o. split.
    - intros (f & (j & p & Hj & Hp & Hn & ->)%new_tips_inv & Ho). by exists j, p.
    - intros (j & p & Hj & Hp & Hn & Ho). exists (pr_new_oid p). split; [by eapply new_tips_elem|done]. }
  assert (∀ p o, p ∈ cmp_refs c → brings p o → ¬ elsewhere o → ∃ l, l ∈ ls ∧ o ∈ c_oid <$> l) as Hall.
  { intros p o [i Hp]%list_elem_of_lookup Hb Hn. apply (new_commits_complete c s ls Hlen Hi). split.
    - apply Ht. exists i, p. split_and!; [|done|done]. apply lookup_lt_Some in Hp. lia.
    - intros Hr. by apply Hn, Hx. }
  split_and!; [|done|].
  - intros i p l o Hp Hli. destruct (Hi _ _ _ Hp Hli) as [s' E].
    rewrite (init_new_commits_oids _ _ _ _ _ _ E), reached_from_app.
    change (graph_view (cmp_repo c) s) with parents. rewrite Hx, Ht. unfold brings. naive_solver.
  - intros p o Hp [Hn Ho] Hr Hne. apply (Hall p); [done| |done]. split; [done|]. by etrans.
Qed.
End introduced.
