(* ===== verification/Graph.v ===== *)
(** * Commit-graph walks

    The breadth-first walks of [backend/kv/graph.rs], over a function [fetch] that reads
    the parents of one commit and may fail.  Visited sets are finite sets, the frontier
    is a queue, and the loops carry fuel; [is_ancestor_total], [collect_ancestors_total]
    and [reachable_total] show that a fuel above the number of commits is never
    exhausted. *)

From stdpp Require Import base gmap list sets.
From S2P Require Import Prelude Bytes Gix Proto Types.

(** ** Sizes *)

Lemma size_list_to_set_le `{Countable K} (l : list K) : size (list_to_set l : gset K) ≤ length l.
Proof.
  induction l as [|x l IH]; [by rewrite list_to_set_nil, size_empty|].
  rewrite list_to_set_cons, size_union_alt, size_singleton.
  pose proof (subseteq_size (list_to_set l ∖ {[x]} : gset K) (list_to_set l) ltac:(set_solver)).
  simpl. lia.
Qed.

Lemma size_union_le `{Countable K} (X Y : gset K) : size (X ∪ Y) ≤ size X + size Y.
Proof.
  rewrite size_union_alt. pose proof (subseteq_size (Y ∖ X) Y ltac:(set_solver)). lia.
Qed.

Lemma length_omap_le {A B} (f : A → option B) l : length (omap f l) ≤ length l.
Proof. induction l as [|x l IH]; cbn; [lia|]. destruct (f x); cbn; lia. Qed.

(** ** The walks *)

Section walks.
Context `{Countable K} {E : Type} (fetch : K → result E (list K)).

(** [for p in parents { if !skip.contains(p) && visited.insert(p) { queue.push_back(p) } }]. *)
Fixpoint enqueue (skip : gset K) (ps : list K) (visited : gset K) (queue : list K) :
    gset K * list K :=
  match ps with
  | [] => (visited, queue)
  | p :: ps' =>
      if decide ((p ∉ skip) ∧ (p ∉ visited))
      then enqueue skip ps' ({[p]} ∪ visited) (queue ++ [p])
      else enqueue skip ps' visited queue
  end.

(** The same loop of [is_ancestor], which returns as soon as it meets [ancestor]. *)
Fixpoint enqueue_until (ancestor : K) (ps : list K) (visited : gset K) (queue : list K) :
    option (gset K * list K) :=
  match ps with
  | [] => Some (visited, queue)
  | p :: ps' =>
      if decide (p = ancestor) then None
      else if decide (p ∉ visited)
      then enqueue_until ancestor ps' ({[p]} ∪ visited) (queue ++ [p])
      else enqueue_until ancestor ps' visited queue
  end.

Fixpoint is_ancestor_loop (fuel : nat) (ancestor : K) (visited : gset K) (frontier : list K) :
    option (result E bool) :=
  match fuel with
  | O => None
  | S fuel =>
      match frontier with
      | [] => Some (Ok false)
      | oid :: frontier' =>
          match fetch oid with
          | Err e => Some (Err e)
          | Ok ps =>
              match enqueue_until ancestor ps visited frontier' with
              | None => Some (Ok true)
              | Some (visited', frontier'') => is_ancestor_loop fuel ancestor visited' frontier''
              end
          end
      end
  end.

Definition is_ancestor (fuel : nat) (ancestor descendant : K) : option (result E bool) :=
  if decide (ancestor = descendant) then Some (Ok true)
  else is_ancestor_loop fuel ancestor {[descendant]} [descendant].

(** A walk's error: over the cap, or a failed fetch on the excluded or the walked side. *)
Inductive walk_error := WalkCap | WalkCollect (e : E) | WalkFetch (e : E).

Fixpoint collect_loop (fuel : nat) (cap : N) (set : gset K) (frontier : list K) :
    option (result walk_error (gset K)) :=
  match fuel with
  | O => None
  | S fuel =>
      match frontier with
      | [] => Some (Ok set)
      | current :: frontier' =>
          if (cap <? N.of_nat (size set))%N then Some (Err WalkCap)
          else
            match fetch current with
            | Err e => Some (Err (WalkCollect e))
            | Ok ps =>
                let '(set', frontier'') := enqueue ∅ ps set frontier' in
                collect_loop fuel cap set' frontier''
            end
      end
  end.

Definition collect_ancestors (fuel : nat) (cap : N) (oid : K) (set : gset K) :
    option (result walk_error (gset K)) :=
  let '(set', frontier) := enqueue ∅ [oid] set [] in
  collect_loop fuel cap set' frontier.

Fixpoint collect_all (fuel : nat) (cap : N) (excluding : list K) (set : gset K) :
    option (result walk_error (gset K)) :=
  match excluding with
  | [] => Some (Ok set)
  | oid :: excluding' =>
      match collect_ancestors fuel cap oid set with
      | Some (Ok set') => collect_all fuel cap excluding' set'
      | r => r
      end
  end.

Fixpoint reachable_loop (fuel : nat) (cap : N) (exclude : gset K) (visited : gset K)
    (queue result : list K) : option (Prelude.result walk_error (list K)) :=
  match fuel with
  | O => None
  | S fuel =>
      match queue with
      | [] => Some (Ok result)
      | oid :: queue' =>
          if (cap <=? len result)%N then Some (Err WalkCap)
          else
            match fetch oid with
            | Err e => Some (Err (WalkFetch e))
            | Ok ps =>
                let '(visited', queue'') := enqueue exclude ps visited queue' in
                reachable_loop fuel cap exclude visited' queue'' (result ++ [oid])
            end
      end
  end.

(** The walk proper, once the excluded commits are known. *)
Definition walk_from (fuel : nat) (cap : N) (exclude : gset K) (from : list K) :
    option (result walk_error (list K)) :=
  let '(visited, queue) := enqueue exclude from ∅ [] in
  reachable_loop fuel cap exclude visited queue [].

Definition reachable_excluding (fuel : nat) (from excluding : list K) (cap : N) :
    option (result walk_error (list K)) :=
  match from with
  | [] => Some (Ok [])
  | _ =>
      match collect_all fuel cap excluding ∅ with
      | Some (Ok exclude) => walk_from fuel cap exclude from
      | Some (Err e) => Some (Err e)
      | None => None
      end
  end.

(** ** The graph the walks see *)

(** The parents of a commit, none when they cannot be read. *)
Definition parents (o : K) : list K := default [] (ok (fetch o)).

Definition closed (S : gset K) : Prop := ∀ o p, o ∈ S → p ∈ parents o → p ∈ S.

Lemma closed_reaches S o p : closed S → o ∈ S → reaches parents o p → p ∈ S.
Proof. intros HS Ho Hr. induction Hr as [|o q p Hq _ IH]; [done|]. apply IH. by eapply HS. Qed.

Lemma fetch_parents_Ok o ps : fetch o = Ok ps → parents o = ps.
Proof. unfold parents. by intros ->. Qed.

(** [enqueue] adds to both sets exactly the new elements, each once. *)
Lemma enqueue_spec skip ps visited queue visited' queue' :
  enqueue skip ps visited queue = (visited', queue') →
  ∃ new, queue' = queue ++ new ∧ visited' = visited ∪ list_to_set new ∧ NoDup new ∧
         ∀ p, p ∈ new ↔ p ∈ ps ∧ (p ∉ skip) ∧ (p ∉ visited).
Proof.
  revert visited queue; induction ps as [|p ps IH]; intros visited queue; simpl.
  - intros [= <- <-]. exists []. rewrite app_nil_r. split_and!; [done|set_solver|constructor|set_solver].
  - case_decide as Hp; intros Heq; apply IH in Heq as (new & -> & -> & Hnd & Hnew).
    + exists (p :: new). rewrite <- app_assoc. split_and!; [done|set_solver| |].
      * constructor; [|done]. rewrite Hnew. set_solver.
      * intros q. rewrite elem_of_cons, Hnew. split; [set_solver|].
        intros (Hq & ? & ?). destruct (decide (q = p)); set_solver.
    + exists new. split_and!; [done|done|done|]. intros q. rewrite Hnew.
      split; [set_solver|]. intros (Hq & ? & ?). split; [|done].
      apply elem_of_cons in Hq as [->|]; [tauto|done].
Qed.

Lemma enqueue_until_spec ancestor ps visited queue :
  match enqueue_until ancestor ps visited queue with
  | None => ancestor ∈ ps
  | Some (visited', queue') => (ancestor ∉ ps) ∧ enqueue ∅ ps visited queue = (visited', queue')
  end.
Proof.
  revert visited queue; induction ps as [|p ps IH]; intros visited queue; simpl; [set_solver|].
  case_decide as Hp; [set_solver|]. destruct (decide (p ∉ visited)) as [Hv|Hv].
  - rewrite decide_True by set_solver. specialize (IH ({[p]} ∪ visited) (queue ++ [p])).
    destruct (enqueue_until _ _ _ _) as [[]|]; set_solver.
  - rewrite decide_False by naive_solver. specialize (IH visited queue).
    destruct (enqueue_until _ _ _ _) as [[]|]; set_solver.
Qed.

(** ** [collect_ancestors] *)

(** A set that contains the parents of all its members but those still queued. *)
Definition closing (S : gset K) (frontier : list K) : Prop :=
  ∀ o p, o ∈ S → o ∉ frontier → p ∈ parents o → p ∈ S.

Lemma collect_loop_spec fuel cap set frontier S' :
  closing set frontier → (∀ o, o ∈ frontier → o ∈ set) →
  collect_loop fuel cap set frontier = Some (Ok S') →
  closed S' ∧ set ⊆ S' ∧ ∀ o, o ∈ S' → ∃ f, f ∈ set ∧ reaches parents f o.
Proof.
  revert set frontier; induction fuel as [|fuel IH]; intros set frontier Hcl Hsub; simpl; [done|].
  destruct frontier as [|cur frontier'].
  { intros [= <-]. split_and!; [|done|intros o Ho; exists o; split; [done|apply rtc_refl]].
    intros o p Ho Hp. eapply Hcl; [done|set_solver|done]. }
  destruct (_ <? _)%N; [done|]. destruct (fetch cur) as [ps|e] eqn:Hf; [|done].
  destruct (enqueue ∅ ps set frontier') as [set' frontier''] eqn:He.
  apply enqueue_spec in He as (new & -> & -> & _ & Hnew). apply fetch_parents_Ok in Hf.
  intros Hloop. apply IH in Hloop as (HS & Hsub' & Hback).
  - split_and!; [done|set_solver|]. intros o Ho. destruct (Hback o Ho) as (f & Hin & Hr).
    apply elem_of_union in Hin as [Hin|Hin]; [by exists f|].
    apply elem_of_list_to_set, Hnew in Hin as (Hin & _). exists cur. split; [set_solver|].
    eapply rtc_l; [|done]. by rewrite Hf.
  - intros o p Ho Hnot Hp. rewrite elem_of_union, elem_of_list_to_set, Hnew.
    destruct (decide (o = cur)) as [->|Hne].
    + rewrite Hf in Hp. destruct (decide (p ∈ set)); [by left|right; set_solver].
    + left. apply elem_of_union in Ho as [Ho|Ho]; [|set_solver].
      eapply Hcl; [done| |done]. set_solver.
  - intros o Ho. set_solver.
Qed.

Lemma collect_ancestors_spec fuel cap oid set S' :
  closed set → collect_ancestors fuel cap oid set = Some (Ok S') →
  closed S' ∧ ∀ o, o ∈ S' ↔ o ∈ set ∨ reaches parents oid o.
Proof.
  intros Hcl. unfold collect_ancestors. destruct (enqueue ∅ [oid] set []) as [set' fr] eqn:He.
  apply enqueue_spec in He as (new & -> & -> & _ & Hnew). intros Hloop.
  apply collect_loop_spec in Hloop as (HS & Hsub & Hback); [|intros o p; set_solver|set_solver].
  split; [done|]. intros o. split.
  - intros Ho. destruct (Hback o Ho) as (f & Hf & Hr).
    apply elem_of_union in Hf as [Hf|Hf]; [left; by eapply closed_reaches|].
    right. apply elem_of_list_to_set, Hnew in Hf as (Hf & _). by apply list_elem_of_singleton in Hf as ->.
  - intros [Ho|Ho]; [set_solver|]. eapply closed_reaches; [done| |done].
    apply Hsub. destruct (decide (oid ∈ set)); set_solver.
Qed.

Lemma collect_all_spec fuel cap excluding set S' :
  closed set → collect_all fuel cap excluding set = Some (Ok S') →
  closed S' ∧ ∀ o, o ∈ S' ↔ o ∈ set ∨ reached_from parents excluding o.
Proof.
  revert set; induction excluding as [|oid ex IH]; intros set Hcl; simpl.
  { intros [= <-]. split; [done|]. unfold reached_from. set_solver. }
  destruct (collect_ancestors fuel cap oid set) as [[set'|]|] eqn:Hc; [|done..].
  apply collect_ancestors_spec in Hc as [Hcl' Hin]; [|done]. intros Hall.
  apply IH in Hall as [HS HinS]; [|done]. split; [done|]. intros o. rewrite HinS, Hin.
  change (oid :: ex) with ([oid] ++ ex). rewrite reached_from_app, reached_from_one. tauto.
Qed.

(** ** [reachable_excluding] *)

Record reach_inv (cap : N) (exclude : gset K) (from : list K) (visited : gset K)
    (queue result : list K) : Prop := {
  ri_visited o : o ∈ visited ↔ o ∈ result ++ queue;
  ri_nodup : NoDup (result ++ queue);
  ri_sound o : o ∈ visited → (o ∉ exclude) ∧ reached_from parents from o;
  ri_start o : o ∈ from → o ∉ exclude → o ∈ visited;
  ri_closed o p : o ∈ result → p ∈ parents o → p ∉ exclude → p ∈ visited;
  ri_cap : (len result ≤ cap)%N;
}.

Lemma reach_inv_step cap exclude from visited oid queue result ps visited' queue' :
  reach_inv cap exclude from visited (oid :: queue) result →
  fetch oid = Ok ps → enqueue exclude ps visited queue = (visited', queue') →
  (len result < cap)%N →
  reach_inv cap exclude from visited' queue' (result ++ [oid]).
Proof.
  intros [Hvis Hnd Hsnd Hst Hcl Hcap] Hf He Hlt. apply fetch_parents_Ok in Hf.
  apply enqueue_spec in He as (new & -> & -> & Hndn & Hnew). split.
  - intros o. rewrite elem_of_union, elem_of_list_to_set, Hvis. set_solver.
  - replace ((result ++ [oid]) ++ queue ++ new) with ((result ++ oid :: queue) ++ new)
      by (by rewrite <- !app_assoc).
    apply NoDup_app. split_and!; [done| |done]. intros o Ho Hno.
    apply Hvis in Ho. apply Hnew in Hno. tauto.
  - intros o [Ho|Ho]%elem_of_union; [by apply Hsnd|].
    apply elem_of_list_to_set, Hnew in Ho as (Ho & ? & _). split; [done|].
    destruct (Hsnd oid) as (_ & f & Hin & Hr); [apply Hvis; set_solver|].
    exists f. split; [done|]. eapply rtc_r; [done|]. by rewrite Hf.
  - intros o Ho Hx. apply elem_of_union_l. by apply Hst.
  - intros o p Ho Hp Hx. apply elem_of_app in Ho as [Ho|Ho].
    + apply elem_of_union_l. by eapply Hcl.
    + apply list_elem_of_singleton in Ho as ->. rewrite Hf in Hp.
      rewrite elem_of_union, elem_of_list_to_set, Hnew.
      destruct (decide (p ∈ visited)); tauto.
  - unfold len in *. rewrite length_app. simpl. lia.
Qed.

Lemma reachable_loop_spec fuel cap exclude from visited queue result l :
  reach_inv cap exclude from visited queue result →
  reachable_loop fuel cap exclude visited queue result = Some (Ok l) →
  ∃ visited', reach_inv cap exclude from visited' [] l.
Proof.
  revert visited queue result; induction fuel as [|fuel IH]; intros visited queue result Hinv;
    simpl; [done|].
  destruct queue as [|oid queue]; [intros [= <-]; by exists visited|].
  destruct (cap <=? len result)%N eqn:Hcap; [done|]. destruct (fetch oid) as [ps|] eqn:Hf; [|done].
  destruct (enqueue exclude ps visited queue) as [v' q'] eqn:He. apply IH.
  eapply reach_inv_step; [done..|]. by apply N.leb_gt.
Qed.

Lemma reach_inv_start cap exclude from visited queue :
  enqueue exclude from ∅ [] = (visited, queue) → reach_inv cap exclude from visited queue [].
Proof.
  intros He. apply enqueue_spec in He as (new & -> & -> & Hnd & Hnew). split; simpl.
  - intros o. set_solver.
  - done.
  - intros o Ho. assert (o ∈ new) as Ho' by set_solver. apply Hnew in Ho' as (? & ? & _).
    split; [done|]. exists o. split; [done|apply rtc_refl].
  - intros o Ho Hx. assert (o ∈ new) by (apply Hnew; set_solver). set_solver.
  - intros o p Ho. set_solver.
  - unfold len. simpl. lia.
Qed.

(** The walk returns, each once and at most [cap] of them, exactly the commits reached
    from [from] and not from [excluding], whose closure is [X]. *)
Lemma walk_from_Ok fuel from excluding cap X l :
  closed X → (∀ o, o ∈ X ↔ reached_from parents excluding o) →
  walk_from fuel cap X from = Some (Ok l) →
  NoDup l ∧ (len l ≤ cap)%N ∧
  ∀ o, o ∈ l ↔ reached_from parents from o ∧ ¬ reached_from parents excluding o.
Proof.
  intros HX HinX. unfold walk_from. destruct (enqueue X from ∅ []) as [v q] eqn:He. intros Hloop.
  apply (reachable_loop_spec _ cap X from) in Hloop as [v' [Hvis Hnd Hsnd Hst Hcl Hcap]];
    [|by apply reach_inv_start].
  rewrite app_nil_r in *. split_and!; [done|done|]. intros o. rewrite <- Hvis, <- HinX. split.
  - intros Ho. destruct (Hsnd o Ho). done.
  - intros [(g & Hg & Hr) Hx]. revert o Hr Hx.
    refine (rtc_ind_r _ _ _ _); [by apply Hst|].
    intros p o Hr Hp IH Hx. apply (Hcl p); [|done|done]. apply Hvis, IH.
    intros HpX. apply Hx. by eapply HX.
Qed.

Lemma reachable_excluding_Ok fuel from excluding cap l :
  reachable_excluding fuel from excluding cap = Some (Ok l) →
  NoDup l ∧ (len l ≤ cap)%N ∧
  ∀ o, o ∈ l ↔ reached_from parents from o ∧ ¬ reached_from parents excluding o.
Proof.
  unfold reachable_excluding. destruct from as [|f from'] eqn:Hfrom.
  { intros [= <-]. split_and!; [constructor|unfold len; simpl; lia|].
    unfold reached_from. set_solver. }
  rewrite <- Hfrom. clear Hfrom.
  destruct (collect_all fuel cap excluding ∅) as [[X|]|] eqn:Hc; [|done..].
  apply collect_all_spec in Hc as [HX HinX]; [|intros o p; set_solver].
  apply walk_from_Ok; [done|]. intros o. rewrite HinX. set_solver.
Qed.

(** ** [is_ancestor] *)

Lemma is_ancestor_loop_spec fuel ancestor d visited frontier b :
  closing visited frontier → (∀ o, o ∈ frontier → o ∈ visited) →
  (∀ o, o ∈ visited → reaches parents d o) → d ∈ visited → ancestor ∉ visited →
  is_ancestor_loop fuel ancestor visited frontier = Some (Ok b) →
  b = true ↔ reaches parents d ancestor.
Proof.
  revert visited frontier; induction fuel as [|fuel IH]; intros visited frontier Hcl Hsub Hr Hd Ha;
    simpl; [done|].
  destruct frontier as [|oid frontier'].
  { intros [= <-]. split; [done|]. intros Hra. destruct Ha. eapply closed_reaches; [|done|done].
    intros o p Ho Hp. eapply Hcl; [done|set_solver|done]. }
  destruct (fetch oid) as [ps|] eqn:Hf; [|done]. apply fetch_parents_Ok in Hf.
  pose proof (enqueue_until_spec ancestor ps visited frontier') as Hs.
  destruct (enqueue_until ancestor ps visited frontier') as [[v' f']|].
  - destruct Hs as [Hnot He]. apply enqueue_spec in He as (new & -> & -> & _ & Hnew). apply IH.
    + intros o p Ho Hno Hp. rewrite elem_of_union, elem_of_list_to_set, Hnew.
      destruct (decide (o = oid)) as [->|].
      * rewrite Hf in Hp. destruct (decide (p ∈ visited)); [by left|right; set_solver].
      * left. apply elem_of_union in Ho as [Ho|Ho]; [|set_solver]. eapply Hcl; [done|set_solver|done].
    + set_solver.
    + intros o [Ho|Ho]%elem_of_union; [by apply Hr|].
      apply elem_of_list_to_set, Hnew in Ho as (Ho & _).
      eapply rtc_r; [apply (Hr oid); set_solver|]. by rewrite Hf.
    + set_solver.
    + intros [?|Hin]%elem_of_union; [done|]. apply elem_of_list_to_set, Hnew in Hin. tauto.
  - intros [= <-]. split; [|done]. intros _. eapply rtc_r; [apply (Hr oid); set_solver|]. by rewrite Hf.
Qed.

Lemma is_ancestor_Ok fuel ancestor d b :
  is_ancestor fuel ancestor d = Some (Ok b) → b = true ↔ reaches parents d ancestor.
Proof.
  unfold is_ancestor. case_decide as Hd.
  { intros [= <-]. subst. split; [intros _; apply rtc_refl|done]. }
  apply is_ancestor_loop_spec; [intros o p| |intros o Ho| |]; try set_solver.
Qed.

(** ** Fuel *)

Lemma enqueue_measure (U : gset K) skip ps visited queue visited' queue' :
  (∀ p, p ∈ ps → p ∈ U) → enqueue skip ps visited queue = (visited', queue') →
  size (U ∖ visited') + length queue' = size (U ∖ visited) + length queue.
Proof.
  intros HU He. apply enqueue_spec in He as (new & -> & -> & Hnd & Hnew).
  rewrite length_app.
  assert (size (U ∖ visited) = size (U ∖ (visited ∪ list_to_set new)) + length new) as ->; [|lia].
  rewrite <- (size_list_to_set (C := gset K) new) by done.
  rewrite <- size_union by set_solver. f_equal. apply set_eq. intros o.
  rewrite elem_of_union, !elem_of_difference, elem_of_union, elem_of_list_to_set.
  destruct (decide (o ∈ new)) as [Hin|]; [|tauto].
  pose proof (proj1 (Hnew o) Hin) as (Hp & _ & Hv). specialize (HU o Hp). tauto.
Qed.

Lemma closed_parents U o ps p : closed U → o ∈ U → fetch o = Ok ps → p ∈ ps → p ∈ U.
Proof. intros HU Ho Hf Hp. eapply HU; [done|]. by rewrite (fetch_parents_Ok _ _ Hf). Qed.

Lemma enqueue_sub (U : gset K) skip ps visited queue visited' queue' :
  (∀ p, p ∈ ps → p ∈ U) → (∀ o, o ∈ queue → o ∈ U) →
  enqueue skip ps visited queue = (visited', queue') → ∀ o, o ∈ queue' → o ∈ U.
Proof. intros HU Hq He. apply enqueue_spec in He as (new & -> & _ & _ & Hnew). set_solver. Qed.

Lemma is_ancestor_total U fuel ancestor visited frontier :
  closed U → (∀ o, o ∈ frontier → o ∈ U) →
  size (U ∖ visited) + length frontier < fuel →
  is_ancestor_loop fuel ancestor visited frontier ≠ None.
Proof.
  intros HU. revert visited frontier; induction fuel as [|fuel IH]; intros visited frontier Hin Hlt;
    [lia|]. simpl. destruct frontier as [|oid fr]; [done|].
  destruct (fetch oid) as [ps|] eqn:Hf; [|done].
  assert (∀ p, p ∈ ps → p ∈ U) as Hps by (intros p; apply (closed_parents U oid); [done|set_solver|done]).
  pose proof (enqueue_until_spec ancestor ps visited fr) as Hs.
  destruct (enqueue_until _ _ _ _) as [[v' f']|]; [|done]. destruct Hs as [_ He].
  apply IH; [eapply enqueue_sub; [done| |done]; set_solver|].
  rewrite (enqueue_measure U _ _ _ _ _ _ Hps He). simpl in Hlt. lia.
Qed.

Lemma collect_loop_total U fuel cap set frontier :
  closed U → (∀ o, o ∈ frontier → o ∈ U) →
  size (U ∖ set) + length frontier < fuel → collect_loop fuel cap set frontier ≠ None.
Proof.
  intros HU. revert set frontier; induction fuel as [|fuel IH]; intros set frontier Hin Hlt; [lia|].
  simpl. destruct frontier as [|oid fr]; [done|]. destruct (_ <? _)%N; [done|].
  destruct (fetch oid) as [ps|] eqn:Hf; [|done].
  assert (∀ p, p ∈ ps → p ∈ U) as Hps by (intros p; apply (closed_parents U oid); [done|set_solver|done]).
  destruct (enqueue _ _ _ _) as [v' f'] eqn:He.
  apply IH; [eapply enqueue_sub; [done| |done]; set_solver|].
  rewrite (enqueue_measure U _ _ _ _ _ _ Hps He). simpl in Hlt. lia.
Qed.

Lemma collect_all_total U fuel cap excluding set :
  closed U → (∀ o, o ∈ excluding → o ∈ U) → size U < fuel →
  collect_all fuel cap excluding set ≠ None.
Proof.
  intros HU. revert set; induction excluding as [|oid ex IH]; intros set Hin Hlt; simpl; [done|].
  assert (collect_ancestors fuel cap oid set ≠ None) as Hc.
  { unfold collect_ancestors. destruct (enqueue _ _ _ _) as [v' f'] eqn:He.
    apply (collect_loop_total U); [done|eapply enqueue_sub; [|by intros ? ?%elem_of_nil|done]; set_solver|].
    rewrite (enqueue_measure U _ [oid] _ _ _ _ ltac:(set_solver) He). simpl.
    pose proof (subseteq_size (U ∖ set) U ltac:(set_solver)). lia. }
  destruct (collect_ancestors _ _ _ _) as [[]|]; [|done..]. apply IH; [set_solver|done].
Qed.

Lemma reachable_loop_total U fuel cap exclude visited queue result :
  closed U → (∀ o, o ∈ queue → o ∈ U) →
  size (U ∖ visited) + length queue < fuel →
  reachable_loop fuel cap exclude visited queue result ≠ None.
Proof.
  intros HU. revert visited queue result; induction fuel as [|fuel IH];
    intros visited queue result Hin Hlt; [lia|].
  simpl. destruct queue as [|oid fr]; [done|]. destruct (_ <=? _)%N; [done|].
  destruct (fetch oid) as [ps|] eqn:Hf; [|done].
  assert (∀ p, p ∈ ps → p ∈ U) as Hps by (intros p; apply (closed_parents U oid); [done|set_solver|done]).
  destruct (enqueue _ _ _ _) as [v' f'] eqn:He.
  apply IH; [eapply enqueue_sub; [done| |done]; set_solver|].
  rewrite (enqueue_measure U _ _ _ _ _ _ Hps He). simpl in Hlt. lia.
Qed.

Lemma walk_from_total U fuel from cap X :
  closed U → (∀ o, o ∈ from → o ∈ U) → size U < fuel → walk_from fuel cap X from ≠ None.
Proof.
  intros HU Hin Hlt. unfold walk_from. destruct (enqueue _ _ _ _) as [v q] eqn:He.
  apply (reachable_loop_total U); [done|eapply enqueue_sub; [|by intros ? ?%elem_of_nil|done]; set_solver|].
  rewrite (enqueue_measure U _ from _ _ _ _ ltac:(set_solver) He). simpl.
  pose proof (subseteq_size (U ∖ ∅) U ltac:(set_solver)). lia.
Qed.

Lemma reachable_total U fuel from excluding cap :
  closed U → (∀ o, o ∈ from ++ excluding → o ∈ U) → size U < fuel →
  reachable_excluding fuel from excluding cap ≠ None.
Proof.
  intros HU Hin Hlt. unfold reachable_excluding. destruct from as [|f from'] eqn:Hfrom; [done|].
  rewrite <- Hfrom in *. clear Hfrom.
  pose proof (collect_all_total U fuel cap excluding ∅ HU ltac:(set_solver) Hlt) as Hc.
  destruct (collect_all _ _ _ _) as [[X|]|]; [|done..].
  apply (walk_from_total U); [done|set_solver|done].
Qed.

(** ** When walks succeed *)

Section healthy.
Hypothesis fetch_ok : ∀ o, ∃ ps, fetch o = Ok ps.

Lemma collect_loop_ok U fuel cap set frontier e :
  closed U → set ⊆ U → (∀ o, o ∈ frontier → o ∈ U) → (N.of_nat (size U) ≤ cap)%N →
  collect_loop fuel cap set frontier ≠ Some (Err e).
Proof.
  intros HU. revert set frontier; induction fuel as [|fuel IH]; intros set frontier Hset Hin Hcap; simpl;
    [done|]. destruct frontier as [|cur fr]; [done|].
  pose proof (subseteq_size set U Hset) as Hsz.
  rewrite (proj2 (N.ltb_ge cap (N.of_nat (size set)))) by lia.
  destruct (fetch_ok cur) as [ps Hps]. rewrite Hps.
  assert (∀ p, p ∈ ps → p ∈ U) as HpsU by (intros p; apply (closed_parents U cur); [done|set_solver|done]).
  destruct (enqueue ∅ ps set fr) as [set' fr'] eqn:He. apply IH; [|eapply enqueue_sub; [done| |done]; set_solver|done].
  apply enqueue_spec in He as (new & _ & -> & _ & Hnew). set_solver.
Qed.

Lemma collect_all_ok U fuel cap excluding set e :
  closed U → closed set → set ⊆ U → (∀ o, o ∈ excluding → o ∈ U) → (N.of_nat (size U) ≤ cap)%N →
  collect_all fuel cap excluding set ≠ Some (Err e).
Proof.
  intros HU. revert set; induction excluding as [|oid ex IH]; intros set Hcl Hset Hin Hcap; simpl; [done|].
  destruct (collect_ancestors fuel cap oid set) as [[set'|e']|] eqn:Hc; [| |done].
  - apply collect_ancestors_spec in Hc as [Hcl' Hset']; [|done]. apply IH; [done| |set_solver|done].
    intros o [Ho|Ho]%Hset'; [set_solver|]. eapply closed_reaches; [done| |done]. set_solver.
  - unfold collect_ancestors in Hc. destruct (enqueue ∅ [oid] set []) as [v' f'] eqn:He.
    exfalso. eapply (collect_loop_ok U); [done| | |done|exact Hc].
    + apply enqueue_spec in He as (new & _ & -> & _ & Hnew). set_solver.
    + eapply enqueue_sub; [|by intros ? ?%elem_of_nil|done]. set_solver.
Qed.

Lemma reachable_loop_ok U fuel cap exclude from visited queue result e :
  closed U → (∀ o, o ∈ visited → o ∈ U) → (N.of_nat (size U) ≤ cap)%N →
  reach_inv cap exclude from visited queue result →
  reachable_loop fuel cap exclude visited queue result ≠ Some (Err e).
Proof.
  intros HU. revert visited queue result; induction fuel as [|fuel IH];
    intros visited queue result Hin Hcap Hinv; simpl; [done|]. destruct queue as [|oid q]; [done|].
  assert (len result < cap)%N as Hlt.
  { assert (length (result ++ oid :: q) ≤ size U) as Hle.
    { rewrite <- (size_list_to_set (C := gset K)) by apply Hinv. apply subseteq_size.
      intros o Ho. apply Hin, (ri_visited _ _ _ _ _ _ Hinv). set_solver. }
    rewrite length_app in Hle. simpl in Hle. unfold len. lia. }
  rewrite (proj2 (N.leb_gt cap (len result)) Hlt).
  destruct (fetch_ok oid) as [ps Hps]. rewrite Hps.
  destruct (enqueue exclude ps visited q) as [v' q'] eqn:He.
  apply IH; [|done|by eapply reach_inv_step].
  assert (oid ∈ U) as Hoid by (apply Hin, (ri_visited _ _ _ _ _ _ Hinv); set_solver).
  apply enqueue_spec in He as (new & _ & -> & _ & Hnew). intros o [Ho|Ho]%elem_of_union; [by apply Hin|].
  apply elem_of_list_to_set, Hnew in Ho as (Ho & _). by eapply (closed_parents U oid).
Qed.

Lemma walk_from_ok U fuel from cap X e :
  closed U → (∀ o, o ∈ from → o ∈ U) → (N.of_nat (size U) ≤ cap)%N →
  walk_from fuel cap X from ≠ Some (Err e).
Proof.
  intros HU Hin Hcap. unfold walk_from. destruct (enqueue X from ∅ []) as [v q] eqn:He. intros Hr.
  eapply (reachable_loop_ok U) in Hr; [done|done| |done|by apply reach_inv_start].
  apply enqueue_spec in He as (new & _ & -> & _ & Hnew). intros o Ho.
  assert (o ∈ new) as (Ho' & _)%Hnew by set_solver. by apply Hin.
Qed.

(** A walk over a graph no larger than the cap succeeds. *)
Lemma reachable_excluding_healthy U fuel from excluding cap :
  closed U → (∀ o, o ∈ from ++ excluding → o ∈ U) → size U < fuel → (N.of_nat (size U) ≤ cap)%N →
  ∃ l, reachable_excluding fuel from excluding cap = Some (Ok l).
Proof.
  intros HU Hin Hfuel Hcap.
  pose proof (reachable_total U fuel from excluding cap HU Hin Hfuel) as Ht.
  destruct (reachable_excluding fuel from excluding cap) as [[l|e]|] eqn:Hr; [eauto| |done].
  exfalso. revert Hr. unfold reachable_excluding. destruct from as [|f from'] eqn:Hfrom; [done|].
  rewrite <- Hfrom in *. clear Hfrom.
  destruct (collect_all fuel cap excluding ∅) as [[X|e']|] eqn:Hc; [| |done].
  - apply (walk_from_ok U); [done|set_solver|done].
  - intros _. eapply (collect_all_ok U) in Hc; [done|done|intros o p; set_solver|set_solver|set_solver|done].
Qed.
End healthy.
End walks.

Arguments walk_error : clear implicits.

(** ** Two readers of one graph *)

Section agree.
Context `{Countable K} {E F : Type} (f : K → result E (list K)) (g : K → result F (list K)).
Hypothesis agree : ∀ o ps, f o = Ok ps → g o = Ok ps.

(** A walk that one reader completes, the other completes alike, given the fuel. *)
Lemma reachable_loop_agree fuel fuel' cap X visited queue res l :
  reachable_loop f fuel cap X visited queue res = Some (Ok l) →
  reachable_loop g fuel' cap X visited queue res ≠ None →
  reachable_loop g fuel' cap X visited queue res = Some (Ok l).
Proof.
  revert fuel' visited queue res; induction fuel as [|fuel IH]; intros fuel' visited queue res; [done|].
  destruct fuel' as [|fuel']; [done|]. cbn [reachable_loop]. destruct queue as [|o queue]; [by intros [= <-]|].
  destruct (_ <=? _)%N; [done|]. destruct (f o) as [ps|] eqn:Ef; [|done]. rewrite (agree _ _ Ef).
  destruct (enqueue X ps visited queue). apply IH.
Qed.

Lemma walk_from_agree fuel fuel' cap X from l :
  walk_from f fuel cap X from = Some (Ok l) → walk_from g fuel' cap X from ≠ None →
  walk_from g fuel' cap X from = Some (Ok l).
Proof. unfold walk_from. destruct (enqueue X from ∅ []). apply reachable_loop_agree. Qed.
End agree.
