(* ===== verification/Inspect.v ===== *)
(** * Pack inspection ([inspect.rs])

    Decoding of git objects and of pack bundles is third-party code ([gix-object],
    [gix-pack]): the class operations below.  The sources turn what it delivers into
    the metadata the auth layer sees. *)

From stdpp Require Import base gmap list strings.
From Stdlib Require Import Strings.Byte.
From S2P Require Import Prelude Bytes Gix Proto Types.

(** ** Third-party decoding *)

(** [gix::actor::SignatureRef], [gix_object::CommitRef] and [gix_object::TagRef]; the
    author and committer lines are decoded when asked for. *)
Record SignatureRef := { sr_name : bytes; sr_email : bytes; sr_time : bytes }.

Record CommitRef := {
  cr_tree : bytes; cr_parents : list bytes; cr_pgp_signature : option bytes;
  cr_author : result error SignatureRef; cr_committer : result error SignatureRef;
  cr_message : bytes; cr_encoding : option bytes }.

Record TagRef := {
  tr_target : bytes; tr_name : bytes; tr_tagger : option bytes;
  tr_message : bytes; tr_pgp_signature : option bytes }.

Inductive Kind := GBlob | GTree | GCommit | GTag.

#[global] Instance Kind_eq_dec : EqDecision Kind.
Proof. solve_decision. Defined.

Class GixObject `{GixHash} := {
  CommitRef_from_bytes : bytes → result error CommitRef;
  TagRef_from_bytes : bytes → result error TagRef;
  SignatureRef_from_bytes : bytes → result error SignatureRef;
  (** [TreeRef::from_bytes]: each entry's [mode.is_tree()] and object id. *)
  TreeRef_from_bytes : bytes → result error (list (bool * ObjectId));
}.

(** An entry of a bundle's index: its id, the outcome of resolving its header (kind and
    size, through delta chains), and the outcome of decoding it. *)
Record BundleEntry `{GixHash} := {
  be_oid : ObjectId;
  be_header : result error (Kind * N);
  be_data : result error bytes }.

(** [gix_pack::Bundle::at(path)], which looks at the path and at the two files. *)
Class GixPack `{GixHash} := { bundle_at : PackFile → result error (list BundleEntry) }.

Section inspect.
Context `{GixObject} {gix_pack : GixPack}.

Definition identity_from (s : SignatureRef) : Identity :=
  {| id_name := sr_name s; id_email := sr_email s; id_time := sr_time s |}.

Definition signature_blob (raw : bytes) : SignatureBlob :=
  {| sig_format := detect raw; sig_bytes := raw |}.

(** [r.context(c)]. *)
Definition context {A} (c : bytes) (r : result error A) : result error A := map_err (Context c) r.

Definition parse_commit_info (data : bytes) (oid : ObjectId) : result error CommitInfo :=
  commit ← context (b! "parsing commit object") (CommitRef_from_bytes data);
  tree ← context (b! "parsing commit tree oid") (oid_from_hex (cr_tree commit));
  parents ← context (b! "parsing commit parent oids") (mapM oid_from_hex (cr_parents commit));
  author ← context (b! "parsing commit author") (cr_author commit);
  committer ← context (b! "parsing commit committer") (cr_committer commit);
  Ok {| c_oid := oid; c_tree := tree; c_parents := parents;
        c_author := identity_from author; c_committer := identity_from committer;
        c_message := cr_message commit; c_encoding := cr_encoding commit;
        c_signature := signature_blob <$> cr_pgp_signature commit |}.

Definition parse_tagger (raw : option bytes) : result error (option Identity) :=
  match raw with
  | Some raw =>
      s ← map_err (Fmt (b! "parsing tag tagger: ")) (SignatureRef_from_bytes raw);
      Ok (Some (identity_from s))
  | None => Ok None
  end.

Definition parse_tag_info (data : bytes) (oid : ObjectId) : result error TagInfo :=
  tag ← context (b! "parsing tag object") (TagRef_from_bytes data);
  tagger ← parse_tagger (tr_tagger tag);
  target ← context (b! "parsing tag target") (oid_from_hex (tr_target tag));
  Ok {| t_oid := oid; t_target := target; t_name := tr_name tag; t_tagger := tagger;
        t_message := tr_message tag; t_signature := signature_blob <$> tr_pgp_signature tag |}.

(** One entry of [inspect_pack]: blobs and trees from the header alone, commits and tags
    decoded in full. *)
Definition inspect_entry (e : BundleEntry) : result error PackObject :=
  '(kind, size) ← be_header e;
  match kind with
  | GBlob => Ok {| po_oid := be_oid e; po_kind := KBlob; po_size := size |}
  | GTree => Ok {| po_oid := be_oid e; po_kind := KTree; po_size := size |}
  | GCommit =>
      data ← context (b! "decoding pack object") (be_data e);
      info ← parse_commit_info data (be_oid e);
      Ok {| po_oid := be_oid e; po_kind := KCommit info; po_size := len data |}
  | GTag =>
      data ← context (b! "decoding pack object") (be_data e);
      info ← parse_tag_info data (be_oid e);
      Ok {| po_oid := be_oid e; po_kind := KTag info; po_size := len data |}
  end.

Definition inspect_pack (pack : PackFile) : result error PackMetadata :=
  entries ← context (b! "opening pack bundle") (bundle_at pack);
  mapM inspect_entry entries.
End inspect.

Section inspect_facts.
Context `{GixObject} {gix_pack : GixPack}.

Lemma parse_commit_info_oid data oid ci : parse_commit_info data oid = Ok ci → c_oid ci = oid.
Proof.
  unfold parse_commit_info. intros Hp. repeat apply result_bind_Ok in Hp as (? & _ & Hp).
  by injection Hp as <-.
Qed.

Lemma inspect_entry_oid e o : inspect_entry e = Ok o → po_oid o = be_oid e.
Proof.
  unfold inspect_entry. intros ([k n] & _ & Hp)%result_bind_Ok.
  destruct k; [by injection Hp as <-..| |];
    apply result_bind_Ok in Hp as (d & _ & Hp); apply result_bind_Ok in Hp as (i & _ & Hp);
    by injection Hp as <-.
Qed.

(** Inspection hides nothing from the policy: the metadata lists the objects of
    the bundle, all of them and in order, and its commits are exactly the entries the
    bundle resolves to commits, each parsed from its own data under its own id; one
    entry that cannot be decoded or parsed makes the whole inspection fail. *)
Theorem inspect_pack_complete pack entries m :
  bundle_at pack = Ok entries → inspect_pack pack = Ok m →
  po_oid <$> m = be_oid <$> entries ∧
  ∀ ci, ci ∈ commits m ↔
    ∃ e n data, e ∈ entries ∧ be_header e = Ok (GCommit, n) ∧ be_data e = Ok data ∧
                parse_commit_info data (be_oid e) = Ok ci.
Proof.
  intros Hb Hm. unfold inspect_pack in Hm. rewrite Hb in Hm. cbn in Hm.
  apply result_mapM_Ok in Hm. clear Hb. split.
  - induction Hm as [|e o es os He _ IH]; [done|]. rewrite !fmap_cons, IH.
    by rewrite (inspect_entry_oid _ _ He).
  - intros ci. unfold commits. rewrite list_elem_of_omap. split.
    + intros (o & Ho & Hk). apply list_elem_of_lookup in Ho as [i Hi].
      destruct (Forall2_lookup_r _ _ _ _ _ Hm Hi) as (e & He & Heo).
      unfold inspect_entry in Heo. apply result_bind_Ok in Heo as ([k n] & Hh & Heo).
      destruct k; simplify_eq/=; [|].
      * apply result_bind_Ok in Heo as (d & Hd & Heo). apply result_bind_Ok in Heo as (c & Hc & Heo).
        simplify_eq/=. exists e, n, d. split_and!; [by eapply list_elem_of_lookup_2|done| |done].
        by destruct (be_data e); simplify_eq/=.
      * apply result_bind_Ok in Heo as (d & Hd & Heo). apply result_bind_Ok in Heo as (c & Hc & Heo).
        by simplify_eq/=.
    + intros (e & n & d & He & Hh & Hd & Hc). apply list_elem_of_lookup in He as [i Hi].
      destruct (Forall2_lookup_l _ _ _ _ _ Hm Hi) as (o & Ho & Heo).
      unfold inspect_entry in Heo. rewrite Hh in Heo. cbn in Heo. rewrite Hd in Heo. cbn in Heo.
      rewrite Hc in Heo. cbn in Heo. simplify_eq/=.
      eexists. split; [by eapply list_elem_of_lookup_2|done].
Qed.
End inspect_facts.

(** A pack whose header counts at least one object. *)
Definition nonempty_pack (pack : bytes) : bool :=
  match read_exact 12 pack with
  | Ok (header, _) => negb (default 0%N (pack_object_count header) =? 0)%N
  | Err _ => false
  end.
