(* ===== verification/KvKeys.v ===== *)
(** * Key encoding of the KV backend ([backend/kv/keys.rs])

    The byte keys of each logical table, the scan bounds, and the theorems that make the
    single keyspace safe: no two logical keys collide, and a range scan over a prefix
    sees exactly the keys of that prefix. *)

From stdpp Require Import base gmap list strings.
From Stdlib Require Import Strings.Byte.
From S2P Require Import Prelude Bytes Gix.
Open Scope N_scope.

Definition PREFIX_REPO_INDEX : byte := x01.
Definition PREFIX_NEXT_REPO_ID : byte := x02.
Definition PREFIX_REPO_META : byte := x03.
Definition PREFIX_REF : byte := x04.
Definition PREFIX_OBJ : byte := x05.
Definition PREFIX_PAR : byte := x06.

Definition REPO_META_EXISTS : byte := x00.
Definition REPO_META_HEAD : byte := x01.

(** From the last byte, the first that is not [0xFF] is incremented and the rest
    dropped; [None] when there is none.  The list is in reverse order. *)
Fixpoint increment_rev (key : bytes) : option bytes :=
  match key with
  | [] => None
  | b :: key' =>
      if Byte.to_N b <? 255 then Some (of_N (Byte.to_N b + 1) :: key') else increment_rev key'
  end.

Definition increment_in_place (key : bytes) : bytes :=
  match increment_rev (reverse key) with
  | Some r => reverse r
  | None => key ++ [x00]
  end.

Section keys.
Context `{GixHash}.

Definition u64_be (n : N) : bytes := to_be_bytes 8 n.

Definition repo_index (path : bytes) : bytes := PREFIX_REPO_INDEX :: path.
Definition next_repo_id : bytes := [PREFIX_NEXT_REPO_ID].
Definition repo_meta (repo_id : N) (tag : byte) : bytes :=
  [PREFIX_REPO_META] ++ u64_be repo_id ++ [tag].
Definition refkey (repo_id : N) (name : bytes) : bytes :=
  [PREFIX_REF] ++ u64_be repo_id ++ name.
Definition refs_prefix_start (repo_id : N) : bytes := [PREFIX_REF] ++ u64_be repo_id.
Definition refs_prefix_end (repo_id : N) : bytes :=
  increment_in_place (refs_prefix_start repo_id).

Definition refname_from_key (repo_id : N) (key : bytes) : option bytes :=
  match strip_prefix (refs_prefix_start repo_id) key with
  | None => None
  | Some name => ok (from_utf8 name)
  end.

Definition obj (repo_id : N) (oid : ObjectId) : bytes :=
  [PREFIX_OBJ] ++ u64_be repo_id ++ oid_as_bytes oid.
Definition par (repo_id : N) (commit_oid : ObjectId) (pos : N) : bytes :=
  [PREFIX_PAR] ++ u64_be repo_id ++ oid_as_bytes commit_oid ++ to_be_bytes 2 pos.
Definition parents_prefix_start (repo_id : N) (commit_oid : ObjectId) : bytes :=
  [PREFIX_PAR] ++ u64_be repo_id ++ oid_as_bytes commit_oid.
Definition parents_prefix_end (repo_id : N) (commit_oid : ObjectId) : bytes :=
  increment_in_place (parents_prefix_start repo_id commit_oid).
End keys.

#[global] Arguments u64_be : simpl never.
#[global] Arguments refs_prefix_start : simpl never.
#[global] Arguments refkey : simpl never.
#[global] Arguments obj {_} : simpl never.
#[global] Arguments par {_} : simpl never.
#[global] Arguments parents_prefix_start {_} : simpl never.
#[global] Arguments repo_meta : simpl never.

(** ** Scan bounds *)

(** [increment_in_place] front to back. *)
Fixpoint increment (key : bytes) : option bytes :=
  match key with
  | [] => None
  | b :: key' =>
      match increment key' with
      | Some q => Some (b :: q)
      | None => if Byte.to_N b <? 255 then Some [of_N (Byte.to_N b + 1)] else None
      end
  end.

Lemma increment_rev_snoc r b :
  increment_rev (r ++ [b]) =
  match increment_rev r with
  | Some r' => Some (r' ++ [b])
  | None => if Byte.to_N b <? 255 then Some [of_N (Byte.to_N b + 1)] else None
  end.
Proof. induction r as [|c r IH]; simpl; [done|]. by destruct (Byte.to_N c <? 255). Qed.

Lemma increment_rev_spec key : increment_rev (reverse key) = reverse <$> increment key.
Proof.
  induction key as [|b key IH]; simpl; [done|]. rewrite reverse_cons, increment_rev_snoc, IH.
  destruct (increment key) as [q|]; simpl; [by rewrite reverse_cons|].
  by destruct (Byte.to_N b <? 255).
Qed.

Lemma increment_in_place_spec key :
  increment_in_place key = default (key ++ [x00]) (increment key).
Proof.
  unfold increment_in_place. rewrite increment_rev_spec.
  destruct (increment key); simpl; [by rewrite reverse_involutive|done].
Qed.

Lemma increment_bounds p k :
  match increment p with
  | Some q => lex_ltb k p = false ∧ lex_ltb k q = true
  | None => lex_ltb k p = false
  end ↔ ∃ s, k = p ++ s.
Proof.
  revert k; induction p as [|b p IH]; intros k; simpl.
  { destruct k; naive_solver. }
  destruct k as [|c k].
  { split; [destruct (increment p), (Byte.to_N b <? 255); naive_solver|naive_solver]. }
  destruct (decide (c = b)) as [->|Hcb].
  - specialize (IH k).
    assert ((∃ s, b :: k = b :: p ++ s) ↔ ∃ s, k = p ++ s) as -> by naive_solver.
    rewrite <- IH. destruct (increment p) as [q|]; simpl.
    + by rewrite !decide_True by done.
    + destruct (Byte.to_N b <? 255) eqn:Hb; simpl; rewrite decide_True by done.
      * apply N.ltb_lt in Hb. rewrite decide_False.
        2: { intros E. apply (f_equal Byte.to_N) in E. rewrite to_N_of_N in E; lia. }
        rewrite to_N_of_N by lia. rewrite (proj2 (N.ltb_lt (Byte.to_N b) _)) by lia.
        naive_solver.
      * done.
  - transitivity False; [|naive_solver]. split; [|done].
    assert (Byte.to_N c ≠ Byte.to_N b) by (intros E; by apply to_N_inj in E).
    pose proof (to_N_lt c). pose proof (to_N_lt b).
    destruct (increment p) as [q|]; simpl.
    + rewrite !decide_False by done. by intros [-> ?].
    + destruct (Byte.to_N b <? 255) eqn:Hb; simpl; rewrite decide_False by done.
      * apply N.ltb_lt in Hb. intros [Hlt Hq]. apply N.ltb_ge in Hlt.
        case_decide as Hc; [by destruct k|]. rewrite to_N_of_N in Hq by lia.
        apply N.ltb_lt in Hq. lia.
      * apply N.ltb_ge in Hb. intros Hlt. apply N.ltb_ge in Hlt. lia.
Qed.

(** A scan from [p] to [increment_in_place p] sees exactly the keys with prefix [p],
    unless every byte of [p] is [0xFF]. *)
Lemma prefix_range p k :
  Exists (λ b, Byte.to_N b < 255) p →
  lex_leb p k = true ∧ lex_ltb k (increment_in_place p) = true ↔ ∃ s, k = p ++ s.
Proof.
  intros Hp. rewrite <- increment_bounds, increment_in_place_spec.
  assert (is_Some (increment p)) as [q ->].
  { induction Hp as [b p Hb|b p _ IH]; simpl.
    - apply N.ltb_lt in Hb. rewrite Hb. by destruct (increment p).
    - destruct IH as [q ->]. by eexists. }
  simpl. unfold lex_leb. rewrite negb_true_iff. done.
Qed.

Section key_facts.
Context `{GixHashLaws}.

Definition in_range_of (lo hi k : bytes) : bool := lex_leb lo k && lex_ltb k hi.

Lemma in_range_prefix p k :
  Exists (λ b, Byte.to_N b < 255) p →
  in_range_of p (increment_in_place p) k = true ↔ ∃ s, k = p ++ s.
Proof. intros Hp. unfold in_range_of. rewrite andb_true_iff. by apply prefix_range. Qed.

Lemma refs_range repo_id k :
  in_range_of (refs_prefix_start repo_id) (refs_prefix_end repo_id) k = true ↔
  ∃ name, k = refkey repo_id name.
Proof.
  unfold refs_prefix_end. rewrite in_range_prefix; [|by apply Exists_cons; left].
  unfold refkey, refs_prefix_start. by setoid_rewrite (app_assoc [PREFIX_REF]).
Qed.

Lemma parents_range repo_id c k :
  in_range_of (parents_prefix_start repo_id c) (parents_prefix_end repo_id c) k = true ↔
  ∃ s, k = parents_prefix_start repo_id c ++ s.
Proof. apply in_range_prefix. by apply Exists_cons; left. Qed.

(** ** Logical keys *)

Inductive kv_key :=
| KRepoIndex (path : bytes)
| KNextRepoId
| KRepoMeta (repo_id : N) (tag : byte)
| KRef (repo_id : N) (name : bytes)
| KObj (repo_id : N) (oid : ObjectId)
| KPar (repo_id : N) (commit : ObjectId) (pos : N).

Definition encode_key (k : kv_key) : bytes :=
  match k with
  | KRepoIndex path => repo_index path
  | KNextRepoId => next_repo_id
  | KRepoMeta id tag => repo_meta id tag
  | KRef id name => refkey id name
  | KObj id o => obj id o
  | KPar id c pos => par id c pos
  end.

(** Ids and positions within their machine widths. *)
Definition key_wf (k : kv_key) : Prop :=
  match k with
  | KRepoMeta id _ | KRef id _ | KObj id _ => id ≤ u64_max
  | KPar id _ pos => id ≤ u64_max ∧ pos ≤ u16_max
  | _ => True
  end.

Lemma cons_eq {A} (x y : A) s t : x :: s = y :: t → x = y ∧ s = t.
Proof. by intros [= -> ->]. Qed.

Lemma u64_be_app_inj i j s t :
  i ≤ u64_max → j ≤ u64_max → u64_be i ++ s = u64_be j ++ t → i = j ∧ s = t.
Proof.
  intros Hi Hj E. apply app_inj_1 in E as [E ->]; [|by unfold u64_be; rewrite !length_to_be_bytes].
  split; [|done]. unfold u64_max in *.
  apply (to_be_bytes_inj 8 i j); [apply N.lt_succ_r in Hi; exact Hi|apply N.lt_succ_r in Hj; exact Hj|exact E].
Qed.

Lemma oid_bytes_app_inj o p s t : oid_as_bytes o ++ s = oid_as_bytes p ++ t → o = p ∧ s = t.
Proof.
  intros E. apply app_inj_1 in E as [E ->]; [|by rewrite !length_oid_as_bytes].
  split; [|done]. by apply oid_as_bytes_inj.
Qed.

(** One keyspace, no collisions: two keys of the store, of any tables, are the
    same bytes only if they are the same logical key. *)
Theorem encode_key_inj k1 k2 :
  key_wf k1 → key_wf k2 → encode_key k1 = encode_key k2 → k1 = k2.
Proof.
  destruct k1 as [p1| |i1 t1|i1 n1|i1 o1|i1 c1 x1], k2 as [p2| |i2 t2|i2 n2|i2 o2|i2 c2 x2];
    intros Hw1 Hw2 E; try (by apply cons_eq in E as [E _]).
  - by injection E as ->.
  - apply cons_eq in E as [_ E]. simpl in E. apply u64_be_app_inj in E as [-> E]; [|done..]. by injection E as ->.
  - apply cons_eq in E as [_ E]. simpl in E. by apply u64_be_app_inj in E as [-> ->].
  - apply cons_eq in E as [_ E]. simpl in E. apply u64_be_app_inj in E as [-> E]; [|done..].
    apply oid_as_bytes_inj in E as ->. done.
  - apply cons_eq in E as [_ E]. simpl in E. destruct Hw1 as [? Hx1], Hw2 as [? Hx2].
    apply u64_be_app_inj in E as [-> E]; [|done..].
    apply oid_bytes_app_inj in E as [-> E]. f_equal. unfold u16_max in *.
    apply (to_be_bytes_inj 2); [apply N.lt_succ_r in Hx1; exact Hx1|apply N.lt_succ_r in Hx2; exact Hx2|done].
Qed.

(** Range scans stay inside one repository and one commit: among the keys of the
    store, the scan [refs_prefix_start .. refs_prefix_end] of a repository sees exactly
    its ref keys, and [parents_prefix_start .. parents_prefix_end] exactly the parent
    keys of that commit in that repository. *)
Theorem scans_see_own_keys repo_id c k :
  repo_id ≤ u64_max → key_wf k →
  (in_range_of (refs_prefix_start repo_id) (refs_prefix_end repo_id) (encode_key k) = true ↔
   ∃ name, k = KRef repo_id name) ∧
  (in_range_of (parents_prefix_start repo_id c) (parents_prefix_end repo_id c) (encode_key k) = true ↔
   ∃ pos, k = KPar repo_id c pos).
Proof.
  intros Hid Hk. rewrite refs_range, parents_range. split; split.
  - intros [name E]. exists name.
    destruct k; try (by apply cons_eq in E as [E _]). apply cons_eq in E as [_ E]. simpl in E.
    by apply u64_be_app_inj in E as [-> ->].
  - intros [name ->]. by exists name.
  - intros [s E]. unfold parents_prefix_start in E.
    destruct k as [| | | | |i2 c2 x2]; try (by apply cons_eq in E as [E _]). apply cons_eq in E as [_ E]. simpl in E.
    destruct Hk. apply u64_be_app_inj in E as [-> E]; [|done..].
    apply oid_bytes_app_inj in E as [-> E]. by exists x2.
  - intros [pos ->]. exists (to_be_bytes 2 pos). unfold encode_key, par, parents_prefix_start.
    by rewrite <- !app_assoc.
Qed.

Lemma refname_from_refkey repo_id name :
  utf8_valid name = true → refname_from_key repo_id (refkey repo_id name) = Some name.
Proof.
  intros Hu. unfold refname_from_key, refkey, refs_prefix_start.
  rewrite app_assoc, strip_prefix_app. unfold from_utf8. by rewrite Hu.
Qed.

(** Scanning in key order is scanning in position order. *)
Lemma par_key_order repo_id c i j :
  i ≤ u16_max → j ≤ u16_max → lex_ltb (par repo_id c i) (par repo_id c j) = (i <? j).
Proof.
  intros Hi Hj. unfold par. rewrite !lex_ltb_app_l. unfold u16_max in *.
  apply lex_ltb_be; [apply N.lt_succ_r in Hi; exact Hi|apply N.lt_succ_r in Hj; exact Hj].
Qed.
End key_facts.
