(* ===== verification/Kv.v ===== *)
(** * The transactional key-value backend ([backend/kv])

    The database is a finite map of byte keys to byte values.  The TiKV client is
    third-party code: a transaction reads its snapshot and its own writes, [commit]
    makes all its writes visible or fails and makes none visible, [rollback] discards
    them, and any call may fail ([fault]).  Transactions of this process run one after
    the other. *)

From stdpp Require Import base gmap list sorting strings.
From Stdlib Require Import Strings.Byte.
From S2P Require Import Prelude Bytes Gix Proto Types Graph Inspect KvKeys.
Open Scope N_scope.

(** ** Transactions *)

Abbreviation db :=
  (@gmap bytes (@list_eq_dec byte byte_eq_dec)
     (@list_countable byte byte_eq_dec byte_countable) bytes).

Inductive kv_op :=
| OpBegin
| OpGet (k : bytes)
| OpGetForUpdate (k : bytes)
| OpKeyExists (k : bytes)
| OpBatchGet (ks : list bytes)
| OpScan (lo hi : bytes)
| OpPut (k v : bytes)
| OpDelete (k : bytes)
| OpCommit.

(** Which calls fail, and how, in which state. *)
Class Tikv := { fault : db → kv_op → option error }.

Definition key_leb : relation (bytes * bytes) := λ x y, lex_leb x.1 y.1 = true.
#[global] Instance key_leb_dec : RelDecision key_leb.
Proof. intros x y. unfold key_leb. apply _. Defined.

(** The first [n] elements, without counting to [n] when there are fewer. *)
Definition take_N {A} (n : N) (l : list A) : list A :=
  if len l <=? n then l else take (N.to_nat n) l.

Lemma take_N_take {A} n (l : list A) : take_N n l = take (N.to_nat n) l.
Proof.
  unfold take_N, len. destruct (N.leb_spec (N.of_nat (length l)) n); [|done].
  by rewrite take_ge by lia.
Qed.

(** The pairs of a half-open key range, in key order, at most [limit] of them. *)
Definition scan_pairs (lo hi : bytes) (limit : N) (m : db) : list (bytes * bytes) :=
  take_N limit
    (merge_sort key_leb
       (base.filter (λ kv, in_range_of lo hi kv.1 = true) (map_to_list m))).

Section txn.
Context {tikv : Tikv}.

(** A call that may fail, with the context the sources attach. *)
Definition call {A : Type} (op : kv_op) (ctx : bytes) (f : db → A * db) : ST db A := fun m =>
  match fault m op with
  | Some e => (Err (Context ctx e), m)
  | None => let '(a, m') := f m in (Ok a, m')
  end.

Definition t_get (k ctx : bytes) : ST db (option bytes) := call (OpGet k) ctx (λ m, (m !! k, m)).
Definition t_get_for_update (k ctx : bytes) : ST db (option bytes) :=
  call (OpGetForUpdate k) ctx (λ m, (m !! k, m)).
Definition t_key_exists (k ctx : bytes) : ST db bool :=
  call (OpKeyExists k) ctx (λ m, (bool_decide (is_Some (m !! k)), m)).
(** [batch_get]: the keys that exist, with their values. *)
Definition t_batch_get (ks : list bytes) (ctx : bytes) : ST db (list (bytes * bytes)) :=
  call (OpBatchGet ks) ctx (λ m, (omap (λ k, (λ v, (k, v)) <$> m !! k) ks, m)).
Definition t_scan (lo hi : bytes) (limit : N) (ctx : bytes) : ST db (list (bytes * bytes)) :=
  call (OpScan lo hi) ctx (λ m, (scan_pairs lo hi limit m, m)).
Definition t_put (k v ctx : bytes) : ST db () := call (OpPut k v) ctx (λ m, ((), <[k := v]> m)).
Definition t_delete (k ctx : bytes) : ST db () := call (OpDelete k) ctx (λ m, ((), delete k m)).

(** Commit on success, rollback on failure; a failed commit is the caller's error. *)
Definition finalize_write {A : Type} (before : db) (r : result error A * db) : result error A * db :=
  match r with
  | (Ok v, m) =>
      match fault m OpCommit with
      | Some e => (Err (Context (b! "commit txn") e), before)
      | None => (Ok v, m)
      end
  | (Err e, _) => (Err e, before)
  end.

(** The same, but a failed commit of a read is ignored. *)
Definition finalize_read {A : Type} (before : db) (r : result error A * db) : result error A * db :=
  match r with
  | (Ok v, m) => (Ok v, match fault m OpCommit with Some _ => before | None => m end)
  | (Err e, _) => (Err e, before)
  end.

Definition write_txn {A : Type} (ctx : bytes) (body : ST db A) : ST db A := fun m =>
  match fault m OpBegin with
  | Some e => (Err (Context ctx e), m)
  | None => finalize_write m (body m)
  end.

Definition read_txn {A : Type} (ctx : bytes) (body : ST db A) : ST db A := fun m =>
  match fault m OpBegin with
  | Some e => (Err (Context ctx e), m)
  | None => finalize_read m (body m)
  end.
End txn.

Section kv.
Context `{GixObject} {tikv : Tikv} {gix_pack : GixPack}.

(** ** Refs ([refs.rs]) *)

Definition SCAN_LIMIT : N := u32_max.

Definition ref_of_pair (repo_id : N) (kv : bytes * bytes) : result error RefInfo :=
  name ← ok_or (Msg (b! "decoding ref name from key")) (refname_from_key repo_id kv.1);
  oid ← map_err (Fmt (b! "corrupt ref oid for " ++ name ++ b! ": ")) (oid_try_from kv.2);
  Ok {| r_name := name; r_oid := oid; r_peeled := None; r_symref_target := None |}.

Definition default_head : bytes := b! "refs/heads/main".

Definition find_head (head_target : bytes) (refs : list RefInfo) : option HeadInfo :=
  (λ r, {| h_oid := r_oid r; h_symref_target := Some head_target |}) <$>
    head (base.filter (λ r, r_name r = head_target) refs).

Definition list_refs (repo_id : N) : ST db RefsSnapshot :=
  read_txn (b! "begin txn for list_refs")
    (pairs ← t_scan (refs_prefix_start repo_id) (refs_prefix_end repo_id) SCAN_LIMIT (b! "scan refs");
     refs ← lift (mapM (ref_of_pair repo_id) pairs);
     head ← t_get (repo_meta repo_id REPO_META_HEAD) (b! "read HEAD symref");
     let head_target := default default_head (head ≫= λ v, ok (from_utf8 v)) in
     mret {| rs_head := find_head head_target refs; rs_refs := refs |}).

(** An optional stored id: absent, or parsed, or corrupt. *)
Definition stored_oid (refname : bytes) (v : option bytes) : result error (option ObjectId) :=
  match v with
  | None => Ok None
  | Some v =>
      o ← map_err (Fmt (b! "corrupt ref value for " ++ refname ++ b! ": ")) (oid_try_from v);
      Ok (Some o)
  end.

Definition resolve_ref (repo_id : N) (refname : bytes) : ST db (option ObjectId) :=
  read_txn (b! "begin txn for resolve_ref")
    (value ← t_get (refkey repo_id refname) (b! "read ref");
     lift (stored_oid refname value)).

Definition stale_info (refname rest : bytes) : error :=
  Msg (b! "stale info: " ++ refname ++ rest).

(** The compare of one update. *)
Definition cas_check (u : RefUpdate) (current : option ObjectId) : result error () :=
  match is_null (old_oid u), current with
  | true, Some actual =>
      Err (stale_info (refname u) (b! " should not exist but is at " ++ oid_to_hex actual))
  | false, None =>
      Err (stale_info (refname u) (b! " expected " ++ oid_to_hex (old_oid u) ++ b! " but is absent"))
  | false, Some actual =>
      if decide (actual ≠ old_oid u)
      then Err (stale_info (refname u)
             (b! " expected " ++ oid_to_hex (old_oid u) ++ b! " but is " ++ oid_to_hex actual))
      else Ok ()
  | true, None => Ok ()
  end.

Definition apply_update (repo_id : N) (u : RefUpdate) : ST db () :=
  let key := refkey repo_id (refname u) in
  value ← t_get_for_update key (b! "CAS read");
  current ← lift (stored_oid (refname u) value);
  lift (cas_check u current) ;;
  if is_null (new_oid u) then t_delete key (b! "delete ref")
  else t_put key (oid_as_bytes (new_oid u)) (b! "write ref").

Definition update_refs (repo_id : N) (updates : list RefUpdate) : ST db () :=
  write_txn (b! "begin txn for update_refs") (for_each (apply_update repo_id) updates).

(** ** Objects ([objects.rs]) *)

Definition KIND_BLOB : byte := x00.
Definition KIND_TREE : byte := x01.
Definition KIND_COMMIT : byte := x02.
Definition KIND_TAG : byte := x03.

Definition encode_object (kind : byte) (data : bytes) : bytes := kind :: data.

Definition decode_object (value : bytes) : result error (byte * bytes) :=
  match value with
  | [] => bail (b! "object value is empty")
  | kind :: data => Ok (kind, data)
  end.

Definition has_object (repo_id : N) (oid : ObjectId) : ST db bool :=
  read_txn (b! "begin txn for has_object") (t_key_exists (obj repo_id oid) (b! "key_exists")).

Definition has_objects (repo_id : N) (oids : list ObjectId) : ST db (list bool) :=
  let key_bytes := obj repo_id <$> oids in
  read_txn (b! "begin txn for has_objects")
    (pairs ← t_batch_get key_bytes (b! "batch_get");
     let found : gset bytes := list_to_set (fst <$> pairs) in
     mret ((λ k, bool_decide (k ∈ found)) <$> key_bytes)).

Definition read_object_with_kind (repo_id : N) (oid : ObjectId) (cap : N) :
    ST db (option (byte * bytes)) :=
  read_txn (b! "begin txn for read_object")
    (value ← t_get (obj repo_id oid) (b! "get obj");
     match value with
     | None => mret None
     | Some value =>
         '(kind, data) ← lift (decode_object value);
         if cap <? len data then mret None else mret (Some (kind, data))
     end).

Definition kv_read_blob (repo_id : N) (oid : ObjectId) (cap : N) : ST db (option bytes) :=
  o ← read_object_with_kind repo_id oid cap;
  mret (match o with
        | Some (kind, data) => if decide (kind = KIND_BLOB) then Some data else None
        | None => None
        end).

Definition read_object_raw (repo_id : N) (oid : ObjectId) (cap : N) : ST db (option bytes) :=
  o ← read_object_with_kind repo_id oid cap;
  mret (snd <$> o).

Definition read_commit_info (repo_id : N) (oid : ObjectId) : ST db CommitInfo :=
  o ← read_object_raw repo_id oid u64_max;
  raw ← lift (ok_or (Msg (b! "commit " ++ oid_to_hex oid ++ b! " not in object store")) o);
  lift (parse_commit_info raw oid).

Record ExtractedObject := {
  xo_oid : ObjectId; xo_kind : byte; xo_data : bytes; xo_parents : list (ObjectId * N) }.

(** [.enumerate().map(|(i, &p)| (p, i as u16))]: the position wraps at 2^16. *)
Definition parent_positions (parents : list ObjectId) : list (ObjectId * N) :=
  imap (λ i p, (p, N.of_nat i mod 65536)) parents.

Definition extract_entry (e : BundleEntry) : result error (ExtractedObject * PackObject) :=
  '(kind, _) ← be_header e;
  raw ← context (b! "decoding pack object") (be_data e);
  '(kind_byte, obj_kind, parents) ←
    match kind with
    | GBlob => Ok (KIND_BLOB, KBlob, [])
    | GTree => Ok (KIND_TREE, KTree, [])
    | GCommit =>
        info ← parse_commit_info raw (be_oid e);
        Ok (KIND_COMMIT, KCommit info, parent_positions (c_parents info))
    | GTag => info ← parse_tag_info raw (be_oid e); Ok (KIND_TAG, KTag info, [])
    end;
  Ok ({| xo_oid := be_oid e; xo_kind := kind_byte; xo_data := raw; xo_parents := parents |},
      {| po_oid := be_oid e; po_kind := obj_kind; po_size := len raw |}).

Definition extract_pack (pack : PackFile) : result error (list ExtractedObject * PackMetadata) :=
  entries ← context (b! "opening pack bundle") (bundle_at pack);
  objs ← mapM extract_entry entries;
  Ok (fst <$> objs, snd <$> objs).

Definition put_object (repo_id : N) (x : ExtractedObject) : ST db () :=
  t_put (obj repo_id (xo_oid x)) (encode_object (xo_kind x) (xo_data x)) (b! "write object") ;;
  for_each (λ '(parent, pos),
      t_put (par repo_id (xo_oid x) pos) (oid_as_bytes parent) (b! "write commit parent"))
    (xo_parents x).

Definition ingest_pack (repo_id : N) (staged_pack : PackFile) :
    ST db (option (PackMetadata * list ObjectId)) :=
  '(header, _) ← lift (context (b! "reading pack header") (read_exact 12 (pf_pack staged_pack)));
  if default 0 (pack_object_count header) =? 0 then mret None
  else
    '(extracted, metadata) ← lift (extract_pack staged_pack);
    match extracted with
    | [] => mret None
    | _ =>
        write_txn (b! "begin txn for ingest") (for_each (put_object repo_id) extracted) ;;
        mret (Some (metadata, xo_oid <$> extracted))
    end.

(** ** The commit graph ([graph.rs]) *)

Definition fetch_parents (repo_id : N) (commit_oid : ObjectId) : ST db (list ObjectId) :=
  read_txn (b! "begin txn for fetch_parents")
    (pairs ← t_scan (parents_prefix_start repo_id commit_oid)
               (parents_prefix_end repo_id commit_oid) u32_max (b! "scan commit parents");
     lift (mapM (λ kv, map_err (Fmt (b! "corrupt parent oid: ")) (oid_try_from kv.2)) pairs)).

(** Reads leave the database alone, so a walk reads all parents from one state. *)
Definition fetch_in (repo_id : N) (m : db) (o : ObjectId) : result error (list ObjectId) :=
  (fetch_parents repo_id o m).1.

(** More rounds than the walk has commits: [kv_walk_total]. *)
Definition walk_fuel (tips : list ObjectId) (m : db) : nat := S (length tips + size m).

Definition kv_is_ancestor (repo_id : N) (ancestor descendant : ObjectId) (m : db) :
    result error bool :=
  default (Ok false)
    (is_ancestor (fetch_in repo_id m) (walk_fuel [descendant] m) ancestor descendant).

Definition compute_push_kind (repo_id : N) (old new : ObjectId) (m : db) : PushKind :=
  if is_null old then Create
  else if is_null new then Delete
  else match kv_is_ancestor repo_id old new m with
       | Ok true => FastForward
       | _ => ForcePush
       end.

Definition reachable_error (cap : N) (e : walk_error error) : ReachableError :=
  match e with
  | WalkCap => CapExceeded cap
  | WalkCollect e => ReachOther (Fmt (b! "collecting ancestors: ") e)
  | WalkFetch e => ReachOther (Fmt (b! "fetching parents: ") e)
  end.

Definition kv_reachable_excluding (repo_id : N) (from excluding : list ObjectId) (cap : N) (m : db) :
    result ReachableError (list ObjectId) :=
  map_err (reachable_error cap)
    (default (Ok [])
       (reachable_excluding (fetch_in repo_id m) (walk_fuel (from ++ excluding) m) from excluding cap)).

(** ** Repositories ([mod.rs]) *)

Definition encode_u64 (v : N) : bytes := to_be_bytes 8 v.

Definition decode_u64 (s : bytes) : result error N :=
  if len s =? 8 then Ok (from_be_bytes s)
  else Err (Msg (b! "expected 8-byte u64, got " ++ decimal (len s) ++ b! " bytes")).

Definition decode_repo_id (v : bytes) : result error N :=
  context (b! "decoding repo_id") (decode_u64 v).

Definition probe_repo (path : bytes) : ST db (option N) :=
  read_txn (b! "begin probe txn")
    (v ← t_get (repo_index path) (b! "read repo_index");
     match v with
     | Some v => id ← lift (decode_repo_id v); mret (Some id)
     | None => mret None
     end).

Definition alloc_repo (path : bytes) : ST db N :=
  write_txn (b! "begin alloc txn for init_repo")
    (v ← t_get (repo_index path) (b! "re-check repo_index");
     match v with
     | Some v => lift (decode_repo_id v)
     | None =>
         c ← t_get_for_update next_repo_id (b! "read repo_id counter");
         next ← match c with
                | Some b => lift (context (b! "decoding repo_id counter") (decode_u64 b))
                | None => mret 1
                end;
         t_put next_repo_id (encode_u64 ((next + 1) mod 2 ^ 64)) (b! "write repo_id counter") ;;
         t_put (repo_index path) (encode_u64 next) (b! "write repo_index") ;;
         t_put (repo_meta next REPO_META_EXISTS) [] (b! "mark repo as existing") ;;
         mret next
     end).

Definition init_repo_inner (path : bytes) : ST db N :=
  o ← probe_repo path;
  match o with
  | Some id => mret id
  | None => alloc_repo path
  end.

(** The path is printed with [{path:?}], in quotes; escapes are not modelled. *)
Definition open_inner (path : bytes) : ST db N :=
  read_txn (b! "begin txn for open")
    (value ← t_get (repo_index path) (b! "read repo_index");
     match value with
     | Some v => lift (decode_repo_id v)
     | None => lift (bail ([x22] ++ path ++ [x22] ++ b! " does not appear to be a git repository"))
     end).
End kv.

(** ** Transactions, in general *)

Section txn_facts.
Context {tikv : Tikv}.

(** A computation that leaves the database as it is. *)
Abbreviation reads := (pres (λ m : db, m)).

Lemma reads_call {A : Type} op (ctx : bytes) (f : db → A) : reads (call op ctx (λ m, (f m, m))).
Proof. intros m. unfold call. by destruct (fault m op). Qed.

Lemma reads_t_get k c : reads (t_get k c).
Proof. apply reads_call. Qed.
Lemma reads_t_get_for_update k c : reads (t_get_for_update k c).
Proof. apply reads_call. Qed.
Lemma reads_t_key_exists k c : reads (t_key_exists k c).
Proof. apply reads_call. Qed.
Lemma reads_t_batch_get k c : reads (t_batch_get k c).
Proof. apply reads_call. Qed.
Lemma reads_t_scan lo hi l c : reads (t_scan lo hi l c).
Proof. apply reads_call. Qed.

Lemma reads_read_txn {A : Type} (ctx : bytes) (body : ST db A) : reads body → reads (read_txn ctx body).
Proof.
  intros Hb m. unfold read_txn. destruct (fault m OpBegin); [done|]. specialize (Hb m).
  destruct (body m) as [[a|e] m']; simpl in *; [|done]. subst. by destruct (fault m OpCommit).
Qed.

(** A write transaction that fails, wherever it fails, changes nothing. *)
Lemma write_txn_Err {A : Type} (ctx : bytes) (body : ST db A) (m : db) (e : error) (m' : db) :
  write_txn ctx body m = (Err e, m') → m' = m.
Proof.
  unfold write_txn. destruct (fault m OpBegin); [by intros [= _ <-]|].
  destruct (body m) as [[a|e'] m1]; simpl; [|by intros [= _ <-]].
  destruct (fault m1 OpCommit); by intros [= _ <-].
Qed.

Lemma write_txn_Ok {A : Type} (ctx : bytes) (body : ST db A) m a m' :
  write_txn ctx body m = (Ok a, m') → body m = (Ok a, m').
Proof.
  unfold write_txn. destruct (fault m OpBegin); [done|].
  destruct (body m) as [[a'|e'] m1]; simpl; [|done].
  by destruct (fault m1 OpCommit).
Qed.
End txn_facts.

#[export] Hint Resolve reads_t_get reads_t_get_for_update reads_t_key_exists reads_t_batch_get
  reads_t_scan reads_read_txn : mizzle.

(** Reading computations, along the structure of their code. *)
Ltac solve_reads := walk_pres ltac:(apply reads_read_txn).

Section kv_reads.
Context `{GixObject} {tikv : Tikv} {gix_pack : GixPack}.
Abbreviation reads := (pres (λ m : db, m)).

Lemma reads_list_refs id : reads (list_refs id).
Proof. unfold list_refs. solve_reads. Qed.
Lemma reads_resolve_ref id n : reads (resolve_ref id n).
Proof. unfold resolve_ref. solve_reads. Qed.
Lemma reads_has_objects id os : reads (has_objects id os).
Proof. unfold has_objects. solve_reads. Qed.
Lemma reads_object_with_kind id o c : reads (read_object_with_kind id o c).
Proof. unfold read_object_with_kind. solve_reads. Qed.
Lemma reads_blob id o c : reads (kv_read_blob id o c).
Proof. apply pres_bind; [apply reads_object_with_kind|intros; apply pres_ret]. Qed.
Lemma reads_object_raw id o c : reads (read_object_raw id o c).
Proof. apply pres_bind; [apply reads_object_with_kind|intros; apply pres_ret]. Qed.
Lemma reads_commit_info id o : reads (read_commit_info id o).
Proof.
  apply pres_bind; [apply reads_object_raw|intros]. apply pres_bind; intros; apply pres_lift.
Qed.
Lemma reads_fetch_parents id o : reads (fetch_parents id o).
Proof. unfold fetch_parents. solve_reads. Qed.
Lemma reads_open path : reads (open_inner path).
Proof. unfold open_inner. solve_reads. Qed.
Lemma reads_probe path : reads (probe_repo path).
Proof. unfold probe_repo. solve_reads. Qed.
End kv_reads.

(** ** The refs of a repository in the database *)

Section kv_refs.
Context `{GixHashLaws} {gix_object : GixObject} {tikv : Tikv}.

Definition ref_entry (repo_id : N) (kv : bytes * bytes) : option (bytes * ObjectId) :=
  name ← strip_prefix (refs_prefix_start repo_id) kv.1;
  o ← ok (oid_try_from kv.2);
  Some (name, o).

Definition kv_refs (repo_id : N) (m : db) : gmap bytes ObjectId :=
  list_to_map (omap (ref_entry repo_id) (map_to_list m)).

Lemma ref_entry_Some id k v n o :
  ref_entry id (k, v) = Some (n, o) ↔ k = refkey id n ∧ oid_try_from v = Ok o.
Proof.
  unfold ref_entry. cbn [fst snd].
  replace (refkey id n) with (refs_prefix_start id ++ n)
    by (unfold refkey, refs_prefix_start; by rewrite <- app_assoc).
  destruct (strip_prefix _ k) as [name|] eqn:E; cbn [mbind option_bind].
  - apply strip_prefix_Some in E as ->.
    destruct (oid_try_from v); cbn [ok mbind option_bind]; [|naive_solver].
    split; [by intros [= -> ->]|]. intros [Hk Ho]. apply app_inv_head in Hk as ->. by injection Ho as ->.
  - split; [done|]. intros [-> _]. by rewrite strip_prefix_app in E.
Qed.

Lemma lookup_kv_refs id m n o :
  kv_refs id m !! n = Some o ↔ ∃ v, m !! refkey id n = Some v ∧ oid_try_from v = Ok o.
Proof.
  unfold kv_refs. rewrite <- elem_of_list_to_map.
  - rewrite list_elem_of_omap. split.
    + intros ([k v] & Hin & [-> Ho]%ref_entry_Some). exists v.
      by apply elem_of_map_to_list in Hin.
    + intros (v & Hm & Ho). exists (refkey id n, v). rewrite elem_of_map_to_list.
      split; [done|]. by apply ref_entry_Some.
  - pose proof (NoDup_fst_map_to_list m) as Hnd. induction (map_to_list m) as [|[k v] l IH]; simpl.
    { constructor. }
    apply NoDup_cons in Hnd as [Hk Hnd].
    destruct (ref_entry id (k, v)) as [[n' o']|] eqn:E; [|by apply IH].
    apply ref_entry_Some in E as [-> _]. apply NoDup_cons. split; [|by apply IH].
    intros ([n2 o2] & Heq & ([k2 v2] & Hin & [-> _]%ref_entry_Some)%list_elem_of_omap)%list_elem_of_fmap.
    cbn in Heq. subst n'. apply Hk. apply list_elem_of_fmap. by exists (refkey id n2, v2).
Qed.

(** No stored ref value of the repository is corrupt. *)
Definition refs_intact (repo_id : N) (m : db) : Prop :=
  ∀ n v, m !! refkey repo_id n = Some v → is_Some (ok (oid_try_from v)).

Lemma lookup_kv_refs_None id m n :
  refs_intact id m → kv_refs id m !! n = None ↔ m !! refkey id n = None.
Proof.
  intros Hi. split.
  - intros Hn. destruct (m !! refkey id n) as [v|] eqn:E; [|done].
    destruct (Hi _ _ E) as [o Ho]. destruct (oid_try_from v) as [o'|] eqn:Ev; [|done].
    assert (kv_refs id m !! n = Some o') by (apply lookup_kv_refs; eauto). congruence.
  - intros Hn. apply eq_None_not_Some. intros [o (v & Hv & _)%lookup_kv_refs]. congruence.
Qed.

Lemma refkey_inj id n1 n2 : refkey id n1 = refkey id n2 → n1 = n2.
Proof. unfold refkey. intros E. rewrite !(app_assoc [PREFIX_REF]) in E. by apply app_inv_head in E. Qed.

Lemma kv_refs_put id m n o :
  kv_refs id (<[refkey id n := oid_as_bytes o]> m) = <[n := o]> (kv_refs id m).
Proof.
  apply map_eq. intros k. apply option_eq. intros p. rewrite lookup_kv_refs.
  rewrite lookup_insert_Some, lookup_kv_refs. setoid_rewrite lookup_insert_Some. split.
  - intros (v & [[Hk <-]|[Hk Hv]] & Ho).
    + left. apply refkey_inj in Hk. rewrite oid_try_from_as_bytes in Ho. by injection Ho.
    + right. split; [by intros ->|eauto].
  - intros [[<- <-]|[Hk (v & Hv & Ho)]].
    + eexists. split; [by left|apply oid_try_from_as_bytes].
    + exists v. split; [|done]. right. split; [|done]. by intros ?%refkey_inj.
Qed.

Lemma kv_refs_delete id m n : kv_refs id (delete (refkey id n) m) = delete n (kv_refs id m).
Proof.
  apply map_eq. intros k. apply option_eq. intros p. rewrite lookup_kv_refs.
  rewrite lookup_delete_Some, lookup_kv_refs. setoid_rewrite lookup_delete_Some. split.
  - intros (v & [Hk Hv] & Ho). split; [by intros ->|eauto].
  - intros [Hk (v & Hv & Ho)]. exists v. split; [|done]. split; [|done]. by intros ?%refkey_inj.
Qed.

(** Writes to other keys leave the refs alone. *)
Lemma kv_refs_put_other id m k v :
  (∀ n, k ≠ refkey id n) → kv_refs id (<[k := v]> m) = kv_refs id m.
Proof.
  intros Hk. apply map_eq. intros n. apply option_eq. intros o. rewrite !lookup_kv_refs.
  by setoid_rewrite lookup_insert_ne.
Qed.

Lemma kv_refs_delete_other id m k :
  (∀ n, k ≠ refkey id n) → kv_refs id (delete k m) = kv_refs id m.
Proof.
  intros Hk. apply map_eq. intros n. apply option_eq. intros o. rewrite !lookup_kv_refs.
  by setoid_rewrite lookup_delete_ne.
Qed.
End kv_refs.

(** ** [update_refs] is the compare-and-swap of the contract *)

Section kv_update_refs.
Context `{GixHashLaws} {gix_object : GixObject} {tikv : Tikv}.

Lemma cas_check_Ok u cur :
  cas_check u cur = Ok () ↔ cur = if is_null (old_oid u) then None else Some (old_oid u).
Proof.
  unfold cas_check. destruct (is_null (old_oid u)), cur as [a|]; try naive_solver.
  case_decide; naive_solver.
Qed.

Lemma stored_oid_Ok n v cur :
  stored_oid n v = Ok cur ↔
  match v with None => cur = None | Some v => ∃ o, oid_try_from v = Ok o ∧ cur = Some o end.
Proof.
  unfold stored_oid. destruct v as [v|]; [|naive_solver].
  destruct (oid_try_from v); cbn; naive_solver.
Qed.

(** The write of an update, on the database. *)
Definition kv_write (repo_id : N) (u : RefUpdate) (m : db) : db :=
  if is_null (new_oid u) then delete (refkey repo_id (refname u)) m
  else <[refkey repo_id (refname u) := oid_as_bytes (new_oid u)]> m.

Lemma apply_update_Ok_inv id u m m' :
  apply_update id u m = (Ok (), m') →
  m' = kv_write id u m ∧
  ∃ cur, stored_oid (refname u) (m !! refkey id (refname u)) = Ok cur ∧ cas_check u cur = Ok ().
Proof.
  unfold apply_update, kv_write, t_get_for_update, t_delete, t_put, call, mbind, ST_bind, lift.
  destruct (fault m _); [done|]. destruct (stored_oid _ _) as [cur|] eqn:Hs; [|done].
  destruct (cas_check u cur) as [[]|] eqn:Hc; [|done].
  destruct (is_null (new_oid u)); destruct (fault m _); try done; intros [= <-]; eauto.
Qed.

Lemma kv_refs_write id u m :
  kv_refs id (kv_write id u m) =
  if is_null (new_oid u) then delete (refname u) (kv_refs id m)
  else <[refname u := new_oid u]> (kv_refs id m).
Proof.
  unfold kv_write. destruct (is_null _); [apply kv_refs_delete|apply kv_refs_put].
Qed.

Lemma stored_oid_kv_refs id m n cur :
  stored_oid n (m !! refkey id n) = Ok cur → kv_refs id m !! n = cur.
Proof.
  rewrite stored_oid_Ok. destruct (m !! refkey id n) as [v|] eqn:E.
  - intros (o & Ho & ->). apply lookup_kv_refs. eauto.
  - intros ->. apply eq_None_not_Some. intros [o (v & Hv & _)%lookup_kv_refs]. congruence.
Qed.

Lemma cas_update_check id u m cur :
  kv_refs id m !! refname u = cur →
  cas_update (kv_refs id m) u =
  match cas_check u cur with Ok _ => Some (kv_refs id (kv_write id u m)) | Err _ => None end.
Proof.
  intros Hcur. unfold cas_update. rewrite kv_refs_write, Hcur. unfold cas_check.
  destruct (is_null (old_oid u)), cur as [a|]; try done.
  case_decide as Ha; case_decide as Hb; simplify_eq; naive_solver.
Qed.

Lemma update_loop_Ok id us m m' :
  for_each (apply_update id) us m = (Ok (), m') →
  cas_updates (kv_refs id m) us = Some (kv_refs id m').
Proof.
  revert m; induction us as [|u us IH]; intros m; simpl; [by intros [= <-]|].
  unfold mbind, ST_bind. destruct (apply_update id u m) as [[[]|] m1] eqn:Hu; [|done].
  apply apply_update_Ok_inv in Hu as [-> (cur & Hs & Hc)].
  rewrite (cas_update_check id u m cur) by (by apply stored_oid_kv_refs). rewrite Hc. simpl. apply IH.
Qed.

Lemma refkey_other_repo id id' n n' : u64_be id' ≠ u64_be id → refkey id n ≠ refkey id' n'.
Proof.
  intros Hne E. apply Hne. unfold refkey in E. apply cons_eq in E as [_ E].
  apply app_inj_1 in E as [E _]; [done|]. unfold u64_be. by rewrite !length_to_be_bytes.
Qed.

Lemma update_loop_frame id id' us m m' :
  u64_be id' ≠ u64_be id → for_each (apply_update id) us m = (Ok (), m') →
  kv_refs id' m' = kv_refs id' m.
Proof.
  intros Hne. revert m; induction us as [|u us IH]; intros m; simpl; [by intros [= <-]|].
  unfold mbind, ST_bind. destruct (apply_update id u m) as [[[]|] m1] eqn:Hu; [|done].
  apply apply_update_Ok_inv in Hu as [-> _]. intros Hr. rewrite (IH _ Hr). unfold kv_write.
  destruct (is_null _); [apply kv_refs_delete_other|apply kv_refs_put_other]; intros n;
    by apply refkey_other_repo.
Qed.

Section no_faults.
Hypothesis no_fault : ∀ m op, fault m op = None.

Lemma apply_update_run id u m cur :
  stored_oid (refname u) (m !! refkey id (refname u)) = Ok cur →
  apply_update id u m =
  match cas_check u cur with Ok _ => (Ok (), kv_write id u m) | Err e => (Err e, m) end.
Proof.
  intros Hs. unfold apply_update, kv_write, t_get_for_update, t_delete, t_put, call, mbind, ST_bind, lift.
  rewrite !no_fault, Hs. destruct (cas_check u cur) as [[]|]; [|done].
  by destruct (is_null _); rewrite no_fault.
Qed.

Lemma refs_intact_stored id m n :
  refs_intact id m → stored_oid n (m !! refkey id n) = Ok (kv_refs id m !! n).
Proof.
  intros Hi. destruct (m !! refkey id n) as [v|] eqn:E.
  - destruct (Hi _ _ E) as [o Ho]. destruct (oid_try_from v) as [o'|] eqn:Ev; [|done].
    apply stored_oid_Ok. exists o'. split; [done|]. apply lookup_kv_refs. eauto.
  - apply stored_oid_Ok. by apply lookup_kv_refs_None.
Qed.

Lemma refs_intact_write id u m : refs_intact id m → refs_intact id (kv_write id u m).
Proof.
  intros Hi n v. unfold kv_write. destruct (is_null _).
  - intros [_ Hv]%lookup_delete_Some. by eapply Hi.
  - intros [[_ <-]|[_ Hv]]%lookup_insert_Some; [|by eapply Hi].
    rewrite oid_try_from_as_bytes. by eexists.
Qed.

Lemma update_loop_run id us m :
  refs_intact id m →
  match cas_updates (kv_refs id m) us with
  | Some refs =>
      ∃ m', for_each (apply_update id) us m = (Ok (), m') ∧ kv_refs id m' = refs ∧ refs_intact id m'
  | None => ∃ e m', for_each (apply_update id) us m = (Err e, m')
  end.
Proof.
  revert m; induction us as [|u us IH]; intros m Hi; simpl; [eauto|].
  pose proof (refs_intact_stored id m (refname u) Hi) as Hs.
  rewrite (cas_update_check id u m _ eq_refl). unfold mbind, ST_bind.
  rewrite (apply_update_run _ _ _ _ Hs).
  destruct (cas_check u _) as [[]|e]; simpl; [|eauto]. apply IH. by apply refs_intact_write.
Qed.

Lemma update_refs_run id us m :
  refs_intact id m →
  match cas_updates (kv_refs id m) us with
  | Some refs => ∃ m', update_refs id us m = (Ok (), m') ∧ kv_refs id m' = refs ∧ refs_intact id m'
  | None => ∃ e, update_refs id us m = (Err e, m)
  end.
Proof.
  intros Hi. pose proof (update_loop_run id us m Hi) as Hl.
  unfold update_refs, write_txn. rewrite no_fault. destruct (cas_updates _ us) as [refs|].
  - destruct Hl as (m' & -> & Hr & Hi'). cbn. rewrite no_fault. eauto.
  - destruct Hl as (e & m' & ->). cbn. eauto.
Qed.

Lemma resolve_ref_run id n m :
  refs_intact id m → resolve_ref id n m = (Ok (kv_refs id m !! n), m).
Proof.
  intros Hi. unfold resolve_ref, read_txn, t_get, call, mbind, ST_bind, lift. rewrite !no_fault.
  rewrite refs_intact_stored by done. cbn. by rewrite ?no_fault.
Qed.
End no_faults.

(** (C11) The KV backend's [update_refs] is exactly the compare-and-swap of the trait's
    contract: when the store answers and no stored value is corrupt, it succeeds if and
    only if every update, applied in order, finds the old value it names, and then the
    refs are the result; otherwise it fails and the whole database is as before. *)
Theorem kv_update_refs_cas id us m :
  (∀ m op, fault m op = None) → refs_intact id m →
  match cas_updates (kv_refs id m) us with
  | Some refs => ∃ m', update_refs id us m = (Ok (), m') ∧ kv_refs id m' = refs
  | None => ∃ e, update_refs id us m = (Err e, m)
  end.
Proof.
  intros Hnf Hi. pose proof (update_refs_run Hnf id us m Hi) as Hl.
  destruct (cas_updates _ us); naive_solver.
Qed.
End kv_update_refs.

(** ** Listing and resolving *)

Section scans.

#[local] Instance key_leb_total : Total key_leb.
Proof.
  intros x y. unfold key_leb, lex_leb. rewrite !negb_true_iff.
  destruct (lex_ltb y.1 x.1) eqn:E; [right|by left].
  destruct (lex_ltb x.1 y.1) eqn:E'; [|done].
  pose proof (lex_ltb_trans _ _ _ E E') as Ht. by rewrite lex_ltb_irrefl in Ht.
Qed.

#[local] Instance key_leb_trans : Transitive key_leb.
Proof.
  intros x y z. unfold key_leb, lex_leb. rewrite !negb_true_iff. intros Hxy Hyz.
  destruct (lex_ltb z.1 x.1) eqn:E; [|done].
  destruct (lex_ltb x.1 y.1) eqn:E2.
  - pose proof (lex_ltb_trans _ _ _ E E2). congruence.
  - pose proof (lex_ltb_total _ _ E2 Hxy) as Heq. rewrite Heq in *. congruence.
Qed.

(** A scan with room for the whole range returns it, in key order. *)
Lemma scan_pairs_spec lo hi limit m :
  N.of_nat (size m) ≤ limit →
  (∀ k v, (k, v) ∈ scan_pairs lo hi limit m ↔ m !! k = Some v ∧ in_range_of lo hi k = true) ∧
  StronglySorted key_leb (scan_pairs lo hi limit m) ∧ NoDup (fst <$> scan_pairs lo hi limit m).
Proof.
  intros Hlim. unfold scan_pairs. rewrite take_N_take.
  set (l := base.filter (λ kv, in_range_of lo hi kv.1 = true) (map_to_list m)).
  pose proof (merge_sort_Permutation key_leb l) as Hp.
  rewrite take_ge.
  2: { rewrite Hp. transitivity (length (map_to_list m)); [apply length_filter|].
       rewrite length_map_to_list. lia. }
  split_and!.
  - intros k v. rewrite Hp. subst l. rewrite list_elem_of_filter, elem_of_map_to_list. naive_solver.
  - apply StronglySorted_merge_sort; apply _.
  - rewrite Hp. eapply sublist_NoDup; [apply (NoDup_fst_map_to_list m)|].
    apply fmap_sublist, sublist_filter.
Qed.

(** Every scanned pair is in the database, whatever the limit. *)
Lemma scan_pairs_sound lo hi limit m k v : (k, v) ∈ scan_pairs lo hi limit m → m !! k = Some v.
Proof.
  unfold scan_pairs. rewrite take_N_take. intros (i & Hi & _)%elem_of_take. apply list_elem_of_lookup_2 in Hi.
  rewrite merge_sort_Permutation in Hi. apply list_elem_of_filter in Hi as [_ Hi].
  by apply elem_of_map_to_list in Hi.
Qed.
End scans.

Section kv_listing.
Context `{GixHashLaws} {gix_object : GixObject} {tikv : Tikv}.

(** Every ref name of the repository is UTF-8, as the request parser ensures. *)
Definition refs_named (repo_id : N) (m : db) : Prop :=
  ∀ n, is_Some (m !! refkey repo_id n) → utf8_valid n = true.

Definition ref_pair (r : RefInfo) : bytes * ObjectId := (r_name r, r_oid r).

Lemma ref_of_pair_Ok id k v r :
  ref_of_pair id (k, v) = Ok r →
  k = refkey id (r_name r) ∧ oid_try_from v = Ok (r_oid r).
Proof.
  unfold ref_of_pair, refname_from_key. cbn [fst snd].
  destruct (strip_prefix _ k) as [n|] eqn:E; [|done]. apply strip_prefix_Some in E as ->.
  unfold from_utf8. destruct (utf8_valid n); [|done]. cbn.
  destruct (oid_try_from v) as [o|]; [|done]. cbn. intros [= <-]. cbn. split; [|done].
  unfold refkey, refs_prefix_start. by rewrite <- app_assoc.
Qed.

Lemma ref_of_pair_total id n v :
  utf8_valid n = true → is_Some (ok (oid_try_from v)) →
  ∃ r, ref_of_pair id (refkey id n, v) = Ok r.
Proof.
  intros Hn [o Ho]. unfold ref_of_pair. cbn [fst snd]. rewrite refname_from_refkey by done. cbn.
  destruct (oid_try_from v); [|done]. cbn. eauto.
Qed.

Lemma refkey_lex id n1 n2 : lex_ltb (refkey id n1) (refkey id n2) = lex_ltb n1 n2.
Proof. unfold refkey. by rewrite !lex_ltb_app_l. Qed.

Lemma names_sorted id pairs refs :
  Forall2 (λ kv r, ref_of_pair id kv = Ok r) pairs refs →
  StronglySorted key_leb pairs → NoDup (fst <$> pairs) →
  StronglySorted (λ a b, lex_ltb a b = true) (r_name <$> refs).
Proof.
  induction 1 as [|[k v] r pairs refs Hr Hrs IH]; intros Hs Hnd; [constructor|].
  apply StronglySorted_inv in Hs as [Hs Hall]. rewrite fmap_cons.
  apply NoDup_cons in Hnd as [Hk Hnd]. constructor; [by apply IH|].
  apply ref_of_pair_Ok in Hr as [-> _].
  apply Forall_fmap, Forall_forall. intros r' Hin.
  apply list_elem_of_lookup in Hin as [i Hi].
  destruct (Forall2_lookup_r _ _ _ _ _ Hrs Hi) as ([k' v'] & Hkv & Hr'). apply ref_of_pair_Ok in Hr' as [-> _].
  apply list_elem_of_lookup_2 in Hkv. rewrite Forall_forall in Hall. specialize (Hall _ Hkv).
  unfold key_leb, lex_leb in Hall. cbn [fst] in *. rewrite refkey_lex, negb_true_iff in Hall. simpl.
  destruct (lex_ltb (r_name r) (r_name r')) eqn:E; [done|].
  pose proof (lex_ltb_total _ _ E Hall) as Heq. destruct Hk. rewrite Heq.
  apply list_elem_of_fmap. by exists (refkey id (r_name r'), v').
Qed.

Lemma find_head_spec (refs : list RefInfo) (view : gmap bytes ObjectId) target :
  (∀ n o, (n, o) ∈ ref_pair <$> refs ↔ view !! n = Some o) →
  find_head target refs =
  (λ o, {| h_oid := o; h_symref_target := Some target |}) <$> view !! target.
Proof.
  intros Hv. unfold find_head.
  destruct (head (base.filter (λ r, r_name r = target) refs)) as [r|] eqn:E; cbn.
  - apply head_Some_elem_of, list_elem_of_filter in E as [Hn Hin].
    assert (view !! target = Some (r_oid r)) as ->; [|done]. apply Hv.
    apply list_elem_of_fmap. exists r. by subst target.
  - destruct (view !! target) as [o|] eqn:Ho; [|done]. apply Hv in Ho.
    apply list_elem_of_fmap in Ho as (r & [= -> ->] & Hin).
    apply head_None in E.
    assert (r ∈ base.filter (λ r', r_name r' = r_name r) refs) as Hf by (by apply list_elem_of_filter).
    rewrite E in Hf. by apply elem_of_nil in Hf.
Qed.

Definition head_target (repo_id : N) (m : db) : bytes :=
  default default_head (m !! repo_meta repo_id REPO_META_HEAD ≫= λ v, ok (from_utf8 v)).

(** Listing shows the refs that are there: on a healthy store, [list_refs] returns
    exactly the repository's refs with their ids, in strictly increasing name order, and
    [HEAD] as the ref its symbolic target names (absent when that ref is); resolving one
    name agrees with the listing.  Neither changes the database. *)
Theorem kv_list_refs_correct id m :
  (∀ m op, fault m op = None) → refs_intact id m → refs_named id m →
  N.of_nat (size m) ≤ SCAN_LIMIT →
  ∃ snap, list_refs id m = (Ok snap, m) ∧
    (∀ n o, (n, o) ∈ ref_pair <$> rs_refs snap ↔ kv_refs id m !! n = Some o) ∧
    StronglySorted (λ a b, lex_ltb a b = true) (r_name <$> rs_refs snap) ∧
    rs_head snap = (λ o, {| h_oid := o; h_symref_target := Some (head_target id m) |}) <$>
                     kv_refs id m !! head_target id m ∧
    ∀ n, resolve_ref id n m = (Ok (kv_refs id m !! n), m).
Proof.
  intros Hnf Hi Hn Hsz.
  destruct (scan_pairs_spec (refs_prefix_start id) (refs_prefix_end id) SCAN_LIMIT m Hsz)
    as (Hin & Hsort & Hnd).
  destruct (result_mapM_total (ref_of_pair id)
    (scan_pairs (refs_prefix_start id) (refs_prefix_end id) SCAN_LIMIT m)) as [refs Hrefs].
  { intros [k v] [Hm [n ->]%refs_range]%Hin. apply ref_of_pair_total; [apply Hn; eauto|by eapply Hi]. }
  exists {| rs_head := find_head (head_target id m) refs; rs_refs := refs |}.
  assert (∀ n o, (n, o) ∈ ref_pair <$> refs ↔ kv_refs id m !! n = Some o) as Hview.
  { apply result_mapM_Ok in Hrefs. intros n o. rewrite lookup_kv_refs, list_elem_of_fmap. split.
    - intros (r & [= -> ->] & [i Hr]%list_elem_of_lookup).
      destruct (Forall2_lookup_r _ _ _ _ _ Hrefs Hr) as ([k v] & Hkv & [-> Ho]%ref_of_pair_Ok).
      exists v. split; [|done]. by apply list_elem_of_lookup_2, Hin in Hkv as [? _].
    - intros (v & Hv & Ho).
      assert ((refkey id n, v) ∈ scan_pairs (refs_prefix_start id) (refs_prefix_end id) SCAN_LIMIT m)
        as [i Hkv]%list_elem_of_lookup by (apply Hin; split; [done|]; apply refs_range; eauto).
      destruct (Forall2_lookup_l _ _ _ _ _ Hrefs Hkv) as (r & Hr & [Hk Ho']%ref_of_pair_Ok).
      exists r. split; [|by eapply list_elem_of_lookup_2]. unfold ref_pair.
      apply refkey_inj in Hk. congruence. }
  split_and!.
  - unfold list_refs, read_txn, t_scan, t_get, call, mbind, ST_bind, lift. rewrite !Hnf.
    cbn [fst snd]. rewrite Hrefs, ?Hnf. cbn. by rewrite ?Hnf.
  - done.
  - eapply names_sorted; [by apply result_mapM_Ok|done|done].
  - by apply find_head_spec.
  - intros n. by apply resolve_ref_run.
Qed.
End kv_listing.

(** ** Graph walks *)

Section kv_graph.
Context `{GixHashLaws} {gix_object : GixObject} {tikv : Tikv}.

Lemma fetch_in_Ok id m o ps :
  fetch_in id m o = Ok ps →
  Forall2 (λ kv p, oid_try_from kv.2 = Ok p)
    (scan_pairs (parents_prefix_start id o) (parents_prefix_end id o) u32_max m) ps.
Proof.
  unfold fetch_in, fetch_parents, read_txn, t_scan, call, mbind, ST_bind, lift.
  destruct (fault m OpBegin); [done|]. destruct (fault m (OpScan _ _)); [done|].
  destruct (mapM _ _) as [ps'|] eqn:Hm; [|done]. cbn. intros [= <-].
  apply result_mapM_Ok in Hm. eapply Forall2_impl; [exact Hm|]. intros [k v] p. cbn.
  destruct (oid_try_from v); cbn; congruence.
Qed.

(** The commits a walk can meet: its tips, and the ids stored as values. *)
Definition walk_universe (tips : list ObjectId) (m : db) : gset ObjectId :=
  list_to_set tips ∪ list_to_set (omap (λ kv, ok (oid_try_from kv.2)) (map_to_list m)).

Lemma walk_universe_closed id tips m : closed (fetch_in id m) (walk_universe tips m).
Proof.
  intros o p _ Hp. unfold parents in Hp. destruct (fetch_in id m o) as [ps|] eqn:Hf; cbn in Hp.
  2: by apply elem_of_nil in Hp.
  apply fetch_in_Ok in Hf. apply list_elem_of_lookup in Hp as [i Hi].
  destruct (Forall2_lookup_r _ _ _ _ _ Hf Hi) as ([k v] & Hkv & Hv). cbn in Hv.
  unfold walk_universe. apply elem_of_union_r, elem_of_list_to_set, list_elem_of_omap. exists (k, v).
  rewrite elem_of_map_to_list. cbn. rewrite Hv. split; [|done].
  eapply scan_pairs_sound, list_elem_of_lookup_2, Hkv.
Qed.

Lemma walk_universe_size tips m : (size (walk_universe tips m) < walk_fuel tips m)%nat.
Proof.
  unfold walk_universe, walk_fuel. set (vs := omap _ _).
  pose proof (size_list_to_set_le tips). pose proof (size_list_to_set_le vs).
  assert (length vs ≤ size m)%nat.
  { subst vs. etransitivity; [apply length_omap_le|]. by rewrite length_map_to_list. }
  rewrite size_union_alt.
  pose proof (subseteq_size (list_to_set vs ∖ list_to_set tips : gset ObjectId) (list_to_set vs)
                ltac:(set_solver)). lia.
Qed.

Lemma walk_universe_tips tips m o : o ∈ tips → o ∈ walk_universe tips m.
Proof. unfold walk_universe. set_solver. Qed.

(** The fuel of the walks is never exhausted, so their defaults are never used. *)
Lemma kv_walk_total id from excluding cap m :
  reachable_excluding (fetch_in id m) (walk_fuel (from ++ excluding) m) from excluding cap ≠ None.
Proof.
  eapply reachable_total; [apply (walk_universe_closed id (from ++ excluding))| |apply walk_universe_size].
  intros o. apply walk_universe_tips.
Qed.

Lemma kv_ancestor_total id a d m :
  is_ancestor (fetch_in id m) (walk_fuel [d] m) a d ≠ None.
Proof.
  unfold is_ancestor. case_decide; [done|].
  eapply is_ancestor_total; [apply (walk_universe_closed id [d])|intros o; apply walk_universe_tips|].
  pose proof (walk_universe_size [d] m) as Hs. simpl.
  assert (size (walk_universe [d] m ∖ {[d]}) < size (walk_universe [d] m))%nat; [|lia].
  apply subset_size. pose proof (walk_universe_tips [d] m d ltac:(by left)). set_solver.
Qed.

(** The commit graph of a repository, as the store can read it. *)
Definition kv_graph (repo_id : N) (m : db) : ObjectId → list ObjectId := parents (fetch_in repo_id m).

Lemma kv_is_ancestor_Ok id a d m b :
  kv_is_ancestor id a d m = Ok b → b = true ↔ reaches (kv_graph id m) d a.
Proof.
  unfold kv_is_ancestor. pose proof (kv_ancestor_total id a d m) as Ht.
  destruct (is_ancestor _ _ a d) as [r|] eqn:E; [|done]. cbn. intros ->. by eapply is_ancestor_Ok.
Qed.

Lemma kv_is_ancestor_healthy id a d m e :
  (∀ o, is_ok (fetch_in id m o) = true) → kv_is_ancestor id a d m ≠ Err e.
Proof.
  intros Hf. unfold kv_is_ancestor, is_ancestor. case_decide; [done|].
  generalize (walk_fuel [d] m). intros fuel. generalize ({[d]} : gset ObjectId), [d].
  induction fuel as [|fuel IH]; intros v fr; [by simpl|]. simpl.
  destruct fr as [|o fr]; [by simpl|]. specialize (Hf o). destruct (fetch_in id m o); [|done].
  destruct (enqueue_until a _ v fr) as [[v' fr']|]; [apply IH|by simpl].
Qed.

(** Push kinds are decided by ancestry, and fail safe: a push is a create exactly
    when the old id is null and otherwise a delete exactly when the new one is; it is
    called a fast-forward only if the old tip is an ancestor of the new one, even when
    reads fail; and when they do not, every such push is called a fast-forward. *)
Theorem kv_push_kind_correct id old new m :
  (compute_push_kind id old new m = Create ↔ old = oid_null) ∧
  (compute_push_kind id old new m = Delete ↔ old ≠ oid_null ∧ new = oid_null) ∧
  (compute_push_kind id old new m = FastForward →
     old ≠ oid_null ∧ new ≠ oid_null ∧ reaches (kv_graph id m) new old) ∧
  ((∀ o, is_ok (fetch_in id m o) = true) → old ≠ oid_null → new ≠ oid_null →
     reaches (kv_graph id m) new old → compute_push_kind id old new m = FastForward).
Proof.
  unfold compute_push_kind. destruct (is_null old) eqn:Ho.
  { apply is_null_true in Ho. naive_solver. }
  apply is_null_false in Ho. destruct (is_null new) eqn:Hn.
  { apply is_null_true in Hn. naive_solver. }
  apply is_null_false in Hn. destruct (kv_is_ancestor id old new m) as [b|e] eqn:Hk.
  - apply kv_is_ancestor_Ok in Hk. destruct b; naive_solver.
  - split_and!; [naive_solver..|]. intros Hf _ _ _. exfalso. by apply kv_is_ancestor_healthy in Hk.
Qed.

Lemma kv_reachable_spec id from excluding cap m l :
  kv_reachable_excluding id from excluding cap m = Ok l →
  NoDup l ∧ len l ≤ cap ∧
  ∀ o, o ∈ l ↔ reached_from (kv_graph id m) from o ∧ ¬ reached_from (kv_graph id m) excluding o.
Proof.
  unfold kv_reachable_excluding. pose proof (kv_walk_total id from excluding cap m) as Ht.
  destruct (reachable_excluding _ _ _ _ _) as [r|] eqn:E; [|done]. cbn.
  destruct r as [l'|]; [|done]. intros [= <-]. by apply reachable_excluding_Ok in E.
Qed.

(** Reachability walks are exact and bounded: a successful walk lists, each once
    and no more than [cap], exactly the commits reachable from [from] and from no commit
    of [excluding]; and the walk does succeed when no read fails and the store holds no
    more commits than [cap], so [CapExceeded] is reported only beyond the cap. *)
Theorem kv_reachable_exact id from excluding cap m :
  (∀ l, kv_reachable_excluding id from excluding cap m = Ok l →
     NoDup l ∧ len l ≤ cap ∧
     ∀ o, o ∈ l ↔ reached_from (kv_graph id m) from o ∧ ¬ reached_from (kv_graph id m) excluding o) ∧
  ((∀ o, is_ok (fetch_in id m o) = true) →
   N.of_nat (size (walk_universe (from ++ excluding) m)) ≤ cap →
   ∃ l, kv_reachable_excluding id from excluding cap m = Ok l).
Proof.
  split; [apply kv_reachable_spec|]. unfold kv_reachable_excluding.
  - intros Hf Hcap.
    destruct (reachable_excluding_healthy (fetch_in id m)) with
      (U := walk_universe (from ++ excluding) m) (fuel := walk_fuel (from ++ excluding) m)
      (from := from) (excluding := excluding) (cap := cap) as [l ->]; [..|by exists l].
    + intros o. specialize (Hf o). destruct (fetch_in id m o); [eauto|done].
    + apply walk_universe_closed.
    + intros o. apply walk_universe_tips.
    + apply walk_universe_size.
    + done.
Qed.
End kv_graph.

(** ** Ingest, then read back *)

Section kv_ingest.
Context `{GixHashLaws} {gix_object : GixObject} {tikv : Tikv} {gix_pack : GixPack}.

(** The pairs ingest writes for one object. *)
Definition object_writes (repo_id : N) (x : ExtractedObject) : list (bytes * bytes) :=
  (obj repo_id (xo_oid x), encode_object (xo_kind x) (xo_data x)) ::
  ((λ '(parent, pos), (par repo_id (xo_oid x) pos, oid_as_bytes parent)) <$> xo_parents x).

Definition put_pairs (ws : list (bytes * bytes)) (m : db) : db :=
  foldl (λ m kv, <[kv.1 := kv.2]> m) m ws.

Lemma put_pairs_app ws1 ws2 m : put_pairs (ws1 ++ ws2) m = put_pairs ws2 (put_pairs ws1 m).
Proof. apply foldl_app. Qed.

Lemma put_pairs_other k ws m : k ∉ fst <$> ws → put_pairs ws m !! k = m !! k.
Proof.
  induction ws as [|[k' v'] ws IH] using rev_ind; intros Hk; [done|].
  rewrite put_pairs_app, fmap_app in *. cbn. rewrite lookup_insert_ne; [apply IH|]; set_solver.
Qed.

Lemma put_pairs_in k v ws m :
  (k, v) ∈ ws → (∀ v', (k, v') ∈ ws → v' = v) → put_pairs ws m !! k = Some v.
Proof.
  induction ws as [|[k' v'] ws IH] using rev_ind; intros Hin Hfun; [by apply elem_of_nil in Hin|].
  rewrite put_pairs_app. cbn. destruct (decide (k' = k)) as [->|Hne].
  - rewrite lookup_insert_eq. f_equal. apply Hfun. set_solver.
  - rewrite lookup_insert_ne by done. apply IH; [set_solver|]. intros w Hw. apply Hfun. set_solver.
Qed.

Section no_faults.
Hypothesis no_fault : ∀ m op, fault m op = None.

Lemma t_put_run k v c m : t_put k v c m = (Ok (), <[k := v]> m).
Proof. unfold t_put, call. by rewrite no_fault. Qed.

Lemma put_object_run id x m : put_object id x m = (Ok (), put_pairs (object_writes id x) m).
Proof.
  unfold put_object, mbind, ST_bind. rewrite t_put_run. unfold object_writes, put_pairs. cbn.
  generalize (<[obj id (xo_oid x) := encode_object (xo_kind x) (xo_data x)]> m).
  induction (xo_parents x) as [|[p pos] ps IH]; intros m'; [done|].
  cbn. unfold mbind, ST_bind. by rewrite t_put_run.
Qed.

Lemma put_objects_run id xs m :
  for_each (put_object id) xs m = (Ok (), put_pairs (xs ≫= object_writes id) m).
Proof.
  revert m; induction xs as [|x xs IH]; intros m; [done|].
  change ((x :: xs) ≫= object_writes id) with (object_writes id x ++ (xs ≫= object_writes id)).
  rewrite put_pairs_app. simpl. unfold mbind at 1, ST_bind at 1. by rewrite put_object_run.
Qed.
End no_faults.

Lemma obj_inj id o p : obj id o = obj id p → o = p.
Proof.
  unfold obj. intros E. rewrite !(app_assoc [PREFIX_OBJ]) in E. apply app_inv_head in E.
  by apply oid_as_bytes_inj.
Qed.

Lemma par_inj id c c' i j :
  i ≤ u16_max → j ≤ u16_max → par id c i = par id c' j → c = c' ∧ i = j.
Proof.
  unfold par. intros Hi Hj E. rewrite !(app_assoc [PREFIX_PAR]) in E. apply app_inv_head in E.
  apply oid_bytes_app_inj in E as [-> E]. split; [done|]. unfold u16_max in *.
  apply (to_be_bytes_inj 2); [apply N.lt_succ_r in Hi; exact Hi|apply N.lt_succ_r in Hj; exact Hj|done].
Qed.

Lemma obj_not_par id o c i : obj id o ≠ par id c i.
Proof. intros E. by apply cons_eq in E as [E _]. Qed.

Lemma parent_positions_elem ps p pos :
  len ps ≤ 65536 → (p, pos) ∈ parent_positions ps ↔
  ∃ i, ps !! i = Some p ∧ pos = N.of_nat i ∧ pos ≤ u16_max.
Proof.
  unfold len. intros Hl. unfold parent_positions. rewrite elem_of_lookup_imap. unfold u16_max.
  split.
  - intros (i & q & [= -> ->] & Hi). exists i. pose proof (lookup_lt_Some _ _ _ Hi).
    rewrite N.mod_small by lia. split_and!; [done|done|lia].
  - intros (i & Hi & -> & Hle). exists i, p. split; [|done]. by rewrite N.mod_small by lia.
Qed.

(** An extracted object has the parents its commit names, at their positions. *)
Lemma extract_entry_parents e x o :
  extract_entry e = Ok (x, o) →
  xo_oid x = be_oid e ∧ po_oid o = be_oid e ∧
  xo_parents x = parent_positions (match po_kind o with KCommit ci => c_parents ci | _ => [] end).
Proof.
  unfold extract_entry. intros ([k n] & _ & Hx)%result_bind_Ok.
  apply result_bind_Ok in Hx as (raw & _ & Hx). apply result_bind_Ok in Hx as ([[kb ok] ps] & Hk & Hx).
  injection Hx as <- <-. cbn. split_and!; [done|done|].
  destruct k; simplify_eq/=; [done..| |]; apply result_bind_Ok in Hk as (i & _ & Hk); by simplify_eq/=.
Qed.

Lemma extract_commit pack xs meta ci :
  extract_pack pack = Ok (xs, meta) → ci ∈ commits meta →
  ∃ x, x ∈ xs ∧ xo_oid x = c_oid ci ∧ xo_parents x = parent_positions (c_parents ci).
Proof.
  unfold extract_pack. intros (es & _ & Hx)%result_bind_Ok.
  apply result_bind_Ok in Hx as (objs & Hobjs & Hx). injection Hx as <- <-.
  unfold commits. rewrite list_elem_of_omap. intros (o & Ho & Hk).
  apply list_elem_of_fmap in Ho as ([x o'] & -> & Hin). cbn [snd] in *.
  exists x. split; [apply list_elem_of_fmap; by exists (x, o')|].
  apply result_mapM_Ok in Hobjs. apply list_elem_of_lookup in Hin as [i Hi].
  destruct (Forall2_lookup_r _ _ _ _ _ Hobjs Hi) as (e & _ & He).
  pose proof (extract_entry_parents _ _ _ He) as (-> & Hoid & ->).
  destruct (po_kind o') as [| |ci'|] eqn:Hkind; simplify_eq/=. split; [|done].
  unfold extract_entry in He. apply result_bind_Ok in He as ([k n] & _ & He).
  apply result_bind_Ok in He as (raw & _ & He). apply result_bind_Ok in He as ([[kb ok] ps] & Hk' & He).
  injection He as <- <-. cbn in Hkind. subst ok.
  destruct k; simplify_eq/=; apply result_bind_Ok in Hk' as (info & Hinfo & Hk'); simplify_eq/=.
  symmetry. by eapply parse_commit_info_oid.
Qed.

(** Within one ingest, a key is written with one value. *)
Definition writes_coherent (xs : list ExtractedObject) : Prop :=
  NoDup (xo_oid <$> xs) ∧
  ∀ x, x ∈ xs → ∃ ps, xo_parents x = parent_positions ps ∧ len ps ≤ 65536.

Lemma same_oid xs x y :
  NoDup (xo_oid <$> xs) → x ∈ xs → y ∈ xs → xo_oid x = xo_oid y → x = y.
Proof.
  intros Hnd [i Hi]%list_elem_of_lookup [j Hj]%list_elem_of_lookup E.
  assert (i = j) as ->; [|congruence].
  apply (NoDup_lookup _ _ _ (xo_oid x) Hnd); rewrite list_lookup_fmap; [by rewrite Hi|by rewrite Hj, E].
Qed.

Lemma object_write_in id xs x :
  x ∈ xs → (obj id (xo_oid x), encode_object (xo_kind x) (xo_data x)) ∈ xs ≫= object_writes id.
Proof. intros Hx. apply list_elem_of_bind. exists x. split; [by left|done]. Qed.

Lemma object_write_fun id xs x v :
  writes_coherent xs → x ∈ xs → (obj id (xo_oid x), v) ∈ xs ≫= object_writes id →
  v = encode_object (xo_kind x) (xo_data x).
Proof.
  intros [Hnd _] Hx (y & Hv & Hy)%list_elem_of_bind. unfold object_writes in Hv.
  apply elem_of_cons in Hv as [[E ->]%pair_equal_spec|Hv].
  - apply obj_inj in E. by rewrite (same_oid xs x y).
  - apply list_elem_of_fmap in Hv as ([p pos] & [E _]%pair_equal_spec & _). by apply obj_not_par in E.
Qed.

Lemma parent_write_iff id xs x ps k v :
  writes_coherent xs → x ∈ xs → xo_parents x = parent_positions ps →
  (∃ s, k = parents_prefix_start id (xo_oid x) ++ s) →
  (k, v) ∈ xs ≫= object_writes id ↔
  ∃ i p, ps !! i = Some p ∧ k = par id (xo_oid x) (N.of_nat i) ∧ v = oid_as_bytes p.
Proof.
  intros [Hnd Hps] Hx Hp [s Hk].
  assert (len ps ≤ 65536) as Hlen.
  { destruct (Hps x Hx) as (ps' & Hp' & Hl). unfold len in *.
    assert (length ps = length ps') as ->; [|done].
    rewrite Hp in Hp'. apply (f_equal length) in Hp'. unfold parent_positions in Hp'.
    by rewrite !length_imap in Hp'. }
  rewrite list_elem_of_bind. split.
  - intros (y & Hv & Hy). unfold object_writes in Hv. apply elem_of_cons in Hv as [[E _]%pair_equal_spec|Hv].
    { rewrite Hk in E. by apply cons_eq in E as [E _]. }
    apply list_elem_of_fmap in Hv as ([p pos] & [E ->]%pair_equal_spec & Hpos).
    assert (xo_oid y = xo_oid x) as Heq.
    { rewrite Hk in E. unfold par, parents_prefix_start in E.
      rewrite !(app_assoc [PREFIX_PAR]), <- app_assoc in E. apply app_inv_head in E.
      by apply oid_bytes_app_inj in E as [-> _]. }
    assert (y = x) as -> by (by apply (same_oid xs)). rewrite Hp in Hpos.
    apply parent_positions_elem in Hpos as (i & Hi & -> & _); [|done]. eauto.
  - intros (i & p & Hi & -> & ->). exists x. split; [|done]. right.
    apply list_elem_of_fmap. exists (p, N.of_nat i). split; [done|]. rewrite Hp.
    apply parent_positions_elem; [done|]. exists i. split_and!; [done|done|].
    apply lookup_lt_Some in Hi. unfold len, u16_max in *. lia.
Qed.

(** The database after ingesting [xs]. *)
Definition ingested (repo_id : N) (xs : list ExtractedObject) (m : db) : db :=
  put_pairs (xs ≫= object_writes repo_id) m.

Lemma ingested_object id xs x m :
  writes_coherent xs → x ∈ xs →
  ingested id xs m !! obj id (xo_oid x) = Some (encode_object (xo_kind x) (xo_data x)).
Proof.
  intros Hc Hx. apply put_pairs_in; [by apply object_write_in|]. intros v Hv. by eapply object_write_fun.
Qed.

(** The parent keys of an ingested commit that had none before. *)
Lemma ingested_parents id xs x ps m k v :
  writes_coherent xs → x ∈ xs → xo_parents x = parent_positions ps →
  (∀ s, m !! (parents_prefix_start id (xo_oid x) ++ s) = None) →
  (∃ s, k = parents_prefix_start id (xo_oid x) ++ s) →
  ingested id xs m !! k = Some v ↔
  ∃ i p, ps !! i = Some p ∧ k = par id (xo_oid x) (N.of_nat i) ∧ v = oid_as_bytes p.
Proof.
  intros Hc Hx Hp Hfresh Hk. rewrite <- (parent_write_iff id xs x ps k v Hc Hx Hp Hk). unfold ingested.
  assert (∀ v', (k, v') ∈ xs ≫= object_writes id → put_pairs (xs ≫= object_writes id) m !! k = Some v')
    as Hin.
  { intros v' Hv'. apply put_pairs_in; [done|]. intros v'' Hv''.
    apply (parent_write_iff id xs x ps) in Hv' as (i & p & Hi & -> & ->); [|done..].
    apply (parent_write_iff id xs x ps) in Hv'' as (j & q & Hj & E & ->); [|done..].
    destruct Hc as [_ Hc]. destruct (Hc x Hx) as (ps' & Hp' & Hl).
    assert (∀ i q, ps !! i = Some q → N.of_nat i ≤ u16_max) as Hb.
    { intros i' q' Hi'. rewrite Hp in Hp'. apply (f_equal length) in Hp'.
      unfold parent_positions in Hp'. rewrite !length_imap in Hp'.
      apply lookup_lt_Some in Hi'. unfold len, u16_max in *. lia. }
    apply par_inj in E as [_ E]; [|eauto..]. assert (i = j) as -> by lia. congruence. }
  split; [|apply Hin]. intros Hv.
  destruct (decide (k ∈ fst <$> (xs ≫= object_writes id))) as [Hkin|Hkout].
  - apply list_elem_of_fmap in Hkin as ([k' v'] & -> & Hkv). cbn [fst] in *.
    rewrite (Hin _ Hkv) in Hv. by injection Hv as ->.
  - rewrite put_pairs_other in Hv by done. destruct Hk as [s ->]. by rewrite Hfresh in Hv.
Qed.

(** The parent entries of a commit, from position [n] on. *)
Definition parent_entries (repo_id : N) (c : ObjectId) (n : nat) (ps : list ObjectId) : list (bytes * bytes) :=
  imap (λ i p, (par repo_id c (N.of_nat (n + i)), oid_as_bytes p)) ps.

Lemma parent_entries_cons id c n p ps :
  parent_entries id c n (p :: ps) = (par id c (N.of_nat n), oid_as_bytes p) :: parent_entries id c (S n) ps.
Proof.
  unfold parent_entries. rewrite imap_cons. f_equal; [by rewrite Nat.add_0_r|].
  apply imap_ext. intros i q _. cbn. by rewrite Nat.add_succ_r.
Qed.

Lemma parent_entries_sorted id c n ps :
  N.of_nat (n + length ps) ≤ 65536 →
  StronglySorted key_leb (parent_entries id c n ps) ∧ NoDup (fst <$> parent_entries id c n ps).
Proof.
  revert n; induction ps as [|p ps IH]; intros n Hn; [split; constructor|].
  rewrite parent_entries_cons. cbn [length] in Hn. destruct (IH (S n)) as [Hs Hnd]; [lia|].
  assert (∀ k v, (k, v) ∈ parent_entries id c (S n) ps → lex_ltb (par id c (N.of_nat n)) k = true) as Hlt.
  { intros k v (i & q & [-> _]%pair_equal_spec & Hi)%elem_of_lookup_imap.
    apply lookup_lt_Some in Hi. rewrite par_key_order by (unfold u16_max; lia). apply N.ltb_lt. lia. }
  split.
  - constructor; [done|]. apply Forall_forall. intros [k v] Hin%Hlt. unfold key_leb, lex_leb. cbn [fst].
    apply negb_true_iff. destruct (lex_ltb k _) eqn:E; [|done].
    pose proof (lex_ltb_trans _ _ _ Hin E) as Ht. by rewrite lex_ltb_irrefl in Ht.
  - apply NoDup_cons. split; [|done]. intros ([k v] & Hk & Hin%Hlt)%list_elem_of_fmap.
    cbn [fst] in Hk. subst k. by rewrite lex_ltb_irrefl in Hin.
Qed.

Lemma parent_entries_read id c n ps :
  mapM (λ kv, map_err (Fmt (b! "corrupt parent oid: ")) (oid_try_from kv.2))
    (parent_entries id c n ps) = Ok ps.
Proof.
  apply result_mapM_Ok. revert n. induction ps as [|p ps IH]; intros n; [constructor|].
  rewrite parent_entries_cons. constructor; [|apply IH]. cbn [snd]. by rewrite oid_try_from_as_bytes.
Qed.

Lemma ingested_scan id xs x ps m :
  writes_coherent xs → x ∈ xs → xo_parents x = parent_positions ps →
  (∀ s, m !! (parents_prefix_start id (xo_oid x) ++ s) = None) →
  N.of_nat (size (ingested id xs m)) ≤ u32_max →
  scan_pairs (parents_prefix_start id (xo_oid x)) (parents_prefix_end id (xo_oid x)) u32_max
    (ingested id xs m) = parent_entries id (xo_oid x) 0 ps.
Proof.
  intros Hc Hx Hp Hfresh Hsz.
  assert (len ps ≤ 65536) as Hlen.
  { destruct Hc as [_ Hc]. destruct (Hc x Hx) as (ps' & Hp' & Hl). rewrite Hp in Hp'.
    apply (f_equal length) in Hp'. unfold parent_positions in Hp'. rewrite !length_imap in Hp'.
    unfold len in *. lia. }
  assert (∀ i (q : ObjectId), ps !! i = Some q → N.of_nat i ≤ u16_max) as Hb.
  { intros i q Hi. apply lookup_lt_Some in Hi. unfold len, u16_max in *. lia. }
  destruct (scan_pairs_spec (parents_prefix_start id (xo_oid x)) (parents_prefix_end id (xo_oid x))
              u32_max _ Hsz) as (Hin & Hsort & Hnd).
  set (l := scan_pairs _ _ _ _) in *.
  assert (∀ k v, (k, v) ∈ l ↔
    (k, v) ∈ parent_entries id (xo_oid x) 0 ps) as Hsame.
  { intros k v. unfold parent_entries. rewrite Hin, elem_of_lookup_imap, parents_range. split.
    - intros [Hv Hr]. apply (ingested_parents id xs x ps m) in Hv as (i & p & Hi & -> & ->); [|done..]. eauto.
    - intros (i & p & [Hk ->]%pair_equal_spec & Hi).
      assert (∃ s, k = parents_prefix_start id (xo_oid x) ++ s) as Hr.
      { subst k. exists (to_be_bytes 2 (N.of_nat i)). unfold par, parents_prefix_start.
        by rewrite <- !app_assoc. }
      split; [|done]. apply (ingested_parents id xs x ps m); eauto. }
  destruct (parent_entries_sorted id (xo_oid x) 0 ps) as [Hsort2 Hnd2]; [unfold len in *; lia|].
  apply (StronglySorted_unique_strong key_leb); [|done|done|].
  - intros [k1 v1] [k2 v2] H1 H2%Hsame. unfold key_leb, lex_leb. cbn [fst].
    rewrite !negb_true_iff. intros E1 E2. pose proof (lex_ltb_total _ _ E2 E1) as ->.
    f_equal. apply Hin in H1 as [H1 _]. apply Hin in H2 as [H2 _]. congruence.
  - apply NoDup_Permutation; [by eapply NoDup_fmap_1..|]. intros [k v]. apply Hsame.
Qed.

(** (C29) What is pushed can be read back: on a healthy store, ingesting a pack whose
    objects are distinct stores every object under its id with its kind and bytes,
    records the parents of every new commit in order, so the graph walks see the
    commit's own parents, and touches no ref of any repository. *)
Theorem kv_ingest_roundtrip id pack xs meta m :
  (∀ m op, fault m op = None) → nonempty_pack (pf_pack pack) = true →
  extract_pack pack = Ok (xs, meta) → xs ≠ [] → writes_coherent xs →
  ∃ m', ingest_pack id pack m = (Ok (Some (meta, xo_oid <$> xs)), m') ∧
    (∀ x cap, x ∈ xs →
       read_object_with_kind id (xo_oid x) cap m' =
       (Ok (if cap <? len (xo_data x) then None else Some (xo_kind x, xo_data x)), m')) ∧
    (∀ ci, ci ∈ commits meta → (∀ s, m !! (parents_prefix_start id (c_oid ci) ++ s) = None) →
       N.of_nat (size m') ≤ u32_max → fetch_parents id (c_oid ci) m' = (Ok (c_parents ci), m')) ∧
    (∀ id', kv_refs id' m' = kv_refs id' m).
Proof.
  intros Hnf Hne Hx Hnil Hc. exists (ingested id xs m). split_and!.
  - unfold nonempty_pack in Hne. unfold ingest_pack, mbind, ST_bind, lift.
    destruct (read_exact 12 (pf_pack pack)) as [[h r]|]; [|done]. cbn [context map_err].
    apply negb_true_iff in Hne. rewrite Hne, Hx. destruct xs as [|x xs']; [done|].
    unfold write_txn. rewrite Hnf, put_objects_run by done. cbn. by rewrite Hnf.
  - intros x cap Hin. unfold read_object_with_kind, read_txn, t_get, call, mbind, ST_bind, lift.
    rewrite !Hnf, (ingested_object id xs x m Hc Hin). cbn. destruct (_ <? _); cbn; by rewrite Hnf.
  - intros ci Hci Hfresh Hsz. destruct (extract_commit _ _ _ _ Hx Hci) as (x & Hin & Ho & Hp).
    rewrite <- Ho in *. unfold fetch_parents, read_txn, t_scan, call, mbind, ST_bind, lift.
    rewrite !Hnf, (ingested_scan id xs x (c_parents ci) m) by done.
    assert (mapM (λ kv, map_err (Fmt (b! "corrupt parent oid: ")) (oid_try_from kv.2))
              (parent_entries id (xo_oid x) 0 (c_parents ci)) = Ok (c_parents ci)) as ->.
    { apply parent_entries_read. }
    cbn. by rewrite Hnf.
  - intros id'. apply map_eq. intros n. apply option_eq. intros o. rewrite !lookup_kv_refs.
    assert (ingested id xs m !! refkey id' n = m !! refkey id' n) as ->; [|done].
    apply put_pairs_other. intros ([k v] & Hk & (x & Hw & _)%list_elem_of_bind)%list_elem_of_fmap.
    cbn in Hk. subst k. unfold object_writes in Hw. apply elem_of_cons in Hw as [[E _]%pair_equal_spec|Hw].
    + by apply cons_eq in E as [E _].
    + apply list_elem_of_fmap in Hw as ([p pos] & [E _]%pair_equal_spec & _). by apply cons_eq in E as [E _].
Qed.
End kv_ingest.

(** ** Repositories *)

Section kv_repos.
Context `{GixHashLaws} {tikv : Tikv}.

(** The next id to allocate. *)
Definition counter_of (m : db) : result error N :=
  match m !! next_repo_id with
  | Some b => decode_u64 b
  | None => Ok 1
  end.

(** Ids below the counter, one repository each. *)
Record repos_wf (m : db) (next : N) : Prop := {
  rw_counter : counter_of m = Ok next;
  rw_next : 1 ≤ next < 2 ^ 64;
  rw_ids p v : m !! repo_index p = Some v → ∃ id, v = encode_u64 id ∧ 1 ≤ id < next;
  rw_inj p q v : m !! repo_index p = Some v → m !! repo_index q = Some v → p = q;
}.

Lemma repos_wf_empty : repos_wf ∅ 1.
Proof. split; [done|lia|..]; intros p; intros *; by rewrite lookup_empty. Qed.

Lemma decode_encode_u64 n : n < 2 ^ 64 → decode_u64 (encode_u64 n) = Ok n.
Proof.
  intros Hn. unfold decode_u64, encode_u64, len. rewrite length_to_be_bytes. cbn [N.of_nat].
  by rewrite from_to_be_bytes.
Qed.

Lemma decode_repo_id_encode n : n < 2 ^ 64 → decode_repo_id (encode_u64 n) = Ok n.
Proof. intros Hn. unfold decode_repo_id. by rewrite decode_encode_u64. Qed.

Lemma encode_u64_inj i j : i < 2 ^ 64 → j < 2 ^ 64 → encode_u64 i = encode_u64 j → i = j.
Proof. intros Hi Hj E. by apply (to_be_bytes_inj 8) in E. Qed.

Section no_faults.
Hypothesis no_fault : ∀ m op, fault m op = None.

Lemma open_run path m id :
  m !! repo_index path = Some (encode_u64 id) → id < 2 ^ 64 → open_inner path m = (Ok id, m).
Proof.
  intros Hm Hid. unfold open_inner, read_txn, t_get, call, mbind, ST_bind, lift.
  rewrite !no_fault, Hm, decode_repo_id_encode by done. cbn. by rewrite no_fault.
Qed.

Lemma init_existing path m id :
  m !! repo_index path = Some (encode_u64 id) → id < 2 ^ 64 → init_repo_inner path m = (Ok id, m).
Proof.
  intros Hm Hid. unfold init_repo_inner, probe_repo, read_txn, t_get, call, mbind, ST_bind, lift.
  rewrite !no_fault, Hm, decode_repo_id_encode by done. cbn. by rewrite no_fault.
Qed.

(** The database after allocating [next] to [path]. *)
Definition allocated (path : bytes) (next : N) (m : db) : db :=
  <[repo_meta next REPO_META_EXISTS := []]>
    (<[repo_index path := encode_u64 next]> (<[next_repo_id := encode_u64 (next + 1)]> m)).

Lemma init_fresh path m next :
  repos_wf m next → next + 1 < 2 ^ 64 → m !! repo_index path = None →
  init_repo_inner path m = (Ok next, allocated path next m).
Proof.
  intros [Hc Hn _ _] Hlt Hm. unfold init_repo_inner, probe_repo, alloc_repo, read_txn, write_txn.
  unfold t_get, t_get_for_update, t_put, call, mbind, ST_bind, lift.
  rewrite !no_fault, Hm. cbn [finalize_read mret ST_ret]. rewrite !no_fault, Hm, !no_fault.
  unfold counter_of in Hc. destruct (m !! next_repo_id) as [b|].
  - rewrite Hc. cbn [context map_err]. rewrite !no_fault. cbn [finalize_write mret ST_ret].
    rewrite no_fault. unfold allocated. by rewrite N.mod_small.
  - injection Hc as <-. cbn [mret ST_ret]. rewrite !no_fault. cbn [finalize_write mret ST_ret].
    by rewrite no_fault.
Qed.

Lemma repo_meta_not_index n t p : repo_meta n t ≠ repo_index p.
Proof. intros E; by apply cons_eq in E as [E _]. Qed.
Lemma counter_not_index p : next_repo_id ≠ repo_index p.
Proof. intros E; by apply cons_eq in E as [E _]. Qed.

Lemma lookup_allocated path next m p :
  allocated path next m !! repo_index p =
  if decide (p = path) then Some (encode_u64 next) else m !! repo_index p.
Proof.
  unfold allocated. rewrite lookup_insert_ne by apply repo_meta_not_index.
  case_decide as E; [by subst; rewrite lookup_insert_eq|].
  rewrite lookup_insert_ne by (intros Eq; apply E; by injection Eq).
  by rewrite lookup_insert_ne by apply counter_not_index.
Qed.

Lemma allocated_wf path next m :
  repos_wf m next → next + 1 < 2 ^ 64 → m !! repo_index path = None →
  repos_wf (allocated path next m) (next + 1).
Proof.
  intros [Hc Hn Hids Hinj] Hlt Hm.
  assert (∀ p v, m !! repo_index p = Some v → v ≠ encode_u64 next) as Hold.
  { intros p v Hv ->. destruct (Hids p _ Hv) as (id & E & Hid).
    apply encode_u64_inj in E; lia. }
  split; [|lia|..].
  - unfold counter_of, allocated. rewrite lookup_insert_ne by (intros E; by apply cons_eq in E as [E _]).
    rewrite lookup_insert_ne by (intros E; by apply cons_eq in E as [E _]).
    rewrite lookup_insert_eq. by apply decode_encode_u64.
  - intros p v. rewrite lookup_allocated. case_decide.
    + intros [= <-]. exists next. split; [done|lia].
    + intros (id & -> & Hid)%Hids. exists id. split; [done|lia].
  - intros p q v. rewrite !lookup_allocated. do 2 case_decide; subst; [done|..].
    + intros [= <-] Hq. by apply Hold in Hq.
    + intros Hp [= <-]. by apply Hold in Hp.
    + eauto.
Qed.
End no_faults.

(** Repositories are allocated once and kept apart: on a healthy store with ids
    left, [init_repo] gives every path an id of its own, [open] finds that id from then
    on, initialising again changes nothing, every other path keeps its id, and no ref of
    any repository is touched. *)
Theorem kv_init_repo_correct path m next :
  (∀ m op, fault m op = None) → repos_wf m next → next + 1 < 2 ^ 64 →
  ∃ id m' next',
    init_repo_inner path m = (Ok id, m') ∧ repos_wf m' next' ∧
    open_inner path m' = (Ok id, m') ∧ init_repo_inner path m' = (Ok id, m') ∧
    (∀ p, p ≠ path → m' !! repo_index p = m !! repo_index p ∧ open_inner p m' ≠ (Ok id, m')) ∧
    (∀ i, kv_refs i m' = kv_refs i m).
Proof.
  intros Hnf Hwf Hlt.
  assert (∃ id m' next', init_repo_inner path m = (Ok id, m') ∧ repos_wf m' next' ∧
    m' !! repo_index path = Some (encode_u64 id) ∧ id < 2 ^ 64 ∧
    (∀ p, p ≠ path → m' !! repo_index p = m !! repo_index p) ∧
    (∀ i, kv_refs i m' = kv_refs i m)) as (id & m' & next' & Hi & Hwf' & Hm' & Hid & Hother & Hrefs).
  { destruct (m !! repo_index path) as [v|] eqn:Hm.
    - destruct (rw_ids _ _ Hwf _ _ Hm) as (id & -> & Hid). pose proof (rw_next _ _ Hwf).
      exists id, m, next. rewrite (init_existing Hnf path m id) by (done || lia). split_and!; (done || lia).
    - exists next, (allocated path next m), (next + 1). rewrite (init_fresh Hnf path m next) by done.
      split_and!; [done|by apply allocated_wf| |lia| |].
      + by rewrite lookup_allocated, decide_True.
      + intros p Hp. by rewrite lookup_allocated, decide_False.
      + intros i. unfold allocated.
        by rewrite !kv_refs_put_other by (intros n E; by apply cons_eq in E as [E _]). }
  exists id, m', next'. split_and!; [done|done|by apply open_run|by apply init_existing| |done].
  intros p Hp. split; [by apply Hother|]. intros Ho.
  destruct (m' !! repo_index p) as [v|] eqn:Hv.
  - destruct (rw_ids _ _ Hwf' _ _ Hv) as (id' & -> & Hid'). pose proof (rw_next _ _ Hwf').
    rewrite (open_run Hnf p m' id') in Ho by (done || lia). injection Ho as ->.
    apply Hp. by eapply (rw_inj _ _ Hwf').
  - revert Ho. unfold open_inner, read_txn, t_get, call, mbind, ST_bind, lift. rewrite !Hnf, Hv. done.
Qed.
End kv_repos.
