(* ===== verification/PackCache.v ===== *)
(** * The on-disk pack cache ([backend/pack_cache.rs])

    Cached packs are files under the cache directory.  SHA-256 and the outcome of file
    operations are outside the repository: opening an existing file may fail, and a
    write may create no file or a file that holds only the first bytes. *)

From stdpp Require Import base gmap list sorting strings.
From Stdlib Require Import Strings.Byte.
From S2P Require Import Prelude Bytes Gix Proto Types Handlers.
Open Scope N_scope.

(** A directory: relative path to contents. *)
Abbreviation dir :=
  (@gmap bytes (@list_eq_dec byte byte_eq_dec)
     (@list_countable byte byte_eq_dec byte_countable) bytes).

Class CacheIO := {
  (** [format!("{:x}", hasher.finalize())] of these bytes. *)
  sha256_hex : bytes → bytes;
  (** Whether [File::open] succeeds on an existing file. *)
  opens : dir → bytes → bool;
  (** How many bytes [fs::write] leaves in the file; [None] when there is no file. *)
  written : dir → bytes → bytes → option nat;
}.

(** [ObjectId]'s order is that of its bytes. *)
Definition oid_leb `{GixHash} : relation ObjectId :=
  λ a b, lex_leb (oid_as_bytes a) (oid_as_bytes b) = true.
#[global] Instance oid_leb_dec `{GixHash} : RelDecision oid_leb.
Proof. intros x y. unfold oid_leb. apply _. Defined.

(** What reads into a buffer of [MAX_SIDEBAND] bytes return from a file or cursor. *)
Fixpoint chunk_reads (fuel : nat) (data : bytes) : list (result error bytes) :=
  match fuel with
  | O => []
  | S fuel =>
      match data with
      | [] => []
      | _ => Ok (take (N.to_nat MAX_SIDEBAND) data) ::
             chunk_reads fuel (drop (N.to_nat MAX_SIDEBAND) data)
      end
  end.

Definition cursor_reads (data : bytes) : list (result error bytes) := chunk_reads (length data) data.

Section cache.
Context `{GixHash} {io : CacheIO}.

Definition oid_bytes_sorted (oids : list ObjectId) : bytes :=
  concat (oid_as_bytes <$> merge_sort oid_leb oids).

Definition filter_tag (f : option Filter) : byte :=
  match f with
  | None => x00
  | Some BlobNone => x01
  | Some TreeNone => x02
  end.

(** The bytes [key] feeds to the hasher. *)
Definition cache_preimage (repo_id : N) (want have : list ObjectId) (opts : PackOptions) : bytes :=
  to_le_bytes 8 repo_id ++ oid_bytes_sorted want ++ [x00] ++ oid_bytes_sorted have ++ [x01] ++
  to_le_bytes 4 (default 0 (po_deepen opts)) ++ [filter_tag (po_filter opts)] ++
  [if po_thin_pack opts then x01 else x00].

Definition cache_key (repo_id : N) (want have : list ObjectId) (opts : PackOptions) : bytes :=
  sha256_hex (cache_preimage repo_id want have opts).

Definition cache_path (repo_id : N) (key : bytes) : bytes :=
  decimal repo_id ++ b! "/" ++ key ++ b! ".pack".

Definition output_of (data : bytes) : PackOutput :=
  {| out_reader := cursor_reads data; out_shallow := []; out_progress := None |}.

Definition try_hit (repo_id : N) (key : bytes) (d : dir) : option PackOutput :=
  data ← d !! cache_path repo_id key;
  if opens d (cache_path repo_id key) then Some (output_of data) else None.

Definition cache_write (repo_id : N) (key data : bytes) (d : dir) : dir :=
  match written d (cache_path repo_id key) data with
  | Some n => <[cache_path repo_id key := take n data]> d
  | None => d
  end.
End cache.

(** ** Reading back *)

Lemma chunk_reads_data fuel data :
  (length data ≤ fuel)%nat → reads_data (chunk_reads fuel data) = (data, Ok ()).
Proof.
  revert data; induction fuel as [|fuel IH]; intros data Hf; [by destruct data; simpl in Hf; [|lia]|].
  destruct data as [|b data]; [done|]. cbn [chunk_reads].
  assert (N.to_nat MAX_SIDEBAND = S (N.to_nat (MAX_SIDEBAND - 1))) as E.
  { unfold MAX_SIDEBAND. lia. }
  rewrite E. cbn [take drop reads_data]. rewrite IH.
  - by rewrite <- app_comm_cons, take_drop.
  - rewrite length_drop. simpl in Hf. lia.
Qed.

Lemma chunk_reads_fit fuel data : Forall read_fits (chunk_reads fuel data).
Proof.
  revert data; induction fuel as [|fuel IH]; intros data; [constructor|].
  destruct data as [|b data]; [constructor|]. cbn [chunk_reads]. constructor; [|apply IH].
  unfold read_fits, len. rewrite length_take. lia.
Qed.

(** A cursor delivers its bytes, in reads the sideband framing accepts. *)
Lemma cursor_reads_spec data :
  reads_data (cursor_reads data) = (data, Ok ()) ∧ Forall read_fits (cursor_reads data).
Proof. split; [by apply chunk_reads_data|apply chunk_reads_fit]. Qed.

Section cache_facts.
Context `{GixHashLaws} {io : CacheIO}.

#[local] Instance oid_leb_total : Total oid_leb.
Proof.
  intros x y. unfold oid_leb, lex_leb. rewrite !negb_true_iff.
  destruct (lex_ltb (oid_as_bytes y) (oid_as_bytes x)) eqn:E; [right|by left].
  destruct (lex_ltb (oid_as_bytes x) (oid_as_bytes y)) eqn:E'; [|done].
  pose proof (lex_ltb_trans _ _ _ E E') as Ht. by rewrite lex_ltb_irrefl in Ht.
Qed.

#[local] Instance oid_leb_trans : Transitive oid_leb.
Proof.
  intros x y z. unfold oid_leb, lex_leb. rewrite !negb_true_iff. intros Hxy Hyz.
  destruct (lex_ltb (oid_as_bytes z) (oid_as_bytes x)) eqn:E; [|done].
  destruct (lex_ltb (oid_as_bytes x) (oid_as_bytes y)) eqn:E2.
  - pose proof (lex_ltb_trans _ _ _ E E2). congruence.
  - pose proof (lex_ltb_total _ _ E2 Hxy) as Heq. rewrite Heq in *. congruence.
Qed.

#[local] Instance oid_leb_antisymm : AntiSymm eq oid_leb.
Proof.
  intros x y. unfold oid_leb, lex_leb. rewrite !negb_true_iff. intros E1 E2.
  apply oid_as_bytes_inj. by apply lex_ltb_total.
Qed.

Lemma sort_permutation (l1 l2 : list ObjectId) :
  l1 ≡ₚ l2 → merge_sort oid_leb l1 = merge_sort oid_leb l2.
Proof.
  intros Hp. apply (StronglySorted_unique oid_leb); [apply StronglySorted_merge_sort; apply _..|].
  by rewrite !merge_sort_Permutation.
Qed.

Lemma concat_oids_inj (l1 l2 : list ObjectId) (s t : bytes) :
  length l1 = length l2 → concat (oid_as_bytes <$> l1) ++ s = concat (oid_as_bytes <$> l2) ++ t →
  l1 = l2 ∧ s = t.
Proof.
  revert l2; induction l1 as [|o l1 IH]; intros [|p l2] Hl E; try done.
  rewrite !fmap_cons in E. cbn [concat] in E. rewrite <- !app_assoc in E.
  apply app_inj_1 in E as [E1 E2]; [|by rewrite !length_oid_as_bytes].
  apply oid_as_bytes_inj in E1 as ->. apply IH in E2 as [-> ->]; [done|]. by injection Hl.
Qed.

(** The cache key depends only on what the request means, and, for requests with
    as many wants and haves, on all of it: reordering wants or haves does not change the
    hashed bytes, and two requests with equal hashed bytes are for the same repository,
    the same wants, the same haves, filter and thin-pack flag, and the same depth (no
    depth and depth zero being one). *)
Theorem cache_preimage_faithful i1 i2 w1 w2 h1 h2 o1 o2 :
  (w1 ≡ₚ w2 → h1 ≡ₚ h2 → cache_preimage i1 w1 h1 o1 = cache_preimage i1 w2 h2 o1) ∧
  (length w1 = length w2 → length h1 = length h2 → i1 ≤ u64_max → i2 ≤ u64_max →
   default 0 (po_deepen o1) ≤ u32_max → default 0 (po_deepen o2) ≤ u32_max →
   cache_preimage i1 w1 h1 o1 = cache_preimage i2 w2 h2 o2 →
   i1 = i2 ∧ w1 ≡ₚ w2 ∧ h1 ≡ₚ h2 ∧ po_filter o1 = po_filter o2 ∧
   po_thin_pack o1 = po_thin_pack o2 ∧ default 0 (po_deepen o1) = default 0 (po_deepen o2)).
Proof.
  unfold cache_preimage, oid_bytes_sorted. split.
  - intros Hw Hh. by rewrite (sort_permutation _ _ Hw), (sort_permutation _ _ Hh).
  - intros Hw Hh Hi1 Hi2 Hd1 Hd2 E. unfold u64_max, u32_max in *.
    apply app_inj_1 in E as [Ei E]; [|by rewrite !length_to_le_bytes].
    apply concat_oids_inj in E as [Ew E]; [|by rewrite !merge_sort_Permutation].
    apply app_inj_1 in E as [_ E]; [|done].
    apply concat_oids_inj in E as [Eh E]; [|by rewrite !merge_sort_Permutation].
    apply app_inj_1 in E as [_ E]; [|done].
    apply app_inj_1 in E as [Ed E]; [|by rewrite !length_to_le_bytes].
    apply app_inj_1 in E as [Ef Et]; [|done].
    unfold to_le_bytes in *. apply (inj reverse) in Ei, Ed.
    split_and!.
    + apply (to_be_bytes_inj 8) in Ei; [done|apply N.lt_succ_r in Hi1; exact Hi1|apply N.lt_succ_r in Hi2; exact Hi2].
    + by rewrite <- (merge_sort_Permutation oid_leb w1), Ew, merge_sort_Permutation.
    + by rewrite <- (merge_sort_Permutation oid_leb h1), Eh, merge_sort_Permutation.
    + injection Ef as Ef. by destruct (po_filter o1) as [[]|], (po_filter o2) as [[]|].
    + injection Et as Et. by destruct (po_thin_pack o1), (po_thin_pack o2).
    + apply (to_be_bytes_inj 4) in Ed; [done|apply N.lt_succ_r in Hd1; exact Hd1|apply N.lt_succ_r in Hd2; exact Hd2].
Qed.
End cache_facts.

(** ** A collision *)

Module CacheExamples.
#[local] Existing Instances Sha1.hash Sha1.hash_laws.

Definition oid_a : ObjectId := list_to_vec (x00 :: replicate 19 x11).
Definition oid_b : ObjectId := Sha1.rep xff.
Definition oid_c : ObjectId := list_to_vec (replicate 19 x11 ++ [x00]).
Definition no_opts : PackOptions := {| po_deepen := None; po_filter := None; po_thin_pack := false |}.

(** The hashed bytes do not determine the request: the separator between wants and
    haves is a byte that ids may contain, so one request with a want and a have and
    another with no want and two haves are given the same cache entry. *)
Theorem cache_preimage_collision :
  ∃ w1 h1 w2 h2 : list ObjectId,
    w1 ≠ w2 ∧ h1 ≠ h2 ∧ length w1 ≠ length w2 ∧
    cache_preimage 1 w1 h1 no_opts = cache_preimage 1 w2 h2 no_opts.
Proof.
  exists [oid_a], [oid_b], [], [oid_c; oid_b]. split_and!; [done|done|done|]. by vm_compute.
Qed.
End CacheExamples.
