(* ===== verification/PackTools.v ===== *)
(** * Pack building and tree diffs, shared by the database backends

    The KV and the SQL backend select the objects of a pack, stage them as loose files and
    diff trees with the same code over their own reads ([backend/kv/build_pack.rs],
    [backend/sql/objects.rs]).  Here is that code over abstract reads, with what it
    guarantees; [KvPack.v] and [SqlPack.v] supply the reads.  Compression ([flate2]),
    packing the loose objects of a repository ([gix-pack]) and diffing two trees
    ([gix-diff]) are third-party; the selection of the objects, their loose files and the
    trees handed to the diff are the sources' own.  The specification of the selection is
    reachability of objects, by what the stored objects name ([links]). *)

From stdpp Require Import base gmap list sorting strings.
From Stdlib Require Import Strings.Byte.
From S2P Require Import Prelude Bytes Gix Proto Types Handlers Graph Inspect PackCache.
Open Scope N_scope.

Inductive TreeChange `{GixHash} :=
| Addition (mode : N) (oid : ObjectId) (path : bytes)
| Deletion (mode : N) (oid : ObjectId) (path : bytes)
| Modification (mode : N) (oid : ObjectId) (path : bytes).

(** The loose objects of a temporary repository: path below [objects/] to contents. *)
Abbreviation loose_dir :=
  (@gmap bytes (@list_eq_dec byte byte_eq_dec)
     (@list_countable byte byte_eq_dec byte_countable) bytes).

Class GixOutput `{GixHash} := {
  (** [ZlibEncoder] over these bytes. *)
  zlib : bytes → bytes;
  (** Whether writing this file, after those, fails. *)
  loose_io : loose_dir → bytes → option error;
  (** Creating the temporary repository; counting and packing these objects of it. *)
  temp_repo : option error;
  gix_pack_objects : loose_dir → list ObjectId → result error bytes;
  sha1_digest : bytes → bytes;
  (** [gix_diff::tree] over the trees of an in-memory store. *)
  gix_tree_diff : (ObjectId → option bytes) → ObjectId → ObjectId → result error (list TreeChange);
}.

(** ** Code *)

Section tools.
Context `{GixObject} {gix_out : GixOutput} {io : CacheIO}.

Definition display_reachable (e : ReachableError) : error :=
  match e with
  | CapExceeded limit =>
      Msg (b! "reachability walk exceeded cap of " ++ decimal limit ++ b! " commits")
  | ReachOther e => e
  end.

(** Steps 1 to 3 of [build_pack]: the ids of the objects to send, from a walk of the
    commit graph and a function that adds the trees of commits to a set. *)
Definition select_objects
    (reach : list ObjectId → list ObjectId → result ReachableError (list ObjectId))
    (add_trees : list ObjectId → gset ObjectId → result error (gset ObjectId))
    (want have : list ObjectId) : result error (gset ObjectId) :=
  want_commits ← map_err (λ e, Fmt (b! "reachable walk for build_pack: ") (display_reachable e))
                   (reach want have);
  needed ← add_trees want_commits (list_to_set want_commits ∪ list_to_set want);
  match have with
  | [] => Ok needed
  | _ =>
      have_commits ← map_err (λ e, Fmt (b! "have-side walk: ") (display_reachable e)) (reach have []);
      have_set ← add_trees have_commits (list_to_set have_commits);
      Ok (needed ∖ have_set)
  end.

(** The trees of a list of commits, into one set. *)
Fixpoint add_commit_trees (read_commit_tree : ObjectId → result error (option ObjectId))
    (collect : ObjectId → gset ObjectId → result error (gset ObjectId))
    (commits : list ObjectId) (set : gset ObjectId) : result error (gset ObjectId) :=
  match commits with
  | [] => Ok set
  | c :: commits' =>
      tree ← read_commit_tree c;
      set' ← match tree with Some t => collect t set | None => Ok set end;
      add_commit_trees read_commit_tree collect commits' set'
  end.

Definition build_empty_pack : bytes :=
  let buf := b! "PACK" ++ to_be_bytes 4 2 ++ to_be_bytes 4 0 in
  buf ++ sha1_digest buf.

(** Step 4: the stored objects among [oids]. *)
Fixpoint fetch_objects (read : ObjectId → result error (option (Kind * bytes)))
    (oids : list ObjectId) : result error (list (ObjectId * Kind * bytes)) :=
  match oids with
  | [] => Ok []
  | o :: oids' =>
      x ← read o;
      rest ← fetch_objects read oids';
      Ok (match x with Some (kind, data) => (o, kind, data) :: rest | None => rest end)
  end.

Definition kind_str (k : Kind) : bytes :=
  match k with GBlob => b! "blob" | GTree => b! "tree" | GCommit => b! "commit" | GTag => b! "tag" end.

(** [objects/xx/yyyy…]: the first two digits name the directory. *)
Definition loose_path (oid : ObjectId) : bytes :=
  take 2 (oid_to_hex oid) ++ b! "/" ++ drop 2 (oid_to_hex oid).

Definition loose_header (kind : Kind) (data : bytes) : bytes :=
  kind_str kind ++ b! " " ++ decimal (len data) ++ [x00].

Definition stage_object (d : loose_dir) (x : ObjectId * Kind * bytes) : result error loose_dir :=
  let '(oid, kind, data) := x in
  if decide (is_Some (d !! loose_path oid)) then Ok d
  else match loose_io d (loose_path oid) with
       | Some e => Err e
       | None => Ok (<[loose_path oid := zlib (loose_header kind data ++ data)]> d)
       end.

Fixpoint stage_objects (d : loose_dir) (fetched : list (ObjectId * Kind * bytes)) :
    result error loose_dir :=
  match fetched with
  | [] => Ok d
  | x :: fetched' => d' ← stage_object d x; stage_objects d' fetched'
  end.

Definition assemble_pack (fetched : list (ObjectId * Kind * bytes)) : result error bytes :=
  match temp_repo with
  | Some e => Err e
  | None =>
      objects ← stage_objects ∅ fetched;
      gix_pack_objects objects ((λ x, x.1.1) <$> fetched)
  end.

(** The pack built for a request, without the cache, from the ids it needs. *)
Definition pack_objects (read : ObjectId → result error (option (Kind * bytes)))
    (needed : gset ObjectId) : result error bytes :=
  if decide (needed = ∅) then Ok build_empty_pack
  else
    fetched ← fetch_objects read (elements needed);
    assemble_pack fetched.

(** The cache in front of the builder: the file of an earlier answer, or [fresh], which is
    then written to the cache. *)
Definition cached_pack (repo_id : N) (want have : list ObjectId) (opts : PackOptions)
    (fresh : result error bytes) (cache : dir) : result error PackOutput * dir :=
  let key := cache_key repo_id want have opts in
  match try_hit repo_id key cache with
  | Some output => (Ok output, cache)
  | None =>
      match fresh with
      | Err e => (Err e, cache)
      | Ok pack => (Ok (output_of pack), cache_write repo_id key pack cache)
      end
  end.

(** The entries that are trees. *)
Definition tree_entry (e : bool * ObjectId) : option ObjectId := if e.1 then Some e.2 else None.

(** The trees below [oid], read into memory.  Reading a tree again is skipped. *)
Fixpoint fetch_trees (read_tree : ObjectId → result error bytes) (fuel : nat) (oid : ObjectId)
    (trees : gmap ObjectId bytes) : result error (gmap ObjectId bytes) :=
  match fuel with
  | O => Ok trees
  | S fuel =>
      if decide (oid = oid_empty_tree) then Ok (<[oid_empty_tree := []]> trees)
      else if decide (is_Some (trees !! oid)) then Ok trees
      else
        data ← read_tree oid;
        entries ← context (b! "parsing tree " ++ oid_to_hex oid) (TreeRef_from_bytes data);
        foldl (λ acc child, trees ← acc; fetch_trees read_tree fuel child trees)
          (Ok (<[oid := data]> trees))
          (omap tree_entry entries)
  end.

Definition ref_diff_entry (c : TreeChange) : RefDiffEntry :=
  match c with
  | Addition mode oid path => {| d_path := path; d_change := Added; d_mode := mode; d_oid := oid |}
  | Deletion mode oid path => {| d_path := path; d_change := Removed; d_mode := mode; d_oid := oid |}
  | Modification mode oid path =>
      {| d_path := path; d_change := Modified; d_mode := mode; d_oid := oid |}
  end.

Definition tree_diff (read_tree : ObjectId → result error bytes) (fuel : nat)
    (parent_tree : option ObjectId) (child_tree : ObjectId) : result error RefDiff :=
  let lhs := default oid_empty_tree parent_tree in
  trees1 ← fetch_trees read_tree fuel lhs ∅;
  trees2 ← fetch_trees read_tree fuel child_tree trees1;
  changes ← gix_tree_diff (λ o, trees2 !! o) lhs child_tree;
  Ok (map ref_diff_entry changes).
End tools.

(** ** Trees as a graph *)

Section tree_graph.
Context `{GixHash}.
(** The entries of a stored tree: whether each is a tree, and its id. *)
Context (entries : ObjectId → result error (option (list (bool * ObjectId)))).

Definition kids (o : ObjectId) : list ObjectId :=
  match entries o with
  | Ok (Some es) => snd <$> es
  | _ => []
  end.

(** Entries that are not marked as trees do not name stored trees. *)
Definition modes_agree : Prop :=
  ∀ o es child, entries o = Ok (Some es) → (false, child) ∈ es → kids child = [].

Lemma kids_entries o es : entries o = Ok (Some es) → kids o = snd <$> es.
Proof. unfold kids. by intros ->. Qed.
End tree_graph.

Section commit_trees.
Context `{GixHash} (read_commit_tree : ObjectId → result error (option ObjectId)).
Context (collect : ObjectId → gset ObjectId → result error (gset ObjectId)).
Context (inv : gset ObjectId → Prop) (below : ObjectId → ObjectId → Prop).

(** What is below the tree of a commit. *)
Definition below_commit (c o : ObjectId) : Prop :=
  ∃ t, read_commit_tree c = Ok (Some t) ∧ below t o.

Hypothesis collect_spec : ∀ t set S, inv set → collect t set = Ok S →
  inv S ∧ ∀ o, o ∈ S ↔ o ∈ set ∨ below t o.

Lemma add_commit_trees_spec commits set S :
  inv set → add_commit_trees read_commit_tree collect commits set = Ok S →
  ∀ o, o ∈ S ↔ o ∈ set ∨ ∃ c, c ∈ commits ∧ below_commit c o.
Proof.
  revert set; induction commits as [|c cs IH]; intros set Hi; cbn [add_commit_trees].
  { intros [= <-] o. set_solver. }
  intros (t & Ht & (set' & Hs & Hrest)%result_bind_Ok)%result_bind_Ok o.
  assert (inv set' ∧ ∀ o, o ∈ set' ↔ o ∈ set ∨ below_commit c o) as [Hi' Hs'].
  { unfold below_commit. rewrite Ht. destruct t as [t|].
    - apply collect_spec in Hs as [? Hs]; [|done]. split; [done|]. intros x. rewrite Hs. naive_solver.
    - injection Hs as <-. split; [done|]. naive_solver. }
  rewrite (IH _ Hi' Hrest), Hs'. setoid_rewrite elem_of_cons. naive_solver.
Qed.

Lemma add_commit_trees_total commits set :
  (∀ c, is_ok (read_commit_tree c) = true) → (∀ t set, is_ok (collect t set) = true) →
  is_ok (add_commit_trees read_commit_tree collect commits set) = true.
Proof.
  intros Hr Hc. revert set; induction commits as [|c cs IH]; intros set; cbn [add_commit_trees]; [done|].
  specialize (Hr c). destruct (read_commit_tree c) as [[t|]|]; [| |done]; cbn [mbind result_bind]; [|apply IH].
  specialize (Hc t set). destruct (collect t set); [apply IH|done].
Qed.
End commit_trees.

(** ** The selection is exact *)

Section selection.
Context `{GixHash}.
Context (parents : ObjectId → list ObjectId) (in_commit : ObjectId → ObjectId → Prop).
Context (reach : list ObjectId → list ObjectId → result ReachableError (list ObjectId)).
Context (add_trees : list ObjectId → gset ObjectId → result error (gset ObjectId)).
(** The sets [add_trees] may start from. *)
Context (start : gset ObjectId → Prop).
Hypothesis reach_spec : ∀ from excluding l, reach from excluding = Ok l →
  ∀ o, o ∈ l ↔ reached_from parents from o ∧ ¬ reached_from parents excluding o.
Hypothesis add_trees_spec : ∀ commits set S, start set → add_trees commits set = Ok S →
  ∀ o, o ∈ S ↔ o ∈ set ∨ ∃ c, c ∈ commits ∧ in_commit c o.

Lemma reached_from_nil c : ¬ reached_from parents [] c.
Proof. intros (f & Hf & _). by apply elem_of_nil in Hf. Qed.

Lemma select_objects_exact want have S :
  (∀ X : gset ObjectId, (∀ o, o ∈ X → reached_from parents (want ++ have) o) → start X) →
  select_objects reach add_trees want have = Ok S →
  ∀ o, o ∈ S ↔
    (o ∈ want ∨ ∃ c, reached_from parents want c ∧ ¬ reached_from parents have c ∧
                     (o = c ∨ in_commit c o)) ∧
    ¬ ∃ c, reached_from parents have c ∧ (o = c ∨ in_commit c o).
Proof.
  intros Hst. unfold select_objects. intros (wc & Hw & Hrest)%result_bind_Ok.
  destruct (reach want have) as [wc'|] eqn:Hw'; [|done]. injection Hw as ->.
  pose proof (reach_spec _ _ _ Hw') as Hwc.
  apply result_bind_Ok in Hrest as (needed & Hn & Hrest).
  assert (start (list_to_set wc ∪ list_to_set want)) as Hs1.
  { apply Hst. intros x. rewrite elem_of_union, !elem_of_list_to_set, Hwc, reached_from_app.
    intros [[? _]|Hx]; [by left|]. left. exists x. split; [done|apply rtc_refl]. }
  assert (∀ o, o ∈ needed ↔ o ∈ want ∨
     ∃ c, reached_from parents want c ∧ ¬ reached_from parents have c ∧ (o = c ∨ in_commit c o)) as Hn'.
  { intros o. rewrite (add_trees_spec _ _ _ Hs1 Hn), elem_of_union, !elem_of_list_to_set.
    setoid_rewrite Hwc. naive_solver. }
  destruct have as [|h have'] eqn:Hh.
  { injection Hrest as <-. intros o. rewrite Hn'. pose proof reached_from_nil. naive_solver. }
  rewrite <- Hh in *. clear Hh h have'.
  apply result_bind_Ok in Hrest as (hc & Hr & (hs & Hs & [= <-])%result_bind_Ok).
  destruct (reach have []) as [hc'|] eqn:Hr'; [|done]. injection Hr as ->.
  pose proof (reach_spec _ _ _ Hr') as Hhc. intros o.
  assert (start (list_to_set hc)) as Hs2.
  { apply Hst. intros x. rewrite elem_of_list_to_set, Hhc, reached_from_app. intros [? _]. by right. }
  rewrite elem_of_difference, Hn', (add_trees_spec _ _ _ Hs2 Hs), elem_of_list_to_set.
  setoid_rewrite Hhc. pose proof reached_from_nil. naive_solver.
Qed.

Lemma select_objects_total want have :
  (∀ from excluding, (∀ o, o ∈ from ++ excluding → o ∈ want ++ have) → is_ok (reach from excluding) = true) →
  (∀ commits set, is_ok (add_trees commits set) = true) →
  ∃ S, select_objects reach add_trees want have = Ok S.
Proof.
  intros Hr Ha. unfold select_objects.
  specialize (Hr want have ltac:(done)) as H1. destruct (reach want have) as [wc|]; [|done].
  cbn [map_err mbind result_bind].
  specialize (Ha wc (list_to_set wc ∪ list_to_set want)) as H2.
  destruct (add_trees _ _) as [needed|]; [|done]. cbn [mbind result_bind].
  destruct have as [|h have'] eqn:Hh; [eauto|]. rewrite <- Hh in *.
  specialize (Hr have []) as H3. destruct (reach have []) as [hc|].
  - cbn [map_err mbind result_bind]. specialize (Ha hc (list_to_set hc)) as H4.
    destruct (add_trees _ _); [cbn; eauto|done].
  - discriminate H3. intros o. rewrite app_nil_r. intros. apply elem_of_app. by right.
Qed.
End selection.

(** ** Reachability of objects

    The specification of a selection: which objects are reachable from a list of tips, by
    what the stored objects themselves name. *)

Section object_graph.
Context `{GixObject} (stored : ObjectId → option (Kind * bytes)).

Definition commit_tree (data : bytes) : option ObjectId :=
  commit ← ok (CommitRef_from_bytes data); ok (oid_from_hex (cr_tree commit)).

Definition commit_parent_ids (data : bytes) : option (list ObjectId) :=
  commit ← ok (CommitRef_from_bytes data); ok (mapM oid_from_hex (cr_parents commit)).

Definition tag_target (data : bytes) : option ObjectId :=
  tag ← ok (TagRef_from_bytes data); ok (oid_from_hex (tr_target tag)).

(** A commit names its parents and its tree, a tree its entries, a tag its target. *)
Definition links (o : ObjectId) : list ObjectId :=
  match stored o with
  | Some (GCommit, data) => default [] (commit_parent_ids data) ++ option_list (commit_tree data)
  | Some (GTree, data) => snd <$> default [] (ok (TreeRef_from_bytes data))
  | Some (GTag, data) => option_list (tag_target data)
  | Some (GBlob, _) | None => []
  end.

(** Nothing is stored under the id, or an object of this kind. *)
Definition held_as (k : Kind) (o : ObjectId) : Prop := ∀ k' data, stored o = Some (k', data) → k' = k.

(** Trees parse, the recorded history is that of the commits, and objects are of the kind
    they are named as.  The commit of a submodule is named by a tree; it is not an object
    of the repository. *)
Record consistent (parents : ObjectId → list ObjectId) : Prop := {
  stored_trees_parse o data : stored o = Some (GTree, data) → is_ok (TreeRef_from_bytes data) = true;
  history_recorded o : parents o =
    match stored o with Some (GCommit, data) => default [] (commit_parent_ids data) | _ => [] end;
  parents_held o p : p ∈ parents o → held_as GCommit p;
  trees_held o data t : stored o = Some (GCommit, data) → commit_tree data = Some t → held_as GTree t;
  entries_held o data es (b : bool) p : stored o = Some (GTree, data) → TreeRef_from_bytes data = Ok es →
    (b, p) ∈ es → held_as (if b then GTree else GBlob) p }.

(** What the selection is exact for: commits, and blobs that cannot be taken for one. *)
Definition plain_tip (o : ObjectId) : Prop :=
  ∀ k data, stored o = Some (k, data) →
    k = GCommit ∨ k = GBlob ∧ is_ok (CommitRef_from_bytes data) = false.

(** Readers that find what is stored. *)
Definition reads_trees (entries : ObjectId → result error (option (list (bool * ObjectId)))) : Prop :=
  ∀ o, entries o =
    match stored o with Some (GTree, data) => Some <$> TreeRef_from_bytes data | _ => Ok None end.

Definition reads_commits (read_commit_tree : ObjectId → result error (option ObjectId)) : Prop :=
  ∀ o, read_commit_tree o = Ok ('(_, data) ← stored o; commit_tree data).
End object_graph.

Section object_graph_facts.
Context `{GixHashLaws} {gix_object : GixObject} (stored : ObjectId → option (Kind * bytes)).
Context (parents : ObjectId → list ObjectId) (cons : consistent stored parents).
Context (entries : ObjectId → result error (option (list (bool * ObjectId)))).
Context (read_commit_tree : ObjectId → result error (option ObjectId)).
Context (Htrees : reads_trees stored entries) (Hcommits : reads_commits stored read_commit_tree).

Lemma kids_stored o :
  kids entries o = match stored o with
                   | Some (GTree, data) => snd <$> default [] (ok (TreeRef_from_bytes data)) | _ => [] end.
Proof.
  unfold kids. rewrite (Htrees o). destruct (stored o) as [[[] data]|] eqn:E; try done.
  by destruct (TreeRef_from_bytes data).
Qed.

Lemma consistent_modes : modes_agree entries.
Proof.
  intros o es child He Hin. rewrite (Htrees o) in He. rewrite kids_stored.
  destruct (stored o) as [[[] data]|] eqn:E; try done.
  destruct (TreeRef_from_bytes data) as [es'|] eqn:Hp; [|done]. injection He as ->.
  pose proof (entries_held _ _ cons _ _ _ _ _ E Hp Hin) as Hk.
  destruct (stored child) as [[[] d]|] eqn:Ec; try done. by specialize (Hk _ _ Ec).
Qed.

Lemma plain_tip_kids o : plain_tip stored o → kids entries o = [].
Proof.
  intros Ht. rewrite kids_stored. destruct (stored o) as [[[] data]|] eqn:E; try done.
  by destruct (Ht _ _ E) as [|[? _]].
Qed.

Lemma reached_plain_tip t c : plain_tip stored t → reaches parents t c → plain_tip stored c.
Proof.
  intros Ht Hr. apply rtc_inv_r in Hr as [<-|(b & _ & Hp)]; [done|]. intros k data E. left.
  by eapply (parents_held _ _ cons).
Qed.

Abbreviation below := (below_commit read_commit_tree (reaches (kids entries))).

Lemma reaches_incl {A} (f g : A → list A) o p :
  (∀ x y, y ∈ f x → y ∈ g x) → reaches f o p → reaches g o p.
Proof. intros Hfg. induction 1 as [|a b c Hab _ IH]; [apply rtc_refl|]. eapply rtc_l; [by apply Hfg|done]. Qed.

Lemma below_reached t c o :
  plain_tip stored t → reaches parents t c → o = c ∨ below c o → reaches (links stored) t o.
Proof.
  intros Ht Hr Ho. transitivity c.
  { eapply reaches_incl; [|done]. intros x y. unfold links. rewrite (history_recorded _ _ cons).
    destruct (stored x) as [[[] data]|]; try by intros ?%elem_of_nil. intros Hy. apply elem_of_app. by left. }
  pose proof (reached_plain_tip _ _ Ht Hr) as Hc. destruct Ho as [->|(tr & Htr & Ho)]; [apply rtc_refl|].
  rewrite (Hcommits c) in Htr. injection Htr as Htr.
  destruct (stored c) as [[k data]|] eqn:E; [|done]. cbn in Htr. apply rtc_l with tr.
  - unfold links. rewrite E. destruct (Hc _ _ E) as [->|[-> Hp]].
    + rewrite Htr. apply elem_of_app. right. by left.
    + unfold commit_tree in Htr. by destruct (CommitRef_from_bytes data).
  - eapply reaches_incl; [|done]. intros x y. rewrite kids_stored. unfold links.
    by destruct (stored x) as [[[] d]|]; try by intros ?%elem_of_nil.
Qed.

Lemma reached_below t o :
  plain_tip stored t → reaches (links stored) t o → ∃ c, reaches parents t c ∧ (o = c ∨ below c o).
Proof.
  intros Ht Hr.
  cut (∃ c, reaches parents t c ∧ (o = c ∨ below c o ∧ (held_as stored GTree o ∨ held_as stored GBlob o))).
  { naive_solver. }
  revert o Hr. refine (rtc_ind_r _ _ _ _); [by exists t; split; [apply rtc_refl|left]|].
  intros o p _ Hl (c & Hc & Ho). unfold links in Hl.
  destruct (stored o) as [[k data]|] eqn:E; [|by apply elem_of_nil in Hl].
  destruct Ho as [->|((tr & Htr & Ho) & Hk)].
  - destruct (reached_plain_tip _ _ Ht Hc _ _ E) as [->|[-> _]]; [|by apply elem_of_nil in Hl].
    apply elem_of_app in Hl as [Hl|Hl].
    + exists p. split; [|by left]. eapply rtc_r; [done|]. by rewrite (history_recorded _ _ cons), E.
    + destruct (commit_tree data) as [tr|] eqn:Htr; [|by apply elem_of_nil in Hl].
      apply list_elem_of_singleton in Hl as ->. exists c. split; [done|]. right. split.
      * exists tr. split; [|apply rtc_refl]. rewrite (Hcommits c), E. cbn. by rewrite Htr.
      * left. by eapply (trees_held _ _ cons).
  - assert (k = GTree ∨ k = GBlob) as [->| ->] by (destruct Hk as [Hk|Hk]; specialize (Hk _ _ E); auto);
      [|by apply elem_of_nil in Hl].
    destruct (TreeRef_from_bytes data) as [es|] eqn:Hp; cbn in Hl; [|by apply elem_of_nil in Hl].
    apply list_elem_of_fmap in Hl as ([b p'] & -> & Hin). exists c. split; [done|]. right. split.
    + exists tr. split; [done|]. eapply rtc_r; [done|]. rewrite kids_stored, E, Hp. cbn.
      apply list_elem_of_fmap. by exists (b, p').
    + pose proof (entries_held _ _ cons _ _ _ _ _ E Hp Hin). destruct b; [by left|by right].
Qed.

(** What a set of plain tips reaches: the commits of their history, and what is below
    the trees of these. *)
Lemma reached_from_links tips o :
  Forall (plain_tip stored) tips →
  reached_from (links stored) tips o ↔ ∃ c, reached_from parents tips c ∧ (o = c ∨ below c o).
Proof.
  rewrite Forall_forall. intros Ht. split.
  - intros (t & Hin & Hr). apply reached_below in Hr as (c & Hc & Ho); [|by apply Ht].
    exists c. split; [by exists t|done].
  - intros (c & (t & Hin & Hr) & Ho). exists t. split; [done|]. eapply below_reached; [by apply Ht|done..].
Qed.

(** A selection by the history is a selection by what objects name. *)
Lemma selection_links want have (S : gset ObjectId) :
  Forall (plain_tip stored) (want ++ have) →
  (∀ o, o ∈ S ↔
    (o ∈ want ∨ ∃ c, reached_from parents want c ∧ ¬ reached_from parents have c ∧ (o = c ∨ below c o)) ∧
    ¬ ∃ c, reached_from parents have c ∧ (o = c ∨ below c o)) →
  ∀ o, o ∈ S ↔ reached_from (links stored) want o ∧ ¬ reached_from (links stored) have o.
Proof.
  intros [Hw Hh]%Forall_app HS o. rewrite HS, !reached_from_links by done. split; intros [Ho Hn]; split; [|done| |done].
  - destruct Ho as [Ho|(c & Hc & _ & Hco)]; [|by exists c]. exists o. split; [|by left].
    exists o. split; [done|apply rtc_refl].
  - destruct Ho as (c & Hc & Hco). right. exists c. split_and!; [done| |done].
    intros Hx. apply Hn. by exists c.
Qed.

Lemma tag_kids t data o : stored t = Some (GTag, data) → reaches parents t o → kids entries o = [].
Proof.
  intros Et Hr. apply rtc_inv in Hr as [<-|(y & Hy & _)]; [by rewrite kids_stored, Et|].
  rewrite (history_recorded _ _ cons), Et in Hy. by apply elem_of_nil in Hy.
Qed.

(** A wanted tag is all that is selected for it. *)
Lemma selection_tag t data (S : gset ObjectId) :
  stored t = Some (GTag, data) → is_ok (CommitRef_from_bytes data) = false →
  (∀ o, o ∈ S ↔
    (o ∈ [t] ∨ ∃ c, reached_from parents [t] c ∧ ¬ reached_from parents [] c ∧ (o = c ∨ below c o)) ∧
    ¬ ∃ c, reached_from parents [] c ∧ (o = c ∨ below c o)) →
  S = {[t]}.
Proof.
  intros Et Hp HS. apply set_eq. intros o. rewrite HS, elem_of_singleton, list_elem_of_singleton. split.
  - intros [[->|(c & (f & ->%list_elem_of_singleton & Hr) & _ & Ho)] _]; [done|].
    apply rtc_inv in Hr as [<-|(y & Hy & _)].
    + destruct Ho as [->|(tr & Htr & _)]; [done|]. rewrite (Hcommits t), Et in Htr. cbn in Htr.
      unfold commit_tree in Htr. by destruct (CommitRef_from_bytes data).
    + rewrite (history_recorded _ _ cons), Et in Hy. by apply elem_of_nil in Hy.
  - intros ->. split; [by left|]. intros (c & Hc & _). by eapply reached_from_nil.
Qed.
End object_graph_facts.

(** ** Nothing is lost on the way to the packer *)

Section stage_facts.
Context `{GixHashLaws} {gix_out : GixOutput}.

(** What a read finds of an object. *)
Definition found (read : ObjectId → result error (option (Kind * bytes))) (o : ObjectId) :
    option (ObjectId * Kind * bytes) :=
  match read o with Ok x => (λ '(k, data), (o, k, data)) <$> x | Err _ => None end.

Lemma fetch_objects_Ok read oids l : fetch_objects read oids = Ok l → l = omap (found read) oids.
Proof.
  revert l; induction oids as [|o oids IH]; intros l; cbn [fetch_objects]; [by intros [= <-]|].
  intros (x & Hx & (rest & Hr%IH & [= <-])%result_bind_Ok)%result_bind_Ok.
  change (omap (found read) (o :: oids)) with
    (match found read o with
     | Some y => y :: omap (found read) oids
     | None => omap (found read) oids end).
  unfold found at 1. rewrite Hx, <- Hr. by destruct x as [[k data]|].
Qed.

Lemma loose_path_inj o p : loose_path o = loose_path p → o = p.
Proof.
  unfold loose_path. intros E.
  apply app_inj_1 in E as [E1 E2]; [|by rewrite !length_take, !length_oid_to_hex].
  apply app_inv_head in E2. apply oid_to_hex_inj.
  by rewrite <- (take_drop 2 (oid_to_hex o)), <- (take_drop 2 (oid_to_hex p)), E1, E2.
Qed.

Lemma stage_objects_Ok fetched d d' :
  NoDup ((λ x, x.1.1) <$> fetched) → (∀ x, x ∈ fetched → d !! loose_path x.1.1 = None) →
  stage_objects d fetched = Ok d' →
  (∀ o k data, (o, k, data) ∈ fetched →
     d' !! loose_path o = Some (zlib (loose_header k data ++ data))) ∧
  (∀ path, path ∉ (λ x, loose_path x.1.1) <$> fetched → d' !! path = d !! path).
Proof.
  revert d; induction fetched as [|[[o k] data] fetched IH]; intros d Hnd Hd; cbn [stage_objects].
  { intros [= <-]. split; [by intros ? ? ? ?%elem_of_nil|done]. }
  rewrite fmap_cons in Hnd. apply NoDup_cons in Hnd as [Ho Hnd]. cbn [fst] in Ho.
  intros (d1 & Hd1 & Hrest)%result_bind_Ok. unfold stage_object in Hd1.
  pose proof (Hd (o, k, data) ltac:(by left)) as Hdo. cbn [fst] in Hdo.
  rewrite decide_False in Hd1 by (rewrite Hdo; by intros [? ?]).
  destruct (loose_io d (loose_path o)); [done|]. injection Hd1 as <-.
  apply IH in Hrest as [H1 H2]; [|done|].
  - assert (∀ x, x ∈ fetched → loose_path o ≠ loose_path x.1.1) as Hne.
    { intros x Hx E%loose_path_inj. apply Ho, list_elem_of_fmap. by exists x. }
    split.
    + intros o' k' data' [[= -> -> ->]|Hin]%elem_of_cons; [|by apply H1].
      rewrite H2, lookup_insert_eq; [done|]. intros (x & E & Hx)%list_elem_of_fmap. by eapply Hne.
    + intros path Hp. rewrite fmap_cons, not_elem_of_cons in Hp. destruct Hp as [Hp1 Hp2].
      cbn [fst] in Hp1. rewrite H2 by done. by rewrite lookup_insert_ne.
  - intros x Hx. rewrite lookup_insert_ne; [apply Hd; by right|].
    intros E%loose_path_inj. apply Ho, list_elem_of_fmap. by exists x.
Qed.

Lemma NoDup_found read oids : NoDup oids → NoDup ((λ x, x.1.1) <$> omap (found read) oids).
Proof.
  induction 1 as [|o oids Ho _ IH]; [constructor|].
  change (omap (found read) (o :: oids)) with
    (match found read o with
     | Some y => y :: omap (found read) oids
     | None => omap (found read) oids end).
  assert (∀ x o', found read o' = Some x → x.1.1 = o') as Hoid.
  { intros x o'. unfold found. destruct (read o') as [[[k data]|]|]; [|done..]. by intros [= <-]. }
  destruct (found read o) as [x|] eqn:Hs; [|done]. rewrite fmap_cons. constructor; [|done].
  intros (y & Hxy & (o' & Ho' & Hy)%list_elem_of_omap)%list_elem_of_fmap.
  apply Hoid in Hs, Hy. congruence.
Qed.

Lemma pack_objects_complete read needed pack :
  pack_objects read needed = Ok pack →
  (needed = ∅ → pack = build_empty_pack) ∧
  (needed ≠ ∅ → ∃ objects, let fetched := omap (found read) (elements needed) in
     gix_pack_objects objects ((λ x, x.1.1) <$> fetched) = Ok pack ∧
     (∀ o k data, (o, k, data) ∈ fetched →
        objects !! loose_path o = Some (zlib (loose_header k data ++ data))) ∧
     (∀ path, is_Some (objects !! path) → ∃ x, x ∈ fetched ∧ path = loose_path x.1.1)).
Proof.
  unfold pack_objects. case_decide as He; intros Hp; [split; [by injection Hp|done]|].
  split; [done|]. intros _. apply result_bind_Ok in Hp as (l & Hl%fetch_objects_Ok & Ha). subst l.
  unfold assemble_pack in Ha. destruct temp_repo; [done|].
  apply result_bind_Ok in Ha as (objects & Hs & Hg). exists objects. cbv zeta.
  apply stage_objects_Ok in Hs as [H1 H2].
  - split_and!; [done|done|]. intros path Hp.
    destruct (decide (path ∈ (λ x, loose_path x.1.1) <$> omap (found read) (elements needed))) as [Hin|Hni].
    + apply list_elem_of_fmap in Hin as (x & -> & Hx). by exists x.
    + rewrite H2, lookup_empty in Hp by done. by destruct Hp.
  - apply NoDup_found, NoDup_elements.
  - intros x _. apply lookup_empty.
Qed.
End stage_facts.

(** ** A tree diff sees every tree it needs *)

Section diff_facts.
Context `{GixHashLaws} {gix_object : GixObject} {gix_out : GixOutput}.
Context (read_tree : ObjectId → result error bytes).

(** The contents of a tree; the empty tree need not be stored. *)
Definition tree_data (o : ObjectId) : option bytes :=
  if decide (o = oid_empty_tree) then Some [] else ok (read_tree o).

Definition subtrees (o : ObjectId) : list ObjectId :=
  if decide (o = oid_empty_tree) then []
  else match ok (read_tree o) ≫= λ data, ok (TreeRef_from_bytes data) with
       | Some entries => omap tree_entry entries
       | None => []
       end.

Definition faithful (T : gmap ObjectId bytes) : Prop := ∀ o d, T !! o = Some d → tree_data o = Some d.

(** [T'] extends [T] by trees whose subtrees are all in [T']. *)
Definition grows (T T' : gmap ObjectId bytes) : Prop :=
  faithful T' ∧ dom T ⊆ dom T' ∧
  ∀ o p, o ∈ dom T' → o ∉ dom T → p ∈ subtrees o → p ∈ dom T'.

Lemma grows_refl T : faithful T → grows T T.
Proof. intros HT. split_and!; [done|done|naive_solver]. Qed.

Lemma grows_trans T1 T2 T3 : grows T1 T2 → grows T2 T3 → grows T1 T3.
Proof.
  intros (_ & H12 & Hk1) (HT & H23 & Hk2). split_and!; [done|set_solver|].
  intros o p Ho Hn Hp. destruct (decide (o ∈ dom T2)); [apply H23; eauto|eauto].
Qed.

(** Fetching a list of trees, each from what the ones before it left. *)
Lemma foldl_fetch (U : gset ObjectId) fuel :
  (∀ o T T', o ∈ U → faithful T → (size (U ∖ dom T) < fuel)%nat →
     fetch_trees read_tree fuel o T = Ok T' → grows T T' ∧ o ∈ dom T') →
  ∀ cs T T', (∀ c, c ∈ cs → c ∈ U) → faithful T → (size (U ∖ dom T) < fuel)%nat →
    foldl (λ acc child, trees ← acc; fetch_trees read_tree fuel child trees) (Ok T) cs = Ok T' →
    grows T T' ∧ ∀ c, c ∈ cs → c ∈ dom T'.
Proof.
  intros IH cs. induction cs as [|c cs IHcs]; intros T T' HU HT Hf; cbn [foldl].
  { intros [= <-]. split; [by apply grows_refl|by intros c ?%elem_of_nil]. }
  cbn [mbind result_bind]. destruct (fetch_trees read_tree fuel c T) as [T1|e] eqn:H1.
  - apply IH in H1 as [Hg1 Hc]; [|apply HU; by left|done|done]. intros [Hg2 Hcs]%IHcs.
    + split; [by eapply grows_trans|]. destruct Hg2 as (_ & Hsub & _).
      intros c' [->|?]%elem_of_cons; [by apply Hsub|by apply Hcs].
    + intros c' Hc'. apply HU. by right.
    + by destruct Hg1.
    + destruct Hg1 as (_ & Hsub & _). eapply Nat.le_lt_trans; [|exact Hf]. apply subseteq_size. set_solver.
  - intros Herr. exfalso. clear -Herr. induction cs as [|c' cs IHc]; [done|]. by apply IHc.
Qed.

Lemma fetch_trees_spec (U : gset ObjectId) fuel :
  (∀ o p, p ∈ subtrees o → p ∈ U) →
  ∀ o T T', o ∈ U → faithful T → (size (U ∖ dom T) < fuel)%nat →
    fetch_trees read_tree fuel o T = Ok T' → grows T T' ∧ o ∈ dom T'.
Proof.
  intros HU. induction fuel as [|fuel IH]; intros o T T' Ho HT Hf; [lia|]. cbn [fetch_trees].
  case_decide as He.
  { intros [= <-]. subst o. split; [|set_solver]. split_and!.
    - intros o d [[<- <-]|[_ Hd]]%lookup_insert_Some; [by unfold tree_data; rewrite decide_True|by apply HT].
    - set_solver.
    - intros o p Ho' Hn Hp. assert (o = oid_empty_tree) as -> by set_solver.
      unfold subtrees in Hp. rewrite decide_True in Hp by done. by apply elem_of_nil in Hp. }
  case_decide as Hin.
  { intros [= <-]. split; [by apply grows_refl|by apply elem_of_dom]. }
  intros (data & Hd & (entries & Hes & Hl)%result_bind_Ok)%result_bind_Ok.
  assert (subtrees o = omap tree_entry entries) as Hsub.
  { unfold subtrees. rewrite decide_False, Hd by done. cbn.
    destruct (TreeRef_from_bytes data); [|done]. by injection Hes as ->. }
  assert (o ∉ dom T) as Hod by (by rewrite elem_of_dom).
  eapply (foldl_fetch U fuel IH) in Hl as [(HT' & Hd1 & Hk) Hcs].
  - split; [|set_solver]. split_and!; [done|set_solver|]. intros x p Hx Hn Hp.
    destruct (decide (x = o)) as [->|Hne]; [|apply (Hk x p); [done|set_solver|done]].
    apply Hcs. by rewrite <- Hsub.
  - intros c Hc. apply (HU o). by rewrite Hsub.
  - intros x d [[<- <-]|[_ Hx]]%lookup_insert_Some; [|by apply HT].
    unfold tree_data. by rewrite decide_False, Hd by done.
  - rewrite dom_insert_L.
    assert (size (U ∖ ({[o]} ∪ dom T)) < size (U ∖ dom T))%nat; [|lia]. apply subset_size. set_solver.
Qed.

Lemma grows_closed T o p :
  grows ∅ T → o ∈ dom T → reaches (subtrees) o p → p ∈ dom T.
Proof.
  intros (_ & _ & Hk) Ho Hr. revert Ho. induction Hr as [|a b c Hab _ IH]; intros Ha; [done|].
  apply IH, (Hk a); [done|set_solver|done].
Qed.

Lemma tree_diff_complete (U : ObjectId → gset ObjectId) fuel parent_tree child_tree diff :
  (∀ t, t ∈ U t) → (∀ t o p, p ∈ subtrees o → p ∈ U t) → (∀ t, (size (U t) < fuel)%nat) →
  tree_diff read_tree fuel parent_tree child_tree = Ok diff →
  let lhs := default oid_empty_tree parent_tree in
  ∃ (trees : gmap ObjectId bytes) changes,
    gix_tree_diff (λ o, trees !! o) lhs child_tree = Ok changes ∧
    diff = map ref_diff_entry changes ∧
    ∀ t, reaches subtrees lhs t ∨ reaches subtrees child_tree t →
      ∃ d, trees !! t = Some d ∧ tree_data t = Some d.
Proof.
  intros Hroot HU Hsize Hd. cbv zeta. unfold tree_diff in Hd.
  set (lhs := default oid_empty_tree parent_tree) in *.
  apply result_bind_Ok in Hd as (T1 & H1 & (T2 & H2 & (changes & Hg & [= <-])%result_bind_Ok)%result_bind_Ok).
  exists T2, changes. split_and!; [done|done|].
  assert (∀ t (T : gmap ObjectId bytes), (size (U t ∖ dom T) < fuel)%nat) as Hf.
  { intros t T. eapply Nat.le_lt_trans; [|apply (Hsize t)]. apply subseteq_size. set_solver. }
  eapply (fetch_trees_spec (U lhs)) in H1 as [Hg1 Hl]; [|apply HU|apply Hroot|by intros o d ?%lookup_empty_Some|apply Hf].
  eapply (fetch_trees_spec (U child_tree)) in H2 as [Hg2 Hc]; [|apply HU|apply Hroot|by destruct Hg1|apply Hf].
  pose proof (grows_trans _ _ _ Hg1 Hg2) as Hg12. destruct Hg2 as (HT & Hsub & _).
  intros t Ht. assert (t ∈ dom T2) as [d Hdt]%elem_of_dom; [|eauto].
  destruct Ht as [Ht|Ht]; (eapply grows_closed; [exact Hg12| |exact Ht]); [by apply Hsub|done].
Qed.
End diff_facts.

(** ** The cache in front of the builder *)

Section cache_facts.
Context `{GixHash} {io : CacheIO}.

Lemma cached_pack_Ok id want have opts fresh cache out cache' :
  cached_pack id want have opts fresh cache = (Ok out, cache') →
  (try_hit id (cache_key id want have opts) cache = Some out ∨
   ∃ pack, fresh = Ok pack ∧ out = output_of pack) ∧
  ((∀ d p, opens d p = true) → (∀ d p data, written d p data = Some (length data)) →
   ∀ fresh', cached_pack id want have opts fresh' cache' = (Ok out, cache')).
Proof.
  unfold cached_pack. set (key := cache_key id want have opts).
  destruct (try_hit id key cache) as [hit|] eqn:Hh.
  - intros [= <- <-]. split; [by left|]. intros _ _ fresh'. by rewrite Hh.
  - destruct fresh as [pack|e]; [|done]. intros [= <- <-]. split; [by right; exists pack|].
    intros Ho Hw fresh'. unfold try_hit, cache_write. rewrite Hw, lookup_insert_eq, firstn_all.
    cbn [mbind option_bind]. by rewrite Ho.
Qed.
End cache_facts.
