(* ===== verification/KvPack.v ===== *)
(** * Pack building and tree diff of the KV backend ([backend/kv/build_pack.rs])

    The reads of the database behind the shared code of [PackTools.v], the traversal of
    trees, and the cache in front of the builder. *)

From stdpp Require Import base gmap list sorting strings.
From Stdlib Require Import Strings.Byte.
From S2P Require Import Prelude Bytes Gix Proto Types Handlers Graph Inspect KvKeys Kv PackCache PackTools.
Open Scope N_scope.

Section build_pack.
Context `{GixObject} {tikv : Tikv} {gix_out : GixOutput} {io : CacheIO}.

(** The tree of a commit; an object that is no commit has none. *)
Definition read_commit_tree (repo_id : N) (commit_oid : ObjectId) : ST db (option ObjectId) :=
  o ← read_object_raw repo_id commit_oid u64_max;
  mret (data ← o; commit ← ok (CommitRef_from_bytes data); ok (oid_from_hex (cr_tree commit))).

Definition read_object_of_kind (repo_id : N) (oid : ObjectId) (expected_kind : byte) :
    ST db (option bytes) :=
  read_txn (b! "begin txn for read_object_of_kind")
    (value ← t_get (obj repo_id oid) (b! "get obj");
     mret (match value with
           | Some (kind :: data) => if decide (kind = expected_kind) then Some data else None
           | _ => None
           end)).

Definition kind_of_byte (b : byte) : option Kind :=
  if decide (b = KIND_BLOB) then Some GBlob
  else if decide (b = KIND_TREE) then Some GTree
  else if decide (b = KIND_COMMIT) then Some GCommit
  else if decide (b = KIND_TAG) then Some GTag
  else None.

Definition read_object_with_gix_kind (repo_id : N) (oid : ObjectId) : ST db (option (Kind * bytes)) :=
  read_txn (b! "begin txn for read_object_with_gix_kind")
    (value ← t_get (obj repo_id oid) (b! "get obj");
     mret (match value with
           | Some (b :: data) => (λ k, (k, data)) <$> kind_of_byte b
           | _ => None
           end)).

(** The entries of a stored tree; an object that is no tree has none to visit. *)
Definition tree_entries (repo_id : N) (m : db) (oid : ObjectId) :
    result error (option (list (bool * ObjectId))) :=
  match (read_object_of_kind repo_id oid KIND_TREE m).1 with
  | Err e => Err e
  | Ok None => Ok None
  | Ok (Some data) =>
      Some <$> context (b! "parsing tree " ++ oid_to_hex oid) (TreeRef_from_bytes data)
  end.

(** Insert the entries of one tree; new subtrees go on the stack. *)
Fixpoint visit_entries (entries : list (bool * ObjectId)) (set : gset ObjectId)
    (stack : list ObjectId) : gset ObjectId * list ObjectId :=
  match entries with
  | [] => (set, stack)
  | (is_tree, child) :: entries' =>
      if is_tree then
        if decide (child ∉ set) then visit_entries entries' ({[child]} ∪ set) (child :: stack)
        else visit_entries entries' set stack
      else visit_entries entries' ({[child]} ∪ set) stack
  end.

Fixpoint collect_tree_loop (fuel : nat) (repo_id : N) (m : db) (set : gset ObjectId)
    (stack : list ObjectId) : option (result error (gset ObjectId)) :=
  match fuel with
  | O => None
  | S fuel =>
      match stack with
      | [] => Some (Ok set)
      | current :: stack' =>
          match tree_entries repo_id m current with
          | Err e => Some (Err e)
          | Ok None => collect_tree_loop fuel repo_id m set stack'
          | Ok (Some entries) =>
              let '(set', stack'') := visit_entries entries set stack' in
              collect_tree_loop fuel repo_id m set' stack''
          end
      end
  end.

(** The entries a stored value has when it is read as a tree. *)
Definition value_entries (v : bytes) : list (bool * ObjectId) :=
  match v with
  | _ :: data => default [] (ok (TreeRef_from_bytes data))
  | [] => []
  end.

Definition all_entries (m : db) : list (bool * ObjectId) :=
  map_to_list m ≫= λ kv, value_entries kv.2.

(** A visited tree is the root or an entry of a stored tree: [collect_tree_total]. *)
Definition tree_fuel (m : db) : nat := S (S (length (all_entries m))).

Definition collect_tree_oids (repo_id : N) (m : db) (tree_oid : ObjectId) (set : gset ObjectId) :
    result error (gset ObjectId) :=
  if decide (tree_oid ∈ set) then Ok set
  else default (Ok set)
         (collect_tree_loop (tree_fuel m) repo_id m ({[tree_oid]} ∪ set) [tree_oid]).

(** The trees of a list of commits, into one set. *)
Definition collect_commit_trees (repo_id : N) (m : db) :
    list ObjectId → gset ObjectId → result error (gset ObjectId) :=
  add_commit_trees (λ c, (read_commit_tree repo_id c m).1) (collect_tree_oids repo_id m).

(** Steps 1 to 3 of [build_pack]: the ids of the objects to send. *)
Definition needed_oids (repo_id : N) (want have : list ObjectId) (m : db) :
    result error (gset ObjectId) :=
  select_objects (λ from excluding, kv_reachable_excluding repo_id from excluding usize_max m)
    (collect_commit_trees repo_id m) want have.

(** The pack built for a request, without the cache. *)
Definition fresh_pack (repo_id : N) (want have : list ObjectId) (m : db) : result error bytes :=
  needed ← needed_oids repo_id want have m;
  pack_objects (λ o, (read_object_with_gix_kind repo_id o m).1) needed.

(** The backend's state: the database, the cache directory, and the metadata cells of
    the packs ingested so far, each emptied by its first inspection. *)
Record KvStore := {
  kv_db : db;
  kv_cache : dir;
  kv_cells : list (option PackMetadata) }.

Definition build_pack (repo_id : N) (want have : list ObjectId) (opts : PackOptions) :
    ST KvStore PackOutput := fun s =>
  let '(r, cache) := cached_pack repo_id want have opts (fresh_pack repo_id want have (kv_db s)) (kv_cache s) in
  (r, {| kv_db := kv_db s; kv_cache := cache; kv_cells := kv_cells s |}).

(** ** Tree diff *)

Definition kv_read_tree (repo_id : N) (m : db) (oid : ObjectId) : result error bytes :=
  o ← (read_object_of_kind repo_id oid KIND_TREE m).1;
  ok_or (Msg (b! "tree " ++ oid_to_hex oid ++ b! " not found")) o.

Definition kv_tree_diff (repo_id : N) (parent_tree : option ObjectId) (child_tree : ObjectId) (m : db) :
    result error RefDiff :=
  tree_diff (kv_read_tree repo_id m) (tree_fuel m) parent_tree child_tree.
End build_pack.

(** ** The objects of a tree *)

Section tree_facts.
Context `{GixHashLaws} {gix_object : GixObject} {tikv : Tikv}.

Lemma visit_entries_spec entries set stack set' stack' :
  visit_entries entries set stack = (set', stack') →
  set' = set ∪ list_to_set (snd <$> entries) ∧
  ∃ new, stack' = new ++ stack ∧ NoDup new ∧
    (∀ o, o ∈ new → (o ∉ set) ∧ (true, o) ∈ entries) ∧
    (∀ o, (true, o) ∈ entries → o ∉ set → o ∈ new ∨ (false, o) ∈ entries).
Proof.
  revert set stack; induction entries as [|[b c] es IH]; intros set stack; cbn [visit_entries].
  - intros [= <- <-]. split; [set_solver|]. exists [].
    split_and!; [done|constructor|by intros o ?%elem_of_nil|by intros o ?%elem_of_nil].
  - rewrite fmap_cons. cbn [snd list_to_set]. destruct b; [case_decide as Hc|];
      intros (-> & new & -> & Hnd & Hn1 & Hn2)%IH.
    + split; [by rewrite (union_comm_L {[c]}), union_assoc_L|]. exists (new ++ [c]).
      split_and!; [by rewrite <- app_assoc| | |].
      * apply NoDup_app. split_and!; [done| |apply NoDup_singleton].
        intros o [Ho _]%Hn1 ->%list_elem_of_singleton. set_solver.
      * intros o [Ho| ->%list_elem_of_singleton]%elem_of_app; [|by split; [|left]].
        apply Hn1 in Ho as [? ?]. split; [set_solver|by right].
      * intros o [[= ->]|Ho]%elem_of_cons Hs; [left; apply elem_of_app; by right; left|].
        destruct (decide (o = c)) as [->|Hne]; [left; apply elem_of_app; by right; left|].
        destruct (Hn2 o Ho ltac:(set_solver)); [left; apply elem_of_app; by left|by right; right].
    + split; [set_solver|]. exists new. split_and!; [done|done| |].
      * intros o [? ?]%Hn1. split; [done|by right].
      * intros o [[= ->]|Ho]%elem_of_cons Hs; [done|].
        destruct (Hn2 o Ho Hs); [by left|by right; right].
    + split; [by rewrite (union_comm_L {[c]}), union_assoc_L|]. exists new. split_and!; [done|done| |].
      * intros o [? ?]%Hn1. split; [set_solver|by right].
      * intros o [?|Ho]%elem_of_cons Hs; [done|].
        destruct (decide (o = c)) as [->|Hne]; [by right; left|].
        destruct (Hn2 o Ho ltac:(set_solver)); [by left|by right; right].
Qed.

(** Everything but the pending trees has its entries in the set. *)
Definition tree_closing (id : N) (m : db) (set : gset ObjectId) (stack : list ObjectId) : Prop :=
  ∀ o p, o ∈ set → o ∉ stack → p ∈ kids (tree_entries id m) o → p ∈ set.

Lemma tree_closing_step id m set current stack entries set' stack' :
  modes_agree (tree_entries id m) → tree_closing id m set (current :: stack) →
  tree_entries id m current = Ok (Some entries) →
  visit_entries entries set stack = (set', stack') → tree_closing id m set' stack'.
Proof.
  intros Hm Hcl He (-> & new & -> & _ & Hn1 & Hn2)%visit_entries_spec o p Ho Hs Hp.
  destruct (decide (o = current)) as [->|Hne].
  { rewrite (kids_entries _ _ _ He) in Hp. set_solver. }
  destruct (decide (o ∈ set)) as [Hos|Hos].
  { apply elem_of_union_l, (Hcl o); [done|set_solver|done]. }
  assert (o ∈ snd <$> entries) as ([b o'] & -> & Hin)%list_elem_of_fmap by set_solver.
  cbn [snd] in *. assert ((false, o') ∈ entries) as Hf.
  { destruct b; [|done]. destruct (Hn2 o' Hin Hos); set_solver. }
  rewrite (Hm _ _ _ He Hf) in Hp. by apply elem_of_nil in Hp.
Qed.

Lemma collect_tree_loop_spec id m fuel set stack S :
  modes_agree (tree_entries id m) → tree_closing id m set stack →
  collect_tree_loop fuel id m set stack = Some (Ok S) →
  set ⊆ S ∧ tree_closing id m S [] ∧
  ∀ o, o ∈ S → o ∈ set ∨ ∃ f, f ∈ stack ∧ reaches (kids (tree_entries id m)) f o.
Proof.
  intros Hm. revert set stack; induction fuel as [|fuel IH]; intros set stack Hcl; [done|].
  cbn [collect_tree_loop]. destruct stack as [|current stack]; [intros [= <-]; by auto|].
  destruct (tree_entries id m current) as [[entries|]|e] eqn:He; [| |done].
  - destruct (visit_entries entries set stack) as [set' stack'] eqn:Hv. intros Hl.
    pose proof (tree_closing_step _ _ _ _ _ _ _ _ Hm Hcl He Hv) as Hcl'.
    apply visit_entries_spec in Hv as (-> & new & -> & _ & Hn1 & _).
    apply IH in Hl as (Hsub & HS & Hr); [|done]. split_and!; [set_solver|done|].
    assert (∀ k, k ∈ snd <$> entries → reaches (kids (tree_entries id m)) current k) as Hk.
    { intros k Hin. apply rtc_once. by rewrite (kids_entries _ _ _ He). }
    intros o [[Ho|Ho]%elem_of_union|(f & [Hf|Hf]%elem_of_app & Ho)]%Hr.
    + by left.
    + right. exists current. split; [by left|]. apply Hk. set_solver.
    + right. exists current. split; [by left|]. apply Hn1 in Hf as [_ Hf].
      etrans; [apply Hk, list_elem_of_fmap; by exists (true, f)|done].
    + right. exists f. split; [by right|done].
  - intros (Hsub & HS & Hr)%IH; [split_and!; [done|done|set_solver]|].
    intros o p Ho Hs Hp. destruct (decide (o = current)) as [->|].
    + unfold kids in Hp. rewrite He in Hp. by apply elem_of_nil in Hp.
    + apply (Hcl o); set_solver.
Qed.

(** The trees a walk can meet besides its root. *)
Lemma tree_entries_stored id m o entries :
  tree_entries id m o = Ok (Some entries) → ∀ e, e ∈ entries → e ∈ all_entries m.
Proof.
  unfold tree_entries, read_object_of_kind, read_txn, t_get, call, mbind, ST_bind.
  destruct (fault m OpBegin); [done|]. destruct (fault m (OpGet _)); [done|].
  destruct (m !! obj id o) as [v|] eqn:Hv; [|by cbn; destruct (fault m OpCommit)].
  destruct v as [|k data]; [by cbn; destruct (fault m OpCommit)|]. cbn.
  case_decide; [|by destruct (fault m OpCommit)]. cbn.
  destruct (TreeRef_from_bytes data) as [es|] eqn:Hp; cbn; [|done]. intros [= ->] e He.
  unfold all_entries. apply list_elem_of_bind. exists (obj id o, k :: data).
  rewrite elem_of_map_to_list. cbn. by rewrite Hp.
Qed.

Definition tree_universe (root : ObjectId) (m : db) : gset ObjectId :=
  {[root]} ∪ list_to_set (snd <$> all_entries m).

Lemma tree_universe_size root m : (size (tree_universe root m) < tree_fuel m)%nat.
Proof.
  unfold tree_universe, tree_fuel. rewrite size_union_alt, size_singleton.
  pose proof (size_list_to_set_le (snd <$> all_entries m)) as Hle. rewrite length_fmap in Hle.
  pose proof (subseteq_size (list_to_set (snd <$> all_entries m) ∖ {[root]} : gset ObjectId)
    (list_to_set (snd <$> all_entries m)) ltac:(set_solver)). lia.
Qed.

Lemma collect_tree_loop_total id m U fuel set stack :
  (∀ e, e ∈ all_entries m → e.2 ∈ U) →
  (size (U ∖ set) + length stack < fuel)%nat → collect_tree_loop fuel id m set stack ≠ None.
Proof.
  intros HU. revert set stack; induction fuel as [|fuel IH]; intros set stack Hf; [lia|].
  cbn [collect_tree_loop]. destruct stack as [|current stack]; [done|]. cbn [length] in Hf.
  destruct (tree_entries id m current) as [[entries|]|e] eqn:He; [|apply IH; lia|done].
  destruct (visit_entries entries set stack) as [set' stack'] eqn:Hv. apply IH.
  apply visit_entries_spec in Hv as (-> & new & -> & Hnd & Hn & _).
  assert (size (list_to_set new : gset ObjectId) + size (U ∖ (set ∪ list_to_set (snd <$> entries)))
            ≤ size (U ∖ set))%nat as Hsz.
  { rewrite <- size_union.
    - apply subseteq_size. intros o [Ho|Ho]%elem_of_union; [|set_solver].
      apply elem_of_list_to_set, Hn in Ho as [Ho Hin]. apply elem_of_difference. split; [|done].
      apply (HU (true, o)). by eapply tree_entries_stored.
    - intros o Ho [_ Hx]%elem_of_difference. apply elem_of_list_to_set, Hn in Ho as [_ Hin].
      apply Hx, elem_of_union_r, elem_of_list_to_set, list_elem_of_fmap. by exists (true, o). }
  rewrite size_list_to_set in Hsz by done. rewrite length_app. lia.
Qed.

(** The fuel is enough: the default of [collect_tree_oids] is never used. *)
Lemma collect_tree_total id m t set :
  t ∉ set → collect_tree_loop (tree_fuel m) id m ({[t]} ∪ set) [t] ≠ None.
Proof.
  intros Ht. apply (collect_tree_loop_total id m (tree_universe t m)).
  - intros e He. unfold tree_universe. apply elem_of_union_r, elem_of_list_to_set, list_elem_of_fmap.
    by exists e.
  - pose proof (tree_universe_size t m). cbn [length].
    assert (size (tree_universe t m ∖ ({[t]} ∪ set)) < size (tree_universe t m))%nat; [|lia].
    apply subset_size. unfold tree_universe. set_solver.
Qed.

Lemma collect_tree_oids_spec id m t set S :
  modes_agree (tree_entries id m) → tree_closing id m set [] → collect_tree_oids id m t set = Ok S →
  tree_closing id m S [] ∧ ∀ o, o ∈ S ↔ o ∈ set ∨ reaches (kids (tree_entries id m)) t o.
Proof.
  intros Hm Hcl. unfold collect_tree_oids.
  assert (∀ X, tree_closing id m X [] → t ∈ X → ∀ o, reaches (kids (tree_entries id m)) t o → o ∈ X) as Hclo.
  { intros X HX Ht o Ho. revert Ht. induction Ho as [|a b c Hab _ IH]; intros Ht; [done|].
    apply IH, (HX a); [done|by intros ?%elem_of_nil|done]. }
  case_decide as Ht.
  { intros [= <-]. split; [done|]. intros o. split; [by left|]. intros [?|Ho]; [done|]. by eapply Hclo. }
  pose proof (collect_tree_total id m t set Ht) as Htot.
  destruct (collect_tree_loop _ _ _ _ _) as [r|] eqn:Hl; [|done]. cbn. intros ->.
  apply collect_tree_loop_spec in Hl as (Hsub & HS & Hr); [|done|].
  - split; [done|]. intros o. split.
    + intros [Ho|(f & ->%list_elem_of_singleton & Ho)]%Hr; [|by right].
      apply elem_of_union in Ho as [->%elem_of_singleton|Ho]; [right; apply rtc_refl|by left].
    + intros [Ho|Ho]; [set_solver|]. eapply Hclo; [done|set_solver|done].
  - intros o p Ho Hs Hp. apply elem_of_union_r. apply (Hcl o); set_solver.
Qed.

(** The trees and blobs of a commit. *)
Definition in_commit (repo_id : N) (m : db) : ObjectId → ObjectId → Prop :=
  below_commit (λ c, (read_commit_tree repo_id c m).1) (reaches (kids (tree_entries repo_id m))).

Lemma collect_commit_trees_spec id m commits set S :
  modes_agree (tree_entries id m) → tree_closing id m set [] → collect_commit_trees id m commits set = Ok S →
  ∀ o, o ∈ S ↔ o ∈ set ∨ ∃ c, c ∈ commits ∧ in_commit id m c o.
Proof.
  intros Hm. apply (add_commit_trees_spec _ _ (λ X, tree_closing id m X [])).
  intros t X T. by apply collect_tree_oids_spec.
Qed.
End tree_facts.

(** ** The objects of a pack *)

Section pack_facts.
Context `{GixHashLaws} {gix_object : GixObject} {tikv : Tikv}.

(** A commit and everything below its tree. *)
Definition of_commit (repo_id : N) (m : db) (c o : ObjectId) : Prop :=
  o = c ∨ in_commit repo_id m c o.

(** No read fails, and every stored tree parses. *)
Record readable (repo_id : N) (m : db) : Prop := {
  parents_readable o : is_ok (fetch_in repo_id m o) = true;
  trees_readable o : is_ok (tree_entries repo_id m o) = true;
  commits_readable o : is_ok (read_commit_tree repo_id o m).1 = true }.

Lemma collect_tree_loop_readable id m fuel set stack e :
  readable id m → collect_tree_loop fuel id m set stack ≠ Some (Err e).
Proof.
  intros Hr. revert set stack; induction fuel as [|fuel IH]; intros set stack; [done|].
  cbn [collect_tree_loop]. destruct stack as [|c stack]; [done|].
  pose proof (trees_readable _ _ Hr c). destruct (tree_entries id m c) as [[es|]|e']; [| |done].
  - destruct (visit_entries es set stack). apply IH.
  - apply IH.
Qed.

Lemma collect_commit_trees_readable id m commits set :
  readable id m → is_ok (collect_commit_trees id m commits set) = true.
Proof.
  intros Hr. apply add_commit_trees_total; [intros; by apply commits_readable|]. intros t X.
  unfold collect_tree_oids. case_decide as Ht; [done|].
  pose proof (collect_tree_loop_readable id m (tree_fuel m) ({[t]} ∪ X) [t]) as Hne.
  destruct (collect_tree_loop _ _ _ _ _) as [[S|e]|]; [done| |done]. by destruct (Hne e Hr).
Qed.

Lemma walk_universe_mono tips tips' m :
  (∀ o, o ∈ tips → o ∈ tips') → (size (walk_universe tips m) ≤ size (walk_universe tips' m))%nat.
Proof.
  intros Ht. apply subseteq_size. unfold walk_universe. intros o.
  rewrite !elem_of_union, !elem_of_list_to_set. intros [Ho|Ho]; [left; by apply Ht|by right].
Qed.

Lemma reachable_spec id from excluding cap m l :
  kv_reachable_excluding id from excluding cap m = Ok l →
  ∀ o, o ∈ l ↔ reached_from (kv_graph id m) from o ∧ ¬ reached_from (kv_graph id m) excluding o.
Proof. by intros (_ & _ & Hl)%kv_reachable_spec. Qed.

Lemma reachable_readable id from excluding m :
  readable id m → N.of_nat (size (walk_universe (from ++ excluding) m)) ≤ usize_max →
  ∃ l, kv_reachable_excluding id from excluding usize_max m = Ok l.
Proof.
  intros Hr Hcap. unfold kv_reachable_excluding.
  destruct (reachable_excluding_healthy (fetch_in id m)) with
    (U := walk_universe (from ++ excluding) m) (fuel := walk_fuel (from ++ excluding) m)
    (from := from) (excluding := excluding) (cap := usize_max) as [l ->]; [..|by exists l].
  - intros o. pose proof (parents_readable _ _ Hr o). destruct (fetch_in id m o); [eauto|done].
  - apply walk_universe_closed.
  - intros o. apply walk_universe_tips.
  - apply walk_universe_size.
  - done.
Qed.

Lemma commits_closing id m (X : gset ObjectId) :
  (∀ o, o ∈ X → kids (tree_entries id m) o = []) → tree_closing id m X [].
Proof. intros Hk o p Ho _ Hp. rewrite (Hk o Ho) in Hp. by apply elem_of_nil in Hp. Qed.

(** What the selection of [build_pack] holds when it succeeds: an object that is wanted
    itself or is (in the tree of) a commit reachable from the wants and not from the haves,
    and is not (in the tree of) a commit reachable from the haves; and it does succeed when
    no read fails. *)
Lemma kv_needed_selection id want have m :
  modes_agree (tree_entries id m) →
  (∀ o, reached_from (kv_graph id m) (want ++ have) o → kids (tree_entries id m) o = []) →
  (∀ S, needed_oids id want have m = Ok S →
    ∀ o, o ∈ S ↔
      (o ∈ want ∨
       ∃ c, reached_from (kv_graph id m) want c ∧ ¬ reached_from (kv_graph id m) have c ∧
            of_commit id m c o) ∧
      ¬ ∃ c, reached_from (kv_graph id m) have c ∧ of_commit id m c o) ∧
  (readable id m → N.of_nat (size (walk_universe (want ++ have) m)) ≤ usize_max →
   ∃ S, needed_oids id want have m = Ok S).
Proof.
  intros Hm Hk. split.
  - intros S HS. unfold of_commit.
    eapply (select_objects_exact (kv_graph id m) (in_commit id m) _ _ (λ X, tree_closing id m X []));
      [..|exact HS].
    + intros from excluding l. apply reachable_spec.
    + intros commits set T Hc. by apply collect_commit_trees_spec.
    + intros X HX. apply commits_closing. auto.
  - intros Hr Hcap. apply select_objects_total.
    + intros from excluding Hsub. destruct (reachable_readable id from excluding m Hr) as [l ->]; [|done].
      etrans; [|exact Hcap]. apply N2Z.inj_le. rewrite !nat_N_Z. by apply Nat2Z.inj_le, walk_universe_mono.
    + intros commits set. by apply collect_commit_trees_readable.
Qed.

(** The object the database holds under an id. *)
Definition held (repo_id : N) (m : db) (o : ObjectId) : option (Kind * bytes) :=
  match m !! obj repo_id o with
  | Some (b :: data) => (λ k, (k, data)) <$> kind_of_byte b
  | _ => None
  end.

(** Every stored value is a known kind byte and less than 2^64 bytes of contents. *)
Definition objects_wf (repo_id : N) (m : db) : Prop :=
  ∀ o v, m !! obj repo_id o = Some v → ∃ b data, v = b :: data ∧ is_Some (kind_of_byte b) ∧ len data ≤ u64_max.

Lemma kind_of_byte_tree b : kind_of_byte b = Some GTree ↔ b = KIND_TREE.
Proof. unfold kind_of_byte. split; [repeat case_decide; naive_solver|by intros ->]. Qed.

Lemma tree_entries_held id m :
  (∀ op, fault m op = None) → consistent (held id m) (kv_graph id m) →
  reads_trees (held id m) (tree_entries id m).
Proof.
  intros Hf cons o. pose proof (stored_trees_parse _ _ cons o) as Hp. revert Hp.
  unfold held, tree_entries, read_object_of_kind, read_txn, t_get, call, mbind, ST_bind. rewrite !Hf. cbn.
  destruct (m !! obj id o) as [[|b data]|]; cbn; [by rewrite ?Hf|..|by rewrite ?Hf].
  rewrite ?Hf. cbn. destruct (kind_of_byte b) as [k|] eqn:Hk; cbn.
  - case_decide as Hb.
    + apply kind_of_byte_tree in Hb. rewrite Hk in Hb. injection Hb as ->. intros Hp. specialize (Hp _ eq_refl).
      by destruct (TreeRef_from_bytes data).
    + intros _. destruct k; try done. by apply kind_of_byte_tree in Hk.
  - intros _. rewrite decide_False; [done|]. intros Hb%kind_of_byte_tree. congruence.
Qed.

Lemma commit_trees_held id m :
  (∀ op, fault m op = None) → objects_wf id m →
  reads_commits (held id m) (λ c, (read_commit_tree id c m).1).
Proof.
  intros Hf Hwf o.
  unfold held, read_commit_tree, read_object_raw, read_object_with_kind, read_txn, t_get, call, mbind, ST_bind.
  rewrite !Hf. cbn. destruct (m !! obj id o) as [v|] eqn:Hv; cbn; [|by rewrite ?Hf].
  destruct (Hwf _ _ Hv) as (b & data & -> & [k Hk] & Hl). rewrite Hk. cbn.
  rewrite (proj2 (N.ltb_ge _ _)) by exact Hl. cbn. rewrite ?Hf. done.
Qed.

Lemma held_readable id m :
  (∀ op, fault m op = None) → (∀ o, is_ok (fetch_in id m o) = true) → objects_wf id m →
  consistent (held id m) (kv_graph id m) → readable id m.
Proof.
  intros Hf Hp Hwf cons. split; [done| |].
  - intros o. rewrite (tree_entries_held id m Hf cons). pose proof (stored_trees_parse _ _ cons o) as Ht.
    destruct (held id m o) as [[[] data]|]; try done. specialize (Ht _ eq_refl).
    by destruct (TreeRef_from_bytes data).
  - intros o. by rewrite (commit_trees_held id m Hf Hwf).
Qed.

(** (C30) A fetch selects exactly the missing objects: on a store that answers, over a
    repository whose objects are of the kinds they are named as and whose history is
    recorded, [build_pack] finds the objects to send; when the wants and haves are commits
    or blobs these are the objects reachable from a want - through parents, trees and their
    entries - and from no have.  For a wanted annotated tag it is the tag alone, without
    the tagged commit or anything else reachable from it. *)
Theorem kv_needed_exact id want have m :
  (∀ op, fault m op = None) → (∀ o, is_ok (fetch_in id m o) = true) → objects_wf id m →
  consistent (held id m) (kv_graph id m) →
  (Forall (plain_tip (held id m)) (want ++ have) →
   N.of_nat (size (walk_universe (want ++ have) m)) ≤ usize_max →
   ∃ S, needed_oids id want have m = Ok S ∧
     ∀ o, o ∈ S ↔ reached_from (links (held id m)) want o ∧ ¬ reached_from (links (held id m)) have o) ∧
  (∀ t data, held id m t = Some (GTag, data) → is_ok (CommitRef_from_bytes data) = false →
   N.of_nat (size (walk_universe [t] m)) ≤ usize_max →
   needed_oids id [t] [] m = Ok {[t]}).
Proof.
  intros Hf Hp Hwf cons.
  pose proof (tree_entries_held id m Hf cons) as Ht. pose proof (commit_trees_held id m Hf Hwf) as Hc.
  pose proof (held_readable id m Hf Hp Hwf cons) as Hr.
  pose proof (consistent_modes _ _ cons _ Ht) as Hm. split.
  - intros Htips Hcap.
    destruct (kv_needed_selection id want have m Hm) as [Hex Hok].
    { intros o (t & Hin & Hto). eapply plain_tip_kids; [done..|]. eapply reached_plain_tip; [done| |exact Hto].
      rewrite Forall_forall in Htips. by apply Htips. }
    destruct (Hok Hr Hcap) as [S HS]. exists S. split; [done|].
    eapply selection_links; [done..|]. exact (Hex S HS).
  - intros t data Et Hn Hcap.
    destruct (kv_needed_selection id [t] [] m Hm) as [Hex Hok].
    { intros o (t' & ->%list_elem_of_singleton & Hto). eapply tag_kids; done. }
    destruct (Hok Hr Hcap) as [S HS]. rewrite HS. f_equal. eapply selection_tag; [done..|]. exact (Hex S HS).
Qed.
End pack_facts.

(** ** Reading and staging the objects *)

Section stage_facts.
Context `{GixHashLaws} {gix_object : GixObject} {tikv : Tikv} {gix_out : GixOutput} {io : CacheIO}.

(** What the database holds of an object. *)
Definition stored_object (repo_id : N) (m : db) (o : ObjectId) : option (ObjectId * Kind * bytes) :=
  match m !! obj repo_id o with
  | Some (b :: data) => (λ k, (o, k, data)) <$> kind_of_byte b
  | _ => None
  end.

Lemma read_with_gix_kind_Ok id o m x :
  (read_object_with_gix_kind id o m).1 = Ok x →
  stored_object id m o = (λ '(k, data), (o, k, data)) <$> x.
Proof.
  unfold read_object_with_gix_kind, read_txn, t_get, call, mbind, ST_bind, stored_object.
  destruct (fault m OpBegin); [done|]. destruct (fault m (OpGet _)); [done|]. cbn.
  intros [= <-]. destruct (m !! obj id o) as [[|b data]|]; [done| |done]. by destruct (kind_of_byte b).
Qed.

Lemma omap_found_stored id m oids l :
  fetch_objects (λ o, (read_object_with_gix_kind id o m).1) oids = Ok l →
  omap (found (λ o, (read_object_with_gix_kind id o m).1)) oids = omap (stored_object id m) oids.
Proof.
  revert l; induction oids as [|o oids IH]; intros l; cbn [fetch_objects]; [done|].
  intros (x & Hx & (rest & Hr & _)%result_bind_Ok)%result_bind_Ok. cbn. unfold found at 1.
  rewrite Hx. apply read_with_gix_kind_Ok in Hx. rewrite Hx, (IH _ Hr). done.
Qed.

(** Nothing is lost on the way to the packer: when a pack is built without the
    cache, it is the empty pack if no object is needed, and otherwise [gix-pack] is handed
    the ids of exactly the needed objects the database holds, with one loose file for each,
    at its path and with its kind, length and contents, and no other file. *)
Theorem kv_fresh_pack_complete id want have m pack :
  fresh_pack id want have m = Ok pack →
  ∃ needed, needed_oids id want have m = Ok needed ∧
    (needed = ∅ → pack = build_empty_pack) ∧
    (needed ≠ ∅ → ∃ objects, let fetched := omap (stored_object id m) (elements needed) in
       gix_pack_objects objects ((λ x, x.1.1) <$> fetched) = Ok pack ∧
       (∀ o k data, (o, k, data) ∈ fetched →
          objects !! loose_path o = Some (zlib (loose_header k data ++ data))) ∧
       (∀ path, is_Some (objects !! path) → ∃ x, x ∈ fetched ∧ path = loose_path x.1.1)).
Proof.
  unfold fresh_pack. intros (needed & Hn & Hp)%result_bind_Ok. exists needed. split; [done|].
  pose proof (pack_objects_complete _ _ _ Hp) as [He Hne]. split; [done|]. intros Hn0.
  destruct (Hne Hn0) as (objects & Hrest). exists objects. cbv zeta in *.
  unfold pack_objects in Hp. rewrite decide_False in Hp by done.
  apply result_bind_Ok in Hp as (l & Hl & _). by rewrite (omap_found_stored _ _ _ _ Hl) in Hrest.
Qed.
End stage_facts.

(** ** The trees of a diff *)

Section diff_facts.
Context `{GixHashLaws} {gix_object : GixObject} {tikv : Tikv} {gix_out : GixOutput}.

Lemma kv_subtrees_stored id m o p : p ∈ subtrees (kv_read_tree id m) o → ∃ e, e ∈ all_entries m ∧ e.2 = p.
Proof.
  unfold subtrees. case_decide; [by intros ?%elem_of_nil|].
  destruct (kv_read_tree id m o) as [data|] eqn:Hd; cbn; [|by intros ?%elem_of_nil].
  destruct (TreeRef_from_bytes data) as [entries|] eqn:Ht; cbn; [|by intros ?%elem_of_nil].
  intros ([b c] & Hin & Hc)%list_elem_of_omap. exists (b, c). unfold tree_entry in Hc. cbn in *.
  destruct b; [|done]. injection Hc as ->. split; [|done]. eapply tree_entries_stored; [|done].
  apply result_bind_Ok in Hd as (v & Hv & Hd). destruct v as [v|]; [|done]. injection Hd as ->.
  unfold tree_entries. rewrite Hv, Ht. done.
Qed.

(** A tree diff sees every tree it needs: when [tree_diff] succeeds, its entries are
    those of [gix-diff] on the parent's tree (the empty tree for a root commit) and the
    child's, over a store in which each tree below either of the two is present, with the
    contents the database holds. *)
Theorem kv_tree_diff_complete id parent_tree child_tree m diff :
  kv_tree_diff id parent_tree child_tree m = Ok diff →
  let lhs := default oid_empty_tree parent_tree in
  ∃ (trees : gmap ObjectId bytes) changes,
    gix_tree_diff (λ o, trees !! o) lhs child_tree = Ok changes ∧
    diff = map ref_diff_entry changes ∧
    ∀ t, reaches (subtrees (kv_read_tree id m)) lhs t ∨
         reaches (subtrees (kv_read_tree id m)) child_tree t →
      ∃ d, trees !! t = Some d ∧ tree_data (kv_read_tree id m) t = Some d.
Proof.
  apply (tree_diff_complete (kv_read_tree id m) (λ t, tree_universe t m)).
  - intros t. unfold tree_universe. set_solver.
  - intros t o p (e & He & <-)%kv_subtrees_stored.
    apply elem_of_union_r, elem_of_list_to_set, list_elem_of_fmap. by exists e.
  - intros t. apply tree_universe_size.
Qed.
End diff_facts.

(** ** The cache in front of the builder *)

Section cache_facts.
Context `{GixHashLaws} {gix_object : GixObject} {tikv : Tikv} {gix_out : GixOutput} {io : CacheIO}.

(** [build_pack] answers with a cached pack or a fresh one, and a fresh pack is
    cached for good: a successful call leaves the database and the ingested packs alone,
    returns the cache's file or the pack just built from the database, and, when the files
    of the cache are written and opened without error, every later call with the same
    arguments returns the same bytes, whatever the database has become since. *)
Theorem kv_build_pack_cached id want have opts s out s' :
  build_pack id want have opts s = (Ok out, s') →
  (kv_db s' = kv_db s ∧ kv_cells s' = kv_cells s) ∧
  (try_hit id (cache_key id want have opts) (kv_cache s) = Some out ∨
   ∃ pack, fresh_pack id want have (kv_db s) = Ok pack ∧ out = output_of pack) ∧
  ((∀ d p, opens d p = true) → (∀ d p data, written d p data = Some (length data)) →
   ∀ s2, kv_cache s2 = kv_cache s' → build_pack id want have opts s2 = (Ok out, s2)).
Proof.
  unfold build_pack. destruct (cached_pack _ _ _ _ _ _) as [r c] eqn:Hc. intros [= -> <-].
  apply cached_pack_Ok in Hc as [Hout Hagain]. split_and!; [done|done|done|].
  intros Ho Hw s2 Es. cbn in Es. rewrite Es, Hagain by done. rewrite <- Es. by destruct s2.
Qed.

(** An annotated tag is sent without what it points to: when an object has no
    recorded parents and does not parse as a commit, a fetch of it selects that object
    alone. *)
Theorem kv_tag_target_not_sent id tag m data :
  (∀ m op, fault m op = None) →
  fetch_in id m tag = Ok [] → m !! obj id tag = Some (encode_object KIND_TAG data) →
  len data ≤ u64_max → ok (CommitRef_from_bytes data) = None →
  needed_oids id [tag] [] m = Ok {[tag]}.
Proof.
  intros Hnf Hp Hs Hlen Hc. unfold needed_oids, select_objects.
  assert (kv_reachable_excluding id [tag] [] usize_max m = Ok [tag]) as ->.
  { unfold kv_reachable_excluding, walk_fuel. cbn [app length].
    unfold reachable_excluding, walk_from. cbn [collect_all].
    unfold enqueue. rewrite decide_True by set_solver. cbn [app].
    cbn [reachable_loop]. rewrite Hp. cbn [enqueue].
    by replace (usize_max <=? len []) with false by done. }
  unfold collect_commit_trees. cbn [map_err mbind result_bind add_commit_trees].
  assert ((read_commit_tree id tag m).1 = Ok None) as ->.
  { unfold read_commit_tree, read_object_raw, read_object_with_kind, read_txn, t_get, call.
    unfold mbind, ST_bind, lift. rewrite !Hnf, Hs. cbn.
    rewrite (proj2 (N.ltb_ge u64_max (len data)) Hlen). cbn.
    destruct (CommitRef_from_bytes data); [done|]. done. }
  cbn [mbind result_bind]. f_equal. set_solver.
Qed.
End cache_facts.
