(* ===== verification/KvBackend.v ===== *)
(** * The KV backend as a storage backend ([impl StorageBackend for KvBackend], [backend/kv/mod.rs])

    The operations of [backend/kv] on the backend's whole state, as an instance of the
    trait, and the proof that they keep its contract. *)

From stdpp Require Import base gmap list sorting strings.
From Stdlib Require Import Strings.Byte.
From S2P Require Import Prelude Bytes Gix Proto Types Handlers Graph Inspect KvKeys Kv PackCache PackTools KvPack.
Open Scope N_scope.

(** A computation on the database, and one that only reads it, on the whole state. *)
Definition on_db `{GixHash} {A : Type} (m : ST db A) : ST KvStore A := fun s =>
  let '(r, d) := m (kv_db s) in
  (r, {| kv_db := d; kv_cache := kv_cache s; kv_cells := kv_cells s |}).

Section backend.
Context `{GixObject} {tikv : Tikv} {gix_pack : GixPack} {gix_out : GixOutput} {io : CacheIO}.

(** [ingest_pack]: the metadata goes into a fresh cell, the handle is its index. *)
Definition kv_ingest (repo_id : N) (staged_pack : PackFile) : ST KvStore (option nat) := fun s =>
  match on_db (ingest_pack repo_id staged_pack) s with
  | (Err e, s') => (Err e, s')
  | (Ok None, s') => (Ok None, s')
  | (Ok (Some (metadata, _)), s') =>
      (Ok (Some (length (kv_cells s'))),
       {| kv_db := kv_db s'; kv_cache := kv_cache s'; kv_cells := kv_cells s' ++ [Some metadata] |})
  end.

(** [inspect_ingested]: [Option::take] on the cell. *)
Definition kv_inspect (pack : nat) : ST KvStore PackMetadata := fun s =>
  match kv_cells s !! pack with
  | Some (Some metadata) =>
      (Ok metadata,
       {| kv_db := kv_db s; kv_cache := kv_cache s; kv_cells := <[pack := None]> (kv_cells s) |})
  | _ => (Err (Msg (b! "inspect_ingested called more than once")), s)
  end.

#[export] Instance kv_backend : StorageBackend := {|
  store := KvStore;
  RepoId := bytes;
  Repo := N;
  IngestedPack := nat;
  sb_open path := on_db (open_inner path);
  sb_list_refs id := on_db (list_refs id);
  sb_resolve_ref id refname := on_db (resolve_ref id refname);
  sb_update_refs id updates := on_db (update_refs id updates);
  sb_init_repo path := on_db (init_repo_inner path ;; mret ());
  sb_has_objects id oids := on_db (has_objects id oids);
  sb_compute_push_kind id u s := (compute_push_kind id (old_oid u) (new_oid u) (kv_db s), s);
  sb_build_pack id want have opts := build_pack id want have opts;
  sb_ingest_pack id staged := kv_ingest id staged;
  sb_inspect_ingested pack := kv_inspect pack;
  sb_rollback_ingest _ s := s;
  sb_reachable_excluding id from excluding cap s :=
    (kv_reachable_excluding id from excluding cap (kv_db s), s);
  sb_tree_diff id parent_tree child_tree s := (kv_tree_diff id parent_tree child_tree (kv_db s), s);
  sb_read_commit_info id oid := on_db (read_commit_info id oid);
  sb_read_blob id oid cap := on_db (kv_read_blob id oid cap);
  sb_read_object_raw id oid cap := on_db (read_object_raw id oid cap);
|}.
End backend.

(** ** The contract *)

Section kv_contract.
Context `{GixHashLaws} {gix_object : GixObject} {tikv : Tikv} {gix_pack : GixPack}
  {gix_out : GixOutput} {io : CacheIO}.

(** What a computation keeps of the database, it keeps of the whole state. *)
Lemma pres_on_db {A T : Type} (V : db → T) (m : ST db A) :
  pres V m → pres (λ s : KvStore, V (kv_db s)) (on_db m).
Proof. intros Hm s. unfold on_db. specialize (Hm (kv_db s)). by destruct (m (kv_db s)). Qed.

Lemma on_db_reads {A : Type} (m : ST db A) s : pres (λ d : db, d) m → (on_db m s).2 = s.
Proof.
  intros Hm. unfold on_db. specialize (Hm (kv_db s)). destruct (m (kv_db s)) as [r d]. cbn in *.
  subst d. by destruct s.
Qed.

Lemma pres_write_txn {A T : Type} (V : db → T) ctx (body : ST db A) :
  pres V body → pres V (write_txn ctx body).
Proof.
  intros Hb m. destruct (write_txn ctx body m) as [[a|e] m'] eqn:Hw; cbn.
  - apply write_txn_Ok in Hw. specialize (Hb m). by rewrite Hw in Hb.
  - by apply write_txn_Err in Hw as ->.
Qed.

Lemma pres_of_reads {A T : Type} (V : db → T) (m : ST db A) : pres (λ d : db, d) m → pres V m.
Proof. intros Hm s. by rewrite (Hm s). Qed.

Lemma pres_put_other id k v ctx :
  (∀ n, k ≠ refkey id n) → pres (kv_refs id) (t_put k v ctx).
Proof.
  intros Hk m. unfold t_put, call. destruct (fault m _); [done|]. cbn. by apply kv_refs_put_other.
Qed.

Lemma refs_kept_by_ingest id id' staged : pres (kv_refs id') (ingest_pack id staged).
Proof.
  unfold ingest_pack. apply pres_bind; [apply pres_lift|]. intros [header rest].
  destruct (_ =? 0); [apply pres_ret|]. apply pres_bind; [apply pres_lift|]. intros [xs meta].
  destruct xs as [|x xs]; [apply pres_ret|]. apply pres_bind; [|intros; apply pres_ret].
  apply pres_write_txn, pres_for_each. intros y. unfold put_object. apply pres_bind.
  - apply pres_put_other. by intros n.
  - intros _. apply pres_for_each. intros [p pos]. apply pres_put_other. by intros n.
Qed.

Lemma refs_kept_by_init path id' : pres (kv_refs id') (init_repo_inner path).
Proof.
  unfold init_repo_inner. apply pres_bind; [apply pres_of_reads, reads_probe|].
  intros [id|]; [apply pres_ret|]. unfold alloc_repo. apply pres_write_txn.
  apply pres_bind; [apply pres_of_reads, reads_t_get|]. intros [v|]; [apply pres_lift|].
  apply pres_bind; [apply pres_of_reads, reads_t_get_for_update|]. intros c.
  apply pres_bind; [destruct c; [apply pres_lift|apply pres_ret]|]. intros next.
  repeat (apply pres_bind; [apply pres_put_other; by intros n|intros _]). apply pres_ret.
Qed.

Lemma build_pack_db id want have opts s : kv_db (build_pack id want have opts s).2 = kv_db s.
Proof.
  unfold build_pack. by destruct (cached_pack _ _ _ _ _ _).
Qed.

Lemma kv_ingest_refs id id' staged s : kv_refs id' (kv_db (kv_ingest id staged s).2) = kv_refs id' (kv_db s).
Proof.
  pose proof (pres_on_db _ _ (refs_kept_by_ingest id id' staged) s) as Hp. cbn in Hp.
  unfold kv_ingest. destruct (on_db _ s) as [[[[meta oids]|]|e] s']; exact Hp.
Qed.

Lemma kv_inspect_db p s : kv_db (kv_inspect p s).2 = kv_db s.
Proof. unfold kv_inspect. by destruct (kv_cells s !! p) as [[meta|]|]. Qed.

Lemma on_db_run {A : Type} (m : ST db A) s r s' :
  on_db m s = (r, s') → m (kv_db s) = (r, kv_db s').
Proof. unfold on_db. destruct (m (kv_db s)). by intros [= <- <-]. Qed.

Lemma kv_update_Ok id us (s s' : KvStore) :
  on_db (update_refs id us) s = (Ok (), s') → cas_updates (kv_refs id (kv_db s)) us = Some (kv_refs id (kv_db s')).
Proof. intros Hu%on_db_run. apply write_txn_Ok in Hu. by apply update_loop_Ok. Qed.

Lemma kv_update_Err id us (s s' : KvStore) e :
  on_db (update_refs id us) s = (Err e, s') → kv_db s' = kv_db s.
Proof. intros Hu%on_db_run. by apply write_txn_Err in Hu. Qed.

(** The KV backend keeps the trait's contract. *)
#[export, refine] Instance kv_refs_laws : RefsLaws := {
  refs_view (id : Repo) (s : store) := kv_refs id (kv_db s);
  RepoTag := bytes;
  repo_tag (id : Repo) := u64_be id;
  ref_effect us m m' := cas_updates m us = Some m';
  ingested _ := True;
}.
Proof.
  - intros id id' s E. unfold kv_refs. f_equal. apply list_omap_ext, Forall2_same_length_lookup.
    change (u64_be id = u64_be id') in E. split; [done|]. intros i x y Hx Hy.
    assert (x = y) as <- by congruence. unfold ref_entry, refs_prefix_start.
    by rewrite E.
  - intros id us s [[]|e] s' Hu; [right; by apply kv_update_Ok|left; by rewrite (kv_update_Err _ _ _ _ _ Hu)].
  - by intros m m' [= <-].
  - intros id us s [[]|e] s' id' Hu Hne; [|by rewrite (kv_update_Err _ _ _ _ _ Hu)].
    apply on_db_run, write_txn_Ok in Hu. by eapply update_loop_frame.
  - done.
  - done.
  - intros path s id. cbn. by rewrite on_db_reads by apply reads_open.
  - intros id' s id. cbn. by rewrite on_db_reads by apply reads_list_refs.
  - intros id' n s id. cbn. by rewrite on_db_reads by apply reads_resolve_ref.
  - intros path s id. apply (pres_on_db (kv_refs id)), pres_bind; [apply refs_kept_by_init|].
    intros; apply pres_ret.
  - intros id' os s id. cbn. by rewrite on_db_reads by apply reads_has_objects.
  - done.
  - intros id' w h o s id. cbn. by rewrite build_pack_db.
  - intros id' p s id. apply kv_ingest_refs.
  - intros p s id. cbn. by rewrite kv_inspect_db.
  - done.
  - done.
  - intros id' o s id. cbn. by rewrite on_db_reads by apply reads_commit_info.
  - intros id' o c s id. cbn. by rewrite on_db_reads by apply reads_blob.
  - intros id' o c s id. cbn. by rewrite on_db_reads by apply reads_object_raw.
Defined.

#[export] Instance kv_laws : BackendLaws.
Proof.
  refine {| backend_refs := kv_refs_laws |}; [done|exact kv_update_Ok|].
  intros id us s e s' id' Hu. cbn. by rewrite (kv_update_Err _ _ _ _ _ Hu).
Defined.

#[export] Instance kv_read_only : ReadOnlyLaws.
Proof.
  split; intros; try done; cbn.
  - by rewrite on_db_reads by apply reads_commit_info.
  - by rewrite on_db_reads by apply reads_blob.
  - by rewrite on_db_reads by apply reads_object_raw.
Qed.

#[export, refine] Instance kv_graph_laws : GraphLaws :=
  { graph_view (id : Repo) (s : store) := kv_graph id (kv_db s) }.
Proof.
  - intros id from excluding cap s l s' [Hr _]%pair_equal_spec. by eapply reachable_spec.
  - intros id o s ci s' Hr%on_db_run. unfold read_commit_info, mbind, ST_bind in Hr.
    destruct (read_object_raw id o u64_max (kv_db s)) as [[[raw|]|e] m1]; [|done..].
    cbn in Hr. injection Hr as Hr _. by eapply parse_commit_info_oid.
Defined.
End kv_contract.
