(* ===== verification/Lfs.v ===== *)
(** * Git LFS protocol types ([mizzle-proto/src/lfs.rs])

    LFS object ids with their two textual forms, the batch API's requests and
    responses, and pointer blobs, with the round trips between values and text.  The
    JSON text of a request or response is [serde_json]'s (see [LfsHandlers.v]); the
    string form of an id inside it is written by hand and modelled here. *)

From stdpp Require Import base gmap list strings vector.
From Stdlib Require Import Strings.Byte Lia.
From S2P Require Import Prelude Bytes Gix.

#[local] Open Scope N_scope.

(** ** Object ids *)

(** The SHA-256 of an object's content. *)
Definition LfsOid : Type := vec byte 32.

#[global] Instance lfs_oid_eq_dec : EqDecision LfsOid := vec_dec.

(** The errors of [from_str], which the source renders as text. *)
Inductive LfsOidError :=
| NoPrefix (s : bytes)
| WrongLength (n : N)
| InvalidDigit (b : byte).

Definition to_hex (oid : LfsOid) : bytes := hex (vec_to_list oid).

(** [Display]: [sha256:<hex>]. *)
Definition lfs_display (oid : LfsOid) : bytes := b! "sha256:" ++ to_hex oid.

Definition hex_nibble (b : byte) : result LfsOidError N :=
  if in_range 48 57 b then Ok (Byte.to_N b - 48)
  else if in_range 97 102 b then Ok (Byte.to_N b - 97 + 10)
  else if in_range 65 70 b then Ok (Byte.to_N b - 65 + 10)
  else Err (InvalidDigit b).

(** [(hi << 4) | lo] in a [u8]. *)
Definition byte_of_nibbles (hi lo : N) : byte :=
  of_N (N.lor (N.land (N.shiftl hi 4) 255) lo).

(** The loop over [chunks(2)]; the last chunk is never short, as there are 64 digits. *)
Fixpoint decode_chunks (s : bytes) : result LfsOidError bytes :=
  match s with
  | c0 :: c1 :: s' =>
      hi ← hex_nibble c0;
      lo ← hex_nibble c1;
      rest ← decode_chunks s';
      Ok (byte_of_nibbles hi lo :: rest)
  | _ => Ok []
  end.

Definition lfs_from_str (s : bytes) : result LfsOidError LfsOid :=
  match strip_prefix (b! "sha256:") s with
  | None => Err (NoPrefix s)
  | Some h =>
      if decide (length h ≠ 64%nat) then Err (WrongLength (N.of_nat (length h)))
      else
        bs ← decode_chunks h;
        ok_or (WrongLength (N.of_nat (length bs))) (array_of bs)
  end.

(** [Serialize] and [Deserialize] of an id, inside a JSON string. *)
Definition lfs_serialize (oid : LfsOid) : bytes := to_hex oid.

Definition lfs_deserialize (s : bytes) : result LfsOidError LfsOid :=
  lfs_from_str (if starts_with (b! "sha256:") s then s else b! "sha256:" ++ s).

(** ** The batch API *)

Inductive Operation := Download | Upload.

#[global] Instance operation_eq_dec : EqDecision Operation.
Proof. solve_decision. Defined.

Record BatchRequestObject := { bro_oid : LfsOid; bro_size : N }.

Record BatchRef := { bref_name : bytes }.

Record BatchRequest := {
  breq_operation : Operation;
  breq_transfers : list bytes;
  breq_objects : list BatchRequestObject;
  breq_git_ref : option BatchRef }.

Record BatchActionDetail := {
  bad_href : bytes;
  bad_header : gmap bytes bytes;
  bad_expires_in : option N }.

Record BatchObjectActions := {
  boa_download : option BatchActionDetail;
  boa_upload : option BatchActionDetail;
  boa_verify : option BatchActionDetail }.

Record BatchObjectError := { boe_code : N; boe_message : bytes }.

Record BatchResponseObject := {
  bresp_oid : LfsOid;
  bresp_size : N;
  bresp_actions : option BatchObjectActions;
  bresp_error : option BatchObjectError }.

Record BatchResponse := {
  br_transfer : bytes;
  br_objects : list BatchResponseObject }.

(** ** Pointer blobs *)

Record LfsPointer := { ptr_oid : LfsOid; ptr_size : N }.

Definition pointer_version : bytes := b! "version https://git-lfs.github.com/spec/v1".

(** One round of the loop of [parse_pointer]: a later line replaces an earlier one. *)
Definition pointer_line (acc : option LfsOid * option N) (line : bytes) :
    option LfsOid * option N :=
  let '(oid, size) := acc in
  match strip_prefix (b! "oid ") line with
  | Some rest => (ok (lfs_from_str rest), size)
  | None =>
      match strip_prefix (b! "size ") line with
      | Some rest => (oid, parse_u64 rest)
      | None => (oid, size)
      end
  end.

Definition parse_pointer (blob : bytes) : option LfsPointer :=
  text ← ok (from_utf8 blob);
  match str_lines text with
  | [] => None
  | first :: lines =>
      if decide (first ≠ pointer_version) then None
      else
        let '(oid, size) := foldl pointer_line (None, None) lines in
        oid ← oid;
        size ← size;
        Some {| ptr_oid := oid; ptr_size := size |}
  end.

Definition write_pointer (ptr : LfsPointer) : bytes :=
  pointer_version ++ [x0a] ++ b! "oid " ++ lfs_display (ptr_oid ptr) ++ [x0a] ++
  b! "size " ++ decimal (ptr_size ptr) ++ [x0a].

(** ** Ids and their text *)

(** [b.to_ascii_lowercase()]. *)
Definition to_lower (b : byte) : byte :=
  if in_range 65 90 b then of_N (Byte.to_N b + 32) else b.

Lemma hex_nibble_Ok b n : hex_nibble b = Ok n ↔ n < 16 ∧ to_lower b = digit n.
Proof.
  split.
  - destruct b; vm_compute; intros [= <-]; done.
  - intros [Hn E]. rewrite <- (N2Nat.id n) in E, Hn |- *.
    assert (N.to_nat n < 16)%nat as Hm by lia. revert E. generalize dependent (N.to_nat n).
    intros m _ Hm. do 16 (destruct m as [|m]; [destruct b; vm_compute; congruence|]). lia.
Qed.

Lemma byte_of_nibbles_spec hi lo :
  hi < 16 → lo < 16 → hex_byte (byte_of_nibbles hi lo) = [digit hi; digit lo].
Proof.
  intros Hh Hl. unfold hex_byte.
  assert (Byte.to_N (byte_of_nibbles hi lo) = hi * 16 + lo) as ->.
  { rewrite <- (N2Nat.id hi), <- (N2Nat.id lo).
    assert (N.to_nat hi < 16)%nat as H1 by lia. assert (N.to_nat lo < 16)%nat as H2 by lia.
    revert H1 H2. generalize (N.to_nat hi) (N.to_nat lo). intros m k. clear.
    do 16 (destruct m as [|m];
      [do 16 (destruct k as [|k]; [done|]); lia|]). lia. }
  rewrite N.div_add_l, N.div_small, N.add_0_r by lia.
  by rewrite N.add_comm, N.Div0.mod_add, N.mod_small by lia.
Qed.

Lemma hex_byte_inj b c : hex_byte b = hex_byte c → b = c.
Proof.
  intros E. assert (hex [b] = hex [c]) as Eh by (change (hex_byte b ++ [] = hex_byte c ++ []); by rewrite E).
  apply (f_equal Sha1.unhex) in Eh. rewrite !Sha1.unhex_hex in Eh. congruence.
Qed.

Lemma decode_chunks_Ok s bs :
  Nat.Even (length s) → decode_chunks s = Ok bs ↔ to_lower <$> s = hex bs.
Proof.
  revert bs. induction s as [s IH] using (induction_ltof1 _ length). unfold ltof in IH.
  destruct s as [|c0 [|c1 s]]; intros bs Hev.
  - simpl. split; [by intros [= <-]|]. by destruct bs.
  - simpl in Hev. destruct Hev. lia.
  - simpl decode_chunks. rewrite result_bind_Ok. setoid_rewrite result_bind_Ok.
    setoid_rewrite result_bind_Ok. setoid_rewrite hex_nibble_Ok.
    assert (Nat.Even (length s)) as Hs by (destruct Hev as [k Hk]; exists (pred k); simpl in Hk; lia).
    setoid_rewrite IH; [|simpl; lia|done]. split.
    + intros (hi & [Hh E0] & lo & [Hl E1] & rest & E & [= <-]).
      change (hex (?b :: rest)) with (hex_byte b ++ hex rest).
      rewrite byte_of_nibbles_spec by done. rewrite !fmap_cons, E0, E1, E. done.
    + destruct bs as [|b bs]; [done|]. intros [= E0 E1 E]. pose proof (to_N_lt b).
      assert (Byte.to_N b / 16 < 16) by (apply N.Div0.div_lt_upper_bound; lia).
      assert (Byte.to_N b mod 16 < 16) by (apply N.mod_lt; lia).
      exists (Byte.to_N b / 16). split; [done|]. exists (Byte.to_N b mod 16). split; [done|].
      exists bs. split; [done|]. do 2 f_equal. apply hex_byte_inj. by rewrite byte_of_nibbles_spec.
Qed.

Lemma length_to_hex o : length (to_hex o) = 64%nat.
Proof. unfold to_hex. by rewrite length_hex, length_vec_to_list. Qed.

Lemma to_lower_hex s : to_lower <$> hex s = hex s.
Proof.
  rewrite <- (list_fmap_id (hex s)) at 2. apply list_fmap_ext. intros i b Hb.
  pose proof (hex_digits s) as Hd. rewrite Forall_lookup in Hd. specialize (Hd _ _ Hb).
  destruct b; done.
Qed.

Lemma to_hex_inj o p : to_hex o = to_hex p → o = p.
Proof.
  unfold to_hex. intros E. apply (f_equal Sha1.unhex) in E. rewrite !Sha1.unhex_hex in E.
  apply vec_to_list_inj2. congruence.
Qed.

(** [from_str] reads exactly the 64-digit texts, of either case, after the prefix. *)
Lemma lfs_from_str_Ok s o :
  lfs_from_str s = Ok o ↔ ∃ h, s = b! "sha256:" ++ h ∧ to_lower <$> h = to_hex o.
Proof.
  unfold lfs_from_str. destruct (strip_prefix _ s) as [h|] eqn:Hp.
  - apply strip_prefix_Some in Hp as ->. case_decide as Hlen.
    + split; [done|]. intros (h' & [= <-] & E). destruct Hlen.
      rewrite <- (length_fmap to_lower), E. apply length_to_hex.
    + assert (length h = 64%nat) as Hl by lia. assert (Nat.Even (length h)) as Hev by (exists 32%nat; lia).
      rewrite result_bind_Ok. setoid_rewrite (decode_chunks_Ok _ _ Hev). split.
      * intros (bs & E & Ho). exists h. split; [done|]. rewrite E. unfold to_hex.
        destruct (array_of bs) eqn:Ha; simplify_eq/=. by apply array_of_Some in Ha as ->.
      * intros (h' & [= <-] & E). exists (vec_to_list o). split; [done|].
        by rewrite array_of_to_list.
  - split; [done|]. intros (h & -> & _). by rewrite strip_prefix_app in Hp.
Qed.

Lemma lfs_from_str_display o : lfs_from_str (lfs_display o) = Ok o.
Proof. apply lfs_from_str_Ok. exists (to_hex o). split; [done|]. apply to_lower_hex. Qed.

Lemma to_hex_no c o : is_hex_digit c = false → c ∉ to_hex o.
Proof.
  intros Hc Hin. pose proof (hex_digits (vec_to_list o)) as Hd.
  rewrite Forall_forall in Hd. specialize (Hd _ Hin). congruence.
Qed.

Lemma serialize_no_prefix o : starts_with (b! "sha256:") (to_hex o) = false.
Proof.
  apply not_true_iff_false. rewrite starts_with_true. intros [r Hr].
  apply (to_hex_no x73 o); [done|]. rewrite Hr. by left.
Qed.

(** What a client may write for an id in a request: the digits alone or prefixed, in
    either case; ids are written back in lower case without the prefix. *)
Lemma lfs_deserialize_Ok s o :
  lfs_deserialize s = Ok o ↔
  to_lower <$> (default s (strip_prefix (b! "sha256:") s)) = to_hex o.
Proof.
  unfold lfs_deserialize. rewrite lfs_from_str_Ok. unfold starts_with.
  destruct (strip_prefix _ s) as [h|] eqn:Hp; simpl default.
  - apply strip_prefix_Some in Hp as ->. split; [by intros (h' & [= <-] & E)|eauto].
  - split; [|eauto]. by intros (h' & [= <-]%app_inv_head & E).
Qed.

(** ** Pointers and their text *)

Lemma decimal_lines n : Forall (λ b, is_ascii b = true ∧ b ≠ x0a ∧ b ≠ x0d) (decimal n).
Proof. eapply Forall_impl; [apply decimal_digits|]. intros []; by vm_compute. Qed.

Lemma hex_lines s : Forall (λ b, is_ascii b = true ∧ b ≠ x0a ∧ b ≠ x0d) (hex s).
Proof. eapply Forall_impl; [apply hex_digits|]. intros []; by vm_compute. Qed.

Definition plain (s : bytes) : Prop := Forall (λ b, is_ascii b = true ∧ b ≠ x0a ∧ b ≠ x0d) s.

Lemma plain_ascii s : plain s → Forall (λ b, is_ascii b = true) s.
Proof. intros Hs. eapply Forall_impl; [done|]. naive_solver. Qed.

Lemma plain_no_nl s : plain s → x0a ∉ s.
Proof. unfold plain. rewrite Forall_forall. intros Hs Hin. by destruct (Hs _ Hin) as (_ & ? & _). Qed.

Lemma str_lines_plain l s : plain l → str_lines (l ++ x0a :: s) = l :: str_lines s.
Proof.
  intros Hl. unfold str_lines. rewrite lines_app_nl by (by apply plain_no_nl).
  rewrite fmap_cons. f_equal. apply strip_cr_noop. intros E.
  apply last_Some_elem_of in E. unfold plain in Hl. rewrite Forall_forall in Hl.
  by destruct (Hl _ E) as (_ & _ & ?).
Qed.

Lemma plain_line p s : plain (b! p) → plain s → plain (b! p ++ s).
Proof. intros. by apply Forall_app_2. Qed.

Ltac solve_plain := by repeat (constructor; [by vm_compute|]).

Lemma write_pointer_lines p :
  ∃ l1 l2, write_pointer p = pointer_version ++ x0a :: l1 ++ x0a :: l2 ++ x0a :: [] ∧
           plain pointer_version ∧ plain l1 ∧ plain l2 ∧
           l1 = b! "oid " ++ lfs_display (ptr_oid p) ∧ l2 = b! "size " ++ decimal (ptr_size p).
Proof.
  do 2 eexists. split; [|split; [|split; [|split; [|split; reflexivity]]]].
  - unfold write_pointer. by rewrite <- !app_assoc.
  - solve_plain.
  - unfold lfs_display. rewrite app_assoc. apply Forall_app_2; [solve_plain|apply hex_lines].
  - apply Forall_app_2; [solve_plain|apply decimal_lines].
Qed.

Lemma write_pointer_utf8 p : from_utf8 (write_pointer p) = Ok (write_pointer p).
Proof.
  destruct (write_pointer_lines p) as (l1 & l2 & -> & H0 & H1 & H2 & _).
  unfold from_utf8. apply plain_ascii in H0, H1, H2.
  rewrite utf8_valid_ascii by done. simpl. rewrite utf8_valid_ascii by done. simpl.
  by rewrite utf8_valid_ascii by done.
Qed.

Lemma pointer_line_oid acc o : pointer_line acc (b! "oid " ++ lfs_display o) = (Some o, acc.2).
Proof. destruct acc. unfold pointer_line. by rewrite strip_prefix_app, lfs_from_str_display. Qed.

Lemma pointer_line_size acc n :
  n ≤ u64_max → pointer_line acc (b! "size " ++ decimal n) = (acc.1, Some n).
Proof.
  intros Hn. destruct acc. unfold pointer_line.
  change (strip_prefix (b! "oid ") (b! "size " ++ decimal n)) with (@None bytes). cbv iota.
  rewrite strip_prefix_app. unfold parse_u64. by rewrite from_str_radix_decimal.
Qed.

(** LFS text formats round-trip: a pointer written by [write_pointer], with any
    64-bit size, parses to the same pointer; an id parses back from both of its
    textual forms; and the texts accepted for an id are exactly 64 hexadecimal digits
    of either case, with or without the prefix, which name the id whose lower-case
    digits they are. *)
Theorem lfs_text_roundtrip (p : LfsPointer) (s : bytes) (o : LfsOid) :
  ptr_size p ≤ u64_max →
  parse_pointer (write_pointer p) = Some p ∧
  lfs_from_str (lfs_display o) = Ok o ∧
  lfs_deserialize (lfs_serialize o) = Ok o ∧
  (lfs_deserialize s = Ok o ↔ to_lower <$> (default s (strip_prefix (b! "sha256:") s)) = to_hex o).
Proof.
  intros Hsz. split; [|split; [|split]].
  - unfold parse_pointer. rewrite write_pointer_utf8. cbn [ok mbind option_bind].
    destruct (write_pointer_lines p) as (l1 & l2 & -> & H0 & H1 & H2 & E1 & E2).
    rewrite !str_lines_plain by done. rewrite decide_False by (intros E; by apply E).
    rewrite E1, E2. cbn [foldl str_lines lines fmap list_fmap].
    rewrite pointer_line_oid, pointer_line_size by done.
    by destruct p.
  - apply lfs_from_str_display.
  - apply lfs_deserialize_Ok. pose proof (serialize_no_prefix o) as Hn.
    unfold starts_with in Hn. unfold lfs_serialize. destruct (strip_prefix _ _); [done|].
    apply to_lower_hex.
  - apply lfs_deserialize_Ok.
Qed.
