(* ===== verification/LfsHandlers.v ===== *)
(** * The LFS store and its HTTP endpoints ([lfs/mod.rs], [lfs/batch.rs],
    [lfs/transfer.rs])

    The storage trait as a class of operations, with the contract the endpoints rely on
    as a second class; the batch, download, upload and verify handlers; and the store
    for repositories without LFS.  [serde_json] and the clock are parameters. *)

From stdpp Require Import base gmap list strings vector.
From Stdlib Require Import Strings.Byte Lia.
From S2P Require Import Prelude Bytes Gix Proto Lfs.

#[local] Open Scope N_scope.

(** ** The storage trait *)

Inductive LfsWriteError :=
| HashMismatch (expected actual : bytes)
| SizeMismatch (expected actual : N)
| WriteIo (e : error).

(** A [SystemTime] is a number of nanoseconds. *)
Inductive TransferAction :=
| Proxy
| Redirect (href : bytes) (header : list (bytes * bytes)) (expires_at : option N).

(** A body or a stored object, as the results of its reads. *)
Abbreviation reads := (list (result error bytes)).

Class LfsStore (RepoId : Type) := {
  lfs_store : Type;
  LfsRepo : Type;
  lfs_open : RepoId → ST lfs_store LfsRepo;
  lfs_stat : LfsRepo → LfsOid → ST lfs_store (option N);
  lfs_download_action : LfsRepo → LfsOid → N → ST lfs_store TransferAction;
  lfs_upload_action : LfsRepo → LfsOid → N → ST lfs_store TransferAction;
  lfs_read : LfsRepo → LfsOid → ST lfs_store reads;
  lfs_write : LfsRepo → LfsOid → N → reads → lfs_store → result LfsWriteError () * lfs_store;
}.

(** The part of the forge's [RepoAccess] that LFS uses. *)
Class LfsAccess := { authorize_lfs : Operation → option bytes → result bytes () }.

(** [serde_json] on the batch API's types, [json!({"message": m})], the text of an
    error, and the time of day. *)
Class LfsEnv := {
  request_from_slice : bytes → result error BatchRequest;
  verify_from_slice : bytes → result error BatchRequestObject;
  response_to_string : BatchResponse → result error bytes;
  message_json : bytes → bytes;
  render : error → bytes;
  system_now : N;
}.

(** The digest of the [sha2] crate. *)
Class Sha256 := { sha256 : bytes → LfsOid }.

Section handlers.
Context {RepoId : Type} `{LfsStore RepoId} {access : LfsAccess} {env : LfsEnv}.

(** ** The batch endpoint *)

(** [t.duration_since(SystemTime::now()).ok().map(|d| d.as_secs())]. *)
Definition secs_until (t : N) : option N :=
  if system_now <=? t then Some ((t - system_now) / 1000000000) else None.

Definition transfer_action_to_detail (action : TransferAction) (oid : LfsOid)
    (lfs_base_url : bytes) : BatchActionDetail :=
  match action with
  | Proxy =>
      {| bad_href := lfs_base_url ++ b! "/objects/" ++ to_hex oid; bad_header := ∅;
         bad_expires_in := None |}
  | Redirect href header expires_at =>
      {| bad_href := href; bad_header := list_to_map (reverse header);
         bad_expires_in := expires_at ≫= secs_until |}
  end.

Definition object_answer (obj : BatchRequestObject) (actions : option BatchObjectActions)
    (error : option BatchObjectError) : BatchResponseObject :=
  {| bresp_oid := bro_oid obj; bresp_size := bro_size obj; bresp_actions := actions;
     bresp_error := error |}.

Definition object_error (obj : BatchRequestObject) (code : N) (message : bytes) :
    BatchResponseObject :=
  object_answer obj None (Some {| boe_code := code; boe_message := message |}).

Definition verify_detail (lfs_base_url : bytes) : BatchActionDetail :=
  {| bad_href := lfs_base_url ++ b! "/objects/verify"; bad_header := ∅; bad_expires_in := None |}.

(** One round of the loop over the objects of a request. *)
Definition batch_object (operation : Operation) (repo : LfsRepo) (lfs_base_url : bytes)
    (obj : BatchRequestObject) (s : lfs_store) : BatchResponseObject * lfs_store :=
  match lfs_stat repo (bro_oid obj) s with
  | (Err e, s) => (object_error obj 500 (b! "stat error: " ++ render e), s)
  | (Ok stat, s) =>
      match operation, stat with
      | Download, None => (object_error obj 404 (b! "object not found"), s)
      | Download, Some size =>
          match lfs_download_action repo (bro_oid obj) size s with
          | (Ok action, s) =>
              (object_answer obj
                 (Some {| boa_download :=
                            Some (transfer_action_to_detail action (bro_oid obj) lfs_base_url);
                          boa_upload := None; boa_verify := None |}) None, s)
          | (Err e, s) => (object_error obj 500 (b! "download_action error: " ++ render e), s)
          end
      | Upload, Some _ => (object_answer obj None None, s)
      | Upload, None =>
          match lfs_upload_action repo (bro_oid obj) (bro_size obj) s with
          | (Ok action, s) =>
              (object_answer obj
                 (Some {| boa_download := None;
                          boa_upload :=
                            Some (transfer_action_to_detail action (bro_oid obj) lfs_base_url);
                          boa_verify := Some (verify_detail lfs_base_url) |}) None, s)
          | (Err e, s) => (object_error obj 500 (b! "upload_action error: " ++ render e), s)
          end
      end
  end.

Fixpoint batch_objects (operation : Operation) (repo : LfsRepo) (lfs_base_url : bytes)
    (objs : list BatchRequestObject) (s : lfs_store) : list BatchResponseObject * lfs_store :=
  match objs with
  | [] => ([], s)
  | obj :: objs' =>
      let '(x, s) := batch_object operation repo lfs_base_url obj s in
      let '(xs, s) := batch_objects operation repo lfs_base_url objs' s in
      (x :: xs, s)
  end.

Definition handle_batch (repo_id : RepoId) (lfs_base_url body : bytes) (s : lfs_store) :
    (N * bytes) * lfs_store :=
  match request_from_slice body with
  | Err e => ((400, message_json (b! "invalid request: " ++ render e)), s)
  | Ok req =>
      match authorize_lfs (breq_operation req) (bref_name <$> breq_git_ref req) with
      | Err reason => ((403, message_json reason), s)
      | Ok _ =>
          match lfs_open repo_id s with
          | (Err e, s) => ((500, message_json (b! "failed to open LFS store: " ++ render e)), s)
          | (Ok repo, s) =>
              let '(objects, s) :=
                batch_objects (breq_operation req) repo lfs_base_url (breq_objects req) s in
              match response_to_string {| br_transfer := b! "basic"; br_objects := objects |} with
              | Ok json => ((200, json), s)
              | Err e => ((500, message_json (b! "serialization error: " ++ render e)), s)
              end
          end
      end
  end.

(** ** The transfer endpoints *)

Definition handle_download (repo_id : RepoId) (oid_hex : bytes) (s : lfs_store) :
    (N * option reads) * lfs_store :=
  match lfs_from_str (b! "sha256:" ++ oid_hex) with
  | Err _ => ((400, None), s)
  | Ok oid =>
      match lfs_open repo_id s with
      | (Err _, s) => ((500, None), s)
      | (Ok repo, s) =>
          match lfs_stat repo oid s with
          | (Ok None, s) => ((404, None), s)
          | (Err _, s) => ((500, None), s)
          | (Ok (Some _), s) =>
              match lfs_read repo oid s with
              | (Ok reader, s) => ((200, Some reader), s)
              | (Err _, s) => ((500, None), s)
              end
          end
      end
  end.

Definition handle_upload (repo_id : RepoId) (oid_hex : bytes) (size : N) (body : reads)
    (s : lfs_store) : N * lfs_store :=
  match authorize_lfs Upload None with
  | Err _ => (403, s)
  | Ok _ =>
      match lfs_from_str (b! "sha256:" ++ oid_hex) with
      | Err _ => (400, s)
      | Ok oid =>
          match lfs_open repo_id s with
          | (Err _, s) => (500, s)
          | (Ok repo, s) =>
              match lfs_write repo oid size body s with
              | (Ok _, s) => (200, s)
              | (Err (HashMismatch _ _ | SizeMismatch _ _), s) => (422, s)
              | (Err (WriteIo _), s) => (500, s)
              end
          end
      end
  end.

Definition handle_verify (repo_id : RepoId) (oid : LfsOid) (expected_size : N) (s : lfs_store) :
    N * lfs_store :=
  match lfs_open repo_id s with
  | (Err _, s) => (500, s)
  | (Ok repo, s) =>
      match lfs_stat repo oid s with
      | (Ok None, s) => (404, s)
      | (Ok (Some actual_size), s) => (if actual_size =? expected_size then 200 else 422, s)
      | (Err _, s) => (500, s)
      end
  end.
End handlers.

(** ** Repositories without LFS *)

(** [NoLfs]: nothing is ever there, and nothing can be stored. *)
Definition lfs_not_supported : error := Msg (b! "LFS not supported").

Definition NoLfs (RepoId : Type) : LfsStore RepoId := {|
  lfs_store := ();
  LfsRepo := ();
  lfs_open _ := mret ();
  lfs_stat _ _ := mret None;
  lfs_download_action _ _ _ := lift (Err lfs_not_supported);
  lfs_upload_action _ _ _ := lift (Err lfs_not_supported);
  lfs_read _ _ := lift (Err lfs_not_supported);
  lfs_write _ _ _ _ s := (Err (WriteIo lfs_not_supported), s);
|}.

(** ** The contract of a store *)

(** [lfs_object r o s] is the content stored in [r] for [o], and [lfs_alias] relates the
    handles of one repository.  Only [write] changes content: when it succeeds the object
    is there, and what it stored is the stream it was given, of the declared size and
    with the declared digest.  Reading may break off, but never delivers anything else. *)
Class LfsLaws {RepoId} (L : LfsStore RepoId) {digest : Sha256} := {
  lfs_object : LfsRepo → LfsOid → lfs_store → option bytes;
  lfs_alias : LfsRepo → LfsRepo → Prop;
  lfs_open_keeps id r o : pres (lfs_object r o) (lfs_open id);
  lfs_stat_keeps r' o' r o : pres (lfs_object r o) (lfs_stat r' o');
  lfs_download_keeps r' o' n r o : pres (lfs_object r o) (lfs_download_action r' o' n);
  lfs_upload_keeps r' o' n r o : pres (lfs_object r o) (lfs_upload_action r' o' n);
  lfs_read_keeps r' o' r o : pres (lfs_object r o) (lfs_read r' o');
  lfs_stat_Ok r o s x s' : lfs_stat r o s = (Ok x, s') → x = len <$> lfs_object r o s;
  lfs_read_Ok r o s rd s' : lfs_read r o s = (Ok rd, s') →
    ∃ b, lfs_object r o s = Some b ∧ (reads_data rd).1 `prefix_of` b ∧
         ((reads_data rd).2 = Ok () → (reads_data rd).1 = b);
  lfs_write_stores r o size src s s' res : lfs_write r o size src s = (res, s') →
    ∀ r' o', lfs_object r' o' s' = lfs_object r' o' s ∨
             (res = Ok () ∧ o' = o ∧ lfs_alias r r' ∧
              ∃ b, reads_data src = (b, Ok ()) ∧ len b = size ∧ sha256 b = o ∧
                   lfs_object r' o' s' = Some b);
  lfs_write_Ok r o size src s s' : lfs_write r o size src s = (Ok (), s') →
    is_Some (lfs_object r o s');
}.

#[export] Hint Resolve lfs_open_keeps lfs_stat_keeps lfs_download_keeps lfs_upload_keeps
  lfs_read_keeps : mizzle.

(** Every object is stored under the digest of its content. *)
Definition content_addressed {RepoId} {L : LfsStore RepoId} {digest : Sha256} {laws : LfsLaws L}
    (s : lfs_store) : Prop :=
  ∀ r o b, lfs_object r o s = Some b → sha256 b = o.

#[global] Instance no_lfs_laws RepoId {digest : Sha256} : LfsLaws (NoLfs RepoId).
Proof.
  refine {| lfs_object _ _ _ := None; lfs_alias _ _ := True |}; simpl; unfold mret, ST_ret, lift;
    intros; simplify_eq; auto; done.
Defined.

Section laws.
Context {RepoId : Type} {L : LfsStore RepoId} {digest : Sha256} {laws : LfsLaws L}.
Context {access : LfsAccess} {env : LfsEnv}.

(** How an object of a batch request is answered when its repository is [repo] and the
    store is [s]; the last case is a store that failed. *)
Inductive answered (op : Operation) (repo : LfsRepo) (base : bytes) (s : lfs_store)
    (obj : BatchRequestObject) : BatchResponseObject → Prop :=
| ans_missing :
    op = Download → lfs_object repo (bro_oid obj) s = None →
    answered op repo base s obj (object_error obj 404 (b! "object not found"))
| ans_download b a :
    op = Download → lfs_object repo (bro_oid obj) s = Some b →
    answered op repo base s obj
      (object_answer obj (Some {| boa_download := Some (transfer_action_to_detail a (bro_oid obj) base);
                                  boa_upload := None; boa_verify := None |}) None)
| ans_present b :
    op = Upload → lfs_object repo (bro_oid obj) s = Some b →
    answered op repo base s obj (object_answer obj None None)
| ans_upload a :
    op = Upload → lfs_object repo (bro_oid obj) s = None →
    answered op repo base s obj
      (object_answer obj (Some {| boa_download := None;
                                  boa_upload := Some (transfer_action_to_detail a (bro_oid obj) base);
                                  boa_verify := Some (verify_detail base) |}) None)
| ans_failed msg : answered op repo base s obj (object_error obj 500 msg).

(** The two states hold the same objects. *)
Definition same_objects (s s' : lfs_store) : Prop :=
  ∀ r o, lfs_object r o s' = lfs_object r o s.

Lemma pres_same_objects {A} (m : ST lfs_store A) s x s' :
  (∀ r o, pres (lfs_object r o) m) → m s = (x, s') → same_objects s s'.
Proof. intros Hm Hs r o. specialize (Hm r o s). by rewrite Hs in Hm. Qed.

#[local] Instance same_objects_preorder : PreOrder same_objects.
Proof. split; [by intros s r o|]. intros s1 s2 s3 E1 E2 r o. by rewrite E2. Qed.

Lemma answered_same op repo base s s' obj x :
  same_objects s s' → answered op repo base s' obj x → answered op repo base s obj x.
Proof.
  intros E. specialize (E repo (bro_oid obj)). destruct 1; econstructor; try done; by rewrite <- E.
Qed.

Lemma batch_object_spec op repo base obj s x s' :
  batch_object op repo base obj s = (x, s') →
  answered op repo base s obj x ∧ same_objects s s'.
Proof.
  unfold batch_object. destruct (lfs_stat repo _ s) as [[st|e] s1] eqn:Hst;
    pose proof (pres_same_objects _ _ _ _ (lfs_stat_keeps repo (bro_oid obj)) Hst) as E1.
  2:{ intros [= <- <-]. split; [constructor|done]. }
  apply lfs_stat_Ok in Hst. symmetry in Hst. destruct op, st as [n|].
  - apply fmap_Some in Hst as (b & Hb & _).
    destruct (lfs_download_action repo _ n s1) as [[a|e] s2] eqn:Ha; intros [= <- <-];
      (split; [econstructor; done|]; etransitivity; [done|]; eapply pres_same_objects; [|done]; auto with mizzle).
  - apply fmap_None in Hst. intros [= <- <-]. split; [by constructor|done].
  - apply fmap_Some in Hst as (b & Hb & _). intros [= <- <-]. split; [by econstructor|done].
  - apply fmap_None in Hst.
    destruct (lfs_upload_action repo _ _ s1) as [[a|e] s2] eqn:Ha; intros [= <- <-];
      (split; [by econstructor|]; etransitivity; [done|]; eapply pres_same_objects; [|done]; auto with mizzle).
Qed.

Lemma batch_objects_spec op repo base objs s xs s' :
  batch_objects op repo base objs s = (xs, s') →
  Forall2 (answered op repo base s) objs xs ∧ same_objects s s'.
Proof.
  revert s xs s'; induction objs as [|obj objs IH]; intros s xs s'; simpl.
  { intros [= <- <-]. split; [constructor|done]. }
  destruct (batch_object _ _ _ _ s) as [x s1] eqn:Hx.
  destruct (batch_objects _ _ _ _ s1) as [xs' s2] eqn:Hxs. intros [= <- <-].
  apply batch_object_spec in Hx as [Hx E1]. apply IH in Hxs as [Hxs E2]. split.
  - constructor; [done|]. eapply Forall2_impl; [done|]. intros ? ?. by apply answered_same.
  - by etransitivity.
Qed.

(** The batch endpoint answers for every object asked about, in order, by what the
    store holds, and changes nothing: a request it cannot parse is 400 and one the forge
    denies 403, neither reaching the store; a 200 carries, for each object of the
    request, an absence or a download link, nothing or an upload link with its verify
    link, as the object is there or not, or that object's own error. *)
Theorem handle_batch_correct repo_id base body s status text s' :
  handle_batch repo_id base body s = ((status, text), s') →
  same_objects s s' ∧
  (status = 400 ↔ ∃ e, request_from_slice body = Err e) ∧
  ∀ req, request_from_slice body = Ok req →
    (status = 403 ↔ ∃ reason, authorize_lfs (breq_operation req) (bref_name <$> breq_git_ref req)
                              = Err reason) ∧
    (status = 403 → s' = s) ∧
    (status = 200 → ∃ repo s0 objs,
       lfs_open repo_id s = (Ok repo, s0) ∧
       Forall2 (answered (breq_operation req) repo base s) (breq_objects req) objs ∧
       response_to_string {| br_transfer := b! "basic"; br_objects := objs |} = Ok text).
Proof.
  unfold handle_batch. destruct (request_from_slice body) as [req|e] eqn:Hreq.
  2:{ intros [= <- <- <-]. split; [done|]. split; [naive_solver|naive_solver]. }
  destruct (authorize_lfs _ _) as [[]|reason] eqn:Hauth.
  2:{ intros [= <- <- <-]. split; [done|]. split; [naive_solver|].
      intros ? [= <-]. rewrite Hauth. naive_solver. }
  destruct (lfs_open repo_id s) as [[repo|e] s1] eqn:Ho;
    pose proof (pres_same_objects _ _ _ _ (lfs_open_keeps repo_id) Ho) as E1.
  2:{ intros [= <- <- <-]. split; [done|]. split; [naive_solver|].
      intros ? [= <-]. rewrite Hauth. naive_solver. }
  destruct (batch_objects _ _ _ _ s1) as [objs s2] eqn:Hb. apply batch_objects_spec in Hb as [Hb E2].
  assert (same_objects s s2) as E by by etransitivity.
  destruct (response_to_string _) as [json|e] eqn:Hj; intros [= <- <- <-]; (split; [done|]);
    (split; [naive_solver|]); intros ? [= <-]; rewrite Hauth; (split; [naive_solver|]);
    (split; [naive_solver|]); [|done].
  intros _. exists repo, s1, objs. split; [done|]. split; [|done].
  eapply Forall2_impl; [done|]. intros ? ?. by apply answered_same.
Qed.

(** What an upload can do: nothing, or store the verified body for the id in its path. *)
Lemma handle_upload_stores repo_id oid_hex size body s status s' :
  handle_upload repo_id oid_hex size body s = (status, s') →
  ∀ r o, lfs_object r o s' = lfs_object r o s ∨
         (status = 200 ∧ authorize_lfs Upload None = Ok () ∧
          lfs_from_str (b! "sha256:" ++ oid_hex) = Ok o ∧
          ∃ b, reads_data body = (b, Ok ()) ∧ len b = size ∧ sha256 b = o ∧
               lfs_object r o s' = Some b).
Proof.
  unfold handle_upload. destruct (authorize_lfs _ _) as [[]|] eqn:Ha; [|intros [= <- <-]; by left].
  destruct (lfs_from_str _) as [oid|] eqn:Hoid; [|intros [= <- <-]; by left].
  destruct (lfs_open repo_id s) as [[repo|e] s1] eqn:Ho;
    pose proof (pres_same_objects _ _ _ _ (lfs_open_keeps repo_id) Ho) as E1;
    [|intros [= <- <-]; by left].
  destruct (lfs_write repo oid size body s1) as [res s2] eqn:Hw.
  assert (∀ (c : N), (c, s2) = (status, s') → (res = Ok () → c = 200) →
    ∀ r o, lfs_object r o s' = lfs_object r o s ∨
         (status = 200 ∧ Ok () = Ok (E := bytes) () ∧ Ok oid = Ok (E := LfsOidError) o ∧
          ∃ b, reads_data body = (b, Ok ()) ∧ len b = size ∧ sha256 b = o ∧
               lfs_object r o s' = Some b)) as Hgo.
  { intros c [= <- <-] Hc r o. rewrite <- (E1 r o).
    destruct (lfs_write_stores _ _ _ _ _ _ _ Hw r o) as [?|(-> & -> & _ & Hb)]; [by left|].
    right. auto. }
  by destruct res as [[]|[]]; intros Heq; apply (Hgo _ Heq).
Qed.

Lemma handle_download_spec repo_id oid_hex s status out s' :
  handle_download repo_id oid_hex s = ((status, out), s') →
  same_objects s s' ∧ (status = 200 ↔ is_Some out) ∧
  ∀ rd, out = Some rd → ∃ o repo s0 b,
    lfs_from_str (b! "sha256:" ++ oid_hex) = Ok o ∧ lfs_open repo_id s = (Ok repo, s0) ∧
    lfs_object repo o s = Some b ∧ (reads_data rd).1 `prefix_of` b ∧
    ((reads_data rd).2 = Ok () → (reads_data rd).1 = b).
Proof.
  unfold handle_download.
  assert (∀ (P : reads → Prop) s1 c, same_objects s s1 → c ≠ 200 →
    ((c, None), s1) = ((status, out), s') →
    same_objects s s' ∧ (status = 200 ↔ is_Some out) ∧ ∀ rd, out = Some rd → P rd) as Hno.
  { intros P s1 c E Hc [= <- <- <-]. split; [done|]. split; [split; [done|by intros []]|done]. }
  destruct (lfs_from_str _) as [oid|] eqn:Hoid; [|intros Heq; eapply Hno; [| |exact Heq]; done].
  destruct (lfs_open repo_id s) as [[repo|e] s1] eqn:Ho;
    pose proof (pres_same_objects _ _ _ _ (lfs_open_keeps repo_id) Ho) as E1;
    [|intros Heq; eapply Hno; [| |exact Heq]; done].
  destruct (lfs_stat repo oid s1) as [[[n|]|e] s2] eqn:Hst;
    pose proof (pres_same_objects _ _ _ _ (lfs_stat_keeps repo oid) Hst) as E2;
    (assert (same_objects s s2) as E12 by by etransitivity);
    [|intros Heq; eapply Hno; [| |exact Heq]; done..].
  destruct (lfs_read repo oid s2) as [[rd|e] s3] eqn:Hrd;
    pose proof (pres_same_objects _ _ _ _ (lfs_read_keeps repo oid) Hrd) as E3;
    (assert (same_objects s s3) as E13 by by etransitivity);
    [|intros Heq; eapply Hno; [| |exact Heq]; done].
  intros [= <- <- <-]. split; [done|]. split; [naive_solver|]. intros ? [= <-].
  apply lfs_read_Ok in Hrd as (b & Hb & Hp & Hd). exists oid, repo, s1, b. by rewrite <- (E12 repo oid).
Qed.

Lemma handle_verify_spec repo_id oid size s status s' :
  handle_verify repo_id oid size s = (status, s') →
  same_objects s s' ∧
  (status = 200 → ∃ repo s0 b, lfs_open repo_id s = (Ok repo, s0) ∧
     lfs_object repo oid s = Some b ∧ len b = size).
Proof.
  unfold handle_verify. destruct (lfs_open repo_id s) as [[repo|e] s1] eqn:Ho;
    pose proof (pres_same_objects _ _ _ _ (lfs_open_keeps repo_id) Ho) as E1;
    [|by intros [= <- <-]].
  destruct (lfs_stat repo oid s1) as [st s2] eqn:Hst.
  pose proof (pres_same_objects _ _ _ _ (lfs_stat_keeps repo oid) Hst) as E2.
  assert (same_objects s s2) as E12 by by etransitivity.
  destruct st as [[n|]|e]; intros [= <- <-]; (split; [done|]); [|done..].
  apply lfs_stat_Ok in Hst. rewrite (E1 repo oid) in Hst.
  destruct (lfs_object repo oid s) as [b|] eqn:Hb; simplify_eq/=. destruct (N.eqb_spec (len b) size) as [Hn|]; [|done].
  intros _. by exists repo, s1, b.
Qed.
End laws.
