(* ===== verification/LfsFs.v ===== *)
(** * The filesystem LFS store ([lfs/fs.rs])

    Files are a map from paths to contents.  The directory tree is not tracked (a path
    holds a file or nothing), and what the operating system refuses is a parameter, as
    are the names of temporary files ([tempfile]) and the way a file's content arrives
    in reads.  The store satisfies the contract of [LfsHandlers.v], also when uploads
    run interleaved: the last section is a step relation of concurrent uploads. *)

From stdpp Require Import base gmap list strings vector relations.
From Stdlib Require Import Strings.Byte Lia.
From S2P Require Import Prelude Bytes Gix Proto Lfs LfsHandlers.

#[local] Open Scope N_scope.

(** A [PathBuf], by its components. *)
Abbreviation path := (list bytes).
Abbreviation files := (gmap path bytes).

Inductive fs_op :=
| OpMetadata (p : path)
| OpCreateDirAll (p : path)
| OpTempFile (dir : path)
| OpKeep (p : path)
| OpOpen (p : path)
| OpWrite (p : path) (d : bytes)
| OpFlush (p : path)
| OpRemove (p : path)
| OpRename (p q : path).

(** [fs_fault s op] is the error the system answers with, if it does not do [op]. *)
Class FsEnv := {
  fs_fault : files → fs_op → option error;
  temp_name : files → path → bytes;
  file_reads : bytes → reads;
}.

(** [tempfile] creates a file that was not there, named [.tmp...]; a file's reads deliver
    its content, or break off. *)
Class FsEnvLaws {env : FsEnv} : Prop := {
  temp_name_fresh s dir : s !! (dir ++ [temp_name s dir]) = None;
  temp_name_prefix s dir : starts_with (b! ".tmp") (temp_name s dir) = true;
  file_reads_prefix b : (reads_data (file_reads b)).1 `prefix_of` b;
  file_reads_whole b : (reads_data (file_reads b)).2 = Ok () → (reads_data (file_reads b)).1 = b;
}.

Inductive io_error := NotFound | OtherIo (e : error).

Record FsLfsRepo := { root : path }.

Definition object_path (repo : FsLfsRepo) (oid : LfsOid) : path :=
  let h := to_hex oid in root repo ++ [take 2 h; take 2 (drop 2 h); h].

Definition object_dir (repo : FsLfsRepo) (oid : LfsOid) : path :=
  let h := to_hex oid in root repo ++ [take 2 h; take 2 (drop 2 h)].

Section fs.
Context {env : FsEnv} {digest : Sha256}.

(** ** The operations *)

Definition metadata (p : path) (s : files) : result io_error N :=
  match fs_fault s (OpMetadata p) with
  | Some e => Err (OtherIo e)
  | None => match s !! p with Some b => Ok (len b) | None => Err NotFound end
  end.

Definition fs_open (id : path) : ST files FsLfsRepo :=
  mret {| root := id ++ [b! "lfs"; b! "objects"] |}.

Definition fs_stat (repo : FsLfsRepo) (oid : LfsOid) : ST files (option N) := fun s =>
  match metadata (object_path repo oid) s with
  | Ok n => (Ok (Some n), s)
  | Err NotFound => (Ok None, s)
  | Err (OtherIo e) => (Err e, s)
  end.

Definition fs_read (repo : FsLfsRepo) (oid : LfsOid) : ST files reads := fun s =>
  let p := object_path repo oid in
  match fs_fault s (OpOpen p), s !! p with
  | Some e, _ => (Err e, s)
  | None, Some b => (Ok (file_reads b), s)
  | None, None => (Err (Foreign (b! "No such file or directory")), s)
  end.

(** [write] up to the temporary file: [None] when the object is already there. *)
Definition write_begin (repo : FsLfsRepo) (oid : LfsOid) (s : files) :
    result LfsWriteError (option path) * files :=
  let dest := object_path repo oid in
  let dir := object_dir repo oid in
  if is_ok (metadata dest s) then (Ok None, s)
  else
    match fs_fault s (OpCreateDirAll dir) with
    | Some e => (Err (WriteIo e), s)
    | None =>
        match fs_fault s (OpTempFile dir) with
        | Some e => (Err (WriteIo e), s)
        | None =>
            let tmp_path := dir ++ [temp_name s dir] in
            match fs_fault s (OpKeep tmp_path) with
            | Some e => (Err (WriteIo e), s)
            | None => (Ok (Some tmp_path), <[tmp_path := []]> s)
            end
        end
    end.

Definition append (p : path) (d : bytes) (s : files) : files := alter (λ b, b ++ d) p s.

(** The copy loop.  [seen] is what the hasher was fed, whose length is
    [total_written]; a failed [write_all] leaves the file as it was before it. *)
Fixpoint write_loop (tmp_path : path) (seen : bytes) (src : reads) (s : files) :
    result LfsWriteError bytes * files :=
  match src with
  | [] | Ok [] :: _ => (Ok seen, s)
  | Err e :: _ => (Err (WriteIo e), s)
  | Ok c :: src' =>
      match fs_fault s (OpWrite tmp_path c) with
      | Some e => (Err (WriteIo e), s)
      | None => write_loop tmp_path (seen ++ c) src' (append tmp_path c s)
      end
  end.

(** [let _ = remove_file(p)]. *)
Definition remove_file (p : path) (s : files) : files :=
  match fs_fault s (OpRemove p) with Some _ => s | None => delete p s end.

Definition rename (p q : path) (s : files) : result error () * files :=
  match fs_fault s (OpRename p q), s !! p with
  | Some e, _ => (Err e, s)
  | None, Some b => (Ok (), <[q := b]> (delete p s))
  | None, None => (Err (Foreign (b! "No such file or directory")), s)
  end.

(** [write] after the loop: flush, check the size, check the digest, move into place. *)
Definition write_finish (tmp_path dest : path) (oid : LfsOid) (size : N) (seen : bytes)
    (s : files) : result LfsWriteError () * files :=
  match fs_fault s (OpFlush tmp_path) with
  | Some e => (Err (WriteIo e), s)
  | None =>
      if decide (len seen ≠ size) then
        (Err (SizeMismatch size (len seen)), remove_file tmp_path s)
      else if decide (sha256 seen ≠ oid) then
        (Err (HashMismatch (to_hex oid) (to_hex (sha256 seen))), remove_file tmp_path s)
      else
        match rename tmp_path dest s with
        | (Ok _, s) => (Ok (), s)
        | (Err e, s) => (Err (WriteIo e), s)
        end
  end.

Definition fs_write (repo : FsLfsRepo) (oid : LfsOid) (size : N) (src : reads) (s : files) :
    result LfsWriteError () * files :=
  match write_begin repo oid s with
  | (Err e, s) => (Err e, s)
  | (Ok None, s) => (Ok (), s)
  | (Ok (Some tmp_path), s) =>
      match write_loop tmp_path [] src s with
      | (Err e, s) => (Err e, s)
      | (Ok seen, s) => write_finish tmp_path (object_path repo oid) oid size seen s
      end
  end.

Definition FsLfs : LfsStore path := {|
  lfs_store := files;
  LfsRepo := FsLfsRepo;
  lfs_open := fs_open;
  lfs_stat := fs_stat;
  lfs_download_action _ _ _ := mret Proxy;
  lfs_upload_action _ _ _ := mret Proxy;
  lfs_read := fs_read;
  lfs_write := fs_write;
|}.
End fs.

(** ** Paths *)

Lemma object_path_inj r1 r2 o1 o2 : object_path r1 o1 = object_path r2 o2 → r1 = r2 ∧ o1 = o2.
Proof.
  destruct r1 as [p1], r2 as [p2]. unfold object_path. simpl. intros E.
  apply app_inj_2 in E as [-> E]; [|done]. injection E as _ _ E. by apply to_hex_inj in E as ->.
Qed.

(** Object files and temporary files are different files. *)
Lemma object_path_not_temp {env : FsEnv} {laws : FsEnvLaws} r o dir s :
  object_path r o ≠ dir ++ [temp_name s dir].
Proof.
  unfold object_path. intros E. apply (f_equal last) in E.
  change (root r ++ [?a; ?b; ?c]) with (root r ++ ([a; b] ++ [c])) in E.
  rewrite app_assoc, !last_snoc in E. injection E as E.
  pose proof (temp_name_prefix s dir) as Hp. rewrite <- E in Hp.
  apply starts_with_true in Hp as [t Ht]. apply (to_hex_no x2e o); [done|]. rewrite Ht. by left.
Qed.

Section fs_laws.
Context {env : FsEnv} {env_laws : FsEnvLaws} {digest : Sha256}.

(** ** The phases of an upload *)

Lemma lookup_append_ne (p q : path) (d : bytes) (s : files) : p ≠ q → append p d s !! q = s !! q.
Proof. apply lookup_alter_ne. Qed.

Lemma lookup_append (p : path) (d : bytes) (s : files) b : s !! p = Some b → append p d s !! p = Some (b ++ d).
Proof. intros E. unfold append. by rewrite lookup_alter_eq, E. Qed.

(** A temporary file that was just created. *)
Definition is_temp (p : path) : Prop := ∀ r o, object_path r o ≠ p.

Lemma write_begin_spec repo oid s res s' :
  write_begin repo oid s = (res, s') →
  match res with
  | Ok (Some tmp) => is_temp tmp ∧ s !! tmp = None ∧ s' = <[tmp := []]> s
  | Ok None => s' = s ∧ is_Some (s !! object_path repo oid)
  | Err _ => s' = s
  end.
Proof.
  unfold write_begin. destruct (metadata _ s) as [n|e] eqn:Hm; simpl.
  { intros [= <- <-]. split; [done|]. unfold metadata in Hm.
    destruct (fs_fault _ _); [done|]. destruct (s !! _); [by eexists|done]. }
  repeat (case_match; [by intros [= <- <-]|]). intros [= <- <-].
  split; [|split; [apply temp_name_fresh|done]]. intros r o. apply object_path_not_temp.
Qed.

Lemma write_loop_spec tmp src : ∀ seen s res s',
  s !! tmp = Some seen → write_loop tmp seen src s = (res, s') →
  (∀ p, p ≠ tmp → s' !! p = s !! p) ∧
  match res with
  | Ok seen' => ∃ d, reads_data src = (d, Ok ()) ∧ seen' = seen ++ d ∧ s' !! tmp = Some seen'
  | Err _ => True
  end.
Proof.
  induction src as [|[[|b c]|e] src IH]; intros seen s res s' Ht; cbn [write_loop reads_data];
    [by intros [= <- <-]; split; [|exists []; rewrite app_nil_r]..| |by intros [= <- <-]].
  destruct (fs_fault _ _); [by intros [= <- <-]|]. intros Hrun.
  apply IH in Hrun as [Hp Hres]; [|by apply lookup_append]. split.
  - intros p Hne. rewrite Hp by done. by apply lookup_append_ne.
  - destruct res as [seen'|]; [|done]. destruct Hres as (d & Hd & -> & Hl).
    exists (b :: c ++ d). rewrite Hd. split; [done|]. by rewrite <- app_assoc in Hl |- *.
Qed.

Lemma write_finish_spec tmp dest oid size seen s res s' :
  s !! tmp = Some seen → tmp ≠ dest →
  write_finish tmp dest oid size seen s = (res, s') →
  (∀ p, p ≠ tmp → s' !! p = s !! p ∨
     (res = Ok () ∧ p = dest ∧ len seen = size ∧ sha256 seen = oid ∧ s' !! p = Some seen)) ∧
  (res = Ok () → s' !! dest = Some seen ∧ s' !! tmp = None).
Proof.
  intros Ht Hne. unfold write_finish, remove_file, rename.
  destruct (fs_fault _ _); [intros [= <- <-]; split; [auto|done]|].
  assert (∀ e : LfsWriteError, (Err (A := ()) e, match fs_fault s (OpRemove tmp) with Some _ => s | None => delete tmp s end)
            = (res, s') → (∀ p, p ≠ tmp → s' !! p = s !! p) ∧ res = Err e) as Hrm.
  { intros e. destruct (fs_fault _ _); intros [= <- <-]; [done|].
    split; [|done]. intros p Hp. by apply lookup_delete_ne. }
  case_decide as Hsz; [intros [Hp ->]%Hrm; split; [auto|done]|].
  case_decide as Hh; [intros [Hp ->]%Hrm; split; [auto|done]|].
  rewrite Ht.
  destruct (fs_fault s (OpRename tmp dest)); simpl; intros [= <- <-]; [split; [auto|done]|]. split.
  - intros p Hp. destruct (decide (p = dest)) as [->|Hd].
    + right. rewrite lookup_insert_eq. auto.
    + left. rewrite lookup_insert_ne, lookup_delete_ne by done. done.
  - intros _. rewrite lookup_insert_eq, lookup_insert_ne, lookup_delete_eq by done. done.
Qed.

Lemma fs_write_spec repo oid size src s res s' :
  fs_write repo oid size src s = (res, s') →
  (∀ r o, s' !! object_path r o = s !! object_path r o ∨
     (res = Ok () ∧ o = oid ∧ repo = r ∧
      ∃ b, reads_data src = (b, Ok ()) ∧ len b = size ∧ sha256 b = oid ∧
           s' !! object_path r o = Some b)) ∧
  (res = Ok () → is_Some (s' !! object_path repo oid)).
Proof.
  unfold fs_write. destruct (write_begin repo oid s) as [[[tmp|]|e] s1] eqn:Hb;
    apply write_begin_spec in Hb; simpl in Hb.
  2:{ destruct Hb as [-> Hs]. intros [= <- <-]. auto. }
  2:{ subst s1. intros [= <- <-]. split; [auto|done]. }
  destruct Hb as (Htmp & Hnone & ->).
  destruct (write_loop tmp [] src _) as [[seen|e] s2] eqn:Hl;
    apply write_loop_spec in Hl as [Hp Hl]; try apply lookup_insert_eq.
  - destruct Hl as (d & Hd & -> & Ht). simpl in Ht. intros Hf.
    apply write_finish_spec in Hf as [Hf Hok]; [|done|by intros ->; eapply Htmp]. split.
    + intros r o. destruct (Hf (object_path r o) (Htmp r o)) as [E|(-> & Ho & Hsz & Hh & E)].
      * left. rewrite E, Hp by apply Htmp. apply lookup_insert_ne. intros Et. by eapply Htmp.
      * apply object_path_inj in Ho as [-> ->]. right. eauto 10.
    + intros ->. destruct Hok as [-> _]; [done|]. by eexists.
  - intros [= <- <-]. split; [|done]. intros r o. left. rewrite Hp by apply Htmp.
    apply lookup_insert_ne. intros Et. by eapply Htmp.
Qed.

(** ** The store satisfies the contract *)

Definition fs_object (r : @LfsRepo _ FsLfs) (o : LfsOid) (s : @lfs_store _ FsLfs) : option bytes :=
  (s : files) !! object_path r o.

#[export] Instance fs_lfs_laws : LfsLaws FsLfs.
Proof.
  refine {| lfs_object := fs_object; lfs_alias r r' := r = r' |}.
  all: unfold fs_object; simpl; unfold mret, ST_ret; try done.
  - intros r' o' r o s. unfold fs_stat. by destruct (metadata _ s) as [|[]].
  - intros r' o' r o s. unfold fs_read. by destruct (fs_fault _ _), (s !! object_path r' o').
  - intros r o s x s'. unfold fs_stat, metadata. destruct (fs_fault _ _); [done|].
    destruct (s !! _); by intros [= <- _].
  - intros r o s rd s'. unfold fs_read. destruct (fs_fault _ _); [done|].
    destruct (s !! _) as [b|]; [|done]. intros [= <- _]. exists b. split; [done|].
    split; [apply file_reads_prefix|apply file_reads_whole].
  - intros r o size src s s' res Hw. by apply fs_write_spec in Hw as [Hw _].
  - intros r o size src s s' Hw. apply fs_write_spec in Hw as [_ Hw]. auto.
Defined.

(** ** Uploads on a system that does what it is told *)

Lemma write_loop_no_faults tmp src :
  (∀ s op, fs_fault s op = None) → ∀ seen s,
  write_loop tmp seen src (<[tmp := seen]> s) =
  (match (reads_data src).2 with Ok _ => Ok (seen ++ (reads_data src).1) | Err e => Err (WriteIo e) end,
   <[tmp := seen ++ (reads_data src).1]> s).
Proof.
  intros Hnf. induction src as [|[[|b c]|e] src IH]; intros seen s; cbn [write_loop reads_data];
    [by rewrite ?app_nil_r..| |by rewrite app_nil_r].
  rewrite Hnf. unfold append. rewrite alter_insert_eq, IH. destruct (reads_data src) as [d r]. simpl.
  by rewrite <- app_assoc.
Qed.

(** (C35) Without system errors an upload does exactly this: an object that is there is
    left alone, whatever is sent; otherwise a body of the declared size and digest is
    stored and nothing else changes, a body of another size or digest is refused without
    a trace, and a body that breaks off is refused but leaves its temporary file. *)
Theorem fs_write_correct repo oid size src s :
  (∀ s op, fs_fault s op = None) →
  fs_write repo oid size src s =
  match s !! object_path repo oid, reads_data src with
  | Some _, _ => (Ok (), s)
  | None, (b, Ok _) =>
      if decide (len b ≠ size) then (Err (SizeMismatch size (len b)), s)
      else if decide (sha256 b ≠ oid) then
        (Err (HashMismatch (to_hex oid) (to_hex (sha256 b))), s)
      else (Ok (), <[object_path repo oid := b]> s)
  | None, (b, Err e) =>
      let dir := object_dir repo oid in
      (Err (WriteIo e), <[dir ++ [temp_name s dir] := b]> s)
  end.
Proof.
  intros Hnf. unfold fs_write, write_begin, metadata. rewrite !Hnf.
  destruct (s !! object_path repo oid) as [b0|] eqn:Hd; [done|]. cbn [is_ok].
  pose proof (temp_name_fresh s (object_dir repo oid)) as Hfresh.
  pose proof (object_path_not_temp repo oid (object_dir repo oid) s) as Hne.
  set (tmp := object_dir repo oid ++ _) in *. rewrite write_loop_no_faults by done.
  destruct (reads_data src) as [b [[]|e]]; [|done]. cbn [fst snd app].
  unfold write_finish, remove_file, rename. rewrite !Hnf.
  rewrite !delete_insert_id, lookup_insert_eq by done.
  repeat case_decide; done.
Qed.
End fs_laws.

(** ** Concurrent uploads

    Any number of uploads in progress over the same files: a step starts an upload,
    copies one chunk of a body, ends an upload, or abandons it (a broken body, a failed
    write, a client that went away). *)

Record upload := {
  up_repo : FsLfsRepo;
  up_oid : LfsOid;
  up_size : N;
  up_tmp : path;
  up_seen : bytes }.

Abbreviation lfs_server := (files * gmap nat upload)%type.

Section concurrent.
Context {env : FsEnv} {env_laws : FsEnvLaws} {digest : Sha256}.

Inductive upload_step : lfs_server → lfs_server → Prop :=
| step_begin i repo oid size s us tmp s' :
    us !! i = None → write_begin repo oid s = (Ok (Some tmp), s') →
    upload_step (s, us)
      (s', <[i := {| up_repo := repo; up_oid := oid; up_size := size; up_tmp := tmp;
                     up_seen := [] |}]> us)
| step_chunk i u c s us :
    us !! i = Some u → fs_fault s (OpWrite (up_tmp u) c) = None →
    upload_step (s, us)
      (append (up_tmp u) c s,
       <[i := {| up_repo := up_repo u; up_oid := up_oid u; up_size := up_size u;
                 up_tmp := up_tmp u; up_seen := up_seen u ++ c |}]> us)
| step_finish i u s us res s' :
    us !! i = Some u →
    write_finish (up_tmp u) (object_path (up_repo u) (up_oid u)) (up_oid u) (up_size u)
      (up_seen u) s = (res, s') →
    upload_step (s, us) (s', delete i us)
| step_abandon i s us : upload_step (s, us) (s, delete i us).

(** The files of the uploads in progress hold what their hashers were fed, are pairwise
    different and are not objects, and every object has the digest it is named by. *)
Record uploads_inv (x : lfs_server) : Prop := {
  inv_tmp i u : x.2 !! i = Some u → x.1 !! up_tmp u = Some (up_seen u) ∧ is_temp (up_tmp u);
  inv_distinct i j u v : x.2 !! i = Some u → x.2 !! j = Some v → i ≠ j → up_tmp u ≠ up_tmp v;
  inv_objects r o b : x.1 !! object_path r o = Some b → sha256 b = o }.

Lemma upload_step_inv x y : upload_step x y → uploads_inv x → uploads_inv y.
Proof.
  intros Hs [Ht Hd Ho]. destruct Hs as [i repo oid size s us tmp s' Hi Hb
    |i u c s us Hi _|i u s us res s' Hi Hf|i s us]; simpl in *.
  - apply write_begin_spec in Hb as (Htmp & Hnone & ->). split; simpl.
    + intros j v. rewrite lookup_insert_Some. intros [[<- <-]|[Hj Hv]]; simpl.
      { by rewrite lookup_insert_eq. }
      destruct (Ht _ _ Hv) as [E ?]. rewrite lookup_insert_ne; [done|]. intros ->. congruence.
    + intros j k v w. rewrite !lookup_insert_Some.
      intros [[<- <-]|[Hj Hv]] [[<- <-]|[Hk Hw]] Hne; simpl; try done.
      * intros E. destruct (Ht _ _ Hw) as [Hw' _]. congruence.
      * intros E. destruct (Ht _ _ Hv) as [Hv' _]. congruence.
      * by eapply Hd.
    + intros r o b. rewrite lookup_insert_ne; [apply Ho|]. intros E. by eapply Htmp.
  - destruct (Ht _ _ Hi) as [Eu Hu]. split; simpl.
    + intros j v. rewrite lookup_insert_Some. intros [[<- <-]|[Hj Hv]]; simpl.
      { split; [by apply lookup_append|done]. }
      destruct (Ht _ _ Hv). rewrite lookup_append_ne by (by eapply (Hd i j)). done.
    + intros j k v w. rewrite !lookup_insert_Some.
      intros [[<- <-]|[Hj Hv]] [[<- <-]|[Hk Hw]] Hne; simpl; try done; by eapply Hd.
    + intros r o b. rewrite lookup_append_ne; [apply Ho|]. intros E. by eapply Hu.
  - destruct (Ht _ _ Hi) as [Eu Hu].
    apply write_finish_spec in Hf as [Hf _]; [|done|by intros E; eapply Hu]. split; simpl.
    + intros j v. rewrite lookup_delete_Some. intros [Hj Hv]. destruct (Ht _ _ Hv) as [Ev Hv'].
      split; [|done]. destruct (Hf (up_tmp v)) as [->|(_ & E & _)]; [by eapply (Hd j i)|done|].
      by edestruct Hv'.
    + intros j k v w. rewrite !lookup_delete_Some. intros [? ?] [? ?]. by eapply Hd.
    + intros r o b Hb. destruct (Hf (object_path r o) (Hu r o)) as [E|(_ & E & _ & Hh & E')].
      * apply (Ho r o). by rewrite <- E.
      * apply object_path_inj in E as [-> ->]. congruence.
  - split; simpl; [|intros j k v w; rewrite !lookup_delete_Some; intros [? ?] [? ?]; by eapply Hd|done].
    intros j v. rewrite lookup_delete_Some. intros [? ?]. by eapply Ht.
Qed.

(** An object, once there, stays: it can only be replaced by content of its digest. *)
Lemma upload_step_keeps x y r o b :
  upload_step x y → uploads_inv x → x.1 !! object_path r o = Some b →
  ∃ b', y.1 !! object_path r o = Some b'.
Proof.
  intros Hs [Ht _ _] Hb. destruct Hs as [i repo oid size s us tmp s' Hi Hw
    |i u c s us Hi _|i u s us res s' Hi Hf|i s us]; simpl in *; [..|eauto].
  - apply write_begin_spec in Hw as (Htmp & _ & ->). exists b.
    rewrite lookup_insert_ne; [done|]. intros E. by eapply Htmp.
  - exists b. rewrite lookup_append_ne; [done|]. intros E. by eapply (proj2 (Ht _ _ Hi)).
  - destruct (Ht _ _ Hi) as [Eu Hu].
    apply write_finish_spec in Hf as [Hf _]; [|done|by intros E; eapply Hu].
    destruct (Hf (object_path r o) (Hu r o)) as [->|(_ & _ & _ & _ & ->)]; eauto.
Qed.

(** (C33) Content addressing survives any interleaving of uploads: from a store with no
    upload in progress in which every object has the digest it is named by, whatever
    uploads start, advance, finish, fail or disappear, in whatever order, every object
    visible at any moment has the digest it is named by, and no object ever goes
    missing.  So a reader never sees a partial or a foreign object. *)
Theorem concurrent_uploads_safe s0 s us :
  rtc upload_step (s0, ∅) (s, us) →
  (∀ r o b, s0 !! object_path r o = Some b → sha256 b = o) →
  (∀ r o b, s !! object_path r o = Some b → sha256 b = o) ∧
  (∀ r o, is_Some (s0 !! object_path r o) → is_Some (s !! object_path r o)).
Proof.
  intros Hrun H0.
  assert (uploads_inv (s0, ∅)) as Hinv by (split; simpl; [done|done|exact H0]).
  change s with (s, us).1. change s0 with (s0, ∅ : gmap nat upload).1.
  generalize dependent (s, us). generalize dependent (s0, ∅ : gmap nat upload).
  intros x Hx y Hrun. clear H0.
  induction Hrun as [x|x y z Hs _ IH]; [split; [apply Hx|done]|].
  destruct IH as [H1 H2]; [by eapply upload_step_inv|]. split; [done|].
  intros r o [b Hb]. apply H2. destruct (upload_step_keeps _ _ _ _ _ Hs Hx Hb) as [b' ->]. by eexists.
Qed.

Lemma write_loop_steps i repo oid size us tmp src : ∀ seen s seen' s',
  us !! i = Some {| up_repo := repo; up_oid := oid; up_size := size; up_tmp := tmp; up_seen := seen |} →
  write_loop tmp seen src s = (Ok seen', s') →
  rtc upload_step (s, us)
    (s', <[i := {| up_repo := repo; up_oid := oid; up_size := size; up_tmp := tmp;
                   up_seen := seen' |}]> us).
Proof.
  revert us. induction src as [|[[|b c]|e] src IH]; intros us seen s seen' s' Hi;
    cbn [write_loop]; [by intros [= <- <-]; rewrite insert_id..| |done].
  destruct (fs_fault _ _) eqn:Hf; [done|]. intros Hrun.
  eapply rtc_l; [by apply (step_chunk i _ (b :: c) s us Hi)|]. simpl.
  pose proof (IH _ _ _ _ _ (lookup_insert_eq us i _) Hrun) as Hsteps.
  by rewrite insert_insert_eq in Hsteps.
Qed.

(** A sequential upload that gets to its end is such a run. *)
Lemma fs_write_steps repo oid size src s s' :
  fs_write repo oid size src s = (Ok (), s') → rtc upload_step (s, ∅) (s', ∅).
Proof.
  unfold fs_write. destruct (write_begin repo oid s) as [[[tmp|]|e] s1] eqn:Hb; [| |done].
  2:{ apply write_begin_spec in Hb as [-> _]. by intros [= <-]. }
  destruct (write_loop tmp [] src s1) as [[seen|e] s2] eqn:Hl; [|done]. intros Hf.
  eapply rtc_l; [by apply (step_begin 0 repo oid size)|]. etrans.
  { eapply write_loop_steps; [|done]. apply lookup_insert_eq. }
  rewrite insert_insert_eq. apply rtc_once.
  pose proof (step_finish 0 _ s2 _ _ _ (lookup_insert_eq ∅ 0%nat
    {| up_repo := repo; up_oid := oid; up_size := size; up_tmp := tmp; up_seen := seen |}) Hf) as Hst.
  by rewrite delete_insert_eq, delete_id in Hst.
Qed.
End concurrent.
