(* ===== verification/Axum.v ===== *)
(** * The HTTP front end ([servers/axum.rs])

    The dispatch of one HTTP request to the git protocol handlers of [Serve.v] or to the
    LFS endpoints of [LfsHandlers.v], and the theorems about the whole server.  A
    request is its method, its headers, its query and its body; [axum]'s extraction of
    them is a parameter of the model only through the reads that deliver the body
    ([Transport]).  A handler that panics produces no response. *)

From stdpp Require Import base gmap list strings vector.
From Stdlib Require Import Strings.Byte Lia.
From S2P Require Import Prelude Bytes Gix Proto Types Handlers Sigverify Auth Serve Lfs LfsHandlers LfsFs.

#[local] Open Scope N_scope.

(** [s.rsplit_once(p)]: cut at the last occurrence of [p]. *)
Fixpoint rsplit_once (p s : bytes) : option (bytes * bytes) :=
  match s with
  | [] => None
  | x :: s' =>
      match rsplit_once p s' with
      | Some (a, r) => Some (x :: a, r)
      | None => match strip_prefix p s with Some r => Some ([], r) | None => None end
      end
  end.

Definition to_upper (b : byte) : byte :=
  if in_range 97 122 b then of_N (Byte.to_N b - 32) else b.

(** [req_header n] is the value of header [n] when it is there and is text. *)
Record Request := {
  req_method : bytes;
  req_header : bytes → option bytes;
  req_query : option bytes;
  req_body : bytes }.

(** [StatusCode::from_u16(n).unwrap_or(INTERNAL_SERVER_ERROR)]. *)
Definition status_of (n : N) : N := if (100 <=? n) && (n <? 1000) then n else 500.

(** [axum::body::to_bytes(body, limit)]. *)
Definition to_bytes (limit : N) (body : reads) : result error bytes :=
  match reads_data body with
  | (d, Ok _) => if len d <=? limit then Ok d else Err (Foreign (b! "length limit exceeded"))
  | (_, Err e) => Err e
  end.

Definition body_limit : N := 1024 * 1024.

(** What is sent: a text, the reads of a stored object, or the output of a spawned
    future of type [T]. *)
Inductive content {T : Type} :=
| Text (b : bytes)
| Object (r : reads)
| Spawned (t : T).
Arguments content : clear implicits.

Record Response {T : Type} := {
  http_status : N;
  http_type : option bytes;
  http_no_cache : bool;
  http_content : content T }.
Arguments Response : clear implicits.

Definition plain_response {T} (status : N) (text : bytes) : Response T :=
  {| http_status := status; http_type := Some (b! "text/plain; charset=utf-8");
     http_no_cache := false; http_content := Text text |}.

Definition status_response {T} (status : N) : Response T :=
  {| http_status := status_of status; http_type := None; http_no_cache := false;
     http_content := Text [] |}.

Definition not_git_url {T} : Response T := plain_response 400 (b! "Path doesn't look like a git URL").

(** ** LFS *)

Section lfs.
Context {T RepoId : Type} {L : LfsStore RepoId} {lfs_access : LfsAccess} {lfs_env : LfsEnv}.
Context {transport : Transport} (repo_id : RepoId).

Definition lfs_base_url (req : Request) (repo_prefix : bytes) : bytes :=
  default (b! "http") (req_header req (b! "x-forwarded-proto")) ++ b! "://" ++
  default (b! "localhost") (req_header req (b! "host")) ++ b! "/" ++ repo_prefix ++
  b! ".git/info/lfs".

Definition lfs_batch_response (req : Request) (base : bytes) (s : lfs_store) : Response T * lfs_store :=
  match to_bytes body_limit (reads_of (req_body req)) with
  | Err _ => (plain_response 400 (b! "failed to read body"), s)
  | Ok body =>
      let '((status, json), s) := handle_batch repo_id base body s in
      ({| http_status := status_of status; http_type := Some (b! "application/vnd.git-lfs+json");
          http_no_cache := false; http_content := Text json |}, s)
  end.

Definition lfs_download_response (oid_hex : bytes) (s : lfs_store) : Response T * lfs_store :=
  let '((status, reader_opt), s) := handle_download repo_id oid_hex s in
  match reader_opt with
  | Some r => ({| http_status := status_of status; http_type := None;
                  http_no_cache := false; http_content := Object r |}, s)
  | None => (status_response status, s)
  end.

(** The declared size: [Content-Length], or 0 when there is none. *)
Definition content_length (req : Request) : N :=
  default 0 (req_header req (b! "content-length") ≫= parse_u64).

Definition lfs_upload_response (req : Request) (oid_hex : bytes) (s : lfs_store) :
    Response T * lfs_store :=
  let '(status, s) :=
    handle_upload repo_id oid_hex (content_length req) (reads_of (req_body req)) s in
  (status_response status, s).

Definition lfs_verify_response (req : Request) (s : lfs_store) : Response T * lfs_store :=
  match to_bytes body_limit (reads_of (req_body req)) with
  | Err _ => (plain_response 400 (b! "failed to read body"), s)
  | Ok body =>
      match verify_from_slice body with
      | Err _ => (plain_response 400 (b! "invalid verify body"), s)
      | Ok vb =>
          let '(status, s) := handle_verify repo_id (bro_oid vb) (bro_size vb) s in
          (status_response status, s)
      end
  end.

Definition serve_lfs (path : bytes) (req : Request) (s : lfs_store) : Response T * lfs_store :=
  match rsplit_once (b! ".git/") path with
  | None => (not_git_url, s)
  | Some (repo_prefix, service_path) =>
      match strip_prefix (b! "info/lfs/") service_path with
      | None => (plain_response 404 (b! "Not an LFS path"), s)
      | Some lfs_path =>
          let base := lfs_base_url req repo_prefix in
          let method := to_upper <$> req_method req in
          if decide (method = b! "POST" ∧ lfs_path = b! "objects/batch") then
            lfs_batch_response req base s
          else
            match decide (method = b! "GET"), strip_prefix (b! "objects/") lfs_path with
            | left _, Some oid_hex => lfs_download_response oid_hex s
            | _, rest =>
                match decide (method = b! "PUT"), rest with
                | left _, Some oid_hex => lfs_upload_response req oid_hex s
                | _, _ =>
                    if decide (method = b! "POST" ∧ lfs_path = b! "objects/verify") then
                      lfs_verify_response req s
                    else (status_response 501, s)
                end
            end
      end
  end.
End lfs.

(** ** Git, and the whole server *)

Section server.
Context `{StorageBackend} {access : RepoAccess} {transport : Transport}.
Context {L : LfsStore RepoId} {lfs_access : LfsAccess} {lfs_env : LfsEnv}.

(** [impl IntoResponse for GitResponse]. *)
Definition into_response (r : GitResponse) : Response task :=
  {| http_status := status_of (status_code r); http_type := content_type r; http_no_cache := true;
     http_content := match reader r with
                     | Some t => Spawned t
                     | None => Text (default [] (resp_body r))
                     end |}.

(** [None] when the handler panicked. *)
Definition serve_with_backend (path : bytes) (limits : ProtocolLimits) (req : Request) (s : store) :
    option (Response task) * store :=
  let git_protocol := default (b! "version=1") (req_header req (b! "git-protocol")) in
  let content_type := default [] (req_header req (b! "content-type")) in
  let query_string := default [] (req_query req) in
  match rsplit_once (b! ".git/") path with
  | None => (Some not_git_url, s)
  | Some (_, service_path) =>
      let serve := if decide (git_protocol = b! "version=2") then serve_git_protocol_2
                   else serve_git_protocol_1 in
      let '(o, s) := returned (serve service_path query_string content_type limits (req_body req)) s in
      (into_response <$> o, s)
  end.

Definition serve_with_backends (path : bytes) (limits : ProtocolLimits) (req : Request)
    (x : store * lfs_store) : option (Response task) * (store * lfs_store) :=
  let '(s, l) := x in
  match rsplit_once (b! ".git/") path with
  | None => (Some not_git_url, (s, l))
  | Some (_, service_path) =>
      if starts_with (b! "info/lfs/") service_path then
        let '(r, l) := serve_lfs ra_repo_id path req l in (Some r, (s, l))
      else
        let '(r, s) := serve_with_backend path limits req s in (r, (s, l))
  end.
End server.

(** ** What a request can change *)

Section lfs_safety.
Context {T RepoId : Type} {L : LfsStore RepoId} {lfs_access : LfsAccess} {lfs_env : LfsEnv}.
Context {transport : Transport} {digest : Sha256} {lfs_laws : LfsLaws L}.

(** An accepted upload of [o]: a PUT to its path, authorised, with a body that arrives
    whole, has the declared length and hashes to [o]; [b] is that body. *)
Definition uploads (path : bytes) (req : Request) (o : LfsOid) (b : bytes) : Prop :=
  to_upper <$> req_method req = b! "PUT" ∧
  (∃ prefix oid_hex, rsplit_once (b! ".git/") path = Some (prefix, b! "info/lfs/objects/" ++ oid_hex) ∧
                     lfs_from_str (b! "sha256:" ++ oid_hex) = Ok o) ∧
  authorize_lfs Upload None = Ok () ∧
  reads_data (reads_of (req_body req)) = (b, Ok ()) ∧
  len b = content_length req ∧ sha256 b = o.

Lemma serve_lfs_effect repo_id path req s (resp : Response T) s' :
  serve_lfs repo_id path req s = (resp, s') →
  ∀ r o, lfs_object r o s' = lfs_object r o s ∨
         ∃ b, uploads path req o b ∧ http_status resp = 200 ∧ lfs_object r o s' = Some b.
Proof.
  unfold serve_lfs. destruct (rsplit_once _ path) as [[prefix sp]|] eqn:Hsp; [|intros [= <- <-]; by left].
  destruct (strip_prefix _ sp) as [lp|] eqn:Hlp; [|intros [= <- <-]; by left].
  apply strip_prefix_Some in Hlp as ->.
  case_decide.
  { unfold lfs_batch_response. destruct (to_bytes _ _); [|intros [= <- <-]; by left].
    destruct (handle_batch _ _ _ _) as [[st json] s1] eqn:Hb. intros [= <- <-] r o. left.
    unfold handle_batch in Hb. destruct (request_from_slice _); [|by simplify_eq].
    destruct (authorize_lfs _ _); [|by simplify_eq].
    destruct (lfs_open _ s) as [[repo|] s2] eqn:Ho;
      pose proof (pres_same_objects _ _ _ _ (lfs_open_keeps _) Ho) as E1; [|by simplify_eq].
    destruct (batch_objects _ _ _ _ s2) as [objs s3] eqn:Hbs.
    apply batch_objects_spec in Hbs as [_ E2]. rewrite <- (E1 r o), <- (E2 r o).
    by destruct (response_to_string _); simplify_eq. }
  destruct (decide (_ = b! "GET")) as [Hg|Hg], (strip_prefix (b! "objects/") lp) as [hex|] eqn:Hhex.
  { unfold lfs_download_response. destruct (handle_download _ _ _) as [[st out] s1] eqn:Hd.
    apply handle_download_spec in Hd as [E _]. intros Heq r o. left. rewrite <- (E r o).
    by destruct out; simplify_eq. }
  all: destruct (decide (_ = b! "PUT")) as [Hput|Hput].
  all: try (case_decide; [unfold lfs_verify_response|by intros [= <- <-]; left]).
  all: try (destruct (to_bytes _ _); [|by intros [= <- <-]; left];
            destruct (verify_from_slice _); [|by intros [= <- <-]; left];
            destruct (handle_verify _ _ _ _) as [st s1] eqn:Hv; apply handle_verify_spec in Hv as [E _];
            intros [= <- <-] r o; left; apply E).
  apply strip_prefix_Some in Hhex as ->. unfold lfs_upload_response.
  destruct (handle_upload _ _ _ _ _) as [st s1] eqn:Hu. intros [= <- <-] r o.
  destruct (handle_upload_stores _ _ _ _ _ _ _ Hu r o) as [?|(-> & Ha & Ho & b & Hd & Hl & Hh & Hs)];
    [by left|].
  right. exists b. split; [|done]. split; [done|]. split; [|done]. exists prefix, hex. by rewrite Hsp.
Qed.

End lfs_safety.

Section safety.
Context `{RefsLaws} {access : RepoAccess} {transport : Transport}.
Context {L : LfsStore RepoId} {lfs_access : LfsAccess} {lfs_env : LfsEnv}.
Context {digest : Sha256} {lfs_laws : LfsLaws L}.

(** (C4) What one HTTP request can change, whatever its method, path, headers and body:
    under [info/lfs/] the git store is untouched and an LFS object changes only by an
    authorised PUT whose body has the declared length and the digest named in the path,
    which is then what is stored, so every object keeps the digest it is named by; under
    any other path the LFS store is untouched, and unless the path is
    [git-receive-pack] so are the refs of every repository, also by the future that
    streams the response. *)
Theorem server_request_effects path limits req s l resp s' l' :
  serve_with_backends path limits req (s, l) = (resp, (s', l')) →
  (content_addressed l → content_addressed l') ∧
  (∀ prefix sp, rsplit_once (b! ".git/") path = Some (prefix, sp) →
     (starts_with (b! "info/lfs/") sp = true →
        s' = s ∧
        ∀ r o, lfs_object r o l' = lfs_object r o l ∨
               ∃ b, uploads path req o b ∧ lfs_object r o l' = Some b) ∧
     (starts_with (b! "info/lfs/") sp = false →
        l' = l ∧
        (sp ≠ b! "git-receive-pack" →
         ∀ r, refs_view r s' = refs_view r s ∧
              ∀ t w, http_content <$> resp = Some (Spawned t) →
                     refs_view r (t (s', w)).1 = refs_view r s))).
Proof.
  unfold serve_with_backends. destruct (rsplit_once _ path) as [[prefix sp]|] eqn:Hsp;
    [|intros [= <- <- <-]; split; [done|by intros]].
  destruct (starts_with _ sp) eqn:Hlfs.
  - destruct (serve_lfs _ path req l) as [r1 l1] eqn:Hl. intros [= <- <- <-].
    pose proof (serve_lfs_effect _ _ _ _ _ _ Hl) as He. split.
    { intros Hc r o b Hb. destruct (He r o) as [E|(b' & Hu & _ & E)].
      - apply (Hc r o). by rewrite <- E.
      - assert (b' = b) as -> by congruence. by destruct Hu as (_ & _ & _ & _ & _ & ?). }
    intros ? ? [= <- <-]. split; [|congruence]. intros _. split; [done|].
    intros r o. destruct (He r o) as [?|(b & ? & _ & ?)]; eauto.
  - destruct (serve_with_backend path limits req s) as [r1 s1] eqn:Hg. intros [= <- <- <-].
    split; [done|]. intros ? ? [= <- <-]. split; [congruence|]. intros _. split; [done|].
    intros Hp r. unfold serve_with_backend in Hg. rewrite Hsp in Hg.
    set (serve := if decide _ then _ else _) in Hg.
    destruct (returned _ s) as [o s2] eqn:Hr. injection Hg as <- <-.
    assert (refs_view r s2 = refs_view r s) as Es.
    { apply (returned_keeps (refs_view r)) in Hr; [done|]. unfold serve.
      case_decide; auto using serve_git_protocol_1_keeps, serve_git_protocol_2_keeps. }
    split; [done|]. intros t w Ht. destruct o as [g|]; [|done]. simpl in Ht.
    injection Ht as Ht. destruct (reader g) as [t'|] eqn:Hrd; [|done]. injection Ht as ->.
    rewrite <- Es. revert Hr. unfold serve. case_decide; intros Hr;
      [apply v2_reader with (r := r) in Hr|apply v1_reader with (r := r) in Hr]; auto.
Qed.
End safety.

(** ** An object's life over HTTP *)

Lemma rsplit_once_None c p s : c ∉ s → rsplit_once (c :: p) s = None.
Proof.
  induction s as [|x s IH]; intros Hc; [done|]. simpl.
  rewrite IH by set_solver. rewrite decide_False by set_solver. done.
Qed.

Lemma rsplit_once_app p pre s r :
  rsplit_once p s = Some ([], r) → rsplit_once p (pre ++ s) = Some (pre, r).
Proof. intros Hs. induction pre as [|x pre IH]; simpl; [done|]. by rewrite IH. Qed.

(** The URL path of an object in a repository served under [prefix]. *)
Definition object_url (prefix : bytes) (oid : LfsOid) : bytes :=
  prefix ++ b! ".git/info/lfs/objects/" ++ to_hex oid.

Lemma object_url_routes prefix oid :
  rsplit_once (b! ".git/") (object_url prefix oid)
    = Some (prefix, b! "info/lfs/" ++ b! "objects/" ++ to_hex oid).
Proof.
  apply rsplit_once_app.
  assert (rsplit_once (b! ".git/") (to_hex oid) = None) as Hn
    by (apply rsplit_once_None; by apply to_hex_no).
  revert Hn. generalize (to_hex oid). intros h Hn. cbn -[decide] in *. by rewrite Hn.
Qed.

Lemma object_routes_hex oid : lfs_from_str (b! "sha256:" ++ to_hex oid) = Ok oid.
Proof. apply lfs_from_str_display. Qed.

Section lifecycle.
Context {T : Type} {lfs_access : LfsAccess} {lfs_env : LfsEnv} {transport : Transport}.
Context {fs_env : FsEnv} {fs_laws : FsEnvLaws} {digest : Sha256}.

(** The system does what it is told, and streams arrive whole. *)
Class Healthy : Prop := {
  healthy_fs s op : fs_fault s op = None;
  healthy_files b : reads_data (file_reads b) = (b, Ok ());
}.

Lemma serve_lfs_get id prefix oid req s :
  to_upper <$> req_method req = b! "GET" →
  serve_lfs (T := T) (L := FsLfs) id (object_url prefix oid) req s =
  lfs_download_response (L := FsLfs) id (to_hex oid) s.
Proof.
  intros Hm. unfold serve_lfs. rewrite object_url_routes, strip_prefix_app, Hm.
  rewrite decide_False by (by intros []). by rewrite strip_prefix_app.
Qed.

Lemma serve_lfs_put id prefix oid req s :
  to_upper <$> req_method req = b! "PUT" →
  serve_lfs (T := T) (L := FsLfs) id (object_url prefix oid) req s =
  lfs_upload_response (L := FsLfs) id req (to_hex oid) s.
Proof.
  intros Hm. unfold serve_lfs. rewrite object_url_routes, strip_prefix_app, Hm.
  rewrite decide_False by (by intros []). by rewrite strip_prefix_app.
Qed.

Lemma serve_lfs_verify id prefix req s :
  to_upper <$> req_method req = b! "POST" →
  serve_lfs (T := T) (L := FsLfs) id (prefix ++ b! ".git/info/lfs/objects/verify") req s =
  lfs_verify_response (L := FsLfs) id req s.
Proof.
  intros Hm. unfold serve_lfs.
  rewrite (rsplit_once_app _ prefix _ (b! "info/lfs/objects/verify")) by done.
  cbn [strip_prefix String.list_byte_of_string]. by rewrite Hm.
Qed.

(** The declared size of a request that says how long its body is. *)
Lemma content_length_decimal req n :
  req_header req (b! "content-length") = Some (decimal n) → n ≤ u64_max → content_length req = n.
Proof.
  intros Hh Hn. unfold content_length. rewrite Hh. simpl. unfold parse_u64.
  by rewrite from_str_radix_decimal.
Qed.

(** (C34) Over HTTP, on the filesystem store: content sent by an authorised PUT to the
    URL of its digest, with its length, is answered 200 and stored under that digest,
    nothing else changing; a GET of the same URL then delivers exactly that content, a
    verify request for its digest and size is answered 200, and a batch download request
    is answered with a link to that very URL on the server's own host. *)
Theorem lfs_object_lifecycle (id : path) (prefix b : bytes) (s : files) (put get ver : Request)
    (vb : bytes) (size : N) :
  Healthy → authorize_lfs Upload None = Ok () →
  let repo := {| root := id ++ [b! "lfs"; b! "objects"] |} in
  let p := object_path repo (sha256 b) in
  s !! p = None →
  to_upper <$> req_method put = b! "PUT" →
  req_header put (b! "content-length") = Some (decimal (len b)) → len b ≤ u64_max →
  reads_data (reads_of (req_body put)) = (b, Ok ()) →
  to_upper <$> req_method get = b! "GET" →
  to_upper <$> req_method ver = b! "POST" →
  to_bytes body_limit (reads_of (req_body ver)) = Ok vb →
  verify_from_slice vb = Ok {| bro_oid := sha256 b; bro_size := len b |} →
  let s' := <[p := b]> s in
  serve_lfs (T := T) (L := FsLfs) id (object_url prefix (sha256 b)) put s = (status_response 200, s') ∧
  (∃ rd, serve_lfs (T := T) (L := FsLfs) id (object_url prefix (sha256 b)) get s' =
           ({| http_status := 200; http_type := None; http_no_cache := false;
               http_content := Object rd |}, s') ∧ reads_data rd = (b, Ok ())) ∧
  serve_lfs (T := T) (L := FsLfs) id (prefix ++ b! ".git/info/lfs/objects/verify") ver s' =
    (status_response 200, s') ∧
  batch_object (H := FsLfs) Download repo (lfs_base_url get prefix)
      {| bro_oid := sha256 b; bro_size := size |} s' =
    (object_answer {| bro_oid := sha256 b; bro_size := size |}
       (Some {| boa_download := Some {|
                  bad_href := default (b! "http") (req_header get (b! "x-forwarded-proto")) ++ b! "://" ++
                              default (b! "localhost") (req_header get (b! "host")) ++ b! "/" ++
                              object_url prefix (sha256 b);
                  bad_header := ∅; bad_expires_in := None |};
                boa_upload := None; boa_verify := None |}) None, s').
Proof.
  intros Hh Ha repo p Hp Hput Hcl Hlen Hbody Hget Hver Hvb Hvs s'.
  assert (fs_stat repo (sha256 b) s' = (Ok (Some (len b)), s')) as Hst.
  { unfold fs_stat, metadata. rewrite healthy_fs. change (object_path repo (sha256 b)) with p.
    assert (s' !! p = Some b) as -> by apply lookup_insert_eq. done. }
  assert (s' !! p = Some b) as Hs' by apply lookup_insert_eq.
  assert (∀ x : files, @lfs_open _ FsLfs id x = (Ok repo, x)) as Hop by done.
  split; [|split; [|split]].
  - rewrite serve_lfs_put by done. unfold lfs_upload_response, handle_upload.
    rewrite Ha, object_routes_hex, Hop. change (@lfs_write _ FsLfs) with fs_write.
    rewrite (content_length_decimal _ _ Hcl Hlen), (fs_write_correct repo _ _ _ _ healthy_fs).
    change (object_path repo (sha256 b)) with p. rewrite Hp, Hbody.
    by rewrite !decide_False by tauto.
  - exists (file_reads b). split; [|apply healthy_files]. rewrite serve_lfs_get by done.
    unfold lfs_download_response, handle_download. rewrite object_routes_hex, Hop.
    change (@lfs_stat _ FsLfs) with fs_stat. rewrite Hst. change (@lfs_read _ FsLfs) with fs_read.
    unfold fs_read. rewrite healthy_fs. change (object_path repo (sha256 b)) with p. by rewrite Hs'.
  - rewrite serve_lfs_verify by done. unfold lfs_verify_response. rewrite Hvb, Hvs.
    unfold handle_verify. rewrite Hop. change (@lfs_stat _ FsLfs) with fs_stat. cbn [bro_oid bro_size].
    rewrite Hst. by rewrite N.eqb_refl.
  - unfold batch_object. change (@lfs_stat _ FsLfs) with fs_stat. cbn [bro_oid bro_size].
    rewrite Hst. change (@lfs_download_action _ FsLfs repo (sha256 b) (len b) s') with
      (Ok (E := error) Proxy, s'). unfold transfer_action_to_detail, lfs_base_url, object_url.
    do 6 f_equal. by rewrite <- !app_assoc.
Qed.
End lifecycle.
