(* ===== verification/Interleave.v ===== *)
(** * Requests that interleave

    A server answers many clients at once.  A handler ends when it has its response; the
    future that streams the response, which for an accepted push also updates the refs, runs
    later, after whatever other requests did in between.  Handlers, futures and SSH sessions
    are the steps of the server here, in any order. *)

From stdpp Require Import base gmap list sorting strings relations.
From Stdlib Require Import Strings.Byte.
From S2P Require Import Prelude Bytes Gix Proto Types Handlers Sigverify Auth Serve.
Open Scope N_scope.

Section interleave.
Context `{StorageBackend}.

(** A request: the forge that answers for it, how it came, and what it says. *)
Record request := {
  req_access : RepoAccess;
  req_transport : Transport;
  req_limits : ProtocolLimits;
  req_body : bytes }.

(** The store, the futures that are still to run with their requests, and the requests
    taken so far. *)
Record server := { stored : store; running : list (request * task); taken : list request }.

(** The two entry points for HTTP, for any forge and request. *)
Definition http_handler (access : RepoAccess) (transport : Transport) (version2 : bool)
    (path query ctype : bytes) (limits : ProtocolLimits) (body : bytes) : HM GitResponse :=
  if version2 then serve_git_protocol_2 path query ctype limits body else serve_git_protocol_1 path query ctype limits body.

Definition handled (q : request) (version2 : bool) (path query ctype : bytes) : HM GitResponse :=
  http_handler (req_access q) (req_transport q) version2 path query ctype (req_limits q) (req_body q).

Definition received (q : request) : SM (result error ()) :=
  serve_receive_pack (access := req_access q) (transport := req_transport q) (req_limits q) (req_body q).

Inductive serves (x : server) : server → Prop :=
| serves_request q version2 path query ctype resp s :
    returned (handled q version2 path query ctype) (stored x) = (resp, s) →
    serves x {| stored := s; running := running x ++ (pair q <$> option_list (resp ≫= reader)); taken := taken x ++ [q] |}
| serves_future before q t after w s w' :
    running x = before ++ (q, t) :: after → t (stored x, w) = (s, w') →
    serves x {| stored := s; running := before ++ after; taken := taken x |}
| serves_push q w o s w' :
    returned (received q) (stored x, w) = (o, (s, w')) →
    serves x {| stored := s; running := running x; taken := taken x ++ [q] |}
| serves_fetch q version w o s w' :
    serve_upload_pack (access := req_access q) (transport := req_transport q) version (req_limits q) (req_body q) (stored x, w)
      = (o, (s, w')) →
    serves x {| stored := s; running := running x; taken := taken x ++ [q] |}.

Definition idle (s : store) : server := {| stored := s; running := []; taken := [] |}.
End interleave.

(** ** What the server does to refs *)

Section history.
Context `{RefsLaws}.

(** The forge of the request accepted these updates of it for the repository. *)
Definition judged (r : Repo) (p : request * list RefUpdate) : Prop :=
  ∃ repo, accepted (access := req_access p.1) (req_limits p.1) (req_body p.1) p.2 repo ∧
    repo_tag r = repo_tag repo.

(** The push of this request, accepted, or nothing. *)
Definition pushed (q : request) (r : Repo) (m m' : RefsView) : Prop :=
  m' = m ∨ ∃ us, judged r (q, us) ∧ ref_effect us m m'.

Definition sound_task (p : request * task) : Prop :=
  ∀ r s w, pushed p.1 r (refs_view r s) (refs_view r (p.2 (s, w)).1).

Lemma kept_sound q (resp : GitResponse) t :
  (∀ r, response_keeps r resp) → reader resp = Some t → sound_task (q, t).
Proof. intros Hk Ht r s w. left. by apply Hk. Qed.

Lemma push_sound q s resp s1 t :
  returned (recv_pack_post (access := req_access q) (transport := req_transport q) (req_limits q) (req_body q)) s = (Some resp, s1) →
  reader resp = Some t → sound_task (q, t).
Proof.
  intros Hh Ht r s' w. cbn [fst snd]. destruct (t (s', w)) as [s2 w2] eqn:E.
  destruct (http_task_refs _ _ _ _ _ _ _ _ _ _ Hh Ht E r) as [?|(us & repo & ? & ? & ?)]; [by left|right].
  exists us. split; [|done]. by exists repo.
Qed.

(** A handler keeps the refs, and its future makes at most the push of its request. *)
Lemma handler_keeps q version2 path query ctype s resp s1 r :
  returned (handled q version2 path query ctype) s = (resp, s1) → refs_view r s1 = refs_view r s.
Proof.
  intros Hr. unfold handled, http_handler in Hr.
  destruct version2; apply (returned_keeps (refs_view r)) in Hr; auto using serve_git_protocol_1_keeps, serve_git_protocol_2_keeps.
Qed.

Lemma handler_task q version2 path query ctype s resp s1 t :
  returned (handled q version2 path query ctype) s = (Some resp, s1) → reader resp = Some t → sound_task (q, t).
Proof.
  unfold handled. intros Hr Ht. destruct (decide (path = b! "git-receive-pack")) as [->|Hp].
  - set (a := req_access q) in *. set (tr := req_transport q) in *.
    assert (returned (if decide (ctype ≠ receive_request_type) then mret (bad_content_type None receive_request_type)
                      else recv_pack_post (access := a) (transport := tr) (req_limits q) (req_body q)) s = (Some resp, s1)) as Hr'.
    { revert Hr. unfold http_handler, serve_git_protocol_1, serve_git_protocol_2. by destruct version2. }
    revert Hr'. case_decide; [by intros [= <- <-]|]. intros Hr'. by eapply push_sound.
  - apply kept_sound with resp; [|done]. intros r. unfold http_handler in Hr.
    destruct version2; [apply v2_reader with (r := r) in Hr|apply v1_reader with (r := r) in Hr]; auto.
Qed.

(** A step takes at most one push, and takes it from a request that is not used again. *)
Record sound_step (x y : server) (r : Repo) (q : option request) : Prop := {
  step_refs : match q with
              | None => refs_view r (stored y) = refs_view r (stored x)
              | Some q => ∃ us, judged r (q, us) ∧ ref_effect us (refs_view r (stored x)) (refs_view r (stored y)) end;
  step_taken l : l ++ (running x).*1 ⊆+ taken x → (l ++ option_list q) ++ (running y).*1 ⊆+ taken y }.

Lemma serves_sound x y :
  serves x y → Forall sound_task (running x) → Forall sound_task (running y) ∧ ∀ r, ∃ q, sound_step x y r q.
Proof.
  intros Hs Hx. destruct Hs as [q v path query ct resp s Hr|before q t after w s w' Hrun Ht
    |q w o s w' Hr|q version w o s w' Hr].
  - split; cbn [stored running taken].
    + apply Forall_app. split; [done|]. destruct (resp ≫= reader) as [t|] eqn:Et; [|by constructor].
      destruct resp as [resp|]; [|done]. constructor; [by eapply handler_task|constructor].
    + intros r. exists None. split; cbn [stored running taken option_list]; [by eapply handler_keeps|].
      intros l Hl. rewrite app_nil_r, fmap_app, app_assoc. apply submseteq_app; [done|].
      by destruct (resp ≫= reader); cbn; [|apply submseteq_nil_l].
  - rewrite Hrun in Hx. apply Forall_app in Hx as [Hb [Ht' Ha]%Forall_cons]. split; [by apply Forall_app|].
    intros r. specialize (Ht' r (stored x) w). cbn [fst snd] in Ht'. rewrite Ht in Ht'.
    assert (∀ l, l ++ (running x).*1 ≡ₚ (l ++ [q]) ++ (before ++ after).*1) as Hperm.
    { intros l. rewrite Hrun, !fmap_app, fmap_cons, <- app_assoc. cbn [fst]. apply Permutation_app_head.
      by rewrite <- Permutation_middle. }
    destruct Ht' as [Hk|Hp]; [exists None|exists (Some q)]; (split; [done|]); intros l; rewrite Hperm; cbn [running taken option_list];
      [|done]. intros Hl. rewrite app_nil_r. etrans; [|exact Hl]. rewrite <- app_assoc. by apply submseteq_skips_l, submseteq_cons.
  - split; [done|]. intros r. cbn [stored running taken].
    destruct (ssh_push_refs _ _ _ _ _ _ _ Hr r) as [?|(us & repo & ? & ? & ?)]; [exists None|exists (Some q)];
      (split; cbn [stored running taken option_list]).
    + done.
    + intros l Hl. rewrite app_nil_r. etrans; [exact Hl|]. apply submseteq_inserts_r. done.
    + exists us. split; [|done]. by exists repo.
    + intros l Hl. rewrite (Permutation_app_comm (taken x)). rewrite (Permutation_app_comm l), <- app_assoc. by apply submseteq_skips_l.
  - split; [done|]. intros r. exists None. split; cbn [stored running taken option_list].
    + pose proof (upload_pack_keeps (access := req_access q) (transport := req_transport q) r version (req_limits q) (req_body q) (stored x) w) as Hk. by rewrite Hr in Hk.
    + intros l Hl. rewrite app_nil_r. etrans; [exact Hl|]. by apply submseteq_inserts_r.
Qed.
End history.

Section contract.
Context `{BackendLaws}.

(** (C6) However requests, their futures and SSH sessions interleave, the refs of a repository
    are the result of applying pushes one after the other, each by compare-and-swap to the
    refs that the ones before it left: pushes of requests that were taken, each accepted by
    the forge of its own request, at most one for each request, and none for a request whose
    future is still to run. *)
Theorem pushes_serialize s x :
  rtc serves (idle s) x →
  ∀ r, ∃ log : list (request * list RefUpdate),
    Forall (judged r) log ∧ log.*1 ++ (running x).*1 ⊆+ taken x ∧
    cas_updates (refs_view r s) (concat log.*2) = Some (refs_view r (stored x)).
Proof.
  intros Hs r.
  assert (Forall sound_task (running x) ∧ ∃ log : list (request * list RefUpdate),
    Forall (judged r) log ∧ log.*1 ++ (running x).*1 ⊆+ taken x ∧
    cas_updates (refs_view r s) (concat log.*2) = Some (refs_view r (stored x))) as [_ ?]; [|done].
  revert x Hs. apply (rtc_ind_r (R := serves)); [|intros x y _ Hxy [Hx (log & Hl & Hq & He)]].
  - split; [constructor|]. by exists [].
  - destruct (serves_sound _ _ Hxy Hx) as [Hy Hp]. split; [done|].
    destruct (Hp r) as [q [Hr Ht]]. specialize (Ht _ Hq). destruct q as [q|].
    + destruct Hr as (us & Hj & Hu). exists (log ++ [(q, us)]). rewrite !fmap_app. split_and!; [by apply Forall_app_2; [|constructor]|done|].
      rewrite concat_app, cas_updates_app, He. cbn. rewrite app_nil_r. by apply ref_effect_cas.
    + exists log. rewrite Hr. cbn [option_list] in Ht. rewrite app_nil_r in Ht. done.
Qed.
End contract.
