(* ===== verification/Interfere.v ===== *)
(** * Requests that interleave between storage calls

    A handler does not run in one piece: between any two of its calls of the storage trait
    other requests may have made theirs.  Here a request runs on a store that others share:
    before each call a burst of other requests' work happens, which changes refs only by
    pushes that those requests may make.  The shared store is itself a storage backend, so
    the handlers of [Serve] run on it as they are; it records the updates that the request
    asked for, and carries the proof of how the refs came to be. *)

From stdpp Require Import base gmap list sorting strings relations.
From Stdlib Require Import Strings.Byte.
From S2P Require Import Prelude Bytes Gix Proto Types Handlers Sigverify Auth Serve.
Open Scope N_scope.

Abbreviation refs := (gmap bytes ObjectId).

Section shared.
Context `{BackendLaws}.

(** The pushes that other requests may make. *)
Context (others : Repo → list RefUpdate → Prop).

(** The store when the request came. *)
Context (origin : store).

(** What others do in one go. *)
Record burst := {
  act : store → store;
  act_pushes r s : ∃ log, Forall (others r) log ∧ cas_updates (refs_view r s) (concat log) = Some (refs_view r (act s)) }.

(** A push by others, as a burst. *)
Lemma push_burst_pushes repo us (Hus : ∀ r, repo_tag r = repo_tag repo → others r us) r s :
  ∃ log, Forall (others r) log ∧ cas_updates (refs_view r s) (concat log) = Some (refs_view r (sb_update_refs repo us s).2).
Proof.
  destruct (sb_update_refs repo us s) as [y s'] eqn:E. cbn [snd].
  destruct (updated_by _ _ _ _ _ r E) as [->|[Ht He]]; [by exists []|]. exists [us].
  split; [auto|]. cbn. rewrite app_nil_r. by apply ref_effect_cas.
Qed.

Definition push_burst repo us (Hus : ∀ r, repo_tag r = repo_tag repo → others r us) : burst :=
  {| act := λ s, (sb_update_refs repo us s).2; act_pushes := push_burst_pushes repo us Hus |}.

(** How the refs of [r] came from [m] to [m']: by pushes of others, and by the updates
    [own] of this request, each of which was applied or not. *)
Inductive path (r : Repo) (m : refs) : list (list RefUpdate) → refs → Prop :=
| path_start : path r m [] m
| path_others own m1 m2 log :
    path r m own m1 → Forall (others r) log → cas_updates m1 (concat log) = Some m2 → path r m own m2
| path_own own m1 m2 us :
    path r m own m1 → m2 = m1 ∨ cas_updates m1 us = Some m2 → path r m (own ++ [us]) m2.

(** A store shared with others: the bursts to come, one for each call, and the non-empty
    updates that this request asked for so far, by repository. *)
Record shared := {
  cell : store;
  bursts : list burst;
  own : RepoTag → list (list RefUpdate);
  came r : path r (refs_view r origin) (own (repo_tag r)) (refs_view r cell) }.

Definition share (bs : list burst) : shared :=
  {| cell := origin; bursts := bs; own := λ _, []; came := λ r, path_start r _ |}.

Lemma came_burst (x : shared) (b : burst) r :
  path r (refs_view r origin) (own x (repo_tag r)) (refs_view r (act b (cell x))).
Proof. destruct (act_pushes b r (cell x)) as (log & Hl & Hc). eapply path_others; [apply came|done|done]. Qed.

(** The next burst happens. *)
Definition interfere (x : shared) : shared :=
  match bursts x with
  | [] => x
  | b :: bs => {| cell := act b (cell x); bursts := bs; own := own x; came := came_burst x b |}
  end.

Lemma came_kept (x : shared) (s : store) :
  (∀ r, refs_view r s = refs_view r (cell x)) → ∀ r, path r (refs_view r origin) (own x (repo_tag r)) (refs_view r s).
Proof. intros E r. rewrite E. apply came. Qed.

(** The store after a call that kept the refs. *)
Definition moved (x : shared) (s : store) (E : ∀ r, refs_view r s = refs_view r (cell x)) : shared :=
  {| cell := s; bursts := bursts x; own := own x; came := came_kept x s E |}.

Definition call {A : Type} (m : store → A * store) (E : ∀ r s, refs_view r (m s).2 = refs_view r s)
    (x : shared) : A * shared :=
  let x := interfere x in ((m (cell x)).1, moved x (m (cell x)).2 (λ r, E r (cell x))).

(** [update_refs] is recorded; with no updates it does nothing. *)
Definition asked (repo : Repo) (us : list RefUpdate) (own : RepoTag → list (list RefUpdate)) : RepoTag → list (list RefUpdate) :=
  λ t, if decide (us ≠ [] ∧ t = repo_tag repo) then own t ++ [us] else own t.

Lemma came_updated repo us (x : shared) r :
  path r (refs_view r origin) (asked repo us (own x) (repo_tag r)) (refs_view r (sb_update_refs repo us (cell x)).2).
Proof.
  destruct (sb_update_refs repo us (cell x)) as [y s] eqn:E. cbn [snd].
  pose proof (updated_by _ _ _ _ _ r E) as Hu. unfold asked. case_decide as Hd.
  - apply path_own with (refs_view r (cell x)); [apply came|]. destruct Hu as [?|[_ ?]]; [by left|right].
    by apply ref_effect_cas.
  - assert (refs_view r s = refs_view r (cell x)) as ->; [|apply came].
    destruct Hu as [?|[Ht He]]; [done|]. destruct us; [by apply ref_effect_nil|]. destruct Hd. by split.
Qed.

Definition shared_update (repo : Repo) (us : list RefUpdate) : ST shared () := fun x =>
  let x := interfere x in
  ((sb_update_refs repo us (cell x)).1,
   {| cell := (sb_update_refs repo us (cell x)).2; bursts := bursts x;
      own := asked repo us (own x); came := came_updated repo us x |}).

(** An ingested pack is kept with the proof that it may be rolled back. *)
Definition shared_pack (repo : Repo) (staged : PackFile) (s : store) : result error (option {p | ingested p}) :=
  match sb_ingest_pack repo staged s as y return sb_ingest_pack repo staged s = y → _ with
  | (Ok (Some p), s') => λ E, Ok (Some (exist _ p (ingest_gives repo staged s p s' E)))
  | (Ok None, _) => λ _, Ok None
  | (Err e, _) => λ _, Err e
  end eq_refl.

Definition shared_ingest (repo : Repo) (staged : PackFile) : ST shared (option {p | ingested p}) :=
  call (λ s, (shared_pack repo staged s, (sb_ingest_pack repo staged s).2)) (λ r s, ingest_refs repo staged s r).

Definition shared_rollback (p : {p | ingested p}) (x : shared) : shared :=
  (call (λ s, ((), sb_rollback_ingest (`p) s)) (λ r s, rollback_refs (`p) s r (proj2_sig p)) x).2.

(** What the request asked of [r] so far. *)
Definition asked_of (r : Repo) (x : shared) : list (list RefUpdate) := own x (repo_tag r).
Definition tag_of (r : Repo) : RepoTag := repo_tag r.

Lemma asked_of_tag r r' x : tag_of r = tag_of r' → asked_of r x = asked_of r' x.
Proof. unfold tag_of, asked_of. by intros ->. Qed.

Lemma interfere_own x : own (interfere x) = own x.
Proof. unfold interfere. by case_match. Qed.

Lemma asked_of_update r repo us x :
  asked_of r (shared_update repo us x).2 =
  if decide (us ≠ [] ∧ tag_of r = tag_of repo) then asked_of r x ++ [us] else asked_of r x.
Proof. unfold asked_of. cbn. unfold asked. by rewrite interfere_own. Qed.

Lemma asked_of_call {A : Type} (m : store → A * store) E r x : asked_of r (call m E x).2 = asked_of r x.
Proof. unfold asked_of. cbn. by rewrite interfere_own. Qed.

Lemma shared_update_asks r us x y x' :
  shared_update r us x = (y, x') →
  asked_of r x' = asked_of r x ∨ us ≠ [] ∧ asked_of r x' = asked_of r x ++ [us].
Proof.
  intros E. assert (x' = (shared_update r us x).2) as -> by by rewrite E.
  rewrite asked_of_update. case_decide as Hd; [right; tauto|by left].
Qed.

Lemma shared_update_frame r us x y x' r' :
  shared_update r us x = (y, x') → tag_of r' ≠ tag_of r → asked_of r' x' = asked_of r' x.
Proof.
  intros E Hr. assert (x' = (shared_update r us x).2) as -> by by rewrite E.
  rewrite asked_of_update. case_decide as Hd; [by destruct Hd|done].
Qed.

#[local] Instance shared_backend : StorageBackend := {|
  store := shared;
  RepoId := RepoId;
  Repo := Repo;
  IngestedPack := {p | ingested p};
  sb_open i := call (sb_open i) (λ r s, open_refs i s r);
  sb_list_refs p := call (sb_list_refs p) (λ r s, list_refs_refs p s r);
  sb_resolve_ref p n := call (sb_resolve_ref p n) (λ r s, resolve_ref_refs p n s r);
  sb_update_refs := shared_update;
  sb_init_repo i := call (sb_init_repo i) (λ r s, init_repo_refs i s r);
  sb_has_objects p os := call (sb_has_objects p os) (λ r s, has_objects_refs p os s r);
  sb_compute_push_kind p u := call (sb_compute_push_kind p u) (λ r s, push_kind_refs p u s r);
  sb_build_pack p want have opts := call (sb_build_pack p want have opts) (λ r s, build_pack_refs p want have opts s r);
  sb_ingest_pack := shared_ingest;
  sb_inspect_ingested p := call (sb_inspect_ingested (`p)) (λ r s, inspect_refs (`p) s r);
  sb_rollback_ingest := shared_rollback;
  sb_reachable_excluding p from excl cap :=
    call (sb_reachable_excluding p from excl cap) (λ r s, reachable_refs p from excl cap s r);
  sb_tree_diff p a b := call (sb_tree_diff p a b) (λ r s, tree_diff_refs p a b s r);
  sb_read_commit_info p o := call (sb_read_commit_info p o) (λ r s, read_commit_refs p o s r);
  sb_read_blob p o cap := call (sb_read_blob p o cap) (λ r s, read_blob_refs p o cap s r);
  sb_read_object_raw p o cap := call (sb_read_object_raw p o cap) (λ r s, read_raw_refs p o cap s r);
|}.

(** An observer of a repository sees the updates asked for it. *)
#[local] Instance shared_laws : RefsLaws (H0 := shared_backend) (RefsView := list (list RefUpdate)).
Proof.
  unshelve eapply (Build_RefsLaws _ shared_backend _ asked_of RepoTag tag_of repo_tag_dec asked_of_tag
    (λ us l l', us ≠ [] ∧ l' = l ++ [us]) _ _ _ (λ _, True)).
  1: exact shared_update_asks.
  1: by intros m m' [? _].
  1: exact shared_update_frame.
  1: done.
  all: intros; apply asked_of_call.
Defined.

(** A request that asks for at most one push: the pushes of others before it and after it. *)
Lemma path_once r m own m' :
  path r m own m' → (length own ≤ 1)%nat →
  ∃ before mine after, Forall (others r) (before ++ after) ∧ (mine = [] ∨ mine = own) ∧
    cas_updates m (concat (before ++ mine ++ after)) = Some m'.
Proof.
  induction 1 as [|own m1 m2 log _ IH Hl Hc|own m1 m2 us _ IH Hm]; intros Hlen.
  - exists [], [], []. split_and!; [constructor|by left|done].
  - destruct (IH Hlen) as (before & mine & after & Ho & Hmine & E).
    exists before, mine, (after ++ log). split_and!; [by rewrite app_assoc; apply Forall_app|done|].
    by rewrite !app_assoc, concat_app, cas_updates_app, <-app_assoc, E.
  - destruct own as [|]; [|rewrite length_app in Hlen; cbn in Hlen; lia].
    destruct IH as (before & mine & after & Ho & Hmine & E); [cbn; lia|].
    assert (mine = []) as -> by by destruct Hmine. cbn [app] in *. destruct Hm as [->|Hm].
    + exists (before ++ after), [], []. rewrite !app_nil_r. auto.
    + exists (before ++ after), [us], []. rewrite !app_nil_r. split_and!; [done|by right|].
      rewrite concat_app, cas_updates_app, E. cbn. by rewrite app_nil_r.
Qed.
End shared.

(** ** A push among others *)

Section pushing.
Context {hash : GixHash} {inner : StorageBackend} {laws : BackendLaws} (others : Repo → list RefUpdate → Prop) (origin : store).
Context {access : RepoAccess (H0 := shared_backend others origin)} {transport : Transport}.

(** The request [body] pushes, over HTTP (the handler, then the future that its response
    streams from) or over SSH, among others. *)
Inductive pushes (limits : ProtocolLimits) (body : bytes) (x : shared others origin) : shared others origin → Prop :=
| pushes_http resp x1 t w x2 w2 :
    returned (recv_pack_post (access := access) limits body) x = (Some resp, x1) → reader resp = Some t → t (x1, w) = (x2, w2) →
    pushes limits body x x2
| pushes_ssh w o x2 w2 :
    returned (serve_receive_pack (access := access) limits body) (x, w) = (o, (x2, w2)) → pushes limits body x x2.

(** The request asks each repository for at most one push, which the forge accepted. *)
Lemma pushes_ask limits body x x2 r :
  pushes limits body x x2 →
  asked_of others origin r x2 = asked_of others origin r x ∨
  ∃ us (repo : @Repo _ inner), accepted (access := access) limits body us repo ∧
    tag_of (H1 := laws) r = tag_of (H1 := laws) repo ∧ asked_of others origin r x2 = asked_of others origin r x ++ [us].
Proof.
  intros [resp x1 t w x2' w2 Hh Ht Hrun|w o x2' w2 Hrun].
  - destruct (http_push_refs (H1 := shared_laws others origin) _ _ _ _ _ _ _ _ _ Hh Ht Hrun r)
      as [?|(us & repo & ? & ? & [_ E])]; [by left|right].
    by exists us, repo.
  - destruct (ssh_push_refs (H1 := shared_laws others origin) _ _ _ _ _ _ _ Hrun r)
      as [?|(us & repo & ? & ? & [_ E])]; [by left|right].
    by exists us, repo.
Qed.

(** (C7) A push that runs while other requests change the refs between any two of its storage
    calls: at the end the refs of each repository are those that others' pushes made of it,
    with at most one push of this request in between, which the forge accepted and which was
    applied by compare-and-swap to the refs that it found. *)
Theorem push_among_others bs limits body x :
  pushes limits body (share others origin bs) x →
  ∀ r, ∃ before mine after, Forall (others r) (before ++ after) ∧
    (mine = [] ∨ ∃ us (repo : @Repo _ inner), mine = [us] ∧
       accepted (access := access) limits body us repo ∧ tag_of (H1 := laws) r = tag_of (H1 := laws) repo) ∧
    cas_updates (refs_view r origin) (concat (before ++ mine ++ after)) = Some (refs_view r (cell others origin x)).
Proof.
  intros Hp r. pose proof (came others origin x r) as Hpath. fold (asked_of others origin r x) in Hpath.
  destruct (pushes_ask _ _ _ _ r Hp) as [E|(us & repo & Hus & Htag & E)]; rewrite E in Hpath; cbn in Hpath.
  - apply path_once in Hpath as (before & mine & after & Ho & Hmine & ?); [|cbn; lia].
    exists before, mine, after. split_and!; [done|left; by destruct Hmine|done].
  - apply path_once in Hpath as (before & mine & after & Ho & Hmine & ?); [|cbn; lia].
    exists before, mine, after. split_and!; [done|destruct Hmine; [by left|right; eauto]|done].
Qed.
End pushing.
