(* ===== verification/Ssh.v ===== *)
(** * The SSH server ([servers/ssh.rs])

    The handler of a connection: what it remembers between the callbacks of [russh], the
    command it parses, whom it asks, and the session it starts.  [russh] itself (key
    exchange, signatures, channels) is not modelled: its callbacks are events. *)

From stdpp Require Import base gmap list sorting strings.
From Stdlib Require Import Strings.Byte NArith Lia.
From S2P Require Import Prelude Bytes Text Gix Proto Types Handlers Auth Serve.
Open Scope N_scope.

Inductive GitCommand := UploadPack | ReceivePack.

(** [s.trim_matches(c)] for an ASCII character. *)
Definition trim_matches (c : byte) (s : bytes) : bytes :=
  let s := strip_all (length s) (strip_prefix [c]) s in
  strip_all (length s) (strip_suffix [c]) s.

Definition git_command (cmd : bytes) : result error GitCommand :=
  if decide (cmd = b! "git-upload-pack") then Ok UploadPack
  else if decide (cmd = b! "git-receive-pack") then Ok ReceivePack
  else bail (b! "unsupported git command: " ++ cmd).

Definition parse_git_command (command : bytes) : result error (GitCommand * bytes) :=
  let command := trim command in
  match split_once x20 command with
  | (_, None) => bail (b! "invalid git command: " ++ command)
  | (cmd, Some rest) =>
      git_cmd ← git_command cmd;
      let repo_path := trim_matches x22 (trim_matches x27 rest) in
      Ok (git_cmd, default repo_path (strip_prefix (b! "/") repo_path))
  end.

(** [EXEC_TIMEOUT], in milliseconds. *)
Definition EXEC_TIMEOUT : N := 10000.

Section ssh.
Context `{StorageBackend} {transport : Transport}.
Variable PublicKey : Type.

Abbreviation ChannelId := N.

(** The handler's fields; the pending timeout is kept as the time at which it fires. *)
Record MizzleSshHandler := {
  user : option bytes;
  public_key : option PublicKey;
  exec_timeout : option N;
  git_protocol_version : N;
  channels : gset ChannelId }.

Definition new_client : MizzleSshHandler :=
  {| user := None; public_key := None; exec_timeout := None; git_protocol_version := 1; channels := ∅ |}.

(** What the handler does to the connection: refuse a command with a message on the error
    stream, exit status 1 and the end of the channel, or start a session on the channel. *)
Inductive action :=
| Refuse (channel_id : ChannelId) (msg : bytes)
| Start (channel_id : ChannelId) (cmd : GitCommand) (access : RepoAccess) (version : N)
| Disconnect (msg : bytes).

Definition auth_publickey (name : bytes) (key : PublicKey) (h : MizzleSshHandler) : MizzleSshHandler :=
  {| user := Some name; public_key := Some key; exec_timeout := exec_timeout h;
     git_protocol_version := git_protocol_version h; channels := channels h |}.

Definition channel_open_session (now : N) (channel : ChannelId) (h : MizzleSshHandler) : MizzleSshHandler :=
  {| user := user h; public_key := public_key h;
     exec_timeout := match exec_timeout h with None => Some (now + EXEC_TIMEOUT) | t => t end;
     git_protocol_version := git_protocol_version h; channels := {[channel]} ∪ channels h |}.

Definition env_request (name value : bytes) (h : MizzleSshHandler) : MizzleSshHandler :=
  if bool_decide (name = b! "GIT_PROTOCOL") && contains (b! "version=2") value
  then {| user := user h; public_key := public_key h; exec_timeout := exec_timeout h;
          git_protocol_version := 2; channels := channels h |}
  else h.

Definition cancel_timeout (h : MizzleSshHandler) : MizzleSshHandler :=
  {| user := user h; public_key := public_key h; exec_timeout := None;
     git_protocol_version := git_protocol_version h; channels := channels h |}.

Definition remove_channel (channel_id : ChannelId) (h : MizzleSshHandler) : MizzleSshHandler :=
  {| user := user h; public_key := public_key h; exec_timeout := exec_timeout h;
     git_protocol_version := git_protocol_version h; channels := channels h ∖ {[channel_id]} |}.

Definition denied (name path : bytes) : bytes :=
  b! "ERROR: permission denied for '" ++ name ++ b! "' on '" ++ path ++ b! "'" ++ [x0a].

(** [authorize] is the forge's answer at the time of the request. *)
Definition exec_request (authorize : bytes → PublicKey → bytes → option RepoAccess) (channel_id : ChannelId) (data : bytes) :
    ST MizzleSshHandler action := fun h =>
  let h := cancel_timeout h in
  let asked :=
    command_str ← from_utf8 data;
    '(cmd, repo_path) ← parse_git_command command_str;
    name ← ok_or (Msg (b! "no authenticated user")) (user h);
    key ← ok_or (Msg (b! "no public key stored")) (public_key h);
    Ok (cmd, name, repo_path, authorize name key repo_path) in
  match asked with
  | Err e => (Err e, h)
  | Ok (_, name, repo_path, None) => (Ok (Refuse channel_id (denied name repo_path)), h)
  | Ok (cmd, _, _, Some access) =>
      if decide (channel_id ∈ channels h)
      then (Ok (Start channel_id cmd access (git_protocol_version h)), remove_channel channel_id h)
      else (bail (b! "unknown channel " ++ decimal channel_id), h)
  end.

(** The started task: the session, and the exit status it sends before it closes the channel;
    [None] when the session panics. *)
Definition run_session (cmd : GitCommand) (access : RepoAccess) (version : N) (limits : ProtocolLimits) (body : bytes)
    (s : store * writer) : option (result error ()) * (store * writer) :=
  match cmd with
  | UploadPack => let '(r, s') := serve_upload_pack (access := access) version limits body s in (Some r, s')
  | ReceivePack => returned (serve_receive_pack (access := access) limits body) s
  end.

Definition exit_code (r : result error ()) : N := match r with Ok _ => 0 | Err _ => 1 end.

(** ** A connection *)

(** The callbacks of [russh], and the clock. *)
Inductive event :=
| EvAuth (name : bytes) (key : PublicKey)
| EvOpen (now : N) (channel : ChannelId)
| EvEnv (channel : ChannelId) (name value : bytes)
| EvExec (authorize : bytes → PublicKey → bytes → option RepoAccess) (channel : ChannelId) (data : bytes)
| EvClock (now : N).

(** One event: [None] ends the connection after the actions, on an error of the handler or
    at the deadline. *)
Definition handle (e : event) (h : MizzleSshHandler) : list action * option MizzleSshHandler :=
  match e with
  | EvAuth name key => ([], Some (auth_publickey name key h))
  | EvOpen now channel => ([], Some (channel_open_session now channel h))
  | EvEnv _ name value => ([], Some (env_request name value h))
  | EvExec authorize channel data =>
      match exec_request authorize channel data h with
      | (Ok a, h') => ([a], Some h')
      | (Err _, _) => ([], None)
      end
  | EvClock now =>
      match exec_timeout h with
      | Some deadline =>
          if deadline <=? now then ([Disconnect (b! "no git command received within deadline")], None) else ([], Some h)
      | None => ([], Some h)
      end
  end.

Fixpoint run (es : list event) (h : MizzleSshHandler) : list action * option MizzleSshHandler :=
  match es with
  | [] => ([], Some h)
  | e :: es' =>
      match handle e h with
      | (out, None) => (out, None)
      | (out, Some h') => let '(out', h'') := run es' h' in (out ++ out', h'')
      end
  end.
End ssh.

(** ** Commands *)

Definition command_name (c : GitCommand) : bytes :=
  match c with UploadPack => b! "git-upload-pack" | ReceivePack => b! "git-receive-pack" end.

(** The command a client sends for a path without quotes in it. *)
Definition command_text (c : GitCommand) (path : bytes) : bytes :=
  command_name c ++ [x20] ++ [x27] ++ path ++ [x27].

Lemma no_suffix_char c s : last s ≠ Some c → strip_suffix [c] s = None.
Proof.
  intros Hl. destruct (strip_suffix [c] s) as [r|] eqn:E; [|done]. apply strip_suffix_Some in E as ->. by rewrite last_snoc in Hl.
Qed.

Lemma no_prefix_char c s t : head s ≠ Some c → s ≠ [] → strip_prefix [c] (s ++ t) = None.
Proof. destruct s as [|b s]; intros Hh Hn; [done|]. cbn. rewrite decide_False; [done|]. by intros ->. Qed.

Lemma trim_matches_noop c s : s ≠ [] → head s ≠ Some c → last s ≠ Some c → trim_matches c s = s.
Proof.
  intros Hn Hh Hl. pose proof (no_prefix_char c s [] Hh Hn) as Hp. rewrite app_nil_r in Hp. unfold trim_matches.
  rewrite (strip_all_noop _ _ s Hp). by apply strip_all_noop, no_suffix_char.
Qed.

Lemma trim_matches_quoted c s : s ≠ [] → head s ≠ Some c → last s ≠ Some c → trim_matches c ([c] ++ s ++ [c]) = s.
Proof.
  intros Hn Hh Hl. unfold trim_matches.
  assert (strip_all (length ([c] ++ s ++ [c])) (strip_prefix [c]) ([c] ++ s ++ [c]) = s ++ [c]) as ->.
  { cbn [app length strip_all]. change (c :: s ++ [c]) with ([c] ++ (s ++ [c])). rewrite strip_prefix_app.
    by apply strip_all_noop, no_prefix_char. }
  rewrite length_app, Nat.add_comm. cbn [length Nat.add strip_all].
  assert (strip_suffix [c] (s ++ [c]) = Some s) as -> by by apply strip_suffix_Some. by apply strip_all_noop, no_suffix_char.
Qed.

(** The command of a client is read as the service it names and its path, without one leading
    slash: a second slash stays, and with it an absolute path. *)
Theorem parse_git_command_roundtrip c path :
  path ≠ [] → (∀ q, q = x27 ∨ q = x22 → head path ≠ Some q ∧ last path ≠ Some q) →
  parse_git_command (command_text c path) = Ok (c, default path (strip_prefix (b! "/") path)) ∧
  ∀ rest, path = b! "//" ++ rest → parse_git_command (command_text c path) = Ok (c, b! "/" ++ rest).
Proof.
  intros Hn Hq.
  assert (parse_git_command (command_text c path) = Ok (c, default path (strip_prefix (b! "/") path))) as E.
  { unfold parse_git_command.
    assert (trim (command_text c path) = command_text c path) as ->.
    { rewrite <- (app_nil_r (command_text c path)) at 1. apply trim_framed; [|done]. unfold command_text. split.
      - destruct c; eexists _, _; (split; [reflexivity|done]).
      - exists (command_name c ++ [x20] ++ [x27] ++ path), x27. by rewrite <- !app_assoc. }
    unfold command_text. assert (x20 ∉ command_name c) as Hs by (destruct c; by apply (bool_decide_eq_false _)).
    change (command_name c ++ [x20] ++ ?r) with (command_name c ++ x20 :: r). rewrite split_once_sep by done.
    assert (git_command (command_name c) = Ok c) as -> by by destruct c. cbn [mbind result_bind].
    rewrite trim_matches_quoted by (try done; apply Hq; by left). rewrite trim_matches_noop by (try done; apply Hq; by right). done. }
  split; [done|]. intros rest Hr. rewrite E. do 2 f_equal. rewrite Hr. change (b! "//" ++ rest) with (b! "/" ++ (b! "/" ++ rest)).
  by rewrite strip_prefix_app.
Qed.

(** ** Whom a connection serves *)

Section connections.
Context `{StorageBackend} {transport : Transport}.
Variable PublicKey : Type.
Implicit Types (es : list (event PublicKey)) (h : MizzleSshHandler PublicKey) (out : list action).

(** The last user and key that [russh] accepted. *)
Fixpoint last_auth es (acc : option (bytes * PublicKey)) : option (bytes * PublicKey) :=
  match es with
  | [] => acc
  | EvAuth _ name key :: es' => last_auth es' (Some (name, key))
  | _ :: es' => last_auth es' acc
  end.

(** Whether the client asked for protocol version 2. *)
Definition asks_v2 (e : event PublicKey) : bool :=
  match e with
  | EvEnv _ _ name value => bool_decide (name = b! "GIT_PROTOCOL") && contains (b! "version=2") value
  | _ => false
  end.

Definition version_of es : N := if existsb asks_v2 es then 2 else 1.

Fixpoint opens (c : N) es : nat :=
  match es with
  | [] => 0
  | EvOpen _ _ channel :: es' => (if decide (channel = c) then 1 else 0) + opens c es'
  | _ :: es' => opens c es'
  end.

Fixpoint starts (c : N) out : nat :=
  match out with
  | [] => 0
  | Start channel _ _ _ :: out' => (if decide (channel = c) then 1 else 0) + starts c out'
  | _ :: out' => starts c out'
  end.

Lemma last_auth_app es1 es2 acc : last_auth (es1 ++ es2) acc = last_auth es2 (last_auth es1 acc).
Proof. revert acc; induction es1 as [|[] es1 IH]; intros acc; cbn; auto. Qed.

Lemma opens_app c es1 es2 : opens c (es1 ++ es2) = (opens c es1 + opens c es2)%nat.
Proof. induction es1 as [|[] es1 IH]; cbn; lia. Qed.

Lemma starts_app c out1 out2 : starts c (out1 ++ out2) = (starts c out1 + starts c out2)%nat.
Proof. induction out1 as [|[] out1 IH]; cbn; lia. Qed.

(** What the handler remembers of the events so far. *)
Record remembers es out h : Prop := {
  rem_auth : last_auth es None = match user _ h, public_key _ h with Some u, Some k => Some (u, k) | _, _ => None end;
  rem_version : git_protocol_version _ h = version_of es;
  rem_channels c : (starts c out + (if decide (c ∈ channels _ h) then 1 else 0) ≤ opens c es)%nat }.

Lemma remembers_start : remembers [] [] (new_client PublicKey).
Proof. constructor; [done|done|]. intros c. cbn. rewrite decide_False by set_solver. lia. Qed.

(** What a command that is started was asked with. *)
Definition authorized es (channel : N) (cmd : GitCommand) (access : RepoAccess) (version : N) : Prop :=
  ∃ es1 es2 authorize data path name key,
    es = es1 ++ EvExec _ authorize channel data :: es2 ∧ parse_git_command data = Ok (cmd, path) ∧
    last_auth es1 None = Some (name, key) ∧ authorize name key path = Some access ∧ version = version_of es1.

Lemma exec_Ok authorize channel data h a h' :
  exec_request _ authorize channel data h = (Ok a, h') →
  ∃ cmd path name key, parse_git_command data = Ok (cmd, path) ∧ user _ h = Some name ∧ public_key _ h = Some key ∧
    match authorize name key path with
    | None => a = Refuse channel (denied name path) ∧ h' = cancel_timeout _ h
    | Some access => channel ∈ channels _ h ∧ a = Start channel cmd access (git_protocol_version _ h) ∧
                     h' = remove_channel _ channel (cancel_timeout _ h)
    end.
Proof.
  unfold exec_request, from_utf8. destruct (utf8_valid data); [|done]. cbn [mbind result_bind].
  destruct (parse_git_command data) as [[cmd path]|]; [|done]. cbn [mbind result_bind user public_key cancel_timeout channels git_protocol_version].
  destruct (user _ h) as [name|]; [|done]. destruct (public_key _ h) as [key|]; [|done]. cbn [ok_or mbind result_bind].
  destruct (authorize name key path) as [access|] eqn:Ea.
  - case_decide; [|done]. intros [= <- <-]. exists cmd, path, name, key. rewrite Ea. done.
  - intros [= <- <-]. exists cmd, path, name, key. by rewrite Ea.
Qed.

Lemma version_snoc es e : version_of (es ++ [e]) = if asks_v2 e then 2 else version_of es.
Proof. unfold version_of. rewrite existsb_app. cbn. rewrite orb_false_r. by destruct (asks_v2 e); rewrite ?orb_true_r, ?orb_false_r. Qed.

Lemma remembers_handle es out h e out' h' :
  remembers es out h → handle _ e h = (out', Some h') →
  remembers (es ++ [e]) (out ++ out') h' ∧
  ∀ channel cmd access v, Start channel cmd access v ∈ out' → authorized (es ++ [e]) channel cmd access v.
Proof.
  intros [Ha Hv Hc]. destruct e as [name key|now channel|channel name value|authorize channel data|now]; cbn [handle].
  - intros [= <- <-]. split; [|by intros ???? ?%elem_of_nil]. rewrite app_nil_r. constructor.
    + by rewrite last_auth_app.
    + by rewrite version_snoc.
    + intros c. rewrite opens_app. cbn. specialize (Hc c). lia.
  - intros [= <- <-]. split; [|by intros ???? ?%elem_of_nil]. rewrite app_nil_r. constructor.
    + by rewrite last_auth_app.
    + by rewrite version_snoc.
    + intros c. rewrite opens_app. cbn. specialize (Hc c).
      repeat case_decide; try lia; set_solver.
  - intros [= <- <-]. split; [|by intros ???? ?%elem_of_nil]. rewrite app_nil_r. unfold env_request. constructor.
    + rewrite last_auth_app. cbn [last_auth]. by destruct (_ && _).
    + rewrite version_snoc. cbn [asks_v2]. by destruct (_ && _).
    + intros c. rewrite opens_app. cbn [opens]. specialize (Hc c). destruct (_ && _); cbn [channels]; lia.
  - destruct (exec_request _ _ _ _ _) as [[a|] h1] eqn:E; [|done]. intros [= <- <-].
    apply exec_Ok in E as (cmd & path & name & key & Hp & Hu & Hk & E). rewrite Hu, Hk in Ha.
    destruct (authorize name key path) as [access|] eqn:Eq.
    + destruct E as (Hin & -> & ->). split.
      * constructor; [by rewrite last_auth_app; cbn; rewrite Hu, Hk|by rewrite version_snoc|].
        intros c. rewrite opens_app, starts_app. cbn. specialize (Hc c).
        repeat case_decide; subst; try lia; set_solver.
      * intros c cmd' access' v [= -> -> -> ->]%list_elem_of_singleton.
        exists es, [], authorize, data, path, name, key. done.
    + destruct E as [-> ->]. split.
      * constructor; [by rewrite last_auth_app; cbn; rewrite Hu, Hk|by rewrite version_snoc|].
        intros c. rewrite opens_app, starts_app. cbn. specialize (Hc c). lia.
      * by intros c cmd' access' v ?%list_elem_of_singleton.
  - assert (∀ h1, h1 = h → remembers (es ++ [EvClock _ now]) (out ++ []) h1) as Hsame.
    { intros h1 ->. rewrite app_nil_r. constructor; [by rewrite last_auth_app|by rewrite version_snoc|].
      intros c. rewrite opens_app. cbn. specialize (Hc c). lia. }
    destruct (exec_timeout _ h) as [d|]; [destruct (_ <=? _); [done|]|]; intros [= <- <-];
      (split; [by apply Hsame|by intros ???? ?%elem_of_nil]).
Qed.

Lemma run_spec es0 out0 h0 es out (h' : option (MizzleSshHandler PublicKey)) :
  remembers es0 out0 h0 → run _ es h0 = (out, h') →
  (∀ channel cmd access v, Start channel cmd access v ∈ out → authorized (es0 ++ es) channel cmd access v) ∧
  ∀ c, (starts c (out0 ++ out) ≤ opens c (es0 ++ es))%nat.
Proof.
  revert es0 out0 h0 out. induction es as [|e es IH]; intros es0 out0 h0 out Hr; cbn [run].
  - intros [= <- <-]. rewrite !app_nil_r. split; [by intros ???? ?%elem_of_nil|]. intros c.
    pose proof (rem_channels _ _ _ Hr c). lia.
  - destruct (handle _ e h0) as [o1 [h1|]] eqn:E.
    + destruct (run _ es h1) as [o2 h2] eqn:Er. intros [= <- <-].
      destruct (remembers_handle _ _ _ _ _ _ Hr E) as [Hr1 Ho1]. destruct (IH _ _ _ _ Hr1 Er) as [Ho2 Hc].
      rewrite <- !app_assoc in *. split; [|done]. intros channel cmd access v [Hin|Hin]%elem_of_app; [|by apply Ho2].
      destruct (Ho1 _ _ _ _ Hin) as (es1 & es2 & a & d & p & n & k & Eq & Hrest). exists es1, (es2 ++ es), a, d, p, n, k.
      split; [|done]. change (e :: es) with ([e] ++ es). rewrite app_assoc, Eq. by rewrite <- app_assoc.
    + intros [= <- <-]. assert (∀ c, starts c o1 = 0%nat ∧ ∀ cmd access v, Start c cmd access v ∉ o1) as Hno.
      { intros c. destruct e; cbn [handle] in E; try done.
        - destruct (exec_request _ _ _ _ _) as [[]]; [done|]. injection E as <-. split; [done|]. by intros ??? ?%elem_of_nil.
        - destruct (exec_timeout _ h0); [|done]. destruct (_ <=? _); [|done]. injection E as <-. split; [done|].
          by intros ??? ?%list_elem_of_singleton. }
      split; [intros ???? Hin; by apply (proj2 (Hno _)) in Hin|]. intros c. rewrite starts_app, opens_app, (proj1 (Hno c)).
      pose proof (rem_channels _ _ _ Hr c). lia.
Qed.

(** (C5) Every session that a connection starts was asked for on a channel it opened, with the
    command and the path of the request, and allowed by the forge for the user and key last
    authenticated before it; it speaks the protocol version asked for by then; and no channel
    is served more often than it was opened. *)
Theorem ssh_serves_authorized es out (h' : option (MizzleSshHandler PublicKey)) :
  run _ es (new_client PublicKey) = (out, h') →
  (∀ channel cmd access v, Start channel cmd access v ∈ out → authorized es channel cmd access v) ∧
  ∀ c, (starts c out ≤ opens c es)%nat.
Proof. intros Hr. apply (run_spec [] [] _ es out h' remembers_start Hr). Qed.

(** ** The deadline *)

Definition is_exec (e : event PublicKey) : bool := match e with EvExec _ _ _ _ => true | _ => false end.
Definition is_open (e : event PublicKey) : bool := match e with EvOpen _ _ _ => true | _ => false end.
Definition disconnects (a : action) : bool := match a with Disconnect _ => true | _ => false end.

(** A pending deadline stays until a command arrives. *)
Lemma deadline_kept es h d out h' :
  exec_timeout _ h = Some d → existsb is_exec es = false → run _ es h = (out, Some h') → exec_timeout _ h' = Some d.
Proof.
  revert h out. induction es as [|e es IH]; intros h out Hd; cbn [run existsb]; [by intros _ [= _ <-]|].
  intros [He Hes]%orb_false_iff. destruct (handle _ e h) as [o1 [h1|]] eqn:E; [|done].
  destruct (run _ es h1) as [o2 h2] eqn:Er. intros [= <- ->]. apply (IH h1 o2); [|done|done].
  destruct e; cbn [handle is_exec] in *; try done.
  - by injection E as _ <-.
  - injection E as _ <-. cbn. by rewrite Hd.
  - injection E as _ <-. unfold env_request. by destruct (_ && _).
  - rewrite Hd in E. destruct (_ <=? _); [done|]. by injection E as _ <-.
Qed.

(** Every command that is answered cancels the deadline. *)
Lemma exec_clears authorize c data h a h' : exec_request _ authorize c data h = (Ok a, h') → exec_timeout _ h' = None ∧ disconnects a = false.
Proof.
  intros (? & path & name & key & _ & _ & _ & E)%exec_Ok.
  destruct (authorize name key path); [by destruct E as (_ & -> & ->)|by destruct E as [-> ->]].
Qed.

(** Without a deadline and without a new channel there is never one. *)
Lemma handle_without e h out (r : option (MizzleSshHandler PublicKey)) :
  exec_timeout _ h = None → is_open e = false → handle _ e h = (out, r) →
  existsb disconnects out = false ∧ ∀ h', r = Some h' → exec_timeout _ h' = None.
Proof.
  intros Hd He. destruct e; cbn [handle is_open] in *; try done.
  - intros [= <- <-]. split; [done|]. by intros h' [= <-].
  - intros [= <- <-]. split; [done|]. intros h' [= <-]. unfold env_request. by destruct (_ && _).
  - destruct (exec_request _ _ _ _ _) as [[a|] h1] eqn:E; intros [= <- <-]; [|done].
    apply exec_clears in E as [Hn Hx]. split; [cbn; by rewrite Hx|]. by intros h' [= <-].
  - rewrite Hd. intros [= <- <-]. split; [done|]. by intros h' [= <-].
Qed.

Lemma run_without es h out (r : option (MizzleSshHandler PublicKey)) :
  exec_timeout _ h = None → existsb is_open es = false → run _ es h = (out, r) →
  existsb disconnects out = false ∧ ∀ h', r = Some h' → exec_timeout _ h' = None.
Proof.
  revert h out. induction es as [|e es IH]; intros h out Hd; cbn [run existsb]; [intros _ [= <- <-]; split; [done|by intros h' [= <-]]|].
  intros [He Hes]%orb_false_iff. destruct (handle _ e h) as [o1 h1] eqn:E. destruct (handle_without _ _ _ _ Hd He E) as [Ho Hn].
  destruct h1 as [h1|]; [|by intros [= <- <-]]. destruct (run _ es h1) as [o2 h2] eqn:Er. intros [= <- <-].
  rewrite existsb_app, Ho. by apply (IH h1 o2); [apply Hn| |].
Qed.

Lemma run_app es1 es2 h :
  run _ (es1 ++ es2) h =
    match run _ es1 h with
    | (out1, Some h1) => let '(out2, h2) := run _ es2 h1 in (out1 ++ out2, h2)
    | x => x
    end.
Proof.
  revert h. induction es1 as [|e es1 IH]; intros h; cbn [run app]; [by destruct (run _ es2 h)|].
  destruct (handle _ e h) as [o1 [h1|]]; [|done]. rewrite IH. destruct (run _ es1 h1) as [o2 [h2|]]; [|done].
  destruct (run _ es2 h2) as [o3 h3]. by rewrite app_assoc.
Qed.

(** A connection that opened a channel and sent no command within ten seconds is gone; but one
    that never opens a channel, or whose last command was refused, has no deadline at all. *)
Theorem exec_deadline es1 now channel es2 late :
  existsb is_open es1 = false → existsb is_exec (es1 ++ es2) = false → now + EXEC_TIMEOUT ≤ late →
  (run _ (es1 ++ EvOpen _ now channel :: es2 ++ [EvClock _ late]) (new_client PublicKey)).2 = None ∧
  existsb disconnects (run _ es1 (new_client PublicKey)).1 = false ∧
  ∀ h authorize c data msg h' es, exec_request _ authorize c data h = (Ok (Refuse c msg), h') →
    existsb is_open es = false → existsb disconnects (run _ es h').1 = false.
Proof.
  intros Ho Hx Hl. rewrite existsb_app, orb_false_iff in Hx. destruct Hx as [Hx1 Hx2]. split_and!.
  - rewrite run_app. destruct (run _ es1 _) as [out1 [h1|]] eqn:E1; [|done]. cbn [run handle].
    rewrite run_app. destruct (run _ es2 _) as [out2 [h2|]] eqn:E2; [|done].
    assert (exec_timeout _ h1 = None) as Hd1.
    { by eapply (run_without es1); [|exact Ho|exact E1|]. }
    pose proof (deadline_kept es2 (channel_open_session _ now channel h1) (now + EXEC_TIMEOUT) out2 h2) as Hk. cbn [exec_timeout channel_open_session] in Hk. rewrite Hd1 in Hk.
    cbn [run handle]. rewrite Hk by done. rewrite (proj2 (N.leb_le _ _) Hl). done.
  - destruct (run _ es1 _) as [out1 h1] eqn:E1. by apply (run_without es1 (new_client PublicKey) out1 h1 eq_refl Ho E1).
  - intros h authorize c data msg h' es [Hn _]%exec_clears Hes. destruct (run _ es h') as [out h''] eqn:Er.
    by apply (run_without es h' out h'').
Qed.
End connections.
