(* ===== verification/Sql.v ===== *)
(** * The SQL backend ([backend/sql])

    The four tables of [schema.rs] as maps by their primary keys, the statements the
    sources run against them, and the operations of [refs.rs], [graph.rs], [objects.rs] and
    [mod.rs] built from these.  A statement either fails, as a parameter decides, and
    changes nothing, or does what SQLite documents; a transaction that fails is rolled
    back.  The recursive query of [graph.rs] is evaluated level by level and need not
    end. *)

From stdpp Require Import base gmap list sorting strings.
From Stdlib Require Import Strings.Byte ZArith Lia.
From S2P Require Import Prelude Bytes Gix Proto Types Handlers Graph Inspect.
Open Scope N_scope.

(** ** Tables and statements *)

Record SqlDb := {
  (** [id] to [path] and [head]. *)
  repositories : gmap N (bytes * option bytes);
  (** [(repo_id, oid)] to [kind] and [data]. *)
  objects : gmap (N * bytes) (Z * bytes);
  (** [(repo_id, name)] to [oid]. *)
  refs : gmap (N * bytes) bytes;
  (** [(repo_id, commit_oid, position)] to [parent_oid]. *)
  commit_parents : gmap (N * bytes * Z) bytes }.

Inductive sql_op := OpStatement (what : bytes) | OpBegin | OpCommit.

(** [sql_fault m op] is the error [sqlx] reports for [op] on [m], if it does. *)
Class Sqlx := { sql_fault : SqlDb → sql_op → option error }.

Section statements.
Context {sqlx : Sqlx}.

(** A query, and a statement that may violate a constraint. *)
Definition select {A} (what : bytes) (q : SqlDb → A) : ST SqlDb A := fun m =>
  match sql_fault m (OpStatement what) with Some e => (Err e, m) | None => (Ok (q m), m) end.

Definition execute {A} (what : bytes) (f : SqlDb → result error (A * SqlDb)) : ST SqlDb A := fun m =>
  match sql_fault m (OpStatement what) with
  | Some e => (Err e, m)
  | None => match f m with Ok (a, m') => (Ok a, m') | Err e => (Err e, m) end
  end.

(** [pool.begin()], the statements, [tx.commit()]; dropping the transaction undoes it. *)
Definition sql_txn {A} (begin_ctx commit_ctx : bytes) (body : ST SqlDb A) : ST SqlDb A := fun m =>
  match sql_fault m OpBegin with
  | Some e => (Err (Context begin_ctx e), m)
  | None =>
      match body m with
      | (Ok a, m') =>
          match sql_fault m' OpCommit with
          | Some e => (Err (Context commit_ctx e), m)
          | None => (Ok a, m')
          end
      | (Err e, _) => (Err e, m)
      end
  end.

Definition set_refs (m : SqlDb) (t : gmap (N * bytes) bytes) : SqlDb :=
  {| repositories := repositories m; objects := objects m; refs := t;
     commit_parents := commit_parents m |}.
Definition set_objects (m : SqlDb) (t : gmap (N * bytes) (Z * bytes)) : SqlDb :=
  {| repositories := repositories m; objects := t; refs := refs m;
     commit_parents := commit_parents m |}.
Definition set_parents (m : SqlDb) (t : gmap (N * bytes * Z) bytes) : SqlDb :=
  {| repositories := repositories m; objects := objects m; refs := refs m; commit_parents := t |}.
Definition set_repositories (m : SqlDb) (t : gmap N (bytes * option bytes)) : SqlDb :=
  {| repositories := t; objects := objects m; refs := refs m; commit_parents := commit_parents m |}.

Definition unique_failed : error := Foreign (b! "UNIQUE constraint failed").
Definition foreign_key_failed : error := Foreign (b! "FOREIGN KEY constraint failed").

(** [repo_id REFERENCES repositories(id)]. *)
Definition references (id : N) (m : SqlDb) : bool := bool_decide (is_Some (repositories m !! id)).

(** [DELETE FROM refs WHERE repo_id = ? AND name = ? AND oid = ?]: the rows affected. *)
Definition delete_ref (id : N) (name oid : bytes) : ST SqlDb N :=
  execute (b! "DELETE FROM refs") (λ m,
    if decide (refs m !! (id, name) = Some oid)
    then Ok (1, set_refs m (delete (id, name) (refs m))) else Ok (0, m)).

(** [INSERT INTO refs (repo_id, name, oid) VALUES (?, ?, ?)]. *)
Definition insert_ref (id : N) (name oid : bytes) : ST SqlDb () :=
  execute (b! "INSERT INTO refs") (λ m,
    if decide (is_Some (refs m !! (id, name))) then Err unique_failed
    else if references id m then Ok ((), set_refs m (<[(id, name) := oid]> (refs m)))
    else Err foreign_key_failed).

(** [UPDATE refs SET oid = ? WHERE repo_id = ? AND name = ? AND oid = ?]. *)
Definition update_ref (id : N) (name old new : bytes) : ST SqlDb N :=
  execute (b! "UPDATE refs") (λ m,
    if decide (refs m !! (id, name) = Some old)
    then Ok (1, set_refs m (<[(id, name) := new]> (refs m))) else Ok (0, m)).

(** [INSERT OR IGNORE INTO objects]: a row with the same key stays. *)
Definition insert_object (id : N) (oid : bytes) (kind : Z) (data : bytes) : ST SqlDb () :=
  execute (b! "INSERT OR IGNORE INTO objects") (λ m,
    if decide (is_Some (objects m !! (id, oid))) then Ok ((), m)
    else if references id m then Ok ((), set_objects m (<[(id, oid) := (kind, data)]> (objects m)))
    else Err foreign_key_failed).

(** [INSERT OR IGNORE INTO commit_parents]. *)
Definition insert_parent (id : N) (commit parent : bytes) (position : Z) : ST SqlDb () :=
  execute (b! "INSERT OR IGNORE INTO commit_parents") (λ m,
    if decide (is_Some (commit_parents m !! (id, commit, position))) then Ok ((), m)
    else if references id m then
      Ok ((), set_parents m (<[(id, commit, position) := parent]> (commit_parents m)))
    else Err foreign_key_failed).

(** The largest id so far. *)
Definition max_id (m : SqlDb) : N := foldr N.max 0 (fst <$> map_to_list (repositories m)).

Definition find_path (path : bytes) (m : SqlDb) : option N :=
  fst <$> head (base.filter (λ x, x.2.1 = path) (map_to_list (repositories m))).

(** [INSERT OR IGNORE INTO repositories (path) VALUES (?)]: the next row id. *)
Definition insert_repository (path : bytes) : ST SqlDb () :=
  execute (b! "INSERT OR IGNORE INTO repositories") (λ m,
    match find_path path m with
    | Some _ => Ok ((), m)
    | None => Ok ((), set_repositories m (<[max_id m + 1 := (path, None)]> (repositories m)))
    end).

(** [SELECT ... FROM refs WHERE repo_id = ?]; SQL leaves the order open. *)
Definition select_refs (id : N) : ST SqlDb (list (bytes * bytes)) :=
  select (b! "SELECT name, oid FROM refs") (λ m,
    omap (λ '((i, name), oid), if decide (i = id) then Some (name, oid) else None)
      (map_to_list (refs m))).

(** [SELECT kind, data FROM objects WHERE repo_id = ? AND oid = ?], also for the queries
    of one of the two columns. *)
Definition select_object (id : N) (oid : bytes) : ST SqlDb (option (Z * bytes)) :=
  select (b! "SELECT FROM objects") (λ m, objects m !! (id, oid)).

(** The rows of [commit_parents] for a commit. *)
Definition parent_rows (id : N) (commit : bytes) (m : SqlDb) : list (Z * bytes) :=
  omap (λ '((i, c, pos), p), if decide (i = id ∧ c = commit) then Some (pos, p) else None)
    (map_to_list (commit_parents m)).

Definition by_position (x y : Z * bytes) : Prop := (x.1 ≤ y.1)%Z.
#[export] Instance by_position_dec : RelDecision by_position.
Proof. intros x y. apply Z_le_dec. Defined.

(** [SELECT parent_oid FROM commit_parents WHERE repo_id = ? AND commit_oid = ? ORDER BY position]. *)
Definition select_parents (id : N) (commit : bytes) : ST SqlDb (list bytes) :=
  select (b! "SELECT parent_oid FROM commit_parents") (λ m,
    snd <$> merge_sort by_position (parent_rows id commit m)).
End statements.

(** ** The recursive query

    [WITH RECURSIVE ancestors(oid) AS (SELECT ? UNION ALL SELECT parent_oid ...)]: rows
    are taken from a queue, each adds its parents, and [UNION ALL] keeps duplicates.  The
    queue holds one generation after the other; [None] when generations do not stop
    within [fuel]. *)
Fixpoint cte_rows {K} (step : K → list K) (fuel : nat) (level : list K) : option (list K) :=
  match level with
  | [] => Some []
  | _ =>
      match fuel with
      | O => None
      | S fuel => rest ← cte_rows step fuel (level ≫= step); Some (level ++ rest)
      end
  end.

Section sql.
Context `{GixObject} {sqlx : Sqlx} {gix_pack : GixPack}.

(** ** Refs ([refs.rs]) *)

Definition parse_oid (b : bytes) : result error ObjectId :=
  map_err (Fmt (b! "corrupt OID in database: ")) (oid_try_from b).

Definition ref_of_row (row : bytes * bytes) : result error RefInfo :=
  oid ← parse_oid row.2;
  Ok {| r_name := row.1; r_oid := oid; r_peeled := None; r_symref_target := None |}.

(** The last ref with the name of the symref target. *)
Definition sql_find_head (head_target : bytes) (rs : list RefInfo) : option HeadInfo :=
  foldl (λ head r, if decide (r_name r = head_target)
                   then Some {| h_oid := r_oid r; h_symref_target := Some head_target |}
                   else head) None rs.

Definition sql_list_refs (id : N) : ST SqlDb RefsSnapshot :=
  row ← with_context (b! "reading HEAD from repositories")
          (select (b! "SELECT head FROM repositories") (λ m, snd <$> repositories m !! id));
  let head_target := default (b! "refs/heads/main") (row ≫= λ h, h) in
  rows ← with_context (b! "listing refs") (select_refs id);
  rs ← lift (mapM ref_of_row rows);
  mret {| rs_head := sql_find_head head_target rs; rs_refs := rs |}.

Definition sql_resolve_ref (id : N) (refname : bytes) : ST SqlDb (option ObjectId) :=
  row ← with_context (b! "resolving ref")
          (select (b! "SELECT oid FROM refs") (λ m, refs m !! (id, refname)));
  lift (match row with None => Ok None | Some raw => Some <$> parse_oid raw end).

Definition stale_ref (u : RefUpdate) : error :=
  Msg (b! "stale info for ref " ++ refname u ++ b! ": expected " ++ oid_to_hex (old_oid u)).

Definition require_row (u : RefUpdate) (rows_affected : N) : result error () :=
  if rows_affected =? 0 then Err (stale_ref u) else Ok ().

(** One round of the loop of [update_refs_owned]. *)
Definition sql_apply_update (id : N) (u : RefUpdate) : ST SqlDb () :=
  if is_null (new_oid u) then
    rows ← with_context (b! "deleting ref") (delete_ref id (refname u) (oid_as_bytes (old_oid u)));
    lift (require_row u rows)
  else if is_null (old_oid u) then fun m =>
    let '(r, m') := insert_ref id (refname u) (oid_as_bytes (new_oid u)) m in
    (map_err (Fmt (b! "ref " ++ refname u ++ b! " already exists: ")) r, m')
  else
    rows ← with_context (b! "updating ref")
             (update_ref id (refname u) (oid_as_bytes (old_oid u)) (oid_as_bytes (new_oid u)));
    lift (require_row u rows).

Definition sql_update_refs (id : N) (updates : list RefUpdate) : ST SqlDb () :=
  match updates with
  | [] => mret ()
  | _ =>
      sql_txn (b! "beginning ref transaction") (b! "committing ref transaction")
        (for_each (sql_apply_update id) updates)
  end.

(** ** Repositories ([mod.rs])

    Paths are UTF-8 text, so [to_string_lossy] keeps them, without characters that [{:?}]
    would escape. *)

Definition sql_open (path : bytes) : ST SqlDb N :=
  row ← with_context (b! "looking up repository")
          (select (b! "SELECT id FROM repositories") (find_path path));
  lift (ok_or (Msg ([x22] ++ path ++ [x22] ++ b! " does not appear to be a git repository")) row).

Definition sql_init_repo (path : bytes) : ST SqlDb () :=
  with_context (b! "initialising repository") (insert_repository path).

(** ** Objects ([objects.rs]) *)

Definition KIND_BLOB : Z := 0.
Definition KIND_TREE : Z := 1.
Definition KIND_COMMIT : Z := 2.
Definition KIND_TAG : Z := 3.

(** [{}] of an [i32]. *)
Definition decimal_Z (k : Z) : bytes :=
  if (k <? 0)%Z then b! "-" ++ decimal (Z.to_N (- k)) else decimal (Z.to_N k).

Definition sql_has_object (id : N) (oid : ObjectId) : ST SqlDb bool :=
  with_context (b! "checking object existence")
    (select (b! "SELECT EXISTS objects") (λ m, bool_decide (is_Some (objects m !! (id, oid_as_bytes oid))))).

Fixpoint sql_has_objects (id : N) (oids : list ObjectId) : ST SqlDb (list bool) :=
  match oids with
  | [] => mret []
  | o :: oids' => b ← sql_has_object id o; bs ← sql_has_objects id oids'; mret (b :: bs)
  end.

(** [fetch_one]: an error when there is no row. *)
Definition one_row {A} (row : option A) : result error A :=
  ok_or (Foreign (b! "no rows returned by a query that expected to return at least one row")) row.

Definition sql_read_blob (id : N) (oid : ObjectId) (cap : N) : ST SqlDb (option bytes) :=
  row ← with_context (b! "reading blob metadata") (select_object id (oid_as_bytes oid));
  match row with
  | None => mret None
  | Some (kind, data) =>
      if decide (kind ≠ KIND_BLOB ∨ cap < len data) then mret None
      else
        with_context (b! "reading blob data")
          (row ← select_object id (oid_as_bytes oid); '(_, data) ← lift (one_row row); mret (Some data))
  end.

Definition sql_read_object_raw (id : N) (oid : ObjectId) (cap : N) : ST SqlDb (option bytes) :=
  row ← with_context (b! "reading object length") (select_object id (oid_as_bytes oid));
  match row with
  | None => mret None
  | Some (_, data) =>
      if decide (cap < len data) then mret None
      else
        with_context (b! "reading object data")
          (row ← select_object id (oid_as_bytes oid); '(_, data) ← lift (one_row row); mret (Some data))
  end.

Definition sql_read_commit_info (id : N) (oid : ObjectId) : ST SqlDb CommitInfo :=
  row ← with_context (b! "reading commit") (select_object id (oid_as_bytes oid));
  lift (match row with
        | Some (kind, data) =>
            if decide (kind ≠ KIND_COMMIT)
            then bail (b! "object " ++ oid_to_hex oid ++ b! " is not a commit (kind=" ++
                       decimal_Z kind ++ b! ")")
            else parse_commit_info data oid
        | None => bail (b! "commit " ++ oid_to_hex oid ++ b! " not in object store")
        end).

(** *** Ingest *)

Record ExtractedObject := {
  xo_oid : ObjectId; xo_kind : Z; xo_data : bytes; xo_parents : list (ObjectId * Z) }.

(** [i as i32]. *)
Definition as_i32 (n : N) : Z :=
  let k := Z.of_N (n mod 2 ^ 32) in if (k <? 2 ^ 31)%Z then k else (k - 2 ^ 32)%Z.

Definition parent_positions (parents : list ObjectId) : list (ObjectId * Z) :=
  imap (λ i p, (p, as_i32 (N.of_nat i))) parents.

Definition extract_entry (e : BundleEntry) : result error (ExtractedObject * PackObject) :=
  '(kind, _) ← be_header e;
  raw ← context (b! "decoding pack object") (be_data e);
  '(sql_kind, obj_kind, parents) ←
    match kind with
    | GBlob => Ok (KIND_BLOB, KBlob, [])
    | GTree => Ok (KIND_TREE, KTree, [])
    | GCommit =>
        info ← parse_commit_info raw (be_oid e);
        Ok (KIND_COMMIT, KCommit info, parent_positions (c_parents info))
    | GTag => info ← parse_tag_info raw (be_oid e); Ok (KIND_TAG, KTag info, [])
    end;
  Ok ({| xo_oid := be_oid e; xo_kind := sql_kind; xo_data := raw; xo_parents := parents |},
      {| po_oid := be_oid e; po_kind := obj_kind; po_size := len raw |}).

Definition extract_pack (pack : PackFile) : result error (list ExtractedObject * PackMetadata) :=
  entries ← context (b! "opening pack bundle") (bundle_at pack);
  objs ← mapM extract_entry entries;
  Ok (fst <$> objs, snd <$> objs).

Definition ingest_object (id : N) (x : ExtractedObject) : ST SqlDb () :=
  with_context (b! "inserting object")
    (insert_object id (oid_as_bytes (xo_oid x)) (xo_kind x) (xo_data x)) ;;
  for_each (λ '(parent, pos),
      with_context (b! "inserting commit parent")
        (insert_parent id (oid_as_bytes (xo_oid x)) (oid_as_bytes parent) pos))
    (xo_parents x).

Definition sql_ingest_pack (id : N) (staged_pack : PackFile) :
    ST SqlDb (option (PackMetadata * list ObjectId)) :=
  '(header, _) ← lift (context (b! "reading pack header") (read_exact 12 (pf_pack staged_pack)));
  if default 0 (pack_object_count header) =? 0 then mret None
  else
    '(extracted, metadata) ← lift (extract_pack staged_pack);
    match extracted with
    | [] => mret None
    | _ =>
        sql_txn (b! "beginning ingest transaction") (b! "committing ingest transaction")
          (for_each (ingest_object id) extracted) ;;
        mret (Some (metadata, xo_oid <$> extracted))
    end.

(** ** The commit graph ([graph.rs]) *)

(** The recursive part of the query. *)
Definition cte_step (id : N) (m : SqlDb) (oid : bytes) : list bytes := snd <$> parent_rows id oid m.

(** More generations than a history without cycles can have: [cte_rows_total]. *)
Definition cte_fuel (m : SqlDb) : nat := S (S (size (commit_parents m))).

(** The rows of the query, if it ends. *)
Definition ancestors_query (id : N) (m : SqlDb) (oid : ObjectId) : option (list bytes) :=
  cte_rows (cte_step id m) (cte_fuel m) [oid_as_bytes oid].

(** [SELECT EXISTS(SELECT 1 FROM ancestors WHERE oid = ?)]. *)
Definition sql_is_ancestor (id : N) (ancestor descendant : ObjectId) (m : SqlDb) :
    option (result error bool) :=
  match sql_fault m (OpStatement (b! "WITH RECURSIVE ancestors EXISTS")) with
  | Some e => Some (Err e)
  | None => (λ rows, Ok (bool_decide (oid_as_bytes ancestor ∈ rows))) <$> ancestors_query id m descendant
  end.

Definition sql_compute_push_kind (id : N) (old_oid new_oid : ObjectId) (m : SqlDb) : option PushKind :=
  if is_null old_oid then Some Create
  else if is_null new_oid then Some Delete
  else
    is_ancestor ← sql_is_ancestor id old_oid new_oid m;
    Some (if default false (ok is_ancestor) then FastForward else ForcePush).

Definition sql_collect_ancestors (id : N) (m : SqlDb) (oid : ObjectId) (set : gset ObjectId) :
    option (result ReachableError (gset ObjectId)) :=
  match sql_fault m (OpStatement (b! "WITH RECURSIVE ancestors")) with
  | Some e => Some (Err (ReachOther (Fmt (b! "collecting ancestors: ") e)))
  | None =>
      rows ← ancestors_query id m oid;
      Some (match mapM parse_oid rows with
            | Ok os => Ok (list_to_set os ∪ set)
            | Err e => Err (ReachOther e)
            end)
  end.

Fixpoint sql_collect_all (id : N) (m : SqlDb) (excluding : list ObjectId) (set : gset ObjectId) :
    option (result ReachableError (gset ObjectId)) :=
  match excluding with
  | [] => Some (Ok set)
  | oid :: excluding' =>
      r ← sql_collect_ancestors id m oid set;
      match r with
      | Ok set' => sql_collect_all id m excluding' set'
      | Err e => Some (Err e)
      end
  end.

Definition sql_fetch_parents (id : N) (m : SqlDb) (oid : ObjectId) : result error (list ObjectId) :=
  rows ← map_err (Fmt (b! "fetching parents: ")) (select_parents id (oid_as_bytes oid) m).1;
  mapM parse_oid rows.

(** More rounds than the walk has commits. *)
Definition sql_walk_fuel (tips : list ObjectId) (m : SqlDb) : nat :=
  S (length tips + size (commit_parents m)).

Definition sql_walk_error (cap : N) (e : walk_error error) : ReachableError :=
  match e with
  | WalkCap => CapExceeded cap
  | WalkCollect e | WalkFetch e => ReachOther e
  end.

(** [None] when a recursive query does not end. *)
Definition sql_reachable_excluding (id : N) (from excluding : list ObjectId) (cap : N) (m : SqlDb) :
    option (result ReachableError (list ObjectId)) :=
  match from with
  | [] => Some (Ok [])
  | _ =>
      r ← sql_collect_all id m excluding ∅;
      match r with
      | Err e => Some (Err e)
      | Ok exclude =>
          map_err (sql_walk_error cap) <$>
            walk_from (sql_fetch_parents id m) (sql_walk_fuel from m) cap exclude from
      end
  end.
End sql.

(** ** Statements and transactions *)

Section statement_facts.
Context {sqlx : Sqlx}.

Lemma select_Ok {A} what (q : SqlDb → A) m a m' :
  select what q m = (Ok a, m') → a = q m ∧ m' = m.
Proof. unfold select. destruct (sql_fault _ _); [done|]. by intros [= <- <-]. Qed.

Lemma reads_select {A} what (q : SqlDb → A) : pres (λ m, m) (select what q).
Proof. intros m. unfold select. by destruct (sql_fault _ _). Qed.

Lemma execute_Ok {A} what f m (a : A) m' :
  execute what f m = (Ok a, m') → f m = Ok (a, m').
Proof.
  unfold execute. destruct (sql_fault _ _); [done|]. destruct (f m) as [[x y]|]; [|done].
  by intros [= -> ->].
Qed.

Lemma execute_Err {A} what f m e m' : execute (A := A) what f m = (Err e, m') → m' = m.
Proof.
  unfold execute. destruct (sql_fault _ _); [by intros [= _ <-]|].
  destruct (f m) as [[x y]|]; [done|]. by intros [= _ <-].
Qed.

Lemma with_context_Ok {S A} c (f : ST S A) s a s' :
  with_context c f s = (Ok a, s') ↔ f s = (Ok a, s').
Proof. unfold with_context. destruct (f s) as [[x|e] y]; naive_solver. Qed.

Lemma sql_txn_Ok {A} b c (body : ST SqlDb A) m a m' :
  sql_txn b c body m = (Ok a, m') → body m = (Ok a, m').
Proof.
  unfold sql_txn. destruct (sql_fault m OpBegin); [done|].
  destruct (body m) as [[x|e] y]; [|done]. by destruct (sql_fault y OpCommit).
Qed.

Lemma sql_txn_Err {A} b c (body : ST SqlDb A) m e m' : sql_txn b c body m = (Err e, m') → m' = m.
Proof.
  unfold sql_txn. destruct (sql_fault m OpBegin); [by intros [= _ <-]|].
  destruct (body m) as [[x|e'] y]; [|by intros [= _ <-]].
  destruct (sql_fault y OpCommit); by intros [= _ <-].
Qed.

Lemma pres_sql_txn {A T} (V : SqlDb → T) b c (body : ST SqlDb A) :
  pres V body → pres V (sql_txn b c body).
Proof.
  intros Hb m. destruct (sql_txn b c body m) as [[a|e] m'] eqn:E; cbn.
  - apply sql_txn_Ok in E. specialize (Hb m). by rewrite E in Hb.
  - by apply sql_txn_Err in E as ->.
Qed.

Lemma pres_execute {A T} (V : SqlDb → T) what f :
  (∀ m a m', f m = Ok (a, m') → V m' = V m) → pres V (execute (A := A) what f).
Proof.
  intros Hf m. destruct (execute what f m) as [[a|e] m'] eqn:E; cbn.
  - apply execute_Ok in E. by eapply Hf.
  - by apply execute_Err in E as ->.
Qed.
End statement_facts.

#[export] Hint Resolve reads_select : mizzle.

(** ** Refs *)

Section sql_refs.
Context `{GixHashLaws} {gix_object : GixObject} {sqlx : Sqlx}.

(** The refs of a repository: the rows that hold an id.  The program stores no null id
    ([refs_wf]); one found in the table would count as no ref. *)
Definition row_ref (id : N) (row : (N * bytes) * bytes) : option (bytes * ObjectId) :=
  if decide (row.1.1 = id) then
    o ← ok (oid_try_from row.2); if is_null o then None else Some (row.1.2, o)
  else None.

Definition sql_refs (id : N) (m : SqlDb) : gmap bytes ObjectId :=
  list_to_map (omap (row_ref id) (map_to_list (refs m))).

Lemma lookup_sql_refs id m n o :
  sql_refs id m !! n = Some o ↔ refs m !! (id, n) = Some (oid_as_bytes o) ∧ is_null o = false.
Proof.
  assert (∀ i n' v o', row_ref id ((i, n'), v) = Some (n, o') ↔
    i = id ∧ n' = n ∧ v = oid_as_bytes o' ∧ is_null o' = false) as Hrow.
  { intros i n' v o'. unfold row_ref. cbn. case_decide as Ei; [|naive_solver].
    destruct (oid_try_from v) as [o1|] eqn:Ev; cbn.
    - pose proof (oid_as_bytes_try_from _ _ Ev) as Eb. destruct (is_null o1) eqn:En.
      + split; [done|]. intros (_ & _ & -> & Hn). apply oid_as_bytes_inj in Eb. congruence.
      + split; [intros [= -> ->]; auto|]. intros (_ & -> & -> & Hn). by apply oid_as_bytes_inj in Eb as ->.
    - split; [done|]. intros (_ & _ & -> & _). by rewrite oid_try_from_as_bytes in Ev. }
  assert (∀ o', (n, o') ∈ omap (row_ref id) (map_to_list (refs m)) ↔
    refs m !! (id, n) = Some (oid_as_bytes o') ∧ is_null o' = false) as Hin.
  { intros o'. rewrite list_elem_of_omap. split.
    - intros ([[i n'] v] & Hin & (-> & -> & -> & Hn)%Hrow). by apply elem_of_map_to_list in Hin.
    - intros [Hl Hn]. exists ((id, n), oid_as_bytes o'). rewrite elem_of_map_to_list. split; [done|]. by apply Hrow. }
  unfold sql_refs. split; [by intros ?%elem_of_list_to_map_2%Hin|]. intros [Hl Hn].
  apply elem_of_list_to_map_1'; [|by apply Hin]. intros o' [Hl' _]%Hin. apply oid_as_bytes_inj. congruence.
Qed.

Lemma lookup_sql_refs_None id m n : refs m !! (id, n) = None → sql_refs id m !! n = None.
Proof. intros E. apply eq_None_not_Some. intros [o [Ho _]%lookup_sql_refs]. congruence. Qed.

(** A write to one row is a write to one ref. *)
Lemma sql_refs_set id m n (v : option bytes) t :
  (∀ n', t !! (id, n') = if decide (n' = n) then v else refs m !! (id, n')) →
  ∀ n', sql_refs id (set_refs m t) !! n' =
        if decide (n' = n) then o ← v ≫= (λ v, ok (oid_try_from v)); (if is_null o then None else Some o)
        else sql_refs id m !! n'.
Proof.
  intros Ht n'. apply option_eq. intros o. rewrite lookup_sql_refs. cbn [refs set_refs]. rewrite Ht.
  case_decide; [|by rewrite lookup_sql_refs]. destruct v as [v|]; cbn; [|naive_solver].
  destruct (oid_try_from v) as [o'|] eqn:Ev; cbn.
  - apply oid_as_bytes_try_from in Ev as <-. destruct (is_null o') eqn:En.
    + split; [|done]. intros [[= E%oid_as_bytes_inj] ?]. congruence.
    + split; [by intros [[= ->%oid_as_bytes_inj] ?]|]. by intros [= ->].
  - split; [|done]. intros [[= ->] _]. by rewrite oid_try_from_as_bytes in Ev.
Qed.

Lemma sql_refs_insert id m n o :
  is_null o = false →
  sql_refs id (set_refs m (<[(id, n) := oid_as_bytes o]> (refs m))) = <[n := o]> (sql_refs id m).
Proof.
  intros Hn. apply map_eq. intros n'.
  rewrite (sql_refs_set id m n (Some (oid_as_bytes o))).
  - cbn. rewrite oid_try_from_as_bytes. cbn. rewrite Hn.
    case_decide as E; [subst; by rewrite lookup_insert_eq|by rewrite lookup_insert_ne].
  - intros n1. case_decide as E; [subst; by rewrite lookup_insert_eq|].
    rewrite lookup_insert_ne; [done|congruence].
Qed.

Lemma sql_refs_delete id m n :
  sql_refs id (set_refs m (delete (id, n) (refs m))) = delete n (sql_refs id m).
Proof.
  apply map_eq. intros n'. rewrite (sql_refs_set id m n None).
  - case_decide as E; [subst; by rewrite lookup_delete_eq|by rewrite lookup_delete_ne].
  - intros n1. case_decide as E; [subst; by rewrite lookup_delete_eq|].
    rewrite lookup_delete_ne; [done|congruence].
Qed.

Lemma sql_refs_other id' m t :
  (∀ n, t !! (id', n) = refs m !! (id', n)) → sql_refs id' (set_refs m t) = sql_refs id' m.
Proof.
  intros Ht. apply map_eq. intros n. apply option_eq. intros o. rewrite !lookup_sql_refs. cbn. by rewrite Ht.
Qed.

(** *** [update_refs] *)

(** The write of an update. *)
Definition sql_write (id : N) (u : RefUpdate) (m : SqlDb) : SqlDb :=
  set_refs m (if is_null (new_oid u) then delete (id, refname u) (refs m)
              else <[(id, refname u) := oid_as_bytes (new_oid u)]> (refs m)).

Lemma sql_refs_write id u m :
  sql_refs id (sql_write id u m) =
  if is_null (new_oid u) then delete (refname u) (sql_refs id m)
  else <[refname u := new_oid u]> (sql_refs id m).
Proof.
  unfold sql_write. destruct (is_null (new_oid u)) eqn:E; [apply sql_refs_delete|by apply sql_refs_insert].
Qed.

(** What an update found when it succeeded. *)
Definition row_expected (u : RefUpdate) (row : option bytes) : Prop :=
  if is_null (old_oid u) && negb (is_null (new_oid u)) then row = None
  else row = Some (oid_as_bytes (old_oid u)).

Lemma sql_apply_update_Ok id u m m' :
  sql_apply_update id u m = (Ok (), m') →
  m' = sql_write id u m ∧ row_expected u (refs m !! (id, refname u)).
Proof.
  unfold sql_apply_update, sql_write, row_expected. destruct (is_null (new_oid u)) eqn:Hn.
  - rewrite andb_false_r. unfold mbind, ST_bind.
    destruct (with_context _ _ m) as [[rows|] m1] eqn:Hd; [|done].
    apply with_context_Ok, execute_Ok in Hd. case_decide as Hr; injection Hd as <- <-; [|done].
    by intros [= <-].
  - destruct (is_null (old_oid u)) eqn:Ho; cbn [andb negb].
    + destruct (insert_ref _ _ _ m) as [[[]|] m1] eqn:Hi; [|done]. intros [= <-].
      apply execute_Ok in Hi. case_decide as Hr; [done|]. destruct (references id m); [|done].
      injection Hi as <-. split; [done|]. by apply eq_None_not_Some.
    + unfold mbind, ST_bind. destruct (with_context _ _ m) as [[rows|] m1] eqn:Hd; [|done].
      apply with_context_Ok, execute_Ok in Hd. case_decide as Hr; injection Hd as <- <-; [|done].
      by intros [= <-].
Qed.

Lemma cas_update_expected id u m :
  row_expected u (refs m !! (id, refname u)) →
  cas_update (sql_refs id m) u = Some (sql_refs id (sql_write id u m)).
Proof.
  unfold row_expected, cas_update. rewrite sql_refs_write. intros Hr.
  destruct (is_null (old_oid u)) eqn:Ho; cbn [andb] in Hr.
  - assert (sql_refs id m !! refname u = None) as ->; [|done].
    destruct (is_null (new_oid u)); cbn [negb] in Hr; [|by apply lookup_sql_refs_None].
    apply eq_None_not_Some. intros [o [Hl Hn]%lookup_sql_refs]. rewrite Hr in Hl.
    injection Hl as E%oid_as_bytes_inj. congruence.
  - rewrite decide_True; [done|]. by apply lookup_sql_refs.
Qed.

Lemma sql_update_loop_Ok id us m m' :
  for_each (sql_apply_update id) us m = (Ok (), m') →
  cas_updates (sql_refs id m) us = Some (sql_refs id m').
Proof.
  revert m; induction us as [|u us IH]; intros m; cbn [for_each cas_updates]; [by intros [= <-]|].
  unfold mbind at 1, ST_bind. destruct (sql_apply_update id u m) as [[[]|] m1] eqn:Hu; [|done].
  apply sql_apply_update_Ok in Hu as [-> Hr]. rewrite (cas_update_expected _ _ _ Hr). apply IH.
Qed.

Lemma sql_update_loop_frame id id' us m m' :
  id' ≠ id → for_each (sql_apply_update id) us m = (Ok (), m') → sql_refs id' m' = sql_refs id' m.
Proof.
  intros Hne. revert m; induction us as [|u us IH]; intros m; cbn [for_each]; [by intros [= <-]|].
  unfold mbind at 1, ST_bind. destruct (sql_apply_update id u m) as [[[]|] m1] eqn:Hu; [|done].
  apply sql_apply_update_Ok in Hu as [-> _]. intros Hrest. rewrite (IH _ Hrest).
  apply sql_refs_other. intros n.
  destruct (is_null _); [rewrite lookup_delete_ne|rewrite lookup_insert_ne]; congruence.
Qed.

(** The repository exists, and its rows hold ids that are not null. *)
Definition refs_wf (id : N) (m : SqlDb) : Prop :=
  references id m = true ∧
  ∀ n v, refs m !! (id, n) = Some v → ∃ o, v = oid_as_bytes o ∧ is_null o = false.

Lemma refs_wf_write id u m : refs_wf id m → refs_wf id (sql_write id u m).
Proof.
  intros [Hr Hw]. split; [done|]. intros n v. unfold sql_write. cbn [refs set_refs].
  destruct (is_null (new_oid u)) eqn:Hn.
  - intros [_ Hv]%lookup_delete_Some. by eapply Hw.
  - intros [[_ <-]|[_ Hv]]%lookup_insert_Some; [eauto|by eapply Hw].
Qed.

(** Creating nothing by deleting nothing. *)
Definition void_update (u : RefUpdate) : Prop := is_null (old_oid u) = true ∧ is_null (new_oid u) = true.

Section no_faults.
Hypothesis no_fault : ∀ m op, sql_fault m op = None.

Lemma sql_apply_update_run id u m :
  refs_wf id m →
  (¬ void_update u ∧ cas_update (sql_refs id m) u = Some (sql_refs id (sql_write id u m)) ∧
   sql_apply_update id u m = (Ok (), sql_write id u m)) ∨
  ((void_update u ∨ cas_update (sql_refs id m) u = None) ∧
   ∃ e, sql_apply_update id u m = (Err e, m)).
Proof.
  intros [Hrep Hw]. unfold void_update.
  assert (sql_refs id m !! refname u = None ↔ refs m !! (id, refname u) = None) as HNone.
  { split; [|apply lookup_sql_refs_None]. intros E. apply eq_None_not_Some. intros [v Hv].
    destruct (Hw _ _ Hv) as (o & -> & Hn). by rewrite (proj2 (lookup_sql_refs id m (refname u) o)) in E. }
  assert (∀ o, is_null o = false →
    sql_refs id m !! refname u = Some o ↔ refs m !! (id, refname u) = Some (oid_as_bytes o)) as HSome.
  { intros o Hn. rewrite lookup_sql_refs. naive_solver. }
  unfold sql_apply_update, delete_ref, insert_ref, update_ref, execute, with_context, require_row,
    mbind, ST_bind, lift, cas_update. rewrite sql_refs_write. unfold sql_write.
  destruct (is_null (new_oid u)) eqn:Hn, (is_null (old_oid u)) eqn:Ho; rewrite no_fault.
  - right. split; [by left|]. rewrite decide_False; [by eexists|]. intros Hr.
    destruct (Hw _ _ Hr) as (o & E%oid_as_bytes_inj & Hno). congruence.
  - destruct (decide (refs m !! (id, refname u) = _)) as [Hr|Hr].
    + left. rewrite decide_True by (by apply HSome). naive_solver.
    + right. rewrite decide_False by (by rewrite HSome). split; [by right|]. by eexists.
  - case_decide as Hr.
    + right. split; [|by eexists]. right. destruct (sql_refs id m !! refname u) eqn:E; [done|].
      rewrite (proj1 HNone eq_refl) in Hr. by destruct Hr.
    + rewrite Hrep. left. apply eq_None_not_Some in Hr. apply HNone in Hr. rewrite Hr. naive_solver.
  - destruct (decide (refs m !! (id, refname u) = _)) as [Hr|Hr].
    + left. rewrite decide_True by (by apply HSome). naive_solver.
    + right. rewrite decide_False by (by rewrite HSome). split; [by right|]. by eexists.
Qed.

Lemma sql_update_loop_run id us m :
  refs_wf id m →
  (Forall (λ u, ¬ void_update u) us ∧
   ∃ m', cas_updates (sql_refs id m) us = Some (sql_refs id m') ∧ refs_wf id m' ∧
         for_each (sql_apply_update id) us m = (Ok (), m')) ∨
  ((Exists void_update us ∨ cas_updates (sql_refs id m) us = None) ∧
   ∃ e m', for_each (sql_apply_update id) us m = (Err e, m')).
Proof.
  revert m; induction us as [|u us IH]; intros m Hw.
  { left. split; [constructor|]. by exists m. }
  change (for_each (sql_apply_update id) (u :: us) m) with
    (match sql_apply_update id u m with
     | (Ok _, m1) => for_each (sql_apply_update id) us m1
     | (Err e, m1) => (Err e, m1)
     end). cbn [cas_updates].
  destruct (sql_apply_update_run id u m Hw) as [(Hv & Hc & ->)|[Hc [e ->]]].
  - rewrite Hc. cbn [mbind option_bind].
    destruct (IH _ (refs_wf_write _ u _ Hw)) as [(Hf & m' & Hcs & Hw' & Hrun)|[Hc' Hrun]].
    + left. split; [by constructor|]. exists m'. split_and!; [exact Hcs|exact Hw'|exact Hrun].
    + right. split; [|exact Hrun]. destruct Hc' as [?|Hcs]; [left; by right|right; exact Hcs].
  - right. split; [|by eexists _, _]. destruct Hc as [Hv|Hc]; [left; by left|]. right. by rewrite Hc.
Qed.

Lemma sql_update_refs_run id us m :
  refs_wf id m →
  (Forall (λ u, ¬ void_update u) us →
   match cas_updates (sql_refs id m) us with
   | Some rs => ∃ m', sql_update_refs id us m = (Ok (), m') ∧ sql_refs id m' = rs ∧ refs_wf id m'
   | None => ∃ e, sql_update_refs id us m = (Err e, m)
   end) ∧
  (Exists void_update us → ∃ e, sql_update_refs id us m = (Err e, m)).
Proof.
  intros Hw. unfold sql_update_refs, sql_txn.
  destruct us as [|u us'] eqn:Hus.
  { split; [intros _; by exists m|]. by intros ?%Exists_nil. }
  rewrite <- Hus, !no_fault. clear Hus u us'.
  destruct (sql_update_loop_run id us m Hw) as [(Hv & m' & -> & Hw' & ->)|[Hc (e & m' & ->)]].
  - rewrite no_fault. split; [by eexists|]. intros Hex. exfalso.
    apply Exists_exists in Hex as (u & Hin & Hu). rewrite Forall_forall in Hv. by eapply Hv.
  - split; [|by eexists]. intros Hv. destruct Hc as [Hex| ->]; [|by eexists].
    exfalso. apply Exists_exists in Hex as (u & Hin & Hu). rewrite Forall_forall in Hv. by eapply Hv.
Qed.

Lemma sql_resolve_ref_run id n m :
  refs_wf id m → sql_resolve_ref id n m = (Ok (sql_refs id m !! n), m).
Proof.
  intros [_ Hw]. unfold sql_resolve_ref, with_context, select, mbind, ST_bind, lift. rewrite no_fault.
  cbn [map_err]. destruct (refs m !! (id, n)) as [v|] eqn:Hv; [|by rewrite lookup_sql_refs_None].
  destruct (Hw _ _ Hv) as (o & -> & Hn). unfold parse_oid. rewrite oid_try_from_as_bytes. cbn.
  by rewrite (proj2 (lookup_sql_refs id m n o)).
Qed.
End no_faults.

(** (C12) The SQL backend's [update_refs] is the compare-and-swap of the trait's contract
    too: on a database that answers, for a repository whose refs are well formed, it
    succeeds if and only if every update in order finds the old value it names and none
    asks to delete a ref that is to be absent; then the refs are the result, and otherwise
    the whole database is as before.  (The KV backend accepts such a void update.) *)
Theorem sql_update_refs_cas id us m :
  (∀ m op, sql_fault m op = None) → refs_wf id m →
  (Forall (λ u, ¬ void_update u) us →
   match cas_updates (sql_refs id m) us with
   | Some rs => ∃ m', sql_update_refs id us m = (Ok (), m') ∧ sql_refs id m' = rs
   | None => ∃ e, sql_update_refs id us m = (Err e, m)
   end) ∧
  (Exists void_update us → ∃ e, sql_update_refs id us m = (Err e, m)).
Proof.
  intros Hnf Hw. destruct (sql_update_refs_run Hnf id us m Hw) as [H1 H2]. split; [|done].
  intros Hv. specialize (H1 Hv). destruct (cas_updates _ us); naive_solver.
Qed.
End sql_refs.
