(* ===== verification/SqlGraph.v ===== *)
(** * The commit graph of the SQL backend ([backend/sql/graph.rs])

    When the recursive query ends and what it returns, push kinds and reachability walks
    against the graph the table holds, and the price of [UNION ALL]: the query returns one
    row per path, not per commit. *)

From stdpp Require Import base gmap list sorting strings relations.
From Stdlib Require Import Strings.Byte ZArith Lia.
From S2P Require Import Prelude Bytes Gix Proto Types Handlers Graph Inspect Sql.
Open Scope N_scope.

(** ** The recursive query *)

Section cte.
Context {K : Type} (step : K → list K).

(** The rows are the commits reachable from the first generation. *)
Lemma cte_rows_spec fuel level rows :
  cte_rows step fuel level = Some rows → ∀ p, p ∈ rows ↔ ∃ o, o ∈ level ∧ reaches step o p.
Proof.
  revert level rows; induction fuel as [|fuel IH]; intros [|a level] rows; cbn [cte_rows]; try done.
  1,2: intros [= <-] p; split; [by intros ?%elem_of_nil|by intros (o & ?%elem_of_nil & _)].
  destruct (cte_rows step fuel _) as [rest|] eqn:Hr; [|done]. intros [= <-] p.
  change (a :: level ++ rest) with ((a :: level) ++ rest). rewrite elem_of_app, (IH _ _ Hr). split.
  - intros [Hp|(o & (x & Hx & Hin)%list_elem_of_bind & Hop)].
    + exists p. split; [done|apply rtc_refl].
    + exists x. split; [done|]. by eapply rtc_l.
  - intros (o & Ho & Hop). destruct Hop as [|o q p Hq Hqp]; [by left|]. right. exists q.
    split; [|done]. apply list_elem_of_bind. by exists o.
Qed.

(** A query cut off after [fuel] generations has followed a path that long. *)
Lemma cte_rows_None fuel level :
  cte_rows step fuel level = None → ∃ o p, o ∈ level ∧ nsteps (λ c q, q ∈ step c) fuel o p.
Proof.
  revert level; induction fuel as [|fuel IH]; intros [|a level]; cbn [cte_rows]; try done.
  - intros _. exists a, a. split; [by left|constructor].
  - destruct (cte_rows step fuel _) eqn:Hr; [done|]. intros _.
    destruct (IH _ Hr) as (o & p & (x & Hx & Hin)%list_elem_of_bind & Hp).
    exists x, p. split; [done|]. by econstructor.
Qed.

(** No commit is among its own ancestors. *)
Definition acyclic : Prop := ∀ o p, p ∈ step o → ¬ reaches step p o.

(** In a graph without cycles a path has at most as many steps as there are commits with
    parents. *)
Lemma path_bound `{Countable K} n : ∀ (U : gset K) o p,
  acyclic → (∀ x, reaches step o x → step x ≠ [] → x ∈ U) →
  nsteps (λ c q, q ∈ step c) n o p → (n ≤ size U)%nat.
Proof.
  induction n as [|n IH]; intros U o p Hac HU Hn; [lia|]. inversion Hn as [|? ? q ? Hq Hrest]; subst.
  assert (o ∈ U) as Ho.
  { apply HU; [apply rtc_refl|]. intros E. rewrite E in Hq. by apply elem_of_nil in Hq. }
  assert (n ≤ size (U ∖ {[o]}))%nat as Hle.
  { eapply IH; [done| |done]. intros x Hx Hs. apply elem_of_difference. split.
    - apply HU; [by eapply rtc_l|done].
    - intros ->%elem_of_singleton. by eapply Hac. }
  rewrite size_difference in Hle by set_solver. rewrite size_singleton in Hle.
  assert (size U ≠ 0%nat) by (intros E%size_empty_iff; set_solver). lia.
Qed.

(** So the query ends. *)
Lemma cte_rows_total `{Countable K} (U : gset K) fuel level :
  acyclic → (∀ x, step x ≠ [] → x ∈ U) → (size U < fuel)%nat →
  ∃ rows, cte_rows step fuel level = Some rows.
Proof.
  intros Hac HU Hf. destruct (cte_rows step fuel level) as [rows|] eqn:E; [eauto|].
  apply cte_rows_None in E as (o & p & _ & Hp).
  pose proof (path_bound _ U o p Hac ltac:(auto) Hp). lia.
Qed.

(** *** One row per path *)

Lemma cte_rows_app fuel : ∀ l1 l2 r1 r2,
  cte_rows step fuel l1 = Some r1 → cte_rows step fuel l2 = Some r2 →
  ∃ r, cte_rows step fuel (l1 ++ l2) = Some r ∧ length r = (length r1 + length r2)%nat.
Proof.
  induction fuel as [|fuel IH]; intros [|a l1] l2 r1 r2; cbn [cte_rows app]; try done.
  1,2: intros [= <-] ->; by exists r2.
  destruct (cte_rows step fuel ((a :: l1) ≫= step)) as [s1|] eqn:H1; [|done]. intros [= <-].
  destruct l2 as [|b l2].
  - intros [= <-]. rewrite app_nil_r, H1. eexists. split; [done|]. cbn. lia.
  - destruct (cte_rows step fuel ((b :: l2) ≫= step)) as [s2|] eqn:H2; [|done]. intros [= <-].
    change (a :: l1 ++ b :: l2) with ((a :: l1) ++ (b :: l2)). rewrite bind_app.
    destruct (IH _ _ _ _ H1 H2) as (r & -> & Hr). eexists. split; [done|].
    cbn [length]. rewrite !length_app, Hr. cbn [length]. lia.
Qed.
End cte.

(** A chain of merges: commit [3i] has the two parents [3i+1] and [3i+2], which both have
    the parent [3i+3]; the history ends at [3n]. *)
Definition merges (n : nat) (c : nat) : list nat :=
  if decide (3 * n ≤ c)%nat then []
  else match (c mod 3)%nat with 0 => [c + 1; c + 2] | 1 => [c + 2] | _ => [c + 1] end%nat.

Lemma merges_at n i :
  (i < n)%nat → merges n (3 * i) = [3 * i + 1; 3 * i + 2]%nat ∧
  merges n (3 * i + 1) = [3 * S i]%nat ∧ merges n (3 * i + 2) = [3 * S i]%nat.
Proof.
  intros Hi. unfold merges. rewrite !decide_False by lia. split_and!.
  - by rewrite Nat.mul_comm, Nat.Div0.mod_mul.
  - replace (3 * i + 1)%nat with (1 + i * 3)%nat at 1 by lia. rewrite Nat.Div0.mod_add.
    cbn -[Nat.add Nat.mul]. f_equal. lia.
  - replace (3 * i + 2)%nat with (2 + i * 3)%nat at 1 by lia. rewrite Nat.Div0.mod_add.
    cbn -[Nat.add Nat.mul]. f_equal. lia.
Qed.

Lemma merges_le n a b : b ∈ merges n a → (b ≤ 3 * n)%nat.
Proof.
  unfold merges. case_decide as Hd; [by intros ?%elem_of_nil|].
  pose proof (Nat.div_mod a 3 ltac:(lia)) as Hdm.
  destruct (a mod 3)%nat as [|[|x]] eqn:E; rewrite ?elem_of_cons, ?elem_of_nil; lia.
Qed.

(** (C37) The ancestor query takes one row per path through the history: on [n] successive
    merges of two commits each, [3n + 1] commits in all, the query ends, and it has
    returned at least [2^n] rows. *)
Theorem ancestor_query_blowup n extra :
  ∃ rows, cte_rows (merges n) (2 * n + 1 + extra) [0%nat] = Some rows ∧
          (2 ^ n ≤ length rows)%nat ∧ ∀ c, c ∈ rows → (c ≤ 3 * n)%nat.
Proof.
  assert (∀ k, (k ≤ n)%nat → ∀ extra, ∃ rows,
    cte_rows (merges n) (2 * k + 1 + extra) [(3 * (n - k))%nat] = Some rows ∧
    (2 ^ k ≤ length rows)%nat) as Hk.
  { induction k as [|k IH]; intros Hk f.
    { rewrite Nat.sub_0_r. cbn [Nat.mul Nat.add cte_rows mbind list_bind app]. unfold merges at 2.
      rewrite decide_True by lia. destruct f; eexists; (split; [done|cbn; lia]). }
    destruct (IH ltac:(lia) f) as (r3 & H3 & Hr3). clear IH.
    set (i := (n - S k)%nat). replace (n - k)%nat with (S i) in H3 by lia.
    destruct (merges_at n i ltac:(lia)) as (M0 & M1 & M2).
    replace (2 * S k + 1 + f)%nat with (S (S (2 * k + 1 + f))) by lia.
    cbn [cte_rows mbind list_bind app]. rewrite M0. cbn [cte_rows mbind list_bind app].
    rewrite M1, M2. cbn [app].
    destruct (cte_rows_app _ _ _ _ _ _ H3 H3) as (r & Hr & Hlen). cbn [app] in Hr.
    rewrite Hr. eexists. split; [done|]. cbn. lia. }
  destruct (Hk n (le_n n) extra) as (rows & Hrun & Hlen). rewrite Nat.sub_diag, Nat.mul_0_r in Hrun.
  exists rows. split; [done|]. split; [done|]. intros c Hc.
  apply (proj1 (cte_rows_spec _ _ _ _ Hrun c)) in Hc as (o & ->%list_elem_of_singleton & Hr).
  clear -Hr. assert (∀ a, (a ≤ 3 * n)%nat → reaches (merges n) a c → (c ≤ 3 * n)%nat) as Hgo;
    [|apply (Hgo 0%nat); [lia|done]].
  clear. intros a Ha Hr. revert Ha. induction Hr as [|a b c Hab _ IH]; [done|]. intros Ha. apply IH.
  by apply merges_le in Hab.
Qed.

(** ** The graph in the table *)

Section sql_graph.
Context `{GixHashLaws} {gix_object : GixObject} {sqlx : Sqlx}.

Lemma parse_oid_Ok b o : parse_oid b = Ok o ↔ b = oid_as_bytes o.
Proof.
  unfold parse_oid. split.
  - destruct (oid_try_from b) eqn:E; [|done]. intros [= <-]. by apply oid_as_bytes_try_from in E.
  - intros ->. by rewrite oid_try_from_as_bytes.
Qed.

(** The parent column of a commit, in order of position. *)
Definition parent_column (id : N) (m : SqlDb) (o : ObjectId) : list bytes :=
  snd <$> merge_sort by_position (parent_rows id (oid_as_bytes o) m).

Definition sql_graph (id : N) (m : SqlDb) (o : ObjectId) : list ObjectId :=
  default [] (ok (mapM parse_oid (parent_column id m o))).

Lemma elem_of_parent_column id m o b :
  b ∈ parent_column id m o ↔ b ∈ cte_step id m (oid_as_bytes o).
Proof.
  unfold parent_column, cte_step. rewrite !list_elem_of_fmap. setoid_rewrite (merge_sort_Permutation _ _).
  done.
Qed.

Lemma elem_of_cte_step id m c b :
  b ∈ cte_step id m c ↔ ∃ pos, commit_parents m !! (id, c, pos) = Some b.
Proof.
  unfold cte_step, parent_rows. rewrite list_elem_of_fmap. split.
  - intros ([pos p] & -> & ([[[i c'] pos'] p'] & Hin & Hr)%list_elem_of_omap).
    case_decide as E; [|done]. destruct E as [-> ->]. injection Hr as -> ->.
    exists pos. by apply elem_of_map_to_list in Hin.
  - intros [pos Hp]. exists (pos, b). split; [done|]. apply list_elem_of_omap.
    exists ((id, c, pos), b). split; [by apply elem_of_map_to_list|]. by rewrite decide_True.
Qed.

(** When the whole column parses, it is the parents. *)
Lemma sql_graph_parsed id m o :
  (∀ b, b ∈ cte_step id m (oid_as_bytes o) → ∃ p, b = oid_as_bytes p) →
  ∀ p, p ∈ sql_graph id m o ↔ oid_as_bytes p ∈ cte_step id m (oid_as_bytes o).
Proof.
  intros Hb p. unfold sql_graph.
  destruct (result_mapM_total parse_oid (parent_column id m o)) as [l Hl].
  { intros b Hin. destruct (Hb b) as [q ->]; [by apply elem_of_parent_column|]. exists q. by apply parse_oid_Ok. }
  rewrite Hl. cbn [ok default]. rewrite <- elem_of_parent_column. apply result_mapM_Ok in Hl. split.
  - intros Hp. apply list_elem_of_lookup in Hp as [i Hi].
    destruct (Forall2_lookup_r _ _ _ _ _ Hl Hi) as (b & Hbi & ->%parse_oid_Ok). by eapply list_elem_of_lookup_2.
  - intros Hp. apply list_elem_of_lookup in Hp as [i Hi].
    destruct (Forall2_lookup_l _ _ _ _ _ Hl Hi) as (q & Hqi & E%parse_oid_Ok).
    apply oid_as_bytes_inj in E as ->. by eapply list_elem_of_lookup_2.
Qed.

Lemma sql_graph_sound id m o p :
  p ∈ sql_graph id m o → oid_as_bytes p ∈ cte_step id m (oid_as_bytes o).
Proof.
  unfold sql_graph. destruct (mapM _ _) as [l|] eqn:Hl; cbn; [|by intros ?%elem_of_nil].
  intros Hp. rewrite <- elem_of_parent_column. apply result_mapM_Ok in Hl.
  apply list_elem_of_lookup in Hp as [i Hi].
  destruct (Forall2_lookup_r _ _ _ _ _ Hl Hi) as (b & Hbi & ->%parse_oid_Ok). by eapply list_elem_of_lookup_2.
Qed.

Lemma reaches_cte id m o p :
  reaches (sql_graph id m) o p → reaches (cte_step id m) (oid_as_bytes o) (oid_as_bytes p).
Proof.
  induction 1 as [|a b c Hab _ IH]; [apply rtc_refl|]. eapply rtc_l; [|exact IH]. by apply sql_graph_sound.
Qed.

(** Everything reachable as bytes is an id: then both graphs agree. *)
Lemma reaches_sql_graph id m o b :
  (∀ b, reaches (cte_step id m) (oid_as_bytes o) b → ∃ p, b = oid_as_bytes p) →
  reaches (cte_step id m) (oid_as_bytes o) b → ∃ p, b = oid_as_bytes p ∧ reaches (sql_graph id m) o p.
Proof.
  intros Hall Hr. remember (oid_as_bytes o) as a eqn:Ea. revert o Ea.
  induction Hr as [a|a c b Hac Hcb IH]; intros o ->.
  { exists o. split; [done|apply rtc_refl]. }
  destruct (Hall c) as [q ->]; [by eapply rtc_l; [|apply rtc_refl]|].
  destruct (IH ltac:(intros x Hx; apply Hall; by eapply rtc_l) q eq_refl) as (p & -> & Hp).
  exists p. split; [done|]. eapply rtc_l; [|done]. apply sql_graph_parsed; [|done].
  intros x Hx. apply Hall. by eapply rtc_l; [|apply rtc_refl].
Qed.

(** The parsed rows of the query are the ancestors. *)
Lemma ancestors_query_graph id m o rows os :
  ancestors_query id m o = Some rows → mapM parse_oid rows = Ok os →
  ∀ p, p ∈ os ↔ reaches (sql_graph id m) o p.
Proof.
  intros Hq Hos p. pose proof (cte_rows_spec _ _ _ _ Hq) as Hrows. apply result_mapM_Ok in Hos.
  assert (∀ b, b ∈ rows ↔ reaches (cte_step id m) (oid_as_bytes o) b) as Hr.
  { intros b. rewrite Hrows. setoid_rewrite list_elem_of_singleton. naive_solver. }
  assert (∀ b, b ∈ rows → ∃ q, b = oid_as_bytes q ∧ q ∈ os) as Hparse.
  { intros b [i Hi]%list_elem_of_lookup.
    destruct (Forall2_lookup_l _ _ _ _ _ Hos Hi) as (q & Hqi & ->%parse_oid_Ok). exists q.
    split; [done|]. by eapply list_elem_of_lookup_2. }
  split.
  - intros [i Hi]%list_elem_of_lookup.
    destruct (Forall2_lookup_r _ _ _ _ _ Hos Hi) as (b & Hbi & ->%parse_oid_Ok).
    apply list_elem_of_lookup_2, Hr in Hbi.
    destruct (reaches_sql_graph id m o (oid_as_bytes p)) as (q & E%oid_as_bytes_inj & Hq'); [|done|by subst].
    intros b [q [-> _]]%Hr%Hparse. by exists q.
  - intros Hp%reaches_cte. apply Hr, Hparse in Hp as (q & E%oid_as_bytes_inj & Hq'). by subst.
Qed.

(** *** Reachability *)

Lemma sql_collect_all_spec id m excluding set S :
  sql_collect_all id m excluding set = Some (Ok S) →
  ∀ o, o ∈ S ↔ o ∈ set ∨ reached_from (sql_graph id m) excluding o.
Proof.
  revert set; induction excluding as [|x ex IH]; intros set; cbn [sql_collect_all].
  { intros [= <-] o. split; [by left|]. intros [?|(f & ?%elem_of_nil & _)]; done. }
  unfold sql_collect_ancestors. destruct (sql_fault m _); [done|].
  destruct (ancestors_query id m x) as [rows|] eqn:Hq; [|done]. cbn [mbind option_bind].
  destruct (mapM parse_oid rows) as [os|] eqn:Hos; [|done]. intros HS o. rewrite (IH _ HS).
  change (x :: ex) with ([x] ++ ex). rewrite reached_from_app, elem_of_union, elem_of_list_to_set.
  rewrite (ancestors_query_graph _ _ _ _ _ Hq Hos). unfold reached_from at 2.
  setoid_rewrite list_elem_of_singleton. naive_solver.
Qed.

Lemma sql_fetch_parents_Ok id m o ps : sql_fetch_parents id m o = Ok ps → sql_graph id m o = ps.
Proof.
  unfold sql_fetch_parents, select_parents, select. destruct (sql_fault m _); [done|].
  cbn [fst map_err mbind result_bind]. unfold sql_graph, parent_column. by intros ->.
Qed.

(** The parents a walk sees: those of the table, unless the query fails. *)
Lemma sql_parents_view id m o :
  sql_fault m (OpStatement (b! "SELECT parent_oid FROM commit_parents")) = None →
  parents (sql_fetch_parents id m) o = sql_graph id m o.
Proof.
  intros Hf. unfold parents, sql_fetch_parents, select_parents, select. by rewrite Hf.
Qed.

Lemma reaches_ext {O} (f g : O → list O) o p : (∀ x, f x = g x) → reaches f o p ↔ reaches g o p.
Proof.
  intros Hfg. split; induction 1 as [|a b c Hab _ IH]; try apply rtc_refl; (eapply rtc_l; [|exact IH]).
  - by rewrite <- Hfg.
  - by rewrite Hfg.
Qed.

Lemma reached_from_ext {O} (f g : O → list O) from p :
  (∀ x, f x = g x) → reached_from f from p ↔ reached_from g from p.
Proof. intros Hfg. unfold reached_from. by setoid_rewrite (reaches_ext f g _ _ Hfg). Qed.

(** A walk whose parent query fails can only have had nothing to visit. *)
Lemma walk_from_faulty id m fuel cap X from e l :
  sql_fault m (OpStatement (b! "SELECT parent_oid FROM commit_parents")) = Some e →
  walk_from (sql_fetch_parents id m) fuel cap X from = Some (Ok l) →
  l = [] ∧ ∀ o, o ∈ from → o ∈ X.
Proof.
  intros Hf. unfold walk_from. destruct (enqueue X from ∅ []) as [v q] eqn:He.
  apply (enqueue_spec (sql_fetch_parents id m)) in He as (new & -> & _ & _ & Hnew). cbn [app].
  destruct fuel; cbn [reachable_loop]; [done|]. destruct new as [|o new].
  - intros [= <-]. split; [done|]. intros o Ho.
    destruct (decide (o ∈ X)); [done|]. exfalso.
    assert (o ∈ ([] : list ObjectId)) as ?%elem_of_nil; [|done].
    apply Hnew. split_and!; [done|done|]. by apply not_elem_of_empty.
  - case_match; [done|]. unfold sql_fetch_parents at 1, select_parents, select. by rewrite Hf.
Qed.

Lemma sql_reachable_spec id from excluding cap m l :
  sql_reachable_excluding id from excluding cap m = Some (Ok l) →
  NoDup l ∧ len l ≤ cap ∧
  ∀ o, o ∈ l ↔ reached_from (sql_graph id m) from o ∧ ¬ reached_from (sql_graph id m) excluding o.
Proof.
  unfold sql_reachable_excluding. destruct from as [|f0 from'] eqn:Hfrom.
  { intros [= <-]. split_and!; [constructor|unfold len; cbn; lia|]. intros o.
    split; [by intros ?%elem_of_nil|]. by intros [(f & ?%elem_of_nil & _) _]. }
  rewrite <- Hfrom. clear Hfrom.
  destruct (sql_collect_all id m excluding ∅) as [[X|]|] eqn:HX; [|done..]. cbn [mbind option_bind].
  destruct (walk_from _ _ _ _ _) as [[l'|]|] eqn:Hw; [|done..]. intros [= <-].
  pose proof (sql_collect_all_spec _ _ _ _ _ HX) as HX'.
  assert (∀ o, o ∈ X ↔ reached_from (sql_graph id m) excluding o) as Hspec.
  { intros o. rewrite HX'. split; [by intros [?%not_elem_of_empty|?]|by right]. }
  destruct (sql_fault m (OpStatement (b! "SELECT parent_oid FROM commit_parents"))) as [e|] eqn:Hf.
  - apply (walk_from_faulty _ _ _ _ _ _ _ _ Hf) in Hw as [-> Hall].
    split_and!; [constructor|unfold len; cbn; lia|]. intros o. split; [by intros ?%elem_of_nil|].
    intros [(f & Hin & Hr) Hne]. exfalso. apply Hne. apply Hall, Hspec in Hin as (g & Hg & Hgf).
    exists g. split; [done|]. by etrans.
  - pose proof (λ x, sql_parents_view id m x Hf) as Hview.
    apply (walk_from_Ok (sql_fetch_parents id m) _ from excluding _ X) in Hw as (Hnd & Hcap & Hl).
    + split_and!; [done|done|]. intros o. rewrite Hl. by rewrite !(reached_from_ext _ _ _ _ Hview).
    + intros o p Ho Hp. rewrite Hview in Hp. apply Hspec in Ho as (g & Hg & Hgo). apply Hspec.
      exists g. split; [done|]. by eapply rtc_r.
    + intros o. by rewrite (reached_from_ext _ _ _ _ Hview).
Qed.

(** *** When queries and walks return *)

(** Every stored parent is an id, and no commit is its own ancestor. *)
Record history_wf (id : N) (m : SqlDb) : Prop := {
  parents_are_ids c pos b : commit_parents m !! (id, c, pos) = Some b → ∃ o, b = oid_as_bytes o;
  history_acyclic : acyclic (cte_step id m) }.

Definition committed (m : SqlDb) : gset bytes :=
  list_to_set ((λ x, x.1.1.2) <$> map_to_list (commit_parents m)).

Lemma size_committed m : (size (committed m) ≤ size (commit_parents m))%nat.
Proof.
  unfold committed. etrans; [apply size_list_to_set_le|]. rewrite length_fmap.
  by rewrite length_map_to_list.
Qed.

Lemma ancestors_query_total id m o : history_wf id m → ∃ rows, ancestors_query id m o = Some rows.
Proof.
  intros [_ Hac]. apply (cte_rows_total _ (committed m)); [done| |].
  - intros c Hc. destruct (cte_step id m c) as [|b l] eqn:E; [done|].
    assert (b ∈ cte_step id m c) as [pos Hp]%elem_of_cte_step by (rewrite E; by left).
    apply elem_of_list_to_set, list_elem_of_fmap. exists ((id, c, pos), b).
    split; [done|]. by apply elem_of_map_to_list.
  - unfold cte_fuel. pose proof (size_committed m). lia.
Qed.

Lemma ancestors_are_ids id m o rows :
  history_wf id m → ancestors_query id m o = Some rows → ∀ b, b ∈ rows → ∃ p, b = oid_as_bytes p.
Proof.
  intros Hw Hq b Hb. apply (cte_rows_spec _ _ _ _ Hq) in Hb as (a & ->%list_elem_of_singleton & Hr).
  apply rtc_inv_r in Hr as [<-|(c & _ & Hcb)]; [by exists o|].
  apply elem_of_cte_step in Hcb as [pos Hp]. by eapply parents_are_ids.
Qed.

Lemma sql_is_ancestor_spec id a d m b :
  history_wf id m → sql_is_ancestor id a d m = Some (Ok b) → b = true ↔ reaches (sql_graph id m) d a.
Proof.
  intros Hw. unfold sql_is_ancestor. destruct (sql_fault m _); [done|].
  destruct (ancestors_query id m d) as [rows|] eqn:Hq; [|done]. cbn. intros [= <-].
  rewrite bool_decide_eq_true.
  destruct (result_mapM_total parse_oid rows) as [os Hos].
  { intros x Hx. destruct (ancestors_are_ids _ _ _ _ Hw Hq x Hx) as [p ->]. exists p. by apply parse_oid_Ok. }
  rewrite <- (ancestors_query_graph _ _ _ _ _ Hq Hos). apply result_mapM_Ok in Hos. split.
  - intros [i Hi]%list_elem_of_lookup.
    destruct (Forall2_lookup_l _ _ _ _ _ Hos Hi) as (q & Hqi & E%parse_oid_Ok).
    apply oid_as_bytes_inj in E as ->. by eapply list_elem_of_lookup_2.
  - intros [i Hi]%list_elem_of_lookup.
    destruct (Forall2_lookup_r _ _ _ _ _ Hos Hi) as (x & Hx & ->%parse_oid_Ok).
    by eapply list_elem_of_lookup_2.
Qed.

Lemma sql_is_ancestor_total id a d m :
  (∀ m op, sql_fault m op = None) → history_wf id m → ∃ b, sql_is_ancestor id a d m = Some (Ok b).
Proof.
  intros Hnf Hw. unfold sql_is_ancestor. rewrite Hnf.
  destruct (ancestors_query_total id m d Hw) as [rows ->]. cbn. eauto.
Qed.

(** Push kinds of the SQL backend: over a history without cycles the ancestor query
    ends, a push is a create exactly when the old id is null and otherwise a delete exactly
    when the new one is, and it is called a fast-forward exactly when the query does not
    fail and the old tip is an ancestor of the new one. *)
Theorem sql_push_kind_correct id old new m :
  history_wf id m →
  ∃ k, sql_compute_push_kind id old new m = Some k ∧
    (k = Create ↔ old = oid_null) ∧
    (k = Delete ↔ old ≠ oid_null ∧ new = oid_null) ∧
    (k = FastForward ↔ old ≠ oid_null ∧ new ≠ oid_null ∧ reaches (sql_graph id m) new old ∧
       sql_fault m (OpStatement (b! "WITH RECURSIVE ancestors EXISTS")) = None).
Proof.
  intros Hw. unfold sql_compute_push_kind. destruct (is_null old) eqn:Ho.
  { apply is_null_true in Ho. eexists. split; [done|]. naive_solver. }
  apply is_null_false in Ho. destruct (is_null new) eqn:Hn.
  { apply is_null_true in Hn. eexists. split; [done|]. naive_solver. }
  apply is_null_false in Hn. destruct (sql_is_ancestor id old new m) as [[b|e]|] eqn:Hk.
  - pose proof (sql_is_ancestor_spec _ _ _ _ _ Hw Hk) as Hb. cbn. eexists. split; [done|].
    unfold sql_is_ancestor in Hk. destruct (sql_fault m _); [done|]. destruct b; naive_solver.
  - cbn. eexists. split; [done|]. unfold sql_is_ancestor in Hk. destruct (sql_fault m _); [naive_solver|].
    by destruct (ancestors_query id m new).
  - exfalso. unfold sql_is_ancestor in Hk. destruct (sql_fault m _); [done|].
    destruct (ancestors_query_total id m new Hw) as [rows E]. by rewrite E in Hk.
Qed.

(** The commits a walk can meet. *)
Definition sql_universe (from : list ObjectId) (m : SqlDb) : gset ObjectId :=
  list_to_set from ∪ list_to_set (omap (λ x, ok (oid_try_from x.2)) (map_to_list (commit_parents m))).

Lemma size_sql_universe from m :
  (size (sql_universe from m) ≤ length from + size (commit_parents m))%nat.
Proof.
  unfold sql_universe. etrans; [apply size_union_le|].
  pose proof (size_list_to_set_le from).
  pose proof (size_list_to_set_le
    (omap (λ x, ok (oid_try_from x.2)) (map_to_list (commit_parents m)))).
  pose proof (length_omap_le (λ x : (N * bytes * Z) * bytes, ok (oid_try_from x.2))
    (map_to_list (commit_parents m))) as Hl. rewrite length_map_to_list in Hl. lia.
Qed.

Lemma sql_graph_universe id from m o p : p ∈ sql_graph id m o → p ∈ sql_universe from m.
Proof.
  intros Hp%sql_graph_sound. apply elem_of_cte_step in Hp as [pos Hp].
  unfold sql_universe. apply elem_of_union_r, elem_of_list_to_set, list_elem_of_omap.
  exists ((id, oid_as_bytes o, pos), oid_as_bytes p). split; [by apply elem_of_map_to_list|].
  cbn. by rewrite oid_try_from_as_bytes.
Qed.

Lemma sql_fetch_parents_total id m o :
  (∀ m op, sql_fault m op = None) → history_wf id m → ∃ ps, sql_fetch_parents id m o = Ok ps.
Proof.
  intros Hnf Hw. unfold sql_fetch_parents, select_parents, select. rewrite Hnf.
  cbn [fst map_err mbind result_bind]. apply result_mapM_total. intros b Hb.
  apply elem_of_parent_column, elem_of_cte_step in Hb as [pos Hp].
  destruct (parents_are_ids _ _ Hw _ _ _ Hp) as [p ->]. exists p. by apply parse_oid_Ok.
Qed.

Lemma sql_collect_all_total id m excluding set :
  (∀ m op, sql_fault m op = None) → history_wf id m →
  ∃ S, sql_collect_all id m excluding set = Some (Ok S).
Proof.
  intros Hnf Hw. revert set; induction excluding as [|x ex IH]; intros set; cbn [sql_collect_all]; [eauto|].
  unfold sql_collect_ancestors. rewrite Hnf. destruct (ancestors_query_total id m x Hw) as [rows Hq].
  rewrite Hq. cbn [mbind option_bind].
  destruct (result_mapM_total parse_oid rows) as [os ->]; [|apply IH].
  intros b Hb. destruct (ancestors_are_ids _ _ _ _ Hw Hq b Hb) as [p ->]. exists p. by apply parse_oid_Ok.
Qed.

Lemma sql_walk_returns id from cap X m :
  walk_from (sql_fetch_parents id m) (sql_walk_fuel from m) cap X from ≠ None.
Proof.
  pose proof (size_sql_universe from m) as Hsz.
  apply (walk_from_total _ (sql_universe from m)).
  - intros o p _ Hp. unfold parents in Hp. destruct (sql_fetch_parents id m o) as [ps|] eqn:E; cbn in Hp;
      [|by apply elem_of_nil in Hp]. apply sql_fetch_parents_Ok in E as <-. by eapply sql_graph_universe.
  - intros o Ho. unfold sql_universe. apply elem_of_union_l. by apply elem_of_list_to_set.
  - unfold sql_walk_fuel. lia.
Qed.

Lemma sql_reachable_total id from excluding cap m :
  (∀ m op, sql_fault m op = None) → history_wf id m → N.of_nat (size (sql_universe from m)) ≤ cap →
  ∃ l, sql_reachable_excluding id from excluding cap m = Some (Ok l).
Proof.
  intros Hnf Hw Hcap.
  unfold sql_reachable_excluding. destruct from as [|f0 from'] eqn:Hfrom; [eauto|].
  rewrite <- Hfrom in *. clear Hfrom.
  destruct (sql_collect_all_total id m excluding ∅ Hnf Hw) as [X ->]. cbn [mbind option_bind].
  pose proof (size_sql_universe from m) as Hsz.
  assert (closed (sql_fetch_parents id m) (sql_universe from m)) as Hcl.
  { intros o p _ Hp. rewrite sql_parents_view in Hp by apply Hnf. by eapply sql_graph_universe. }
  assert (∀ o, o ∈ from → o ∈ sql_universe from m) as Hin.
  { intros o Ho. unfold sql_universe. apply elem_of_union_l. by apply elem_of_list_to_set. }
  pose proof (sql_walk_returns id from cap X m) as Ht.
  destruct (walk_from _ _ _ _ _) as [[l|e]|] eqn:E; [eauto| |done].
  exfalso. eapply (walk_from_ok (sql_fetch_parents id m)); [|exact Hcl|exact Hin| |exact E].
  - intros o. by apply sql_fetch_parents_total.
  - lia.
Qed.

(** Reachability walks of the SQL backend are exact and bounded: a walk that returns
    lists, each once and no more than [cap], exactly the commits reachable from [from] and
    from no commit of [excluding]; and over a well-formed history on a database that
    answers, with no more commits than [cap], it does return. *)
Theorem sql_reachable_exact id from excluding cap m :
  (∀ l, sql_reachable_excluding id from excluding cap m = Some (Ok l) →
     NoDup l ∧ len l ≤ cap ∧
     ∀ o, o ∈ l ↔ reached_from (sql_graph id m) from o ∧ ¬ reached_from (sql_graph id m) excluding o) ∧
  ((∀ m op, sql_fault m op = None) → history_wf id m →
   N.of_nat (length from + size (commit_parents m)) ≤ cap →
   ∃ l, sql_reachable_excluding id from excluding cap m = Some (Ok l)).
Proof.
  split; [apply sql_reachable_spec|]. intros Hnf Hw Hcap. apply sql_reachable_total; [done..|].
  pose proof (size_sql_universe from m). lia.
Qed.
End sql_graph.
