(* ===== verification/SqlObjects.v ===== *)
(** * What the SQL backend stores ([backend/sql/objects.rs], ingestion)

    Ingesting a pack adds its objects and commit parents to the tables and never changes a
    row that is there, and what was ingested is what the reads and walks see. *)

From stdpp Require Import base gmap list sorting strings relations.
From Stdlib Require Import Strings.Byte ZArith Lia.
From S2P Require Import Prelude Bytes Gix Proto Types Handlers Graph Inspect Sql SqlGraph.
Open Scope N_scope.

Section ingest.
Context `{GixHashLaws} {gix_object : GixObject} {sqlx : Sqlx} {gix_pack : GixPack}.

(** The rows of an extracted object. *)
Definition object_row (id : N) (x : ExtractedObject) : (N * bytes) * (Z * bytes) :=
  ((id, oid_as_bytes (xo_oid x)), (xo_kind x, xo_data x)).

Definition parent_entries (id : N) (x : ExtractedObject) : list ((N * bytes * Z) * bytes) :=
  (λ '(p, pos), ((id, oid_as_bytes (xo_oid x), pos), oid_as_bytes p)) <$> xo_parents x.

(** The database with the rows of [xs] added; rows that are there win. *)
Definition with_rows (id : N) (xs : list ExtractedObject) (m : SqlDb) : SqlDb :=
  {| repositories := repositories m; refs := refs m;
     objects := objects m ∪ list_to_map (object_row id <$> xs);
     commit_parents := commit_parents m ∪ list_to_map (xs ≫= parent_entries id) |}.

Lemma insert_or_ignore `{Countable K} {A} (t : gmap K A) k v :
  (if decide (is_Some (t !! k)) then t else <[k := v]> t) = t ∪ {[k := v]}.
Proof.
  apply map_eq. intros i. rewrite lookup_union. case_decide as Hk.
  - destruct (decide (i = k)) as [->|Hne].
    + destruct Hk as [a Ha]. by rewrite Ha, lookup_singleton_eq.
    + rewrite lookup_singleton_ne by done. by rewrite (right_id_L _ _).
  - destruct (decide (i = k)) as [->|Hne].
    + apply eq_None_not_Some in Hk. by rewrite lookup_insert_eq, lookup_singleton_eq, Hk.
    + rewrite lookup_insert_ne, lookup_singleton_ne by done. by rewrite (right_id_L _ _).
Qed.

Section no_faults.
Hypothesis no_fault : ∀ m op, sql_fault m op = None.

Lemma insert_object_run id k kind data m :
  references id m = true →
  insert_object id k kind data m = (Ok (), set_objects m (objects m ∪ {[(id, k) := (kind, data)]})).
Proof.
  intros Hr. unfold insert_object, execute. rewrite no_fault, <- insert_or_ignore, Hr.
  case_decide; [by destruct m|done].
Qed.

Lemma insert_parent_run id c p pos m :
  references id m = true →
  insert_parent id c p pos m = (Ok (), set_parents m (commit_parents m ∪ {[(id, c, pos) := p]})).
Proof.
  intros Hr. unfold insert_parent, execute. rewrite no_fault, <- insert_or_ignore, Hr.
  case_decide; [by destruct m|done].
Qed.

Lemma insert_parents_run id c (ps : list (ObjectId * Z)) m :
  references id m = true →
  for_each (λ '(parent, pos),
      with_context (b! "inserting commit parent") (insert_parent id c (oid_as_bytes parent) pos)) ps m =
  (Ok (), set_parents m (commit_parents m ∪
            list_to_map ((λ '(p, pos), ((id, c, pos), oid_as_bytes p)) <$> ps))).
Proof.
  revert m; induction ps as [|[p pos] ps IH]; intros m Hr; cbn [for_each].
  { rewrite fmap_nil, list_to_map_nil, map_union_empty. by destruct m. }
  unfold mbind, ST_bind, with_context at 1. rewrite insert_parent_run by done. cbn [map_err].
  rewrite IH by done. cbn. by rewrite <- map_union_assoc, <- insert_union_singleton_l.
Qed.

Lemma ingest_object_run id x m :
  references id m = true → ingest_object id x m = (Ok (), with_rows id [x] m).
Proof.
  intros Hr. unfold ingest_object, mbind, ST_bind, with_context at 1.
  rewrite insert_object_run by done. cbn [map_err]. rewrite insert_parents_run by done.
  unfold with_rows, set_parents, set_objects. cbn. rewrite insert_empty. by rewrite app_nil_r.
Qed.

Lemma with_rows_cons id x xs m : with_rows id xs (with_rows id [x] m) = with_rows id (x :: xs) m.
Proof.
  unfold with_rows. cbn [repositories refs objects commit_parents]. f_equal.
  - rewrite <- map_union_assoc. f_equal. by rewrite <- list_to_map_app.
  - rewrite <- map_union_assoc. f_equal. rewrite <- list_to_map_app. cbn. by rewrite app_nil_r.
Qed.

Lemma ingest_objects_run id xs m :
  references id m = true → for_each (ingest_object id) xs m = (Ok (), with_rows id xs m).
Proof.
  revert m; induction xs as [|x xs IH]; intros m Hr; cbn [for_each].
  { unfold with_rows. cbn. rewrite !map_union_empty. by destruct m. }
  unfold mbind, ST_bind. rewrite ingest_object_run by done. rewrite IH by done. by rewrite with_rows_cons.
Qed.
End no_faults.

(** *** What is in the tables afterwards *)

Lemma with_rows_object id xs x m :
  NoDup (xo_oid <$> xs) → x ∈ xs →
  objects (with_rows id xs m) !! (id, oid_as_bytes (xo_oid x)) =
  Some (default (xo_kind x, xo_data x) (objects m !! (id, oid_as_bytes (xo_oid x)))).
Proof.
  intros Hnd Hx. cbn [objects with_rows]. rewrite lookup_union.
  rewrite (elem_of_list_to_map_1 (object_row id <$> xs) _ (xo_kind x, xo_data x)).
  - by destruct (objects m !! _).
  - assert ((object_row id <$> xs).*1 = (λ o, (id, oid_as_bytes o)) <$> (xo_oid <$> xs)) as ->.
    { rewrite <- !list_fmap_compose. by apply list_fmap_ext. }
    apply NoDup_fmap; [|done]. intros o p [= E%oid_as_bytes_inj]. done.
  - apply list_elem_of_fmap. by exists x.
Qed.

Lemma with_rows_other id xs m id' k :
  id' ≠ id → objects (with_rows id xs m) !! (id', k) = objects m !! (id', k).
Proof.
  intros Hne. cbn [objects with_rows]. rewrite lookup_union, not_elem_of_list_to_map_1.
  - by rewrite (right_id_L _ _).
  - intros ([[i c] v] & E & (x & [= -> _ _] & _)%list_elem_of_fmap)%list_elem_of_fmap. cbn in E. congruence.
Qed.

Lemma sql_same_oid xs x y :
  NoDup (xo_oid <$> xs) → x ∈ xs → y ∈ xs → xo_oid x = xo_oid y → x = y.
Proof.
  intros Hnd [i Hi]%list_elem_of_lookup [j Hj]%list_elem_of_lookup E.
  assert (i = j) as ->; [|congruence].
  apply (NoDup_lookup _ _ _ (xo_oid x) Hnd); rewrite list_lookup_fmap; [by rewrite Hi|].
  rewrite Hj. cbn. by rewrite E.
Qed.

(** The rows of a commit that had none are its own. *)
Lemma with_rows_parents id xs x m pos b :
  NoDup (xo_oid <$> xs) → x ∈ xs → NoDup (snd <$> xo_parents x) →
  (∀ pos, commit_parents m !! (id, oid_as_bytes (xo_oid x), pos) = None) →
  commit_parents (with_rows id xs m) !! (id, oid_as_bytes (xo_oid x), pos) = Some b ↔
  ∃ p, (p, pos) ∈ xo_parents x ∧ b = oid_as_bytes p.
Proof.
  intros Hnd Hx Hpos Hfresh. cbn [commit_parents with_rows]. rewrite lookup_union_r by done.
  assert (∀ b, ((id, oid_as_bytes (xo_oid x), pos), b) ∈ xs ≫= parent_entries id ↔
               ∃ p, (p, pos) ∈ xo_parents x ∧ b = oid_as_bytes p) as Hin.
  { intros b'. rewrite list_elem_of_bind. unfold parent_entries. split.
    - intros (y & ([p q] & [= E -> ->] & Hp)%list_elem_of_fmap & Hy). apply oid_as_bytes_inj in E.
      apply (sql_same_oid xs) in E as <-; [by exists p|done..].
    - intros (p & Hp & ->). exists x. split; [|done]. apply list_elem_of_fmap. by exists (p, pos). }
  rewrite <- Hin. split; [apply elem_of_list_to_map_2|]. intros Hb. apply elem_of_list_to_map_1'; [|done].
  intros b' Hb'. apply Hin in Hb as (p & Hp & ->). apply Hin in Hb' as (q & Hq & ->). f_equal.
  apply list_elem_of_lookup in Hp as [i Hi], Hq as [j Hj].
  assert (i = j) as ->; [|congruence].
  apply (NoDup_lookup _ _ _ pos Hpos); by rewrite list_lookup_fmap, ?Hi, ?Hj.
Qed.

(** *** The order of the parents *)

Lemma elem_of_parent_rows id c m pos b :
  (pos, b) ∈ parent_rows id c m ↔ commit_parents m !! (id, c, pos) = Some b.
Proof.
  unfold parent_rows. rewrite list_elem_of_omap. split.
  - intros ([[[i c'] pos'] p'] & Hin & Hr). case_decide as E; [|done]. destruct E as [-> ->].
    injection Hr as -> ->. by apply elem_of_map_to_list in Hin.
  - intros Hp. exists ((id, c, pos), b). split; [by apply elem_of_map_to_list|]. by rewrite decide_True.
Qed.

Lemma NoDup_parent_rows id c m : NoDup (parent_rows id c m).
Proof.
  apply NoDup_omap; [apply NoDup_map_to_list|]. intros [[[i d] q] b] [[[i' d'] q'] b'] z _ _.
  case_decide as E; [|done]. intros <-. case_decide as E'; [|done]. intros [= -> ->]. naive_solver.
Qed.

Lemma as_i32_small n : n < 2 ^ 31 → as_i32 n = Z.of_N n.
Proof.
  intros Hn. unfold as_i32. rewrite N.mod_small by lia.
  destruct (Z.ltb_spec (Z.of_N n) (2 ^ 31)); [done|]. lia.
Qed.

#[local] Instance by_position_trans : Transitive by_position.
Proof. intros x y z. unfold by_position. lia. Qed.
#[local] Instance by_position_total : Total by_position.
Proof. intros x y. unfold by_position. lia. Qed.

(** The rows of parents at positions from [pos] on, in order. *)
Fixpoint position_rows (pos : Z) (ps : list ObjectId) : list (Z * bytes) :=
  match ps with
  | [] => []
  | p :: ps' => (pos, oid_as_bytes p) :: position_rows (pos + 1) ps'
  end.

Lemma elem_of_position_rows ps pos q b :
  (q, b) ∈ position_rows pos ps ↔
  ∃ i p, ps !! i = Some p ∧ q = (pos + Z.of_nat i)%Z ∧ b = oid_as_bytes p.
Proof.
  revert pos; induction ps as [|p ps IH]; intros pos; cbn [position_rows].
  { split; [by intros ?%elem_of_nil|by intros (i & p & Hi & _)]. }
  rewrite elem_of_cons, IH. split.
  - intros [[= -> ->]|(i & p' & Hi & -> & ->)].
    + exists O, p. split_and!; [done|lia|done].
    + exists (S i), p'. split_and!; [done|lia|done].
  - intros ([|i] & p' & Hi & -> & ->); [left|right].
    + injection Hi as ->. f_equal. lia.
    + exists i, p'. split_and!; [done|lia|done].
Qed.

Lemma position_rows_sorted ps pos :
  StronglySorted by_position (position_rows pos ps) ∧ NoDup (position_rows pos ps).
Proof.
  revert pos; induction ps as [|p ps IH]; intros pos; cbn [position_rows]; [split; constructor|].
  destruct (IH (pos + 1)%Z) as [Hs Hn]. split; constructor; try done.
  - apply Forall_forall. intros [q b] (i & p' & _ & -> & _)%elem_of_position_rows. unfold by_position. cbn. lia.
  - intros (i & p' & _ & E & _)%elem_of_position_rows. lia.
Qed.

Lemma snd_position_rows ps pos : snd <$> position_rows pos ps = oid_as_bytes <$> ps.
Proof. revert pos; induction ps as [|p ps IH]; intros pos; [done|]. cbn. f_equal. apply IH. Qed.

Lemma elem_of_parent_positions ps p pos :
  len ps ≤ 2 ^ 31 → (p, pos) ∈ parent_positions ps ↔ ∃ i, ps !! i = Some p ∧ pos = Z.of_nat i.
Proof.
  intros Hl. unfold parent_positions. rewrite elem_of_lookup_imap.
  assert (∀ i q, ps !! i = Some q → as_i32 (N.of_nat i) = Z.of_nat i) as Hi.
  { intros i q Hq%lookup_lt_Some. unfold len in Hl. rewrite as_i32_small; lia. }
  split.
  - intros (i & q & [= -> ->] & Hq). exists i. split; [done|]. by eapply Hi.
  - intros (i & Hp & ->). exists i, p. split; [|done]. f_equal. symmetry. by eapply Hi.
Qed.

Lemma NoDup_parent_positions ps : len ps ≤ 2 ^ 31 → NoDup (snd <$> parent_positions ps).
Proof.
  intros Hl. apply NoDup_alt. intros i j pos. rewrite !list_lookup_fmap. unfold parent_positions.
  rewrite !list_lookup_imap. destruct (ps !! i) eqn:Hi; [|done]. destruct (ps !! j) eqn:Hj; [|done].
  cbn. intros [= <-] [= E]. apply lookup_lt_Some in Hi, Hj. unfold len in Hl.
  rewrite !as_i32_small in E by lia. lia.
Qed.

(** The walks see the parents the commit names, in its order. *)
Lemma with_rows_graph id xs x ps m :
  NoDup (xo_oid <$> xs) → x ∈ xs → xo_parents x = parent_positions ps → len ps ≤ 2 ^ 31 →
  (∀ pos, commit_parents m !! (id, oid_as_bytes (xo_oid x), pos) = None) →
  sql_graph id (with_rows id xs m) (xo_oid x) = ps.
Proof.
  intros Hnd Hx Hps Hl Hfresh. destruct (position_rows_sorted ps 0) as [Hsort Hn0].
  assert (merge_sort by_position (parent_rows id (oid_as_bytes (xo_oid x)) (with_rows id xs m)) =
          position_rows 0 ps) as E.
  { assert (∀ y, y ∈ parent_rows id (oid_as_bytes (xo_oid x)) (with_rows id xs m) ↔
                 y ∈ position_rows 0 ps) as Hin.
    { intros [pos b]. rewrite elem_of_parent_rows, with_rows_parents, elem_of_position_rows by
        (rewrite ?Hps; auto using NoDup_parent_positions). rewrite Hps.
      setoid_rewrite (elem_of_parent_positions ps _ _ Hl). naive_solver. }
    apply (StronglySorted_unique_strong by_position); [|apply StronglySorted_merge_sort; apply _|done|].
    - intros [p1 b1] [p2 b2]. rewrite merge_sort_Permutation, Hin, !elem_of_position_rows.
      intros (i & p & Hi & -> & ->) (j & q & Hj & -> & ->). unfold by_position. cbn. intros.
      assert (i = j) as -> by lia. congruence.
    - rewrite merge_sort_Permutation. apply NoDup_Permutation; [apply NoDup_parent_rows|done|done]. }
  unfold sql_graph, parent_column. rewrite E, snd_position_rows.
  assert (mapM parse_oid (oid_as_bytes <$> ps) = Ok ps) as ->; [|done].
  apply result_mapM_Ok, Forall2_fmap_l, Forall_Forall2_diag, Forall_true. intros o. by apply parse_oid_Ok.
Qed.

(** *** The round trip *)

Lemma extract_entry_commit e x o ci :
  extract_entry e = Ok (x, o) → po_kind o = KCommit ci →
  xo_oid x = c_oid ci ∧ xo_parents x = parent_positions (c_parents ci).
Proof.
  unfold extract_entry. intros ([k n] & _ & He)%result_bind_Ok.
  apply result_bind_Ok in He as (raw & _ & He). apply result_bind_Ok in He as ([[z ok] ps] & Hk & He).
  injection He as <- <-. cbn. intros ->.
  destruct k; simplify_eq/=; apply result_bind_Ok in Hk as (info & Hinfo & Hk); simplify_eq/=.
  split; [|done]. symmetry. by eapply parse_commit_info_oid.
Qed.

Lemma sql_extract_commit pack xs meta ci :
  extract_pack pack = Ok (xs, meta) → ci ∈ commits meta →
  ∃ x, x ∈ xs ∧ xo_oid x = c_oid ci ∧ xo_parents x = parent_positions (c_parents ci).
Proof.
  unfold extract_pack. intros (es & _ & (objs & Hobjs & [= <- <-])%result_bind_Ok)%result_bind_Ok.
  unfold commits. rewrite list_elem_of_omap. intros (o & Ho & Hk).
  apply list_elem_of_fmap in Ho as ([x o'] & -> & Hin). cbn [snd] in *.
  exists x. split; [apply list_elem_of_fmap; by exists (x, o')|].
  apply result_mapM_Ok in Hobjs. apply list_elem_of_lookup in Hin as [i Hi].
  destruct (Forall2_lookup_r _ _ _ _ _ Hobjs Hi) as (e & _ & He).
  apply (extract_entry_commit _ _ _ _ He). by destruct (po_kind o'); simplify_eq/=.
Qed.

(** The repository does not have the object; it has no parents recorded for the commit. *)
Definition new_object (id : N) (m : SqlDb) (x : ExtractedObject) : Prop :=
  objects m !! (id, oid_as_bytes (xo_oid x)) = None.

Definition new_commit (id : N) (m : SqlDb) (ci : CommitInfo) : Prop :=
  ∀ pos, commit_parents m !! (id, oid_as_bytes (c_oid ci), pos) = None.

(** What is pushed can be read back from the SQL tables: on a database that answers,
    ingesting a pack whose objects are distinct into an existing repository returns the
    metadata of the pack; every object the repository did not have is then stored under
    its id with its kind and bytes, no stored object changes, the walks see the parents
    of every new commit in the commit's order, and no ref and no other repository is
    touched. *)
Theorem sql_ingest_roundtrip id pack xs meta m :
  (∀ m op, sql_fault m op = None) → references id m = true → nonempty_pack (pf_pack pack) = true →
  extract_pack pack = Ok (xs, meta) → xs ≠ [] → NoDup (xo_oid <$> xs) →
  ∃ m', sql_ingest_pack id pack m = (Ok (Some (meta, xo_oid <$> xs)), m') ∧
    (∀ x, x ∈ xs → objects m' !! (id, oid_as_bytes (xo_oid x)) =
       Some (default (xo_kind x, xo_data x) (objects m !! (id, oid_as_bytes (xo_oid x))))) ∧
    (∀ x cap, x ∈ xs → new_object id m x → len (xo_data x) ≤ cap →
       sql_read_object_raw id (xo_oid x) cap m' = (Ok (Some (xo_data x)), m')) ∧
    (∀ k v, objects m !! k = Some v → objects m' !! k = Some v) ∧
    (∀ ci, ci ∈ commits meta → len (c_parents ci) ≤ 2 ^ 31 → new_commit id m ci →
       sql_graph id m' (c_oid ci) = c_parents ci) ∧
    (∀ id' k, id' ≠ id → objects m' !! (id', k) = objects m !! (id', k)) ∧
    refs m' = refs m ∧ repositories m' = repositories m.
Proof.
  intros Hnf Hr Hne Hx Hnil Hnd. exists (with_rows id xs m). split_and!; [| | | | | |done..].
  - unfold nonempty_pack in Hne. unfold sql_ingest_pack, mbind, ST_bind, lift.
    destruct (read_exact 12 (pf_pack pack)) as [[h r]|]; [|done]. cbn [context map_err].
    apply negb_true_iff in Hne. rewrite Hne, Hx. destruct xs as [|x xs']; [done|].
    unfold sql_txn. rewrite Hnf, ingest_objects_run by done. by rewrite Hnf.
  - intros x Hin. by apply with_rows_object.
  - intros x cap Hin Hnew Hcap. unfold sql_read_object_raw, with_context, select_object, select, mbind, ST_bind.
    unfold new_object in Hnew. rewrite Hnf, (with_rows_object id xs x m Hnd Hin), Hnew. cbn [default map_err].
    rewrite decide_False by lia. rewrite Hnf. cbn [map_err].
    by rewrite (with_rows_object id xs x m Hnd Hin), Hnew.
  - intros k v Hk. cbn. by apply lookup_union_Some_l.
  - intros ci Hci Hl Hfresh. destruct (sql_extract_commit _ _ _ _ Hx Hci) as (x & Hin & Ho & Hp).
    unfold new_commit in Hfresh. rewrite <- Ho in *. by apply with_rows_graph.
  - intros id' k Hne'. by apply with_rows_other.
Qed.
End ingest.
