(* ===== verification/SqlPack.v ===== *)
(** * Pack building and tree diff of the SQL backend ([backend/sql/objects.rs])

    The reads of the tables behind the shared code of [PackTools.v], and the traversal of
    trees, which here is recursive. *)

From stdpp Require Import base gmap list sorting strings relations.
From Stdlib Require Import Strings.Byte ZArith Lia.
From S2P Require Import Prelude Bytes Gix Proto Types Handlers Graph Inspect PackCache PackTools Sql SqlGraph.
Open Scope N_scope.

Section sql_pack.
Context `{GixObject} {sqlx : Sqlx} {gix_out : GixOutput} {io : CacheIO}.

(** The tree of a commit; an object that is no commit has none. *)
Definition sql_commit_tree (id : N) (m : SqlDb) (commit_oid : ObjectId) : result error (option ObjectId) :=
  row ← (select_object id (oid_as_bytes commit_oid) m).1;
  Ok ('(_, data) ← row; commit ← ok (CommitRef_from_bytes data); ok (oid_from_hex (cr_tree commit))).

(** The entries of a stored tree; an object that is no tree has none to visit. *)
Definition sql_tree_entries (id : N) (m : SqlDb) (tree_oid : ObjectId) :
    result error (option (list (bool * ObjectId))) :=
  row ← (select_object id (oid_as_bytes tree_oid) m).1;
  match row with
  | Some (kind, data) =>
      if decide (kind = KIND_TREE)
      then Some <$> context (b! "parsing tree " ++ oid_to_hex tree_oid) (TreeRef_from_bytes data)
      else Ok None
  | None => Ok None
  end.

Fixpoint sql_collect_tree (fuel : nat) (id : N) (m : SqlDb) (tree_oid : ObjectId) (set : gset ObjectId) :
    result error (gset ObjectId) :=
  match fuel with
  | O => Ok set
  | S fuel =>
      if decide (tree_oid ∈ set) then Ok set
      else
        entries ← sql_tree_entries id m tree_oid;
        foldl (λ acc '(is_tree, child),
                 set ← acc;
                 if is_tree : bool then sql_collect_tree fuel id m child set
                 else Ok ({[child]} ∪ set))
          (Ok ({[tree_oid]} ∪ set)) (default [] entries)
  end.

(** The entries of all that is stored, read as trees. *)
Definition sql_all_entries (m : SqlDb) : list (bool * ObjectId) :=
  map_to_list (objects m) ≫= λ row, default [] (ok (TreeRef_from_bytes row.2.2)).

(** Deeper than trees can nest without repeating: [sql_collect_tree_spec]. *)
Definition sql_tree_fuel (m : SqlDb) : nat := S (S (length (sql_all_entries m))).

Definition sql_collect_tree_oids (id : N) (m : SqlDb) (tree_oid : ObjectId) (set : gset ObjectId) :
    result error (gset ObjectId) :=
  sql_collect_tree (sql_tree_fuel m) id m tree_oid set.

(** [graph::reachable_excluding] as [build_pack] uses it; the error in place of a query
    that does not end. *)
Definition sql_reach (id : N) (m : SqlDb) (from excluding : list ObjectId) :
    result ReachableError (list ObjectId) :=
  default (Err (ReachOther (Foreign (b! "the recursive query does not end"))))
    (sql_reachable_excluding id from excluding usize_max m).

(** Steps 1 to 3 of [build_pack]: the ids of the objects to send. *)
Definition sql_needed_oids (id : N) (want have : list ObjectId) (m : SqlDb) :
    result error (gset ObjectId) :=
  select_objects (sql_reach id m)
    (add_commit_trees (sql_commit_tree id m) (sql_collect_tree_oids id m)) want have.

Definition kind_of_int (k : Z) : option Kind :=
  if decide (k = KIND_BLOB) then Some GBlob
  else if decide (k = KIND_TREE) then Some GTree
  else if decide (k = KIND_COMMIT) then Some GCommit
  else if decide (k = KIND_TAG) then Some GTag
  else None.

(** Step 4 for one id: a row of an unknown kind is passed over. *)
Definition sql_read_object (id : N) (m : SqlDb) (oid : ObjectId) : result error (option (Kind * bytes)) :=
  row ← (select_object id (oid_as_bytes oid) m).1;
  Ok ('(k, data) ← row; (λ kind, (kind, data)) <$> kind_of_int k).

Definition sql_fresh_pack (id : N) (want have : list ObjectId) (m : SqlDb) : result error bytes :=
  needed ← sql_needed_oids id want have m;
  pack_objects (sql_read_object id m) needed.

(** The backend's state: the database, the cache directory, and the metadata cells of
    the packs ingested so far, each emptied by its first inspection. *)
Record SqlStore := {
  sql_db : SqlDb;
  sql_cache : dir;
  sql_cells : list (option PackMetadata) }.

Definition sql_build_pack (id : N) (want have : list ObjectId) (opts : PackOptions) :
    ST SqlStore PackOutput := fun s =>
  let '(r, cache) := cached_pack id want have opts (sql_fresh_pack id want have (sql_db s)) (sql_cache s) in
  (r, {| sql_db := sql_db s; sql_cache := cache; sql_cells := sql_cells s |}).

(** ** Tree diff *)

Definition sql_read_tree (id : N) (m : SqlDb) (oid : ObjectId) : result error bytes :=
  row ← context (b! "fetching tree " ++ oid_to_hex oid) (select_object id (oid_as_bytes oid) m).1;
  '(kind, data) ← ok_or (Msg (b! "tree " ++ oid_to_hex oid ++ b! " not found")) row;
  if decide (kind ≠ KIND_TREE)
  then bail (b! "object " ++ oid_to_hex oid ++ b! " is not a tree (kind=" ++ decimal_Z kind ++ b! ")")
  else Ok data.

Definition sql_tree_diff (id : N) (parent_tree : option ObjectId) (child_tree : ObjectId) (m : SqlDb) :
    result error RefDiff :=
  tree_diff (sql_read_tree id m) (sql_tree_fuel m) parent_tree child_tree.
End sql_pack.

(** ** The objects of a tree *)

Section tree_facts.
Context `{GixHashLaws} {gix_object : GixObject} {sqlx : Sqlx}.

Section collect.
Context (id : N) (m : SqlDb).
Hypothesis agree : modes_agree (sql_tree_entries id m).

Abbreviation below := (kids (sql_tree_entries id m)).

(** [S] extends [set] by objects whose entries are all in [S]. *)
Definition tree_grows (set S : gset ObjectId) : Prop :=
  set ⊆ S ∧ ∀ o p, o ∈ S → o ∉ set → p ∈ below o → p ∈ S.

Lemma tree_grows_refl X : tree_grows X X.
Proof. split; naive_solver. Qed.

Lemma tree_grows_trans X Y Z : tree_grows X Y → tree_grows Y Z → tree_grows X Z.
Proof.
  intros [H12 Hk1] [H23 Hk2]. split; [set_solver|].
  intros o p Ho Hn Hp. destruct (decide (o ∈ Y)); [apply H23; eauto|eauto].
Qed.

Abbreviation visit fuel :=
  (λ acc '(is_tree, child),
     set ← acc;
     if is_tree : bool then sql_collect_tree fuel id m child set else Ok ({[child]} ∪ set)).

Lemma visit_Err fuel (es : list (bool * ObjectId)) e : foldl (visit fuel) (Err e) es = Err e.
Proof. induction es as [|[b c] es IH]; [done|]. apply IH. Qed.

(** Visiting the entries of a tree, each from what the ones before it left. *)
Lemma visit_spec (U : gset ObjectId) fuel :
  (∀ t X S, t ∈ U → (size (U ∖ X) < fuel)%nat → sql_collect_tree fuel id m t X = Ok S →
     tree_grows X S ∧ t ∈ S ∧ ∀ o, o ∈ S → o ∈ X ∨ reaches below t o) →
  ∀ es X S, (∀ e, e ∈ es → e.2 ∈ U) → (∀ c, (false, c) ∈ es → below c = []) →
    (size (U ∖ X) < fuel)%nat → foldl (visit fuel) (Ok X) es = Ok S →
    tree_grows X S ∧ ∀ o, (o ∈ snd <$> es → o ∈ S) ∧
      (o ∈ S → o ∈ X ∨ ∃ c, c ∈ snd <$> es ∧ reaches below c o).
Proof.
  intros IH es. induction es as [|[b c] es IHes]; intros X S HU Hf Hsz; cbn [foldl].
  { intros [= <-]. split; [apply tree_grows_refl|]. intros o. split; [by intros ?%elem_of_nil|by left]. }
  cbn [mbind result_bind].
  assert (∀ Y, (if b then sql_collect_tree fuel id m c X else Ok ({[c]} ∪ X)) = Ok Y →
    tree_grows X Y ∧ c ∈ Y ∧ ∀ o, o ∈ Y → o ∈ X ∨ reaches below c o) as Hstep.
  { intros Y. destruct b; [apply IH; [apply (HU (true, c)); by left|done]|]. intros [= <-].
    split_and!; [|set_solver|].
    - split; [set_solver|]. intros o p Ho Hn Hp. assert (o = c) as -> by set_solver.
      rewrite Hf in Hp by (by left). by apply elem_of_nil in Hp.
    - intros o [->%elem_of_singleton|?]%elem_of_union; [right; apply rtc_refl|by left]. }
  destruct (if b then _ else _) as [Y|e]; [|by rewrite visit_Err].
  destruct (Hstep Y eq_refl) as (Hg & Hc & Hr). intros [Hg' Hes]%IHes.
  - split; [by eapply tree_grows_trans|]. intros o. rewrite fmap_cons. split.
    + intros [->|Ho]%elem_of_cons; [by apply Hg'|by apply Hes].
    + intros [Ho|(d & Hd & Ho)]%(Hes o).
      * apply Hr in Ho as [?|Ho]; [by left|]. right. exists c. split; [by left|done].
      * right. exists d. split; [by right|done].
  - intros e He. apply HU. by right.
  - intros d Hd. apply Hf. by right.
  - eapply Nat.le_lt_trans; [|exact Hsz]. apply subseteq_size. destruct Hg. set_solver.
Qed.

Lemma sql_collect_tree_spec (U : gset ObjectId) fuel :
  (∀ o p, p ∈ below o → p ∈ U) →
  ∀ t X S, t ∈ U → (size (U ∖ X) < fuel)%nat → sql_collect_tree fuel id m t X = Ok S →
    tree_grows X S ∧ t ∈ S ∧ ∀ o, o ∈ S → o ∈ X ∨ reaches below t o.
Proof.
  intros HU. induction fuel as [|fuel IH]; intros t X S Ht Hsz; [lia|]. cbn [sql_collect_tree].
  case_decide as Hin.
  { intros [= <-]. split_and!; [apply tree_grows_refl|done|by left]. }
  intros (es & He & Hl)%result_bind_Ok.
  assert (below t = snd <$> default [] es) as Hk by (unfold kids; rewrite He; by destruct es).
  eapply (visit_spec U fuel IH) in Hl as [Hg Hes].
  - destruct Hg as [Hsub Hk']. split_and!.
    + split; [set_solver|]. intros o p Ho Hn Hp. destruct (decide (o = t)) as [->|Hne].
      * apply Hes. by rewrite <- Hk.
      * apply (Hk' o); [done|set_solver|done].
    + set_solver.
    + intros o [Ho|(c & Hc & Ho)]%(Hes o).
      * apply elem_of_union in Ho as [->%elem_of_singleton|?]; [right; apply rtc_refl|by left].
      * right. eapply rtc_l; [by rewrite Hk|done].
  - intros e Hin'. apply (HU t). rewrite Hk. apply list_elem_of_fmap. by exists e.
  - intros c Hc. destruct es as [es|]; [|by apply elem_of_nil in Hc]. by eapply agree.
  - assert (size (U ∖ ({[t]} ∪ X)) < size (U ∖ X))%nat; [|lia]. apply subset_size. set_solver.
Qed.

Lemma sql_tree_entries_stored o es :
  sql_tree_entries id m o = Ok (Some es) → ∀ e, e ∈ es → e ∈ sql_all_entries m.
Proof.
  unfold sql_tree_entries, select_object, select. destruct (sql_fault m _); [done|].
  cbn [fst mbind result_bind]. destruct (objects m !! _) as [[k data]|] eqn:Hrow; [|done].
  case_decide; [|done]. destruct (TreeRef_from_bytes data) as [es'|] eqn:Hp; [|done]. intros [= ->] e He.
  unfold sql_all_entries. apply list_elem_of_bind. exists ((id, oid_as_bytes o), (k, data)).
  rewrite elem_of_map_to_list. cbn. by rewrite Hp.
Qed.

Definition sql_tree_universe (root : ObjectId) : gset ObjectId :=
  {[root]} ∪ list_to_set (snd <$> sql_all_entries m).

Lemma sql_tree_universe_size root : (size (sql_tree_universe root) < sql_tree_fuel m)%nat.
Proof.
  unfold sql_tree_universe, sql_tree_fuel.
  pose proof (size_union_le {[root]} (list_to_set (snd <$> sql_all_entries m) : gset ObjectId)) as Hu.
  pose proof (size_list_to_set_le (snd <$> sql_all_entries m)) as Hle. rewrite length_fmap in Hle.
  rewrite size_singleton in Hu. lia.
Qed.

Lemma below_universe root o p : p ∈ below o → p ∈ sql_tree_universe root.
Proof.
  unfold kids. destruct (sql_tree_entries id m o) as [[es|]|] eqn:He; [|by intros ?%elem_of_nil..].
  intros (e & -> & Hin)%list_elem_of_fmap. apply elem_of_union_r, elem_of_list_to_set, list_elem_of_fmap.
  exists e. split; [done|]. by eapply sql_tree_entries_stored.
Qed.

(** The set holds the entries of the trees in it. *)
Definition tree_closed (X : gset ObjectId) : Prop := ∀ o p, o ∈ X → p ∈ below o → p ∈ X.

Lemma sql_collect_tree_oids_spec t X S :
  tree_closed X → sql_collect_tree_oids id m t X = Ok S →
  tree_closed S ∧ ∀ o, o ∈ S ↔ o ∈ X ∨ reaches below t o.
Proof.
  intros Hcl Hc. apply (sql_collect_tree_spec (sql_tree_universe t)) in Hc as ([Hsub Hk] & Ht & Hr).
  - assert (tree_closed S) as HS.
    { intros o p Ho Hp. destruct (decide (o ∈ X)); [apply Hsub; by eapply Hcl|by eapply Hk]. }
    split; [done|]. intros o. split; [apply Hr|]. intros [?|Ho]; [by apply Hsub|].
    clear Hr Hk. induction Ho as [|a b c Hab _ IH]; [done|]. apply IH. by eapply HS.
  - intros o p. apply below_universe.
  - unfold sql_tree_universe. set_solver.
  - eapply Nat.le_lt_trans; [|apply (sql_tree_universe_size t)]. apply subseteq_size. set_solver.
Qed.
End collect.

(** The trees and blobs of a commit, and these with the commit itself. *)
Definition sql_in_commit (id : N) (m : SqlDb) : ObjectId → ObjectId → Prop :=
  below_commit (sql_commit_tree id m) (reaches (kids (sql_tree_entries id m))).

Definition sql_of_commit (id : N) (m : SqlDb) (c o : ObjectId) : Prop := o = c ∨ sql_in_commit id m c o.

(** Every stored tree parses. *)
Definition trees_parse (m : SqlDb) : Prop :=
  ∀ k data, objects m !! k = Some (KIND_TREE, data) → is_ok (TreeRef_from_bytes data) = true.

Lemma sql_collect_tree_readable id m fuel t X :
  (∀ m op, sql_fault m op = None) → trees_parse m → is_ok (sql_collect_tree fuel id m t X) = true.
Proof.
  intros Hnf Hp. revert t X; induction fuel as [|fuel IH]; intros t X; cbn [sql_collect_tree]; [done|].
  case_decide; [done|].
  assert (∃ es, sql_tree_entries id m t = Ok es) as [es ->].
  { unfold sql_tree_entries, select_object, select. rewrite Hnf. cbn [fst mbind result_bind].
    destruct (objects m !! _) as [[k data]|] eqn:Hrow; [|eauto]. case_decide as Hk; [|eauto]. subst k.
    specialize (Hp _ _ Hrow). destruct (TreeRef_from_bytes data); [cbn; eauto|done]. }
  cbn [mbind result_bind]. generalize ({[t]} ∪ X). generalize (default [] es). clear -IH.
  intros l. induction l as [|[b c] l IHl]; intros Y; [done|]. cbn [foldl mbind result_bind].
  destruct b; [|apply IHl]. specialize (IH c Y). destruct (sql_collect_tree fuel id m c Y); [apply IHl|done].
Qed.

Lemma sql_universe_mono tips tips' m :
  (∀ o, o ∈ tips → o ∈ tips') → (size (sql_universe tips m) ≤ size (sql_universe tips' m))%nat.
Proof.
  intros Ht. apply subseteq_size. unfold sql_universe. intros o.
  rewrite !elem_of_union, !elem_of_list_to_set. intros [Ho|Ho]; [left; by apply Ht|by right].
Qed.

Lemma sql_reach_spec id m from excluding l :
  sql_reach id m from excluding = Ok l →
  ∀ o, o ∈ l ↔ reached_from (sql_graph id m) from o ∧ ¬ reached_from (sql_graph id m) excluding o.
Proof.
  unfold sql_reach. destruct (sql_reachable_excluding id from excluding usize_max m) as [r|] eqn:E; [|done].
  cbn. intros ->. by apply sql_reachable_spec in E as (_ & _ & Hl).
Qed.

(** What the selection of [build_pack] holds when it succeeds: an object that is wanted
    itself or is (in the tree of) a commit reachable from the wants and not from the haves,
    and is not (in the tree of) a commit reachable from the haves; and it does succeed on a
    database that answers, with an acyclic history whose trees parse. *)
Lemma sql_needed_selection id want have m :
  modes_agree (sql_tree_entries id m) →
  (∀ o, reached_from (sql_graph id m) (want ++ have) o → kids (sql_tree_entries id m) o = []) →
  (∀ S, sql_needed_oids id want have m = Ok S →
    ∀ o, o ∈ S ↔
      (o ∈ want ∨
       ∃ c, reached_from (sql_graph id m) want c ∧ ¬ reached_from (sql_graph id m) have c ∧
            sql_of_commit id m c o) ∧
      ¬ ∃ c, reached_from (sql_graph id m) have c ∧ sql_of_commit id m c o) ∧
  ((∀ m op, sql_fault m op = None) → history_wf id m → trees_parse m →
   N.of_nat (size (sql_universe (want ++ have) m)) ≤ usize_max →
   ∃ S, sql_needed_oids id want have m = Ok S).
Proof.
  intros Hm Hk. split.
  - intros S HS. unfold sql_of_commit.
    eapply (select_objects_exact (sql_graph id m) (sql_in_commit id m) _ _ (tree_closed id m)); [..|exact HS].
    + intros from excluding l. apply sql_reach_spec.
    + intros commits X T. apply (add_commit_trees_spec _ _ (tree_closed id m)).
      intros t Y Z. by apply sql_collect_tree_oids_spec.
    + intros X HX o p Ho Hp. rewrite Hk in Hp by auto. by apply elem_of_nil in Hp.
  - intros Hnf Hw Hp Hcap. apply select_objects_total.
    + intros from excluding Hsub. unfold sql_reach.
      destruct (sql_reachable_total id from excluding usize_max m Hnf Hw) as [l ->]; [|done].
      etrans; [|exact Hcap]. apply N2Z.inj_le. rewrite !nat_N_Z. apply Nat2Z.inj_le, sql_universe_mono.
      intros o Ho. apply Hsub, elem_of_app. by left.
    + intros commits X. apply add_commit_trees_total.
      * intros c. unfold sql_commit_tree, select_object, select. by rewrite Hnf.
      * intros t Y. by apply sql_collect_tree_readable.
Qed.

(** The object the table holds under an id. *)
Definition sql_held (id : N) (m : SqlDb) (o : ObjectId) : option (Kind * bytes) :=
  '(k, data) ← objects m !! (id, oid_as_bytes o);
  (λ kind, (kind, data)) <$> kind_of_int k.

(** Every row is of a known kind. *)
Definition sql_objects_wf (m : SqlDb) : Prop :=
  ∀ key k data, objects m !! key = Some (k, data) → is_Some (kind_of_int k).

Lemma kind_of_int_tree k : kind_of_int k = Some GTree ↔ k = KIND_TREE.
Proof. unfold kind_of_int. split; [repeat case_decide; naive_solver|by intros ->]. Qed.

Lemma sql_tree_entries_held id m :
  (∀ m op, sql_fault m op = None) → trees_parse m → reads_trees (sql_held id m) (sql_tree_entries id m).
Proof.
  intros Hf Hp o. unfold sql_tree_entries, sql_held, select_object, select. rewrite Hf. cbn [fst mbind result_bind].
  destruct (objects m !! _) as [[k data]|] eqn:E; [|done]. cbn [mbind option_bind].
  case_decide as Hk.
  - subst k. specialize (Hp _ _ E). change (kind_of_int KIND_TREE) with (Some GTree). cbn.
    by destruct (TreeRef_from_bytes data).
  - destruct (kind_of_int k) as [[]|] eqn:E'; try done. by apply kind_of_int_tree in E'.
Qed.

Lemma sql_commit_trees_held id m :
  (∀ m op, sql_fault m op = None) → sql_objects_wf m → reads_commits (sql_held id m) (sql_commit_tree id m).
Proof.
  intros Hf Hwf o. unfold sql_commit_tree, sql_held, select_object, select. rewrite Hf. cbn [fst mbind result_bind].
  destruct (objects m !! _) as [[k data]|] eqn:E; [|done]. destruct (Hwf _ _ _ E) as [kind Hk].
  cbn. by rewrite Hk.
Qed.

(** (C31) A fetch from the SQL backend selects exactly the missing objects: on a database
    that answers, over an acyclic recorded history and objects of the kinds they are named
    as, [build_pack] finds the objects to send; when the wants and haves are commits or
    blobs these are the objects reachable from a want - through parents, trees and their
    entries - and from no have.  For a wanted annotated tag it is the tag alone, without
    the tagged commit or anything else reachable from it. *)
Theorem sql_needed_exact id want have m :
  (∀ m op, sql_fault m op = None) → history_wf id m → trees_parse m → sql_objects_wf m →
  consistent (sql_held id m) (sql_graph id m) →
  (Forall (plain_tip (sql_held id m)) (want ++ have) →
   N.of_nat (size (sql_universe (want ++ have) m)) ≤ usize_max →
   ∃ S, sql_needed_oids id want have m = Ok S ∧
     ∀ o, o ∈ S ↔ reached_from (links (sql_held id m)) want o ∧ ¬ reached_from (links (sql_held id m)) have o) ∧
  (∀ t data, sql_held id m t = Some (GTag, data) → is_ok (CommitRef_from_bytes data) = false →
   N.of_nat (size (sql_universe [t] m)) ≤ usize_max →
   sql_needed_oids id [t] [] m = Ok {[t]}).
Proof.
  intros Hf Hw Hp Hwf cons.
  pose proof (sql_tree_entries_held id m Hf Hp) as Ht. pose proof (sql_commit_trees_held id m Hf Hwf) as Hc.
  pose proof (consistent_modes _ _ cons _ Ht) as Hm. split.
  - intros Htips Hcap.
    destruct (sql_needed_selection id want have m Hm) as [Hex Hok].
    { intros o (t & Hin & Hto). eapply plain_tip_kids; [done..|]. eapply reached_plain_tip; [done| |exact Hto].
      rewrite Forall_forall in Htips. by apply Htips. }
    destruct (Hok Hf Hw Hp Hcap) as [S HS]. exists S. split; [done|].
    eapply selection_links; [done..|]. exact (Hex S HS).
  - intros t data Et Hn Hcap.
    destruct (sql_needed_selection id [t] [] m Hm) as [Hex Hok].
    { intros o (t' & ->%list_elem_of_singleton & Hto). eapply tag_kids; done. }
    destruct (Hok Hf Hw Hp Hcap) as [S HS]. rewrite HS. f_equal. eapply selection_tag; [done..|]. exact (Hex S HS).
Qed.
End tree_facts.

(** ** Reading, staging, diffing *)

Section stage_facts.
Context `{GixHashLaws} {gix_object : GixObject} {sqlx : Sqlx} {gix_out : GixOutput} {io : CacheIO}.

(** What the table holds of an object. *)
Definition sql_stored (id : N) (m : SqlDb) (o : ObjectId) : option (ObjectId * Kind * bytes) :=
  '(k, data) ← objects m !! (id, oid_as_bytes o);
  (λ kind, (o, kind, data)) <$> kind_of_int k.

Lemma sql_read_object_Ok id o m x :
  sql_read_object id m o = Ok x → sql_stored id m o = (λ '(k, data), (o, k, data)) <$> x.
Proof.
  unfold sql_read_object, select_object, select, sql_stored. destruct (sql_fault m _); [done|].
  cbn. intros [= <-]. destruct (objects m !! _) as [[k data]|]; [|done]. cbn. by destruct (kind_of_int k).
Qed.

Lemma omap_found_sql id m oids l :
  fetch_objects (sql_read_object id m) oids = Ok l →
  omap (found (sql_read_object id m)) oids = omap (sql_stored id m) oids.
Proof.
  revert l; induction oids as [|o oids IH]; intros l; cbn [fetch_objects]; [done|].
  intros (x & Hx & (rest & Hr & _)%result_bind_Ok)%result_bind_Ok. cbn. unfold found at 1.
  rewrite Hx. apply sql_read_object_Ok in Hx. rewrite Hx, (IH _ Hr). done.
Qed.

(** A fetch from the SQL backend is answered from the cache or with the stored
    objects it needs: a successful [build_pack] leaves the database and the ingested packs
    alone and returns the cache's file, or the empty pack when no object is needed, or
    what [gix-pack] makes of one loose file for each needed object the table holds, at its
    path and with its kind, length and contents, and of no other file. *)
Theorem sql_build_pack_complete id want have opts s out s' :
  sql_build_pack id want have opts s = (Ok out, s') →
  (sql_db s' = sql_db s ∧ sql_cells s' = sql_cells s) ∧
  (try_hit id (cache_key id want have opts) (sql_cache s) = Some out ∨
   ∃ needed pack, sql_needed_oids id want have (sql_db s) = Ok needed ∧ out = output_of pack ∧
     (needed = ∅ → pack = build_empty_pack) ∧
     (needed ≠ ∅ → ∃ loose, let fetched := omap (sql_stored id (sql_db s)) (elements needed) in
        gix_pack_objects loose ((λ x, x.1.1) <$> fetched) = Ok pack ∧
        (∀ o k data, (o, k, data) ∈ fetched →
           loose !! loose_path o = Some (zlib (loose_header k data ++ data))) ∧
        (∀ path, is_Some (loose !! path) → ∃ x, x ∈ fetched ∧ path = loose_path x.1.1))).
Proof.
  unfold sql_build_pack. destruct (cached_pack _ _ _ _ _ _) as [r c] eqn:Hc. intros [= -> <-].
  split; [done|]. apply cached_pack_Ok in Hc as [[Hhit|(pack & Hf & ->)] _]; [by left|right].
  unfold sql_fresh_pack in Hf. apply result_bind_Ok in Hf as (needed & Hn & Hp).
  exists needed, pack. pose proof (pack_objects_complete _ _ _ Hp) as [He Hne].
  split_and!; [done|done|done|]. intros Hn0. destruct (Hne Hn0) as (loose & Hrest). exists loose. cbv zeta in *.
  unfold pack_objects in Hp. rewrite decide_False in Hp by done.
  apply result_bind_Ok in Hp as (l & Hl & _). by rewrite (omap_found_sql _ _ _ _ Hl) in Hrest.
Qed.

Lemma sql_subtrees_stored id m o p :
  p ∈ subtrees (sql_read_tree id m) o → ∃ e, e ∈ sql_all_entries m ∧ e.2 = p.
Proof.
  unfold subtrees. case_decide; [by intros ?%elem_of_nil|].
  destruct (sql_read_tree id m o) as [data|] eqn:Hd; cbn; [|by intros ?%elem_of_nil].
  destruct (TreeRef_from_bytes data) as [entries|] eqn:Ht; cbn; [|by intros ?%elem_of_nil].
  intros ([b c] & Hin & Hc)%list_elem_of_omap. exists (b, c). unfold tree_entry in Hc. cbn in *.
  destruct b; [|done]. injection Hc as ->. split; [|done].
  unfold sql_read_tree, select_object, select in Hd. destruct (sql_fault m _); [done|].
  cbn [fst context map_err mbind result_bind] in Hd.
  destruct (objects m !! _) as [[k d]|] eqn:Hrow; [|done]. cbn in Hd. case_decide; [done|].
  injection Hd as ->. unfold sql_all_entries. apply list_elem_of_bind.
  exists ((id, oid_as_bytes o), (k, data)). rewrite elem_of_map_to_list. cbn. by rewrite Ht.
Qed.

(** A tree diff of the SQL backend sees every tree it needs. *)
Lemma sql_tree_diff_complete id parent_tree child_tree m diff :
  sql_tree_diff id parent_tree child_tree m = Ok diff →
  let lhs := default oid_empty_tree parent_tree in
  ∃ (trees : gmap ObjectId bytes) changes,
    gix_tree_diff (λ o, trees !! o) lhs child_tree = Ok changes ∧
    diff = map ref_diff_entry changes ∧
    ∀ t, reaches (subtrees (sql_read_tree id m)) lhs t ∨
         reaches (subtrees (sql_read_tree id m)) child_tree t →
      ∃ d, trees !! t = Some d ∧ tree_data (sql_read_tree id m) t = Some d.
Proof.
  apply (tree_diff_complete (sql_read_tree id m) (sql_tree_universe m)).
  - intros t. unfold sql_tree_universe. set_solver.
  - intros t o p (e & He & <-)%sql_subtrees_stored.
    apply elem_of_union_r, elem_of_list_to_set, list_elem_of_fmap. by exists e.
  - intros t. apply sql_tree_universe_size.
Qed.
End stage_facts.
