(* ===== verification/SqlBackend.v ===== *)
(** * The SQL backend as a storage backend ([impl StorageBackend for SqlBackend], [backend/sql/mod.rs])

    The operations of [backend/sql] on the backend's whole state, as an instance of the
    trait, and the proof that they keep its contract. *)

From stdpp Require Import base gmap list sorting strings.
From Stdlib Require Import Strings.Byte.
From S2P Require Import Prelude Bytes Gix Proto Types Handlers Graph Inspect PackCache PackTools Sql SqlGraph SqlPack.
Open Scope N_scope.

(** A computation on the database, on the whole state. *)
Definition on_sql `{GixHash} {A : Type} (m : ST SqlDb A) : ST SqlStore A := fun s =>
  let '(r, d) := m (sql_db s) in
  (r, {| sql_db := d; sql_cache := sql_cache s; sql_cells := sql_cells s |}).

Section backend.
Context `{GixObject} {sqlx : Sqlx} {gix_pack : GixPack} {gix_out : GixOutput} {io : CacheIO}.

(** [ingest_pack]: the metadata goes into a fresh cell, the handle is its index. *)
Definition sql_ingest (id : N) (staged_pack : PackFile) : ST SqlStore (option nat) := fun s =>
  match on_sql (sql_ingest_pack id staged_pack) s with
  | (Err e, s') => (Err e, s')
  | (Ok None, s') => (Ok None, s')
  | (Ok (Some (metadata, _)), s') =>
      (Ok (Some (length (sql_cells s'))),
       {| sql_db := sql_db s'; sql_cache := sql_cache s'; sql_cells := sql_cells s' ++ [Some metadata] |})
  end.

(** [inspect_ingested]: [Option::take] on the cell. *)
Definition sql_inspect (pack : nat) : ST SqlStore PackMetadata := fun s =>
  match sql_cells s !! pack with
  | Some (Some metadata) =>
      (Ok metadata,
       {| sql_db := sql_db s; sql_cache := sql_cache s; sql_cells := <[pack := None]> (sql_cells s) |})
  | _ => (Err (Msg (b! "inspect_ingested called more than once")), s)
  end.

(** The two operations that run the recursive query take a default where it does not end:
    over an acyclic history it ends ([sql_push_kind_correct], [sql_reachable_exact]). *)
#[export] Instance sql_backend : StorageBackend := {|
  store := SqlStore;
  RepoId := bytes;
  Repo := N;
  IngestedPack := nat;
  sb_open path := on_sql (sql_open path);
  sb_list_refs id := on_sql (sql_list_refs id);
  sb_resolve_ref id refname := on_sql (sql_resolve_ref id refname);
  sb_update_refs id updates := on_sql (sql_update_refs id updates);
  sb_init_repo path := on_sql (sql_init_repo path);
  sb_has_objects id oids := on_sql (sql_has_objects id oids);
  sb_compute_push_kind id u s :=
    (default ForcePush (sql_compute_push_kind id (old_oid u) (new_oid u) (sql_db s)), s);
  sb_build_pack id want have opts := sql_build_pack id want have opts;
  sb_ingest_pack id staged := sql_ingest id staged;
  sb_inspect_ingested pack := sql_inspect pack;
  sb_rollback_ingest _ s := s;
  sb_reachable_excluding id from excluding cap s :=
    (default (Err (ReachOther (Foreign (b! "the recursive query does not end"))))
       (sql_reachable_excluding id from excluding cap (sql_db s)), s);
  sb_tree_diff id parent_tree child_tree s := (sql_tree_diff id parent_tree child_tree (sql_db s), s);
  sb_read_commit_info id oid := on_sql (sql_read_commit_info id oid);
  sb_read_blob id oid cap := on_sql (sql_read_blob id oid cap);
  sb_read_object_raw id oid cap := on_sql (sql_read_object_raw id oid cap);
|}.
End backend.

(** ** What reads and writes keep *)

Ltac solve_pres := walk_pres ltac:(apply pres_with_context).

Section sql_frames.
Context `{GixHashLaws} {gix_object : GixObject} {sqlx : Sqlx} {gix_pack : GixPack}.

Abbreviation reads := (pres (λ m : SqlDb, m)).

Lemma reads_select_object id k : reads (select_object id k).
Proof. apply reads_select. Qed.

Lemma sql_reads_list_refs id : reads (sql_list_refs id).
Proof. unfold sql_list_refs, select_refs. solve_pres. Qed.

Lemma sql_reads_resolve_ref id n : reads (sql_resolve_ref id n).
Proof. unfold sql_resolve_ref. solve_pres. Qed.

Lemma sql_reads_open path : reads (sql_open path).
Proof. unfold sql_open. solve_pres. Qed.

Lemma sql_reads_has_objects id oids : reads (sql_has_objects id oids).
Proof. induction oids as [|o oids IH]; cbn [sql_has_objects]; unfold sql_has_object; solve_pres. Qed.

Lemma sql_reads_commit_info id o : reads (sql_read_commit_info id o).
Proof. unfold sql_read_commit_info, select_object. solve_pres. Qed.

Lemma sql_reads_blob id o cap : reads (sql_read_blob id o cap).
Proof. unfold sql_read_blob, select_object. solve_pres. Qed.

Lemma sql_reads_object_raw id o cap : reads (sql_read_object_raw id o cap).
Proof. unfold sql_read_object_raw, select_object. solve_pres. Qed.

Lemma sql_refs_kept_by_ingest id staged : pres refs (sql_ingest_pack id staged).
Proof.
  unfold sql_ingest_pack. apply pres_bind; [apply pres_lift|]. intros [header rest].
  destruct (_ =? 0); [apply pres_ret|]. apply pres_bind; [apply pres_lift|]. intros [xs meta].
  destruct xs as [|x xs]; [apply pres_ret|]. apply pres_bind; [|intros; apply pres_ret].
  apply pres_sql_txn, pres_for_each. intros y. unfold ingest_object. apply pres_bind.
  - apply pres_with_context, pres_execute. intros m [] m'. destruct (decide _); [congruence|].
    destruct (references id m); [|done]. by intros [= <-].
  - intros _. apply pres_for_each. intros [p pos]. apply pres_with_context, pres_execute.
    intros m [] m'. destruct (decide _); [congruence|]. destruct (references id m); [|done]. by intros [= <-].
Qed.

Lemma sql_refs_kept_by_init path : pres refs (sql_init_repo path).
Proof.
  apply pres_with_context, pres_execute. intros m [] m'. destruct (find_path path m); by intros [= <-].
Qed.

Lemma sql_update_refs_err id us m e m' : sql_update_refs id us m = (Err e, m') → m' = m.
Proof. unfold sql_update_refs. destruct us; [done|]. apply sql_txn_Err. Qed.

Lemma sql_update_refs_loop id us m m' :
  sql_update_refs id us m = (Ok (), m') → for_each (sql_apply_update id) us m = (Ok (), m').
Proof. unfold sql_update_refs. destruct us; [done|]. apply sql_txn_Ok. Qed.
End sql_frames.

(** ** The contract *)

Section sql_contract.
Context `{GixHashLaws} {gix_object : GixObject} {sqlx : Sqlx} {gix_pack : GixPack}
  {gix_out : GixOutput} {io : CacheIO}.

Lemma on_sql_run {A : Type} (m : ST SqlDb A) s r s' :
  on_sql m s = (r, s') → m (sql_db s) = (r, sql_db s').
Proof. unfold on_sql. destruct (m (sql_db s)). by intros [= <- <-]. Qed.

Lemma on_sql_reads {A : Type} (m : ST SqlDb A) s : pres (λ d : SqlDb, d) m → (on_sql m s).2 = s.
Proof.
  intros Hm. unfold on_sql. specialize (Hm (sql_db s)). destruct (m (sql_db s)) as [r d]. cbn in *.
  subst d. by destruct s.
Qed.

Lemma on_sql_refs {A : Type} (m : ST SqlDb A) s : pres refs m → refs (sql_db (on_sql m s).2) = refs (sql_db s).
Proof. intros Hm. unfold on_sql. specialize (Hm (sql_db s)). by destruct (m (sql_db s)). Qed.

Lemma sql_refs_ext id m m' : refs m' = refs m → sql_refs id m' = sql_refs id m.
Proof. unfold sql_refs. by intros ->. Qed.

Lemma sql_build_pack_db id want have opts s : sql_db (sql_build_pack id want have opts s).2 = sql_db s.
Proof. unfold sql_build_pack. by destruct (cached_pack _ _ _ _ _ _). Qed.

Lemma sql_ingest_refs id staged s : refs (sql_db (sql_ingest id staged s).2) = refs (sql_db s).
Proof.
  pose proof (on_sql_refs _ s (sql_refs_kept_by_ingest id staged)) as Hp. unfold sql_ingest.
  destruct (on_sql _ s) as [[[[meta oids]|]|e] s']; exact Hp.
Qed.

Lemma sql_inspect_db p s : sql_db (sql_inspect p s).2 = sql_db s.
Proof. unfold sql_inspect. by destruct (sql_cells s !! p) as [[meta|]|]. Qed.

Lemma sql_update_Ok id us (s s' : SqlStore) :
  on_sql (sql_update_refs id us) s = (Ok (), s') → cas_updates (sql_refs id (sql_db s)) us = Some (sql_refs id (sql_db s')).
Proof. intros Hu%on_sql_run%sql_update_refs_loop. by apply sql_update_loop_Ok. Qed.

Lemma sql_update_Err id us (s s' : SqlStore) e :
  on_sql (sql_update_refs id us) s = (Err e, s') → sql_db s' = sql_db s.
Proof. intros Hu%on_sql_run. by apply sql_update_refs_err in Hu. Qed.

(** The SQL backend keeps the trait's contract. *)
#[export, refine] Instance sql_refs_laws : RefsLaws := {
  refs_view (id : Repo) (s : store) := sql_refs id (sql_db s);
  RepoTag := N;
  repo_tag (id : Repo) := id;
  ref_effect us m m' := cas_updates m us = Some m';
  ingested _ := True;
}.
Proof.
  - intros id id' s E. by change (id = id') in E; subst id'.
  - intros id us s [[]|e] s' Hu; [right; by apply sql_update_Ok|left; by rewrite (sql_update_Err _ _ _ _ _ Hu)].
  - by intros m m' [= <-].
  - intros id us s [[]|e] s' id' Hu Hne; [|by rewrite (sql_update_Err _ _ _ _ _ Hu)].
    apply on_sql_run, sql_update_refs_loop in Hu. by eapply sql_update_loop_frame.
  - done.
  - done.
  - intros path s id. cbn. by rewrite on_sql_reads by apply sql_reads_open.
  - intros id' s id. cbn. by rewrite on_sql_reads by apply sql_reads_list_refs.
  - intros id' n s id. cbn. by rewrite on_sql_reads by apply sql_reads_resolve_ref.
  - intros path s id. apply sql_refs_ext, on_sql_refs, sql_refs_kept_by_init.
  - intros id' os s id. cbn. by rewrite on_sql_reads by apply sql_reads_has_objects.
  - done.
  - intros id' w h o s id. cbn. by rewrite sql_build_pack_db.
  - intros id' p s id. apply sql_refs_ext, sql_ingest_refs.
  - intros p s id. cbn. by rewrite sql_inspect_db.
  - done.
  - done.
  - intros id' o s id. cbn. by rewrite on_sql_reads by apply sql_reads_commit_info.
  - intros id' o c s id. cbn. by rewrite on_sql_reads by apply sql_reads_blob.
  - intros id' o c s id. cbn. by rewrite on_sql_reads by apply sql_reads_object_raw.
Defined.

#[export] Instance sql_laws : BackendLaws.
Proof.
  refine {| backend_refs := sql_refs_laws |}; [done|exact sql_update_Ok|].
  intros id us s e s' id' Hu. cbn. by rewrite (sql_update_Err _ _ _ _ _ Hu).
Defined.

#[export] Instance sql_read_only : ReadOnlyLaws.
Proof.
  split; intros; try done; cbn.
  - by rewrite on_sql_reads by apply sql_reads_commit_info.
  - by rewrite on_sql_reads by apply sql_reads_blob.
  - by rewrite on_sql_reads by apply sql_reads_object_raw.
Qed.

#[export, refine] Instance sql_graph_laws : GraphLaws :=
  { graph_view (id : Repo) (s : store) := sql_graph id (sql_db s) }.
Proof.
  - intros id from excluding cap s l s' [Hr _]%pair_equal_spec.
    destruct (sql_reachable_excluding id from excluding cap (sql_db s)) as [r|] eqn:E; [|done].
    cbn in Hr. subst r. by apply sql_reachable_spec in E as (_ & _ & Hl).
  - intros id o s ci s' Hr%on_sql_run. unfold sql_read_commit_info, mbind, ST_bind, lift in Hr.
    destruct (with_context _ _ (sql_db s)) as [[[[k data]|]|e] m1]; [|done..].
    case_decide; [done|]. injection Hr as Hr _. by eapply parse_commit_info_oid.
Defined.
End sql_contract.
