(* ===== verification/Agree.v ===== *)
(** * The two database backends agree

    The KV and the SQL backend are written separately against one trait.  Here they are
    compared: over repositories that hold the same refs and the same history, the two
    give the same answers and stay the same. *)

From stdpp Require Import base gmap list sorting strings.
From Stdlib Require Import Strings.Byte.
From S2P Require Import Prelude Bytes Gix Proto Types Handlers Graph Inspect KvKeys Kv PackCache PackTools KvPack Sql SqlGraph.
Open Scope N_scope.

(** Batches of updates one after the other: which were accepted, and the state at the
    end. *)
Fixpoint accepted `{GixHash} {S} (update : list RefUpdate → ST S ()) (batches : list (list RefUpdate))
    (s : S) : list bool * S :=
  match batches with
  | [] => ([], s)
  | us :: rest =>
      let '(r, s') := update us s in
      let '(rs, s'') := accepted update rest s' in
      (is_ok r :: rs, s'')
  end.

Section agree.
Context `{GixHashLaws} {gix_object : GixObject} {tikv : Tikv} {sqlx : Sqlx}.

(** Repository [i] of the KV store and [j] of the database hold the same refs and the
    same history. *)
Record same_repository (i : N) (m : db) (j : N) (d : SqlDb) : Prop := {
  same_refs : kv_refs i m = sql_refs j d;
  same_history o : kv_graph i m o = sql_graph j d o }.

Lemma batches_agree i j batches :
  (∀ m op, fault m op = None) → (∀ m op, sql_fault m op = None) →
  Forall (Forall (λ u, ¬ void_update u)) batches →
  ∀ m d, refs_intact i m → refs_wf j d → kv_refs i m = sql_refs j d →
  (accepted (update_refs i) batches m).1 = (accepted (sql_update_refs j) batches d).1 ∧
  kv_refs i (accepted (update_refs i) batches m).2 =
  sql_refs j (accepted (sql_update_refs j) batches d).2.
Proof.
  intros Hk Hs. induction 1 as [|us batches Hus _ IH]; intros m d Hi Hw Heq; [done|]. cbn [accepted].
  pose proof (update_refs_run Hk i us m Hi) as H1.
  destruct (sql_update_refs_run Hs j us d Hw) as [H2 _]. specialize (H2 Hus). rewrite Heq in H1.
  assert (∃ r m' r' d', update_refs i us m = (r, m') ∧ sql_update_refs j us d = (r', d') ∧
    is_ok r = is_ok r' ∧ refs_intact i m' ∧ refs_wf j d' ∧ kv_refs i m' = sql_refs j d')
    as (r & m' & r' & d' & -> & -> & Hr & Hi' & Hw' & Heq').
  { destruct (cas_updates _ us) as [rs|].
    - destruct H1 as (m' & -> & Hm & ?), H2 as (d' & -> & Hd & ?).
      do 4 eexists. split_and!; [done|done|done|done|done|congruence].
    - destruct H1 as (e & ->), H2 as (e' & ->). do 4 eexists. split_and!; done. }
  destruct (IH m' d' Hi' Hw' Heq') as [IH1 IH2].
  destruct (accepted _ batches m') as [rs m''], (accepted _ batches d') as [rs' d''].
  cbn in *. by rewrite Hr, IH1.
Qed.

Lemma fetches_agree i m j d :
  (∀ m op, sql_fault m op = None) → history_wf j d → same_repository i m j d →
  ∀ o ps, fetch_in i m o = Ok ps → sql_fetch_parents j d o = Ok ps.
Proof.
  intros Hs Hh [_ Hgraph] o ps Hps. destruct (sql_fetch_parents_total j d o Hs Hh) as [ps' Hps'].
  rewrite Hps'. f_equal. apply sql_fetch_parents_Ok in Hps'. apply fetch_parents_Ok in Hps. rewrite <- Hps, <- Hps'.
  symmetry. apply Hgraph.
Qed.

(** Both backends leave out the same commits of a walk. *)
Lemma exclusions_agree i m j d fuel cap excluding X Y :
  same_repository i m j d →
  collect_all (fetch_in i m) fuel cap excluding ∅ = Some (Ok X) →
  sql_collect_all j d excluding ∅ = Some (Ok Y) → X = Y.
Proof.
  intros [_ Hgraph] [_ HX]%collect_all_spec HY; [|intros o p; set_solver].
  pose proof (sql_collect_all_spec _ _ _ _ _ HY) as HY'. apply set_eq. intros o.
  rewrite HX, HY'. by rewrite (reached_from_ext _ _ _ _ Hgraph).
Qed.

Lemma walks_agree_sql i m j d from excluding cap l :
  (∀ m op, sql_fault m op = None) → history_wf j d → same_repository i m j d →
  kv_reachable_excluding i from excluding cap m = Ok l →
  sql_reachable_excluding j from excluding cap d = Some (Ok l).
Proof.
  intros Hs Hh Hsame. unfold kv_reachable_excluding, sql_reachable_excluding.
  pose proof (kv_walk_total i from excluding cap m) as Ht. unfold reachable_excluding in *.
  destruct from as [|f0 from'] eqn:Hfrom; [by intros [= <-]|]. rewrite <- Hfrom in *. clear Hfrom.
  destruct (collect_all _ _ _ _ _) as [[X|e]|] eqn:HX; [|done|done].
  destruct (sql_collect_all_total j d excluding ∅ Hs Hh) as [Y HY]. rewrite HY. cbn [mbind option_bind].
  rewrite <- (exclusions_agree _ _ _ _ _ _ _ _ _ Hsame HX HY).
  destruct (walk_from (fetch_in i m) _ _ _ _) as [[l'|]|] eqn:Hw; [|done|done]. intros [= <-].
  erewrite (walk_from_agree _ _ (fetches_agree i m j d Hs Hh Hsame)); [done|done|].
  apply sql_walk_returns.
Qed.

Lemma walks_agree_kv i m j d from excluding cap l (X : gset ObjectId) :
  (∀ o, is_ok (fetch_in i m o) = true) → (∀ m op, sql_fault m op = None) → history_wf j d →
  same_repository i m j d → (∀ o, o ∈ X ↔ reached_from (kv_graph i m) excluding o) →
  N.of_nat (size X) ≤ cap →
  sql_reachable_excluding j from excluding cap d = Some (Ok l) →
  kv_reachable_excluding i from excluding cap m = Ok l.
Proof.
  intros Hf Hs Hh Hsame HX Hcap. unfold kv_reachable_excluding, sql_reachable_excluding.
  pose proof (kv_walk_total i from excluding cap m) as Ht. unfold reachable_excluding in *.
  destruct from as [|f0 from'] eqn:Hfrom; [by intros [= <-]|]. rewrite <- Hfrom in *. clear Hfrom.
  destruct (collect_all _ _ _ _ _) as [[Z|e]|] eqn:HZ; [| |done].
  - destruct (sql_collect_all_total j d excluding ∅ Hs Hh) as [Y HY]. rewrite HY. cbn [mbind option_bind].
    rewrite <- (exclusions_agree _ _ _ _ _ _ _ _ _ Hsame HZ HY).
    destruct (walk_from (sql_fetch_parents j d) _ _ _ _) as [[l'|]|] eqn:Hw; [|done|done]. intros [= <-].
    erewrite (walk_from_agree (sql_fetch_parents j d) (fetch_in i m)); [done| |exact Hw|exact Ht].
    intros o ps Hps. specialize (Hf o). destruct (fetch_in i m o) as [ps'|] eqn:Hps'; [|done].
    apply (fetches_agree i m j d) in Hps'; [|done..]. congruence.
  - exfalso. apply (collect_all_ok (fetch_in i m)) with (U := X) in HZ; [done|..|done].
    + intros o. specialize (Hf o). destruct (fetch_in i m o); [eauto|done].
    + intros o p (f & Hin & Hr)%HX Hp. apply HX. exists f. split; [done|]. by eapply rtc_r.
    + intros o p ?%not_elem_of_empty. done.
    + set_solver.
    + intros o Ho. apply HX. exists o. split; [done|apply rtc_refl].
Qed.

(** (C13) The KV and the SQL backend agree: on stores that answer, over well-formed
    repositories with the same refs and history, both accept the same batches in any
    sequence and hold the same refs afterwards, null-to-null updates apart (the KV backend
    accepts one for an absent ref, the SQL backend never does); resolve
    every name alike; call every push by the same kind; and list the same commits in the
    same order.  The KV backend also counts what a walk leaves out against the cap: what it
    lists the SQL backend lists, and the converse holds when no more than [cap] commits
    are left out. *)
Theorem backends_agree i m j d :
  (∀ m op, fault m op = None) → (∀ m op, sql_fault m op = None) →
  refs_intact i m → refs_wf j d → (∀ o, is_ok (fetch_in i m o) = true) → history_wf j d →
  same_repository i m j d →
  (∀ batches, Forall (Forall (λ u, ¬ void_update u)) batches →
     (accepted (update_refs i) batches m).1 = (accepted (sql_update_refs j) batches d).1 ∧
     kv_refs i (accepted (update_refs i) batches m).2 =
     sql_refs j (accepted (sql_update_refs j) batches d).2) ∧
  (∀ name, (resolve_ref i name m).1 = (sql_resolve_ref j name d).1) ∧
  (∀ old new, sql_compute_push_kind j old new d = Some (compute_push_kind i old new m)) ∧
  (∀ from excluding cap l, kv_reachable_excluding i from excluding cap m = Ok l →
     sql_reachable_excluding j from excluding cap d = Some (Ok l)) ∧
  (∀ from excluding cap l (excluded : gset ObjectId),
     (∀ o, o ∈ excluded ↔ reached_from (kv_graph i m) excluding o) →
     N.of_nat (size excluded) ≤ cap →
     sql_reachable_excluding j from excluding cap d = Some (Ok l) →
     kv_reachable_excluding i from excluding cap m = Ok l).
Proof.
  intros Hk Hs Hi Hw Hf Hh Hsame. pose proof Hsame as [Hrefs Hgraph]. split_and!.
  - intros batches Hb. by apply batches_agree.
  - intros name. by rewrite resolve_ref_run, sql_resolve_ref_run, Hrefs by done.
  - intros old new. unfold sql_compute_push_kind, compute_push_kind.
    destruct (is_null old); [done|]. destruct (is_null new); [done|].
    destruct (sql_is_ancestor_total j old new d Hs Hh) as [b Hb]. rewrite Hb. cbn.
    destruct (kv_is_ancestor i old new m) as [b'|e] eqn:Hb'; [|by apply kv_is_ancestor_healthy in Hb'].
    apply sql_is_ancestor_spec in Hb; [|done]. apply kv_is_ancestor_Ok in Hb'.
    rewrite (reaches_ext _ _ _ _ Hgraph) in Hb'.
    assert (b = b') as -> by (destruct b, b'; naive_solver). by destruct b'.
  - intros from excluding cap l. by apply walks_agree_sql.
  - intros from excluding cap l X. by apply walks_agree_kv.
Qed.
End agree.
