(* ===== verification/Dense.v ===== *)
(** * Dense bitmaps ([DenseBitmap] of [bitmap.rs])

    A bitmap is a vector of 64-bit words and a number of bits.  The operations work word by
    word; the lemmas say what they do bit by bit. *)

From stdpp Require Import base list sorting.
From Stdlib Require Import NArith Lia.
From S2P Require Import Prelude.
Open Scope N_scope.

Record DenseBitmap := { words : list N; num_bits : N }.

(** ** Words *)

(** [u64::count_ones] and, for a word that is not 0, [u64::trailing_zeros]. *)
Fixpoint pos_ones (p : positive) : N :=
  match p with xH => 1 | xO p => pos_ones p | xI p => 1 + pos_ones p end.
Definition count_ones (w : N) : N := match w with 0 => 0 | Npos p => pos_ones p end.

Fixpoint pos_zeros (p : positive) : N :=
  match p with xO p => 1 + pos_zeros p | _ => 0 end.
Definition trailing_zeros (w : N) : N := match w with 0 => 64 | Npos p => pos_zeros p end.

(** [!w]. *)
Definition not64 (w : N) : N := N.lnot w 64.

(** [n.div_ceil(64)]. *)
Definition div_ceil_64 (n : N) : N := (n + 63) / 64.

(** ** Operations *)

Definition new (num_bits : N) : DenseBitmap :=
  {| words := replicate (N.to_nat (div_ceil_64 num_bits)) 0; num_bits := num_bits |}.

(** The closure of [from_ewah]. *)
Definition set_bit (out : DenseBitmap) (bit : N) : DenseBitmap :=
  let word := bit / 64 in
  let shift := bit mod 64 in
  if word <? N.of_nat (length (words out)) then
    {| words := alter (λ w, N.lor w (N.shiftl 1 shift)) (N.to_nat word) (words out);
       num_bits := num_bits out |}
  else out.

(** [self.words.iter_mut().zip(other.words.iter())]: words beyond the other's stay. *)
Fixpoint zip_words (f : N → N → N) (ws vs : list N) : list N :=
  match ws, vs with
  | w :: ws', v :: vs' => f w v :: zip_words f ws' vs'
  | _, _ => ws
  end.

Definition extend_to (n : N) (b : DenseBitmap) : DenseBitmap :=
  if num_bits b <? n
  then {| words := resize (N.to_nat (div_ceil_64 n)) 0 (words b); num_bits := n |} else b.

Definition or_with (b other : DenseBitmap) : DenseBitmap :=
  let b := extend_to (num_bits other) b in
  {| words := zip_words N.lor (words b) (words other); num_bits := num_bits b |}.

Definition xor_with (b other : DenseBitmap) : DenseBitmap :=
  let b := extend_to (num_bits other) b in
  {| words := zip_words N.lxor (words b) (words other); num_bits := num_bits b |}.

Definition andnot_with (b other : DenseBitmap) : DenseBitmap :=
  {| words := zip_words (λ x y, N.land x (not64 y)) (words b) (words other); num_bits := num_bits b |}.

Definition sum_ones (ws : list N) : N := foldr (λ w n, count_ones w + n) 0 ws.

Definition popcount (b : DenseBitmap) : N := sum_ones (words b).

Definition popcount_in_range (end_ : N) (b : DenseBitmap) : N :=
  let full_words := N.to_nat (end_ / 64) in
  let rem := end_ mod 64 in
  let total := sum_ones (take full_words (words b)) in
  if 0 <? rem then
    match words b !! full_words with
    | Some w => total + count_ones (N.land w (N.shiftl 1 rem - 1))
    | None => total
    end
  else total.

(** [while w != 0 { let bit = w.trailing_zeros(); ...; w &= w - 1; }]: the bits of a word,
    at most 64. *)
Fixpoint word_bits (fuel : nat) (w : N) : list N :=
  match fuel with
  | O => []
  | S fuel => if w =? 0 then [] else trailing_zeros w :: word_bits fuel (N.land w (w - 1))
  end.

(** The bits of the words from the [k]th on. *)
Fixpoint bits_from (k : N) (ws : list N) : list N :=
  match ws with
  | [] => []
  | w :: ws' => ((λ bit, k * 64 + bit) <$> word_bits 64 w) ++ bits_from (k + 1) ws'
  end.

(** The positions [for_each_set_bit] passes to its callback. *)
Definition set_bits (b : DenseBitmap) : list N :=
  base.filter (λ i, i < num_bits b) (bits_from 0 (words b)).

(** The callback says whether to go on. *)
Fixpoint visit {S} (f : N → S → S * bool) (positions : list N) (s : S) : S :=
  match positions with
  | [] => s
  | i :: rest => let '(s', go) := f i s in if go then visit f rest s' else s'
  end.

Definition for_each_set_bit {S} (f : N → S → S * bool) (b : DenseBitmap) (s : S) : S :=
  visit f (set_bits b) s.

(** ** What the bits are *)

Definition bit (b : DenseBitmap) (i : N) : bool :=
  N.testbit (nth (N.to_nat (i / 64)) (words b) 0) (i mod 64).

(** As many words as the bits need, each of 64 bits. *)
Record dense (b : DenseBitmap) : Prop := {
  dense_length : N.of_nat (length (words b)) = div_ceil_64 (num_bits b);
  dense_words : Forall (λ w, w < 2 ^ 64) (words b) }.

(** How many positions below [n] satisfy [p]. *)
Fixpoint count (p : N → bool) (n : nat) : N :=
  match n with
  | O => 0
  | S n => count p n + (if p (N.of_nat n) then 1 else 0)
  end.

Lemma count_le p n : count p n ≤ N.of_nat n.
Proof. induction n as [|n IH]; cbn [count]; [lia|]. destruct (p _); lia. Qed.

Lemma count_full p n : count p n = N.of_nat n ↔ ∀ i, i < N.of_nat n → p i = true.
Proof.
  induction n as [|n IH]; cbn [count]; [split; [lia|done]|]. pose proof (count_le p n) as Hle. split.
  - intros Hc i Hi. destruct (p (N.of_nat n)) eqn:Hp; [|lia].
    destruct (decide (i = N.of_nat n)) as [->|Hne]; [done|]. apply IH; lia.
  - intros Hall. rewrite (Hall (N.of_nat n)) by lia. rewrite (proj2 IH); [lia|]. intros i Hi. apply Hall. lia.
Qed.

Lemma count_ext p q n : (∀ i, i < N.of_nat n → p i = q i) → count p n = count q n.
Proof.
  induction n as [|n IH]; intros Hpq; cbn [count]; [done|]. rewrite IH, Hpq; [done|lia|].
  intros i Hi. apply Hpq. lia.
Qed.

Lemma count_add p m n : count p (m + n) = count p m + count (λ i, p (N.of_nat m + i)) n.
Proof.
  induction n as [|n IH]; cbn [count]; [by rewrite Nat.add_0_r, N.add_0_r|].
  rewrite Nat.add_succ_r. cbn [count]. rewrite IH. rewrite Nat2N.inj_add. lia.
Qed.

Lemma count_none p n : (∀ i, i < N.of_nat n → p i = false) → count p n = 0.
Proof. intros Hp. rewrite (count_ext _ (λ _, false) n Hp). clear Hp. induction n; cbn; lia. Qed.

(** ** Words, bit by bit *)

Lemma testbit_high w k i : w < 2 ^ k → k ≤ i → N.testbit w i = false.
Proof.
  intros Hw Hi. destruct (decide (w = 0)) as [->|Hz]; [apply N.bits_0|].
  apply N.bits_above_log2. apply N.log2_lt_pow2; [lia|].
  eapply N.lt_le_trans; [exact Hw|]. by apply N.pow_le_mono_r.
Qed.

Lemma word_lt w k : (∀ i, k ≤ i → N.testbit w i = false) → w < 2 ^ k.
Proof.
  intros Hw. destruct (decide (w = 0)) as [->|Hz]; [apply N.neq_0_lt_0, N.pow_nonzero; lia|].
  apply N.log2_lt_pow2; [lia|]. destruct (N.lt_ge_cases (N.log2 w) k) as [?|Hge]; [done|].
  apply Hw in Hge. by rewrite N.bit_log2 in Hge.
Qed.

Lemma count_ones_spec k w : w < 2 ^ N.of_nat k → count_ones w = count (N.testbit w) k.
Proof.
  revert w; induction k as [|k IH]; intros w Hw.
  { cbn in *. by assert (w = 0) as -> by lia. }
  assert (count (N.testbit w) (S k) = (if N.odd w then 1 else 0) + count (N.testbit (N.div2 w)) k) as ->.
  { change (S k) with (1 + k)%nat. rewrite count_add. cbn [count N.of_nat]. rewrite N.bit0_odd.
    f_equal. apply count_ext. intros i _. rewrite N.div2_spec, N.shiftr_spec' . f_equal. lia. }
  assert (N.div2 w < 2 ^ N.of_nat k) as Hd.
  { rewrite N.div2_div. apply N.Div0.div_lt_upper_bound. rewrite <- N.pow_succ_r'. by rewrite <- Nat2N.inj_succ. }
  rewrite <- (IH _ Hd). destruct w as [|[p|p|]]; done.
Qed.

Lemma trailing_zeros_odd w : w ≠ 0 → ∃ q, w = (2 * q + 1) * 2 ^ trailing_zeros w.
Proof.
  destruct w as [|p]; [done|]. intros _. cbn [trailing_zeros].
  induction p as [p _|p [q IH]|]; cbn [pos_zeros].
  - exists (N.pos p). rewrite N.pow_0_r. lia.
  - exists q. rewrite N.pow_add_r, N.pow_1_r. rewrite N.mul_assoc, (N.mul_comm _ 2), <- N.mul_assoc, <- IH. lia.
  - by exists 0.
Qed.

Lemma testbit_mul_pow n t i : N.testbit (n * 2 ^ t) i = (t <=? i) && N.testbit n (i - t).
Proof.
  destruct (N.leb_spec t i) as [Hle|Hlt]; [by rewrite N.mul_pow2_bits_high|]. by rewrite N.mul_pow2_bits_low.
Qed.

(** [w & (w - 1)] is [w] without its lowest bit. *)
Lemma clear_lowest w i :
  w ≠ 0 → N.testbit (N.land w (w - 1)) i = N.testbit w i && negb (i =? trailing_zeros w).
Proof.
  intros Hw. destruct (trailing_zeros_odd w Hw) as [q Hq]. set (t := trailing_zeros w) in *.
  assert (0 < 2 ^ t) as Ht by (apply N.neq_0_lt_0, N.pow_nonzero; lia).
  assert (w - 1 = (2 * q) * 2 ^ t + (2 ^ t - 1)) as Hw1 by lia.
  rewrite N.land_spec. destruct (N.lt_ge_cases i t) as [Hlt|Hge].
  { rewrite Hq, testbit_mul_pow. by replace (t <=? i) with false by (symmetry; apply N.leb_gt; lia). }
  assert (N.testbit (w - 1) i = N.testbit (2 * q) (i - t)) as ->.
  { replace i with ((i - t) + t) at 1 by lia. rewrite <- N.div_pow2_bits, Hw1. f_equal.
    rewrite N.add_comm, N.div_add by lia. rewrite N.div_small; lia. }
  assert (N.testbit w i = N.testbit (2 * q + 1) (i - t)) as ->.
  { rewrite Hq, testbit_mul_pow. by replace (t <=? i) with true by (symmetry; apply N.leb_le; lia). }
  destruct (decide (i = t)) as [->|Hne].
  { rewrite N.sub_diag, N.eqb_refl, N.testbit_even_0. by rewrite !andb_false_r. }
  replace (i =? t) with false by (symmetry; apply N.eqb_neq; done). rewrite andb_true_r.
  replace (i - t) with (N.succ (i - t - 1)) by lia. rewrite N.testbit_odd_succ, N.testbit_even_succ by lia.
  by destruct (N.testbit q _).
Qed.

Lemma testbit_trailing w : w ≠ 0 → N.testbit w (trailing_zeros w) = true.
Proof.
  intros Hw. destruct (trailing_zeros_odd w Hw) as [q Hq]. rewrite Hq at 1.
  rewrite testbit_mul_pow, N.leb_refl, N.sub_diag. by rewrite N.testbit_odd_0.
Qed.

Lemma trailing_lowest w i : w ≠ 0 → N.testbit w i = true → trailing_zeros w ≤ i.
Proof.
  intros Hw Hi. destruct (trailing_zeros_odd w Hw) as [q Hq]. rewrite Hq, testbit_mul_pow in Hi.
  apply andb_true_iff in Hi as [Hi _]. by apply N.leb_le in Hi.
Qed.

(** The loop lists the bits of a word: 64 rounds are enough. *)
Lemma word_bits_spec fuel w :
  (∀ i, N.testbit w i = true → 64 - N.of_nat fuel ≤ i < 64) →
  ∀ i, i ∈ word_bits fuel w ↔ N.testbit w i = true.
Proof.
  revert w; induction fuel as [|fuel IH]; intros w Hw i; cbn [word_bits].
  { split; [by intros ?%elem_of_nil|]. intros Hi%Hw. lia. }
  destruct (N.eqb_spec w 0) as [->|Hz].
  { rewrite N.bits_0. split; [by intros ?%elem_of_nil|done]. }
  rewrite elem_of_cons, IH.
  - rewrite clear_lowest by done. destruct (N.eqb_spec i (trailing_zeros w)) as [->|Hne].
    + rewrite testbit_trailing by done. naive_solver.
    + rewrite andb_true_r. naive_solver.
  - intros j. rewrite clear_lowest by done. intros [Hj Hne]%andb_true_iff.
    apply negb_true_iff, N.eqb_neq in Hne. pose proof (Hw _ Hj).
    pose proof (trailing_lowest _ _ Hz Hj). pose proof (Hw _ (testbit_trailing _ Hz)). lia.
Qed.

Lemma elem_of_word_bits w i : w < 2 ^ 64 → i ∈ word_bits 64 w ↔ N.testbit w i = true.
Proof.
  intros Hw. apply word_bits_spec. intros j Hj. split; [lia|].
  destruct (N.lt_ge_cases j 64) as [?|Hge]; [done|]. by rewrite (testbit_high w 64 j) in Hj.
Qed.

(** ** Operations, bit by bit *)

Lemma nth_word_lt ws k : Forall (λ w, w < 2 ^ 64) ws → nth k ws 0 < 2 ^ 64.
Proof.
  intros Hw. rewrite nth_lookup. destruct (ws !! k) as [w|] eqn:Hk; cbn [default]; [|done].
  exact (Forall_lookup_1 _ _ _ _ Hw Hk).
Qed.

Lemma bit_outside b i : dense b → div_ceil_64 (num_bits b) * 64 ≤ i → bit b i = false.
Proof.
  intros [Hl _] Hi. unfold bit. rewrite nth_overflow, N.bits_0; [done|].
  assert (div_ceil_64 (num_bits b) ≤ i / 64) by (apply N.div_le_lower_bound; lia). lia.
Qed.

Lemma dense_new n : dense (new n).
Proof.
  split; cbn; [by rewrite length_replicate, N2Nat.id|]. apply Forall_replicate. done.
Qed.

Lemma bit_new n i : bit (new n) i = false.
Proof.
  unfold bit, new. cbn [words]. rewrite nth_lookup.
  destruct (replicate _ 0 !! _) as [w|] eqn:Hw; cbn [default]; [|apply N.bits_0].
  apply lookup_replicate in Hw as [-> _]. apply N.bits_0.
Qed.

Lemma testbit_shift1 s i : N.testbit (N.shiftl 1 s) i = (i =? s).
Proof.
  rewrite N.shiftl_1_l, N.pow2_bits_eqb. apply N.eqb_sym.
Qed.

Lemma div_mod_64 i j : i = j ↔ i / 64 = j / 64 ∧ i mod 64 = j mod 64.
Proof.
  split; [by intros ->|]. intros [Hd Hm]. rewrite (N.div_mod i 64), (N.div_mod j 64); [congruence|lia..].
Qed.

Lemma set_bit_spec b k :
  dense b → dense (set_bit b k) ∧ num_bits (set_bit b k) = num_bits b ∧
  ∀ i, bit (set_bit b k) i =
       bit b i || ((i =? k) && (k / 64 <? N.of_nat (length (words b)))).
Proof.
  intros Hd. pose proof Hd as [Hl Hw]. unfold set_bit. destruct (N.ltb_spec (k / 64) (N.of_nat (length (words b)))) as [Hk|Hk].
  2:{ split_and!; [done|done|]. intros i. by rewrite andb_false_r, orb_false_r. }
  assert (N.shiftl 1 (k mod 64) < 2 ^ 64) as Hs.
  { apply word_lt. intros i Hi. rewrite testbit_shift1. apply N.eqb_neq.
    pose proof (N.mod_lt k 64 ltac:(lia)). lia. }
  split_and!; [|done|].
  - split; cbn; [by rewrite length_alter|]. apply Forall_alter; [done|].
    intros w _ Hlt. apply word_lt. intros i Hi. rewrite N.lor_spec.
    by rewrite (testbit_high w 64), (testbit_high _ 64 i Hs).
  - intros i. rewrite andb_true_r. unfold bit. cbn [words]. rewrite !nth_lookup.
    destruct (decide (N.to_nat (i / 64) = N.to_nat (k / 64))) as [Heq|Hne].
    + rewrite Heq, list_lookup_alter_eq.
      destruct (lookup_lt_is_Some_2 (words b) (N.to_nat (k / 64)) ltac:(lia)) as [w ->].
      cbn. rewrite N.lor_spec, testbit_shift1. f_equal. apply eq_true_iff_eq.
      rewrite !N.eqb_eq, (div_mod_64 i k). assert (i / 64 = k / 64) by lia. tauto.
    + rewrite list_lookup_alter_ne by done.
      replace (i =? k) with false; [by rewrite orb_false_r|]. symmetry. apply N.eqb_neq. congruence.
Qed.

Lemma nth_zip_words f ws vs k :
  Forall (λ w, w < 2 ^ 64) ws → (∀ w, w < 2 ^ 64 → f w 0 = w) →
  (length vs ≤ length ws)%nat ∨ (∀ v, f 0 v = 0) →
  nth k (zip_words f ws vs) 0 = f (nth k ws 0) (nth k vs 0).
Proof.
  intros Hws Hf. revert vs k; induction Hws as [|w ws Hw Hws IH]; intros [|v vs] k Hl; cbn [zip_words].
  - destruct k; by rewrite Hf.
  - destruct Hl as [Hl|Hl]; [cbn in Hl; lia|]. destruct k; cbn [nth]; by rewrite Hl.
  - assert (nth k [] 0 = 0) as -> by (by destruct k). rewrite Hf; [done|]. apply nth_word_lt. by constructor.
  - destruct k as [|k]; cbn [nth]; [done|]. apply IH. destruct Hl as [Hl|Hl]; [left; cbn in Hl; lia|by right].
Qed.

Lemma length_zip_words f ws vs : length (zip_words f ws vs) = length ws.
Proof. revert vs; induction ws as [|w ws IH]; intros [|v vs]; cbn; auto. Qed.

Lemma zip_words_lt f ws vs :
  (∀ w v, w < 2 ^ 64 → v < 2 ^ 64 → f w v < 2 ^ 64) →
  Forall (λ w, w < 2 ^ 64) ws → Forall (λ w, w < 2 ^ 64) vs → Forall (λ w, w < 2 ^ 64) (zip_words f ws vs).
Proof.
  intros Hf Hws. revert vs; induction Hws as [|w ws Hw Hws IH]; intros vs Hvs; [by destruct vs|].
  destruct Hvs as [|v vs Hv Hvs]; cbn; constructor; auto.
Qed.

Lemma div_ceil_mono m n : m ≤ n → div_ceil_64 m ≤ div_ceil_64 n.
Proof. intros Hmn. unfold div_ceil_64. apply N.Div0.div_le_mono. lia. Qed.

Lemma extend_to_spec n b :
  dense b → dense (extend_to n b) ∧ num_bits (extend_to n b) = N.max (num_bits b) n ∧
  (∀ k, nth k (words (extend_to n b)) 0 = nth k (words b) 0) ∧
  div_ceil_64 n ≤ N.of_nat (length (words (extend_to n b))).
Proof.
  intros Hd. pose proof Hd as [Hl Hw]. unfold extend_to. destruct (N.ltb_spec (num_bits b) n) as [Hn|Hn].
  - pose proof (div_ceil_mono (num_bits b) n ltac:(lia)) as Hc. split_and!.
    + split; cbn; [rewrite length_resize; lia|]. rewrite resize_ge by lia.
      apply Forall_app. split; [done|]. by apply Forall_replicate.
    + cbn. lia.
    + intros k. cbn [words]. rewrite resize_ge by lia.
      destruct (Nat.lt_ge_cases k (length (words b))) as [Hk|Hk]; [by rewrite app_nth1|].
      rewrite app_nth2, (nth_overflow (words b)) by lia. rewrite nth_lookup.
      destruct (replicate _ 0 !! _) as [w|] eqn:E; [|done]. by apply lookup_replicate in E as [-> _].
    + cbn. rewrite length_resize. lia.
  - split_and!; [done|lia|done|]. rewrite Hl. apply div_ceil_mono. lia.
Qed.

Lemma extend_zip_spec f g b o :
  (∀ w, w < 2 ^ 64 → f w 0 = w) → (∀ w v i, N.testbit (f w v) i = g (N.testbit w i) (N.testbit v i)) →
  g false false = false → dense b → dense o →
  let b' := extend_to (num_bits o) b in
  let r := {| words := zip_words f (words b') (words o); num_bits := num_bits b' |} in
  dense r ∧ num_bits r = N.max (num_bits b) (num_bits o) ∧ ∀ i, bit r i = g (bit b i) (bit o i).
Proof.
  intros Hf Hg Hgg Hb Ho. destruct (extend_to_spec (num_bits o) b Hb) as (Hd & Hn & Hnth & Hlen).
  cbv zeta. split_and!.
  - split; cbn; [rewrite length_zip_words; apply Hd|]. apply zip_words_lt; [|apply Hd|apply Ho].
    intros w v Hw Hv. apply word_lt. intros i Hi.
    by rewrite Hg, (testbit_high w 64), (testbit_high v 64) by done.
  - done.
  - intros i. unfold bit. cbn [words]. rewrite nth_zip_words; [|apply Hd|done|].
    + by rewrite Hg, Hnth.
    + left. destruct Ho as [Hol _]. lia.
Qed.

Lemma or_with_spec b o :
  dense b → dense o →
  dense (or_with b o) ∧ num_bits (or_with b o) = N.max (num_bits b) (num_bits o) ∧
  ∀ i, bit (or_with b o) i = bit b i || bit o i.
Proof. apply extend_zip_spec; [intros; apply N.lor_0_r|apply N.lor_spec|done]. Qed.

Lemma xor_with_spec b o :
  dense b → dense o →
  dense (xor_with b o) ∧ num_bits (xor_with b o) = N.max (num_bits b) (num_bits o) ∧
  ∀ i, bit (xor_with b o) i = xorb (bit b i) (bit o i).
Proof. apply extend_zip_spec; [intros; apply N.lxor_0_r|apply N.lxor_spec|done]. Qed.

Lemma andnot_with_spec b o :
  dense b → dense o →
  dense (andnot_with b o) ∧ num_bits (andnot_with b o) = num_bits b ∧
  ∀ i, bit (andnot_with b o) i = bit b i && negb (bit o i).
Proof.
  intros Hb Ho. assert (∀ w v i, w < 2 ^ 64 →
    N.testbit (N.land w (not64 v)) i = N.testbit w i && negb (N.testbit v i)) as Hf.
  { intros w v i Hw. rewrite N.land_spec. unfold not64.
    destruct (N.lt_ge_cases i 64) as [Hi|Hi]; [by rewrite N.lnot_spec_low|]. by rewrite (testbit_high w 64). }
  split_and!; [|done|].
  - split; cbn; [rewrite length_zip_words; apply Hb|]. apply zip_words_lt; [|apply Hb|apply Ho].
    intros w v Hw Hv. apply word_lt. intros i Hi. by rewrite Hf, (testbit_high w 64) by done.
  - intros i. unfold bit, andnot_with. cbn [words]. destruct Hb as [_ Hb]. rewrite nth_zip_words; [|done| |].
    + rewrite Hf; [done|]. by apply nth_word_lt.
    + intros w Hw. apply N.bits_inj. intros j. by rewrite Hf, N.bits_0, andb_true_r.
    + right. intros v. apply N.land_0_l.
Qed.

(** ** Counting and listing *)

(** The bits of the first words. *)
Lemma sum_ones_spec b k :
  Forall (λ w, w < 2 ^ 64) (words b) →
  sum_ones (take k (words b)) = count (bit b) (64 * k).
Proof.
  intros Hw. induction k as [|k IH]; [done|].
  replace (64 * S k)%nat with (64 * k + 64)%nat by lia. rewrite count_add, <- IH.
  assert (count (λ i, bit b (N.of_nat (64 * k) + i)) 64 = count_ones (nth k (words b) 0)) as ->.
  { rewrite (count_ones_spec 64) by (by apply nth_word_lt). apply count_ext. intros i Hi. unfold bit.
    replace (N.of_nat (64 * k) + i) with (i + N.of_nat k * 64) by lia.
    rewrite N.div_add, N.Div0.mod_add, N.div_small, N.mod_small by lia.
    by rewrite N.add_0_l, Nat2N.id. }
  rewrite nth_lookup. destruct (words b !! k) as [w|] eqn:Hk; cbn [default]; unfold id.
  - rewrite (take_S_r _ _ _ Hk). unfold sum_ones. rewrite foldr_app. cbn [foldr].
    rewrite N.add_0_r. generalize (take k (words b)) (count_ones w). intros l c.
    induction l as [|x l IHl]; cbn [foldr]; [lia|]. rewrite IHl. lia.
  - apply lookup_ge_None in Hk. rewrite !take_ge by lia. cbn. lia.
Qed.

(** [popcount_in_range] counts the bits below its argument, also when there are fewer. *)
Lemma popcount_in_range_spec n b :
  dense b → popcount_in_range n b = count (bit b) (N.to_nat n).
Proof.
  intros [_ Hw]. unfold popcount_in_range. pose proof (N.mod_lt n 64 ltac:(lia)) as Hr.
  pose proof (N.div_mod n 64 ltac:(lia)) as Hn.
  assert (N.to_nat n = 64 * N.to_nat (n / 64) + N.to_nat (n mod 64))%nat as ->.
  { rewrite Hn at 1. by rewrite N2Nat.inj_add, N2Nat.inj_mul. }
  rewrite sum_ones_spec, count_add by done. destruct (N.ltb_spec 0 (n mod 64)) as [Hp|Hp].
  2:{ apply N.le_0_r in Hp. rewrite Hp. cbn. by rewrite N.add_0_r. }
  assert (∀ w, nth (N.to_nat (n / 64)) (words b) 0 = w →
    count (λ i, bit b (N.of_nat (64 * N.to_nat (n / 64)) + i)) (N.to_nat (n mod 64)) =
    count (N.testbit w) (N.to_nat (n mod 64))) as Hc.
  { intros w Hwd. apply count_ext. intros i Hi. unfold bit.
    replace (N.of_nat (64 * N.to_nat (n / 64)) + i) with (i + n / 64 * 64) by lia.
    rewrite N.div_add, N.Div0.mod_add, N.div_small, N.mod_small by lia. by rewrite N.add_0_l, Hwd. }
  destruct (words b !! N.to_nat (n / 64)) as [w|] eqn:Hk.
  - rewrite (Hc w) by (by rewrite nth_lookup, Hk). f_equal.
    assert (N.land w (N.shiftl 1 (n mod 64) - 1) = w mod 2 ^ (n mod 64)) as ->.
    { rewrite N.shiftl_1_l, N.sub_1_r, <- N.ones_equiv. apply N.land_ones. }
    rewrite (count_ones_spec (N.to_nat (n mod 64))).
    + apply count_ext. intros i Hi. apply N.mod_pow2_bits_low. lia.
    + rewrite N2Nat.id. apply N.mod_lt, N.pow_nonzero. lia.
  - rewrite (Hc 0) by (by rewrite nth_lookup, Hk). rewrite (count_none (N.testbit 0)); [by rewrite N.add_0_r|].
    intros i _. apply N.bits_0.
Qed.

(** *** [for_each_set_bit] *)

Lemma word_bits_lt w j : w < 2 ^ 64 → j ∈ word_bits 64 w → j < 64.
Proof.
  intros Hw Hj%elem_of_word_bits; [|done]. destruct (N.lt_ge_cases j 64); [done|].
  by rewrite (testbit_high w 64 j) in Hj.
Qed.

Lemma elem_of_bits_from k ws i :
  Forall (λ w, w < 2 ^ 64) ws →
  i ∈ bits_from k ws ↔ k ≤ i / 64 ∧ N.testbit (nth (N.to_nat (i / 64 - k)) ws 0) (i mod 64) = true.
Proof.
  intros Hws. revert k; induction Hws as [|w ws Hw Hws IH]; intros k; cbn [bits_from].
  { rewrite nth_overflow, N.bits_0 by (cbn; lia). split; [by intros ?%elem_of_nil|by intros [_ ?]]. }
  rewrite elem_of_app, IH, list_elem_of_fmap. split.
  - intros [(j & -> & Hj)|[Hk Hb]].
    + pose proof (word_bits_lt _ _ Hw Hj). apply elem_of_word_bits in Hj; [|done].
      rewrite N.add_comm, N.div_add, N.Div0.mod_add, N.div_small, N.mod_small by lia.
      rewrite N.add_0_l, N.sub_diag. by split.
    + split; [lia|]. replace (N.to_nat (i / 64 - k)) with (S (N.to_nat (i / 64 - (k + 1)))) by lia. done.
  - intros [Hk Hb]. destruct (decide (i / 64 = k)) as [<-|Hne].
    + left. rewrite N.sub_diag in Hb. exists (i mod 64). split.
      * rewrite (N.div_mod i 64) at 1; lia.
      * by apply elem_of_word_bits.
    + right. split; [lia|].
      replace (N.to_nat (i / 64 - k)) with (S (N.to_nat (i / 64 - (k + 1)))) in Hb by lia. done.
Qed.

(** The callback sees exactly the bits that are set. *)
Lemma elem_of_set_bits b i :
  dense b → i ∈ set_bits b ↔ i < num_bits b ∧ bit b i = true.
Proof.
  intros [_ Hw]. unfold set_bits, bit. rewrite list_elem_of_filter, elem_of_bits_from by done.
  rewrite N.sub_0_r. split; [tauto|]. intros [? ?]. split_and!; [done|apply N.le_0_l|done].
Qed.

Lemma word_bits_sorted fuel w :
  (∀ i, N.testbit w i = true → 64 - N.of_nat fuel ≤ i < 64) → StronglySorted N.lt (word_bits fuel w).
Proof.
  revert w; induction fuel as [|fuel IH]; intros w Hw; cbn [word_bits]; [constructor|].
  destruct (N.eqb_spec w 0) as [->|Hz]; [constructor|].
  assert (∀ j, N.testbit (N.land w (w - 1)) j = true → trailing_zeros w < j ∧ 64 - N.of_nat fuel ≤ j < 64) as Hj.
  { intros j. rewrite clear_lowest by done. intros [Hj Hne]%andb_true_iff.
    apply negb_true_iff, N.eqb_neq in Hne. pose proof (Hw _ Hj).
    pose proof (trailing_lowest _ _ Hz Hj). pose proof (Hw _ (testbit_trailing _ Hz)). lia. }
  constructor; [apply IH; intros j ?%Hj; tauto|]. apply Forall_forall. intros j Hin.
  apply word_bits_spec in Hin; [by apply Hj in Hin as [? _]|]. intros i ?%Hj. tauto.
Qed.

(** They come in ascending order. *)
Lemma bits_from_sorted k ws :
  Forall (λ w, w < 2 ^ 64) ws → StronglySorted N.lt (bits_from k ws).
Proof.
  intros Hws. revert k; induction Hws as [|w ws Hw Hws IH]; intros k; cbn [bits_from]; [constructor|].
  apply StronglySorted_app_2; [| |apply IH].
  - intros i j (a & -> & Ha)%list_elem_of_fmap Hj%elem_of_bits_from; [|done].
    pose proof (word_bits_lt _ _ Hw Ha). destruct Hj as [Hj _].
    pose proof (N.Div0.mul_div_le j 64). lia.
  - apply (StronglySorted_fmap _ N.lt); [intros; lia|]. apply word_bits_sorted. intros i Hi. split; [lia|].
    destruct (N.lt_ge_cases i 64); [done|]. by rewrite (testbit_high w 64 i) in Hi.
Qed.

Lemma set_bits_sorted b : dense b → StronglySorted N.lt (set_bits b).
Proof.
  intros [_ Hw]. unfold set_bits. generalize (bits_from_sorted 0 _ Hw). generalize (bits_from 0 (words b)).
  intros l. induction 1 as [|i l Hl IH Hi]; [constructor|]. rewrite filter_cons. case_decide; [|done].
  constructor; [done|]. apply Forall_forall. intros j [_ Hj]%list_elem_of_filter.
  by apply (proj1 (Forall_forall _ _) Hi).
Qed.
