(* ===== verification/Bitmap.v ===== *)
(** * Reachability bitmaps and pack reuse ([bitmap.rs], [pack_reuse.rs])

    A pack may come with a [.bitmap] file, which holds for some of its commits the set of
    objects reachable from them, and a [.rev] file, which gives the order of the bits.  The
    reader turns requests into operations on dense bitmaps; pack reuse ships a pack as it
    is when the bitmaps say that it holds exactly what is asked for.  EWAH compression
    ([gix-bitmap]) and the pack index ([gix-pack]) are third-party. *)

From stdpp Require Import base gmap list sorting strings.
From Stdlib Require Import Strings.Byte NArith Lia.
From S2P Require Import Prelude Bytes Gix Proto Types Inspect Dense.
Open Scope N_scope.

(** [gix_bitmap::ewah]: a compressed bitmap has a length and the positions that
    [for_each_set_bit] visits. *)
Class GixBitmap := {
  ewah : Type;
  ewah_decode : bytes → result error (ewah * bytes);
  ewah_num_bits : ewah → N;
  ewah_bits : ewah → list N }.

(** [gix_pack::index::File]: the number of objects and their ids in order.  Asking for the
    id of a position that is not below the number of objects panics. *)
Record PackIndex `{GixHash} := {
  num_objects : N;
  oid_at_index : N → ObjectId }.

(** What listing a directory gives: the paths of its entries, those that fail left out. *)
Inductive DirListing := DirNotFound | DirError (e : error) | DirEntries (paths : list bytes).

(** The file system the reader runs on. *)
Class PackFiles `{GixHash} := {
  is_file : bytes → bool;
  fs_read_file : bytes → result error bytes;
  fs_read_dir : bytes → DirListing;
  index_at : bytes → result error PackIndex }.

(** ** Paths *)

(** The last file name of a path and what is before it. *)
Fixpoint split_name (path : bytes) : bytes * bytes :=
  match path with
  | [] => ([], [])
  | c :: rest =>
      let '(dir, name) := split_name rest in
      if decide (x2f ∈ rest ∨ c = x2f) then (c :: dir, name) else (dir, c :: name)
  end.

(** The stem of a file name, and its extension: what follows the last dot, unless the dot
    is the first character. *)
Fixpoint split_dot (name : bytes) : option (bytes * bytes) :=
  match name with
  | [] => None
  | c :: rest =>
      match split_dot rest with
      | Some (stem, ext) => Some (c :: stem, ext)
      | None => if decide (c = x2e) then Some ([], rest) else None
      end
  end.

Definition stem_extension (name : bytes) : bytes * option bytes :=
  match split_dot name with
  | Some ((_ :: _) as stem, ext) => (stem, Some ext)
  | _ => (name, None)
  end.

(** [Path::extension] and [Path::with_extension]. *)
Definition extension (path : bytes) : option bytes := (stem_extension (split_name path).2).2.

Definition with_extension (path ext : bytes) : bytes :=
  let '(dir, name) := split_name path in dir ++ (stem_extension name).1 ++ b! "." ++ ext.

Section bitmap.
Context `{GixHash} {gix_bitmap : GixBitmap} {files : PackFiles}.

(** ** Sidecar files *)

Definition SHA1_LEN : N := 20.
Definition BITMAP_HEADER_LEN : N := 4 + 2 + 2 + 4 + SHA1_LEN.
Definition FLAG_LOOKUP_TABLE : N := 16.

(** [s[i..j]], within bounds. *)
Definition slice (i j : N) (s : bytes) : bytes := take (N.to_nat (j - i)) (drop (N.to_nat i) s).

(** [s.chunks_exact(4)], each read as a big-endian integer, for [n] chunks. *)
Fixpoint be_words (n : nat) (s : bytes) : list N :=
  match n with
  | O => []
  | S n => from_be_bytes (take 4 s) :: be_words n (drop 4 s)
  end.

Definition parse_rev (s : bytes) (pack_object_count : N) : result error (list N) :=
  if len s <? 12 + SHA1_LEN then bail (b! ".rev file too short: " ++ decimal (len s) ++ b! " bytes")
  else if decide (slice 0 4 s ≠ b! "RIDX") then bail (b! ".rev missing RIDX magic")
  else
    let version := from_be_bytes (slice 4 8 s) in
    if negb (version =? 1) then bail (b! ".rev version " ++ decimal version ++ b! " unsupported")
    else
      let hash_algo := from_be_bytes (slice 8 12 s) in
      if negb (hash_algo =? 1)
      then bail (b! ".rev hash algo " ++ decimal hash_algo ++ b! " unsupported (sha1 only)")
      else
        let body_len := pack_object_count * 4 in
        if len s <? 12 + body_len + SHA1_LEN
        then bail (b! ".rev body too short: " ++ decimal (len s) ++ b! " bytes for " ++
                   decimal pack_object_count ++ b! " objects")
        else Ok (be_words (N.to_nat pack_object_count) (slice 12 (12 + body_len) s)).

Record Entry := { idx_pos : N; xor_offset : N; entry_ewah : ewah }.

(** The type bitmaps are skipped. *)
Fixpoint skip_type_bitmaps (n : nat) (cursor : bytes) : result error bytes :=
  match n with
  | O => Ok cursor
  | S n =>
      '(_, rest) ← map_err (Fmt (b! "EWAH type-bitmap: ")) (ewah_decode cursor);
      skip_type_bitmaps n rest
  end.

Fixpoint parse_entries (n : nat) (cursor : bytes) : result error (list Entry) :=
  match n with
  | O => Ok []
  | S n =>
      if len cursor <? 6 then bail (b! "truncated entry header")
      else
        let idx_pos := from_be_bytes (slice 0 4 cursor) in
        let xor_offset := from_be_bytes (slice 4 5 cursor) in
        '(e, rest) ← map_err (Fmt (b! "EWAH entry bitmap: ")) (ewah_decode (drop 6 cursor));
        entries ← parse_entries n rest;
        Ok ({| idx_pos := idx_pos; xor_offset := xor_offset; entry_ewah := e |} :: entries)
  end.

Definition parse_bitmap (s : bytes) : result error (option (list Entry * N)) :=
  if len s <? BITMAP_HEADER_LEN + SHA1_LEN then bail (b! ".bitmap too short")
  else if decide (slice 0 4 s ≠ b! "BITM") then bail (b! ".bitmap missing BITM magic")
  else
    let version := from_be_bytes (slice 4 6 s) in
    if negb (version =? 1) then bail (b! ".bitmap version " ++ decimal version ++ b! " unsupported")
    else
      let flags := from_be_bytes (slice 6 8 s) in
      if negb (N.land flags FLAG_LOOKUP_TABLE =? 0) then Ok None
      else
        let entry_count := from_be_bytes (slice 8 12 s) in
        cursor ← skip_type_bitmaps 4 (drop (N.to_nat BITMAP_HEADER_LEN) s);
        entries ← parse_entries (N.to_nat entry_count) cursor;
        Ok (Some (entries, flags)).

(** ** The loaded bitmap *)

Record PackBitmap := {
  offset_pos_to_idx_pos : list N;
  offset_pos_to_oid : list (option ObjectId);
  oid_to_entry : gmap ObjectId nat;
  entries : list Entry;
  pack_object_count : N }.

Definition load (idx_path : bytes) (count : N) : result error (option PackBitmap) :=
  let bitmap_path := with_extension idx_path (b! "bitmap") in
  let rev_path := with_extension idx_path (b! "rev") in
  if negb (is_file bitmap_path) || negb (is_file rev_path) then Ok None
  else
    bitmap_bytes ← context (b! "reading .bitmap") (fs_read_file bitmap_path);
    rev_bytes ← context (b! "reading .rev") (fs_read_file rev_path);
    rev ← parse_rev rev_bytes count;
    parsed ← parse_bitmap bitmap_bytes;
    Ok ('(es, _) ← parsed;
        Some {| offset_pos_to_idx_pos := rev; offset_pos_to_oid := replicate (length rev) None;
                oid_to_entry := ∅; entries := es; pack_object_count := count |}).

(** The entry of each commit; a later entry for the same commit replaces an earlier one. *)
Definition index_entry (oid_at : N → option ObjectId) (t : gmap ObjectId nat) (x : nat * Entry) :
    gmap ObjectId nat :=
  match oid_at (idx_pos x.2) with Some o => <[o := x.1]> t | None => t end.

Definition build_oid_index (oid_at : N → option ObjectId) (b : PackBitmap) : PackBitmap :=
  {| offset_pos_to_idx_pos := offset_pos_to_idx_pos b;
     offset_pos_to_oid := oid_at <$> offset_pos_to_idx_pos b;
     oid_to_entry := foldl (index_entry oid_at) (oid_to_entry b) (imap pair (entries b));
     entries := entries b;
     pack_object_count := pack_object_count b |}.

Definition from_ewah (e : ewah) (num_bits_hint : N) : DenseBitmap :=
  foldl set_bit (new (N.max (ewah_num_bits e) num_bits_hint)) (ewah_bits e).

(** ** Decoding

    An outer [None] is a panic: an entry that does not exist, or an XOR base before the
    first.  A base is an earlier entry, so as many rounds as the index are enough. *)
Fixpoint decode_rec (fuel : nat) (b : PackBitmap) (entry_idx : nat) (cache : gmap nat DenseBitmap) :
    option (DenseBitmap * gmap nat DenseBitmap) :=
  match fuel with
  | O => None
  | S fuel =>
      match cache !! entry_idx with
      | Some cached => Some (cached, cache)
      | None =>
          entry ← entries b !! entry_idx;
          let bitmap := from_ewah (entry_ewah entry) (pack_object_count b) in
          '(bitmap, cache) ←
            (if xor_offset entry =? 0 then Some (bitmap, cache)
             else if decide (entry_idx < N.to_nat (xor_offset entry))%nat then None
             else
               '(base, cache) ← decode_rec fuel b (entry_idx - N.to_nat (xor_offset entry)) cache;
               Some (xor_with bitmap base, cache));
          Some (bitmap, <[entry_idx := bitmap]> cache)
      end
  end.

Definition decode_entry (b : PackBitmap) (entry_idx : nat) (cache : gmap nat DenseBitmap) :
    option (DenseBitmap * gmap nat DenseBitmap) :=
  decode_rec (S entry_idx) b entry_idx cache.

Fixpoint union_entries (b : PackBitmap) (indices : list nat) (decoded : gmap nat DenseBitmap)
    (union : DenseBitmap) : option DenseBitmap :=
  match indices with
  | [] => Some union
  | k :: indices' =>
      '(bitmap, decoded) ← decode_entry b k decoded;
      union_entries b indices' decoded (or_with union bitmap)
  end.

(** The inner [None]: an id that has no bitmap. *)
Definition union_bitmap (b : PackBitmap) (oids : list ObjectId) : option (option DenseBitmap) :=
  match mapM (λ o, oid_to_entry b !! o) oids with
  | None => Some None
  | Some indices => Some <$> union_entries b indices ∅ (new (pack_object_count b))
  end.

Definition collect_oid (b : PackBitmap) (bitmap_pos : N) (out : gset ObjectId) : gset ObjectId * bool :=
  match offset_pos_to_oid b !! N.to_nat bitmap_pos with
  | Some (Some oid) => ({[oid]} ∪ out, true)
  | _ => (out, false)
  end.

Definition have_reachable (b : PackBitmap) (haves : list ObjectId) : option (option (gset ObjectId)) :=
  match union_bitmap b haves with
  | None => None
  | Some None => Some None
  | Some (Some union) => Some (Some (for_each_set_bit (collect_oid b) union ∅))
  end.

Definition covers_exactly (b : PackBitmap) (want have : list ObjectId) : option (option bool) :=
  match want with
  | [] => Some (Some false)
  | _ =>
      match union_bitmap b want with
      | None => None
      | Some None => Some None
      | Some (Some covered) =>
          let n := pack_object_count b in
          match have with
          | [] => Some (Some (popcount_in_range n covered =? n))
          | _ =>
              match union_bitmap b have with
              | None => None
              | Some None => Some None
              | Some (Some have_bitmap) =>
                  Some (Some (popcount_in_range n (andnot_with covered have_bitmap) =? n))
              end
          end
      end
  end.

(** ** Pack reuse *)

(** [bitmap.build_oid_index(|pos| pack_idx.oid_at_index(pos)…)]. *)
Definition index_oids (pack_idx : PackIndex) (b : PackBitmap) : option PackBitmap :=
  if forallb (λ p, p <? num_objects pack_idx) ((idx_pos <$> entries b) ++ offset_pos_to_idx_pos b)
  then Some (build_oid_index (λ pos, Some (oid_at_index pack_idx pos)) b)
  else None.

Definition pack_is_exactly_reusable (idx_path : bytes) (want have : list ObjectId) :
    option (result error bool) :=
  match index_at idx_path with
  | Err _ => Some (Ok false)
  | Ok pack_idx =>
      match load idx_path (num_objects pack_idx) with
      | Err e => Some (Err e)
      | Ok None => Some (Ok false)
      | Ok (Some b) =>
          b ← index_oids pack_idx b;
          covers ← covers_exactly b want have;
          Some (Ok (default false covers))
      end
  end.

Fixpoint first_reusable (paths : list bytes) (want have : list ObjectId) :
    option (result error (option bytes)) :=
  match paths with
  | [] => Some (Ok None)
  | idx_path :: paths' =>
      if decide (extension idx_path ≠ Some (b! "idx")) then first_reusable paths' want have
      else
        reusable ← pack_is_exactly_reusable idx_path want have;
        match reusable with
        | Err e => Some (Err e)
        | Ok true => Some (Ok (Some (with_extension idx_path (b! "pack"))))
        | Ok false => first_reusable paths' want have
        end
  end.

Definition find_reusable_pack (pack_dir : bytes) (want have : list ObjectId) :
    option (result error (option bytes)) :=
  match want with
  | [] => Some (Ok None)
  | _ =>
      match fs_read_dir pack_dir with
      | DirNotFound => Some (Ok None)
      | DirError e => Some (Err (Context (b! "reading pack directory") e))
      | DirEntries paths => first_reusable paths want have
      end
  end.
End bitmap.

(** ** What the bitmaps mean

    [closure o] is what is reachable from [o].  A bitmap describes its pack when the [.rev]
    file lists every position of the index, and each entry's bits, XORed with those of its
    base, are the objects reachable from its commit, all of which are in the pack. *)

(** The positions below [n]. *)
Definition positions (n : N) : list N := N.of_nat <$> seq 0 (N.to_nat n).

Lemma elem_of_positions n p : p ∈ positions n ↔ p < n.
Proof.
  unfold positions. rewrite list_elem_of_fmap. setoid_rewrite elem_of_seq. split.
  - intros (k & -> & Hk). lia.
  - intros Hp. exists (N.to_nat p). split; lia.
Qed.

Section bitmap_facts.
Context `{GixHash} {gix_bitmap : GixBitmap}.
Variable closure : ObjectId → gset ObjectId.
Variable pack_idx : PackIndex.
Implicit Types (b : PackBitmap) (cache : gmap nat DenseBitmap).

Definition pack_objects : gset ObjectId :=
  list_to_set (oid_at_index pack_idx <$> positions (num_objects pack_idx)).

Definition closures (oids : list ObjectId) : gset ObjectId := ⋃ (closure <$> oids).

Definition entry_commit (e : Entry) : ObjectId := oid_at_index pack_idx (idx_pos e).

(** Whether the object at index position [p] is reachable from the commit of entry [k]. *)
Definition in_closure b (k : nat) (p : N) : bool :=
  match entries b !! k with
  | Some e => bool_decide (oid_at_index pack_idx p ∈ closure (entry_commit e))
  | None => false
  end.

Definition own_bit (e : Entry) (i : nat) : bool := bool_decide (N.of_nat i ∈ ewah_bits (entry_ewah e)).

Definition base_bit b (k : nat) (e : Entry) (p : N) : bool :=
  if xor_offset e =? 0 then false else in_closure b (k - N.to_nat (xor_offset e)) p.

Record describes b : Prop := {
  describes_count : pack_object_count b = num_objects pack_idx;
  describes_rev : offset_pos_to_idx_pos b ≡ₚ positions (num_objects pack_idx);
  describes_entry k e : entries b !! k = Some e →
    idx_pos e < num_objects pack_idx ∧ (N.to_nat (xor_offset e) ≤ k)%nat ∧
    closure (entry_commit e) ⊆ pack_objects ∧
    ∀ i p, offset_pos_to_idx_pos b !! i = Some p → xorb (own_bit e i) (base_bit b k e p) = in_closure b k p }.

(** The commits that have a bitmap. *)
Definition indexed_commits b : gset ObjectId := list_to_set (entry_commit <$> entries b).

Definition indexed b : PackBitmap := build_oid_index (λ pos, Some (oid_at_index pack_idx pos)) b.

(** A dense bitmap that holds the objects of [s]. *)
Definition holds b (bm : DenseBitmap) (s : N → bool) : Prop :=
  dense bm ∧ pack_object_count b ≤ num_bits bm ∧
  ∀ i p, offset_pos_to_idx_pos b !! i = Some p → bit bm (N.of_nat i) = s p.

Lemma from_ewah_spec (e : ewah) n :
  dense (from_ewah e n) ∧ n ≤ num_bits (from_ewah e n) ∧
  ∀ i, i < n → bit (from_ewah e n) i = bool_decide (i ∈ ewah_bits e).
Proof.
  unfold from_ewah. set (m := N.max (ewah_num_bits e) n).
  assert (∀ l bm, dense bm → num_bits bm = m →
            dense (foldl set_bit bm l) ∧ num_bits (foldl set_bit bm l) = m ∧
            ∀ i, i < n → bit (foldl set_bit bm l) i = bit bm i || bool_decide (i ∈ l)) as Hf.
  { intros l; induction l as [|k l IH]; intros bm Hd Hm; cbn.
    - split_and!; [done..|]. intros i _. rewrite bool_decide_eq_false_2 by set_solver. by rewrite orb_false_r.
    - destruct (set_bit_spec bm k Hd) as (Hd' & Hn & Hb).
      destruct (IH (set_bit bm k) Hd' ltac:(congruence)) as (? & ? & Hl). split_and!; [done..|]. intros i Hi.
      rewrite (Hl i Hi), Hb. destruct (N.eqb_spec i k) as [<-|Hk]; cbn [andb].
      + rewrite (dense_length bm Hd), Hm. replace (i / 64 <? div_ceil_64 m) with true.
        2:{ symmetry. apply N.ltb_lt. unfold div_ceil_64. pose proof (N.div_mod i 64 ltac:(lia)).
            apply N.div_lt_upper_bound; [lia|]. pose proof (N.div_mod (m + 63) 64 ltac:(lia)).
            pose proof (N.mod_lt (m + 63) 64 ltac:(lia)). lia. }
        rewrite (bool_decide_eq_true_2 (i ∈ i :: l)) by set_solver. by rewrite orb_true_r, orb_true_l.
      + rewrite orb_false_r. f_equal. apply bool_decide_ext. rewrite elem_of_cons. naive_solver. }
  destruct (Hf (ewah_bits e) (new m) (dense_new m) eq_refl) as (Hd & Hn & Hb). split_and!; [done|lia|].
  intros i Hi. by rewrite Hb, bit_new.
Qed.

Lemma rev_lt b i p :
  describes b → offset_pos_to_idx_pos b !! i = Some p →
  N.of_nat i < pack_object_count b ∧ p < num_objects pack_idx.
Proof.
  intros Hb Hi. rewrite (describes_count b Hb). split.
  - apply lookup_lt_Some in Hi. rewrite (describes_rev b Hb) in Hi. unfold positions in Hi. rewrite length_fmap, length_seq in Hi. lia.
  - apply list_elem_of_lookup_2 in Hi. rewrite (describes_rev b Hb), elem_of_positions in Hi. done.
Qed.

Definition cache_ok b cache : Prop := map_Forall (λ k bm, holds b bm (in_closure b k)) cache.

Lemma decode_rec_spec b fuel k cache :
  describes b → is_Some (entries b !! k) → (k < fuel)%nat → cache_ok b cache →
  ∃ bm cache', decode_rec fuel b k cache = Some (bm, cache') ∧ holds b bm (in_closure b k) ∧ cache_ok b cache'.
Proof.
  intros Hb. revert k cache. induction fuel as [|fuel IH]; intros k cache [e He] Hk Hc; [lia|].
  cbn [decode_rec]. destruct (cache !! k) as [bm|] eqn:Ec.
  { exists bm, cache. split_and!; [done|exact (Hc _ _ Ec)|done]. }
  rewrite He. cbn [mbind option_bind].
  destruct (describes_entry b Hb k e He) as (_ & Hx & _ & Hbits).
  destruct (from_ewah_spec (entry_ewah e) (pack_object_count b)) as (Hd & Hn & Hown).
  assert (∀ bm cache', holds b bm (in_closure b k) → cache_ok b cache' → cache_ok b (<[k := bm]> cache')) as Hins.
  { intros bm cache' Hbm Hc'. by apply map_Forall_insert_2. }
  unfold base_bit in Hbits. destruct (N.eqb_spec (xor_offset e) 0) as [E0|E0].
  - assert (holds b (from_ewah (entry_ewah e) (pack_object_count b)) (in_closure b k)) as Hbm.
    { unfold holds; split_and!; [done|lia|]. intros i p Hi. destruct (rev_lt b i p Hb Hi) as [? _].
      rewrite Hown, <- (Hbits i p Hi), xorb_false_r by done. done. }
    cbn [mbind option_bind]. eauto 10.
  - rewrite decide_False by lia. cbn [mbind option_bind].
    destruct (IH (k - N.to_nat (xor_offset e))%nat cache) as (base & cache' & -> & (Hdb & Hnb & Hbase) & Hc'); [|lia|done|].
    { apply lookup_lt_is_Some. apply lookup_lt_Some in He. lia. }
    cbn [mbind option_bind].
    destruct (xor_with_spec _ _ Hd Hdb) as (Hdx & Hnx & Hxor).
    assert (holds b (xor_with (from_ewah (entry_ewah e) (pack_object_count b)) base) (in_closure b k)) as Hbm.
    { unfold holds; split_and!; [done|lia|]. intros i p Hi. destruct (rev_lt b i p Hb Hi) as [? _].
      rewrite Hxor, Hown, (Hbase i p Hi), <- (Hbits i p Hi) by done. done. }
    eauto 10.
Qed.

Lemma union_entries_spec b ks cache bm s :
  describes b → Forall (λ k, is_Some (entries b !! k)) ks → cache_ok b cache → holds b bm s →
  ∃ bm', union_entries b ks cache bm = Some bm' ∧ holds b bm' (λ p, s p || existsb (λ k, in_closure b k p) ks).
Proof.
  intros Hb Hks. revert cache bm s. induction Hks as [|k ks Hk Hks IH]; intros cache bm s Hc (Hd & Hn & Hs); cbn [union_entries].
  - exists bm. unfold holds; split_and!; [done..|]. intros i p Hi. cbn. by rewrite (Hs i p Hi), orb_false_r.
  - destruct (decode_rec_spec b (S k) k cache Hb Hk ltac:(lia) Hc) as (bk & cache' & E & (Hdk & _ & Hbk) & Hc').
    unfold decode_entry. rewrite E. cbn [mbind option_bind].
    destruct (or_with_spec bm bk Hd Hdk) as (Hdo & Hno & Hor).
    destruct (IH cache' (or_with bm bk) (λ p, s p || in_closure b k p)) as (bm' & -> & Hd' & Hn' & Hs'); [done|..].
    { unfold holds; split_and!; [done|lia|]. intros i p Hi. by rewrite Hor, (Hs i p Hi), (Hbk i p Hi). }
    exists bm'. unfold holds; split_and!; [done..|]. intros i p Hi. rewrite (Hs' i p Hi). cbn. by rewrite orb_assoc.
Qed.

(** The table from commits to entries: a commit is there exactly when it has an entry, and
    the entry is one of its own. *)
Lemma foldl_index_entry (es : list Entry) o :
  match foldl (index_entry (λ pos, Some (oid_at_index pack_idx pos))) ∅ (imap pair es) !! o with
  | Some k => ∃ e, es !! k = Some e ∧ entry_commit e = o
  | None => o ∉ entry_commit <$> es
  end.
Proof.
  induction es as [|e es IH] using rev_ind; [apply not_elem_of_nil|].
  rewrite imap_app, foldl_app. cbn [imap foldl]. unfold index_entry at 1. cbn [fst snd].
  rewrite Nat.add_0_r, fmap_app. destruct (decide (entry_commit e = o)) as [<-|Hne].
  - unfold entry_commit. rewrite lookup_insert_eq. exists e. split; [|done]. by rewrite list_lookup_middle.
  - rewrite lookup_insert_ne by done.
    destruct (foldl _ ∅ _ !! o) as [k|].
    + destruct IH as (e' & He' & <-). exists e'. split; [|done]. by apply lookup_app_l_Some.
    + rewrite elem_of_app. cbn. rewrite list_elem_of_singleton. naive_solver.
Qed.

(** The bitmaps of a pack, as [load] gives them. *)
Definition fresh b : Prop := oid_to_entry b = ∅.

Lemma describes_indexed b : describes b → describes (indexed b).
Proof. intros [? ? ?]. by constructor. Qed.

Lemma entries_of_commits b oids :
  fresh b →
  match mapM (λ o, oid_to_entry (indexed b) !! o) oids with
  | Some ks => Forall (.∈ indexed_commits b) oids ∧ Forall (λ k, is_Some (entries b !! k)) ks ∧
               ∀ p, existsb (λ k, in_closure b k p) ks = bool_decide (oid_at_index pack_idx p ∈ closures oids)
  | None => ¬ Forall (.∈ indexed_commits b) oids
  end.
Proof.
  intros Hf. induction oids as [|o oids IH]; cbn [mapM].
  { cbn. split_and!; [constructor..|]. intros p. symmetry. apply bool_decide_eq_false_2. set_solver. }
  pose proof (foldl_index_entry (entries b) o) as Ho. unfold indexed, build_oid_index in *. cbn [oid_to_entry] in *.
  rewrite Hf in *. unfold indexed_commits in *.
  destruct (foldl _ ∅ _ !! o) as [k|]; cbn [mbind option_bind].
  2:{ rewrite Forall_cons. set_solver. }
  destruct (mapM _ oids) as [ks|]; cbn [mbind option_bind mret option_ret].
  2:{ rewrite Forall_cons. naive_solver. }
  destruct IH as (Hin & Hks & Hbits), Ho as (e & He & <-). split_and!.
  - constructor; [|done]. rewrite elem_of_list_to_set. apply list_elem_of_fmap. exists e.
    split; [done|]. by eapply list_elem_of_lookup_2.
  - constructor; [by eexists|done].
  - intros p. cbn [existsb]. rewrite Hbits. unfold in_closure at 1. rewrite He, <- bool_decide_or.
    apply bool_decide_ext. unfold closures. cbn. set_solver.
Qed.

Lemma union_bitmap_spec b oids :
  fresh b → describes b →
  if decide (Forall (.∈ indexed_commits b) oids)
  then ∃ bm, union_bitmap (indexed b) oids = Some (Some bm) ∧
             holds b bm (λ p, bool_decide (oid_at_index pack_idx p ∈ closures oids))
  else union_bitmap (indexed b) oids = Some None.
Proof.
  intros Hf Hb. pose proof (entries_of_commits b oids Hf) as Ho. unfold union_bitmap.
  destruct (mapM _ oids) as [ks|]; [|by rewrite decide_False].
  destruct Ho as (Hin & Hks & Hbits). rewrite decide_True by done.
  destruct (union_entries_spec (indexed b) ks ∅ (new (pack_object_count (indexed b))) (λ _, false)
              (describes_indexed b Hb)) as (bm & -> & Hd & Hn & Hbm); [done|apply map_Forall_empty| |].
  { unfold holds; split_and!; [apply dense_new|done|]. intros. apply bit_new. }
  exists bm. unfold holds; split_and!; [done..|]. intros i p Hi. rewrite (Hbm i p Hi). cbn. apply Hbits.
Qed.

(** ** Visiting the bits *)

Lemma visit_collect b ps out :
  StronglySorted N.lt ps →
  ∀ o, o ∈ visit (collect_oid (indexed b)) ps out ↔
       o ∈ out ∨ ∃ i p, i ∈ ps ∧ offset_pos_to_idx_pos b !! N.to_nat i = Some p ∧ oid_at_index pack_idx p = o.
Proof.
  intros Hs. revert out. induction Hs as [|i ps Hs IH Hall]; intros out o; cbn [visit].
  { set_solver. }
  unfold collect_oid at 1. unfold indexed at 1, build_oid_index at 1. cbn [offset_pos_to_oid].
  rewrite list_lookup_fmap. destruct (offset_pos_to_idx_pos b !! N.to_nat i) as [p|] eqn:E; cbn [fmap option_fmap option_map].
  - rewrite IH. setoid_rewrite elem_of_cons. set_solver.
  - split; [by left|]. intros [?|(j & q & Hj & Hq & <-)]; [done|]. exfalso.
    apply lookup_ge_None in E. apply lookup_lt_Some in Hq. apply elem_of_cons in Hj as [->|Hj]; [lia|].
    rewrite Forall_forall in Hall. specialize (Hall j Hj). lia.
Qed.

Lemma elem_of_pack_objects o : o ∈ pack_objects ↔ ∃ p, p < num_objects pack_idx ∧ oid_at_index pack_idx p = o.
Proof.
  unfold pack_objects. rewrite elem_of_list_to_set, list_elem_of_fmap. setoid_rewrite elem_of_positions. naive_solver.
Qed.

Lemma rev_hits b p : describes b → p < num_objects pack_idx → ∃ i, offset_pos_to_idx_pos b !! i = Some p.
Proof. intros Hb Hp. apply list_elem_of_lookup. rewrite (describes_rev b Hb). by apply elem_of_positions. Qed.

Lemma closures_in_pack b oids :
  describes b → Forall (.∈ indexed_commits b) oids → closures oids ⊆ pack_objects.
Proof.
  intros Hb Hall o Ho. unfold closures in Ho. apply elem_of_union_list in Ho as (s & Hs & Ho).
  apply list_elem_of_fmap in Hs as (c & -> & Hc). rewrite Forall_forall in Hall. specialize (Hall c Hc).
  unfold indexed_commits in Hall. rewrite elem_of_list_to_set, list_elem_of_fmap in Hall.
  destruct Hall as (e & -> & He). apply list_elem_of_lookup in He as [k He].
  destruct (describes_entry b Hb k e He) as (_ & _ & Hsub & _). by apply Hsub.
Qed.

(** From a bitmap that describes its pack the have set is the closure of the haves,
    when each of them has a bitmap, and is left to the walker otherwise. *)
Lemma have_reachable_spec b haves :
  fresh b → describes b →
  have_reachable (indexed b) haves =
    Some (if decide (Forall (.∈ indexed_commits b) haves) then Some (closures haves) else None).
Proof.
  intros Hf Hb. pose proof (union_bitmap_spec b haves Hf Hb) as Hu. unfold have_reachable.
  destruct (decide _) as [Hall|_]; [|by rewrite Hu]. destruct Hu as (bm & -> & Hd & Hn & Hbm). do 2 f_equal.
  apply set_eq. intros o. unfold for_each_set_bit. rewrite visit_collect by by apply set_bits_sorted.
  split.
  - intros [Ho|(i & p & Hi & Hp & <-)]; [set_solver|]. apply elem_of_set_bits in Hi as [_ Hi]; [|done].
    rewrite <- (N2Nat.id i), (Hbm _ _ Hp) in Hi. by apply bool_decide_eq_true in Hi.
  - intros Ho. right. pose proof (closures_in_pack b haves Hb Hall o Ho) as Hin.
    apply elem_of_pack_objects in Hin as (p & Hp & <-). destruct (rev_hits b p Hb Hp) as [i Hi].
    exists (N.of_nat i), p. rewrite Nat2N.id. split_and!; [|done..]. apply elem_of_set_bits; [done|].
    assert (bit bm (N.of_nat i) = true) as Hbit.
    { rewrite (Hbm i p Hi). by apply bool_decide_eq_true. }
    split; [|done]. destruct (rev_lt b i p Hb Hi). lia.
Qed.

(** ** Exact cover *)

Lemma full_bitmap b bm (s : gset ObjectId) :
  describes b → holds b bm (λ p, bool_decide (oid_at_index pack_idx p ∈ s)) → s ⊆ pack_objects →
  (popcount_in_range (pack_object_count b) bm =? pack_object_count b) = bool_decide (pack_objects = s).
Proof.
  intros Hb (Hd & _ & Hbm) Hsub. apply eq_iff_eq_true. rewrite N.eqb_eq, bool_decide_eq_true, popcount_in_range_spec by done.
  rewrite <- (N2Nat.id (pack_object_count b)) at 2. rewrite count_full, N2Nat.id. split.
  - intros Hall. apply set_eq. intros o. split; [|apply Hsub]. intros Ho.
    apply elem_of_pack_objects in Ho as (p & Hp & <-). destruct (rev_hits b p Hb Hp) as [i Hi].
    specialize (Hall (N.of_nat i) (proj1 (rev_lt b i p Hb Hi))). rewrite (Hbm i p Hi) in Hall.
    by apply bool_decide_eq_true in Hall.
  - intros <- i Hi. destruct (offset_pos_to_idx_pos b !! N.to_nat i) as [p|] eqn:E.
    + rewrite <- (N2Nat.id i), (Hbm _ p E). apply bool_decide_eq_true, elem_of_pack_objects.
      exists p. split; [|done]. by destruct (rev_lt b _ _ Hb E).
    + apply lookup_ge_None in E. rewrite (describes_rev b Hb) in E. unfold positions in E.
      rewrite length_fmap, length_seq, <- (describes_count b Hb) in E. lia.
Qed.

(** A pack is found reusable exactly when it is the closure of the wants without the closure of the haves. *)
Lemma covers_exactly_spec b want have :
  fresh b → describes b →
  covers_exactly (indexed b) want have =
    Some (if decide (want = []) then Some false
          else if decide (Forall (.∈ indexed_commits b) (want ++ have))
          then Some (bool_decide (pack_objects = closures want ∖ closures have)) else None).
Proof.
  intros Hf Hb. unfold covers_exactly. destruct want as [|w want]; [done|]. rewrite decide_False by done.
  pose proof (union_bitmap_spec b (w :: want) Hf Hb) as Hu. revert Hu. generalize (w :: want) as ws. intros ws Hu.
  destruct (decide (Forall _ ws)) as [Hw|Hw].
  2:{ rewrite Hu, decide_False; [done|]. rewrite Forall_app. tauto. }
  destruct Hu as (bw & -> & Hbw). pose proof (closures_in_pack b ws Hb Hw) as Hsub.
  destruct have as [|h have].
  { rewrite app_nil_r, decide_True by done. do 2 f_equal.
    replace (closures ws ∖ closures []) with (closures ws) by (unfold closures; cbn; set_solver).
    exact (full_bitmap b bw _ Hb Hbw Hsub). }
  pose proof (union_bitmap_spec b (h :: have) Hf Hb) as Hu. revert Hu. generalize (h :: have) as hs. intros hs Hu.
  destruct (decide (Forall _ hs)) as [Hh|Hh].
  2:{ rewrite Hu, decide_False; [done|]. rewrite Forall_app. tauto. }
  destruct Hu as (bh & -> & Hbh). rewrite decide_True by (apply Forall_app; done). do 2 f_equal.
  apply (full_bitmap b _ _ Hb); [|set_solver]. destruct Hbw as (Hdw & Hnw & Hbw), Hbh as (Hdh & _ & Hbh).
  destruct (andnot_with_spec bw bh Hdw Hdh) as (Hda & Hna & Ha). unfold holds; split_and!; [done|by rewrite Hna|].
  intros i p Hi. rewrite Ha, (Hbw i p Hi), (Hbh i p Hi), <- bool_decide_not, <- bool_decide_and.
  apply bool_decide_ext. set_solver.
Qed.

(** A bitmap that describes its pack does not make the index panic. *)
Lemma index_oids_total b : describes b → index_oids pack_idx b = Some (indexed b).
Proof.
  intros Hb. unfold index_oids. replace (forallb _ _) with true; [done|]. symmetry. apply forallb_forall.
  intros p Hp. apply N.ltb_lt. apply list_elem_of_In, elem_of_app in Hp as [Hp|Hp].
  - apply list_elem_of_fmap in Hp as (e & -> & He). apply list_elem_of_lookup in He as [k He].
    apply (describes_entry b Hb k e He).
  - apply list_elem_of_lookup in Hp as [i Hi]. apply (rev_lt b i p Hb Hi).
Qed.
End bitmap_facts.

(** ** Reuse *)

Section reuse.
Context `{GixHash} {gix_bitmap : GixBitmap} {files : PackFiles}.
Variable closure : ObjectId → gset ObjectId.

(** Every pack with an index and bitmaps that [load] accepts has bitmaps that describe it. *)
Definition sidecars_describe (paths : list bytes) : Prop :=
  ∀ path pack_idx b, path ∈ paths → index_at path = Ok pack_idx →
    load path (num_objects pack_idx) = Ok (Some b) → describes closure pack_idx b.

Lemma load_fresh path n b : load path n = Ok (Some b) → fresh b.
Proof.
  unfold load. destruct (_ || _); [done|].
  intros (bb & _ & (rb & _ & (rev & _ & (parsed & _ & E)%result_bind_Ok)%result_bind_Ok)%result_bind_Ok)%result_bind_Ok.
  destruct parsed as [[es fl]|]; [|done]. by injection E as <-.
Qed.

(** The pack can be known to answer the request: it has loaded bitmaps, these index every
    want and have, and it holds exactly what is reachable from the wants and from no have. *)
Definition reusable (want have : list ObjectId) (path : bytes) : Prop :=
  extension path = Some (b! "idx") ∧
  ∃ pack_idx b, index_at path = Ok pack_idx ∧ load path (num_objects pack_idx) = Ok (Some b) ∧
    Forall (.∈ indexed_commits pack_idx b) (want ++ have) ∧
    pack_objects pack_idx = closures closure want ∖ closures closure have.

(** The pack has an index, and sidecar files that cannot be read. *)
Definition unreadable (path : bytes) : Prop :=
  extension path = Some (b! "idx") ∧
  ∃ pack_idx e, index_at path = Ok pack_idx ∧ load path (num_objects pack_idx) = Err e.

Lemma pack_is_exactly_reusable_spec paths path want have :
  want ≠ [] → sidecars_describe paths → path ∈ paths → extension path = Some (b! "idx") →
  match pack_is_exactly_reusable path want have with
  | None => False
  | Some (Ok r) => r = true ↔ reusable want have path
  | Some (Err _) => unreadable path
  end.
Proof.
  intros Hw Hd Hp Hext. unfold pack_is_exactly_reusable, reusable, unreadable.
  destruct (index_at path) as [pack_idx|e] eqn:Ei; [|naive_solver].
  destruct (load path (num_objects pack_idx)) as [[b|]|e] eqn:El.
  2:{ split; [done|]. intros (_ & i & b & Ei' & El' & _). simplify_eq. congruence. }
  2:{ eauto. }
  pose proof (Hd _ _ _ Hp Ei El) as Hb. pose proof (load_fresh _ _ _ El) as Hf.
  rewrite (index_oids_total closure _ _ Hb). cbn [mbind option_bind].
  rewrite (covers_exactly_spec closure _ _ want have Hf Hb), decide_False by done. cbn [mbind option_bind].
  destruct (decide (Forall _ _)) as [Hall|Hall]; cbn; unfold id; [rewrite bool_decide_eq_true|]; split.
  - eauto 10.
  - intros (_ & i & b' & Ei' & El' & _ & Hs). by simplify_eq.
  - done.
  - intros (_ & i & b' & Ei' & El' & Hall' & Hs). simplify_eq. rewrite El in El'. by simplify_eq.
Qed.

Lemma first_reusable_spec paths want have :
  want ≠ [] → sidecars_describe paths →
  match first_reusable paths want have with
  | None => False
  | Some (Ok (Some pack)) =>
      ∃ path, path ∈ paths ∧ reusable want have path ∧ pack = with_extension path (b! "pack")
  | Some (Ok None) => ∀ path, path ∈ paths → ¬ reusable want have path
  | Some (Err _) => ∃ path, path ∈ paths ∧ unreadable path
  end.
Proof.
  intros Hw. induction paths as [|p l IH]; intros Hd; cbn [first_reusable]; [set_solver|].
  assert (sidecars_describe l) as Hl by (intros q i b Hq; apply Hd; by right). specialize (IH Hl).
  destruct (decide _) as [Hx|Hx].
  { destruct (first_reusable l _ _) as [[[]|]|]; unfold reusable in *; set_solver. }
  apply dec_stable in Hx. pose proof (pack_is_exactly_reusable_spec (p :: l) p want have Hw Hd ltac:(set_solver) Hx) as Hp.
  destruct (pack_is_exactly_reusable p _ have) as [[[]|]|]; cbn [mbind option_bind] in *; [set_solver| |set_solver|done].
  destruct (first_reusable l _ _) as [[[]|]|]; set_solver.
Qed.

(** (C17) The search for a reusable pack, over a directory whose sidecar files describe their
    packs: what it returns is the [.pack] beside an index that has loaded bitmaps for every
    want and have and whose pack is exactly the closure of the wants without that of the
    haves; it returns nothing only when the directory has no such pack with such bitmaps, a
    pack without bitmaps being passed over even if it is exact; it fails only on a file that
    cannot be read or parsed, and does not panic, which needs the hypothesis
    ([corrupt_bitmap_panics]). *)
Theorem find_reusable_pack_correct pack_dir paths want have :
  want ≠ [] → fs_read_dir pack_dir = DirEntries paths → sidecars_describe paths →
  match find_reusable_pack pack_dir want have with
  | None => False
  | Some (Ok (Some pack)) =>
      ∃ path, path ∈ paths ∧ reusable want have path ∧ pack = with_extension path (b! "pack")
  | Some (Ok None) => ∀ path, path ∈ paths → ¬ reusable want have path
  | Some (Err _) => ∃ path, path ∈ paths ∧ unreadable path
  end.
Proof.
  intros Hw Hdir Hd. unfold find_reusable_pack. destruct want; [done|]. rewrite Hdir. by apply first_reusable_spec.
Qed.
End reuse.

(** ** The sidecar formats *)

Section sidecars.
Context `{GixHash} {gix_bitmap : GixBitmap} {files : PackFiles}.
Variable ewah_encode : ewah → bytes.
Hypothesis ewah_decode_encode : ∀ e rest, ewah_decode (ewah_encode e ++ rest) = Ok (e, rest).

(** The files as git writes them: header, body, and a trailer that holds checksums. *)
Definition encode_rev (rev : list N) (trailer : bytes) : bytes :=
  b! "RIDX" ++ to_be_bytes 4 1 ++ to_be_bytes 4 1 ++ concat (to_be_bytes 4 <$> rev) ++ trailer.

Definition encode_entry (e : Entry) : bytes :=
  to_be_bytes 4 (idx_pos e) ++ to_be_bytes 1 (xor_offset e) ++ [x00] ++ ewah_encode (entry_ewah e).

Definition encode_bitmap (flags : N) (pack_hash : bytes) (types : list ewah) (es : list Entry) (trailer : bytes) : bytes :=
  b! "BITM" ++ to_be_bytes 2 1 ++ to_be_bytes 2 flags ++ to_be_bytes 4 (len es) ++ pack_hash ++
  concat (ewah_encode <$> types) ++ concat (encode_entry <$> es) ++ trailer.

Lemma slice_app a s c i j : len a = i → len s = j - i → slice i j (a ++ s ++ c) = s.
Proof.
  unfold len. intros Ha Hs. unfold slice. rewrite drop_app_length' by lia. by rewrite take_app_length' by lia.
Qed.

Lemma slice_app_0 s c j : len s = j → slice 0 j (s ++ c) = s.
Proof. intros Hs. apply (slice_app [] s c 0 j); [done|lia]. Qed.

Lemma be_words_encode rev :
  Forall (λ w, w < 2 ^ 32) rev → be_words (length rev) (concat (to_be_bytes 4 <$> rev)) = rev.
Proof.
  induction 1 as [|w rev Hw Hrev IH]; [done|]. cbn [length be_words fmap list_fmap concat].
  rewrite take_app_length', drop_app_length', from_to_be_bytes by (done || apply length_to_be_bytes). by rewrite IH.
Qed.

Lemma length_concat_be (rev : list N) : length (concat (to_be_bytes 4 <$> rev)) = (4 * length rev)%nat.
Proof. induction rev as [|w rev IH]; [done|]. rewrite fmap_cons. cbn [concat length]. rewrite length_app, length_to_be_bytes, IH. lia. Qed.

Lemma parse_encode_rev rev trailer :
  Forall (λ w, w < 2 ^ 32) rev → 20 ≤ len trailer → parse_rev (encode_rev rev trailer) (len rev) = Ok rev.
Proof.
  intros Hrev Ht. unfold parse_rev, encode_rev.
  set (body := concat (to_be_bytes 4 <$> rev)).
  assert (len (b! "RIDX" ++ to_be_bytes 4 1 ++ to_be_bytes 4 1 ++ body ++ trailer) = 12 + len rev * 4 + len trailer) as ->.
  { unfold len, body. rewrite !length_app, length_concat_be. change (length (b! "RIDX")) with 4%nat.
    rewrite !length_to_be_bytes. lia. }
  unfold SHA1_LEN. rewrite (proj2 (N.ltb_ge _ _)) by lia.
  rewrite decide_False by (intros Hn; by apply Hn). cbn zeta.
  change (from_be_bytes (slice 4 8 _)) with 1. change (from_be_bytes (slice 8 12 _)) with 1. cbn [N.eqb Pos.eqb negb].
  rewrite (proj2 (N.ltb_ge _ _)) by lia. f_equal.
  rewrite (app_assoc (to_be_bytes 4 1) (to_be_bytes 4 1)), (app_assoc (b! "RIDX")), slice_app.
  - unfold len. rewrite Nat2N.id. by apply be_words_encode.
  - done.
  - unfold len, body. rewrite length_concat_be. lia.
Qed.

Lemma skip_encode_types (types : list ewah) rest :
  skip_type_bitmaps (length types) (concat (ewah_encode <$> types) ++ rest) = Ok rest.
Proof.
  induction types as [|t types IH]; [done|]. rewrite fmap_cons. cbn [concat length skip_type_bitmaps].
  by rewrite <- app_assoc, ewah_decode_encode.
Qed.

Definition entry_fits (e : Entry) : Prop := idx_pos e < 2 ^ 32 ∧ xor_offset e < 2 ^ 8.

Lemma parse_encode_entries es rest :
  Forall entry_fits es → parse_entries (length es) (concat (encode_entry <$> es) ++ rest) = Ok es.
Proof.
  induction 1 as [|e es [Hi Hx] Hes IH]; [done|]. rewrite fmap_cons. cbn [concat length parse_entries].
  set (tail := concat (encode_entry <$> es) ++ rest) in *.
  assert ((encode_entry e ++ concat (encode_entry <$> es)) ++ rest
          = to_be_bytes 4 (idx_pos e) ++ to_be_bytes 1 (xor_offset e) ++ [x00] ++ ewah_encode (entry_ewah e) ++ tail) as ->.
  { unfold encode_entry, tail. by rewrite <- !app_assoc. }
  rewrite (proj2 (N.ltb_ge _ _)).
  2:{ unfold len. rewrite !length_app, !length_to_be_bytes. cbn [length]. lia. }
  rewrite (slice_app _ (to_be_bytes 1 _) _ 4 5) by (unfold len; by rewrite length_to_be_bytes).
  rewrite slice_app_0 by (unfold len; by rewrite length_to_be_bytes).
  rewrite !from_to_be_bytes by done.
  assert (drop 6 (to_be_bytes 4 (idx_pos e) ++ to_be_bytes 1 (xor_offset e) ++ [x00] ++ ewah_encode (entry_ewah e) ++ tail)
          = ewah_encode (entry_ewah e) ++ tail) as ->.
  { rewrite !app_assoc, <- (app_assoc _ (ewah_encode _)), drop_app_length'; [done|].
    rewrite !length_app, !length_to_be_bytes. done. }
  rewrite ewah_decode_encode. cbn. rewrite IH. cbn. by destruct e.
Qed.

Lemma parse_encode_bitmap flags pack_hash types es trailer :
  flags < 2 ^ 16 → N.of_nat (length es) < 2 ^ 32 → length pack_hash = 20%nat → length types = 4%nat →
  20 ≤ len trailer → Forall entry_fits es →
  parse_bitmap (encode_bitmap flags pack_hash types es trailer) =
    Ok (if N.land flags FLAG_LOOKUP_TABLE =? 0 then Some (es, flags) else None).
Proof.
  intros Hf Hn Hh Ht Htr Hes. unfold parse_bitmap, encode_bitmap.
  set (tail := concat (ewah_encode <$> types) ++ concat (encode_entry <$> es) ++ trailer).
  rewrite (proj2 (N.ltb_ge _ _)).
  2:{ unfold BITMAP_HEADER_LEN, SHA1_LEN, tail, len in *. rewrite !length_app, !length_to_be_bytes, Hh.
      change (length (b! "BITM")) with 4%nat. lia. }
  rewrite decide_False by (intros Hm; by apply Hm). cbn zeta.
  change (from_be_bytes (slice 4 6 _)) with 1. cbn [N.eqb Pos.eqb negb].
  rewrite (app_assoc (b! "BITM")), (slice_app (_ ++ _) (to_be_bytes 2 flags) _ 6 8), from_to_be_bytes
    by (done || (unfold len; by rewrite length_to_be_bytes)).
  destruct (_ =? 0); cbn [negb]; [|done].
  rewrite (app_assoc (_ ++ _) (to_be_bytes 2 flags)), (slice_app (_ ++ to_be_bytes 2 flags) (to_be_bytes 4 _) _ 8 12), from_to_be_bytes
    by (done || (unfold len; by rewrite ?length_app, !length_to_be_bytes)).
  rewrite (app_assoc (_ ++ to_be_bytes 2 flags)), (app_assoc _ pack_hash), drop_app_length'.
  2:{ rewrite !length_app, !length_to_be_bytes, Hh. done. }
  unfold tail. rewrite <- Ht, skip_encode_types. cbn [mbind result_bind]. unfold len. rewrite Nat2N.id, parse_encode_entries by done.
  done.
Qed.

(** (C24) Loading the [.rev] and [.bitmap] files written for a pack gives back the reverse index
    and the entries, for every EWAH decoder that reads what its encoder wrote, and nothing
    when the flags announce a lookup table. *)
Theorem sidecars_roundtrip path rev rev_trailer flags pack_hash types es trailer :
  Forall (λ w, w < 2 ^ 32) rev → 20 ≤ len rev_trailer →
  flags < 2 ^ 16 → N.of_nat (length es) < 2 ^ 32 → length pack_hash = 20%nat → length types = 4%nat →
  20 ≤ len trailer → Forall entry_fits es →
  is_file (with_extension path (b! "bitmap")) = true → is_file (with_extension path (b! "rev")) = true →
  fs_read_file (with_extension path (b! "rev")) = Ok (encode_rev rev rev_trailer) →
  fs_read_file (with_extension path (b! "bitmap")) = Ok (encode_bitmap flags pack_hash types es trailer) →
  load path (len rev) =
    Ok (if N.land flags FLAG_LOOKUP_TABLE =? 0
        then Some {| offset_pos_to_idx_pos := rev; offset_pos_to_oid := replicate (length rev) None;
                     oid_to_entry := ∅; entries := es; pack_object_count := len rev |}
        else None).
Proof.
  intros Hrev Hrt Hf Hn Hh Ht Htr Hes Eb Er Rr Rb. unfold load. rewrite Eb, Er. cbn [negb orb]. rewrite Rb, Rr.
  unfold context. cbn [map_err mbind result_bind]. rewrite parse_encode_rev by done. cbn [mbind result_bind].
  rewrite parse_encode_bitmap by done. cbn. by destruct (_ =? 0).
Qed.
End sidecars.

(** ** Corrupt bitmaps *)

Section corrupt.
Context `{GixHash} {gix_bitmap : GixBitmap} {files : PackFiles}.

(** A bitmap file whose entry refers to a base before the first entry loads without an
    error, and a request for that entry's commit panics. *)
Theorem corrupt_bitmap_panics path pack_idx b o k e :
  index_at path = Ok pack_idx → load path (num_objects pack_idx) = Ok (Some b) →
  oid_to_entry (indexed pack_idx b) !! o = Some k → entries b !! k = Some e → N.of_nat k < xor_offset e →
  have_reachable (indexed pack_idx b) [o] = None ∧
  pack_is_exactly_reusable path [o] [] = None.
Proof.
  intros Hi Hl Ho He Hx.
  assert (union_bitmap (indexed pack_idx b) [o] = None) as Hu.
  { unfold union_bitmap. cbn [mapM]. rewrite Ho. cbn. change (entries (indexed pack_idx b)) with (entries b). rewrite He. cbn.
    destruct (N.eqb_spec (xor_offset e) 0) as [?|_]; [lia|]. by rewrite decide_True by lia. }
  unfold have_reachable, pack_is_exactly_reusable. rewrite Hi, Hl, Hu. split; [done|].
  unfold index_oids. destruct (forallb _ _); [|done]. cbn [mbind option_bind].
  change (build_oid_index _ b) with (indexed pack_idx b). unfold covers_exactly. by rewrite Hu.
Qed.

Lemma parse_bitmap_version s :
  BITMAP_HEADER_LEN + SHA1_LEN ≤ len s → slice 0 4 s = b! "BITM" → from_be_bytes (slice 4 6 s) ≠ 1 →
  parse_bitmap s = bail (b! ".bitmap version " ++ decimal (from_be_bytes (slice 4 6 s)) ++ b! " unsupported").
Proof.
  intros Hl Hm Hv. unfold parse_bitmap. rewrite (proj2 (N.ltb_ge _ _)) by done.
  rewrite decide_False by (intros Hn; by apply Hn). cbn zeta. by rewrite (proj2 (N.eqb_neq _ _)).
Qed.

(** A [.bitmap] file of another version makes the search for a reusable pack fail, so every
    plain fetch of the repository fails, where the documentation promises the walker. *)
Theorem unsupported_bitmap_fails pack_dir path paths pack_idx rev s rev_bytes w want have :
  fs_read_dir pack_dir = DirEntries (path :: paths) → extension path = Some (b! "idx") → index_at path = Ok pack_idx →
  is_file (with_extension path (b! "bitmap")) = true → is_file (with_extension path (b! "rev")) = true →
  fs_read_file (with_extension path (b! "rev")) = Ok rev_bytes → parse_rev rev_bytes (num_objects pack_idx) = Ok rev →
  fs_read_file (with_extension path (b! "bitmap")) = Ok s → BITMAP_HEADER_LEN + SHA1_LEN ≤ len s →
  slice 0 4 s = b! "BITM" → from_be_bytes (slice 4 6 s) ≠ 1 →
  find_reusable_pack pack_dir (w :: want) have =
    Some (bail (b! ".bitmap version " ++ decimal (from_be_bytes (slice 4 6 s)) ++ b! " unsupported")).
Proof.
  intros Hdir Hext Hi Eb Er Rr Hrev Rb Hl Hm Hv. unfold find_reusable_pack. rewrite Hdir. cbn [first_reusable].
  rewrite decide_False by (intros Hn; by apply Hn). unfold pack_is_exactly_reusable, load. rewrite Hi, Eb, Er, Rb, Rr.
  unfold context. cbn [negb orb map_err mbind result_bind]. rewrite Hrev. cbn [mbind result_bind].
  by rewrite parse_bitmap_version.
Qed.
End corrupt.
