(* ===== verification/PackWalk.v ===== *)
(** * The objects of a fetch ([pack.rs])

    The gitoxide backend selects the objects of a pack by walking commits and trees of the
    object database: everything reachable from the wants and not from the haves, up to a
    depth, and without the objects a partial clone leaves out.  The database, the commit
    traversal and the breadth-first tree traversal are gitoxide's; the visitors they call,
    the depth-limited walk and the selection are the source's. *)

From stdpp Require Import base gmap list sorting strings relations.
From Stdlib Require Import Strings.Byte NArith Lia.
From S2P Require Import Prelude Bytes Gix Proto Types Graph Inspect.
Open Scope N_scope.

(** [gix::objs::tree::EntryRef]: whether the mode is that of a tree, and the id. *)
Record EntryRef `{GixHash} := { entry_is_tree : bool; entry_oid : ObjectId }.

(** [gix::traverse::tree::Visit]: the new state of the visitor, and the flag of
    [ControlFlow::Continue]. *)
Record Visit `{GixHash} (S : Type) := {
  visit_tree : EntryRef → S → S * bool;
  visit_nontree : EntryRef → S → S * bool }.
Arguments visit_tree {_ _}.
Arguments visit_nontree {_ _}.

Class GixOdb `{GixHash} := {
  (** [Find::try_find]. *)
  try_find : ObjectId → result error (option (Kind * bytes));
  (** [CommitRefIter::tree_id] and [parent_ids], [TreeRefIter]. *)
  commit_tree_id : bytes → result error ObjectId;
  commit_parent_ids : bytes → list ObjectId;
  tree_iter : bytes → result error (list EntryRef);
  (** What [traverse::commit::Simple::new(tips)] yields, and [.hide(hidden)] on it. *)
  simple_new : list ObjectId → list (result error ObjectId);
  simple_hide : list ObjectId → list ObjectId → result error (list (result error ObjectId));
  (** [traverse::tree::breadthfirst], from the data of the root. *)
  breadthfirst : ∀ {S : Type}, Visit S → bytes → S → result error S }.

(** ** Code *)

Section pack_walk.
Context `{GixHash} {odb : GixOdb}.

Record PackObjects := {
  objects : list ObjectId; have_set : gset ObjectId; shallow : list ObjectId }.

Definition HaveVisitor : Visit (gset ObjectId) := {|
  visit_tree e have_set :=
    if decide (entry_oid e ∈ have_set) then (have_set, false) else ({[entry_oid e]} ∪ have_set, true);
  visit_nontree e have_set := ({[entry_oid e]} ∪ have_set, true) |}.

Definition WantVisitor (have_set : gset ObjectId) (skip_blobs : bool) : Visit (gset ObjectId) := {|
  visit_tree e result :=
    if decide (entry_oid e ∈ have_set) then (result, false)
    else if decide (entry_oid e ∈ result) then (result, false)
    else ({[entry_oid e]} ∪ result, true);
  visit_nontree e result :=
    if skip_blobs then (result, false)
    else (if decide (entry_oid e ∈ have_set) then result else {[entry_oid e]} ∪ result, true) |}.

(** The root tree of a commit.  [side] is [have ] in the messages of the have walk. *)
Definition commit_tree (side : bytes) (commit_id : ObjectId) : result error ObjectId :=
  obj ← map_err (Fmt (b! "find " ++ side ++ b! "commit " ++ oid_to_hex commit_id ++ b! ": ")) (try_find commit_id);
  x ← ok_or (Msg (side ++ b! "commit " ++ oid_to_hex commit_id ++ b! " not found")) obj;
  map_err (Fmt (b! "read tree id from " ++ side ++ b! "commit: ")) (commit_tree_id x.2).

Definition walk_tree (side : bytes) (visitor : Visit (gset ObjectId)) (tree_id : ObjectId) (s : gset ObjectId) :
    result error (gset ObjectId) :=
  obj ← map_err (Fmt (b! "find " ++ side ++ b! "tree " ++ oid_to_hex tree_id ++ b! ": ")) (try_find tree_id);
  x ← ok_or (Msg (side ++ b! "tree " ++ oid_to_hex tree_id ++ b! " not found")) obj;
  map_err (Fmt (side ++ b! "tree walk: ")) (breadthfirst visitor x.2 s).

(** [.collect::<Result<_, _>>()]. *)
Definition collect_ids (what : bytes) (rs : list (result error ObjectId)) : result error (list ObjectId) :=
  map_err (Fmt what) (mapM (λ r, r) rs).

Fixpoint add_have_commits (commits : list ObjectId) (have_set : gset ObjectId) : result error (gset ObjectId) :=
  match commits with
  | [] => Ok have_set
  | commit_id :: commits' =>
      let have_set := {[commit_id]} ∪ have_set in
      tree_id ← commit_tree (b! "have ") commit_id;
      if decide (tree_id ∈ have_set) then add_have_commits commits' have_set
      else
        have_set ← walk_tree (b! "have ") HaveVisitor tree_id ({[tree_id]} ∪ have_set);
        add_have_commits commits' have_set
  end.

Definition build_have_set (have : list ObjectId) : result error (gset ObjectId) :=
  have_commits ← collect_ids (b! "have commit traversal: ") (simple_new have);
  add_have_commits have_commits ∅.

(** The loop of [depth_limited_commits]; [None] when the fuel runs out. *)
Fixpoint depth_loop (fuel : nat) (depth : N) (have_set : gset ObjectId) (visited : gset ObjectId)
    (queue : list (ObjectId * N)) (result shallow_out : list ObjectId) :
    option (Prelude.result error (list ObjectId * list ObjectId)) :=
  match fuel with
  | O => None
  | S fuel =>
      match queue with
      | [] => Some (Ok (result, shallow_out))
      | (commit_id, current_depth) :: queue' =>
          if decide (commit_id ∈ have_set)
          then depth_loop fuel depth have_set visited queue' result shallow_out
          else
            let result := result ++ [commit_id] in
            match try_find commit_id with
            | Err e => Some (Err (Fmt (b! "find commit " ++ oid_to_hex commit_id ++ b! ": ") e))
            | Ok None => Some (bail (b! "commit " ++ oid_to_hex commit_id ++ b! " not found"))
            | Ok (Some (_, data)) =>
                let parents := commit_parent_ids data in
                if depth <=? current_depth
                then depth_loop fuel depth have_set visited queue' result
                       (match parents with [] => shallow_out | _ => shallow_out ++ [commit_id] end)
                else
                  let '(visited, new) := enqueue ∅ parents visited [] in
                  depth_loop fuel depth have_set visited
                    (queue' ++ ((λ p, (p, current_depth + 1)) <$> new)) result shallow_out
            end
      end
  end.

Definition depth_limited_commits (fuel : nat) (want have : list ObjectId) (depth : N) :
    option (result error (list ObjectId * list ObjectId)) :=
  let '(visited, tips) := enqueue ∅ want ∅ [] in
  depth_loop fuel depth (list_to_set have) visited ((λ p, (p, 1)) <$> tips) [] [].

(** Wants by type: commits and ids that cannot be read; the others. *)
Definition is_direct (id : ObjectId) : bool :=
  match try_find id with Ok (Some (GCommit, _)) => false | Ok (Some _) => true | _ => false end.

Definition commit_wants (want : list ObjectId) : list ObjectId := base.filter (λ id, is_direct id = false) want.
Definition direct_objects (want : list ObjectId) : gset ObjectId := list_to_set (base.filter (λ id, is_direct id = true) want).

Definition want_commits (fuel : nat) (want have : list ObjectId) (deepen : option N) :
    option (result error (list ObjectId * list ObjectId)) :=
  match deepen with
  | Some depth => depth_limited_commits fuel (commit_wants want) have depth
  | None =>
      Some (match commit_wants want with
            | [] => Ok ([], [])
            | tips =>
                walk ← simple_hide tips have;
                commits ← collect_ids (b! "commit traversal: ") walk;
                Ok (commits, [])
            end)
  end.

Fixpoint add_want_commits (have_set : gset ObjectId) (skip_blobs : bool) (commits : list ObjectId)
    (objects : gset ObjectId) : result error (gset ObjectId) :=
  match commits with
  | [] => Ok objects
  | commit_id :: commits' =>
      let objects := {[commit_id]} ∪ objects in
      tree_id ← commit_tree [] commit_id;
      if decide (tree_id ∈ objects ∨ tree_id ∈ have_set) then add_want_commits have_set skip_blobs commits' objects
      else
        objects ← walk_tree [] (WantVisitor have_set skip_blobs) tree_id ({[tree_id]} ∪ objects);
        add_want_commits have_set skip_blobs commits' objects
  end.

Definition objects_for_fetch_with_have_set (fuel : nat) (want have : list ObjectId) (deepen : option N)
    (filter : option Filter) (have_set : gset ObjectId) : option (result error PackObjects) :=
  match want_commits fuel want have deepen with
  | None => None
  | Some r => Some (
      '(commits, shallow) ← r;
      if decide (filter = Some TreeNone)
      then Ok {| objects := commits ++ elements (direct_objects want); have_set := have_set; shallow := shallow |}
      else
        let skip_blobs := bool_decide (filter = Some BlobNone) in
        objects ← add_want_commits have_set skip_blobs commits (direct_objects want);
        Ok {| objects := elements objects; have_set := have_set; shallow := shallow |})
  end.

Definition objects_for_fetch_filtered (fuel : nat) (want have : list ObjectId) (deepen : option N)
    (filter : option Filter) : option (result error PackObjects) :=
  match build_have_set have with
  | Err e => Some (Err e)
  | Ok have_set => objects_for_fetch_with_have_set fuel want have deepen filter have_set
  end.
End pack_walk.

(** ** What the object database holds *)

Section odb_graph.
Context `{GixHash} {odb : GixOdb}.

Definition odb_parents (o : ObjectId) : list ObjectId :=
  match try_find o with Ok (Some (_, data)) => commit_parent_ids data | _ => [] end.

(** The entries of a stored tree. *)
Definition tree_entries (o : ObjectId) : list EntryRef :=
  match try_find o with
  | Ok (Some (GTree, data)) => match tree_iter data with Ok es => es | Err _ => [] end
  | _ => []
  end.

(** The children that a walk with or without blobs meets. *)
Definition sent_kids (skip_blobs : bool) (o : ObjectId) : list ObjectId :=
  entry_oid <$> base.filter (λ e, entry_is_tree e || negb skip_blobs = true) (tree_entries o).

Definition tree_of (c t : ObjectId) : Prop :=
  ∃ k data, try_find c = Ok (Some (k, data)) ∧ commit_tree_id data = Ok t.

(** The objects of a commit: itself and what is below its tree. *)
Definition below_commit (skip_blobs : bool) (c o : ObjectId) : Prop :=
  ∃ t, tree_of c t ∧ reaches (sent_kids skip_blobs) t o.

(** Kinds are consistent: a commit's tree is a tree, and entries with the mode of a blob or
    a submodule do not name trees. *)
Record well_kinded : Prop := {
  kinds_of_commit c t k data : tree_of c t → try_find c = Ok (Some (k, data)) → k = GCommit;
  kinds_of_tree c t k data : tree_of c t → try_find t = Ok (Some (k, data)) → k = GTree;
  kinds_of_entry o e : e ∈ tree_entries o → entry_is_tree e = false → tree_entries (entry_oid e) = [] }.

(** One entry of a tree, shown to the visitor: the new state, and the trees to descend to. *)
Definition show {S} (V : Visit S) (x : S * list ObjectId) (e : EntryRef) : S * list ObjectId :=
  let '(s, pending) := x in
  if entry_is_tree e
  then let '(s', descend) := visit_tree V e s in (s', if descend then pending ++ [entry_oid e] else pending)
  else ((visit_nontree V e s).1, pending).

(** A traversal takes pending trees in some order and shows their entries to the visitor,
    until none is pending. *)
Inductive traversal {S} (V : Visit S) : list ObjectId → S → S → Prop :=
| traversal_done s : traversal V [] s s
| traversal_tree t pend pend' data es s s1 new s2 :
    try_find t = Ok (Some (GTree, data)) → tree_iter data = Ok es →
    foldl (show V) (s, []) es = (s1, new) →
    traversal V (pend ++ pend' ++ new) s1 s2 →
    traversal V (pend ++ t :: pend') s s2.

(** A tree that can be read, with all the trees below it. *)
Inductive intact_tree : ObjectId → Prop :=
| intact_tree_intro t data es :
    try_find t = Ok (Some (GTree, data)) → tree_iter data = Ok es →
    (∀ e, e ∈ es → entry_is_tree e = true → intact_tree (entry_oid e)) → intact_tree t.

(** A commit that can be read, with its tree. *)
Definition intact_commit (c : ObjectId) : Prop :=
  ∃ data t, try_find c = Ok (Some (GCommit, data)) ∧ commit_tree_id data = Ok t ∧ intact_tree t.
End odb_graph.

(** What gitoxide documents of its traversals: the commit walk yields the commits reachable
    from the tips, and [hide] leaves out those reachable from the hidden ones; the tree
    walk shows every entry of the root and of the trees the visitor descends to. *)
Class GixOdbLaws `{GixHash} {odb : GixOdb} : Prop := {
  simple_new_spec tips l :
    mapM (λ r, r) (simple_new tips) = Ok l → ∀ c, c ∈ l ↔ reached_from odb_parents tips c;
  simple_hide_spec tips hidden rs l :
    simple_hide tips hidden = Ok rs → mapM (λ r, r) rs = Ok l →
    ∀ c, c ∈ l ↔ reached_from odb_parents tips c ∧ ¬ reached_from odb_parents hidden c;
  breadthfirst_spec {S} (V : Visit S) data s s' :
    breadthfirst V data s = Ok s' →
    ∃ es s1 new, tree_iter data = Ok es ∧ foldl (show V) (s, []) es = (s1, new) ∧ traversal V new s1 s' ;
  simple_new_total tips :
    (∀ c, reached_from odb_parents tips c → intact_commit c) → ∃ l, mapM (λ r, r) (simple_new tips) = Ok l;
  simple_hide_total tips hidden :
    (∀ c, reached_from odb_parents (tips ++ hidden) c → intact_commit c) →
    ∃ rs l, simple_hide tips hidden = Ok rs ∧ mapM (λ r, r) rs = Ok l;
  breadthfirst_total {S} (V : Visit S) data es s :
    tree_iter data = Ok es → (∀ e, e ∈ es → entry_is_tree e = true → intact_tree (entry_oid e)) →
    ∃ s', breadthfirst V data s = Ok s' }.

(** Nothing but itself is reached from a node without successors. *)
Lemma reaches_leaf {O} (next : O → list O) o p : next o = [] → reaches next o p → p = o.
Proof. intros Hn Hr. destruct Hr as [|x y z Hy _]; [done|]. rewrite Hn in Hy. by apply elem_of_nil in Hy. Qed.

(** ** The tree walks *)

Section tree_walk.
Context `{GixHash} {odb : GixOdb} {laws : GixOdbLaws}.
Hypothesis kinds : well_kinded.
Variables (known : gset ObjectId) (skip : bool).
Implicit Types (X S : gset ObjectId) (P : list ObjectId).

Abbreviation V := (WantVisitor known skip).
Abbreviation kids := (sent_kids skip).

(** The sets the visitors keep: closed below every tree that is not pending, up to [known]. *)
Definition closing X P : Prop := ∀ o p, o ∈ X → o ∉ P → p ∈ kids o → p ∈ X ∨ p ∈ known.

Definition known_closed : Prop := ∀ o p, o ∈ known → p ∈ kids o → p ∈ known.

Lemma sent_entry o e : e ∈ tree_entries o → entry_is_tree e || negb skip = true → entry_oid e ∈ kids o.
Proof. intros He Hs. apply list_elem_of_fmap. exists e. split; [done|]. by apply list_elem_of_filter. Qed.

Lemma blob_entry_kids o e : e ∈ tree_entries o → entry_is_tree e = false → kids (entry_oid e) = [].
Proof. intros He Hb. unfold sent_kids. by rewrite (kinds_of_entry kinds o e He Hb). Qed.

(** What showing the entries of a tree does. *)
Lemma show_spec es X P X' P' :
  foldl (show V) (X, P) es = (X', P') →
  X ⊆ X' ∧ P ⊆ P' ∧
  (∀ p, p ∈ X' → p ∈ X ∨ ((p ∉ known) ∧ ∃ e, e ∈ es ∧ entry_oid e = p ∧ entry_is_tree e || negb skip = true ∧
                            (entry_is_tree e = true → p ∈ P'))) ∧
  (∀ e, e ∈ es → entry_is_tree e || negb skip = true → entry_oid e ∈ X' ∨ entry_oid e ∈ known) ∧
  (∀ p, p ∈ P' → p ∈ P ∨ ((p ∉ known) ∧ ∃ e, e ∈ es ∧ entry_oid e = p ∧ entry_is_tree e = true)).
Proof.
  revert X P; induction es as [|e es IH]; intros X P; cbn [foldl].
  { intros [= <- <-]. split_and!; [done|done|by left|set_solver|by left]. }
  destruct (show V (X, P) e) as [X1 P1] eqn:E. intros (HX & HP & Hin & Hall & Hpend)%IH.
  assert (X ⊆ X1 ∧ P ⊆ P1 ∧
    (∀ p, p ∈ X1 → p ∈ X ∨ ((p ∉ known) ∧ entry_oid e = p ∧ entry_is_tree e || negb skip = true ∧ (entry_is_tree e = true → p ∈ P1))) ∧
    (entry_is_tree e || negb skip = true → entry_oid e ∈ X1 ∨ entry_oid e ∈ known) ∧
    (∀ p, p ∈ P1 → p ∈ P ∨ ((p ∉ known) ∧ entry_oid e = p ∧ entry_is_tree e = true))) as (HX1 & HP1 & Hin1 & Hall1 & Hpend1).
  { revert E. unfold show. cbn [visit_tree visit_nontree WantVisitor].
    destruct (entry_is_tree e); cbn [orb negb];
      [destruct (decide (entry_oid e ∈ known)); [|destruct (decide (entry_oid e ∈ X))]
      |destruct skip; cbn [negb fst]; [|destruct (decide (entry_oid e ∈ known))]];
      intros [= <- <-]; split_and!; set_solver. }
  split_and!; [set_solver|set_solver| | |].
  - intros p [Hp|(Hp & e' & ? & ? & ? & ?)]%Hin; [|right; split; [done|]; exists e'; set_solver].
    apply Hin1 in Hp as [?|(? & ? & ? & ?)]; [by left|right; split; [done|]; exists e; set_solver].
  - intros e' [->|He']%elem_of_cons Hs; [|by apply Hall]. destruct (Hall1 Hs); [left; set_solver|by right].
  - intros p [Hp|(Hp & e' & ? & ? & ?)]%Hpend; [|right; split; [done|]; exists e'; set_solver].
    apply Hpend1 in Hp as [?|(? & ? & ?)]; [by left|right; split; [done|]; exists e; set_solver].
Qed.

Lemma tree_entries_found t data es :
  try_find t = Ok (Some (GTree, data)) → tree_iter data = Ok es → tree_entries t = es.
Proof. unfold tree_entries. by intros -> ->. Qed.

(** Taking one pending tree keeps the invariant and adds only what is below it. *)
Lemma closing_show t es X P X' new :
  tree_entries t = es → closing X (t :: P) → foldl (show V) (X, []) es = (X', new) → closing X' (P ++ new).
Proof.
  intros He Hc (HX & _ & Hin & Hall & _)%show_spec o p Ho Hp Hk.
  destruct (decide (o = t)) as [->|Hne].
  { unfold sent_kids in Hk. apply list_elem_of_fmap in Hk as (e & -> & [Hs Hin']%list_elem_of_filter).
    apply Hall; [by rewrite <- He|done]. }
  destruct (decide (o ∈ X)) as [HoX|HoX].
  { destruct (Hc o p) as [?|?]; [done|set_solver|done|left; set_solver|by right]. }
  apply Hin in Ho as [?|(_ & e & Hes & <- & Hs & Ht)]; [done|].
  destruct (entry_is_tree e) eqn:Et; [set_solver|].
  rewrite (blob_entry_kids t e) in Hk by (by rewrite ?He). by apply elem_of_nil in Hk.
Qed.

Lemma shown_below t es X X' new :
  tree_entries t = es → foldl (show V) (X, []) es = (X', new) →
  X ⊆ X' ∧ (∀ p, p ∈ X' → p ∈ X ∨ ((p ∉ known) ∧ p ∈ kids t)) ∧ (∀ p, p ∈ new → p ∈ kids t).
Proof.
  intros He (HX & _ & Hin & _ & Hpend)%show_spec. split_and!; [done| |].
  - intros p [?|(? & e & ? & <- & Hs & _)]%Hin; [by left|]. right. split; [done|]. apply sent_entry; [by rewrite He|done].
  - intros p [?%elem_of_nil|(? & e & ? & <- & Hs)]%Hpend; [done|]. apply sent_entry; [by rewrite He|by rewrite Hs].
Qed.

Lemma traversal_spec P X X' :
  traversal V P X X' → closing X P →
  X ⊆ X' ∧ closing X' [] ∧ ∀ o, o ∈ X' → o ∈ X ∨ ((o ∉ known) ∧ ∃ f, f ∈ P ∧ reaches kids f o).
Proof.
  induction 1 as [X|t pend pend' data es X X1 new X2 Ht Hes Hshow _ IH]; intros Hc.
  { split_and!; [done|done|by left]. }
  pose proof (tree_entries_found t data es Ht Hes) as He.
  destruct (shown_below t es X X1 new He Hshow) as (HX & Hin & Hnew).
  assert (closing X1 (pend ++ pend' ++ new)) as Hc1.
  { rewrite app_assoc. eapply closing_show; [done| |done].
    intros o p Ho Hn. apply Hc; [done|]. set_solver. }
  destruct (IH Hc1) as (HX1 & Hc2 & Hin2). split_and!; [set_solver|done|].
  intros o [Ho|(Hn & f & Hf & Hr)]%Hin2.
  - apply Hin in Ho as [?|[? Hk]]; [by left|]. right. split; [done|]. exists t. split; [set_solver|by apply rtc_once].
  - right. split; [done|]. rewrite !elem_of_app in Hf. destruct Hf as [Hf|[Hf|Hf]].
    + exists f. set_solver.
    + exists f. set_solver.
    + exists t. split; [set_solver|]. eapply rtc_l; [|exact Hr]. by apply Hnew.
Qed.

(** A closed set holds everything below its members that is not known. *)
Lemma closing_reaches X t o :
  known_closed → closing X [] → t ∈ X ∨ t ∈ known → reaches kids t o → o ∈ X ∨ o ∈ known.
Proof.
  intros Hk Hc Ht Hr. revert Ht. induction Hr as [|a b c Hab _ IH]; intros Ht; [done|]. apply IH.
  destruct Ht as [Ht|Ht]; [by apply (Hc a); [|apply not_elem_of_nil|]|right; by apply (Hk a)].
Qed.

(** Visitors that act like [V]. *)
Definition acts_like (W : Visit (gset ObjectId)) : Prop := ∀ x e, show W x e = show V x e.

Lemma foldl_acts_like W es x : acts_like W → foldl (show W) x es = foldl (show V) x es.
Proof. intros HW. revert x; induction es as [|e es IH]; intros x; cbn [foldl]; [done|]. by rewrite HW, IH. Qed.

Lemma traversal_acts_like W P X X' : acts_like W → traversal W P X X' → traversal V P X X'.
Proof.
  intros HW. induction 1 as [|t pend pend' data es X X1 new X2 Ht Hes Hshow _ IH]; [constructor|].
  rewrite foldl_acts_like in Hshow by done. by econstructor.
Qed.

Lemma walk_tree_spec W side t X X' :
  acts_like W → known_closed → closing X [] → t ∉ known → (∀ k data, try_find t = Ok (Some (k, data)) → k = GTree) →
  walk_tree side W t ({[t]} ∪ X) = Ok X' →
  closing X' [] ∧ ∀ o, o ∈ X' ↔ o ∈ X ∨ (reaches kids t o ∧ o ∉ known).
Proof.
  intros HW Hk Hc Ht Hkind. unfold walk_tree. intros (obj & Hf & (x & Hx & Hb)%result_bind_Ok)%result_bind_Ok.
  destruct (try_find t) as [o|] eqn:Ef; [|done]. injection Hf as ->. destruct obj as [[k data]|]; [|done].
  injection Hx as <-. rewrite (Hkind k data eq_refl) in *.
  cbn [snd] in Hb. destruct (breadthfirst W data ({[t]} ∪ X)) as [X2|] eqn:Eb; [|done]. injection Hb as ->.
  apply breadthfirst_spec in Eb as (es & X1 & new & Hes & Hshow & Htr).
  rewrite foldl_acts_like in Hshow by done. apply traversal_acts_like in Htr; [|done].
  pose proof (tree_entries_found t data es Ef Hes) as He.
  destruct (shown_below t es _ X1 new He Hshow) as (HX & Hin & Hnew).
  assert (closing X1 new) as Hc1.
  { change new with ([] ++ new). eapply closing_show; [done| |done]. intros o p Ho Hn Hp.
    destruct (Hc o p) as [?|?]; [set_solver|apply not_elem_of_nil|done|left; set_solver|by right]. }
  destruct (traversal_spec new X1 X' Htr Hc1) as (HX1 & Hc2 & Hin2). split; [done|]. intros o. split.
  - intros [Ho|(Hn & f & Hf & Hr)]%Hin2.
    + apply Hin in Ho as [[->%elem_of_singleton|?]%elem_of_union|[? Hkid]]; [|by left|].
      * right. split; [apply rtc_refl|done].
      * right. split; [by apply rtc_once|done].
    + right. split; [|done]. eapply rtc_l; [|exact Hr]. by apply Hnew.
  - intros [Ho|[Hr Hn]]; [set_solver|].
    destruct (closing_reaches X' t o Hk Hc2) as [?|?]; [left; set_solver|done|done|done].
Qed.

Lemma commit_tree_Ok side c t : commit_tree side c = Ok t → tree_of c t.
Proof.
  unfold commit_tree, tree_of. intros (obj & Hf & (x & Hx & Ht)%result_bind_Ok)%result_bind_Ok.
  destruct (try_find c) as [o|]; [|done]. injection Hf as ->. destruct obj as [[k data]|]; [|done]. injection Hx as <-.
  cbn [snd] in Ht. destruct (commit_tree_id data) as [t'|] eqn:E; [|done]. injection Ht as ->. eauto.
Qed.

Lemma tree_of_unique c t t' : tree_of c t → tree_of c t' → t = t'.
Proof. intros (? & ? & E & Et) (? & ? & E' & Et'). congruence. Qed.

(** What one commit adds, through either loop. *)
Definition adds (c : ObjectId) (o : ObjectId) : Prop := o = c ∨ (below_commit skip c o ∧ o ∉ known).

Definition visit_commit (W : Visit (gset ObjectId)) (side : bytes) (c t : ObjectId) X : result error (gset ObjectId) :=
  if decide (t ∈ {[c]} ∪ X ∨ t ∈ known) then Ok ({[c]} ∪ X) else walk_tree side W t ({[t]} ∪ ({[c]} ∪ X)).

Lemma commit_step W side c t X X' :
  acts_like W → known_closed → closing X [] → tree_of c t → visit_commit W side c t X = Ok X' →
  closing X' [] ∧ ∀ o, o ∈ X' ↔ o ∈ X ∨ adds c o.
Proof.
  intros HW Hk Hc Ht Hx. unfold visit_commit in Hx.
  assert (kids c = []) as Hkc.
  { unfold sent_kids, tree_entries. destruct Ht as (k & data & Ef & Et). rewrite Ef.
    by rewrite (kinds_of_commit kinds c t k data) by (done || by exists k, data). }
  assert (closing ({[c]} ∪ X) []) as Hc1.
  { intros o p [->%elem_of_singleton|Ho]%elem_of_union _ Hp; [rewrite Hkc in Hp; by apply elem_of_nil in Hp|].
    destruct (Hc o p); [done|apply not_elem_of_nil|done|left; set_solver|by right]. }
  assert (∀ o, adds c o ↔ o = c ∨ (reaches kids t o ∧ o ∉ known)) as Hadds.
  { intros o. unfold adds, below_commit. split; intros [?|[Hr ?]]; [by left| |by left|right; eauto].
    destruct Hr as (t' & Ht' & Hr). rewrite (tree_of_unique c t' t Ht' Ht) in Hr. by right. }
  destruct (decide _) as [Hin|Hout].
  - injection Hx as <-. split; [done|]. intros o. rewrite Hadds, elem_of_union, elem_of_singleton.
    pose proof (closing_reaches ({[c]} ∪ X) t o Hk Hc1 Hin) as Hr. set_solver.
  - destruct (walk_tree_spec W side t ({[c]} ∪ X) X') as [Hc2 Hx2]; [done|done|done|set_solver| |done|].
    { intros k data. by apply (kinds_of_tree kinds c). }
    split; [done|]. intros o. rewrite Hx2, Hadds, elem_of_union, elem_of_singleton. tauto.
Qed.

Lemma add_want_commits_spec commits X X' :
  known_closed → closing X [] → add_want_commits known skip commits X = Ok X' →
  ∀ o, o ∈ X' ↔ o ∈ X ∨ ∃ c, c ∈ commits ∧ adds c o.
Proof.
  intros Hk. revert X; induction commits as [|c commits IH]; intros X Hc; cbn [add_want_commits].
  { intros [= <-] o. set_solver. }
  intros (t & Ht%commit_tree_Ok & Hrest)%result_bind_Ok o.
  assert (∃ X1, visit_commit V [] c t X = Ok X1 ∧ add_want_commits known skip commits X1 = Ok X') as (X1 & H1 & H2).
  { unfold visit_commit. destruct (decide _); [eauto|]. by apply result_bind_Ok in Hrest. }
  apply commit_step in H1 as [Hc1 HX1]; [|done..]. rewrite (IH X1 Hc1 H2), HX1. setoid_rewrite elem_of_cons. naive_solver.
Qed.
End tree_walk.

Section have_walk.
Context `{GixHash} {odb : GixOdb} {laws : GixOdbLaws}.
Hypothesis kinds : well_kinded.

Lemma have_acts_like : acts_like ∅ false HaveVisitor.
Proof.
  intros [X P] e. unfold show. cbn [visit_tree visit_nontree HaveVisitor WantVisitor].
  rewrite !(decide_False (P := entry_oid e ∈ ∅)) by set_solver. by destruct (entry_is_tree e).
Qed.

(** What a commit holds: itself and everything below its tree. *)
Definition of_commit (c o : ObjectId) : Prop := o = c ∨ below_commit false c o.

Lemma add_have_commits_spec commits X X' :
  closing ∅ false X [] → add_have_commits commits X = Ok X' →
  closing ∅ false X' [] ∧ ∀ o, o ∈ X' ↔ o ∈ X ∨ ∃ c, c ∈ commits ∧ of_commit c o.
Proof.
  revert X; induction commits as [|c commits IH]; intros X Hc; cbn [add_have_commits].
  { intros [= <-]. split; [done|]. set_solver. }
  intros (t & Ht%commit_tree_Ok & Hrest)%result_bind_Ok.
  assert (∃ X1, visit_commit ∅ HaveVisitor (b! "have ") c t X = Ok X1 ∧ add_have_commits commits X1 = Ok X') as (X1 & H1 & H2).
  { unfold visit_commit. destruct (decide (t ∈ {[c]} ∪ X)).
    - rewrite decide_True by (by left). eauto.
    - rewrite decide_False by set_solver. by apply result_bind_Ok in Hrest. }
  apply (commit_step kinds ∅ false) in H1 as [Hc1 HX1]; [|apply have_acts_like|intros o p Ho; set_solver|done|done].
  destruct (IH X1 Hc1 H2) as [Hc2 HX2]. split; [done|]. intros o. rewrite HX2, HX1. unfold adds, of_commit.
  setoid_rewrite elem_of_cons. set_solver.
Qed.

(** The objects the client has: those of the commits reachable from the haves. *)
Definition client_has (have : list ObjectId) (o : ObjectId) : Prop :=
  ∃ c, reached_from odb_parents have c ∧ of_commit c o.

Lemma build_have_set_spec have S :
  build_have_set have = Ok S →
  (∀ o, o ∈ S ↔ client_has have o) ∧ ∀ skip, known_closed S skip.
Proof.
  unfold build_have_set, collect_ids. intros (l & Hl & Ha)%result_bind_Ok.
  destruct (mapM _ _) as [l'|] eqn:E; [|done]. injection Hl as ->. pose proof (simple_new_spec have l E) as Hs.
  apply add_have_commits_spec in Ha as [Hc HS]; [|intros o p Ho; set_solver]. split.
  - intros o. rewrite HS. unfold client_has. setoid_rewrite Hs. set_solver.
  - intros skip o p Ho Hp. destruct (Hc o p) as [?|?]; [done|apply not_elem_of_nil| |done|set_solver].
    unfold sent_kids in *. apply list_elem_of_fmap in Hp as (e & -> & [_ He]%list_elem_of_filter).
    apply list_elem_of_fmap. exists e. split; [done|]. apply list_elem_of_filter. split; [by rewrite orb_true_r|done].
Qed.
End have_walk.

(** ** The depth-limited walk *)

Section depth.
Context `{GixHash} {odb : GixOdb}.
Variables (want have : list ObjectId) (depth : N).
Implicit Types (visited : gset ObjectId) (result sh : list ObjectId).

(** The ids met within [n] steps from the wants; the haves are met but not walked. *)
Fixpoint met (n : nat) (c : ObjectId) : Prop :=
  match n with
  | O => c ∈ want
  | S n => met n c ∨ ∃ q, met n q ∧ (q ∉ have) ∧ c ∈ odb_parents q
  end.

Definition within (n : nat) (c : ObjectId) : Prop := met n c ∧ c ∉ have.

(** The number of steps a depth allows. *)
Definition steps : nat := N.to_nat (N.max 1 depth - 1).

(** A commit whose parents are cut off: met after [steps] steps and not before. *)
Definition boundary (c : ObjectId) : Prop :=
  within steps c ∧ (∀ n, (n < steps)%nat → ¬ met n c) ∧ odb_parents c ≠ [].

Lemma met_mono m n c : (m ≤ n)%nat → met m c → met n c.
Proof. induction 1; [done|]. intros. cbn. by left; auto. Qed.

Lemma met_fixed k : (∀ c, met (S k) c → met k c) → ∀ n c, met n c → met k c.
Proof.
  intros Hf. assert (∀ n c, met (n + k) c → met k c) as Hn.
  { intros n; induction n as [|n IH]; [done|]. intros c. cbn [Nat.add met]. intros [Hc|(q & Hq & Hh & Hc)]; [by apply IH|].
    apply Hf. right. exists q. split; [by apply IH|done]. }
  intros n c Hc. apply (Hn n). by apply (met_mono n); [lia|].
Qed.

(** Between two steps of the loop: of the commits met after [k] steps those in [q1] remain
    to be taken, and [q2] are the ones first met after [k + 1]. *)
Record levels (k : nat) (q1 q2 : list ObjectId) visited result sh : Prop := {
  lv_k : (k ≤ steps)%nat;
  lv_visited c : c ∈ visited ↔ met k c ∨ c ∈ q2;
  lv_q1 c : c ∈ q1 → met k c ∧ ∀ n, (n < k)%nat → ¬ met n c;
  lv_q2 c : c ∈ q2 → ¬ met k c ∧ (k < steps)%nat ∧ ∃ q, within k q ∧ c ∈ odb_parents q;
  lv_nodup : NoDup (q1 ++ q2);
  lv_parents q c : (k < steps)%nat → within k q → q ∉ q1 → c ∈ odb_parents q → c ∈ visited;
  lv_result c : c ∈ result ↔ within k c ∧ c ∉ q1;
  lv_result_nodup : NoDup result;
  lv_shallow c : c ∈ sh ↔ k = steps ∧ c ∈ result ∧ boundary c }.

Definition queued (k : nat) (q1 q2 : list ObjectId) : list (ObjectId * N) :=
  ((λ p, (p, N.of_nat k + 1)) <$> q1) ++ ((λ p, (p, N.of_nat k + 2)) <$> q2).

(** When a level is done the next one begins. *)
Lemma next_level k (q2 : list ObjectId) visited result sh :
  levels k [] q2 visited result sh → (k < steps)%nat → levels (S k) q2 [] visited result sh.
Proof.
  intros [Hk Hv _ Hq2 Hnd Hp Hr Hrn Hs] Hlt.
  assert (∀ c, met (S k) c ↔ met k c ∨ c ∈ q2) as Hmet.
  { intros c. cbn. split.
    - intros [?|(q & Hq & Hh & Hc)]; [by left|]. apply Hv, (Hp q); [done|done|apply not_elem_of_nil|done].
    - intros [?|(Hn & _ & q & [Hq Hh] & Hc)%Hq2]; [by left|]. right. eauto. }
  constructor.
  - lia.
  - intros c. rewrite Hmet, Hv. set_solver.
  - intros c Hc. split; [by apply Hmet; right|]. intros n Hn Hm. destruct (Hq2 c Hc) as [Hno _].
    apply Hno. apply (met_mono n); [lia|done].
  - set_solver.
  - by rewrite app_nil_r.
  - intros q c _ [Hq Hh] Hnq Hc. apply Hmet in Hq as [Hq|?]; [|done]. apply (Hp q); [done|done|apply not_elem_of_nil|done].
  - intros c. rewrite Hr. unfold within. rewrite Hmet. split.
    + intros [[? ?] _]. split; [by auto|]. intros (? & _)%Hq2. done.
    + intros [[[?|?] ?] ?]; [|done]. split; [done|apply not_elem_of_nil].
  - done.
  - intros c. rewrite Hs. split; [lia|]. intros (E & Hc & Hb). exfalso. destruct Hb as (_ & Hb & _).
    apply Hr in Hc as [[Hc _] _]. apply (Hb k); [lia|done].
Qed.

(** A have is met and left. *)
Lemma skip_have k c (q1 q2 : list ObjectId) visited result sh :
  levels k (c :: q1) q2 visited result sh → c ∈ have → levels k q1 q2 visited result sh.
Proof.
  intros [Hk Hv Hq1 Hq2 Hnd Hp Hr Hrn Hs] Hc. constructor; try done.
  - intros x Hx. apply Hq1. by right.
  - by apply NoDup_cons in Hnd as [_ ?].
  - intros q x Hlt Hq Hn. apply Hp; [done|done|]. intros [->|?]%elem_of_cons; [by destruct Hq|done].
  - intros x. rewrite Hr. split; [set_solver|]. intros [Hx Hn]. split; [done|]. intros [->|?]%elem_of_cons; [by destruct Hx|done].
Qed.

(** A commit at the last level is taken, not its parents. *)
Lemma take_last k c (q1 q2 : list ObjectId) visited result sh :
  levels k (c :: q1) q2 visited result sh → c ∉ have → k = steps →
  levels k q1 q2 visited (result ++ [c]) (if decide (odb_parents c = []) then sh else sh ++ [c]).
Proof.
  intros [Hk Hv Hq1 Hq2 Hnd Hp Hr Hrn Hs] Hc ->.
  pose proof (Hq1 c ltac:(by left)) as [Hm Hfirst]. apply NoDup_cons in Hnd as [Hnc Hnd].
  assert (∀ x, x ∈ result ++ [c] ↔ within steps x ∧ x ∉ q1) as Hres.
  { intros x. rewrite elem_of_app, list_elem_of_singleton, Hr. unfold within. destruct (decide (x = c)) as [->|]; set_solver. }
  constructor; try done.
  - intros x Hx. apply Hq1. by right.
  - lia.
  - apply NoDup_app. split_and!; [done| |apply NoDup_singleton]. intros x Hx ->%list_elem_of_singleton. set_solver.
  - intros x. destruct (decide (odb_parents c = [])) as [Hn|Hn].
    + rewrite Hs, elem_of_app, list_elem_of_singleton. split; [tauto|]. intros (_ & [?| ->] & Hb); [tauto|].
      by destruct Hb as (_ & _ & ?).
    + rewrite elem_of_app, Hs, elem_of_app, !list_elem_of_singleton. split; [|tauto].
      intros [?| ->]; [tauto|]. split_and!; [done|by right|done..].
Qed.

(** A commit before the last level is taken and its parents are queued. *)
Lemma take_commit k c (q1 q2 : list ObjectId) visited result sh visited' new :
  levels k (c :: q1) q2 visited result sh → c ∉ have → (k < steps)%nat →
  enqueue ∅ (odb_parents c) visited [] = (visited', new) →
  levels k q1 (q2 ++ new) visited' (result ++ [c]) sh.
Proof.
  intros [Hk Hv Hq1 Hq2 Hnd Hp Hr Hrn Hs] Hc Hlt He.
  apply (enqueue_spec (E := error) (λ _, Ok [])) in He as (new' & -> & -> & Hnew & Hin). cbn [app] in *.
  pose proof (Hq1 c ltac:(by left)) as [Hm Hfirst]. cbn [app] in Hnd. apply NoDup_cons in Hnd as [Hnc Hnd].
  constructor.
  - done.
  - intros x. rewrite elem_of_union, elem_of_list_to_set, Hv, elem_of_app. tauto.
  - intros x Hx. apply Hq1. by right.
  - intros x [Hx|Hx]%elem_of_app; [by apply Hq2|]. apply Hin in Hx as (Hx & _ & Hnv). rewrite Hv in Hnv.
    split_and!; [tauto|done|]. exists c. split; [done|done].
  - rewrite app_assoc. apply NoDup_app. split_and!; [done| |done]. intros x Hx (_ & _ & Hn)%Hin. apply Hn, Hv.
    apply elem_of_app in Hx as [Hx|?]; [left; by apply Hq1; right|by right].
  - intros q x _ Hq Hn Hx. rewrite elem_of_union, elem_of_list_to_set. destruct (decide (x ∈ visited)); [by left|].
    right. apply Hin. split_and!; [|set_solver|done]. destruct (decide (q = c)) as [->|Hne]; [done|].
    assert (x ∈ visited) by (apply (Hp q); [done|done|set_solver|done]). done.
  - intros x. rewrite elem_of_app, list_elem_of_singleton, Hr. unfold within. destruct (decide (x = c)) as [->|]; set_solver.
  - apply NoDup_app. split_and!; [done| |apply NoDup_singleton]. intros x Hx ->%list_elem_of_singleton. set_solver.
  - intros x. rewrite Hs. split; intros (-> & _); lia.
Qed.

Lemma start_level visited tips :
  enqueue ∅ want ∅ [] = (visited, tips) → levels 0 tips [] visited [] [].
Proof.
  intros He. apply (enqueue_spec (E := error) (λ _, Ok [])) in He as (new & -> & -> & Hnew & Hin). cbn [app].
  assert (∀ c, c ∈ new ↔ c ∈ want) as Hw by (intros c; rewrite Hin; set_solver).
  constructor.
  - lia.
  - intros c. cbn [met]. rewrite elem_of_union, elem_of_list_to_set, Hw. set_solver.
  - intros c Hc. split; [by apply Hw|]. lia.
  - set_solver.
  - by rewrite app_nil_r.
  - intros q c _ [Hq _] Hn. cbn in Hq. by apply Hw in Hq.
  - intros c. unfold within. cbn [met]. rewrite Hw. set_solver.
  - constructor.
  - set_solver.
Qed.

(** The outcome of the walk. *)
Definition depth_limited (l sh : list ObjectId) : Prop :=
  NoDup l ∧ (∀ c, c ∈ l ↔ within steps c) ∧ ∀ c, c ∈ sh ↔ boundary c.

Lemma level_end k visited result sh : levels k [] [] visited result sh → depth_limited result sh.
Proof.
  intros Hl. assert (∀ c, met k c ↔ met steps c) as Hmet.
  { intros c. destruct (decide (k = steps)) as [->|Hne]; [done|]. destruct Hl as [Hk Hv _ _ _ Hp _ _ _].
    split; [by apply met_mono|]. apply met_fixed. intros x [?|(q & Hq & Hh & Hx)]; [done|].
    destruct (proj1 (Hv x)) as [?|?%elem_of_nil]; [|done..]. apply (Hp q); [lia|done|apply not_elem_of_nil|done]. }
  destruct Hl as [Hk Hv _ _ _ _ Hr Hrn Hs]. split_and!; [done| |].
  - intros c. rewrite Hr. unfold within. rewrite Hmet. pose proof (not_elem_of_nil c). tauto.
  - intros c. rewrite Hs. split; [tauto|]. intros Hb. pose proof Hb as ([Hb1 Hb2] & Hb3 & _).
    destruct (decide (k = steps)) as [->|Hne].
    + split_and!; [done| |done]. apply Hr. split; [done|apply not_elem_of_nil].
    + exfalso. apply (Hb3 k); [lia|]. by apply Hmet.
Qed.

(** The queue of a state of the invariant starts with a commit of the current level, once
    an empty level has been left. *)
Lemma level_head k q1 q2 visited result sh :
  levels k q1 q2 visited result sh →
  (q1 = [] ∧ q2 = []) ∨
  ∃ k' c q1' q2', levels k' (c :: q1') q2' visited result sh ∧
    queued k q1 q2 = (c, N.of_nat k' + 1) :: queued k' q1' q2'.
Proof.
  intros Hl. destruct q1 as [|c q1]; [|right; by exists k, c, q1, q2].
  destruct q2 as [|c q2]; [by left|]. right. exists (S k), c, q2, [].
  assert (k < steps)%nat by (by apply (lv_q2 _ _ _ _ _ _ Hl c); left). split; [by apply next_level|].
  unfold queued. rewrite fmap_nil, !fmap_cons, fmap_nil. cbn [app]. rewrite app_nil_r.
  f_equal; [f_equal; lia|]. apply list_fmap_ext. intros ? ? _. f_equal. lia.
Qed.

Lemma depth_loop_spec fuel k q1 q2 visited result sh l sh' :
  levels k q1 q2 visited result sh →
  depth_loop fuel depth (list_to_set have) visited (queued k q1 q2) result sh = Some (Ok (l, sh')) →
  depth_limited l sh'.
Proof.
  revert k q1 q2 visited result sh; induction fuel as [|fuel IH]; intros k q1 q2 visited result sh Hl; [done|].
  cbn [depth_loop]. destruct (level_head _ _ _ _ _ _ Hl) as [[-> ->]|(k' & c & q1' & q2' & Hl' & ->)].
  { intros [= <- <-]. by eapply level_end. }
  clear Hl k q1 q2. rename k' into k, q1' into q1, q2' into q2.
  destruct (decide (c ∈ list_to_set have)) as [Hc|Hc]; rewrite elem_of_list_to_set in Hc.
  { apply (IH k). by eapply skip_have. }
  pose proof (lv_k _ _ _ _ _ _ Hl') as Hk. unfold steps in Hk.
  destruct (try_find c) as [[[kd data]|]|] eqn:Ef; [|done..].
  assert (odb_parents c = commit_parent_ids data) as Hpar by (unfold odb_parents; by rewrite Ef).
  rewrite <- Hpar. destruct (N.leb_spec depth (N.of_nat k + 1)) as [Hd|Hd].
  - replace (match odb_parents c with [] => sh | _ => sh ++ [c] end)
      with (if decide (odb_parents c = []) then sh else sh ++ [c]) by (by destruct (odb_parents c)).
    apply (IH k). apply take_last; [done|done|]. unfold steps. lia.
  - destruct (enqueue ∅ (odb_parents c) visited []) as [visited' new] eqn:He.
    replace (queued k q1 q2 ++ _) with (queued k q1 (q2 ++ new)).
    2:{ unfold queued. rewrite fmap_app, app_assoc. f_equal. apply list_fmap_ext. intros ? ? _. f_equal. lia. }
    apply (IH k). eapply take_commit; [done|done| |done]. unfold steps. lia.
Qed.

Lemma depth_limited_commits_spec fuel l sh :
  depth_limited_commits fuel want have depth = Some (Ok (l, sh)) → depth_limited l sh.
Proof.
  unfold depth_limited_commits. destruct (enqueue ∅ want ∅ []) as [visited tips] eqn:He.
  apply start_level in He. intros Hd. eapply (depth_loop_spec fuel 0 tips []); [done|].
  unfold queued. by rewrite fmap_nil, app_nil_r.
Qed.
End depth.

(** ** The walks return *)

Section total.
Context `{GixHash} {odb : GixOdb} {laws : GixOdbLaws}.

Lemma depth_loop_total (U : gset ObjectId) fuel depth known visited queue l sh :
  (∀ c, c ∈ U → intact_commit c) → (∀ c p, c ∈ U → p ∈ odb_parents c → p ∈ U) →
  (∀ x, x ∈ queue → x.1 ∈ U) → (size (U ∖ visited) + length queue < fuel)%nat →
  ∃ r, depth_loop fuel depth known visited queue l sh = Some (Ok r).
Proof.
  intros HU Hcl. revert visited queue l sh; induction fuel as [|fuel IH]; intros visited queue l sh Hq Hf; [lia|].
  cbn [depth_loop]. destruct queue as [|[c d] queue]; [eauto|]. cbn [length] in Hf.
  assert (∀ x, x ∈ queue → x.1 ∈ U) as Hq' by set_solver.
  destruct (decide (c ∈ known)); [apply IH; [done|lia]|].
  pose proof (Hq (c, d) ltac:(by left)) as Hc. cbn in Hc.
  destruct (HU c Hc) as (data & t & Ef & _). 
  assert (∀ p, p ∈ commit_parent_ids data → p ∈ U) as Hp.
  { intros p Hin. apply (Hcl c); [done|]. unfold odb_parents. by rewrite Ef. }
  rewrite Ef.
  destruct (depth <=? d); [apply IH; [done|lia]|].
  destruct (enqueue ∅ (commit_parent_ids data) visited []) as [visited' new] eqn:He.
  pose proof (enqueue_measure (E := error) (λ _, Ok []) U ∅ _ _ _ _ _ Hp He) as Hm.
  apply (enqueue_spec (E := error) (λ _, Ok [])) in He as (new' & -> & _ & _ & Hin). cbn [app length] in *.
  apply IH; [|rewrite length_app, length_fmap; lia].
  intros x [?|Hx]%elem_of_app; [by apply Hq'|]. apply list_elem_of_fmap in Hx as (p & -> & Hx). cbn. apply Hin in Hx as [Hx _]. by apply Hp.
Qed.

Lemma commit_tree_total side c : intact_commit c → ∃ t, commit_tree side c = Ok t ∧ intact_tree t.
Proof. intros (data & t & Ef & Et & Hi). exists t. unfold commit_tree. rewrite Ef. cbn. by rewrite Et. Qed.

Lemma walk_tree_total side W t X : intact_tree t → ∃ X', walk_tree side W t X = Ok X'.
Proof.
  destruct 1 as [t data es Ef Hes Hsub]. unfold walk_tree. rewrite Ef. cbn.
  destruct (breadthfirst_total W data es X Hes Hsub) as [X' ->]. by exists X'.
Qed.

Lemma add_want_commits_total known skip commits X :
  (∀ c, c ∈ commits → intact_commit c) → ∃ X', add_want_commits known skip commits X = Ok X'.
Proof.
  revert X; induction commits as [|c commits IH]; intros X Hall; cbn [add_want_commits]; [eauto|].
  destruct (commit_tree_total [] c) as (t & -> & Ht); [apply Hall; by left|]. cbn [mbind result_bind].
  destruct (decide _); [apply IH; set_solver|].
  destruct (walk_tree_total [] (WantVisitor known skip) t ({[t]} ∪ ({[c]} ∪ X)) Ht) as [X' ->]. apply IH. set_solver.
Qed.

Lemma add_have_commits_total commits X :
  (∀ c, c ∈ commits → intact_commit c) → ∃ X', add_have_commits commits X = Ok X'.
Proof.
  revert X; induction commits as [|c commits IH]; intros X Hall; cbn [add_have_commits]; [eauto|].
  destruct (commit_tree_total (b! "have ") c) as (t & -> & Ht); [apply Hall; by left|]. cbn [mbind result_bind].
  destruct (decide _); [apply IH; set_solver|].
  destruct (walk_tree_total (b! "have ") HaveVisitor t ({[t]} ∪ ({[c]} ∪ X)) Ht) as [X' ->]. apply IH. set_solver.
Qed.
End total.

(** ** The objects of a fetch *)

Section selection.
Context `{GixHash} {odb : GixOdb} {laws : GixOdbLaws}.

(** The commits to send, as documented: those reachable from the wants, within the depth if
    there is one, and not reachable from the haves. *)
Definition to_send (want have : list ObjectId) (deepen : option N) (c : ObjectId) : Prop :=
  match deepen with
  | None => reached_from odb_parents (commit_wants want) c
  | Some depth => met (commit_wants want) [] (steps depth) c
  end ∧ ¬ reached_from odb_parents have c.

(** The commits that the walk sends: with a depth it goes by the tips of the haves alone. *)
Definition walked (want have : list ObjectId) (deepen : option N) (c : ObjectId) : Prop :=
  match deepen with
  | None => to_send want have None c
  | Some depth => within (commit_wants want) have (steps depth) c
  end.

(** The commits sent although the client has them. *)
Definition resent (want have : list ObjectId) (deepen : option N) (c : ObjectId) : Prop :=
  is_Some deepen ∧ walked want have deepen c ∧ reached_from odb_parents have c.

(** A commit that the haves do not reach is met on no way that passes them. *)
Lemma met_unhindered want have n c :
  met want [] n c → ¬ reached_from odb_parents have c → within want have n c.
Proof.
  intros Hm Hn. split.
  - revert c Hm Hn; induction n as [|n IH]; intros c; cbn [met]; [done|].
    intros [Hm|(q & Hq & _ & Hc)] Hn; [left; auto|right]. assert (¬ reached_from odb_parents have q) as Hnq.
    { intros (f & Hf & Hr). apply Hn. exists f. split; [done|]. by eapply rtc_r. }
    exists q. split; [auto|]. split; [|done]. intros Hin. apply Hnq. exists q. split; [done|apply rtc_refl].
  - intros Hin. apply Hn. exists c. split; [done|apply rtc_refl].
Qed.

Lemma met_anyway want have n c : met want have n c → met want [] n c.
Proof.
  revert c; induction n as [|n IH]; intros c; cbn [met]; [done|]. intros [?|(q & Hq & _ & Hc)]; [left; auto|right].
  exists q. split; [auto|]. split; [by apply not_elem_of_nil|done].
Qed.

Lemma to_send_walked want have deepen c : to_send want have deepen c → walked want have deepen c.
Proof. destruct deepen as [d|]; [|done]. intros [Hm Hn]. by apply met_unhindered. Qed.

Lemma walked_to_send want have deepen c :
  walked want have deepen c → ¬ resent want have deepen c → to_send want have deepen c.
Proof.
  destruct deepen as [d|]; [|done]. intros Hw Hn. split; [apply (met_anyway _ have), Hw|].
  intros Hr. apply Hn. by split_and!.
Qed.

Definition cut_off (want have : list ObjectId) (deepen : option N) (c : ObjectId) : Prop :=
  match deepen with None => False | Some depth => boundary (commit_wants want) have depth c end.

Lemma want_commits_spec fuel want have deepen l sh :
  want_commits fuel want have deepen = Some (Ok (l, sh)) →
  (∀ c, c ∈ l ↔ walked want have deepen c) ∧ (∀ c, c ∈ sh ↔ cut_off want have deepen c).
Proof.
  unfold want_commits, walked, to_send, cut_off. destruct deepen as [depth|].
  { intros (_ & ? & ?)%depth_limited_commits_spec. done. }
  destruct (commit_wants want) as [|w ws] eqn:Ew.
  { intros [= <- <-]. split; [|set_solver]. intros c. split; [by intros ?%elem_of_nil|]. intros [(f & ?%elem_of_nil & _) _]. done. }
  rewrite <- Ew. intros [= Hl]. apply result_bind_Ok in Hl as (rs & Hrs & (l' & Hl' & [= -> <-])%result_bind_Ok).
  unfold collect_ids in Hl'. destruct (mapM _ rs) as [l2|] eqn:E; [|done]. injection Hl' as ->.
  split; [|set_solver]. exact (simple_hide_spec _ _ _ _ Hrs E).
Qed.

Lemma elem_of_direct_objects want o : o ∈ direct_objects want ↔ o ∈ want ∧ is_direct o = true.
Proof. unfold direct_objects. rewrite elem_of_list_to_set, list_elem_of_filter. tauto. Qed.

(** Some commits, with what is below their trees and the client does not have. *)
Definition with_contents (commits : ObjectId → Prop) (have : list ObjectId) (filter : option Filter) (o : ObjectId) : Prop :=
  ∃ c, commits c ∧
    (o = c ∨ (filter ≠ Some TreeNone ∧ below_commit (bool_decide (filter = Some BlobNone)) c o ∧ ¬ client_has have o)).

(** What a pack for the request holds: the wanted objects that are not commits, each by
    itself, and the commits to send with their contents. *)
Definition requested (want have : list ObjectId) (deepen : option N) (filter : option Filter) (o : ObjectId) : Prop :=
  (o ∈ want ∧ is_direct o = true) ∨ with_contents (to_send want have deepen) have filter o.

(** A selection is exact: all that is requested, and with a depth the commits sent again, but
    nothing else. *)
Record exactly (want have : list ObjectId) (deepen : option N) (filter : option Filter) (sent : ObjectId → Prop) : Prop := {
  sent_requested o : requested want have deepen filter o → sent o;
  sent_again o : resent want have deepen o → sent o;
  sent_only o : sent o → ¬ resent want have deepen o → requested want have deepen filter o }.

Lemma sent_kids_all skip o p : p ∈ sent_kids skip o → p ∈ sent_kids false o.
Proof.
  unfold sent_kids. intros (e & -> & [_ He]%list_elem_of_filter)%list_elem_of_fmap. apply list_elem_of_fmap. exists e.
  split; [done|]. apply list_elem_of_filter. split; [by rewrite orb_true_r|done].
Qed.

Lemma below_commit_all skip c o : below_commit skip c o → below_commit false c o.
Proof.
  intros (t & Ht & Hr). exists t. split; [done|]. clear Ht. induction Hr as [|x y z Hy _ IH]; [apply rtc_refl|].
  eapply rtc_l; [by eapply sent_kids_all|]. apply IH.
Qed.

Lemma walked_exactly want have deepen filter (sent : ObjectId → Prop) :
  (∀ o, sent o ↔ (o ∈ want ∧ is_direct o = true) ∨ with_contents (walked want have deepen) have filter o) →
  exactly want have deepen filter sent.
Proof.
  intros Hs. split.
  - intros o [Ho|(c & Hc & Ho)]; apply Hs; [by left|right]. exists c. split; [by apply to_send_walked|done].
  - intros o (_ & Hw & _). apply Hs. right. exists o. split; [done|by left].
  - intros o Ho Hn. apply Hs in Ho as [Ho|(c & Hc & [->|(Hf & Hb & Hh)])]; [by left|right..].
    + exists c. split; [by apply walked_to_send|by left].
    + exists c. split; [|by right]. apply walked_to_send; [done|]. intros (_ & _ & Hr). apply Hh. exists c. split; [done|right; by eapply below_commit_all].
Qed.

(** Without a depth nothing is sent again. *)
Lemma exactly_plain want have filter sent :
  exactly want have None filter sent → ∀ o, sent o ↔ requested want have None filter o.
Proof.
  intros [Hr _ Ho] o. split; [|apply Hr]. intros Hs. apply Ho; [done|]. by intros ([? ?] & _).
Qed.

Lemma with_have_set_spec fuel want have deepen filter known po :
  well_kinded → (∀ o, o ∈ want → tree_entries o = []) →
  (∀ o, o ∈ known ↔ client_has have o) → (∀ skip, known_closed known skip) →
  objects_for_fetch_with_have_set fuel want have deepen filter known = Some (Ok po) →
  (∀ o, o ∈ objects po ↔ (o ∈ want ∧ is_direct o = true) ∨ with_contents (walked want have deepen) have filter o) ∧
  (∀ c, c ∈ shallow po ↔ cut_off want have deepen c).
Proof.
  intros Hkinds Hnt Hknown Hclosed. unfold objects_for_fetch_with_have_set.
  destruct (want_commits _ _ _ _) as [r|] eqn:Ew; [|done]. intros [= Hpo].
  apply result_bind_Ok in Hpo as ([l sh] & -> & Hpo). apply want_commits_spec in Ew as [Hl Hsh].
  unfold with_contents. destruct (decide (filter = Some TreeNone)) as [Hf|Hf].
  { injection Hpo as <-. cbn [objects shallow]. split; [|done]. intros o.
    rewrite elem_of_app, Hl, elem_of_elements, elem_of_direct_objects. naive_solver. }
  apply result_bind_Ok in Hpo as (X & HX & [= <-]). cbn [objects shallow]. split; [|done]. intros o.
  rewrite elem_of_elements, (add_want_commits_spec Hkinds known (bool_decide (filter = Some BlobNone)) l (direct_objects want) X (Hclosed _)); [|..|exact HX].
  2:{ intros x p [Hx _]%elem_of_direct_objects _ Hp. unfold sent_kids in Hp. rewrite (Hnt x Hx) in Hp. by apply elem_of_nil in Hp. }
  rewrite elem_of_direct_objects. unfold adds. setoid_rewrite Hl. setoid_rewrite Hknown. naive_solver.
Qed.

(** (C15) The selection of a fetch is exact when no want is a tree: it holds the wants that are
    not commits, each by itself; the commits reachable from the wants and not from the haves
    (within the depth, if there is one); and of the entries below their trees those that the
    filter lets through and no commit of the client has.  Without a depth it holds nothing
    else; with one it holds exactly those other commits which the client has and which a walk
    of so many levels meets without passing a have.  The shallow commits are those whose
    parents the depth cuts off. *)
Theorem objects_for_fetch_exact fuel want have deepen filter po :
  well_kinded → (∀ o, o ∈ want → tree_entries o = []) →
  objects_for_fetch_filtered fuel want have deepen filter = Some (Ok po) →
  exactly want have deepen filter (.∈ objects po) ∧
  (deepen = None → ∀ o, o ∈ objects po ↔ requested want have None filter o) ∧
  (∀ c, c ∈ shallow po ↔ cut_off want have deepen c).
Proof.
  intros Hkinds Hnt. unfold objects_for_fetch_filtered. destruct (build_have_set have) as [known|] eqn:Eh; [|done].
  apply build_have_set_spec in Eh as [Hk Hc]; [|done]. intros [Ho Hs]%with_have_set_spec; [|done..].
  apply walked_exactly in Ho. split_and!; [done| |done]. intros ->. by apply exactly_plain.
Qed.

Lemma reached_in (U : gset ObjectId) tips c :
  (∀ c p, c ∈ U → p ∈ odb_parents c → p ∈ U) → (∀ x, x ∈ tips → x ∈ U) → reached_from odb_parents tips c → c ∈ U.
Proof. intros Hcl Hsub (f & Hin & Hr). apply Hsub in Hin. revert Hin. induction Hr; eauto. Qed.

Lemma met_in (U : gset ObjectId) want have n c :
  (∀ c p, c ∈ U → p ∈ odb_parents c → p ∈ U) → (∀ x, x ∈ want → x ∈ U) → met want have n c → c ∈ U.
Proof.
  intros Hcl Hw. revert c; induction n as [|n IH]; intros c; cbn [met]; [apply Hw|].
  intros [?|(q & Hq & _ & Hc)]; [by apply IH|]. by apply (Hcl q); [apply IH|].
Qed.

Lemma want_commits_total (U : gset ObjectId) fuel want have deepen :
  (∀ c, c ∈ U → intact_commit c) → (∀ c p, c ∈ U → p ∈ odb_parents c → p ∈ U) →
  (∀ c, c ∈ commit_wants want ++ have → c ∈ U) → (size U < fuel)%nat →
  ∃ l sh, want_commits fuel want have deepen = Some (Ok (l, sh)) ∧ ∀ c, c ∈ l → c ∈ U.
Proof.
  intros HU Hcl Htips Hf. assert (∀ c, c ∈ commit_wants want → c ∈ U) as Hw by set_solver.
  assert (∃ l sh, want_commits fuel want have deepen = Some (Ok (l, sh))) as (l & sh & E).
  2:{ exists l, sh. split; [done|]. intros c Hc. apply want_commits_spec in E as [Hl _]. apply Hl in Hc.
      unfold walked, to_send in Hc. destruct deepen as [d|]; destruct Hc as [Hc _]; [by eapply met_in|by eapply reached_in]. }
  unfold want_commits. destruct deepen as [depth|].
  - unfold depth_limited_commits. destruct (enqueue ∅ (commit_wants want) ∅ []) as [visited tips] eqn:He.
    pose proof (enqueue_measure (E := error) (λ _, Ok []) U ∅ _ _ _ _ _ Hw He) as Hm.
    apply (enqueue_spec (E := error) (λ _, Ok [])) in He as (new & -> & _ & _ & Hin). cbn [app length] in *.
    destruct (depth_loop_total U fuel depth (list_to_set have) visited ((λ p, (p, 1)) <$> new) [] []) as [[l sh] E]; [done|done| | |eauto].
    + intros x (p & -> & Hp)%list_elem_of_fmap. apply Hw. by apply Hin.
    + rewrite length_fmap, Hm. rewrite difference_empty_L. lia.
  - destruct (commit_wants want) as [|w ws]; [eauto|].
    destruct (simple_hide_total (w :: ws) have) as (rs & l & -> & El).
    { intros c Hc. apply HU. by apply (reached_in U ((w :: ws) ++ have)). }
    unfold collect_ids. cbn [mbind result_bind]. rewrite El. cbn. eauto.
Qed.

Lemma build_have_set_total have :
  (∀ c, reached_from odb_parents have c → intact_commit c) → ∃ known, build_have_set have = Ok known.
Proof.
  intros Hi. unfold build_have_set, collect_ids. destruct (simple_new_total have Hi) as [l El].
  rewrite El. cbn. apply add_have_commits_total. intros c Hc. by apply Hi, (simple_new_spec have l El).
Qed.

Lemma with_have_set_total (U : gset ObjectId) fuel want have deepen filter known :
  (∀ c, c ∈ U → intact_commit c) → (∀ c p, c ∈ U → p ∈ odb_parents c → p ∈ U) →
  (∀ c, c ∈ commit_wants want ++ have → c ∈ U) → (size U < fuel)%nat →
  ∃ po, objects_for_fetch_with_have_set fuel want have deepen filter known = Some (Ok po).
Proof.
  intros HU Hcl Htips Hf. destruct (want_commits_total U fuel want have deepen) as (l & sh & Ew & Hl); [done..|].
  unfold objects_for_fetch_with_have_set. rewrite Ew. cbn [mbind result_bind]. destruct (decide _); [eauto|].
  destruct (add_want_commits_total known (bool_decide (filter = Some BlobNone)) l (direct_objects want)) as [X ->]; [auto|].
  cbn. eauto.
Qed.

(** (C19) The selection ends and succeeds when the commits that can be reached are intact, with
    fuel for each of them once. *)
Theorem objects_for_fetch_total (U : gset ObjectId) fuel want have deepen filter :
  (∀ c, c ∈ U → intact_commit c) → (∀ c p, c ∈ U → p ∈ odb_parents c → p ∈ U) →
  (∀ c, c ∈ commit_wants want ++ have → c ∈ U) → (size U < fuel)%nat →
  ∃ po, objects_for_fetch_filtered fuel want have deepen filter = Some (Ok po).
Proof.
  intros HU Hcl Htips Hf. unfold objects_for_fetch_filtered.
  destruct (build_have_set_total have) as [known ->]; [|by apply (with_have_set_total U)].
  intros c Hc. apply HU. apply (reached_in U have); [done|set_solver|done].
Qed.

(** ** Where the selection departs from the request *)

Lemma direct_trees_skipped commits known skip X X' :
  (∀ c t, c ∈ commits → tree_of c t → t ∈ X) → add_want_commits known skip commits X = Ok X' →
  ∀ o, o ∈ X' ↔ o ∈ X ∨ o ∈ commits.
Proof.
  revert X; induction commits as [|c commits IH]; intros X Ht; cbn [add_want_commits].
  { intros [= <-] o. set_solver. }
  intros (t & Hc%commit_tree_Ok & Hrest)%result_bind_Ok o. rewrite decide_True in Hrest.
  - rewrite (IH ({[c]} ∪ X)), elem_of_union, elem_of_singleton, elem_of_cons; [tauto| |done].
    intros c' t' Hc' Ht'. apply elem_of_union_r, (Ht c'); [by right|done].
  - left. apply elem_of_union_r, (Ht c); [by left|done].
Qed.

(** When a root commit and its tree are both wanted, the tree is taken as seen and nothing
    below it is sent. *)
Theorem wanted_tree_hides_contents fuel want c t filter po :
  commit_wants want = [c] → odb_parents c = [] → tree_of c t → t ∈ want → is_direct t = true →
  objects_for_fetch_filtered fuel want [] None filter = Some (Ok po) →
  ∀ o, o ∈ objects po ↔ o ∈ want.
Proof.
  intros Hcw Hp Htree Ht Hd Hf o.
  assert (∀ o, o ∈ want ↔ o ∈ direct_objects want ∨ o = c) as Hwant.
  { intros x. rewrite elem_of_direct_objects. assert (x ∈ commit_wants want ↔ x ∈ want ∧ is_direct x = false) as Hx.
    { unfold commit_wants. rewrite list_elem_of_filter. tauto. }
    rewrite Hcw, list_elem_of_singleton in Hx. destruct (is_direct x); naive_solver. }
  revert Hf. unfold objects_for_fetch_filtered. destruct (build_have_set []) as [known|]; [|done].
  unfold objects_for_fetch_with_have_set. destruct (want_commits _ _ _ _) as [r|] eqn:Ew; [|done]. intros [= Hpo].
  apply result_bind_Ok in Hpo as ([l sh] & -> & Hpo). apply want_commits_spec in Ew as [Hl _].
  assert (∀ x, x ∈ l ↔ x = c) as Hlc.
  { intros x. rewrite Hl. cbn [walked]. unfold to_send. rewrite Hcw. split.
    - intros [(f & ->%list_elem_of_singleton & Hr) _]. by eapply reaches_leaf.
    - intros ->. split; [exists c; split; [by left|apply rtc_refl]|]. by intros (f & ?%elem_of_nil & _). }
  rewrite Hwant. destruct (decide _).
  { injection Hpo as <-. cbn [objects]. rewrite elem_of_app, elem_of_elements, Hlc. tauto. }
  apply result_bind_Ok in Hpo as (X & HX & [= <-]). cbn [objects].
  rewrite elem_of_elements, (direct_trees_skipped _ _ _ _ _) by (exact HX || (intros c' t' ->%Hlc Ht'; rewrite (tree_of_unique c t' t Ht' Htree);
    by apply elem_of_direct_objects)).
  by rewrite Hlc.
Qed.

(** Every entry of a sent tree that is not a tree is selected, a submodule's commit
    included, though the repository need not hold that object. *)
Theorem submodule_commit_selected fuel want have deepen po c t e :
  well_kinded → (∀ o, o ∈ want → tree_entries o = []) →
  objects_for_fetch_filtered fuel want have deepen None = Some (Ok po) →
  to_send want have deepen c → tree_of c t → e ∈ tree_entries t → entry_is_tree e = false →
  ¬ client_has have (entry_oid e) → entry_oid e ∈ objects po.
Proof.
  intros Hkinds Hnt. unfold objects_for_fetch_filtered. destruct (build_have_set have) as [known|] eqn:Eh; [|done].
  apply build_have_set_spec in Eh as [Hk Hc]; [|done]. intros [Hobj _]%with_have_set_spec; [|done..].
  intros Hs Ht He Hb Hn. apply Hobj. right. exists c. split; [by apply to_send_walked|]. right. split_and!; [done| |done].
  exists t. split; [done|]. apply rtc_once. apply sent_entry; [done|by rewrite Hb].
Qed.

(** A client that has the wanted tips and asks for a depth is sent no commit and no new
    boundary: the walk stops at the tips, and a shallow client cannot deepen. *)
Theorem deepen_held_tip_sends_nothing fuel want have depth filter po :
  (∀ c, c ∈ commit_wants want → c ∈ have) →
  objects_for_fetch_filtered fuel want have (Some depth) filter = Some (Ok po) →
  (∀ o, o ∈ objects po ↔ o ∈ want ∧ is_direct o = true) ∧ shallow po = [].
Proof.
  intros Hw. unfold objects_for_fetch_filtered. destruct (build_have_set have) as [known|]; [|done].
  unfold objects_for_fetch_with_have_set. destruct (want_commits _ _ _ _) as [r|] eqn:Ew; [|done]. intros [= Hpo].
  apply result_bind_Ok in Hpo as ([l sh] & -> & Hpo).
  assert (∀ n c, met (commit_wants want) have n c → c ∈ have) as Hmet.
  { intros n; induction n as [|n IH]; intros c; cbn [met]; [apply Hw|]. intros [?|(q & Hq%IH & ? & _)]; [by apply IH|done]. }
  apply want_commits_spec in Ew as [Hl Hsh].
  assert (l = []) as ->.
  { apply elem_of_nil_inv. intros c Hc. apply Hl in Hc as [Hc%Hmet Hn]. done. }
  assert (sh = []) as ->.
  { apply elem_of_nil_inv. intros c Hc. apply Hsh in Hc as ([Hc%Hmet Hn] & _). done. }
  setoid_rewrite <- elem_of_direct_objects. destruct (decide _).
  - injection Hpo as <-. cbn [objects shallow app]. split; [|done]. intros o. apply elem_of_elements.
  - cbn in Hpo. injection Hpo as <-. cbn [objects shallow]. split; [|done]. intros o. apply elem_of_elements.
Qed.
End selection.
