(* ===== verification/FsStream.v ===== *)
(** * Streaming a generated pack ([backend/fs_gitoxide.rs])

    [build_pack] generates a pack on a thread of its own, which sends chunks over a bounded
    channel to the reader that the fetch response drains.  Here are the reader, the thread
    and the reader as processes of one system, and the progress messages. *)

From stdpp Require Import base gmap list sorting strings relations.
From Stdlib Require Import Strings.Byte NArith ZArith Lia Floats.SpecFloat.
From S2P Require Import Prelude Bytes Gix Proto Types.
Open Scope N_scope.

(** What [handle.join()] on the thread gives. *)
Inductive joined := Returned (r : result error ()) | Panicked.

(** ** [PackReader] *)

Module PackReader.

(** The chunks that are still to come over [rx] before it is closed, the unread part of
    the current chunk, and the thread until it has been joined. *)
Record PackReader := { rx : list bytes; current : bytes; thread : option joined }.

Definition join (t : option joined) : result error bytes :=
  match t with
  | None | Some (Returned (Ok _)) => Ok []
  | Some (Returned (Err e)) => Err e
  | Some Panicked => Err (Msg (b! "pack generation thread panicked"))
  end.

(** [read] into a buffer of [n] bytes: the bytes read.  [rx.recv()] waits for the next
    chunk or the end of the channel. *)
Fixpoint read_from (n : nat) (chunks : list bytes) (current : bytes) (t : option joined) : result error bytes * PackReader :=
  match take n current with
  | [] =>
      match chunks with
      | chunk :: chunks' => read_from n chunks' chunk t
      | [] => (join t, {| rx := []; current := current; thread := None |})
      end
  | got => (Ok got, {| rx := chunks; current := drop n current; thread := t |})
  end.

Definition read (n : nat) (r : PackReader) : result error bytes * PackReader :=
  read_from n (rx r) (current r) (thread r).

(** Reads until one gives nothing or fails: the bytes, and whether the end was clean. *)
Fixpoint read_all (sizes : list nat) (r : PackReader) : bytes * option (result error ()) :=
  match sizes with
  | [] => ([], None)
  | n :: sizes' =>
      match read n r with
      | (Err e, _) => ([], Some (Err e))
      | (Ok [], _) => ([], Some (Ok ()))
      | (Ok got, r') => let '(rest, out) := read_all sizes' r' in (got ++ rest, out)
      end
  end.

(** The bytes that have not been read. *)
Definition unread (r : PackReader) : bytes := current r ++ concat (rx r).

Definition clean_end (r : PackReader) : result error () := match join (thread r) with Ok _ => Ok () | Err e => Err e end.

Lemma read_spec n r :
  (0 < n)%nat →
  match read n r with
  | (Ok got, r') => (got = [] ∧ unread r = [] ∧ clean_end r = Ok ()) ∨
                    (got ≠ [] ∧ unread r = got ++ unread r' ∧ clean_end r' = clean_end r)
  | (Err e, r') => unread r = [] ∧ clean_end r = Err e
  end.
Proof.
  intros Hn. destruct r as [chunks cur t]. unfold read, unread, clean_end. cbn [rx current thread].
  revert cur. induction chunks as [|c chunks IH]; intros cur; cbn [read_from];
    destruct (take n cur) as [|x got] eqn:E.
  - assert (cur = []) as -> by (destruct cur; [done|destruct n; [lia|done]]). destruct t as [[[]|]|]; cbn; auto.
  - right. split; [done|]. rewrite <- E. cbn [rx current thread]. by rewrite app_assoc, take_drop.
  - assert (cur = []) as -> by (destruct cur; [done|destruct n; [lia|done]]). apply IH.
  - right. split; [done|]. rewrite <- E. cbn [rx current thread]. by rewrite app_assoc, take_drop.
Qed.

(** Reads of any sizes deliver the bytes of the chunks in order and no others; when enough
    bytes have been asked for they end, with an error exactly when the thread failed or panicked. *)
Theorem read_all_delivers sizes r :
  Forall (λ n, (0 < n)%nat) sizes →
  match read_all sizes r with
  | (got, Some out) => got = unread r ∧ out = clean_end r
  | (got, None) => ∃ rest, unread r = got ++ rest
  end ∧ ((length (unread r) < length sizes)%nat → (read_all sizes r).2 = Some (clean_end r)).
Proof.
  intros Hs. revert r. induction Hs as [|n sizes Hn _ IH]; intros r; cbn [read_all].
  { split; [by exists (unread r)|]. cbn. lia. }
  pose proof (read_spec n r Hn) as Hr. destruct (read n r) as [[got|e] r'].
  - destruct got as [|x got].
    + destruct Hr as [(_ & -> & ->)|[? _]]; [|done]. done.
    + destruct Hr as [[? _]|(_ & -> & <-)]; [done|]. specialize (IH r') as [H1 H2].
      destruct (read_all sizes r') as [rest [out|]]; cbn [snd] in *.
      * destruct H1 as [-> ->]. done.
      * split; [destruct H1 as [rest' ->]; exists rest'; by rewrite app_assoc|].
        rewrite length_app. cbn [length]. intros Hlt. apply H2. lia.
  - destruct Hr as [-> ->]. done.
Qed.
End PackReader.

(** ** The thread and the reader

    [stream_pack_to_channel] runs against the reader of the response; [sync_channel(4)]
    holds at most four chunks, and sending waits for room. *)

Module Channel.

Definition CAPACITY : nat := 4.

(** What the pack iterator still yields: a step writes a chunk into the buffer, which may
    stay empty, or fails, or panics. *)
Inductive step_result := Chunk (c : bytes) | Failed (e : error) | Panics.

Inductive reader_state := Reading | Finished (r : joined) | Dropped.

Record system := {
  pending : list step_result;
  chan : list bytes;
  sender : option joined;
  received : list bytes;
  reader : reader_state }.

Definition start (steps : list step_result) : system :=
  {| pending := steps; chan := []; sender := None; received := []; reader := Reading |}.

Definition stop (s : system) (r : joined) : system :=
  {| pending := []; chan := chan s; sender := Some r; received := received s; reader := reader s |}.

(** One step of the thread or of the reader. *)
Inductive step : system → system → Prop :=
| step_skip s rest :
    sender s = None → pending s = Chunk [] :: rest →
    step s {| pending := rest; chan := chan s; sender := None; received := received s; reader := reader s |}
| step_send s c rest :
    sender s = None → pending s = Chunk c :: rest → c ≠ [] → reader s ≠ Dropped → (length (chan s) < CAPACITY)%nat →
    step s {| pending := rest; chan := chan s ++ [c]; sender := None; received := received s; reader := reader s |}
| step_send_dropped s c rest :
    sender s = None → pending s = Chunk c :: rest → c ≠ [] → reader s = Dropped →
    step s (stop s (Returned (Ok ())))
| step_fail s e rest :
    sender s = None → pending s = Failed e :: rest → step s (stop s (Returned (Err e)))
| step_panic s rest :
    sender s = None → pending s = Panics :: rest → step s (stop s Panicked)
| step_end s :
    sender s = None → pending s = [] → step s (stop s (Returned (Ok ())))
| step_recv s c rest :
    reader s = Reading → chan s = c :: rest →
    step s {| pending := pending s; chan := rest; sender := sender s; received := received s ++ [c]; reader := Reading |}
| step_closed s r :
    reader s = Reading → chan s = [] → sender s = Some r →
    step s {| pending := pending s; chan := []; sender := Some r; received := received s; reader := Finished r |}
| step_drop s :
    reader s = Reading →
    step s {| pending := pending s; chan := chan s; sender := sender s; received := received s; reader := Dropped |}.

(** The chunks of a run of the iterator, up to where it stops, and how it stops. *)
Fixpoint chunks_of (steps : list step_result) : list bytes :=
  match steps with
  | Chunk [] :: rest => chunks_of rest
  | Chunk c :: rest => c :: chunks_of rest
  | _ => []
  end.

Fixpoint outcome_of (steps : list step_result) : joined :=
  match steps with
  | [] => Returned (Ok ())
  | Chunk _ :: rest => outcome_of rest
  | Failed e :: _ => Returned (Err e)
  | Panics :: _ => Panicked
  end.

Definition final (s : system) : Prop := is_Some (sender s) ∧ reader s ≠ Reading.

(** The chunks the thread will still send. *)
Definition to_come (s : system) : list bytes := match sender s with Some _ => [] | None => chunks_of (pending s) end.

(** As long as the reader has not gone away, nothing is lost or made up: what was
    received, what is in the channel and what is to come are the chunks of the run. *)
Record sound (steps : list step_result) (s : system) : Prop := {
  sound_cap : (length (chan s) ≤ CAPACITY)%nat;
  sound_prefix : ∃ rest, chunks_of steps = received s ++ rest;
  sound_chunks : reader s ≠ Dropped → received s ++ chan s ++ to_come s = chunks_of steps;
  sound_outcome : reader s ≠ Dropped → match sender s with Some r => r | None => outcome_of (pending s) end = outcome_of steps;
  sound_finished r : reader s = Finished r → chan s = [] ∧ sender s = Some r }.

Lemma sound_start steps : sound steps (start steps).
Proof. constructor; cbn; try done; [unfold CAPACITY; lia|by exists (chunks_of steps)]. Qed.

Lemma sound_step steps s s' : sound steps s → step s s' → sound steps s'.
Proof.
  intros [Hcap Hpre Hch Hout Hfin] Hs.
  destruct Hs as [s rest Hs Hp|s c rest Hs Hp Hc Hr Hl|s c rest Hs Hp Hc Hr|s e rest Hs Hp|s rest Hs Hp|s Hs Hp|s c rest Hr Hc|s r Hr Hc Hs|s Hr];
    constructor; unfold stop, to_come in *; cbn [chan sender received reader pending] in *; rewrite ?Hs, ?Hp, ?Hr in *; cbn [chunks_of outcome_of] in *;
    try done; try (intros r' Hr'; apply Hfin in Hr'; naive_solver).
  - rewrite length_app. cbn. unfold CAPACITY in *. lia.
  - intros Hd. specialize (Hch Hd). destruct c; [done|]. by rewrite <- app_assoc.
  - rewrite Hc in Hcap. cbn in Hcap. lia.
  - rewrite Hc in Hch. specialize (Hch ltac:(done)). exists (rest ++ to_come s).
    by rewrite <- Hch, <- app_assoc.
  - rewrite Hc in Hch. intros _. by rewrite <- (Hch ltac:(done)), <- app_assoc.
  - cbn. lia.
  - intros _. specialize (Hch ltac:(done)). by rewrite Hc in Hch.
  - intros _. by apply Hout.
  - by intros r' [= <-].
Qed.

(** What is left to do: each step does some of it. *)
Definition work (s : system) : nat :=
  3 * length (pending s) + 2 * length (chan s) + (match sender s with None => 1 | Some _ => 0 end) +
  match reader s with Reading => 1 | _ => 0 end.

Lemma step_work s s' : step s s' → (work s' < work s)%nat.
Proof.
  unfold work. destruct 1 as [s rest Hs Hp|s c rest Hs Hp Hc Hr Hl|s c rest Hs Hp Hc Hr|s e rest Hs Hp|s rest Hs Hp|s Hs Hp|s c rest Hr Hc|s r Hr Hc Hs|s Hr];
    cbn [pending chan sender received reader stop]; rewrite ?length_app, ?Hs, ?Hp, ?Hr, ?Hc; cbn [length]; try lia.
  all: rewrite ?Hs; cbn; lia.
Qed.

Lemma reader_dec (r : reader_state) : r = Reading ∨ r ≠ Reading.
Proof. destruct r; [by left|right..]; done. Qed.

(** A system that is not final can take a step: the thread when there is room or nobody to
    send to, the reader otherwise. *)
Lemma progress steps s : sound steps s → ¬ final s → ∃ s', step s s'.
Proof.
  intros Hs Hf. destruct (sender s) as [r|] eqn:Er.
  - destruct (reader_dec (reader s)) as [Hr|Hr]; [|exfalso; apply Hf; split; [by rewrite Er|done]].
    destruct (chan s) as [|c rest] eqn:Ec; eexists; [by eapply step_closed|by eapply step_recv].
  - destruct (pending s) as [|[c|e|] rest] eqn:Ep; [eexists; by apply step_end| |eexists; by eapply step_fail|eexists; by eapply step_panic].
    destruct c as [|x c]; [eexists; by eapply step_skip|].
    destruct (reader s) as [|r|] eqn:Er'.
    + destruct (chan s) as [|d rest'] eqn:Ec; [|eexists; by eapply step_recv].
      eexists. eapply step_send; [done|done|done|by rewrite Er'|rewrite Ec; unfold CAPACITY; cbn; lia].
    + exfalso. destruct (sound_finished steps s Hs r Er') as [_ ?]. congruence.
    + eexists. by eapply step_send_dropped.
Qed.

Lemma sound_steps steps s s' : rtc step s s' → sound steps s → sound steps s'.
Proof. induction 1; [done|]. intros ?. eauto using sound_step. Qed.

(** (C16) However the packing thread and the reader of the response interleave, the channel holds
    at most four chunks and the reader has a prefix of the pack; no state is stuck before both have
    ended and every run is finite; and a reader that was not dropped ends with the whole
    pack and the thread's result. *)
Theorem stream_completes steps s :
  rtc step (start steps) s →
  (length (chan s) ≤ CAPACITY)%nat ∧ (∃ rest, chunks_of steps = received s ++ rest) ∧
  Acc (λ x y, step y x) s ∧
  (final s ∨ ∃ s', step s s') ∧
  (final s → reader s ≠ Dropped → reader s = Finished (outcome_of steps) ∧ received s = chunks_of steps).
Proof.
  intros Hr. pose proof (sound_steps steps _ _ Hr (sound_start steps)) as Hs. split_and!.
  - apply (sound_cap _ _ Hs).
  - apply (sound_prefix _ _ Hs).
  - apply (Wf_nat.well_founded_lt_compat _ work). intros x y. apply step_work.
  - destruct (reader_dec (reader s)) as [Hd|Hd], (sender s) as [r|] eqn:Er.
    1,2,4: right; apply (progress steps s Hs); intros [[? ?] ?]; congruence.
    left. split; [by rewrite Er|done].
  - intros [[r Er] Hnr] Hnd. destruct (reader s) as [|r'|] eqn:Erd; [done| |done].
    destruct (sound_finished _ _ Hs r' Erd) as [Hc Hs']. pose proof (sound_chunks _ _ Hs) as Hch. pose proof (sound_outcome _ _ Hs) as Ho.
    rewrite Erd in *. unfold to_come in Hch. rewrite Hs', Hc in *. cbn [app] in Hch. rewrite ?app_nil_r in Hch.
    rewrite (Ho ltac:(done)), (Hch ltac:(done)). done.
Qed.
End Channel.

(** ** Progress messages *)

Module Progress.

(** [f64]: the IEEE 754 numbers of the Standard Library's specification. *)
Definition f64_of (n : N) : spec_float := binary_normalize 53 1024 (Z.of_N n) 0 false.
Definition f64_div : spec_float → spec_float → spec_float := SFdiv 53 1024.
Definition f64_mul : spec_float → spec_float → spec_float := SFmul 53 1024.

(** [x as u32]: truncated, saturating, zero for NaN. *)
Definition u32_of_f64 (x : spec_float) : N :=
  match x with
  | S754_finite false m e => N.min u32_max (Z.to_N (Z.shiftl (Zpos m) e))
  | S754_infinity false => u32_max
  | _ => 0
  end.

(** The channel is the list of what was sent. *)
Record ChannelProgress := {
  sent : list bytes; name : bytes; step : N; max : option N; last_sent_ms : N }.

Definition new (tx : list bytes) (name : bytes) : ChannelProgress :=
  {| sent := tx; name := name; step := 0; max := None; last_sent_ms := 0 |}.

Definition percent (step max : N) : N := u32_of_f64 (f64_mul (f64_div (f64_of step) (f64_of max)) (f64_of 100)).

Definition progress_line (p : ChannelProgress) : bytes :=
  match max p with
  | Some max =>
      if 0 <? max
      then name p ++ b! ": " ++ decimal (percent (step p) max) ++ b! "% (" ++ decimal (step p) ++ b! "/" ++ decimal max ++ b! ")" ++ [x0d]
      else name p ++ b! ": " ++ decimal (step p) ++ [x0d]
  | None => name p ++ b! ": " ++ decimal (step p) ++ [x0d]
  end.

Definition done_line (p : ChannelProgress) : bytes :=
  match max p with
  | Some max =>
      if 0 <? max
      then name p ++ b! ": 100% (" ++ decimal max ++ b! "/" ++ decimal max ++ b! "), done." ++ [x0a]
      else name p ++ b! ": " ++ decimal (step p) ++ b! ", done." ++ [x0a]
  | None => name p ++ b! ": " ++ decimal (step p) ++ b! ", done." ++ [x0a]
  end.

Definition send (msg : bytes) (p : ChannelProgress) : ChannelProgress :=
  {| sent := sent p ++ [msg]; name := name p; step := step p; max := max p; last_sent_ms := last_sent_ms p |}.

(** At the time [now_ms]; the subtraction saturates. *)
Definition maybe_send (now_ms : N) (p : ChannelProgress) : ChannelProgress :=
  if now_ms - last_sent_ms p <? 100 then p
  else {| sent := sent p ++ [progress_line p]; name := name p; step := step p; max := max p; last_sent_ms := now_ms |}.

Definition send_done (p : ChannelProgress) : ChannelProgress := send (done_line p) p.

Definition with_step (s : N) (p : ChannelProgress) : ChannelProgress :=
  {| sent := sent p; name := name p; step := s; max := max p; last_sent_ms := last_sent_ms p |}.

(** [Count] and [Progress]. *)
Definition set (now_ms s : N) (p : ChannelProgress) : ChannelProgress := maybe_send now_ms (with_step s p).

Definition inc_by (now_ms n : N) (p : ChannelProgress) : ChannelProgress :=
  maybe_send now_ms (with_step ((step p + n) mod 2 ^ 64) p).

Definition init (m : option N) (p : ChannelProgress) : ChannelProgress :=
  {| sent := sent p; name := name p; step := 0; max := m; last_sent_ms := last_sent_ms p |}.

Definition set_name (n : bytes) (p : ChannelProgress) : ChannelProgress :=
  {| sent := sent p; name := n; step := step p; max := max p; last_sent_ms := last_sent_ms p |}.

Definition message (m : bytes) (p : ChannelProgress) : ChannelProgress := send (m ++ [x0a]) p.

Definition show_throughput (p : ChannelProgress) : ChannelProgress := send_done p.

(** A child reports to the same channel. *)
Definition add_child (n : bytes) (p : ChannelProgress) : ChannelProgress := new (sent p) n.

(** The calls of a pipeline, with the time of each. *)
Fixpoint counted (calls : list (N * N)) (p : ChannelProgress) : ChannelProgress :=
  match calls with
  | [] => p
  | (now_ms, n) :: calls' => counted calls' (inc_by now_ms n p)
  end.

(** However many objects are counted, at most one line goes out per 100 milliseconds
    of the clock: with the calls between the times of the last message and [t], at most
    [(t - last) / 100] lines are sent. *)
Theorem progress_throttled calls p t :
  StronglySorted (λ x y, x.1 ≤ y.1) calls → Forall (λ x, last_sent_ms p ≤ x.1 ≤ t) calls → last_sent_ms p ≤ t →
  ∃ lines, sent (counted calls p) = sent p ++ lines ∧ N.of_nat (length lines) * 100 ≤ t - last_sent_ms p.
Proof.
  intros Hs. revert p. induction Hs as [|[now n] calls _ IH Hall]; intros p Ht Hlast; cbn [counted].
  { exists []. rewrite app_nil_r. split; [done|]. cbn. lia. }
  apply Forall_cons in Ht as [[Hn1 Hn2] Ht]. cbn [fst] in *.
  assert (∀ q, last_sent_ms q ≤ now → Forall (λ x, last_sent_ms q ≤ x.1 ≤ t) calls) as Hq.
  { intros q Hq. rewrite !Forall_forall in *. intros x Hx. specialize (Hall x Hx). specialize (Ht x Hx). cbn in *. lia. }
  unfold inc_by, maybe_send. cbn [with_step last_sent_ms sent name step max]. destruct (N.ltb_spec (now - last_sent_ms p) 100) as [Hlt|Hge].
  - destruct (IH (with_step ((step p + n) mod 2 ^ 64) p)) as (lines & E & Hl); [by apply Hq|done|]. by exists lines.
  - destruct (IH {| sent := sent p ++ [progress_line (with_step ((step p + n) mod 2 ^ 64) p)]; name := name p;
                    step := (step p + n) mod 2 ^ 64; max := max p; last_sent_ms := now |}) as (lines & E & Hl); [by apply Hq|cbn; lia|].
    eexists (_ :: lines). split; [cbn in *; by rewrite E, <- app_assoc|]. cbn [length last_sent_ms] in *. lia.
Qed.
End Progress.
