(* ===== verification/FsGitoxide.v ===== *)
(** * The gitoxide backend ([backend/fs_gitoxide.rs])

    The default backend works on a bare repository on disk through gitoxide.  Opening the
    repository, its reference store and transactions, and writing and indexing packs are
    gitoxide's; here is what the source does with them: the edits of a push, the refs it
    lists, the files of an ingested pack and who may remove them, and which of three ways
    answers a fetch. *)

From stdpp Require Import base gmap list sorting strings relations.
From Stdlib Require Import Strings.Byte NArith Lia.
From S2P Require Import Prelude Bytes Gix Proto Types Graph Inspect PackTools Dense Bitmap PackWalk FsStream.
Open Scope N_scope.

(** ** gix-ref *)

Inductive Target `{GixHash} := TObject (oid : ObjectId) | TSymbolic (name : bytes).

#[global] Instance Target_eq_dec `{GixHash} : EqDecision Target.
Proof. solve_decision. Defined.

Inductive PreviousValue `{GixHash} := MustExist | MustNotExist | MustExistAndMatch (t : Target).

(** [transaction::Change]; the log messages are those of the updates. *)
Inductive Change `{GixHash} :=
| ChangeDelete (expected : PreviousValue)
| ChangeUpdate (message : bytes) (expected : PreviousValue) (new : Target).

Record RefEdit `{GixHash} := { change : Change; edit_name : bytes; deref : bool }.

Abbreviation ref_store :=
  (@gmap bytes (@list_eq_dec byte byte_eq_dec)
     (@list_countable byte byte_eq_dec byte_countable) Target).

Class GixRefs `{GixHash} := {
  (** [FullName::try_from]. *)
  valid_name : bytes → option error;
  (** [repo.committer()]: none configured, or one that does not parse. *)
  committer_error : option error;
  (** [transaction().prepare(edits, Immediately, Immediately)], and [commit] after it. *)
  prepare : list RefEdit → ref_store → result error ();
  commit : list RefEdit → ref_store → result error () * ref_store;
  (** [refs.iter()?.all()?], and what it yields. *)
  all_refs : ref_store → result error (list (result error (bytes * Target)));
  (** Peeling a reference to an object. *)
  peel_to_id : ref_store → Target → result error ObjectId;
  (** [repo.head_ref()]: the branch that [HEAD] points to. *)
  head_ref : ref_store → result error (option (bytes * Target));
  (** [find_reference], which completes partial names. *)
  find_reference : ref_store → bytes → result error Target }.

(** ** Refs *)

Section refs.
Context `{GixHash} {gix_refs : GixRefs} {odb : GixOdb}.

Definition ref_change (u : RefUpdate) : Change :=
  if is_null (new_oid u)
  then ChangeDelete (if is_null (old_oid u) then MustExist else MustExistAndMatch (TObject (old_oid u)))
  else if is_null (old_oid u) then ChangeUpdate (b! "push") MustNotExist (TObject (new_oid u))
  else ChangeUpdate (b! "push") (MustExistAndMatch (TObject (old_oid u))) (TObject (new_oid u)).

Definition ref_edit (u : RefUpdate) : result error RefEdit :=
  match valid_name (refname u) with
  | Some e => Err (Context (b! "invalid ref name " ++ refname u) e)
  | None => Ok {| change := ref_change u; edit_name := refname u; deref := false |}
  end.

Definition fs_update_refs (updates : list RefUpdate) (refs : ref_store) : result error () * ref_store :=
  match mapM ref_edit updates with
  | Err e => (Err e, refs)
  | Ok edits =>
      match committer_error with
      | Some e => (Err (Context (b! "reading committer") e), refs)
      | None =>
          match prepare edits refs with
          | Err e => (Err (Context (b! "preparing ref transaction") e), refs)
          | Ok () =>
              let '(r, refs') := commit edits refs in
              (map_err (Context (b! "committing ref transaction")) r, refs')
          end
      end
  end.

Definition fs_compute_push_kind (update : RefUpdate) : PushKind :=
  if is_null (old_oid update) then Create
  else if is_null (new_oid update) then Delete
  else if existsb (λ r, match r with Ok id => bool_decide (id = old_oid update) | Err _ => false end)
                  (simple_new [new_oid update])
  then FastForward else ForcePush.

Definition fs_head (refs : ref_store) : result error (option HeadInfo) :=
  head ← head_ref refs;
  match head with
  | Some (symref_name, target) =>
      oid ← peel_to_id refs target;
      Ok (Some {| h_oid := oid; h_symref_target := Some symref_name |})
  | None => Ok None
  end.

Definition ref_info (refs : ref_store) (name : bytes) (target : Target) : result error RefInfo :=
  peeled_id ← peel_to_id refs target;
  Ok (match target with
      | TObject oid =>
          {| r_name := name; r_oid := oid;
             r_peeled := if decide (peeled_id = oid) then None else Some peeled_id; r_symref_target := None |}
      | TSymbolic t => {| r_name := name; r_oid := peeled_id; r_peeled := None; r_symref_target := Some t |}
      end).

Fixpoint collect_refs (refs : ref_store) (items : list (result error (bytes * Target))) : result error (list RefInfo) :=
  match items with
  | [] => Ok []
  | r :: items' =>
      '(name, target) ← r;
      if decide (name = b! "HEAD") then collect_refs refs items'
      else
        info ← ref_info refs name target;
        infos ← collect_refs refs items';
        Ok (info :: infos)
  end.

Definition fs_list_refs (refs : ref_store) : result error RefsSnapshot :=
  head ← fs_head refs;
  items ← all_refs refs;
  infos ← collect_refs refs items;
  Ok {| rs_head := head; rs_refs := infos |}.

Definition fs_resolve_ref (refs : ref_store) (refname : bytes) : result error (option ObjectId) :=
  Ok (target ← ok (find_reference refs refname); ok (peel_to_id refs target)).
End refs.

(** ** Reads *)

Class GixRepo `{GixHash} := {
  (** [commit::topo::Builder…build()] in topological order, and what it yields. *)
  topo_walk : list ObjectId → list ObjectId → result error (list (result error ObjectId));
  (** [gix_diff::tree] over two stored trees, as the recorder's records; the readers of the
      two trees fail first. *)
  record_changes : ObjectId → ObjectId → result error (list TreeChange) }.

Class GixInit := {
  (** [create_dir_all] of the parent, if the path has one, [init_bare], and whether [HEAD]
      exists afterwards. *)
  create_parent : bytes → option error;
  init_bare : bytes → option error;
  head_exists : bytes → bool }.

Section reads.
Context `{GixObject} {odb : GixOdb} {gix_repo : GixRepo} {init : GixInit}.

Definition fs_has_object (oid : ObjectId) : bool := match try_find oid with Ok (Some _) => true | _ => false end.

Definition fs_has_objects (oids : list ObjectId) : list bool := fs_has_object <$> oids.

Fixpoint take_capped (cap : N) (out : list ObjectId) (items : list (result error ObjectId)) :
    result ReachableError (list ObjectId) :=
  match items with
  | [] => Ok out
  | r :: items' =>
      match r with
      | Err e => Err (ReachOther (Fmt (b! "topo walk: ") e))
      | Ok id => if cap <=? len out then Err (CapExceeded cap) else take_capped cap (out ++ [id]) items'
      end
  end.

Definition fs_reachable_excluding (from excluding : list ObjectId) (cap : N) : result ReachableError (list ObjectId) :=
  match topo_walk from excluding with
  | Err e => Err (ReachOther (Fmt (b! "topo walk init: ") e))
  | Ok walk => take_capped cap [] walk
  end.

Definition diff_entry (c : TreeChange) : RefDiffEntry :=
  match c with
  | Addition mode oid path => {| d_path := path; d_change := Added; d_mode := mode; d_oid := oid |}
  | Deletion mode oid path => {| d_path := path; d_change := Removed; d_mode := mode; d_oid := oid |}
  | Modification mode oid path => {| d_path := path; d_change := Modified; d_mode := mode; d_oid := oid |}
  end.

Definition fs_tree_diff (parent_tree : option ObjectId) (child_tree : ObjectId) : result error RefDiff :=
  records ← record_changes (default oid_empty_tree parent_tree) child_tree;
  Ok (map diff_entry records).

Definition fs_read_commit_info (oid : ObjectId) : result error CommitInfo :=
  object ← map_err (Fmt (b! "looking up commit " ++ oid_to_hex oid ++ b! ": ")) (try_find oid);
  x ← ok_or (Msg (b! "commit " ++ oid_to_hex oid ++ b! " not in object store")) object;
  if decide (x.1 = GCommit) then parse_commit_info x.2 oid
  else bail (b! "object " ++ oid_to_hex oid ++ b! " is not a commit").

Definition fs_read_blob (oid : ObjectId) (cap : N) : result error (option bytes) :=
  object ← map_err (Fmt (b! "looking up blob " ++ oid_to_hex oid ++ b! ": ")) (try_find oid);
  Ok (x ← object; if decide (x.1 = GBlob ∧ len x.2 ≤ cap) then Some x.2 else None).

Definition fs_read_object_raw (oid : ObjectId) (cap : N) : result error (option bytes) :=
  object ← map_err (Fmt (b! "looking up object " ++ oid_to_hex oid ++ b! ": ")) (try_find oid);
  Ok (x ← object; if decide (len x.2 ≤ cap) then Some x.2 else None).

Definition fs_init_repo (repo_path : bytes) : result error () :=
  match create_parent repo_path with
  | Some e => Err (Context (b! "creating parent directories for " ++ repo_path) e)
  | None =>
      match init_bare repo_path with
      | None => Ok ()
      | Some e => if head_exists repo_path then Ok () else Err (Context (b! "initialising bare repo at " ++ repo_path) e)
      end
  end.
End reads.

(** ** Ingested packs *)

(** The pack directory: contents by file name. *)
Abbreviation pack_files :=
  (@gmap bytes (@list_eq_dec byte byte_eq_dec)
     (@list_countable byte byte_eq_dec byte_countable) bytes).

Record FsWrittenPack := { pack : bytes; index : bytes; pack_owned : bool; index_owned : bool }.

Class GixBundle := {
  (** [Bundle::write_to_directory]: the files it writes, from the staged pack and the
      objects of the repository. *)
  write_to_directory : bytes → pack_files → result error (list (bytes * bytes));
  (** Opening the staged pack and making the directories. *)
  staging_error : option error;
  (** The file system on a file of this name: [rename] to it; [copy] to it, with what a copy
      that fails leaves there; and [remove_file] of a source that was copied, and of it. *)
  rename_error : bytes → option error;
  copy_error : bytes → option (error * option bytes);
  remove_source_error : bytes → option error;
  remove_error : bytes → option error }.

Section ingest.
Context {bundle : GixBundle}.

(** The last file of the temporary directory with the extension. *)
Definition last_with (ext : bytes) (files : list (bytes * bytes)) : option (bytes * bytes) :=
  last (base.filter (λ f, extension f.1 = Some ext) files).

(** [move_file]: a copy where the file cannot be renamed. *)
Definition move_file (src : bytes * bytes) (files : pack_files) : result error () * pack_files :=
  match rename_error src.1 with
  | None => (Ok (), <[src.1 := src.2]> files)
  | Some _ =>
      match copy_error src.1 with
      | Some (e, there) =>
          (Err (Context (b! "copying file cross-filesystem") e),
           match there with Some partial => <[src.1 := partial]> files | None => files end)
      | None =>
          (match remove_source_error src.1 with
           | Some e => Err (Context (b! "removing source after copy") e)
           | None => Ok () end, <[src.1 := src.2]> files)
      end
  end.

(** [remove_file], whose failure is ignored. *)
Definition remove_file (name : bytes) (files : pack_files) : pack_files :=
  match remove_error name with None => delete name files | Some _ => files end.

(** [move_file] unless the destination exists; whether it was moved. *)
Definition install (what : bytes) (src : bytes * bytes) (files : pack_files) : result error bool * pack_files :=
  if decide (is_Some (files !! src.1)) then (Ok false, files)
  else match move_file src files with
       | (Err e, files') => (Err (Context what e), files')
       | (Ok (), files') => (Ok true, files')
       end.

Definition fs_ingest_pack (staged_pack : bytes) (files : pack_files) : result error (option FsWrittenPack) * pack_files :=
  match staging_error with
  | Some e => (Err e, files)
  | None =>
      if default 0 (Proto.pack_object_count (take 12 staged_pack)) =? 0 then (Ok None, files)
      else
        match context (b! "indexing received pack") (write_to_directory staged_pack files) with
        | Err e => (Err e, files)
        | Ok written =>
            match last_with (b! "pack") written, last_with (b! "idx") written with
            | None, _ => (bail (b! "no .pack file written"), files)
            | _, None => (bail (b! "no .idx file written"), files)
            | Some pack_src, Some idx_src =>
                match install (b! "moving pack file") pack_src files with
                | (Err e, files) => (Err e, files)
                | (Ok pack_owned, files) =>
                    match install (b! "moving index file") idx_src files with
                    | (Err e, files) => (Err e, files)
                    | (Ok index_owned, files) =>
                        (Ok (Some {| pack := pack_src.1; index := idx_src.1;
                                     pack_owned := pack_owned; index_owned := index_owned |}), files)
                    end
                end
            end
        end
  end.

Definition fs_rollback_ingest (p : FsWrittenPack) (files : pack_files) : pack_files :=
  let files := if index_owned p then remove_file (index p) files else files in
  if pack_owned p then remove_file (pack p) files else files.
End ingest.

(** ** Fetches *)

(** What [build_pack] streams: a pack of the repository as it is, or one generated from
    these objects. *)
Inductive PackSource `{GixHash} :=
| ShipAsIs (pack_path : bytes)
| Generate (objects : list ObjectId) (thin_pack : bool) (shallow : list ObjectId).

Section fetch.
Context `{GixHash} {gix_bitmap : GixBitmap} {files : PackFiles} {odb : GixOdb}.

(** [None] is a panic; the inner [None] sends the caller to the walker. *)
Definition try_single_pack_bitmap (idx_path : bytes) (have : list ObjectId) : option (option (gset ObjectId)) :=
  match index_at idx_path with
  | Err _ => Some None
  | Ok pack_idx =>
      match load idx_path (num_objects pack_idx) with
      | Ok (Some b) => b ← index_oids pack_idx b; have_reachable b have
      | _ => Some None
      end
  end.

Fixpoint first_bitmap (paths : list bytes) (have : list ObjectId) : option (option (gset ObjectId)) :=
  match paths with
  | [] => Some None
  | path :: paths' =>
      if decide (extension path ≠ Some (b! "idx")) then first_bitmap paths' have
      else
        set ← try_single_pack_bitmap path have;
        match set with Some s => Some (Some s) | None => first_bitmap paths' have end
  end.

Definition try_bitmap_have_set (pack_dir : bytes) (have : list ObjectId) : option (option (gset ObjectId)) :=
  match have with
  | [] => Some (Some ∅)
  | _ => match fs_read_dir pack_dir with DirEntries paths => first_bitmap paths have | _ => Some None end
  end.

(** Opening the shipped pack can fail. *)
Definition ship_pack_as_is (pack_path : bytes) : result error PackSource :=
  _ ← context (b! "opening reusable pack " ++ pack_path) (fs_read_file pack_path);
  Ok (ShipAsIs pack_path).

(** The thread that packs the selected objects is started here; see [FsStream]. *)
Definition stream_objects (opts : PackOptions) (po : PackObjects) : PackSource :=
  Generate (objects po) (po_thin_pack opts) (shallow po).

Definition select_for (fuel : nat) (want have : list ObjectId) (opts : PackOptions)
    (bitmap_have_set : option (gset ObjectId)) : option (result error PackObjects) :=
  match bitmap_have_set with
  | Some have_set => objects_for_fetch_with_have_set fuel want have (po_deepen opts) (po_filter opts) have_set
  | None => objects_for_fetch_filtered fuel want have (po_deepen opts) (po_filter opts)
  end.

Definition generate (fuel : nat) (pack_dir : bytes) (want have : list ObjectId) (opts : PackOptions) :
    option (result error PackSource) :=
  match try_bitmap_have_set pack_dir have with
  | None => None
  | Some bitmap_have_set =>
      match select_for fuel want have opts bitmap_have_set with
      | None => None
      | Some (Err e) => Some (Err e)
      | Some (Ok pack_objects) => Some (Ok (stream_objects opts pack_objects))
      end
  end.

Definition fs_build_pack (fuel : nat) (pack_dir : bytes) (want have : list ObjectId) (opts : PackOptions) :
    option (result error PackSource) :=
  if bool_decide (po_deepen opts = None) && bool_decide (po_filter opts = None) && negb (po_thin_pack opts)
  then
    match find_reusable_pack pack_dir want have with
    | None => None
    | Some (Err e) => Some (Err e)
    | Some (Ok (Some pack_path)) => Some (ship_pack_as_is pack_path)
    | Some (Ok None) => generate fuel pack_dir want have opts
    end
  else generate fuel pack_dir want have opts.
End fetch.

(** ** Pushes *)

Section push_facts.
Context `{GixHash} {gix_refs : GixRefs}.
Implicit Types (refs : ref_store) (us : list RefUpdate).

(** Whether an edit finds what it expects, and its effect. *)
Definition expected_met refs (name : bytes) (expected : PreviousValue) : Prop :=
  match expected with
  | MustExist => is_Some (refs !! name)
  | MustNotExist => refs !! name = None
  | MustExistAndMatch t => refs !! name = Some t
  end.

Definition edit_expected (e : RefEdit) : PreviousValue :=
  match change e with ChangeDelete x => x | ChangeUpdate _ x _ => x end.

Definition apply_edit refs (e : RefEdit) : ref_store :=
  match change e with ChangeDelete _ => delete (edit_name e) refs | ChangeUpdate _ _ t => <[edit_name e := t]> refs end.

(** What gix-ref documents of a transaction without dereferencing: it is prepared when each
    name is edited once and each edit finds what it expects, unless a lock is held; and a
    prepared transaction that commits has made every edit. *)
Class GixRefsLaws := {
  lock_held : list RefEdit → ref_store → Prop;
  prepare_Ok edits refs :
    prepare edits refs = Ok () ↔
    ¬ lock_held edits refs ∧ NoDup (edit_name <$> edits) ∧
    Forall (λ e, deref e = false ∧ expected_met refs (edit_name e) (edit_expected e)) edits;
  commit_Ok edits refs refs' :
    prepare edits refs = Ok () → commit edits refs = (Ok (), refs') → refs' = foldl apply_edit refs edits }.

(** The refs as the contract sees them: those that hold an object. *)
Definition object_refs refs : gmap bytes ObjectId :=
  omap (λ t, match t with TObject o => Some o | TSymbolic _ => None end) refs.

Definition void (u : RefUpdate) : Prop := old_oid u = oid_null ∧ new_oid u = oid_null.

Definition edit_of (u : RefUpdate) : RefEdit := {| change := ref_change u; edit_name := refname u; deref := false |}.

Lemma mapM_ref_edit us edits : mapM ref_edit us = Ok edits → edits = edit_of <$> us ∧ Forall (λ u, valid_name (refname u) = None) us.
Proof.
  revert edits; induction us as [|u us IH]; intros edits; cbn [mapM].
  { intros [= <-]. split; [done|constructor]. }
  intros (e & He & (es & [-> Hv]%IH & [= <-])%result_bind_Ok)%result_bind_Ok. unfold ref_edit in He.
  destruct (valid_name (refname u)) eqn:Ev; [done|]. injection He as <-. split; [done|by constructor].
Qed.

Lemma mapM_ref_edit_Ok us : Forall (λ u, valid_name (refname u) = None) us → mapM ref_edit us = Ok (edit_of <$> us).
Proof. induction 1 as [|u us Hv _ IH]; [done|]. cbn [mapM].
  assert (ref_edit u = Ok (edit_of u)) as -> by (unfold ref_edit; by rewrite Hv). cbn. by rewrite IH. Qed.

Lemma lookup_object_refs refs n : object_refs refs !! n = match refs !! n with Some (TObject o) => Some o | _ => None end.
Proof. unfold object_refs. rewrite lookup_omap. by destruct (refs !! n) as [[]|]. Qed.

(** One edit that finds what it expects is the compare-and-swap of its update. *)
Lemma edit_is_cas refs u :
  ¬ void u → expected_met refs (refname u) (edit_expected (edit_of u)) →
  cas_update (object_refs refs) u = Some (object_refs (apply_edit refs (edit_of u))).
Proof.
  intros Hv. unfold cas_update, edit_of, ref_change, apply_edit, edit_expected, void in *. cbn [change edit_name].
  rewrite lookup_object_refs. destruct (is_null (new_oid u)) eqn:En, (is_null (old_oid u)) eqn:Eo; cbn [expected_met];
    rewrite ?is_null_true, ?is_null_false in *; [tauto|intros ->..].
  - rewrite decide_True by done. f_equal. apply map_eq. intros n. rewrite lookup_object_refs.
    destruct (decide (n = refname u)) as [->|Hn]; [by rewrite !lookup_delete_eq|].
    rewrite !lookup_delete_ne by done. by rewrite lookup_object_refs.
  - f_equal. apply map_eq. intros n. rewrite lookup_object_refs.
    destruct (decide (n = refname u)) as [->|Hn]; [by rewrite !lookup_insert_eq|].
    rewrite !lookup_insert_ne by done. by rewrite lookup_object_refs.
  - rewrite decide_True by done. f_equal. apply map_eq. intros n. rewrite lookup_object_refs.
    destruct (decide (n = refname u)) as [->|Hn]; [by rewrite !lookup_insert_eq|].
    rewrite !lookup_insert_ne by done. by rewrite lookup_object_refs.
Qed.

Lemma apply_edit_other refs u n : n ≠ refname u → apply_edit refs (edit_of u) !! n = refs !! n.
Proof. intros Hn. unfold apply_edit. cbn [change edit_of edit_name]. destruct (ref_change u); [by rewrite lookup_delete_ne|by rewrite lookup_insert_ne]. Qed.

Lemma edits_are_cas refs us :
  Forall (λ u, ¬ void u) us → NoDup (refname <$> us) →
  Forall (λ u, expected_met refs (refname u) (edit_expected (edit_of u))) us →
  cas_updates (object_refs refs) us = Some (object_refs (foldl apply_edit refs (edit_of <$> us))).
Proof.
  intros Hv. revert refs. induction Hv as [|u us Hu _ IH]; intros refs Hnd Hmet; [done|].
  rewrite fmap_cons in Hnd. apply NoDup_cons in Hnd as [Hni Hnd]. apply Forall_cons in Hmet as [Hm Hmet].
  cbn [cas_updates]. rewrite (edit_is_cas refs u Hu Hm). cbn [mbind option_bind]. rewrite fmap_cons. cbn [foldl].
  apply IH; [done|]. rewrite !Forall_forall in *. intros w Hw. specialize (Hmet w Hw).
  assert (refname w ≠ refname u) as Hne.
  { intros E. apply Hni. rewrite <- E. apply list_elem_of_fmap. eauto. }
  unfold expected_met in *. destruct (edit_expected (edit_of w)); by rewrite apply_edit_other.
Qed.

(** A transaction that can be prepared is the compare-and-swap of its updates. *)
Lemma prepared_is_cas {laws : GixRefsLaws} us refs :
  Forall (λ u, ¬ void u) us → prepare (edit_of <$> us) refs = Ok () →
  cas_updates (object_refs refs) us = Some (object_refs (foldl apply_edit refs (edit_of <$> us))).
Proof.
  intros Hv (_ & Hnd & Hmet)%prepare_Ok. apply edits_are_cas; [done|by rewrite <- list_fmap_compose in Hnd|].
  rewrite Forall_fmap in Hmet. apply (Forall_impl _ _ _ Hmet). by intros u [_ ?].
Qed.

(** (C18) For updates that are not from null to null: a push that gitoxide commits changes the
    refs that hold objects by the compare-and-swap of the updates; a push whose
    compare-and-swap fails, or that updates one ref twice, is refused and changes nothing;
    and the only other error that may leave changes is that of a commit which fails midway. *)
Theorem fs_update_refs_cas {laws : GixRefsLaws} us refs :
  Forall (λ u, ¬ void u) us →
  (∀ refs', fs_update_refs us refs = (Ok (), refs') → cas_updates (object_refs refs) us = Some (object_refs refs')) ∧
  (cas_updates (object_refs refs) us = None ∨ ¬ NoDup (refname <$> us) → ∃ e, fs_update_refs us refs = (Err e, refs)) ∧
  (∀ e refs', fs_update_refs us refs = (Err e, refs') →
     refs' = refs ∨ ∃ e', prepare (edit_of <$> us) refs = Ok () ∧ commit (edit_of <$> us) refs = (Err e', refs')).
Proof.
  intros Hv. unfold fs_update_refs. split_and!.
  - intros refs'. destruct (mapM ref_edit us) as [edits|] eqn:Em; [|done]. apply mapM_ref_edit in Em as [-> _].
    destruct committer_error; [done|]. destruct (prepare _ refs) as [[]|] eqn:Ep; [|done].
    destruct (commit _ refs) as [[[]|] refs''] eqn:Ec; [|done]. cbn. intros [= <-].
    rewrite (commit_Ok _ _ _ Ep Ec). by apply prepared_is_cas.
  - intros Hno. destruct (mapM ref_edit us) as [edits|] eqn:Em; [|eauto]. apply mapM_ref_edit in Em as [-> _].
    destruct committer_error; [eauto|]. destruct (prepare _ refs) as [[]|] eqn:Ep; [|eauto]. exfalso. destruct Hno as [Hno|Hnd].
    + by rewrite (prepared_is_cas _ _ Hv Ep) in Hno.
    + apply prepare_Ok in Ep as (_ & Hnd' & _). by rewrite <- list_fmap_compose in Hnd'.
  - intros e refs'. destruct (mapM ref_edit us) as [edits|] eqn:Em; [|intros [= _ <-]; by left]. apply mapM_ref_edit in Em as [-> _].
    destruct committer_error; [intros [= _ <-]; by left|]. destruct (prepare _ refs) as [[]|] eqn:Ep; [|intros [= _ <-]; by left].
    destruct (commit _ refs) as [[[]|e'] refs''] eqn:Ec; [done|]. intros [= _ <-]. right. eauto.
Qed.

(** An update from null to null is classified as the creation of a ref, and deletes the
    existing one, whatever it points to. *)
Theorem create_push_deletes_ref {odb : GixOdb} {laws : GixRefsLaws} u refs t refs' :
  void u → refs !! refname u = Some t → valid_name (refname u) = None → committer_error = None →
  ¬ lock_held [edit_of u] refs → commit [edit_of u] refs = (Ok (), refs') →
  fs_compute_push_kind u = Create ∧ fs_update_refs [u] refs = (Ok (), refs') ∧ refs' = delete (refname u) refs ∧
  cas_updates (object_refs refs) [u] = match t with TObject _ => None | TSymbolic _ => Some (object_refs refs) end.
Proof.
  intros [Ho Hn] Ht Hv Hc Hl Hcommit.
  assert (is_null (old_oid u) = true ∧ is_null (new_oid u) = true) as [Eo En] by (by rewrite !is_null_true).
  assert (prepare [edit_of u] refs = Ok ()) as Hp.
  { apply prepare_Ok. split_and!; [done|apply NoDup_singleton|]. constructor; [|constructor]. split; [done|].
    unfold edit_expected, edit_of, ref_change. cbn [change edit_name]. rewrite Eo, En. cbn. by rewrite Ht. }
  split_and!.
  - unfold fs_compute_push_kind. by rewrite Eo.
  - unfold fs_update_refs. rewrite mapM_ref_edit_Ok by (by constructor). rewrite Hc. cbn [fmap list_fmap]. by rewrite Hp, Hcommit.
  - rewrite (commit_Ok _ _ _ Hp Hcommit). cbn. unfold apply_edit, edit_of, ref_change. cbn [change edit_name]. by rewrite En.
  - cbn [cas_updates]. unfold cas_update. rewrite Eo, En, lookup_object_refs, Ht. destruct t; [done|]. cbn. f_equal.
    apply delete_id. by rewrite lookup_object_refs, Ht.
Qed.

(** Push kinds are decided by ancestry. *)
Lemma fs_push_kind_spec {odb : GixOdb} {laws : GixOdbLaws} u :
  is_null (old_oid u) = false → is_null (new_oid u) = false →
  (∀ c, reached_from odb_parents [new_oid u] c → intact_commit c) →
  fs_compute_push_kind u = FastForward ↔ reaches odb_parents (new_oid u) (old_oid u).
Proof.
  intros Eo En Hi. unfold fs_compute_push_kind. rewrite Eo, En. destruct (simple_new_total _ Hi) as [l Hl].
  pose proof (simple_new_spec _ _ Hl (old_oid u)) as Hs. rewrite reached_from_one in Hs. rewrite <- Hs.
  assert (∀ rs l, mapM (λ r : result error ObjectId, r) rs = Ok l →
            existsb (λ r, match r with Ok id => bool_decide (id = old_oid u) | Err _ => false end) rs = bool_decide (old_oid u ∈ l)) as Hex.
  { clear. intros rs; induction rs as [|r rs IH]; intros l; cbn [mapM existsb].
    - intros [= <-]. symmetry. apply bool_decide_eq_false. apply not_elem_of_nil.
    - intros (o & -> & (l' & Hl%IH & [= <-])%result_bind_Ok)%result_bind_Ok. rewrite Hl, <- bool_decide_or.
      apply bool_decide_ext. rewrite elem_of_cons. naive_solver. }
  rewrite (Hex _ _ Hl). by case_bool_decide.
Qed.
End push_facts.

(** ** Files *)

Section ingest_facts.
Context {bundle : GixBundle}.
Implicit Types (files : pack_files) (p : FsWrittenPack).

(** The two files have different names. *)
Lemma last_with_extension ext written f : last_with ext written = Some f → extension f.1 = Some ext.
Proof.
  unfold last_with. intros Hl. apply last_Some_elem_of, list_elem_of_filter in Hl. tauto.
Qed.

Lemma install_spec what src files r files' :
  install what src files = (r, files') →
  match r with
  | Ok true => files !! src.1 = None ∧ files' = <[src.1 := src.2]> files
  | Ok false => is_Some (files !! src.1) ∧ files' = files
  | Err _ => ∀ n, n ≠ src.1 → files' !! n = files !! n
  end.
Proof.
  unfold install. destruct (decide _) as [Hs|Hn]; [by intros [= <- <-]|]. apply eq_None_not_Some in Hn. unfold move_file.
  destruct (rename_error src.1); [|by intros [= <- <-]]. destruct (copy_error src.1) as [[e' there]|].
  - intros [= <- <-] n Hne. destruct there; [by rewrite lookup_insert_ne|done].
  - destruct (remove_source_error src.1); intros [= <- <-]; [|done]. intros n Hne. by rewrite lookup_insert_ne.
Qed.

(** What a successful ingest did: it owns exactly the files that were not there. *)
Lemma ingest_spec staged files p files' :
  fs_ingest_pack staged files = (Ok (Some p), files') →
  pack p ≠ index p ∧ is_Some (files' !! pack p) ∧ is_Some (files' !! index p) ∧
  (pack_owned p = true ↔ files !! pack p = None) ∧ (index_owned p = true ↔ files !! index p = None) ∧
  (pack_owned p = false → files' !! pack p = files !! pack p) ∧ (index_owned p = false → files' !! index p = files !! index p) ∧
  ∀ n, n ≠ pack p → n ≠ index p → files' !! n = files !! n.
Proof.
  unfold fs_ingest_pack. destruct staging_error; [done|]. destruct (_ =? 0); [done|].
  destruct (context _ _) as [written|]; [|done].
  destruct (last_with (b! "pack") written) as [ps|] eqn:Ep; [|done]. destruct (last_with (b! "idx") written) as [xs|] eqn:Ei; [|done].
  apply last_with_extension in Ep, Ei. assert (ps.1 ≠ xs.1) as Hne by (intros E; rewrite E, Ei in Ep; done).
  destruct (install _ ps files) as [[po|] f1] eqn:E1; [|done]. destruct (install _ xs f1) as [[io|] f2] eqn:E2; [|done].
  intros [= <- <-]. cbn [pack index pack_owned index_owned]. apply install_spec in E1, E2.
  assert (∀ n, n ≠ ps.1 → f1 !! n = files !! n) as Hf1.
  { intros n Hn. destruct po; destruct E1 as [_ ->]; [by rewrite lookup_insert_ne|done]. }
  assert (is_Some (f1 !! ps.1) ∧ (po = true ↔ files !! ps.1 = None)) as [Hp1 Hpo].
  { destruct po; destruct E1 as [E1 ->]; [rewrite lookup_insert_eq; by split; [eexists|]|].
    split; [done|]. split; [done|]. intros E. rewrite E in E1. by apply is_Some_None in E1. }
  assert (∀ n, n ≠ xs.1 → f2 !! n = f1 !! n) as Hf2.
  { intros n Hn. destruct io; destruct E2 as [_ ->]; [by rewrite lookup_insert_ne|done]. }
  assert (is_Some (f2 !! xs.1) ∧ (io = true ↔ files !! xs.1 = None)) as [Hi2 Hio].
  { rewrite <- (Hf1 xs.1) by done. destruct io; destruct E2 as [E2 ->]; [rewrite lookup_insert_eq; by split; [eexists|]|].
    split; [done|]. split; [done|]. intros E. rewrite E in E2. by apply is_Some_None in E2. }
  split_and!; [done|by rewrite Hf2|done|done|done| | |].
  { intros ->. destruct E1 as [_ ->]. by apply Hf2. }
  { intros ->. destruct E2 as [_ ->]. by apply Hf1. }
  intros n Hn1 Hn2. by rewrite Hf2, Hf1.
Qed.

(** The files that the push put there. *)
Definition owns p (n : bytes) : Prop := (pack_owned p = true ∧ n = pack p) ∨ (index_owned p = true ∧ n = index p).

#[export] Instance owns_dec p n : Decision (owns p n).
Proof. unfold owns. apply _. Defined.

(** What a rollback leaves: all but the files that the push put there and that can be removed. *)
Lemma lookup_rollback p files n :
  fs_rollback_ingest p files !! n = if decide (owns p n ∧ remove_error n = None) then None else files !! n.
Proof.
  assert (∀ m fs, remove_file m fs !! n = if decide (n = m ∧ remove_error n = None) then None else fs !! n) as Hr.
  { intros m fs. unfold remove_file. destruct (decide (n = m)) as [->|Hn].
    - destruct (remove_error m); [by rewrite decide_False by naive_solver|]. by rewrite lookup_delete_eq, decide_True.
    - rewrite decide_False by naive_solver. destruct (remove_error m); [done|]. by rewrite lookup_delete_ne. }
  pose proof (eq_refl : owns p n = ((pack_owned p = true ∧ n = pack p) ∨ (index_owned p = true ∧ n = index p))) as Ho.
  unfold fs_rollback_ingest. destruct (decide (owns p n ∧ _)) as [Hd|Hd]; rewrite Ho in Hd; clear Ho;
    destruct (pack_owned p), (index_owned p); rewrite ?Hr; repeat case_decide; naive_solver.
Qed.

(** Rolling back right after an ingest restores the pack directory, but for files of the push
    that cannot be removed. *)
Lemma rollback_restores staged files p files' :
  fs_ingest_pack staged files = (Ok (Some p), files') →
  ∀ n, fs_rollback_ingest p files' !! n = files !! n ∨
       owns p n ∧ is_Some (remove_error n) ∧ files !! n = None.
Proof.
  intros (Hne & Hp & Hi & Hpo & Hio & Hp' & Hi' & Hother)%ingest_spec n.
  assert (owns p n → files !! n = None) as Hnone by (intros [[? ->]|[? ->]]; [by apply Hpo|by apply Hio]).
  rewrite lookup_rollback. case_decide as Hd; [left; symmetry; tauto|].
  destruct (decide (owns p n)) as [Ho|Ho].
  { right. split_and!; [done| |auto]. destruct (remove_error n) eqn:E; [by eexists|]. by destruct Hd. }
  left. unfold owns in Ho. destruct (decide (n = pack p)) as [->|Hn1]; [apply Hp'; destruct (pack_owned p); naive_solver|].
  destruct (decide (n = index p)) as [->|Hn2]; [apply Hi'; destruct (index_owned p); naive_solver|by apply Hother].
Qed.

Lemma ingest_nothing staged files files' : fs_ingest_pack staged files = (Ok None, files') → files' = files.
Proof.
  unfold fs_ingest_pack. destruct staging_error; [done|]. destruct (_ =? 0); [by intros [= <-]|].
  destruct (context _ _) as [written|]; [|done]. destruct (last_with (b! "pack") written); [|done]. destruct (last_with (b! "idx") written); [|done].
  by repeat match goal with |- context [install ?a ?b ?c] => destruct (install a b c) as [[]] end.
Qed.

(** Rolling back right after an ingest whose files can be removed restores the pack directory,
    and a rollback at any later time touches no file that was there before the ingest. *)
Theorem rollback_scope staged files p files' :
  fs_ingest_pack staged files = (Ok (Some p), files') →
  ((∀ n, owns p n → remove_error n = None) → fs_rollback_ingest p files' = files) ∧
  ∀ later n, is_Some (files !! n) → fs_rollback_ingest p later !! n = later !! n.
Proof.
  intros Hi. split.
  - intros Hr. apply map_eq. intros n. destruct (rollback_restores _ _ _ _ Hi n) as [|(Ho & [e He] & _)]; [done|].
    by rewrite (Hr n Ho) in He.
  - apply ingest_spec in Hi as (_ & _ & _ & Hpo & Hio & _).
    intros later n [x Hn]. rewrite lookup_rollback, decide_False; [done|].
    intros [[[Ho%Hpo ->]|[Ho%Hio ->]] _]; congruence.
Qed.

(** (C39) When the same pack is pushed again before the first push is denied, the second push
    owns no file, and the rollback of the first removes the pack it relies on, as far as the
    file system lets it. *)
Theorem rollback_removes_shared_pack staged files a b files1 files2 :
  fs_ingest_pack staged files = (Ok (Some a), files1) → files !! pack a = None → files !! index a = None →
  write_to_directory staged files1 = write_to_directory staged files →
  fs_ingest_pack staged files1 = (Ok (Some b), files2) →
  files2 = files1 ∧ pack b = pack a ∧ index b = index a ∧ pack_owned b = false ∧ index_owned b = false ∧
  (remove_error (pack b) = None → fs_rollback_ingest a files2 !! pack b = None) ∧
  (remove_error (index b) = None → fs_rollback_ingest a files2 !! index b = None).
Proof.
  intros Ha Hnp Hni Hw Hb.
  assert (pack b = pack a ∧ index b = index a) as [Ep Ei].
  { revert Ha Hb. unfold fs_ingest_pack. destruct staging_error; [done|]. destruct (_ =? 0); [done|]. rewrite Hw.
    destruct (context _ _) as [written|]; [|done]. destruct (last_with (b! "pack") written); [|done]. destruct (last_with (b! "idx") written); [|done].
    repeat match goal with |- context [install ?a ?b ?c] => destruct (install a b c) as [[]] end; try done. by intros [= <- _] [= <- _]. }
  pose proof (ingest_spec _ _ _ _ Ha) as (Hne & Hp & Hi & Hpo & Hio & _).
  pose proof (ingest_spec _ _ _ _ Hb) as (_ & _ & _ & Hpo' & Hio' & Hp' & Hi' & Hother). rewrite Ep, Ei in *.
  assert (pack_owned b = false) as Ob by (destruct (pack_owned b); [|done]; rewrite (proj1 Hpo' eq_refl) in Hp; by apply is_Some_None in Hp).
  assert (index_owned b = false) as Oi by (destruct (index_owned b); [|done]; rewrite (proj1 Hio' eq_refl) in Hi; by apply is_Some_None in Hi).
  split_and!; try done.
  - apply map_eq. intros n. destruct (decide (n = pack a)) as [->|?]; [auto|]. destruct (decide (n = index a)) as [->|?]; auto.
  - intros Hr. rewrite lookup_rollback, decide_True; [done|]. split; [|done]. left. split; [by apply Hpo|done].
  - intros Hr. rewrite lookup_rollback, decide_True; [done|]. split; [|done]. right. split; [by apply Hio|done].
Qed.
End ingest_facts.

(** ** The three ways to answer a fetch *)

Section fetch_facts.
Context `{GixHash} {gix_bitmap : GixBitmap} {files : PackFiles} {odb : GixOdb} {laws : GixOdbLaws}.
Variable closure : ObjectId → gset ObjectId.

(** A repository without submodules and with sound sidecar files: [closure] is what is
    reachable from a commit, every commit of [U] can be read, and the bitmaps are those of
    commits. *)
Record sound_repo (U : gset ObjectId) (paths : list bytes) : Prop := {
  sr_closure o x : x ∈ closure o ↔ client_has [o] x;
  sr_kinds : well_kinded;
  sr_intact c : c ∈ U → intact_commit c;
  sr_parents c p : c ∈ U → p ∈ odb_parents c → p ∈ U;
  sr_apart (have : list ObjectId) c : c ∈ U → client_has have c → reached_from odb_parents have c;
  sr_sidecars : sidecars_describe closure paths;
  sr_indexed path i b o : path ∈ paths → index_at path = Ok i → load path (num_objects i) = Ok (Some b) →
    o ∈ indexed_commits i b → is_direct o = false }.

Section sound.
Context (U : gset ObjectId) (paths : list bytes) (sound : sound_repo U paths).

Lemma elem_of_closures l x : x ∈ closures closure l ↔ client_has l x.
Proof.
  unfold closures, client_has. rewrite elem_of_union_list. setoid_rewrite list_elem_of_fmap. split.
  - intros (s & (o & -> & Ho) & (c & (f & ->%list_elem_of_singleton & Hr) & Hc)%(sr_closure _ _ sound)). exists c.
    split; [by exists o|done].
  - intros (c & (f & Hf & Hr) & Hc). exists (closure f). split; [eauto|]. apply (sr_closure _ _ sound). exists c.
    split; [by apply reached_from_one|done].
Qed.

Lemma intact_no_kids skip c : intact_commit c → sent_kids skip c = [].
Proof. intros (data & t & Ef & _). unfold sent_kids, tree_entries. by rewrite Ef. Qed.

Lemma client_has_closed (have : list ObjectId) (S : gset ObjectId) skip :
  (∀ c, c ∈ have → c ∈ U) → (∀ o, o ∈ S ↔ client_has have o) → known_closed S skip.
Proof.
  intros Hh HS o p (c & Hc & [->|(t & Ht & Hr)])%HS Hp.
  - rewrite intact_no_kids in Hp; [by apply elem_of_nil in Hp|]. apply (sr_intact _ _ sound).
    by apply (reached_in U have); [apply sound| |].
  - apply HS. exists c. split; [done|]. right. exists t. split; [done|]. eapply rtc_r; [done|]. by eapply sent_kids_all.
Qed.

Lemma first_bitmap_spec have :
  match first_bitmap paths have with
  | None => False
  | Some None => True
  | Some (Some s) => ∀ o, o ∈ s ↔ client_has have o
  end.
Proof.
  assert (∀ p, p ∈ paths → p ∈ paths) as Hsub by done. revert Hsub. generalize paths at 1 3 as l. intros l.
  induction l as [|p l IH]; intros Hsub; cbn [first_bitmap]; [done|].
  specialize (IH ltac:(set_solver)). destruct (decide _); [done|].
  unfold try_single_pack_bitmap. destruct (index_at p) as [i|] eqn:Ei; [|done].
  destruct (load p (num_objects i)) as [[b|]|] eqn:El; [|done..].
  pose proof (sr_sidecars _ _ sound p i b ltac:(set_solver) Ei El) as Hb.
  rewrite (index_oids_total closure _ _ Hb). cbn [mbind option_bind].
  rewrite (have_reachable_spec closure _ _ _ (load_fresh _ _ _ El) Hb). cbn [mbind option_bind].
  destruct (decide _); [apply elem_of_closures|done].
Qed.

Lemma generate_spec fuel pack_dir want have opts :
  fs_read_dir pack_dir = DirEntries paths → (∀ o, o ∈ want → tree_entries o = []) →
  (∀ c, c ∈ commit_wants want ++ have → c ∈ U) → (size U < fuel)%nat →
  ∃ objs sh, generate fuel pack_dir want have opts = Some (Ok (Generate objs (po_thin_pack opts) sh)) ∧
    exactly want have (po_deepen opts) (po_filter opts) (.∈ objs) ∧
    (∀ c, c ∈ sh ↔ cut_off want have (po_deepen opts) c).
Proof.
  intros Hdir Hnt Htips Hf. unfold generate, try_bitmap_have_set.
  assert (∀ c, c ∈ have → c ∈ U) as Hh by set_solver.
  assert (match match have with [] => Some (Some ∅) | _ => match fs_read_dir pack_dir with DirEntries paths => first_bitmap paths have | _ => Some None end end with
          | None => False | Some None => True | Some (Some s) => ∀ o, o ∈ s ↔ client_has have o end) as Hs.
  { destruct have as [|h have']; [|rewrite Hdir; apply first_bitmap_spec]. intros o. split; [set_solver|].
    by intros (c & (f & ?%elem_of_nil & _) & _). }
  destruct (match have with [] => _ | _ => _ end) as [set|]; [|done].
  assert (∃ known, (∀ o, o ∈ known ↔ client_has have o) ∧
            select_for fuel want have opts set = objects_for_fetch_with_have_set fuel want have (po_deepen opts) (po_filter opts) known)
    as (known & Hk & ->).
  { destruct set as [s|]; [by exists s|]. cbn [select_for]. unfold objects_for_fetch_filtered.
    destruct (build_have_set_total have) as [known Ek].
    { intros c Hc. apply (sr_intact _ _ sound). by apply (reached_in U have); [apply sound| |]. }
    exists known. rewrite Ek. split; [|done]. by apply (build_have_set_spec (sr_kinds _ _ sound)) in Ek as [? _]. }
  destruct (with_have_set_total U fuel want have (po_deepen opts) (po_filter opts) known) as [po E];
    [apply sound|apply sound|done|done|].
  rewrite E. unfold stream_objects. exists (objects po), (shallow po). split; [done|].
  eapply with_have_set_spec in E as [Ho ?]; [|apply sound|done|done|intros skip; by eapply client_has_closed].
  split; [by apply walked_exactly|done].
Qed.

(** A pack that is reusable holds what the request asks for. *)
Lemma reusable_requested want have path :
  path ∈ paths → (∀ c, c ∈ commit_wants want ++ have → c ∈ U) → reusable closure want have path →
  ∃ i, index_at path = Ok i ∧ ∀ o, o ∈ Bitmap.pack_objects i ↔ requested want have None None o.
Proof.
  intros Hp Htips (_ & i & b & Ei & El & Hall & Hobj). exists i. split; [done|]. rewrite Hobj.
  assert (∀ w, w ∈ want → is_direct w = false) as Hcommits.
  { intros w Hw. apply (sr_indexed _ _ sound path i b w Hp Ei El). rewrite Forall_forall in Hall. apply Hall. set_solver. }
  assert (∀ c, reached_from odb_parents (commit_wants want) c ↔ reached_from odb_parents want c) as Hreach.
  { intros c. unfold reached_from, commit_wants. setoid_rewrite list_elem_of_filter. naive_solver. }
  intros o. rewrite elem_of_difference, !elem_of_closures. unfold requested, with_contents, to_send. setoid_rewrite Hreach. split.
  - intros [(c & Hc & Ho) Hn]. right. exists c. split.
    + split; [done|]. intros Hh. apply Hn. by exists c.
    + destruct Ho as [->|Ho]; [by left|by right].
  - intros [[Hw Hd]|(c & [Hc Hn] & Ho)]; [rewrite Hcommits in Hd by done; done|].
    destruct Ho as [->|(_ & Ho & Hno)]; (split; [exists c; split; [done|]|]); [by left| |by right|done].
    intros Hh. apply Hn, (sr_apart _ _ sound); [|done].
    apply (reached_in U (commit_wants want)); [apply sound|set_solver|by apply Hreach].
Qed.
End sound.

(** (C14) Over a repository whose commits are intact, without submodules, whose sidecar files
    describe their packs, and for wants that are not trees, each of the three ways to answer
    a fetch (a stored pack as it is, the have set from a bitmap, the full walk) gives exactly
    the requested objects, and with a depth the commits sent again besides; it never panics,
    and fails only on an unreadable file. *)
Theorem fs_build_pack_exact U paths fuel pack_dir want have opts :
  sound_repo U paths → fs_read_dir pack_dir = DirEntries paths → (∀ o, o ∈ want → tree_entries o = []) →
  (∀ c, c ∈ commit_wants want ++ have → c ∈ U) → (size U < fuel)%nat →
  match fs_build_pack fuel pack_dir want have opts with
  | None => False
  | Some (Ok (ShipAsIs p)) =>
      po_deepen opts = None ∧ po_filter opts = None ∧
      ∃ path i, path ∈ paths ∧ p = with_extension path (b! "pack") ∧ index_at path = Ok i ∧
        ∀ o, o ∈ Bitmap.pack_objects i ↔ requested want have None None o
  | Some (Ok (Generate objs thin sh)) =>
      exactly want have (po_deepen opts) (po_filter opts) (.∈ objs) ∧
      (∀ c, c ∈ sh ↔ cut_off want have (po_deepen opts) c) ∧ thin = po_thin_pack opts
  | Some (Err _) => ∃ path, path ∈ paths ∧
      (unreadable path ∨ ∃ e, fs_read_file (with_extension path (b! "pack")) = Err e)
  end.
Proof.
  intros Hsound Hdir Hnt Htips Hf. unfold fs_build_pack.
  destruct (generate_spec U paths Hsound fuel pack_dir want have opts Hdir Hnt Htips Hf) as (objs & sh & Hg & Ho & Hs).
  destruct (_ && _ && _) eqn:Eplain; [|by rewrite Hg].
  apply andb_true_iff in Eplain as [[Ed Ef]%andb_true_iff _]. apply bool_decide_eq_true in Ed, Ef.
  unfold find_reusable_pack. destruct want as [|w want']; [by rewrite Hg|]. rewrite Hdir.
  pose proof (first_reusable_spec closure paths (w :: want') have ltac:(done) (sr_sidecars _ _ Hsound)) as Hr.
  destruct (first_reusable paths (w :: want') have) as [[[pk|]|e]|]; [|by rewrite Hg|naive_solver|done].
  destruct Hr as (path & Hp & Hr & ->). unfold ship_pack_as_is, context.
  destruct (fs_read_file _) as [contents|e] eqn:Er; cbn; [|eauto].
  destruct (reusable_requested U paths Hsound _ have path Hp Htips Hr) as (i & Ei & Hi). eauto 10.
Qed.
End fetch_facts.
