(* ===== verification/FsBackend.v ===== *)
(** * The gitoxide backend as a storage backend ([impl StorageBackend for FsGitoxide], [backend/fs_gitoxide.rs])

    The operations of [FsGitoxide] on a disk of repositories, as an instance of the trait.
    The instance keeps what every backend promises of refs, and the laws of reads and of
    the commit graph; of the documented all-or-nothing pushes it keeps what gitoxide gives:
    a push that fails while it is committed may have been applied in part. *)

From stdpp Require Import base gmap list sorting strings.
From Stdlib Require Import Strings.Byte NArith Lia.
From S2P Require Import Prelude Bytes Gix Proto Types Handlers Sigverify Auth Serve Graph Inspect PackTools Dense Bitmap PackWalk FsStream FsGitoxide.
Open Scope N_scope.

(** A repository on disk: its refs and the files of its pack directory. *)
Record FsRepo `{GixHash} := { dir_refs : ref_store; dir_files : pack_files }.

Abbreviation FsDisk :=
  (@gmap bytes (@list_eq_dec byte byte_eq_dec) (@list_countable byte byte_eq_dec byte_countable) FsRepo).

(** gitoxide on the repositories of a disk: its crates answer from the path of a repository
    (with the objects that are not in packs) and the files of its pack directory. *)
Class Gitoxide `{GixHash} := {
  gx_refs : bytes → pack_files → GixRefs;
  gx_odb : bytes → pack_files → GixOdb;
  gx_walks : bytes → pack_files → GixRepo;
  gx_packs : bytes → pack_files → PackFiles;
  (** [gix::open]. *)
  gx_open : bytes → FsDisk → option error;
  (** What initialising a repository answers, and the disk after it. *)
  gx_init : FsDisk → GixInit;
  gx_initialised : bytes → FsDisk → FsDisk;
  (** Opening a bundle whose pack is not there. *)
  gx_no_bundle : error;
  (** The pack iterator over selected objects, and the progress by each poll. *)
  gx_pack_steps : bytes → pack_files → list ObjectId → bool → list Channel.step_result;
  gx_progress : bytes → pack_files → list ObjectId → bool → list (list bytes);
  (** Reading a file into a buffer of [MAX_SIDEBAND] bytes until its end. *)
  gx_file_reads : bytes → list (result error bytes);
  (** No repository has more commits than this. *)
  gx_commits : bytes → pack_files → nat }.

Section backend.
Context `{GixObject} {gix_pack : GixPack} {gix_bitmap : GixBitmap} {bundle : GixBundle} {gx : Gitoxide}.

Definition dir (path : bytes) (d : FsDisk) : FsRepo := default {| dir_refs := ∅; dir_files := ∅ |} (d !! path).
Definition files_at (path : bytes) (d : FsDisk) : pack_files := dir_files (dir path d).
Definition refs_in (path : bytes) (d : FsDisk) : ref_store := dir_refs (dir path d).

Definition set_refs (path : bytes) (refs : ref_store) (d : FsDisk) : FsDisk :=
  alter (λ x, {| dir_refs := refs; dir_files := dir_files x |}) path d.
Definition set_files (path : bytes) (files : pack_files) (d : FsDisk) : FsDisk :=
  alter (λ x, {| dir_refs := dir_refs x; dir_files := files |}) path d.

(** [open]: the handle is the path. *)
Definition gx_open_repo (path : bytes) : ST FsDisk bytes := fun d =>
  match gx_open path d with Some e => (Err e, d) | None => (Ok path, d) end.

Definition gx_init_repo (path : bytes) : ST FsDisk () := fun d =>
  let r := fs_init_repo (init := gx_init d) path in
  (r, match init_bare (GixInit := gx_init d) path, r with None, Ok _ => gx_initialised path d | _, _ => d end).

Definition gx_update_refs (path : bytes) (updates : list RefUpdate) : ST FsDisk () := fun d =>
  let '(r, refs) := fs_update_refs (gix_refs := gx_refs path (files_at path d)) updates (refs_in path d) in
  (r, set_refs path refs d).

(** An ingested pack, with the repository it went to. *)
Definition gx_ingest_pack (path : bytes) (staged_pack : PackFile) : ST FsDisk (option (bytes * FsWrittenPack)) := fun d =>
  let '(r, files) := fs_ingest_pack (pf_pack staged_pack) (files_at path d) in
  (match r with Ok p => Ok (pair path <$> p) | Err e => Err e end, set_files path files d).

(** [inspect_ingested]. *)
Definition gx_inspect (p : bytes * FsWrittenPack) : ST FsDisk PackMetadata := fun d =>
  (match files_at p.1 d !! pack p.2 with
   | Some data =>
       inspect_pack {| pf_path := pack p.2; pf_pack := data; pf_idx := files_at p.1 d !! with_extension (pack p.2) (b! "idx") |}
   | None => Err (Context (b! "opening pack bundle") gx_no_bundle)
   end, d).

Definition gx_rollback (p : bytes * FsWrittenPack) (d : FsDisk) : FsDisk :=
  set_files p.1 (fs_rollback_ingest p.2 (files_at p.1 d)) d.

(** What the response reads of a pack: the file that is shipped, or the chunks of the
    thread that generates one, in reads of at most [n] bytes. *)
Fixpoint reader_reads (fuel n : nat) (r : PackReader.PackReader) : list (result error bytes) :=
  match fuel with
  | O => []
  | S fuel =>
      match PackReader.read n r with
      | (Ok [], _) => [Ok []]
      | (Err e, _) => [Err e]
      | (Ok got, r') => Ok got :: reader_reads fuel n r'
      end
  end.

Definition stream_reader (steps : list Channel.step_result) : PackReader.PackReader :=
  {| PackReader.rx := Channel.chunks_of steps; PackReader.current := []; PackReader.thread := Some (Channel.outcome_of steps) |}.

Definition stream_output (path : bytes) (files : pack_files) (objects : list ObjectId) (thin : bool) (shallow : list ObjectId) : PackOutput :=
  let r := stream_reader (gx_pack_steps path files objects thin) in
  {| out_reader := reader_reads (S (length (PackReader.unread r))) (N.to_nat MAX_SIDEBAND) r; out_shallow := shallow;
     out_progress := Some (gx_progress path files objects thin) |}.

Definition pack_dir (path : bytes) : bytes := path ++ b! "/objects/pack".

(** [build_pack].  A panic of the search ends the request; the first case stands for it. *)
Definition gx_build_pack (path : bytes) (want have : list ObjectId) (opts : PackOptions) : ST FsDisk PackOutput := fun d =>
  let files := files_at path d in
  (match fs_build_pack (files := gx_packs path files) (odb := gx_odb path files) (S (gx_commits path files)) (pack_dir path) want have opts with
   | None => Err (Msg (b! "panicked"))
   | Some (Err e) => Err e
   | Some (Ok (ShipAsIs p)) =>
       data ← fs_read_file (PackFiles := gx_packs path files) p;
       Ok {| out_reader := gx_file_reads data; out_shallow := []; out_progress := None |}
   | Some (Ok (Generate objects thin shallow)) => Ok (stream_output path files objects thin shallow)
   end, d).

(** A read of a repository. *)
Definition reads {A} (path : bytes) (f : pack_files → ref_store → result error A) : ST FsDisk A := fun d =>
  (f (files_at path d) (refs_in path d), d).

#[export] Instance gitoxide_backend : StorageBackend := {|
  store := FsDisk;
  RepoId := bytes;
  Repo := bytes;
  IngestedPack := bytes * FsWrittenPack;
  sb_open := gx_open_repo;
  sb_list_refs p := reads p (λ f, fs_list_refs (gix_refs := gx_refs p f));
  sb_resolve_ref p refname := reads p (λ f refs, fs_resolve_ref (gix_refs := gx_refs p f) refs refname);
  sb_update_refs := gx_update_refs;
  sb_init_repo := gx_init_repo;
  sb_has_objects p oids := reads p (λ f _, Ok (fs_has_objects (odb := gx_odb p f) oids));
  sb_compute_push_kind p u d := (fs_compute_push_kind (odb := gx_odb p (files_at p d)) u, d);
  sb_build_pack := gx_build_pack;
  sb_ingest_pack := gx_ingest_pack;
  sb_inspect_ingested := gx_inspect;
  sb_rollback_ingest := gx_rollback;
  sb_reachable_excluding p from excluding cap d :=
    (fs_reachable_excluding (gix_repo := gx_walks p (files_at p d)) from excluding cap, d);
  sb_tree_diff p parent_tree child_tree :=
    reads p (λ f _, fs_tree_diff (gix_repo := gx_walks p f) parent_tree child_tree);
  sb_read_commit_info p oid := reads p (λ f _, fs_read_commit_info (odb := gx_odb p f) oid);
  sb_read_blob p oid cap := reads p (λ f _, fs_read_blob (odb := gx_odb p f) oid cap);
  sb_read_object_raw p oid cap := reads p (λ f _, fs_read_object_raw (odb := gx_odb p f) oid cap);
|}.
End backend.

(** ** What a push may do *)

(** What a ref is, by an object id of an update: null says that there is none. *)
Definition value_of `{GixHash} (o : ObjectId) : option ObjectId := if is_null o then None else Some o.

(** Updates of which some were applied: each ref is as it was, or it had the old value of
    its update and has the new one, or its update is from null to null and it is gone,
    whatever it was. *)
Definition partial_push `{GixHash} (us : list RefUpdate) (m m' : gmap bytes ObjectId) : Prop :=
  NoDup (refname <$> us) ∧
  ∀ n, m' !! n = m !! n ∨
    ∃ u, u ∈ us ∧ refname u = n ∧
      (m !! n = value_of (old_oid u) ∧ m' !! n = value_of (new_oid u) ∨ void u ∧ m' !! n = None).

(** What gitoxide documents: transactions as in [GixRefsLaws], of which one that fails to
    commit may have been performed in part; a repository is initialised where there is none;
    and a topological walk of commits is complete when none of its items is an error. *)
Class GitoxideLaws `{GixHash} {gx : Gitoxide} := {
  gx_refs_laws path files :: GixRefsLaws (gix_refs := gx_refs path files);
  gx_commit path files edits refs r refs' :
    prepare (GixRefs := gx_refs path files) edits refs = Ok () →
    commit (GixRefs := gx_refs path files) edits refs = (r, refs') →
    ∀ n, refs' !! n = refs !! n ∨ ∃ e, e ∈ edits ∧ edit_name e = n ∧ refs' !! n = apply_edit refs e !! n;
  gx_initialised_refs path d r :
    init_bare (GixInit := gx_init d) path = None →
    object_refs (refs_in r (gx_initialised path d)) = object_refs (refs_in r d);
  gx_topo path files from excluding items l :
    topo_walk (GixRepo := gx_walks path files) from excluding = Ok items → mapM (λ r, r) items = Ok l →
    ∀ o, o ∈ l ↔ reached_from (odb_parents (odb := gx_odb path files)) from o ∧
                 ¬ reached_from (odb_parents (odb := gx_odb path files)) excluding o }.

Section contract.
Context `{GixObject} {gix_pack : GixPack} {gix_bitmap : GixBitmap} {bundle : GixBundle} {gx : Gitoxide} {laws : GitoxideLaws}.
Implicit Types (d : FsDisk) (us : list RefUpdate).

Lemma refs_in_set_refs r path refs d :
  refs_in r (set_refs path refs d) = refs_in r d ∨ r = path ∧ refs_in r (set_refs path refs d) = refs.
Proof.
  unfold refs_in, dir, set_refs. destruct (decide (r = path)) as [->|Hn]; [|left; by rewrite lookup_alter_ne].
  rewrite lookup_alter_eq. destruct (d !! path); [by right|by left].
Qed.

Lemma refs_in_set_files r path files d : refs_in r (set_files path files d) = refs_in r d.
Proof.
  unfold refs_in, dir, set_files. destruct (decide (r = path)) as [->|Hn]; [|by rewrite lookup_alter_ne].
  rewrite lookup_alter_eq. by destruct (d !! path).
Qed.

Lemma set_files_same path d : set_files path (files_at path d) d = d.
Proof.
  apply map_eq. intros r. unfold set_files, files_at, dir. destruct (decide (r = path)) as [->|Hn]; [|by rewrite lookup_alter_ne].
  rewrite lookup_alter_eq. by destruct (d !! path) as [[]|].
Qed.

Lemma set_files_twice path files files' d : set_files path files (set_files path files' d) = set_files path files d.
Proof.
  apply map_eq. intros r. unfold set_files. destruct (decide (r = path)) as [->|Hn]; [|by rewrite !lookup_alter_ne].
  rewrite !lookup_alter_eq. by destruct (d !! path).
Qed.

(** An edit that found what it expects, as an update. *)
Lemma edit_value (refs : ref_store) u :
  expected_met refs (refname u) (edit_expected (edit_of u)) →
  object_refs refs !! refname u = value_of (old_oid u) ∧ object_refs (apply_edit refs (edit_of u)) !! refname u = value_of (new_oid u) ∨
  void u ∧ object_refs (apply_edit refs (edit_of u)) !! refname u = None.
Proof.
  unfold edit_of, ref_change, apply_edit, edit_expected, void, value_of. rewrite !lookup_object_refs.
  destruct (is_null (new_oid u)) eqn:En, (is_null (old_oid u)) eqn:Eo; cbn [change edit_name expected_met];
    rewrite ?is_null_true, ?is_null_false in *; rewrite ?lookup_delete_eq, ?lookup_insert_eq; intros He;
    first [by right|left; by rewrite He].
Qed.

Lemma fs_update_effect path files us refs x refs' :
  fs_update_refs (gix_refs := gx_refs path files) us refs = (x, refs') →
  refs' = refs ∨ partial_push us (object_refs refs) (object_refs refs').
Proof.
  unfold fs_update_refs. destruct (mapM ref_edit us) as [edits|] eqn:Em; [|intros [= _ <-]; by left].
  apply mapM_ref_edit in Em as [-> _]. destruct committer_error; [intros [= _ <-]; by left|].
  destruct (prepare _ refs) as [[]|] eqn:Ep; [|intros [= _ <-]; by left].
  destruct (commit _ refs) as [r refs''] eqn:Ec. intros [= _ <-]. right.
  pose proof (gx_commit _ _ _ _ _ _ Ep Ec) as Hc. apply prepare_Ok in Ep as (_ & Hnd & Hmet).
  rewrite <- list_fmap_compose in Hnd. split; [exact Hnd|]. intros n. rewrite !lookup_object_refs.
  destruct (Hc n) as [->|(e & (u & -> & Hu)%list_elem_of_fmap & <- & ->)]; [by left|right].
  rewrite Forall_fmap, Forall_forall in Hmet. destruct (Hmet u Hu) as [_ Hm]. apply edit_value in Hm.
  exists u. split_and!; [done|done|]. rewrite !lookup_object_refs in Hm. exact Hm.
Qed.

(** The gitoxide backend keeps what every backend promises of refs. *)
#[export, refine] Instance gitoxide_refs : RefsLaws := {
  refs_view (path : Repo) (d : store) := object_refs (refs_in path d);
  RepoTag := bytes;
  repo_tag (path : Repo) := path;
  ref_effect := partial_push;
  ingested _ := True;
}.
Proof.
  - by intros r r' d <-.
  - intros r us d x d'. cbn. unfold gx_update_refs.
    destruct (fs_update_refs us (refs_in r d)) as [y refs] eqn:E. intros [= _ <-].
    destruct (refs_in_set_refs r r refs d) as [->|[_ ->]]; [by left|].
    destruct (fs_update_effect _ _ _ _ _ _ E) as [->|He]; auto.
  - intros m m' [_ Hm]. apply map_eq. intros n. destruct (Hm n) as [|(u & Hu & _)]; [done|]. by apply elem_of_nil in Hu.
  - intros r us d x d' r'. cbn. unfold gx_update_refs.
    destruct (fs_update_refs us (refs_in r d)) as [y refs]. intros [= _ <-] Hne.
    by destruct (refs_in_set_refs r' r refs d) as [->|[-> _]].
  - done.
  - intros p d r _. cbn. unfold gx_rollback. by rewrite refs_in_set_files.
  - intros path d r. cbn. unfold gx_open_repo. by destruct (gx_open path d).
  - done.
  - done.
  - intros path d r. cbn. unfold gx_init_repo. destruct (init_bare path) eqn:Ei; [done|].
    destruct (fs_init_repo path); [by apply gx_initialised_refs|done].
  - done.
  - done.
  - done.
  - intros r' staged d r. cbn. unfold gx_ingest_pack. destruct (fs_ingest_pack _ _). cbn. by rewrite refs_in_set_files.
  - done.
  - done.
  - done.
  - done.
  - done.
  - done.
Defined.

#[export] Instance gitoxide_read_only : ReadOnlyLaws.
Proof. by split. Qed.

Lemma take_capped_Ok cap out items l :
  take_capped cap out items = Ok l → ∃ l', mapM (λ r, r) items = Ok l' ∧ l = out ++ l' .
Proof.
  revert out l; induction items as [|[id|e] items IH]; intros out l; cbn; [|destruct (cap <=? len out)|done].
  - intros [= <-]. exists []. by rewrite app_nil_r.
  - done.
  - intros (l' & -> & ->)%IH. exists (id :: l'). by rewrite <- app_assoc.
Qed.

#[export, refine] Instance gitoxide_graph : GraphLaws :=
  { graph_view (path : Repo) (d : store) := odb_parents (odb := gx_odb path (files_at path d)) }.
Proof.
  - intros r from excluding cap d l d' [Hr _]%pair_equal_spec. unfold fs_reachable_excluding in Hr.
    destruct (topo_walk from excluding) as [items|] eqn:Et; [|done].
    apply take_capped_Ok in Hr as (l' & Hl & ->). cbn [app]. by eapply gx_topo.
  - intros r o d ci d' [Hr _]%pair_equal_spec. cbv beta delta [fs_read_commit_info] in Hr.
    apply result_bind_Ok in Hr as (x & _ & (y & _ & Hr)%result_bind_Ok). case_decide; [|done]. by eapply parse_commit_info_oid.
Defined.
End contract.

(** ** Fetches *)

Section fetches.
Context `{GixHash} {gx : Gitoxide}.

Lemma take_fits (n : nat) (l : bytes) : (length (take n l) ≤ n)%nat.
Proof. rewrite length_take. lia. Qed.

(** What the response reads of a generated pack: the chunks of the thread, in pieces that
    fit a packet, and whether the thread ended well. *)
Lemma reader_reads_data n r fuel :
  (0 < n)%nat → (length (PackReader.unread r) < fuel)%nat →
  reads_data (reader_reads fuel n r) = (PackReader.unread r, PackReader.clean_end r).
Proof.
  intros Hn. revert r; induction fuel as [|fuel IH]; intros r Hf; [lia|]. cbn [reader_reads].
  pose proof (PackReader.read_spec n r Hn) as Hr. destruct (PackReader.read n r) as [[[|x got]|e] r'].
  - by destruct Hr as [(_ & -> & ->)|[? _]].
  - destruct Hr as [[? _]|(_ & E & <-)]; [done|]. cbn [reads_data]. rewrite IH; [by rewrite E|].
    rewrite E, length_app in Hf. cbn [length] in Hf. lia.
  - by destruct Hr as [-> ->].
Qed.

Lemma stream_output_data path files objects thin shallow :
  let steps := gx_pack_steps path files objects thin in
  reads_data (out_reader (stream_output path files objects thin shallow)) =
  (concat (Channel.chunks_of steps), PackReader.clean_end (stream_reader steps)).
Proof.
  cbv zeta. cbn [out_reader stream_output]. rewrite reader_reads_data; [done|unfold MAX_SIDEBAND; lia|lia].
Qed.
End fetches.

(** ** Pushes over HTTP and SSH *)

Section pushes.
Context `{GixObject} {gix_pack : GixPack} {gix_bitmap : GixBitmap} {bundle : GixBundle} {gx : Gitoxide} {laws : GitoxideLaws}.
Context {access : RepoAccess (H0 := gitoxide_backend)} {transport : Transport}.

(** (C8) On the gitoxide backend a push over HTTP or SSH, however it ends, leaves the refs that
    hold objects, of every repository, alone unless the forge accepted its updates; then each
    is as it was, or had the old value of its update and has the new one, or was deleted by
    an accepted update from null to null, which gitoxide performs whatever the value. *)
Theorem gitoxide_push limits body (d : store) w :
  let pushed d2 := ∀ r, object_refs (refs_in r d2) = object_refs (refs_in r d) ∨
    ∃ us, accepted limits body us r ∧ partial_push us (object_refs (refs_in r d)) (object_refs (refs_in r d2)) in
  (∀ resp d1 t, returned (recv_pack_post limits body) d = (Some resp, d1) → reader resp = Some t → pushed (t (d1, w)).1) ∧
  pushed (returned (serve_receive_pack limits body) (d, w)).2.1.
Proof.
  cbv zeta. split.
  - intros resp d1 t Hh Ht r. destruct (t (d1, w)) as [d2 w2] eqn:E.
    destruct (http_push_refs _ _ _ _ _ _ _ _ _ Hh Ht E r) as [?|(us & repo & Ha & [= <-] & He)]; [by left|right; eauto].
  - intros r. destruct (returned _ (d, w)) as [o [d2 w2]] eqn:E.
    destruct (ssh_push_refs _ _ _ _ _ _ _ E r) as [?|(us & repo & Ha & [= <-] & He)]; [by left|right; eauto].
Qed.

Lemma build_push_refs_ro us repo (d : store) : (build_push_refs_async us repo d).2 = d.
Proof.
  revert d; induction us as [|u us IH]; intros d; [done|]. cbn. specialize (IH d).
  by destruct (build_push_refs_async us repo d).
Qed.

Lemma existing_ref_tips_ro repo prs (d : store) : (existing_ref_tips repo prs d).2 = d.
Proof. unfold existing_ref_tips. cbn. unfold reads. by destruct (fs_list_refs _). Qed.

(** The disk after a rollback: as before, but for files that the push put into the pack
    directory of its repository and that could not be removed. *)
Definition restored (wp : option (bytes * FsWrittenPack)) (d d' : FsDisk) : Prop :=
  (∀ r, refs_in r d' = refs_in r d ∧ (is_Some (d' !! r) ↔ is_Some (d !! r))) ∧
  (∀ r n, files_at r d' !! n = files_at r d !! n ∨
     ∃ p, wp = Some (r, p) ∧ owns p n ∧ is_Some (remove_error n) ∧ files_at r d !! n = None) ∧
  ((∀ p n, snd <$> wp = Some p → owns p n → remove_error n = None) → d' = d).

Lemma files_at_set r repo files d :
  files_at r (set_files repo files d) = files_at r d ∨ r = repo ∧ files_at r (set_files repo files d) = files.
Proof.
  unfold files_at, dir, set_files. destruct (decide (r = repo)) as [->|Hn]; [|left; by rewrite lookup_alter_ne].
  rewrite lookup_alter_eq. destruct (d !! repo); [by right|by left].
Qed.

Lemma restored_same wp d : restored wp d d.
Proof. split_and!; [done|by left|done]. Qed.

(** The pack directory of a repository, when nothing but files of the push differ. *)
Lemma restored_files repo p files d :
  (∀ n, files !! n = files_at repo d !! n ∨ owns p n ∧ is_Some (remove_error n) ∧ files_at repo d !! n = None) →
  restored (Some (repo, p)) d (set_files repo files d).
Proof.
  intros Hf. split_and!.
  - intros r. rewrite refs_in_set_files. split; [done|]. unfold set_files. apply lookup_alter_is_Some.
  - intros r n. destruct (files_at_set r repo files d) as [->|[-> ->]]; [by left|].
    destruct (Hf n) as [?|(? & ? & ?)]; [by left|right]. by exists p.
  - intros Hr. assert (files = files_at repo d) as ->; [|apply set_files_same]. apply map_eq. intros n.
    destruct (Hf n) as [|(Ho & [e He] & _)]; [done|]. by rewrite (Hr p n eq_refl Ho) in He.
Qed.

Lemma rollback_ingest repo staged (d : FsDisk) wp d' :
  gx_ingest_pack repo staged d = (Ok wp, d') → restored wp d (rollback wp d').
Proof.
  unfold gx_ingest_pack. destruct (fs_ingest_pack _ (files_at repo d)) as [[[p|]|] files] eqn:E; intros [= <- <-].
  - change (restored (Some (repo, p)) d (set_files repo (fs_rollback_ingest p (files_at repo (set_files repo files d))) (set_files repo files d))).
    rewrite set_files_twice. destruct (decide (is_Some (d !! repo))) as [[x Ed]|Ed%eq_None_not_Some].
    + assert (files_at repo (set_files repo files d) = files) as ->.
      { unfold files_at, dir, set_files. rewrite lookup_alter_eq. by destruct (d !! repo) eqn:?; simplify_eq. }
      apply restored_files. apply (rollback_restores _ _ _ _ E).
    + assert (∀ fs, set_files repo fs d = d) as ->; [|apply restored_same].
      intros fs. apply map_eq. intros r. unfold set_files. destruct (decide (r = repo)) as [->|Hn]; [|by rewrite lookup_alter_ne].
      rewrite lookup_alter_eq. by destruct (d !! repo) eqn:?; simplify_eq.
  - rewrite (ingest_nothing _ _ _ E), set_files_same. apply restored_same.
Qed.

(** (C9) A push over HTTP that the forge rejects after its pack was stored leaves the disk of
    the gitoxide backend as it was: every ref, every repository and every file, except for
    files of its own pack that the file system does not let go, which stay; if it lets them
    go, the disk is exactly the one before.  The future that reports the rejection changes
    nothing. *)
Theorem gitoxide_rejection_restores limits body (d : store) us ctx repo wp meta prs ex d6 d7 msg :
  reaches_auth limits body d us ctx repo wp meta prs ex d6 → us ≠ [] →
  run_comparison repo (default [] meta) prs ex default_options (ra_authorize_push ctx) d6 = (Some (Err msg), d7) →
  ∃ t d8, recv_pack_post limits body d = (Go (streaming (Some result_type) t), d8) ∧ restored wp d d8 ∧
       ∀ d' w, t (d', w) = (d', (write_all (reject_packets us msg) w).2).
Proof.
  intros Hra Hus Hrun.
  assert (restored wp d (rollback wp d7)) as Hd.
  { pose proof (run_comparison_ro repo (default [] meta) prs ex default_options (ra_authorize_push ctx) d6) as E7.
    rewrite Hrun in E7. cbn in E7. subst d7.
    destruct Hra as [(rest' & d2 & d3 & d4 & d5 & _ & _ & Ho & Hs & Hi & Hb & He)].
    pose proof (build_push_refs_ro us repo d4) as E5. rewrite Hb in E5. cbn in E5. subst d5.
    pose proof (existing_ref_tips_ro repo prs d4) as E6. rewrite He in E6. cbn in E6. subst d6.
    assert (d2 = d) as -> by (revert Ho; cbn; unfold gx_open_repo; destruct (gx_open _ d); [done|by intros [= _ <-]]).
    assert (d4 = d3) as ->.
    { revert Hi. unfold inspect_or_reject. destruct wp as [p|]; [|by intros [= _ <-]]. cbn [sb_inspect_ingested gitoxide_backend].
      change (gx_inspect p d3) with ((gx_inspect p d3).1, d3). destruct (gx_inspect p d3).1; [by intros [= _ <-]|done]. }
    revert Hs. unfold stage_and_ingest, mbind, ST_bind, lift. destruct (stage_pack _ _) as [[p|]|]; [|intros [= <- <-]; apply restored_same|done].
    apply rollback_ingest. }
  rewrite (recv_pack_post_verdict _ _ _ _ _ _ _ _ _ _ _ Hra), Hrun. eexists _, _. split; [done|]. split; [exact Hd|].
  intros d' w. destruct us as [|u us]; [done|]. apply spawn_write_run. apply (ng_report_packets (u :: us)).
Qed.
End pushes.
