(* ===== verification/GitPipes.v ===== *)
(** * The pipes of [has_objects] ([backend/fs_git_cli.rs])

    [has_objects] writes all its requests to [git cat-file --batch-check] before it reads
    the first answer.  The program answers each request before it takes the next
    ([--batch-check] without [--buffer] flushes every answer), and both directions go
    through pipes of bounded capacity. *)

From stdpp Require Import base list relations.
From Stdlib Require Import Lia.
From S2P Require Import Prelude.

Module BatchCheck.
Section pipes.

(** The number of requests, and how many lines the pipe to the program holds (with what the
    program reads ahead) and the pipe back. *)
Variables requests cap_in cap_out : nat.

(** Lines written to the program, taken by it, answered by it, and read back. *)
Record state := { written : nat; taken : nat; answered : nat; collected : nat }.

Definition start : state := {| written := 0; taken := 0; answered := 0; collected := 0 |}.

(** [writeln!] in the loop waits for room; [wait_with_output] reads once the standard input
    is dropped. *)
Inductive step : state → state → Prop :=
| step_write s :
    written s < requests → written s - taken s < cap_in →
    step s {| written := S (written s); taken := taken s; answered := answered s; collected := collected s |}
| step_take s :
    taken s = answered s → taken s < written s →
    step s {| written := written s; taken := S (taken s); answered := answered s; collected := collected s |}
| step_answer s :
    answered s < taken s → answered s - collected s < cap_out →
    step s {| written := written s; taken := taken s; answered := S (answered s); collected := collected s |}
| step_collect s :
    written s = requests → collected s < answered s →
    step s {| written := written s; taken := taken s; answered := answered s; collected := S (collected s) |}.

(** [has_objects] returns when every answer was read. *)
Definition returned (s : state) : Prop := collected s = requests.

Record sound (s : state) : Prop := {
  sound_collected : collected s ≤ answered s;
  sound_answered : answered s ≤ taken s ≤ S (answered s);
  sound_taken : taken s ≤ written s ≤ requests;
  sound_in : written s ≤ taken s + cap_in;
  sound_out : answered s ≤ collected s + cap_out;
  sound_order : written s < requests → collected s = 0;
  sound_full : cap_in + cap_out + 1 < requests → collected s = 0 }.

Lemma pipes_start : sound start.
Proof. constructor; cbn; lia. Qed.

Lemma pipes_step s s' : sound s → step s s' → sound s'.
Proof. intros [] Hs. destruct Hs; constructor; cbn in *; lia. Qed.

Lemma pipes_steps s s' : rtc step s s' → sound s → sound s'.
Proof. induction 1; [done|]. intros ?. eauto using pipes_step. Qed.

Definition work (s : state) : nat := (requests - written s) + (requests - taken s) + (requests - answered s) + (requests - collected s).

Lemma work_step s s' : sound s → step s s' → work s' < work s.
Proof. intros [] Hs. unfold work. destruct Hs; cbn in *; lia. Qed.

Lemma runs_end s : sound s → Acc (λ x y, step y x) s.
Proof.
  remember (work s) as n eqn:E. revert s E. induction (lt_wf n) as [n _ IH]. intros s -> Hs. constructor. intros s' Hstep.
  eapply IH; [by eapply work_step|done|by eapply pipes_step].
Qed.

(** (C21) Every run of [has_objects] against the program is finite.  If the requests fit, with
    the answer that the program holds, into the two pipes, no run gets stuck before every
    answer was read; otherwise no run ever gets to read an answer: each ends with the writer
    and the program waiting for each other. *)
Theorem batch_check_deadlock s :
  0 < cap_in → 0 < cap_out → rtc step start s →
  Acc (λ x y, step y x) s ∧
  (requests ≤ cap_in + cap_out + 1 → returned s ∨ ∃ s', step s s') ∧
  (cap_in + cap_out + 1 < requests → collected s = 0 ∧ written s < requests ∧
     ((∃ s', step s s') ∨ (written s = cap_in + cap_out + 1 ∧ taken s = cap_out + 1 ∧ answered s = cap_out))).
Proof.
  intros Hi Ho Hr. pose proof (pipes_steps _ _ Hr pipes_start) as Hs. split; [by apply runs_end|]. destruct Hs as [Hcol [Ha1 Ha2] [Ht1 Ht2] Hin Hout Hord Hfull]. unfold returned.
  assert ((∃ s', step s s') ∨
          (¬ (written s < requests ∧ written s - taken s < cap_in) ∧ ¬ (taken s = answered s ∧ taken s < written s) ∧
           ¬ (answered s < taken s ∧ answered s - collected s < cap_out) ∧ ¬ (written s = requests ∧ collected s < answered s)))
    as Hsteps.
  { destruct (decide (written s < requests ∧ written s - taken s < cap_in)) as [[]|]; [left; eexists; by constructor|].
    destruct (decide (taken s = answered s ∧ taken s < written s)) as [[]|]; [left; eexists; by apply step_take|].
    destruct (decide (answered s < taken s ∧ answered s - collected s < cap_out)) as [[]|]; [left; eexists; by apply step_answer|].
    destruct (decide (written s = requests ∧ collected s < answered s)) as [[]|]; [left; eexists; by apply step_collect|]. auto. }
  split.
  - intros Hn. destruct Hsteps as [?|(H1 & H2 & H3 & H4)]; [by right|left].
    destruct (decide (written s < requests)) as [Hw|Hw]; [specialize (Hord Hw)|]; lia.
  - intros Hn. assert (written s < requests) as Hw by (specialize (Hfull Hn); lia).
    split; [auto|]. split; [done|]. specialize (Hord Hw).
    destruct Hsteps as [?|(H1 & H2 & H3 & H4)]; [by left|right]. lia.
Qed.
End pipes.
End BatchCheck.
