(* ===== verification/FsGitCli.v ===== *)
(** * The git CLI backend ([backend/fs_git_cli.rs])

    Every operation runs the [git] program in the repository's directory and reads what it
    prints.  [git] is a parameter: a function of its arguments, its standard input and the
    state of the disk.  What is modelled is what the source makes of it: the arguments and
    the text it passes, and how it reads the answers. *)

From stdpp Require Import base gmap list sorting strings relations.
From Stdlib Require Import Strings.Byte NArith Lia.
From S2P Require Import Prelude Bytes Text Gix Proto Types Inspect.
Open Scope N_scope.

(** ** Running git *)

(** [std::process::Output]; [status] is the exit status as it is displayed. *)
Record Output := { success : bool; status : bytes; stdout : bytes; stderr : bytes }.

(** Starting the program, writing to its standard input and waiting for it can fail. *)
Inductive RunError := SpawnFailed (e : error) | StdinFailed (e : error) | WaitFailed (e : error).

(** [ProgressChildReader]: what reads of the standard output still give, what waiting for
    the program gives ([None] once it was waited for), and what it wrote to its standard
    error by then. *)
Record ProgressChildReader := {
  cr_stdout : list (result error bytes);
  cr_child : option (result error Output);
  cr_stderr : bytes }.

Class GitProgram := {
  (** The disk. *)
  world : Type;
  (** [git] in a directory with arguments, reading an input up to its end. *)
  git : option bytes → list bytes → bytes → world → result RunError Output * world;
  (** The same, started and read from while it runs: the reads of its output, and those of
      its standard error. *)
  git_pipe : bytes → list bytes → bytes → world →
    result RunError (list (result error bytes) * result error Output * list (result error bytes)) * world;
  path_exists : bytes → world → bool;
  (** [create_dir_all], and opening the staged pack. *)
  create_dir : bytes → world → option error;
  staging_error : option error;
  remove_file : bytes → world → world }.

Definition run_error (e : RunError) : error :=
  match e with SpawnFailed e | StdinFailed e | WaitFailed e => e end.

(** [spawn().context(…)] and [wait_with_output().context(…)]; writing to the standard input
    has no context. *)
Definition child_error (spawning waiting : bytes) (e : RunError) : error :=
  match e with
  | SpawnFailed e => Context spawning e
  | StdinFailed e => e
  | WaitFailed e => Context waiting e
  end.

(** The arguments in debug form; those of the source need no escapes. *)
Definition debug_args (args : list bytes) : bytes :=
  b! "[" ++ join (b! ", ") ((λ a, [x22] ++ a ++ [x22]) <$> args) ++ b! "]".

Section commands.
Context `{GixHash} {program : GitProgram}.

Definition run_git (repo_path : bytes) (args : list bytes) : ST world bytes := fun w =>
  match git (Some repo_path) args [] w with
  | (Err e, w') => (Err (Context (b! "spawning git " ++ debug_args args ++ b! " in " ++ repo_path) (run_error e)), w')
  | (Ok output, w') =>
      (if success output then Ok (trim (lossy (stdout output)))
       else Err (Fmt (b! "git " ++ debug_args args ++ b! " failed (status " ++ status output ++ b! "):" ++ [x0a])
                     (Lossy (stderr output))), w')
  end.

(** [Command…output().context(c)]. *)
Definition git_output (c : bytes) (dir : option bytes) (args : list bytes) : ST world Output := fun w =>
  let '(r, w') := git dir args [] w in (map_err (λ e, Context c (run_error e)) r, w').

(** A line on the standard input of a program ([writeln!]). *)
Definition line (s : bytes) : bytes := s ++ [x0a].

(** ** Refs *)

Definition cli_open (id : bytes) : result error bytes := Ok id.

Definition cli_init_repo (repo_path : bytes) : ST world () := fun w =>
  if path_exists repo_path w then (Ok (), w)
  else
    match git None [b! "init"; b! "--bare"; repo_path] [] w with
    | (Err e, w') => (Err (Context (b! "spawning git init") (run_error e)), w')
    | (Ok output, w') =>
        (if success output then Ok () else Err (Fmt (b! "git init --bare failed: ") (Lossy (stderr output))), w')
    end.

(** [HEAD]: its target if it is symbolic, and its object; unborn without one. *)
Definition cli_head (repo_path : bytes) (w : world) : option HeadInfo * world :=
  let '(target, w) := run_git repo_path [b! "symbolic-ref"; b! "HEAD"] w in
  let '(hex, w) := run_git repo_path [b! "rev-parse"; b! "HEAD"] w in
  (match hex with
   | Ok hex =>
       oid ← ok (oid_from_hex hex);
       Some {| h_oid := oid; h_symref_target := ok target |}
   | Err _ => None
   end, w).

Definition ref_format : bytes := b! "%(objectname) %(refname) %(symref) %(*objectname)".

(** One line of [for-each-ref]. *)
Definition ref_line (l : bytes) : result error (option RefInfo) :=
  match l with
  | [] => Ok None
  | _ =>
      match splitn 4 x20 l with
      | oid_hex :: name :: rest =>
          let symref := default [] (rest !! 0%nat) in
          let peeled_hex := default [] (rest !! 1%nat) in
          oid ← context (b! "parsing ref oid") (oid_from_hex oid_hex);
          peeled ←
            (if decide (peeled_hex = [] ∨ peeled_hex = replicate 40 x30) then Ok None
             else
               peeled_oid ← context (b! "parsing peeled oid") (oid_from_hex peeled_hex);
               Ok (if decide (peeled_oid = oid) then None else Some peeled_oid));
          Ok (Some {| r_name := name; r_oid := oid; r_peeled := peeled;
                      r_symref_target := match symref with [] => None | _ => Some symref end |})
      | _ => Ok None
      end
  end.

Fixpoint ref_lines (ls : list bytes) : result error (list RefInfo) :=
  match ls with
  | [] => Ok []
  | l :: ls' =>
      info ← ref_line l;
      infos ← ref_lines ls';
      Ok (match info with Some i => i :: infos | None => infos end)
  end.

Definition cli_list_refs (repo_path : bytes) : ST world RefsSnapshot := fun w =>
  let '(head, w) := cli_head repo_path w in
  (output ← run_git repo_path [b! "for-each-ref"; b! "--format=" ++ ref_format];
   refs ← lift (ref_lines (str_lines output));
   mret {| rs_head := head; rs_refs := refs |}) w.

Definition cli_resolve_ref (repo_path refname : bytes) : ST world (option ObjectId) := fun w =>
  let '(hex, w) := run_git repo_path [b! "rev-parse"; b! "--verify"; refname ++ b! "^{}"] w in
  (match hex with
   | Ok hex => oid ← context (b! "parsing resolved oid") (oid_from_hex hex); Ok (Some oid)
   | Err _ => Ok None
   end, w).

(** ** Objects *)

Definition cli_has_object (repo_path : bytes) (oid : ObjectId) : ST world bool :=
  output ← git_output (b! "spawning git cat-file -e") (Some repo_path) [b! "cat-file"; b! "-e"; oid_to_hex oid];
  mret (success output).

Definition pad_to (n : nat) (results : list bool) : list bool := results ++ replicate (n - length results) false.

Definition cli_has_objects (repo_path : bytes) (oids : list ObjectId) : ST world (list bool) := fun w =>
  match oids with
  | [] => (Ok [], w)
  | _ =>
      match git (Some repo_path) [b! "cat-file"; b! "--batch-check"] (oids ≫= λ o, line (oid_to_hex o)) w with
      | (Err e, w') => (Err (child_error (b! "spawning git cat-file --batch-check") (b! "waiting for cat-file") e), w')
      | (Ok output, w') =>
          (Ok (pad_to (length oids) ((λ l, negb (contains (b! "missing") l)) <$> str_lines (lossy (stdout output)))), w')
      end
  end.

Definition cli_compute_push_kind (repo_path : bytes) (update : RefUpdate) (w : world) : PushKind * world :=
  if is_null (old_oid update) then (Create, w)
  else if is_null (new_oid update) then (Delete, w)
  else
    match git (Some repo_path) [b! "merge-base"; b! "--is-ancestor"; oid_to_hex (old_oid update); oid_to_hex (new_oid update)] [] w with
    | (Ok output, w') => (if success output then FastForward else ForcePush, w')
    | (Err _, w') => (ForcePush, w')
    end.

(** The command for [git update-ref --stdin]. *)
Definition update_command (u : RefUpdate) : bytes :=
  if is_null (new_oid u) then b! "delete " ++ refname u ++ [x20] ++ oid_to_hex (old_oid u)
  else if is_null (old_oid u) then b! "create " ++ refname u ++ [x20] ++ oid_to_hex (new_oid u)
  else b! "update " ++ refname u ++ [x20] ++ oid_to_hex (new_oid u) ++ [x20] ++ oid_to_hex (old_oid u).

Definition update_stdin (updates : list RefUpdate) : bytes := updates ≫= λ u, line (update_command u).

Definition cli_update_refs (repo_path : bytes) (updates : list RefUpdate) : ST world () := fun w =>
  match updates with
  | [] => (Ok (), w)
  | _ =>
      match git (Some repo_path) [b! "update-ref"; b! "--stdin"] (update_stdin updates) w with
      | (Err e, w') => (Err (child_error (b! "spawning git update-ref --stdin") (b! "waiting for update-ref") e), w')
      | (Ok output, w') =>
          (if success output then Ok () else Err (Fmt (b! "git update-ref failed: ") (Lossy (stderr output))), w')
      end
  end.

(** [usize] arithmetic, as in a release build; with overflow checks it panics instead. *)
Definition usize_succ (n : N) : N := (n + 1) mod 2 ^ 64.

Definition rev_list_args (from excluding : list ObjectId) (cap : N) : list bytes :=
  [b! "rev-list"; b! "--topo-order"] ++ (oid_to_hex <$> from) ++ ((λ o, b! "^" ++ oid_to_hex o) <$> excluding)
  ++ [b! "--max-count=" ++ decimal (usize_succ cap)].

Fixpoint rev_lines (cap : N) (out : list ObjectId) (ls : list bytes) : result ReachableError (list ObjectId) :=
  match ls with
  | [] => Ok out
  | l :: ls' =>
      match trim l with
      | [] => rev_lines cap out ls'
      | trimmed =>
          match oid_from_hex trimmed with
          | Err e => Err (ReachOther (Fmt (b! "rev-list parse: ") e))
          | Ok oid => if cap <=? len out then Err (CapExceeded cap) else rev_lines cap (out ++ [oid]) ls'
          end
      end
  end.

Definition cli_reachable_excluding (repo_path : bytes) (from excluding : list ObjectId) (cap : N) (w : world) :
    result ReachableError (list ObjectId) * world :=
  match from with
  | [] => (Ok [], w)
  | _ =>
      match run_git repo_path (rev_list_args from excluding cap) w with
      | (Err e, w') => (Err (ReachOther (Fmt (b! "rev-list: ") e)), w')
      | (Ok out, w') => (rev_lines cap [] (str_lines out), w')
      end
  end.

(** One record of [diff-tree -z]. *)
Definition diff_record (header path : bytes) : result error RefDiffEntry :=
  let header := default header (strip_prefix (b! ":") header) in
  let parts := split_whitespace header in
  let mode_l := default (b! "0") (parts !! 0%nat) in
  let mode_r := default (b! "0") (parts !! 1%nat) in
  let oid_l := default [] (parts !! 2%nat) in
  let oid_r := default [] (parts !! 3%nat) in
  let status := default (b! "M") (parts !! 4%nat) in
  let '(change, oid_hex, mode_str) :=
    match status with
    | x41 :: _ => (Added, oid_r, mode_r)
    | x44 :: _ => (Removed, oid_l, mode_l)
    | _ => (Modified, oid_r, mode_r)
    end in
  oid ← context (b! "parsing diff-tree oid") (oid_from_hex oid_hex);
  Ok {| d_path := path; d_change := change; d_mode := default 0 (from_str_radix 8 u32_max mode_str); d_oid := oid |}.

(** The records, each a header and a path that end in NUL; every record takes a byte. *)
Fixpoint diff_records (fuel : nat) (s : bytes) : result error (list RefDiffEntry) :=
  match fuel, s with
  | O, _ | _, [] => Ok []
  | S fuel, _ =>
      match split_once x00 s with
      | (_, None) => Ok []
      | (header, Some rest) =>
          header ← from_utf8 header;
          let '(path, rest) := split_once x00 rest in
          e ← diff_record header path;
          es ← diff_records fuel (default [] rest);
          Ok (e :: es)
      end
  end.

Definition cli_tree_diff (repo_path : bytes) (parent_tree : option ObjectId) (child_tree : ObjectId) : ST world RefDiff :=
  let lhs := default (b! "4b825dc642cb6eb9a060e54bf8d69288fbee4904") (oid_to_hex <$> parent_tree) in
  let rhs := oid_to_hex child_tree in
  s ← with_context (b! "running git diff-tree") (run_git repo_path [b! "diff-tree"; b! "-r"; b! "--raw"; b! "-z"; lhs; rhs]);
  es ← lift (diff_records (length s) s);
  mret es.
End commands.

(** ** Reads of objects *)

Section object_reads.
Context `{GixObject} {program : GitProgram}.

Definition cli_read_commit_info (repo_path : bytes) (oid : ObjectId) : ST world CommitInfo :=
  output ← git_output (b! "running git cat-file") (Some repo_path) [b! "cat-file"; b! "commit"; oid_to_hex oid];
  if success output then lift (parse_commit_info (stdout output) oid)
  else lift (Err (Fmt (b! "git cat-file failed: ") (Lossy (stderr output)))).

(** The output of a [cat-file] that succeeded, as trimmed text. *)
Definition cat_file (repo_path flag : bytes) (oid : ObjectId) (w : world) : option bytes * world :=
  match git (Some repo_path) [b! "cat-file"; flag; oid_to_hex oid] [] w with
  | (Ok output, w') => (if success output then Some (trim (lossy (stdout output))) else None, w')
  | (Err _, w') => (None, w')
  end.

(** The contents of an object that is no larger than [cap]; [as_kind] gives the kind to
    ask for from the object's kind. *)
Definition read_capped (repo_path : bytes) (oid : ObjectId) (cap : N) (c : bytes) (as_kind : bytes → option bytes) :
    ST world (option bytes) := fun w =>
  let '(size, w) := cat_file repo_path (b! "-s") oid w in
  match size with
  | None => (Ok None, w)
  | Some size =>
      if cap <? default u64_max (parse_u64 size) then (Ok None, w)
      else
        let '(kind, w) := cat_file repo_path (b! "-t") oid w in
        match kind ≫= as_kind with
        | None => (Ok None, w)
        | Some kind =>
            (output ← git_output c (Some repo_path) [b! "cat-file"; kind; oid_to_hex oid];
             mret (if success output then Some (stdout output) else None)) w
        end
  end.

Definition cli_read_blob (repo_path : bytes) (oid : ObjectId) (cap : N) : ST world (option bytes) :=
  read_capped repo_path oid cap (b! "running git cat-file blob")
    (λ kind, if decide (kind = b! "blob") then Some (b! "blob") else None).

Definition cli_read_object_raw (repo_path : bytes) (oid : ObjectId) (cap : N) : ST world (option bytes) :=
  read_capped repo_path oid cap (b! "running git cat-file") Some.
End object_reads.

(** ** Packs *)

Section packs.
Context `{GixHash} {program : GitProgram}.

Record CliWrittenPack := { pack : bytes; index : bytes }.

(** The hash that [index-pack] prints, after the last tab. *)
Definition printed_hash (out : bytes) : bytes := default [] (last (split x09 (trim (lossy out)))).

Definition cli_ingest_pack (repo_path : bytes) (staged_pack : PackFile) : ST world (option CliWrittenPack) := fun w =>
  match staging_error with
  | Some e => (Err e, w)
  | None =>
      if default 0 (pack_object_count (take 12 (pf_pack staged_pack))) =? 0 then (Ok None, w)
      else
        let pack_dir := repo_path ++ b! "/objects/pack" in
        match create_dir pack_dir w with
        | Some e => (Err e, w)
        | None =>
            match git (Some repo_path) [b! "index-pack"; b! "--stdin"; b! "--index-version=2"; b! "--fix-thin"] (pf_pack staged_pack) w with
            | (Err e, w') => (Err (Context (b! "running git index-pack") (run_error e)), w')
            | (Ok output, w') =>
                if success output then
                  let hash := printed_hash (stdout output) in
                  (Ok (Some {| pack := pack_dir ++ b! "/pack-" ++ hash ++ b! ".pack";
                               index := pack_dir ++ b! "/pack-" ++ hash ++ b! ".idx" |}), w')
                else (Err (Fmt (b! "git index-pack failed: ") (Lossy (stderr output))), w')
            end
        end
  end.

Definition cli_rollback_ingest (p : CliWrittenPack) (w : world) : world := remove_file (pack p) (remove_file (index p) w).

(** The thread on the standard error: what it collects and the progress it sends. *)
Fixpoint spawn_stderr_progress (reads : list (result error bytes)) : bytes * list bytes :=
  match reads with
  | Ok (b :: chunk) :: reads' =>
      let '(buf, sent) := spawn_stderr_progress reads' in ((b :: chunk) ++ buf, lossy (b :: chunk) :: sent)
  | _ => ([], [])
  end.

(** [ProgressChildReader::read]. *)
Definition child_read (r : ProgressChildReader) : result error bytes * ProgressChildReader :=
  match cr_stdout r with
  | Err e :: reads => (Err e, {| cr_stdout := reads; cr_child := cr_child r; cr_stderr := cr_stderr r |})
  | Ok (b :: chunk) :: reads =>
      (Ok (b :: chunk), {| cr_stdout := reads; cr_child := cr_child r; cr_stderr := cr_stderr r |})
  | [] | Ok [] :: _ =>
      let r' := {| cr_stdout := cr_stdout r; cr_child := None; cr_stderr := cr_stderr r |} in
      match cr_child r with
      | Some (Err e) => (Err e, r')
      | Some (Ok output) =>
          (if success output then Ok []
           else Err (Fmt (b! "git process exited with " ++ status output ++ b! ": ") (Lossy (cr_stderr r))), r')
      | None => (Ok [], r)
      end
  end.

(** What reading up to the first end or error gives. *)
Fixpoint reads_of (fuel : nat) (r : ProgressChildReader) : list (result error bytes) :=
  match fuel with
  | O => []
  | S fuel =>
      match child_read r with
      | (Ok [], _) => [Ok []]
      | (Err e, _) => [Err e]
      | (Ok chunk, r') => Ok chunk :: reads_of fuel r'
      end
  end.

Definition filter_spec (f : Filter) : bytes := match f with BlobNone => b! "blob:none" | TreeNone => b! "tree:0" end.

Definition pack_args (opts : PackOptions) : list bytes :=
  [b! "pack-objects"; b! "--revs"; b! "--stdout"; b! "--progress"]
  ++ (if po_thin_pack opts then [b! "--thin"] else [])
  ++ match po_filter opts with Some f => [b! "--filter=" ++ filter_spec f] | None => [] end.

(** The revisions on the standard input of [pack-objects]. *)
Definition revs (want have : list ObjectId) : bytes :=
  (want ≫= λ o, line (oid_to_hex o)) ++ (have ≫= λ o, line (b! "^" ++ oid_to_hex o)).

(** Start [pack-objects]; the response reads its output. *)
Definition pack_objects (repo_path c : bytes) (opts : PackOptions) (input : bytes) (shallow : list ObjectId) : ST world PackOutput := fun w =>
  match git_pipe repo_path (pack_args opts) input w with
  | (Err e, w') => (Err (child_error c [] e), w')
  | (Ok (reads, child, errs), w') =>
      let '(stderr_buf, progress) := spawn_stderr_progress errs in
      let reader := {| cr_stdout := reads; cr_child := Some child; cr_stderr := stderr_buf |} in
      (Ok {| out_reader := reads_of (S (length reads)) reader; out_shallow := shallow; out_progress := Some [progress] |}, w')
  end.

(** The ids that a line of [rev-list --boundary --parents] marks as excluded. *)
Definition boundary_oid (l : bytes) : option ObjectId :=
  l' ← strip_prefix (b! "-") l;
  ok (oid_from_hex (default l' (head (split_whitespace l')))).

(** The commit of a line one of whose parents is in the boundary. *)
Definition shallow_oid (boundary : list ObjectId) (l : bytes) : option ObjectId :=
  if starts_with (b! "-") l || bool_decide (l = []) then None
  else
    let parts := split_whitespace l in
    commit ← ok (oid_from_hex (default [] (head parts)));
    if existsb (λ p, match oid_from_hex p with Ok oid => bool_decide (oid ∈ boundary) | Err _ => false end) (tail parts)
    then Some commit else None.

Definition shallow_commits (rev_stdout : bytes) : list ObjectId :=
  let ls := str_lines rev_stdout in
  omap (shallow_oid (omap boundary_oid ls)) ls.

Definition shallow_args (want have : list ObjectId) (depth : N) : list bytes :=
  [b! "rev-list"; b! "--boundary"; b! "--parents"; b! "--max-count=" ++ decimal depth]
  ++ (oid_to_hex <$> want) ++ ((λ o, b! "^" ++ oid_to_hex o) <$> have).

Definition cli_build_pack_shallow (repo_path : bytes) (want have : list ObjectId) (depth : N) (opts : PackOptions) : ST world PackOutput :=
  output ← git_output (b! "spawning git rev-list for shallow") (Some repo_path) (shallow_args want have depth);
  if success output then
    let shallow := shallow_commits (lossy (stdout output)) in
    pack_objects repo_path (b! "spawning git pack-objects for shallow") opts
      (revs want have ++ (shallow ≫= λ o, line (b! "--shallow " ++ oid_to_hex o))) shallow
  else lift (Err (Fmt (b! "git rev-list failed: ") (Lossy (stderr output)))).

Definition cli_build_pack (repo_path : bytes) (want have : list ObjectId) (opts : PackOptions) : ST world PackOutput :=
  match po_deepen opts with
  | Some depth => cli_build_pack_shallow repo_path want have depth opts
  | None => pack_objects repo_path (b! "spawning git pack-objects") opts (revs want have) []
  end.
End packs.

(** ** What [diff-tree] prints *)

(** [%0ko]. *)
Fixpoint octal (k : nat) (n : N) : bytes :=
  match k with O => [] | S k => octal k (n / 8) ++ [digit (n mod 8)] end.

Lemma parse_octal k n max : n < 8 ^ N.of_nat k → n ≤ max → parse_digits 8 max 0 (octal k n) = Some n.
Proof.
  revert n; induction k as [|k IH]; intros n Hn Hm; cbn [octal].
  - cbn in *. f_equal. lia.
  - rewrite Nat2N.inj_succ, N.pow_succ_r' in Hn. pose proof (N.div_mod n 8 ltac:(lia)). pose proof (N.mod_lt n 8 ltac:(lia)).
    assert (n / 8 < 8 ^ N.of_nat k) by (apply N.Div0.div_lt_upper_bound; lia).
    pose proof (N.Div0.div_le_upper_bound n 8 max ltac:(lia)). rewrite parse_digits_app, IH by done. cbn [mbind option_bind].
    rewrite parse_digits_one by lia. f_equal. lia.
Qed.

Lemma octal_digits k n : Forall (λ b, is_hex_digit b = true) (octal k n).
Proof.
  revert n; induction k as [|k IH]; intros n; cbn [octal]; [constructor|]. apply Forall_app. split; [done|].
  repeat constructor. apply digit_is_hex. pose proof (N.mod_lt n 8 ltac:(lia)). lia.
Qed.

Lemma length_octal k n : length (octal k n) = k.
Proof. revert n; induction k as [|k IH]; intros n; cbn [octal]; [done|]. rewrite length_app, IH. cbn. lia. Qed.

Lemma octal_mode m : m < 2 ^ 18 → from_str_radix 8 u32_max (octal 6 m) = Some m.
Proof.
  intros Hm. pose proof (parse_octal 6 m u32_max) as Hp. pose proof (octal_digits 6 m) as Hd. pose proof (length_octal 6 m) as Hl.
  change (8 ^ N.of_nat 6) with (2 ^ 18) in Hp. destruct (octal 6 m) as [|b s]; [done|]. unfold from_str_radix.
  rewrite decide_False; [apply Hp; unfold u32_max; lia|]. intros ->. by apply Forall_inv in Hd.
Qed.

Section diff_facts.
Context `{GixHashLaws} {program : GitProgram}.

Definition letter (c : RefDiffChange) : bytes := match c with Added => [x41] | Removed => [x44] | Modified => [x4d] end.

(** The words of a record: the modes, the ids and the status; [other] is the side that the
    entry does not tell. *)
Definition record_words (e : RefDiffEntry) (other : N * ObjectId) : list bytes :=
  match d_change e with
  | Removed => [octal 6 (d_mode e); octal 6 other.1; oid_to_hex (d_oid e); oid_to_hex other.2; letter Removed]
  | c => [octal 6 other.1; octal 6 (d_mode e); oid_to_hex other.2; oid_to_hex (d_oid e); letter c]
  end.

Definition raw_header (e : RefDiffEntry) (other : N * ObjectId) : bytes := b! ":" ++ join [x20] (record_words e other).

(** A record of [git diff-tree -r --raw -z]. *)
Definition raw_record (x : RefDiffEntry * (N * ObjectId)) : bytes :=
  raw_header x.1 x.2 ++ [x00] ++ d_path x.1 ++ [x00].

Definition diff_side : Type := RefDiffEntry * (N * ObjectId).

Fixpoint raw_output (xs : list diff_side) : bytes :=
  match xs with [] => [] | x :: xs' => raw_record x ++ raw_output xs' end.

Lemma raw_output_app xs ys : raw_output (xs ++ ys) = raw_output xs ++ raw_output ys.
Proof. induction xs as [|x xs IH]; [done|]. cbn. by rewrite IH, app_assoc. Qed.

Definition with_path (f : bytes → bytes) (e : RefDiffEntry) : RefDiffEntry :=
  {| d_path := f (d_path e); d_change := d_change e; d_mode := d_mode e; d_oid := d_oid e |}.

Lemma hex_graphic (s : bytes) : Forall (λ b, is_hex_digit b = true) s → Forall (λ b, graphic b = true) s.
Proof. intros Hs. eapply Forall_impl; [exact Hs|]. apply hex_digit_graphic. Qed.

Lemma oid_hex_not_nil o : oid_to_hex o ≠ [].
Proof. intros E. pose proof (length_oid_to_hex o) as Hl. by rewrite E in Hl. Qed.

Lemma record_words_graphic e other : Forall (λ w, w ≠ [] ∧ Forall (λ b, graphic b = true) w) (record_words e other).
Proof.
  assert (∀ m, octal 6 m ≠ [] ∧ Forall (λ b, graphic b = true) (octal 6 m)) as Ho.
  { intros m. split; [|apply hex_graphic, octal_digits]. intros E. pose proof (length_octal 6 m) as Hl. by rewrite E in Hl. }
  assert (∀ o, oid_to_hex o ≠ [] ∧ Forall (λ b, graphic b = true) (oid_to_hex o)) as Hh.
  { intros o. split; [apply oid_hex_not_nil|apply hex_graphic, oid_to_hex_digits]. }
  unfold record_words. destruct (d_change e);
    repeat (apply Forall_cons; split; [first [apply Ho|apply Hh|split; [done|by repeat constructor]]|]); constructor.
Qed.

Lemma graphic_ascii b : graphic b = true → is_ascii b = true.
Proof. by destruct b. Qed.

Lemma join_plain ws :
  Forall (λ w, w ≠ [] ∧ Forall (λ b, graphic b = true) w) ws →
  Forall (λ b, is_ascii b = true) (join [x20] ws) ∧ x00 ∉ join [x20] ws.
Proof.
  intros Hws. assert (Forall (λ b, graphic b = true ∨ b = x20) (join [x20] ws)) as Hj.
  { induction Hws as [|w ws [_ Hw] _ IH]; [constructor|]. destruct ws as [|w' ws].
    - cbn. eapply Forall_impl; [exact Hw|]. auto.
    - change (join [x20] (w :: w' :: ws)) with (w ++ [x20] ++ join [x20] (w' :: ws)). rewrite !Forall_app. split_and!; [|by repeat constructor; right|done].
      eapply Forall_impl; [exact Hw|]. auto. }
  split; [eapply Forall_impl; [exact Hj|]; intros b [?| ->]; [by apply graphic_ascii|done]|].
  intros Hin. rewrite Forall_forall in Hj. by destruct (Hj x00 Hin) as [?|?].
Qed.

Lemma header_plain e other : Forall (λ b, is_ascii b = true) (raw_header e other) ∧ x00 ∉ raw_header e other.
Proof.
  destruct (join_plain _ (record_words_graphic e other)) as [Ha Hn]. unfold raw_header. split; [by constructor|].
  intros [E|?]%elem_of_cons; [discriminate|done].
Qed.

Lemma diff_record_header e other path :
  d_mode e < 2 ^ 18 → diff_record (raw_header e other) path = Ok (with_path (λ _, path) e).
Proof.
  intros Hm. unfold diff_record, raw_header. rewrite strip_prefix_app. cbn [from_option id]. cbv zeta.
  rewrite split_whitespace_join by apply record_words_graphic. unfold with_path, record_words.
  destruct e as [p c md o]; cbn [d_change d_mode d_oid d_path] in *. destruct c; cbn [lookup list_lookup from_option id letter];
    by rewrite oid_from_to_hex, octal_mode by done.
Qed.

Lemma ascii_utf8 s : Forall (λ b, is_ascii b = true) s → utf8_valid s = true.
Proof. intros Hs. rewrite <- (app_nil_r s). by rewrite utf8_valid_ascii. Qed.

Lemma lossy_records xs : lossy (raw_output xs) = raw_output ((λ x, (with_path lossy x.1, x.2)) <$> xs).
Proof.
  induction xs as [|[e other] xs IH]; [done|]. rewrite fmap_cons. cbn [raw_output]. unfold raw_record. cbn [fst snd].
  rewrite <- !app_assoc. destruct (header_plain e other) as [Ha _].
  rewrite lossy_app by by apply ascii_utf8. change ([x00] ++ d_path e ++ [x00] ++ ?r) with (x00 :: (d_path e ++ x00 :: r)).
  cbn [lossy]. change (in_range 0 127 x00) with true. cbn iota. rewrite lossy_sep by done. by rewrite IH.
Qed.

Lemma diff_records_raw xs fuel :
  Forall (λ x : diff_side, d_mode x.1 < 2 ^ 18 ∧ x00 ∉ d_path x.1) xs →
  (length (raw_output xs) ≤ fuel)%nat → diff_records fuel (raw_output xs) = Ok (fst <$> xs).
Proof.
  intros Hxs. revert fuel. induction Hxs as [|[e other] xs [Hm Hp] _ IH]; intros fuel Hf; [by destruct fuel|].
  rewrite fmap_cons. cbn [raw_output] in *. unfold raw_record in *. cbn [fst snd] in *.
  rewrite <- !app_assoc in *. destruct (header_plain e other) as [Ha Hn].
  rewrite !length_app in Hf. cbn [length] in Hf. destruct fuel as [|fuel]; [lia|].
  assert (raw_header e other ++ [x00] ++ d_path e ++ [x00] ++ raw_output xs ≠ []) as Hne by done.
  destruct (raw_header e other ++ [x00] ++ d_path e ++ [x00] ++ raw_output xs) as [|b s] eqn:E; [done|].
  cbn [diff_records]. rewrite <- E. change ([x00] ++ ?r) with (x00 :: r). rewrite split_once_sep by done.
  unfold from_utf8. rewrite (ascii_utf8 _ Ha). cbn [mbind result_bind]. change (d_path e ++ [x00] ++ ?r) with (d_path e ++ x00 :: r).
  rewrite split_once_sep by done. cbn [from_option id]. rewrite diff_record_header by done. cbn [mbind result_bind].
  rewrite IH by lia. cbn [mbind result_bind]. by destruct e.
Qed.

Lemma trim_records xs : trim (raw_output xs) = raw_output xs.
Proof.
  destruct xs as [|x xs _] using rev_ind; [done|]. destruct (decide (xs = [])) as [->|Hn].
  - cbn [app raw_output]. rewrite app_nil_r. unfold raw_record, raw_header, trim.
    change (b! ":" ++ ?r) with (x3a :: r). cbn [app]. rewrite trim_start_graphic by done. unfold trim_end. apply strip_all_noop.
    change (x3a :: ?a ++ x00 :: ?p ++ [x00]) with ((x3a :: a) ++ x00 :: (p ++ [x00])).
    change (x00 :: (?p ++ [x00])) with ((x00 :: p) ++ [x00]). rewrite app_assoc. apply last_space_nul.
  - rewrite raw_output_app. cbn [raw_output]. rewrite app_nil_r. destruct xs as [|y xs]; [done|]. cbn [raw_output].
    unfold trim. assert (∀ r, trim_start (raw_record y ++ r) = raw_record y ++ r) as Ht.
    { intros r. unfold raw_record, raw_header. cbn [app]. by apply trim_start_graphic. }
    rewrite <- app_assoc, Ht. unfold trim_end. apply strip_all_noop. unfold raw_record at 2.
    replace (raw_record y ++ raw_output xs ++ raw_header x.1 x.2 ++ [x00] ++ d_path x.1 ++ [x00])
      with ((raw_record y ++ raw_output xs ++ raw_header x.1 x.2 ++ [x00] ++ d_path x.1) ++ [x00]) by by rewrite <- !app_assoc.
    apply last_space_nul.
Qed.

(** (C22) Read from what [git diff-tree -r --raw -z] prints, a tree diff has each entry with its
    change, mode and object, and with its path as lossy text: a path in UTF-8 is exact, and of
    any other the invalid bytes are replaced, so that different files can have one path. *)
Theorem cli_tree_diff_lossy repo_path parent child xs w output w' :
  Forall (λ x : diff_side, d_mode x.1 < 2 ^ 18 ∧ x00 ∉ d_path x.1) xs →
  git (Some repo_path) [b! "diff-tree"; b! "-r"; b! "--raw"; b! "-z";
    default (b! "4b825dc642cb6eb9a060e54bf8d69288fbee4904") (oid_to_hex <$> parent); oid_to_hex child] [] w = (Ok output, w') →
  success output = true → stdout output = raw_output xs →
  cli_tree_diff repo_path parent child w = (Ok (with_path lossy <$> (fst <$> xs)), w') ∧
  (Forall (λ x : diff_side, utf8_valid (d_path x.1) = true) xs →
   cli_tree_diff repo_path parent child w = (Ok (fst <$> xs), w')).
Proof.
  intros Hxs Hg Hsuc Hout.
  assert (cli_tree_diff repo_path parent child w = (Ok (with_path lossy <$> (fst <$> xs)), w')) as E.
  { unfold cli_tree_diff, with_context, run_git, mbind, ST_bind, lift, mret, ST_ret. rewrite Hg, Hsuc, Hout, lossy_records, trim_records. cbn [map_err].
    rewrite diff_records_raw; [|apply Forall_fmap; eapply Forall_impl; [exact Hxs|]|done].
    - by rewrite <- !list_fmap_compose.
    - intros [e o] [? Hp]. split; [done|]. cbn. by rewrite elem_of_lossy. }
  split; [done|]. intros Hu. rewrite E. do 2 f_equal. rewrite <- list_fmap_compose. apply list_fmap_ext.
  intros i [e o] Hi. rewrite Forall_lookup in Hu. specialize (Hu i _ Hi). cbn in *. unfold with_path. rewrite lossy_valid by done. by destruct e.
Qed.
End diff_facts.

(** ** Updates of refs *)

(** A command of [git update-ref --stdin], as its documentation has them. *)
Inductive RefCommand `{GixHash} :=
| CmdDelete (name : bytes) (old : ObjectId)
| CmdCreate (name : bytes) (new : ObjectId)
| CmdUpdate (name : bytes) (new old : ObjectId).

Section update_facts.
Context `{GixHashLaws} {program : GitProgram}.

Definition cmd_name (c : RefCommand) : bytes :=
  match c with CmdDelete name _ | CmdCreate name _ | CmdUpdate name _ _ => name end.

Definition cmd_line (c : RefCommand) : bytes :=
  match c with
  | CmdDelete name old => b! "delete " ++ name ++ [x20] ++ oid_to_hex old ++ [x0a]
  | CmdCreate name new => b! "create " ++ name ++ [x20] ++ oid_to_hex new ++ [x0a]
  | CmdUpdate name new old => b! "update " ++ name ++ [x20] ++ oid_to_hex new ++ [x20] ++ oid_to_hex old ++ [x0a]
  end.

Abbreviation refs := (gmap bytes ObjectId).

(** What a command verifies, and what it does.  An old value of a deletion must not be zero. *)
Definition cmd_holds (m : refs) (c : RefCommand) : Prop :=
  match c with
  | CmdDelete name old => old ≠ oid_null ∧ m !! name = Some old
  | CmdCreate name new => m !! name = None
  | CmdUpdate name new old => m !! name = Some old
  end.

Definition cmd_apply (m : refs) (c : RefCommand) : refs :=
  match c with
  | CmdDelete name _ => delete name m
  | CmdCreate name new | CmdUpdate name new _ => <[name := new]> m
  end.

(** A name that the command language reads as one word. *)
Definition one_word (name : bytes) : Prop := name ≠ [] ∧ (x20 ∉ name) ∧ (x0a ∉ name) ∧ (x00 ∉ name) ∧ head name ≠ Some x22.

(** What a name stands for, by the symbolic refs of a repository. *)
Inductive follows (symrefs : gmap bytes bytes) : bytes → bytes → Prop :=
| follows_here n : symrefs !! n = None → follows symrefs n n
| follows_on n target m : symrefs !! n = Some target → follows symrefs target m → follows symrefs n m.

Definition cmd_at (c : RefCommand) (name : bytes) : RefCommand :=
  match c with
  | CmdDelete _ old => CmdDelete name old
  | CmdCreate _ new => CmdCreate name new
  | CmdUpdate _ new old => CmdUpdate name new old
  end.

(** The command as it is performed, on the ref that its name stands for. *)
Definition cmd_follows (symrefs : gmap bytes bytes) (c d : RefCommand) : Prop :=
  ∃ name, follows symrefs (cmd_name c) name ∧ d = cmd_at c name.

(** A transaction of commands on the refs that hold objects. *)
Definition performed (symrefs : gmap bytes bytes) (cmds : list RefCommand) (m m' : refs) : Prop :=
  ∃ on, Forall2 (cmd_follows symrefs) cmds on ∧
    NoDup (cmd_name <$> on) ∧ Forall (cmd_holds m) on ∧ m' = foldl cmd_apply m on.

(** [git update-ref --stdin] on commands whose names are one word: a transaction, which
    without [no-deref] goes through symbolic refs. *)
Class GitUpdateRef := {
  (** The refs that hold objects, and the targets of the symbolic refs. *)
  refs_at : bytes → world → refs;
  symrefs_at : bytes → world → gmap bytes bytes;
  update_ref_stdin path (cmds : list RefCommand) w output w' :
    Forall (λ c, one_word (cmd_name c)) cmds →
    git (Some path) [b! "update-ref"; b! "--stdin"] (cmds ≫= cmd_line) w = (Ok output, w') →
    success output = true → performed (symrefs_at path w) cmds (refs_at path w) (refs_at path w') }.

Definition command_of (u : RefUpdate) : RefCommand :=
  if is_null (new_oid u) then CmdDelete (refname u) (old_oid u)
  else if is_null (old_oid u) then CmdCreate (refname u) (new_oid u)
  else CmdUpdate (refname u) (new_oid u) (old_oid u).

Lemma command_name u : cmd_name (command_of u) = refname u.
Proof. unfold command_of. by repeat case_match. Qed.

Lemma update_stdin_cons u us : update_stdin (u :: us) = line (update_command u) ++ update_stdin us.
Proof. done. Qed.

Lemma update_stdin_commands us : update_stdin us = (command_of <$> us) ≫= cmd_line.
Proof.
  induction us as [|u us IH]; [done|]. rewrite update_stdin_cons, IH, fmap_cons, bind_cons. f_equal.
  unfold line, update_command, command_of, cmd_line. repeat case_match; by rewrite <- !app_assoc.
Qed.

Lemma command_is_cas m u : cmd_holds m (command_of u) → cas_update m u = Some (cmd_apply m (command_of u)).
Proof.
  unfold cas_update, command_of. destruct (is_null (new_oid u)) eqn:En, (is_null (old_oid u)) eqn:Eo; cbn [cmd_holds cmd_apply];
    rewrite ?is_null_true, ?is_null_false in *.
  - tauto.
  - intros [_ ->]. by rewrite decide_True.
  - by intros ->.
  - intros ->. by rewrite decide_True.
Qed.

Lemma cmd_apply_other m c n : n ≠ cmd_name c → cmd_apply m c !! n = m !! n.
Proof. destruct c; intros Hn; cbn in *; first [by rewrite lookup_delete_ne|by rewrite lookup_insert_ne]. Qed.

Lemma commands_are_cas m us :
  NoDup (refname <$> us) → Forall (cmd_holds m) (command_of <$> us) →
  cas_updates m us = Some (foldl cmd_apply m (command_of <$> us)).
Proof.
  revert m. induction us as [|u us IH]; intros m Hn Hh; [done|]. rewrite fmap_cons in Hn. rewrite fmap_cons in Hh.
  apply NoDup_cons in Hn as [Hni Hn]. apply Forall_cons in Hh as [Hu Hus]. cbn [cas_updates].
  rewrite (command_is_cas _ _ Hu). cbn [mbind option_bind]. rewrite fmap_cons. cbn [foldl]. apply IH; [done|].
  rewrite Forall_fmap, Forall_forall in *. intros v Hv. specialize (Hus v Hv). cbn in *.
  assert (cmd_name (command_of v) ≠ cmd_name (command_of u)) as Hne.
  { rewrite !command_name. intros E. apply Hni. rewrite <- E. apply list_elem_of_fmap. eauto. }
  unfold cmd_holds in *. destruct (command_of v); by rewrite cmd_apply_other.
Qed.

(** The words of a command. *)
Definition cmd_words (c : RefCommand) : list bytes :=
  match c with
  | CmdDelete name old => [b! "delete"; name; oid_to_hex old]
  | CmdCreate name new => [b! "create"; name; oid_to_hex new]
  | CmdUpdate name new old => [b! "update"; name; oid_to_hex new; oid_to_hex old]
  end.

Lemma cmd_line_words c : cmd_line c = join [x20] (cmd_words c) ++ [x0a].
Proof. destruct c; cbn [cmd_line cmd_words join]; by rewrite <- !app_assoc. Qed.

Lemma split_cons c a r : c ∉ a → split c (a ++ c :: r) = a :: split c r.
Proof.
  induction a as [|x a IH]; intros Ha; cbn [app split]; [by rewrite decide_True|].
  rewrite decide_False by set_solver. by rewrite IH by set_solver.
Qed.

Lemma split_one c a : c ∉ a → split c a = [a].
Proof.
  induction a as [|x a IH]; intros Ha; cbn [split]; [done|]. rewrite decide_False by set_solver. by rewrite IH by set_solver.
Qed.

Lemma split_join c ws : ws ≠ [] → Forall (λ w, c ∉ w) ws → split c (join [c] ws) = ws.
Proof.
  intros Hn Hw. induction Hw as [|w ws Hc Hw IH]; [done|]. destruct ws as [|w' ws]; [by apply split_one|].
  change (join [c] (w :: w' :: ws)) with (w ++ c :: join [c] (w' :: ws)). by rewrite split_cons, IH.
Qed.

Lemma cmd_words_free c b : one_word (cmd_name c) → (b = x20 ∨ b = x0a) → Forall (λ w, b ∉ w) (cmd_words c).
Proof.
  intros (_ & Hs & Hn & _ & _) Hb.
  assert (∀ o, b ∉ oid_to_hex o) as Ho by (intros o; apply oid_to_hex_no; by destruct Hb as [->| ->]).
  assert (∀ v, v ∈ [b! "delete"; b! "create"; b! "update"] → b ∉ v) as Hv.
  { intros v. rewrite !elem_of_cons, elem_of_nil. destruct Hb as [->| ->]; intros [->|[->|[->|[]]]]; by apply (bool_decide_eq_false _). }
  assert (b ∉ cmd_name c) as Hc by by destruct Hb as [->| ->].
  destruct c; repeat constructor; first [apply Ho|exact Hc|apply Hv; set_solver].
Qed.

Lemma cmd_words_inj c d : cmd_words c = cmd_words d → c = d.
Proof. destruct c, d; intros [=]; f_equal; by try apply oid_to_hex_inj. Qed.

(** The text of a list of commands determines them when the names are one word. *)
Lemma commands_unambiguous cs ds :
  Forall (λ c, one_word (cmd_name c)) cs → Forall (λ c, one_word (cmd_name c)) ds → cs ≫= cmd_line = ds ≫= cmd_line → cs = ds.
Proof.
  assert (∀ cs, Forall (λ c, one_word (cmd_name c)) cs → split x20 <$> lines (cs ≫= cmd_line) = cmd_words <$> cs) as Hs.
  { induction 1 as [|c l Hc _ IH]; [done|]. rewrite bind_cons, cmd_line_words, <- app_assoc, fmap_cons. cbn [app].
    rewrite lines_app_nl.
    - rewrite fmap_cons, IH. f_equal. apply split_join; [by destruct c|by apply cmd_words_free; [|left]].
    - pose proof (cmd_words_free c x0a Hc (or_intror eq_refl)) as Hf. induction Hf as [|w ws Hw _ IHw]; [by intros ?%elem_of_nil|].
      destruct ws; [done|]. change (join [x20] (w :: l0 :: ws)) with (w ++ [x20] ++ join [x20] (l0 :: ws)).
      rewrite !elem_of_app, list_elem_of_singleton. naive_solver. }
  intros Hcs Hds E. apply (list_fmap_eq_inj cmd_words cmd_words_inj). rewrite <- (Hs cs Hcs), <- (Hs ds Hds). by rewrite E.
Qed.

Lemma one_word_commands us :
  Forall (λ u, one_word (refname u)) us → Forall (λ c, one_word (cmd_name c)) (command_of <$> us).
Proof. intros Hw. apply Forall_fmap. eapply Forall_impl; [exact Hw|]. intros u. cbn. by rewrite command_name. Qed.

Lemma command_names (us : list RefUpdate) : cmd_name <$> (command_of <$> us) = refname <$> us.
Proof. rewrite <- list_fmap_compose. apply list_fmap_ext. intros i u _. apply command_name. Qed.

(** An update of the ref that its name stands for. *)
Definition update_follows (symrefs : gmap bytes bytes) (u v : RefUpdate) : Prop :=
  ∃ name, follows symrefs (refname u) name ∧ v = {| old_oid := old_oid u; new_oid := new_oid u; refname := name |}.

Lemma command_at u name :
  cmd_at (command_of u) name = command_of {| old_oid := old_oid u; new_oid := new_oid u; refname := name |}.
Proof. unfold command_of. cbn [old_oid new_oid refname]. by repeat case_match. Qed.

(** The commands of updates perform the updates, of the refs that the names stand for. *)
Lemma performed_updates symrefs us m m' :
  performed symrefs (command_of <$> us) m m' →
  ∃ vs, Forall2 (update_follows symrefs) us vs ∧ NoDup (refname <$> vs) ∧
    Forall (λ v, ¬ (old_oid v = oid_null ∧ new_oid v = oid_null)) vs ∧ cas_updates m vs = Some m'.
Proof.
  intros (on & Hon & Hnd & Hh & ->).
  assert (∃ vs, on = command_of <$> vs ∧ Forall2 (update_follows symrefs) us vs) as (vs & -> & Hvs).
  { clear Hnd Hh. revert on Hon; induction us as [|u us IH]; intros on.
    - intros ->%Forall2_nil_inv_l. by exists [].
    - rewrite fmap_cons. intros (c & on' & (name & Hf & ->) & (vs & -> & Hvs)%IH & ->)%Forall2_cons_inv_l.
      rewrite command_name in Hf. rewrite command_at. eexists (_ :: vs). split; [by rewrite fmap_cons|].
      constructor; [|done]. by exists name. }
  exists vs. rewrite command_names in Hnd. split_and!; [done|done| |by apply commands_are_cas].
  rewrite Forall_fmap in Hh. apply (Forall_impl _ _ _ Hh). intros v Hv [Ho Hn]. unfold command_of in Hv. cbn in Hv.
  apply is_null_true in Hn. rewrite Hn in Hv. destruct Hv as [? _]. done.
Qed.

Lemma follows_direct symrefs us vs :
  Forall2 (update_follows symrefs) us vs → Forall (λ u, symrefs !! refname u = None) us → vs = us.
Proof.
  induction 1 as [|u v us vs (name & Hf & ->) _ IH]; [done|]. intros [Hu Hus]%Forall_cons. rewrite IH by done.
  inversion Hf as [|n t m Ht]; subst; [by destruct u|congruence].
Qed.

(** (C20) For names that are one word: the text that the git CLI backend writes to [git
    update-ref --stdin] reads as the commands of the updates and no others; and when
    [update_refs] succeeds, no update was from null to null, the updates were of different
    refs, and the refs have changed by the compare-and-swap of the updates, each of the ref
    that its name stands for: the named one, unless it is symbolic. *)
Theorem cli_update_refs_cas `{!GitUpdateRef} repo_path us w w' :
  Forall (λ u, one_word (refname u)) us →
  (∀ cmds, Forall (λ c, one_word (cmd_name c)) cmds → cmds ≫= cmd_line = update_stdin us → cmds = command_of <$> us) ∧
  (cli_update_refs repo_path us w = (Ok (), w') →
   (∃ vs, Forall2 (update_follows (symrefs_at repo_path w)) us vs ∧ NoDup (refname <$> vs) ∧
      Forall (λ v, ¬ (old_oid v = oid_null ∧ new_oid v = oid_null)) vs ∧
      cas_updates (refs_at repo_path w) vs = Some (refs_at repo_path w')) ∧
   (Forall (λ u, symrefs_at repo_path w !! refname u = None) us →
    cas_updates (refs_at repo_path w) us = Some (refs_at repo_path w'))).
Proof.
  intros Hw. pose proof (one_word_commands us Hw) as Hc. split.
  - intros cmds Hcmds E. rewrite update_stdin_commands in E. by apply commands_unambiguous.
  - intros Hu. assert (∃ vs, Forall2 (update_follows (symrefs_at repo_path w)) us vs ∧ NoDup (refname <$> vs) ∧
      Forall (λ v, ¬ (old_oid v = oid_null ∧ new_oid v = oid_null)) vs ∧
      cas_updates (refs_at repo_path w) vs = Some (refs_at repo_path w')) as (vs & Hvs & ? & ? & Hcas).
    { unfold cli_update_refs in Hu. destruct us as [|u us].
      { injection Hu as <-. exists []. split_and!; [done|constructor|constructor|done]. }
      destruct (git _ _ _ _) as [[output|e] w1] eqn:Eg; [|done]. destruct (success output) eqn:Es; [|done]. injection Hu as <-.
      rewrite update_stdin_commands in Eg. apply performed_updates. by eapply update_ref_stdin. }
    split; [by exists vs|]. intros Hd. by rewrite <- (follows_direct _ _ _ Hvs Hd).
Qed.

(** The creation of a ref whose name holds a second command. *)
Definition smuggle (a verb b : bytes) (n : ObjectId) : RefUpdate :=
  {| old_oid := oid_null; new_oid := n; refname := a ++ [x20] ++ oid_to_hex n ++ [x0a] ++ verb ++ [x20] ++ b |}.

Definition creation (a : bytes) (n : ObjectId) : RefUpdate := {| old_oid := oid_null; new_oid := n; refname := a |}.

Lemma is_null_oid_null : is_null oid_null = true.
Proof. by apply is_null_true. Qed.

Lemma smuggle_stdin a verb b n :
  n ≠ oid_null →
  update_stdin [smuggle a verb b n] = update_stdin [creation a n] ++ line (verb ++ [x20] ++ b ++ [x20] ++ oid_to_hex n).
Proof.
  intros Hn%is_null_false. rewrite !update_stdin_cons. unfold update_command, smuggle, creation. cbn [new_oid old_oid refname].
  rewrite Hn, is_null_oid_null. unfold line. change (update_stdin []) with (@nil byte). rewrite !app_nil_r. by rewrite <- !app_assoc.
Qed.

(** (C38) A ref name with a newline is accepted by the parser of a push and reaches [git update-ref]
    as text: an update that is judged as the creation of one oddly named ref runs as the creation of one
    ref and a second command of the client's choice, such as the creation of another ref. *)
Theorem update_ref_injection limits caps pack a verb b n :
  n ≠ oid_null → 1 ≤ max_ref_updates limits → encodable caps [smuggle a verb b n] →
  read_receive_request limits (encode_request caps [smuggle a verb b n] pack) = Ok ([smuggle a verb b n], pack) ∧
  preliminary_push_kind (smuggle a verb b n) = Create ∧
  update_stdin [smuggle a verb b n] = update_stdin [creation a n] ++ line (verb ++ [x20] ++ b ++ [x20] ++ oid_to_hex n) ∧
  ∀ repo_path w,
    cli_update_refs repo_path [smuggle a (b! "create") b n] w = cli_update_refs repo_path [creation a n; creation b n] w.
Proof.
  intros Hn Hl He. split_and!.
  - by apply read_receive_request_roundtrip.
  - unfold preliminary_push_kind, smuggle. cbn [old_oid]. by rewrite is_null_oid_null.
  - by apply smuggle_stdin.
  - intros repo_path w. unfold cli_update_refs. rewrite smuggle_stdin by done. rewrite !update_stdin_cons.
    change (update_stdin []) with (@nil byte). rewrite !app_nil_r.
    assert (line (b! "create" ++ [x20] ++ b ++ [x20] ++ oid_to_hex n) = line (update_command (creation b n))) as ->; [|done].
    unfold update_command, creation. cbn [new_oid old_oid refname]. apply is_null_false in Hn. rewrite Hn, is_null_oid_null. done.
Qed.
End update_facts.

(** ** Readers of what git prints *)

Section reader_facts.
Context `{GixHashLaws} {program : GitProgram}.

(** A line of [for-each-ref]; absent fields are empty. *)
Definition ref_text (r : RefInfo) : bytes :=
  oid_to_hex (r_oid r) ++ [x20] ++ r_name r ++ [x20] ++ default [] (r_symref_target r) ++ [x20]
  ++ from_option oid_to_hex [] (r_peeled r).

(** Names are UTF-8 without spaces and newlines that end in a graphic character. *)
Record plain_name (n : bytes) : Prop := {
  plain_utf8 : utf8_valid n = true;
  plain_space : x20 ∉ n;
  plain_newline : x0a ∉ n;
  plain_end : ∃ n' b, n = n' ++ [b] ∧ graphic b = true }.

Record plain_ref (r : RefInfo) : Prop := {
  plain_ref_name : plain_name (r_name r);
  plain_ref_target t : r_symref_target r = Some t → plain_name t;
  plain_ref_peeled p : r_peeled r = Some p → p ≠ r_oid r ∧ oid_to_hex p ≠ replicate 40 x30 }.

(** The line without the spaces at its end. *)
Definition short_text (r : RefInfo) : bytes :=
  oid_to_hex (r_oid r) ++ [x20] ++ r_name r ++
  match r_symref_target r, r_peeled r with
  | None, None => []
  | Some t, None => [x20] ++ t
  | t, Some p => [x20] ++ default [] t ++ [x20] ++ oid_to_hex p
  end.

Lemma hex_free o c : is_hex_digit c = false → c ∉ oid_to_hex o.
Proof. apply oid_to_hex_no. Qed.

Lemma plain_not_nil n : plain_name n → n ≠ [].
Proof. intros [_ _ _ (n' & b & -> & _)]. by destruct n'. Qed.

(** The optional target as it is printed. *)
Lemma target_free r c : plain_ref r → (c = x20 ∨ c = x0a) → c ∉ default [] (r_symref_target r).
Proof.
  intros Hr Hc. destruct (r_symref_target r) as [t|] eqn:E; [|by intros ?%elem_of_nil].
  destruct (plain_ref_target _ Hr t E) as [_ ? ? _]. by destruct Hc as [->| ->].
Qed.

Lemma peeled_free r c : is_hex_digit c = false → c ∉ from_option oid_to_hex [] (r_peeled r).
Proof. intros Hc. destruct (r_peeled r); [by apply hex_free|by intros ?%elem_of_nil]. Qed.

Lemma splitn_cons n a r : x20 ∉ a → splitn (S (S n)) x20 (a ++ x20 :: r) = a :: splitn (S n) x20 r.
Proof. intros Ha. cbn [splitn]. by rewrite split_once_sep. Qed.

Lemma splitn_last n a : x20 ∉ a → splitn (S n) x20 a = [a].
Proof. intros Ha. destruct n as [|n]; [done|]. cbn [splitn]. by rewrite split_once_no_sep. Qed.

(** What a line with these fields is read as. *)
Lemma ref_line_fields r l rest :
  plain_ref r → l ≠ [] → splitn 4 x20 l = oid_to_hex (r_oid r) :: r_name r :: rest →
  default [] (rest !! 0%nat) = default [] (r_symref_target r) →
  default [] (rest !! 1%nat) = from_option oid_to_hex [] (r_peeled r) → ref_line l = Ok (Some r).
Proof.
  intros Hr Hl Hs H1 H2. unfold ref_line. destruct l as [|b l]; [done|]. rewrite Hs, H1, H2, oid_from_to_hex.
  cbn [context map_err mbind result_bind]. destruct r as [name oid peeled target]; cbn [r_name r_oid r_peeled r_symref_target] in *.
  assert (match default [] target with [] => None | _ => Some (default [] target) end = target) as ->.
  { destruct target as [t|]; [|done]. pose proof (plain_not_nil t (plain_ref_target _ Hr t eq_refl)). by destruct t. }
  destruct peeled as [p|]; cbn [from_option]; [|by rewrite decide_True by by left].
  destruct (plain_ref_peeled _ Hr p eq_refl) as [Hne Hz]. rewrite decide_False.
  - rewrite oid_from_to_hex. cbn [context map_err mbind result_bind]. by rewrite decide_False.
  - intros [E|E]; [|done]. pose proof (length_oid_to_hex p) as Hlen. by rewrite E in Hlen.
Qed.

Lemma ref_line_full r : plain_ref r → ref_line (ref_text r) = Ok (Some r).
Proof.
  intros Hr. apply (ref_line_fields r _ [default [] (r_symref_target r); from_option oid_to_hex [] (r_peeled r)]); [done| |..].
  - unfold ref_text. intros E%app_eq_nil. naive_solver.
  - unfold ref_text. cbn [app]. rewrite splitn_cons by by apply hex_free.
    rewrite splitn_cons by apply (plain_ref_name _ Hr). rewrite splitn_cons by (apply target_free; auto).
    by rewrite splitn_last by by apply peeled_free.
  - done.
  - done.
Qed.

Lemma ref_line_short r : plain_ref r → ref_line (short_text r) = Ok (Some r).
Proof.
  intros Hr. pose proof (plain_space _ (plain_ref_name _ Hr)) as Hn. unfold short_text.
  assert (∀ rest, oid_to_hex (r_oid r) ++ [x20] ++ r_name r ++ rest ≠ []) as Hne by (intros rest E%app_eq_nil; naive_solver).
  assert (x20 ∉ oid_to_hex (r_oid r)) as Ho by by apply hex_free.
  destruct (r_symref_target r) as [t|] eqn:Et, (r_peeled r) as [p|] eqn:Ep; cbn [default] in *.
  - pose proof (ref_line_full r Hr) as Hf. unfold ref_text in Hf. by rewrite Et, Ep in Hf.
  - apply (ref_line_fields r _ [t]); [done|done| |by rewrite Et|by rewrite Ep]. cbn [app].
    rewrite splitn_cons, splitn_cons by done. rewrite splitn_last; [done|]. apply (plain_ref_target _ Hr t Et).
  - pose proof (ref_line_full r Hr) as Hf. unfold ref_text in Hf. by rewrite Et, Ep in Hf.
  - apply (ref_line_fields r _ []); [done|done| |by rewrite Et|by rewrite Ep]. cbn [app].
    rewrite app_nil_r. rewrite splitn_cons by done. by rewrite splitn_last.
Qed.

(** The end of the shortened line. *)
Lemma short_text_end r : plain_ref r → ∃ s b, short_text r = s ++ [b] ∧ graphic b = true.
Proof.
  intros Hr. assert (∀ a m, (∃ n' b, m = n' ++ [b] ∧ graphic b = true) → ∃ s b, a ++ m = s ++ [b] ∧ graphic b = true) as Happ.
  { intros a m (n' & b & -> & Hb). exists (a ++ n'), b. by rewrite app_assoc. }
  assert (∀ o, ∃ n' b, oid_to_hex o = n' ++ [b] ∧ graphic b = true) as Hhex.
  { intros o. apply framed_last, framed_graphic; [apply oid_hex_not_nil|apply hex_graphic, oid_to_hex_digits]. }
  unfold short_text. do 2 apply Happ. destruct (r_symref_target r) as [t|] eqn:Et, (r_peeled r) as [p|]; cbn [default].
  - do 4 apply Happ. apply Hhex.
  - do 2 apply Happ. apply (plain_ref_target _ Hr t Et).
  - do 4 apply Happ. apply Hhex.
  - rewrite app_nil_r. apply (plain_ref_name _ Hr).
Qed.

(** The full line is the shortened one and spaces. *)
Lemma ref_text_short r : ∃ ws, ref_text r = short_text r ++ ws ∧ Forall blank ws.
Proof.
  unfold ref_text, short_text. destruct (r_symref_target r) as [t|], (r_peeled r) as [p|]; cbn [default from_option id].
  - exists []. by rewrite !app_nil_r.
  - exists [x20]. split; [by rewrite <- !app_assoc|by repeat constructor; left].
  - exists []. by rewrite !app_nil_r.
  - exists [x20; x20]. split; [by rewrite <- !app_assoc, app_nil_r|by repeat constructor; left].
Qed.

Lemma last_graphic s b : graphic b = true → last (s ++ [b]) ≠ Some x0d.
Proof. intros Hb. rewrite last_snoc. intros [= ->]. done. Qed.

Lemma ref_text_line r : plain_ref r → (x0a ∉ ref_text r) ∧ last (ref_text r) ≠ Some x0d ∧ utf8_valid (ref_text r) = true.
Proof.
  intros Hr. split_and!.
  - unfold ref_text. rewrite !elem_of_app, !list_elem_of_singleton. pose proof (target_free r x0a Hr (or_intror eq_refl)).
    pose proof (plain_newline _ (plain_ref_name _ Hr)). pose proof (hex_free (r_oid r) x0a eq_refl). pose proof (peeled_free r x0a eq_refl). naive_solver.
  - destruct (ref_text_short r) as (ws & -> & Hw). destruct (short_text_end r Hr) as (s & b & -> & Hb).
    destruct ws as [|w ws _] using rev_ind; [rewrite app_nil_r; by apply last_graphic|].
    apply Forall_app in Hw as [_ Hw%Forall_inv]. rewrite app_assoc, last_snoc. by destruct Hw as [->| ->].
  - assert (∀ o t, utf8_valid (oid_to_hex o ++ t) = utf8_valid t) as Hh by (intros; apply hex_utf8, oid_to_hex_digits).
    unfold ref_text. rewrite Hh. cbn [app utf8_valid]. change (in_range 0 127 x20) with true. cbn iota.
    rewrite utf8_valid_app by apply (plain_ref_name _ Hr). cbn [utf8_valid]. change (in_range 0 127 x20) with true. cbn iota.
    rewrite utf8_valid_app.
    + cbn [utf8_valid]. change (in_range 0 127 x20) with true. cbn iota. destruct (r_peeled r) as [p|]; [|done]. cbn [from_option].
      rewrite <- (app_nil_r (oid_to_hex p)). by rewrite Hh.
    + destruct (r_symref_target r) as [t|] eqn:Et; [|done]. apply (plain_ref_target _ Hr t Et).
Qed.

(** All lines. *)
Fixpoint refs_text (rs : list RefInfo) : bytes :=
  match rs with [] => [] | r :: rs' => ref_text r ++ x0a :: refs_text rs' end.

Lemma refs_text_utf8 rs : Forall plain_ref rs → utf8_valid (refs_text rs) = true.
Proof.
  induction 1 as [|r rs Hr _ IH]; [done|]. cbn [refs_text]. destruct (ref_text_line r Hr) as (_ & _ & Hu).
  by rewrite utf8_valid_app.
Qed.

(** Trimmed, the output ends in the shortened last line. *)
Fixpoint trimmed_text (rs : list RefInfo) : bytes :=
  match rs with [] => [] | [r] => short_text r | r :: rs' => ref_text r ++ x0a :: trimmed_text rs' end.

Lemma trim_refs_text rs : Forall plain_ref rs → trim (refs_text rs) = trimmed_text rs.
Proof.
  destruct rs as [|r0 rs0] eqn:Ers; [done|]. rewrite <- Ers. intros Hrs.
  assert (rs ≠ []) as Hne by by rewrite Ers. clear Ers.
  assert (∃ ws, refs_text rs = trimmed_text rs ++ ws ∧ Forall blank ws) as (ws & -> & Hw).
  { clear Hrs. induction rs as [|r rs IH]; [done|]. destruct rs as [|r' rs].
    - destruct (ref_text_short r) as (ws & E & Hw). exists (ws ++ [x0a]). cbn [refs_text trimmed_text]. rewrite E.
      split; [by rewrite <- app_assoc|]. apply Forall_app. split; [done|]. by repeat constructor; right.
    - destruct IH as (ws & E & Hw); [done|]. exists ws. split; [|done].
      change (refs_text (r :: r' :: rs)) with (ref_text r ++ x0a :: refs_text (r' :: rs)). rewrite E.
      change (trimmed_text (r :: r' :: rs)) with (ref_text r ++ x0a :: trimmed_text (r' :: rs)). by rewrite <- app_assoc. }
  apply trim_framed; [|done]. split.
  - destruct rs as [|r rs]; [done|].
    assert (∃ t, trimmed_text (r :: rs) = oid_to_hex (r_oid r) ++ t) as [t ->].
    { destruct rs; cbn [trimmed_text]; unfold short_text, ref_text; rewrite <- ?app_assoc; eauto. }
    destruct (framed_first (oid_to_hex (r_oid r))) as (b & t' & -> & Hb); [|by exists b, (t' ++ t)].
    apply framed_graphic; [apply oid_hex_not_nil|apply hex_graphic, oid_to_hex_digits].
  - clear -H0 Hrs Hne. induction rs as [|r rs IH]; [done|]. apply Forall_cons in Hrs as [Hr Hrs]. destruct rs as [|r' rs].
    + destruct (short_text_end r Hr) as (s & b & E & Hb). cbn [trimmed_text]. eauto.
    + destruct IH as (s & b & E & Hb); [done|done|]. change (trimmed_text (r :: r' :: rs)) with (ref_text r ++ x0a :: trimmed_text (r' :: rs)).
      rewrite E. exists (ref_text r ++ x0a :: s), b. by rewrite <- app_assoc.
Qed.

Lemma ref_lines_trimmed rs : Forall plain_ref rs → ref_lines (str_lines (trimmed_text rs)) = Ok rs.
Proof.
  induction 1 as [|r rs Hr Hrs IH]; [done|]. destruct (ref_text_line r Hr) as (Hn & Hl & _). destruct rs as [|r' rs].
  - destruct (short_text_end r Hr) as (s & b & E & Hb). destruct (ref_text_short r) as (ws & Et & _). cbn [trimmed_text].
    rewrite str_lines_one; [|by rewrite E; destruct s| |by rewrite E; apply last_graphic].
    + cbn [ref_lines]. by rewrite ref_line_short.
    + intros Hin. apply Hn. rewrite Et. apply elem_of_app. by left.
  - change (trimmed_text (r :: r' :: rs)) with (ref_text r ++ x0a :: trimmed_text (r' :: rs)).
    rewrite str_lines_cons by done. cbn [ref_lines]. rewrite ref_line_full by done. cbn [mbind result_bind]. by rewrite IH.
Qed.

(** What [git for-each-ref] prints for refs with plain names is read back as exactly those
    refs, with their targets and peeled objects, though the output is trimmed before it is split. *)
Theorem cli_list_refs_roundtrip repo_path rs w w1 output w2 head :
  Forall plain_ref rs → cli_head repo_path w = (head, w1) →
  git (Some repo_path) [b! "for-each-ref"; b! "--format=" ++ ref_format] [] w1 = (Ok output, w2) →
  success output = true → stdout output = refs_text rs →
  cli_list_refs repo_path w = (Ok {| rs_head := head; rs_refs := rs |}, w2).
Proof.
  intros Hrs Hh Hg Hs Ho. unfold cli_list_refs. rewrite Hh. unfold run_git, mbind, ST_bind, lift, mret, ST_ret.
  rewrite Hg, Hs, Ho, lossy_valid, trim_refs_text by by try apply refs_text_utf8. by rewrite ref_lines_trimmed.
Qed.
End reader_facts.

(** ** Objects, walks and packs *)

Section object_facts.
Context `{GixHashLaws} {program : GitProgram}.

(** The answer of [cat-file --batch-check]: the kind and the size of a stored object. *)
Definition answer (stored : ObjectId → option (bytes * N)) (o : ObjectId) : bytes :=
  oid_to_hex o ++ match stored o with
                  | Some (kind, size) => [x20] ++ kind ++ [x20] ++ decimal size
                  | None => b! " missing"
                  end.

Definition kind_names : list bytes := [b! "commit"; b! "tree"; b! "blob"; b! "tag"].

Lemma answer_line stored o :
  (∀ k n, stored o = Some (k, n) → k ∈ kind_names) →
  Forall (λ b, is_ascii b = true) (answer stored o) ∧ (x0a ∉ answer stored o) ∧ last (answer stored o) ≠ Some x0d ∧
  contains (b! "missing") (answer stored o) = bool_decide (stored o = None).
Proof.
  intros Hk. unfold answer. assert (∀ b, b ∈ oid_to_hex o → is_hex_digit b = true) as Hh by (apply Forall_forall, oid_to_hex_digits).
  assert (∀ n b, b ∈ decimal n → is_hex_digit b = true) as Hd.
  { intros n. apply Forall_forall. eapply Forall_impl; [apply decimal_digits|]. intros b Hb. unfold is_hex_digit. by rewrite Hb. }
  destruct (stored o) as [[k n]|] eqn:Es.
  - specialize (Hk k n eq_refl). unfold kind_names in Hk.
    assert (Forall (λ b, is_ascii b = true) k ∧ (x0a ∉ k) ∧ x73 ∉ k) as (Hka & Hkn & Hks).
    { rewrite !elem_of_cons, elem_of_nil in Hk. destruct Hk as [->|[->|[->|[->|[]]]]];
        (split_and!; [by repeat constructor|by apply (bool_decide_eq_false _)|by apply (bool_decide_eq_false _)]). }
    assert (∀ c, is_hex_digit c = false → c ≠ x20 → c ∉ k → c ∉ oid_to_hex o ++ [x20] ++ k ++ [x20] ++ decimal n) as Hfree.
    { intros c Hc Hs Hck. rewrite !elem_of_app, !list_elem_of_singleton. intros [?%Hh|[?|[?|[?|?%Hd]]]]; congruence. }
    split_and!.
    + rewrite !Forall_app. split_and!; try done; try (by repeat constructor); apply Forall_forall; intros b Hb; apply is_hex_digit_ascii; eauto.
    + by apply Hfree.
    + destruct (exists_last (decimal_not_nil n)) as (ds & d & En). rewrite En.
      rewrite !app_assoc, last_snoc. intros [= ->]. assert (is_hex_digit x0d = true) as E; [|done].
      apply (Hd n). rewrite En. apply elem_of_app. right. by left.
    + rewrite bool_decide_false by done. apply (contains_char _ _ x73); [by apply (bool_decide_eq_true _)|]. by apply Hfree.
  - split_and!.
    + apply Forall_app. split; [apply Forall_forall; intros b Hb; by apply is_hex_digit_ascii, Hh|by repeat constructor].
    + rewrite elem_of_app. intros [?%Hh|Hin]; [done|]. by apply (bool_decide_eq_true _) in Hin.
    + change (b! " missing") with (b! " missin" ++ [x67]). by rewrite app_assoc, last_snoc.
    + rewrite bool_decide_true by done. change (b! " missing") with ([x20] ++ b! "missing"). rewrite app_assoc. apply contains_suffix.
Qed.

Definition answers (stored : ObjectId → option (bytes * N)) (oids : list ObjectId) : bytes := oids ≫= λ o, line (answer stored o).

Lemma answers_cons stored o os : answers stored (o :: os) = answer stored o ++ x0a :: answers stored os.
Proof. unfold answers. rewrite bind_cons. unfold line. by rewrite <- app_assoc. Qed.

(** [has_objects] tells exactly which objects are stored, by the answers of git. *)
Theorem cli_has_objects_correct stored repo_path oids w output w' :
  (∀ o k n, stored o = Some (k, n) → k ∈ kind_names) →
  git (Some repo_path) [b! "cat-file"; b! "--batch-check"] (oids ≫= λ o, line (oid_to_hex o)) w = (Ok output, w') →
  stdout output = answers stored oids → oids ≠ [] →
  cli_has_objects repo_path oids w = (Ok ((λ o, bool_decide (is_Some (stored o))) <$> oids), w').
Proof.
  intros Hk Hg Ho Hne. unfold cli_has_objects. destruct oids as [|o0 oids0] eqn:E0; [done|]. rewrite <- E0 in *. clear Hne E0 o0 oids0.
  rewrite Hg, Ho.
  assert (Forall (λ b, is_ascii b = true) (answers stored oids)) as Ha.
  { clear Ho Hg. induction oids as [|o os IH]; [constructor|]. rewrite answers_cons. apply Forall_app. split; [apply answer_line; eauto|]. by constructor. }
  rewrite lossy_valid by by apply ascii_utf8.
  assert ((λ l, negb (contains (b! "missing") l)) <$> str_lines (answers stored oids)
          = (λ o, bool_decide (is_Some (stored o))) <$> oids) as ->.
  { clear Ho Hg Ha. induction oids as [|o os IH]; [done|]. rewrite answers_cons.
    destruct (answer_line stored o) as (_ & Hn & Hl & Hc); [by apply Hk|]. rewrite str_lines_cons by done. rewrite !fmap_cons, IH, Hc. f_equal.
    destruct (stored o); [by rewrite bool_decide_false, bool_decide_true|].
    rewrite bool_decide_true, bool_decide_false; [done|by intros [? ?]|done]. }
  unfold pad_to. rewrite length_fmap, Nat.sub_diag. cbn [replicate]. by rewrite app_nil_r.
Qed.

(** A line of [rev-list --boundary --parents]: a commit and its parents, marked when it is
    excluded. *)
Definition rev_line (x : bool * (ObjectId * list ObjectId)) : bytes :=
  (if x.1 then b! "-" else []) ++ join [x20] (oid_to_hex <$> x.2.1 :: x.2.2).

Definition rev_output (xs : list (bool * (ObjectId * list ObjectId))) : bytes := xs ≫= λ x, line (rev_line x).

Lemma hexes_words os : Forall (λ w, w ≠ [] ∧ Forall (λ b, graphic b = true) w) (oid_to_hex <$> os).
Proof.
  apply Forall_fmap, Forall_true. intros o. split; [apply oid_hex_not_nil|apply hex_graphic, oid_to_hex_digits].
Qed.

Lemma hexes_split os : split_whitespace (join [x20] (oid_to_hex <$> os)) = oid_to_hex <$> os.
Proof. apply split_whitespace_join, hexes_words. Qed.

Lemma hexes_start o os : ∃ b s, join [x20] (oid_to_hex <$> o :: os) = b :: s ∧ is_hex_digit b = true.
Proof.
  rewrite fmap_cons. pose proof (oid_to_hex_digits o) as Hd. pose proof (oid_hex_not_nil o) as Hn.
  destruct (oid_to_hex o) as [|b h]; [done|]. apply Forall_inv in Hd. destruct (oid_to_hex <$> os); cbn [join app]; eauto.
Qed.

Lemma boundary_oid_line x : boundary_oid (rev_line x) = if x.1 then Some x.2.1 else None.
Proof.
  destruct x as [mark [c ps]]. unfold boundary_oid, rev_line. cbn [fst snd]. destruct mark.
  - rewrite strip_prefix_app. cbn [mbind option_bind]. rewrite hexes_split, fmap_cons. cbn [head from_option id]. by rewrite oid_from_to_hex.
  - destruct (hexes_start c ps) as (b & s & E & Hb). rewrite E. cbn [app]. destruct (strip_prefix _ _) as [r|] eqn:Es; [|done].
    apply strip_prefix_Some in Es. by destruct b.
Qed.

Lemma shallow_oid_line bd x :
  shallow_oid bd (rev_line x) = if negb x.1 && existsb (λ p, bool_decide (p ∈ bd)) x.2.2 then Some x.2.1 else None.
Proof.
  destruct x as [mark [c ps]]. unfold shallow_oid, rev_line. cbn [fst snd]. destruct mark.
  - assert (starts_with (b! "-") (b! "-" ++ join [x20] (oid_to_hex <$> c :: ps)) = true) as -> by (apply starts_with_true; eauto). done.
  - destruct (hexes_start c ps) as (b & s & E & Hb). cbn [app].
    assert (starts_with (b! "-") (join [x20] (oid_to_hex <$> c :: ps)) = false) as ->.
    { rewrite E. destruct (starts_with _ _) eqn:Es; [|done]. apply starts_with_true in Es as [r Er]. by destruct b. }
    rewrite bool_decide_false by by rewrite E. cbn [orb negb andb]. rewrite hexes_split, fmap_cons. cbn [head tail from_option id].
    rewrite oid_from_to_hex. cbn [ok mbind option_bind].
    assert (existsb (λ p, match oid_from_hex p with Ok oid => bool_decide (oid ∈ bd) | Err _ => false end) (oid_to_hex <$> ps)
            = existsb (λ p, bool_decide (p ∈ bd)) ps) as ->; [|done].
    clear E. induction ps as [|p ps IH]; [done|]. rewrite fmap_cons. cbn [existsb]. by rewrite oid_from_to_hex, IH.
Qed.

Lemma rev_line_plain x : (x0a ∉ rev_line x) ∧ last (rev_line x) ≠ Some x0d.
Proof.
  assert (∀ c, c ∈ rev_line x → is_hex_digit c = true ∨ c = x20 ∨ c = x2d) as Hc.
  { intros c. unfold rev_line. rewrite elem_of_app. intros [Hin|Hin].
    - destruct x.1; [apply list_elem_of_singleton in Hin as ->; auto|by apply elem_of_nil in Hin].
    - revert Hin. generalize (x.2.1 :: x.2.2). intros os. induction os as [|o os IH]; [by intros ?%elem_of_nil|].
      pose proof (proj1 (Forall_forall _ _) (oid_to_hex_digits o)) as Hd. rewrite fmap_cons. destruct os as [|o' os]; [cbn; auto|].
      rewrite fmap_cons in *. change (join [x20] (oid_to_hex o :: ?a :: ?l)) with (oid_to_hex o ++ [x20] ++ join [x20] (a :: l)).
      rewrite !elem_of_app, list_elem_of_singleton. intros [?|[?|?]]; auto. }
  split; [intros Hin; destruct (Hc _ Hin) as [?|[?|?]]; done|]. intros Hl%last_Some_elem_of. destruct (Hc _ Hl) as [?|[?|?]]; done.
Qed.

Lemma str_lines_rev xs : str_lines (rev_output xs) = rev_line <$> xs.
Proof.
  induction xs as [|x xs IH]; [done|]. unfold rev_output in *. rewrite bind_cons. unfold line at 1. rewrite <- app_assoc.
  destruct (rev_line_plain x) as [Hn Hl]. cbn [app]. by rewrite str_lines_cons, IH by done.
Qed.

(** The shallow commits of a deepening fetch are the listed commits with an excluded
    parent, whether the depth excludes it or the client's own haves do. *)
Theorem shallow_commits_spec xs c :
  c ∈ shallow_commits (rev_output xs) ↔
  ∃ ps p qs, (false, (c, ps)) ∈ xs ∧ p ∈ ps ∧ (true, (p, qs)) ∈ xs.
Proof.
  assert (∀ p, p ∈ omap boundary_oid (rev_line <$> xs) ↔ ∃ qs, (true, (p, qs)) ∈ xs) as Hb.
  { intros p. rewrite list_elem_of_omap. setoid_rewrite list_elem_of_fmap. split.
    - intros (l & (x & -> & Hx) & E). rewrite boundary_oid_line in E. destruct x as [[] [q qs]]; cbn in E; simplify_eq. eauto.
    - intros [qs Hx]. eexists. split; [eauto|]. by rewrite boundary_oid_line. }
  unfold shallow_commits. rewrite str_lines_rev, list_elem_of_omap. setoid_rewrite list_elem_of_fmap. split.
  - intros (l & (x & -> & Hx) & E). rewrite shallow_oid_line in E. destruct x as [mark [c' ps]]. cbn [fst snd] in E.
    destruct (negb mark && _) eqn:Em; [|done]. injection E as ->. apply andb_true_iff in Em as [Hm (p & Hp%list_elem_of_In & Hin%bool_decide_eq_true)%existsb_exists].
    destruct mark; [done|]. apply Hb in Hin as [qs ?]. eauto 10.
  - intros (ps & p & qs & Hx & Hp & Hq). exists (rev_line (false, (c, ps))). split; [eauto|]. rewrite shallow_oid_line. cbn [fst snd negb andb].
    match goal with |- context [existsb ?f ps] => assert (existsb f ps = true) as -> end; [|done].
    apply existsb_exists. exists p. split; [by apply list_elem_of_In|]. apply bool_decide_eq_true, Hb. eauto.
Qed.
End object_facts.

Section walk_facts.
Context `{GixHashLaws} {program : GitProgram}.

(** What [rev-list] prints. *)
Definition rev_text (l : list ObjectId) : bytes := l ≫= λ o, line (oid_to_hex o).

Lemma rev_text_cons o l : rev_text (o :: l) = oid_to_hex o ++ x0a :: rev_text l.
Proof. unfold rev_text. rewrite bind_cons. unfold line at 1. by rewrite <- app_assoc. Qed.

Lemma hex_framed o : framed (oid_to_hex o).
Proof. apply framed_graphic; [apply oid_hex_not_nil|apply hex_graphic, oid_to_hex_digits]. Qed.

Lemma rev_text_trim l : trim (rev_text l) = join [x0a] (oid_to_hex <$> l).
Proof.
  destruct l as [|o l]; [done|].
  assert (rev_text (o :: l) = join [x0a] (oid_to_hex <$> o :: l) ++ [x0a] ∧ framed (join [x0a] (oid_to_hex <$> o :: l))) as [-> Hf].
  { revert o; induction l as [|o' l IH]; intros o.
    - rewrite rev_text_cons. cbn. split; [done|apply hex_framed].
    - rewrite rev_text_cons. destruct (IH o') as [-> Hf]. rewrite !fmap_cons in *.
      change (join [x0a] (oid_to_hex o :: ?a :: ?r)) with (oid_to_hex o ++ [x0a] ++ join [x0a] (a :: r)).
      split; [by rewrite <- !app_assoc|]. apply framed_app; [apply hex_framed|done]. }
  apply trim_framed; [done|]. by repeat constructor; right.
Qed.

Lemma hex_line o : (x0a ∉ oid_to_hex o) ∧ last (oid_to_hex o) ≠ Some x0d.
Proof.
  split; [by apply oid_to_hex_no|]. intros Hl%last_Some_elem_of. by apply oid_to_hex_no in Hl.
Qed.

Lemma str_lines_join l : str_lines (join [x0a] (oid_to_hex <$> l)) = oid_to_hex <$> l.
Proof.
  induction l as [|o l IH]; [done|]. destruct (hex_line o) as [Hn Hl]. destruct l as [|o' l].
  - cbn. apply str_lines_one; [apply oid_hex_not_nil|done|done].
  - rewrite !fmap_cons in *. change (join [x0a] (oid_to_hex o :: ?a :: ?r)) with (oid_to_hex o ++ x0a :: join [x0a] (a :: r)).
    by rewrite str_lines_cons, IH.
Qed.

Lemma rev_lines_hex cap out l :
  rev_lines cap out (oid_to_hex <$> l) =
    if decide (l = [] ∨ len out + len l ≤ cap) then Ok (out ++ l) else Err (CapExceeded cap).
Proof.
  revert out; induction l as [|o l IH]; intros out; [rewrite decide_True by (by left); by rewrite app_nil_r|].
  rewrite fmap_cons. cbn [rev_lines]. rewrite <- (app_nil_r (oid_to_hex o)), trim_framed by (try apply hex_framed; done).
  pose proof (oid_hex_not_nil o) as Hn. pose proof (oid_from_to_hex o) as Ho. destruct (oid_to_hex o) as [|b h]; [done|]. rewrite Ho.
  unfold len in *. cbn [length]. destruct (N.leb_spec cap (N.of_nat (length out))).
  - rewrite decide_False; [done|]. intros [?|?]; [done|lia].
  - rewrite IH, length_app. cbn [length]. destruct l as [|o' l].
    + rewrite !decide_True by (first [by left|right; cbn [length]; lia]). by rewrite app_nil_r.
    + rewrite <- app_assoc. do 2 case_decide; try done; exfalso; cbn [length] in *; destruct_or?; try done; lia.
Qed.

(** (C23) When git lists the commits of a walk, up to the count it is asked for, the walk gives
    exactly these commits, or the cap as exceeded if there are more than it; but for the
    largest cap the count wraps to zero, git lists nothing, and the walk finds no commit. *)
Theorem cli_reachable_capped repo_path from excluding cap commits w output w' :
  from ≠ [] → cap ≤ usize_max →
  git (Some repo_path) (rev_list_args from excluding cap) [] w = (Ok output, w') → success output = true →
  stdout output = rev_text (take (N.to_nat (usize_succ cap)) commits) →
  (cap < usize_max → cli_reachable_excluding repo_path from excluding cap w =
     (if decide (len commits ≤ cap) then Ok commits else Err (CapExceeded cap), w')) ∧
  (cap = usize_max → (∃ revs, rev_list_args from excluding cap = revs ++ [b! "--max-count=0"]) ∧
     cli_reachable_excluding repo_path from excluding cap w = (Ok [], w')).
Proof.
  intros Hf Hcap Hg Hs Ho.
  assert (cli_reachable_excluding repo_path from excluding cap w =
          (rev_lines cap [] (oid_to_hex <$> take (N.to_nat (usize_succ cap)) commits), w')) as E.
  { unfold cli_reachable_excluding. destruct from as [|f from]; [done|]. unfold run_git. rewrite Hg, Hs, Ho.
    assert (∀ l, utf8_valid (rev_text l) = true) as Hu.
    { induction l as [|o l IH]; [done|]. rewrite rev_text_cons. rewrite hex_utf8 by apply oid_to_hex_digits. done. }
    by rewrite lossy_valid, rev_text_trim, str_lines_join by done. }
  rewrite E, rev_lines_hex. unfold usize_succ, usize_max, u64_max, len in *. split.
  - intros Hlt. rewrite N.mod_small by (change (2 ^ 64) with 18446744073709551616; lia). f_equal. cbn [length app].
    rewrite length_take. destruct (decide (N.of_nat (length commits) ≤ cap)) as [Hl|Hl].
    + rewrite decide_True by (right; lia). f_equal. apply take_ge. lia.
    + rewrite decide_False; [done|]. intros [Ht|?]; [|lia].
      apply (f_equal length) in Ht. rewrite length_take in Ht. cbn in Ht. lia.
  - intros ->. split.
    + exists ([b! "rev-list"; b! "--topo-order"] ++ (oid_to_hex <$> from) ++ ((λ o, b! "^" ++ oid_to_hex o) <$> excluding)).
      unfold rev_list_args. by rewrite <- !app_assoc.
    + change (N.to_nat ((18446744073709551615 + 1) mod 2 ^ 64)) with 0%nat. done.
Qed.

(** The files of the disk, and opening the bundle of a pack that is not there. *)
Class GitFiles := {
  contents : bytes → world → option bytes;
  no_bundle : bytes → error }.

Class GitFilesLaws {files : GitFiles} : Prop := {
  contents_remove p q w : contents p (remove_file q w) = if decide (p = q) then None else contents p w }.

(** A rollback of the git CLI backend removes the two files of the pack whoever stored them:
    unlike the gitoxide backend it keeps no record of which files an ingest created. *)
Lemma cli_rollback_removes_stored_pack `{!GitFiles, !GitFilesLaws} p w' :
  contents (pack p) (cli_rollback_ingest p w') = None ∧ contents (index p) (cli_rollback_ingest p w') = None ∧
  ∀ n, n ≠ pack p → n ≠ index p → contents n (cli_rollback_ingest p w') = contents n w'.
Proof.
  unfold cli_rollback_ingest. split_and!; intros; rewrite !contents_remove; repeat case_decide; congruence.
Qed.

(** Reading the output of a program to its end gives its chunks, and then an error exactly
    when the program failed. *)
Lemma reads_of_chunks chunks child errs :
  Forall (λ c : bytes, c ≠ []) chunks →
  reads_of (S (length chunks)) {| cr_stdout := Ok <$> chunks; cr_child := Some child; cr_stderr := errs |} =
  (Ok <$> chunks) ++
  [match child with
   | Err e => Err e
   | Ok output => if success output then Ok []
                  else Err (Fmt (b! "git process exited with " ++ status output ++ b! ": ") (Lossy errs))
   end].
Proof.
  induction 1 as [|c chunks Hc _ IH].
  - cbn. destruct child as [output|e]; [|done]. by destruct (success output).
  - destruct c as [|b c]; [done|]. cbn [length reads_of]. unfold child_read at 1. cbn [cr_stdout fmap list_fmap]. cbn [cr_child cr_stderr].
    cbn [app]. f_equal. exact IH.
Qed.
End walk_facts.
