(* ===== verification/CliBackend.v ===== *)
(** * The git CLI backend as a storage backend ([impl StorageBackend for FsGitCli], [backend/fs_git_cli.rs])

    The operations of [FsGitCli] as an instance of the trait, over the [git] program.  It
    keeps what every backend promises of refs; of the documented compare-and-swap it keeps
    what [git update-ref] gives, for ref names that its command language reads as one word. *)

From stdpp Require Import base gmap list sorting strings.
From Stdlib Require Import Strings.Byte NArith Lia.
From S2P Require Import Prelude Bytes Text Gix Proto Types Handlers Sigverify Auth Serve Graph Inspect FsGitCli.
Open Scope N_scope.

Section backend.
Context `{GixObject} {gix_pack : GixPack} {program : GitProgram} {files : GitFiles}.

(** [inspect_ingested]. *)
Definition cli_inspect (p : CliWrittenPack) : ST world PackMetadata := fun w =>
  (match contents (pack p) w with
   | Some data => inspect_pack {| pf_path := pack p; pf_pack := data; pf_idx := contents (index p) w |}
   | None => Err (Context (b! "opening pack bundle") (no_bundle (pack p)))
   end, w).

#[export] Instance cli_backend : StorageBackend := {|
  store := world;
  RepoId := bytes;
  Repo := bytes;
  IngestedPack := CliWrittenPack;
  sb_open id w := (cli_open id, w);
  sb_list_refs := cli_list_refs;
  sb_resolve_ref := cli_resolve_ref;
  sb_update_refs := cli_update_refs;
  sb_init_repo := cli_init_repo;
  sb_has_objects := cli_has_objects;
  sb_compute_push_kind := cli_compute_push_kind;
  sb_build_pack := cli_build_pack;
  sb_ingest_pack := cli_ingest_pack;
  sb_inspect_ingested := cli_inspect;
  sb_rollback_ingest := cli_rollback_ingest;
  sb_reachable_excluding := cli_reachable_excluding;
  sb_tree_diff := cli_tree_diff;
  sb_read_commit_info := cli_read_commit_info;
  sb_read_blob := cli_read_blob;
  sb_read_object_raw := cli_read_object_raw;
|}.
End backend.

(** ** The contract *)

(** The commands that read, and those that add objects or a repository. *)
Definition keeps_refs (args : list bytes) : Prop :=
  args = [b! "symbolic-ref"; b! "HEAD"] ∨
  ∃ c, head args = Some c ∧
    c ∈ [b! "for-each-ref"; b! "rev-parse"; b! "cat-file"; b! "merge-base"; b! "rev-list"; b! "diff-tree";
         b! "index-pack"; b! "init"].

Definition index_pack_args : list bytes := [b! "index-pack"; b! "--stdin"; b! "--index-version=2"; b! "--fix-thin"].

(** What is kept of a repository: its refs that hold objects, and its symbolic refs but
    [HEAD], which comes with a new repository. *)
Definition HEAD : bytes := b! "HEAD".

Definition ref_state `{GixHash} {program : GitProgram} {update : GitUpdateRef} (r : bytes) (w : world) :
    gmap bytes ObjectId * gmap bytes bytes :=
  (refs_at r w, delete HEAD (symrefs_at r w)).

(** What git documents of refs: [update-ref --stdin] performs all modifications of the
    repository it runs in or none, however it ends; the other commands keep refs; and the
    files of a pack that [index-pack] stored are not refs. *)
Class GitRefs `{GixHash} {program : GitProgram} {update : GitUpdateRef} := {
  update_ref_atomic path (cmds : list RefCommand) w x w' :
    Forall (λ c, one_word (cmd_name c)) cmds →
    git (Some path) [b! "update-ref"; b! "--stdin"] (cmds ≫= cmd_line) w = (x, w') →
    refs_at path w' = refs_at path w ∨ performed (symrefs_at path w) cmds (refs_at path w) (refs_at path w');
  update_ref_symrefs path (cmds : list RefCommand) w :
    Forall (λ c, one_word (cmd_name c)) cmds →
    symrefs_at path (git (Some path) [b! "update-ref"; b! "--stdin"] (cmds ≫= cmd_line) w).2 = symrefs_at path w;
  update_ref_elsewhere path input w r :
    r ≠ path → ref_state r (git (Some path) [b! "update-ref"; b! "--stdin"] input w).2 = ref_state r w;
  git_keeps d args input w r : keeps_refs args → ref_state r (git d args input w).2 = ref_state r w;
  git_pipe_keeps path opts input w r : ref_state r (git_pipe path (pack_args opts) input w).2 = ref_state r w;
  indexed_pack_is_no_ref path staged w output w' ext v r :
    git (Some path) index_pack_args staged w = (Ok output, w') → success output = true →
    ext ∈ [b! ".pack"; b! ".idx"] →
    ref_state r (remove_file ((path ++ b! "/objects/pack") ++ b! "/pack-" ++ printed_hash (stdout output) ++ ext) v) = ref_state r v }.

Section contract.
Context `{GixHashLaws} {gix_object : GixObject} {gix_pack : GixPack} {program : GitProgram} {files : GitFiles}
  {update : GitUpdateRef} {laws : GitRefs}.
Implicit Types (r : bytes).

Lemma keeps_run_git r repo args : keeps_refs args → pres (ref_state r) (run_git repo args).
Proof.
  intros Hk w. unfold run_git. pose proof (git_keeps (Some repo) args [] w r Hk) as E.
  by destruct (git _ _ _ w) as [[]].
Qed.

Lemma keeps_git_output r c d args : keeps_refs args → pres (ref_state r) (git_output c d args).
Proof.
  intros Hk w. unfold git_output. pose proof (git_keeps d args [] w r Hk) as E. by destruct (git _ _ _ w).
Qed.

(** A command of the list, by its first word. *)
Lemma keeps_head args c :
  head args = Some c →
  bool_decide (c ∈ [b! "for-each-ref"; b! "rev-parse"; b! "cat-file"; b! "merge-base"; b! "rev-list"; b! "diff-tree";
                    b! "index-pack"; b! "init"]) = true → keeps_refs args.
Proof. intros Hh Hc%bool_decide_eq_true. right. eauto. Qed.

Ltac keeps_refs := first [by left|eapply keeps_head; [reflexivity|vm_compute; reflexivity]].

(** Computations that run such commands. *)
Ltac keeps_walk :=
  repeat first
    [ progress intros
    | match goal with |- pres _ (if ?b then _ else _) => destruct b end
    | apply keeps_run_git; keeps_refs | apply keeps_git_output; keeps_refs
    | apply pres_ret | apply pres_lift | apply pres_bind ].

(** One command whose outcome is looked at. *)
Ltac keeps_git w :=
  match goal with |- context [git ?d ?args ?input w] =>
    let E := fresh "E" in
    assert (∀ r, ref_state r (git d args input w).2 = ref_state r w) as E by (intros ?; apply git_keeps; keeps_refs);
    let x := fresh "x" in let w' := fresh "w" in
    destruct (git d args input w) as [x w']; cbn [snd] in E
  end.

Lemma cli_head_keeps r repo w : ref_state r (cli_head repo w).2 = ref_state r w.
Proof.
  unfold cli_head. pose proof (keeps_run_git r repo [b! "symbolic-ref"; b! "HEAD"] ltac:(keeps_refs) w) as E1.
  destruct (run_git repo [b! "symbolic-ref"; b! "HEAD"] w) as [t w1]. cbn [snd] in E1.
  pose proof (keeps_run_git r repo [b! "rev-parse"; b! "HEAD"] ltac:(keeps_refs) w1) as E2.
  destruct (run_git repo _ w1) as [h w2]. cbn [snd] in *. by rewrite E2.
Qed.

Lemma cli_list_refs_keeps r repo : pres (ref_state r) (cli_list_refs repo).
Proof.
  intros w. unfold cli_list_refs. pose proof (cli_head_keeps r repo w) as E1. destruct (cli_head repo w) as [h w1]. cbn [snd] in E1.
  rewrite <- E1. revert w1 E1. intros w1 _. revert w1. change (pres (ref_state r)
    (output ← run_git repo [b! "for-each-ref"; b! "--format=" ++ ref_format];
     refs ← lift (ref_lines (str_lines output)); mret {| rs_head := h; rs_refs := refs |})). keeps_walk.
Qed.

Lemma cli_resolve_ref_keeps r repo n : pres (ref_state r) (cli_resolve_ref repo n).
Proof.
  intros w. unfold cli_resolve_ref.
  pose proof (keeps_run_git r repo [b! "rev-parse"; b! "--verify"; n ++ b! "^{}"] ltac:(keeps_refs) w) as E.
  by destruct (run_git _ _ w).
Qed.

Lemma cli_init_repo_keeps r repo : pres (ref_state r) (cli_init_repo repo).
Proof. intros w. unfold cli_init_repo. destruct (path_exists _ _); [done|]. keeps_git w. by destruct x. Qed.

Lemma cli_has_objects_keeps r repo os : pres (ref_state r) (cli_has_objects repo os).
Proof. intros w. unfold cli_has_objects. destruct os; [done|]. keeps_git w. by destruct x. Qed.

Lemma cli_push_kind_keeps r repo u : pres (ref_state r) (cli_compute_push_kind repo u).
Proof.
  intros w. unfold cli_compute_push_kind. destruct (is_null _); [done|]. destruct (is_null _); [done|].
  keeps_git w. by destruct x.
Qed.

Lemma pack_objects_keeps r repo c opts input sh : pres (ref_state r) (pack_objects repo c opts input sh).
Proof.
  intros w. unfold pack_objects. pose proof (git_pipe_keeps repo opts input w r) as E.
  destruct (git_pipe _ _ _ w) as [[[[rs ch] es]|] w']; [|done]. by destruct (spawn_stderr_progress es).
Qed.

Lemma cli_build_pack_keeps r repo want have opts : pres (ref_state r) (cli_build_pack repo want have opts).
Proof.
  unfold cli_build_pack, cli_build_pack_shallow. destruct (po_deepen opts); [|apply pack_objects_keeps].
  apply pres_bind; [apply keeps_git_output; keeps_refs|]. intros output. destruct (success output); [apply pack_objects_keeps|apply pres_lift].
Qed.

Lemma cli_ingest_keeps r repo staged : pres (ref_state r) (cli_ingest_pack repo staged).
Proof.
  intros w. unfold cli_ingest_pack. destruct staging_error; [done|]. destruct (_ =? 0); [done|].
  destruct (create_dir _ _); [done|]. keeps_git w. destruct x as [output|]; [|done]. by destruct (success output).
Qed.

Lemma cli_reachable_keeps r repo from excl cap w : ref_state r (cli_reachable_excluding repo from excl cap w).2 = ref_state r w.
Proof.
  unfold cli_reachable_excluding. destruct from as [|f from]; [done|].
  pose proof (keeps_run_git r repo (rev_list_args (f :: from) excl cap) ltac:(keeps_refs) w) as E.
  by destruct (run_git _ _ w) as [[]].
Qed.

Lemma cli_tree_diff_keeps r repo p c : pres (ref_state r) (cli_tree_diff repo p c).
Proof.
  intros w. unfold cli_tree_diff, with_context, mbind, ST_bind.
  match goal with |- context [run_git repo ?args w] => pose proof (keeps_run_git r repo args ltac:(keeps_refs) w) as E end.
  destruct (run_git _ _ w) as [[out|e] w']; cbn [map_err lift]; [|done]. by destruct (diff_records _ out).
Qed.

Lemma cli_commit_info_keeps r repo o : pres (ref_state r) (cli_read_commit_info repo o).
Proof. unfold cli_read_commit_info. keeps_walk. Qed.

Lemma cat_file_keeps r repo flag o w : ref_state r (cat_file repo flag o w).2 = ref_state r w.
Proof. unfold cat_file. keeps_git w. by destruct x. Qed.

Lemma read_capped_keeps r repo o cap c kind : pres (ref_state r) (read_capped repo o cap c kind).
Proof.
  intros w. unfold read_capped. pose proof (cat_file_keeps r repo (b! "-s") o w) as E1.
  destruct (cat_file repo _ o w) as [[size|] w1]; cbn [snd] in E1; [|done]. destruct (_ <? _); [done|].
  pose proof (cat_file_keeps r repo (b! "-t") o w1) as E2. destruct (cat_file repo _ o w1) as [k w2]. cbn [snd] in E2.
  destruct (_ ≫= _) as [k'|]; [|by cbn; rewrite E2]. rewrite <- E1, <- E2. clear E1 E2. revert w2.
  change (pres (ref_state r) (output ← git_output c (Some repo) [b! "cat-file"; k'; oid_to_hex o];
    mret (if success output then Some (stdout output) else None))). keeps_walk.
Qed.

Lemma cli_update_refs_run repo us w x w' :
  cli_update_refs repo us w = (x, w') → us ≠ [] → (git (Some repo) [b! "update-ref"; b! "--stdin"] (update_stdin us) w).2 = w'.
Proof. unfold cli_update_refs. destruct us; [done|]. by destruct (git _ _ _ _) as [[]]; intros [= _ <-]. Qed.

(** A name that [git update-ref] takes for itself: one word, and no symbolic ref. *)
Definition direct (symrefs : gmap bytes bytes) (u : RefUpdate) : Prop :=
  one_word (refname u) ∧ refname u ≠ HEAD ∧ symrefs !! refname u = None.

(** What [update_refs] does, whether it reports success or not. *)
Lemma cli_update_refs_effect repo us w x w' :
  cli_update_refs repo us w = (x, w') → Forall (direct (delete HEAD (symrefs_at repo w))) us →
  ref_state repo w' = ref_state repo w ∨
  cas_updates (refs_at repo w) us = Some (refs_at repo w') ∧ delete HEAD (symrefs_at repo w') = delete HEAD (symrefs_at repo w).
Proof.
  intros Hu Hd. destruct (decide (us = [])) as [->|Hn]; [by injection Hu as _ <-; left|].
  assert (Forall (λ u, one_word (refname u)) us) as Hw by (eapply Forall_impl; [exact Hd|]; by intros u []).
  apply cli_update_refs_run in Hu; [|done]. destruct (git _ _ _ _) as [y w1] eqn:Eg. cbn in Hu. subst w1.
  rewrite update_stdin_commands in Eg. pose proof (update_ref_symrefs repo _ w (one_word_commands us Hw)) as Es. rewrite Eg in Es. cbn in Es.
  unfold ref_state. rewrite Es. destruct (update_ref_atomic _ _ _ _ _ (one_word_commands us Hw) Eg) as [->|Hp]; [by left|right].
  split; [|done]. apply performed_updates in Hp as (vs & Hvs & _ & _ & Hcas). rewrite <- (follows_direct _ _ _ Hvs); [done|].
  eapply Forall_impl; [exact Hd|]. intros u (_ & Hh & Hs). by rewrite lookup_delete_ne in Hs.
Qed.

(** The git CLI backend keeps what every backend promises of refs. *)
#[export, refine] Instance cli_refs : RefsLaws := {
  refs_view (path : Repo) (w : store) := ref_state path w;
  RepoTag := bytes;
  repo_tag (path : Repo) := path;
  ref_effect us m m' := us ≠ [] ∧ (Forall (direct m.2) us → cas_updates m.1 us = Some m'.1 ∧ m'.2 = m.2);
  ingested p := ∃ path staged w w', cli_ingest_pack path staged w = (Ok (Some p), w');
}.
Proof.
  - by intros r r' w <-.
  - intros repo us w x w' Hu. destruct (decide (us = [])) as [->|Hn]; [by injection Hu as _ <-; left|].
    destruct (decide (ref_state repo w' = ref_state repo w)) as [|Hne]; [by left|right].
    split; [done|]. intros Hw. by destruct (cli_update_refs_effect _ _ _ _ _ Hu Hw).
  - by intros m m' [? _].
  - intros repo us w x w' r Hu Hr. destruct (decide (us = [])) as [->|Hn]; [by injection Hu as _ <-|].
    cbn in Hu. rewrite <- (cli_update_refs_run _ _ _ _ _ Hu Hn). by apply update_ref_elsewhere.
  - intros path staged w p w' Hi. by exists path, staged, w, w'.
  - intros p v r (path & staged & w & w' & Hi). cbn. unfold cli_ingest_pack in Hi. destruct staging_error; [done|].
    destruct (_ =? 0); [done|]. destruct (create_dir _ _); [done|]. destruct (git _ _ _ w) as [[output|] w1] eqn:Eg; [|done].
    destruct (success output) eqn:Es; [|done]. injection Hi as <- _. unfold cli_rollback_ingest. cbn [pack index].
    etransitivity; [exact (indexed_pack_is_no_ref _ _ _ _ _ (b! ".pack") _ _ Eg Es ltac:(by left))|].
    exact (indexed_pack_is_no_ref _ _ _ _ _ (b! ".idx") _ _ Eg Es ltac:(by right; left)).
  - done.
  - intros repo w r. apply cli_list_refs_keeps.
  - intros repo n w r. apply cli_resolve_ref_keeps.
  - intros path w r. apply cli_init_repo_keeps.
  - intros repo os w r. apply cli_has_objects_keeps.
  - intros repo u w r. apply cli_push_kind_keeps.
  - intros repo want have opts w r. apply cli_build_pack_keeps.
  - intros repo staged w r. apply cli_ingest_keeps.
  - done.
  - intros repo from excl cap w r. apply cli_reachable_keeps.
  - intros repo p c w r. apply cli_tree_diff_keeps.
  - intros repo o w r. apply cli_commit_info_keeps.
  - intros repo o cap w r. apply read_capped_keeps.
  - intros repo o cap w r. apply read_capped_keeps.
Defined.
End contract.

(** ** Pushes over HTTP and SSH *)

Section pushes.
Context `{GixHashLaws} {gix_object : GixObject} {gix_pack : GixPack} {program : GitProgram} {files : GitFiles}
  {update : GitUpdateRef} {laws : GitRefs}.
Context {access : RepoAccess (H0 := cli_backend)} {transport : Transport}.

(** (C10) On the git CLI backend a push over HTTP or SSH, however it ends, leaves the refs and
    symbolic refs (but [HEAD], which a new repository gets) of every repository alone unless
    the forge accepted its updates; then, if every name is one word and no symbolic ref, the
    refs are the result of applying all of them by compare-and-swap. *)
Theorem cli_push limits body (w : store) out :
  let pushed w2 := ∀ r, ref_state r w2 = ref_state r w ∨
    ∃ us, accepted limits body us r ∧
      (Forall (direct (delete HEAD (symrefs_at r w))) us →
       cas_updates (refs_at r w) us = Some (refs_at r w2) ∧ delete HEAD (symrefs_at r w2) = delete HEAD (symrefs_at r w)) in
  (∀ resp w1 t, returned (recv_pack_post limits body) w = (Some resp, w1) → reader resp = Some t → pushed (t (w1, out)).1) ∧
  pushed (returned (serve_receive_pack limits body) (w, out)).2.1.
Proof.
  cbv zeta. split.
  - intros resp w1 t Hh Ht r. destruct (t (w1, out)) as [w2 out2] eqn:E.
    destruct (http_push_refs _ _ _ _ _ _ _ _ _ Hh Ht E r) as [?|(us & repo & Ha & [= <-] & _ & He)]; [by left|right; eauto].
  - intros r. destruct (returned _ (w, out)) as [o [w2 out2]] eqn:E.
    destruct (ssh_push_refs _ _ _ _ _ _ _ E r) as [?|(us & repo & Ha & [= <-] & _ & He)]; [by left|right; eauto].
Qed.
End pushes.
