(* ===== verification/Examples.v ===== *)
(** * Concrete runs

    A small server: the KV backend on a store without faults, SHA-1 ids, a toy object
    format in place of [gix-object], and a forge whose policy asks real questions.  The
    witnesses instantiate the theorems' hypotheses on it and evaluate the handlers. *)

From stdpp Require Import base gmap list sorting strings.
From Stdlib Require Import Strings.Byte.
From S2P Require Import Prelude Bytes Gix Proto Types Handlers Sigverify Auth Serve Graph Inspect KvKeys Kv PackCache PackTools KvPack KvBackend.
Open Scope N_scope.

Module Demo.
#[export] Existing Instances Sha1.hash Sha1.hash_laws.

(** ** Toy third-party code *)

Fixpoint chunks (fuel n : nat) (s : bytes) : list bytes :=
  match fuel, s with
  | S fuel, _ :: _ => take n s :: chunks fuel n (drop n s)
  | _, _ => []
  end.

Definition someone : SignatureRef := {| sr_name := b! "A"; sr_email := b! "a@x"; sr_time := b! "0" |}.

(** A commit is [C], its tree and its parents in hexadecimal; a tree a list of entries,
    each [T] or [B] and twenty bytes. *)
#[export] Instance objects : GixObject := {|
  CommitRef_from_bytes s :=
    match s with
    | x43 :: s => Ok {| cr_tree := take 40 s; cr_parents := chunks (length s) 40 (drop 40 s);
                        cr_pgp_signature := None; cr_author := Ok someone; cr_committer := Ok someone;
                        cr_message := b! "m"; cr_encoding := None |}
    | _ => Err (Foreign (b! "not a commit"))
    end;
  TagRef_from_bytes s := Err (Foreign (b! "no tags"));
  SignatureRef_from_bytes s := Ok someone;
  TreeRef_from_bytes s :=
    mapM (λ e, match e with
               | k :: raw => o ← oid_try_from raw; Ok (bool_decide (k = x54), o)
               | [] => Err (Foreign (b! "empty entry"))
               end) (chunks (length s) 21 s) |}.

#[export] Instance no_faults : Tikv := {| fault _ _ := None |}.

Lemma never m op : fault m op = None.
Proof. reflexivity. Qed.

#[export] Instance disk : CacheIO := {|
  sha256_hex s := hex s; opens _ _ := true; written _ _ data := Some (length data) |}.

#[export] Instance output : GixOutput := {|
  zlib s := s; loose_io _ _ := None; temp_repo := None;
  gix_pack_objects d oids :=
    Ok (b! "PACK" ++ to_be_bytes 4 2 ++ to_be_bytes 4 (len oids) ++ concat (oid_as_bytes <$> oids));
  sha1_digest _ := replicate 20 x00;
  gix_tree_diff _ _ child := Ok [Addition 33188 child (b! "f")] |}.

#[export] Instance wire : Transport := {|
  packets_of _ := [];
  reads_of s := match s with [] => [] | _ => [Ok s] end;
  temp_path _ := b! "/tmp/mizzle_pack_x";
  display _ := b! "error" |}.

(** ** A repository *)

Definition c1 : ObjectId := Sha1.rep x11.
Definition c2 : ObjectId := Sha1.rep x22.
Definition t1 : ObjectId := Sha1.rep x31.
Definition t2 : ObjectId := Sha1.rep x32.
Definition f1 : ObjectId := Sha1.rep x41.
Definition f2 : ObjectId := Sha1.rep x42.
Definition tag : ObjectId := Sha1.rep x51.

Definition commit_data (tree : ObjectId) (ps : list ObjectId) : bytes :=
  [x43] ++ oid_to_hex tree ++ concat (oid_to_hex <$> ps).

(** The pack of a push of [c2], a child of [c1]. *)
Definition pack : bytes := b! "PACK" ++ to_be_bytes 4 2 ++ to_be_bytes 4 3 ++ b! "...".
Definition entry (o : ObjectId) (k : Kind) (data : bytes) : BundleEntry :=
  {| be_oid := o; be_header := Ok (k, len data); be_data := Ok data |}.
Definition entries : list BundleEntry :=
  [entry c2 GCommit (commit_data t2 [c1]); entry t2 GTree (x42 :: oid_as_bytes f2);
   entry f2 GBlob (b! "two")].
(** A reader that knows this pack without its index. *)
#[export] Instance packs : GixPack := {|
  bundle_at s := if decide (pf_pack s = pack) then Ok entries else Err (Foreign (b! "no index")) |}.

Definition indexed : PackFile := {| pf_path := b! "/srv/demo.pack"; pf_pack := pack; pf_idx := Some (b! "index") |}.

Definition path : bytes := b! "demo.git".
Definition main : bytes := b! "refs/heads/main".

(** Repository 1: [main] is at [c1], whose tree holds the file [f1]. *)
Definition database : db :=
  put_pairs
    [(next_repo_id, encode_u64 2); (repo_index path, encode_u64 1);
     (repo_meta 1 REPO_META_EXISTS, []);
     (obj 1 c1, encode_object KIND_COMMIT (commit_data t1 []));
     (obj 1 t1, encode_object KIND_TREE (x42 :: oid_as_bytes f1));
     (obj 1 f1, encode_object KIND_BLOB (b! "one"));
     (obj 1 tag, encode_object KIND_TAG (b! "Tag"));
     (refkey 1 main, oid_as_bytes c1)] ∅.
Definition server : @store _ kv_backend := {| kv_db := database; kv_cache := ∅; kv_cells := [] |}.

Definition repo1 : @Repo _ kv_backend := 1.

(** The forge: refuses to talk about [refs/heads/secret], and wants every push to
    introduce a commit on its first ref. *)
#[export] Instance forge : RepoAccess := {|
  PushContext := ();
  ra_repo_id := (path : RepoId);
  ra_auto_init := true;
  ra_authorize_preliminary refs :=
    if decide (b! "refs/heads/secret" ∈ pr_refname <$> refs) then Err (b! "no such ref") else Ok ();
  ra_authorize_push _ :=
    PAsk QRefs (λ refs,
      match refs with
      | [] => PRet (Err (b! "nothing to push"))
      | r :: _ =>
          PAsk (QNewCommits r) (λ l,
            match l with
            | Ok (_ :: _) => PRet (Ok ())
            | _ => PRet (Err (b! "no new commits"))
            end)
      end);
  ra_verification_keys _ := [];
  ra_verify_external _ := None;
  ra_post_receive := PRet () |}.

Definition no_context : @PushContext _ _ forge := ().

Definition update (old new : ObjectId) (name : bytes) : RefUpdate :=
  {| old_oid := old; new_oid := new; refname := name |}.

Definition push (us : list RefUpdate) : bytes := encode_request (b! " report-status") us pack.
Definition fast_forward : bytes := push [update c1 c2 main].

(** What a computed option and a computed future are. *)
Definition post (body : bytes) : option GitResponse * store :=
  returned (recv_pack_post default_limits body) server.

Example push_lands :
  match post fast_forward with
  | (Some {| status_code := 200; reader := Some t |}, s) =>
      let '(s', w) := t (s, open_writer) in
      kv_refs 1 (kv_db s') !! main = Some c2 ∧
      w_out w = [PText (b! "unpack ok"); PText (b! "ok refs/heads/main"); PFlush]
  | _ => False
  end.
Proof. vm_compute. split; reflexivity. Qed.

(** ** Handlers *)

(** A computed pair, from its computed first component. *)
Lemma run_fst {A B} (p : A * B) a : p.1 = a → p = (a, p.2).
Proof. by destruct p; intros <-. Qed.

Lemma eta3 {A B C} (x : A * (B * C)) : x = (x.1, (x.2.1, x.2.2)).
Proof. by destruct x as [? [? ?]]. Qed.

Lemma stream_pack_sideband_correct_witness :
  ∃ ps, stream_pack_sideband [Ok (b! "ab"); Ok (b! "c")] None (Writer [] (λ _ _, Ok ())) =
          (Ok (), Writer ps (λ _ _, Ok ())) ∧
        band_data ps = b! "abc" ∧ Forall band_fits ps ∧ (∀ m, PBand ChProgress m ∉ ps).
Proof.
  destruct (stream_pack_sideband_correct [Ok (b! "ab"); Ok (b! "c")] None []) as (ps & H1 & H2 & H3 & H4).
  - repeat constructor; vm_compute; discriminate.
  - exists ps. split_and!; [exact H1|exact H2|exact H3|exact (H4 eq_refl)].
Defined.

Definition ask_only : FetchArgs := {|
  want := [c2]; want_refs := []; have := [c1; c2]; done := false; thin_pack := false;
  no_progress := false; include_tag := false; ofs_delta := false; wait_for_done := true;
  deepen := None; filter := None |}.

(** The server has [c1] and not [c2]. *)
Lemma perform_fetch_waits_witness :
  let x := perform_fetch repo1 ask_only (server, open_writer) in
  x.2.1 = (sb_has_objects repo1 [c1; c2] server).2 ∧
  ∃ l1 l2, w_out x.2.2 = l1 ∧ (is_ok x.1 = true ↔ l2 = []) ∧
    l1 ++ l2 = [PText (b! "acknowledgments"); PText (b! "ACK " ++ oid_to_hex c1); PFlush].
Proof.
  cbv zeta.
  apply (perform_fetch_waits repo1 ask_only server (sb_has_objects repo1 [c1; c2] server).2
           open_writer [true; false]).
  - apply run_fst. by_vm.
  - reflexivity.
  - right. reflexivity.
  - apply eta3.
Defined.

(** ** Pushes *)

Definition streams (o : option GitResponse) : bool :=
  match o with Some {| reader := Some _ |} => true | _ => false end.

Lemma post_streams body :
  streams (post body).1 = true →
  ∃ resp s1 t, post body = (Some resp, s1) ∧ reader resp = Some t.
Proof.
  destruct (post body) as [[resp|] s1]; [|done]. cbn.
  destruct resp as [? ? [t|] ?]; [|done]. intros _. by do 3 eexists.
Qed.

Lemma http_push_authorized_witness :
  ∃ resp s1 t, post fast_forward = (Some resp, s1) ∧ reader resp = Some t ∧
    ∀ r : Repo,
      refs_view r (t (s1, open_writer)).1 = refs_view r server ∨
      ∃ us repo, accepted default_limits fast_forward us repo ∧ repo_tag r = repo_tag repo ∧
        cas_updates (refs_view r server) us = Some (refs_view r (t (s1, open_writer)).1).
Proof.
  destruct (post_streams fast_forward) as (resp & s1 & t & Hp & Ht); [by_vm|].
  exists resp, s1, t. split; [exact Hp|]. split; [exact Ht|].
  apply (http_push_authorized (H1 := kv_laws) default_limits fast_forward server resp s1 t open_writer _
           (t (s1, open_writer)).2 Hp Ht).
  apply surjective_pairing.
Defined.

Definition ssh_session : option (result error ()) * (store * writer) :=
  returned (serve_receive_pack default_limits fast_forward) (server, open_writer).

Lemma ssh_push_authorized_witness :
  refs_view repo1 ssh_session.2.1 !! main = Some c2 ∧
  ∀ r : Repo,
    refs_view r ssh_session.2.1 = refs_view r server ∨
    ∃ us repo, accepted default_limits fast_forward us repo ∧ repo_tag r = repo_tag repo ∧
      cas_updates (refs_view r server) us = Some (refs_view r ssh_session.2.1).
Proof.
  split; [by_vm|].
  apply (ssh_push_authorized (H1 := kv_laws) default_limits fast_forward server open_writer ssh_session.1 _
           ssh_session.2.2).
  exact (eta3 ssh_session).
Defined.

(** ** Rejected pushes *)

(** How far the handler gets with these updates and this pack. *)
Section pipeline.
Context (us : list RefUpdate).

Definition opened : store := (sb_open ra_repo_id server).2.
Definition ingested_pack : option IngestedPack := default None (ok (stage_and_ingest repo1 pack opened).1).
Definition with_pack : store := (stage_and_ingest repo1 pack opened).2.
Definition inspected : flow GitResponse (option PackMetadata) * store :=
  inspect_or_reject us ingested_pack with_pack.
Definition metadata : option PackMetadata := match inspected.1 with Go m => m | _ => None end.
Definition push_refs : list PushRef * store := build_push_refs_async us repo1 inspected.2.
Definition tips : list ObjectId * store := existing_ref_tips repo1 push_refs.1 push_refs.2.

Lemma pipeline_reaches :
  read_receive_request default_limits (push us) = Ok (us, pack) →
  ra_authorize_preliminary (build_push_refs us preliminary_push_kind) = Ok no_context →
  (sb_open ra_repo_id server).1 = Ok repo1 →
  is_ok (stage_and_ingest repo1 pack opened).1 = true →
  match inspected.1 with Go _ => true | _ => false end = true →
  reaches_auth default_limits (push us) server us no_context repo1 ingested_pack metadata
    push_refs.1 tips.1 tips.2.
Proof.
  intros Hr Hpre Ho Hi Hm. constructor.
  exists pack, opened, with_pack, inspected.2, push_refs.2.
  split_and!; [done|done|by apply run_fst| | |apply surjective_pairing|apply surjective_pairing].
  - unfold ingested_pack, with_pack. destruct (stage_and_ingest repo1 pack opened) as [[x|] s]; done.
  - unfold metadata. apply run_fst. unfold inspected in *.
    by destruct (inspect_or_reject us ingested_pack with_pack) as [[m|x|] s].
Qed.

Definition verdict : option (result bytes ()) * store :=
  run_comparison repo1 (default [] metadata) push_refs.1 tips.1 default_options
    (ra_authorize_push no_context) tips.2.
End pipeline.

Definition secret : list RefUpdate := [update oid_null c2 (b! "refs/heads/secret")].
Definition deletion : list RefUpdate := [update c1 oid_null main].

(** The first push is refused for its ref name, the second by the policy. *)
Lemma http_push_rejected_witness :
  (∃ t, recv_pack_post default_limits (push secret) server =
          (Go (streaming (Some result_type) t), server) ∧
        ∀ w, t (server, w) = (server, (write_all (reject_packets secret (b! "no such ref")) w).2)) ∧
  (∃ t, recv_pack_post default_limits (push deletion) server =
          (Go (streaming (Some result_type) t), rollback ingested_pack (verdict deletion).2) ∧
        ∀ s' w, t (s', w) = (s', (write_all (reject_packets deletion (b! "no new commits")) w).2)).
Proof.
  split.
  - apply (http_push_rejected default_limits (push secret) server secret pack).
    + by_vm.
    + by_vm.
  - apply (proj2 (http_push_rejected default_limits (push deletion) server deletion pack
                    (b! "no new commits") ltac:(by_vm))
             no_context repo1 ingested_pack (metadata deletion) (push_refs deletion).1
             (tips deletion).1 (tips deletion).2 (verdict deletion).2).
    + apply pipeline_reaches; by_vm.
    + discriminate.
    + apply (run_fst (verdict deletion)). by_vm.
Defined.

Lemma empty_push_rejection_ignored_witness :
  ∃ t, recv_pack_post default_limits (push []) server =
         (Go (streaming (Some result_type) t), rollback ingested_pack (verdict []).2) ∧
       ∀ s' s'' out, sb_update_refs repo1 [] s' = (Ok (), s'') →
         t (s', Writer out (λ _ _, Ok ())) =
         ((run_comparison repo1 (default [] (metadata [])) (push_refs []).1 (tips []).1
             default_options ra_post_receive s'').2,
          Writer (out ++ [PText (b! "unpack ok"); PFlush]) (λ _ _, Ok ())).
Proof.
  apply (empty_push_rejection_ignored default_limits (push []) server no_context repo1 ingested_pack
           (metadata []) (push_refs []).1 (tips []).1 (tips []).2 (verdict []).2
           (b! "nothing to push")).
  - apply pipeline_reaches; by_vm.
  - apply (run_fst (verdict [])). by_vm.
Defined.

Lemma receive_pack_version_agnostic_witness :
  serve_git_protocol_1 (b! "info/refs") (b! "service=git-receive-pack") [] default_limits [] server =
  serve_git_protocol_2 (b! "info/refs") (b! "service=git-receive-pack") [] default_limits [] server.
Proof.
  apply receive_pack_version_agnostic. right. split; [reflexivity|]. by_vm.
Defined.

Lemma upload_pack_loop_fuel_witness :
  st_eq (upload_pack_loop 2 default_limits repo1 [Ok Flush])
        (upload_pack_loop 7 default_limits repo1 [Ok Flush]).
Proof. apply upload_pack_loop_fuel; simpl; lia. Defined.

(** ** Comparisons *)

Definition main_push : PushRef :=
  {| pr_refname := main; pr_kind := FastForward; pr_old_oid := c1; pr_new_oid := c2 |}.
Definition main_twice : PushRef :=
  {| pr_refname := main; pr_kind := Create; pr_old_oid := c2; pr_new_oid := c1 |}.
Definition comparison (refs : list PushRef) : Comparison :=
  {| cmp_repo := repo1; cmp_pack := []; cmp_refs := refs; cmp_existing := [c1];
     cmp_opts := default_options |}.

Lemma run_comparison_uncached_witness :
  run_comparison repo1 [] [main_push] [c1] default_options (ra_authorize_push no_context) with_pack =
    (run_uncached (comparison [main_push]) (ra_authorize_push no_context) with_pack, with_pack) ∧
  run_uncached (comparison [main_push]) (ra_authorize_push no_context) with_pack ≠ None.
Proof.
  apply (run_comparison_uncached repo1 [] [main_push] [c1] default_options (λ _, None)
           (ra_authorize_push no_context) with_pack).
  - apply NoDup_singleton.
  - split; [exact I|]. intros a [= <-]. split; [by left|]. intros l _.
    by destruct l as [[|ci l]|].
Defined.

Definition first_answer : option (result ComparisonError (list CommitInfo) * Caches * store) :=
  new_commits (comparison [main_push; main_twice]) main_push (fresh_caches 2) with_pack.

Lemma duplicate_ref_shares_answer_witness :
  ∃ a cs' s', first_answer = Some (a, cs', s') ∧
    new_commits (comparison [main_push; main_twice]) main_twice cs' server = Some (a, cs', server).
Proof.
  assert ((if first_answer then true else false) = true) as Hs by by_vm.
  destruct first_answer as [[[a cs'] s']|] eqn:E; [|discriminate Hs].
  exists a, cs', s'. split; [reflexivity|].
  apply (duplicate_ref_shares_answer (comparison [main_push; main_twice]) main_push main_twice
           (fresh_caches 2) with_pack) with (s' := s'); [reflexivity..|exact E].
Defined.

Lemma is_ok_Ok {E A} (r : result E A) d : is_ok r = true → r = Ok (default d (ok r)).
Proof. by destruct r. Qed.

(** A fast-forward of [main] from [c1] to [c2], and a new branch at [c2] beside it. *)
Definition branch_push : PushRef :=
  {| pr_refname := b! "refs/heads/new"; pr_kind := Create; pr_old_oid := oid_null; pr_new_oid := c2 |}.

Definition seen (refs : list PushRef) : Comparison :=
  {| cmp_repo := repo1; cmp_pack := []; cmp_refs := refs;
     cmp_existing := (existing_ref_tips repo1 refs with_pack).1; cmp_opts := default_options |}.

Definition introduced (r : PushRef) : list CommitInfo :=
  default [] (ok (init_new_commits (seen [r]) 0 r with_pack).1).

Lemma introduced_reported r :
  is_ok (init_new_commits (seen [r]) 0 r with_pack).1 = true →
  ∀ i p l, cmp_refs (seen [r]) !! i = Some p → [introduced r] !! i = Some l →
    ∃ cs s', new_commits (seen [r]) p (fresh_caches (length (cmp_refs (seen [r])))) with_pack = Some (Ok l, cs, s').
Proof.
  intros Hok i p l [-> <-]%list_lookup_singleton_Some [_ <-]%list_lookup_singleton_Some.
  destruct (new_commits_own (seen [r]) 0 r (length (cmp_refs (seen [r]))) with_pack) as [cs E];
    [apply NoDup_singleton|done|].
  exists cs, (init_new_commits (seen [r]) 0 r with_pack).2. rewrite E.
  unfold introduced. by rewrite <- is_ok_Ok.
Qed.

Lemma listed_unchanged : sb_list_refs repo1 with_pack = ((sb_list_refs repo1 with_pack).1, with_pack).
Proof. by_vm. Qed.

Lemma seen_tips refs : existing_ref_tips repo1 refs with_pack = (cmp_existing (seen refs), with_pack).
Proof.
  unfold seen. cbn [cmp_existing]. unfold existing_ref_tips. rewrite listed_unchanged.
  by destruct (sb_list_refs repo1 with_pack).1.
Qed.

(** Of the fast-forward [c1] is reported too, which [main] had; of the new branch [c2]
    alone, as [main] is outside that push. *)
Lemma pushed_commits_partition_witness :
  (c_oid <$> introduced main_push = [c2; c1] ∧ c_oid <$> introduced branch_push = [c2]) ∧
  (∃ l, l ∈ [introduced main_push] ∧ c1 ∈ c_oid <$> l) ∧
  (c2 ∈ c_oid <$> introduced branch_push ↔
     (is_null c2 = false ∧ reaches (graph_view repo1 with_pack) c2 c2) ∧
     (¬ ∃ e tip, e ∈ listed (sb_list_refs repo1 with_pack).1 ∧
        (r_name e ∉ pr_refname <$> [branch_push]) ∧
        (tip = r_oid e ∨ r_peeled e = Some tip) ∧ reaches (graph_view repo1 with_pack) tip c2) ∧
     ∀ j p', (j < 0)%nat → [branch_push] !! j = Some p' →
       ¬ (is_null (pr_new_oid p') = false ∧ reaches (graph_view repo1 with_pack) (pr_new_oid p') c2)).
Proof.
  split; [split; by_vm|]. split.
  - apply (pushed_commits_partition (seen [main_push]) with_pack (sb_list_refs repo1 with_pack).1 with_pack
      [introduced main_push]) with (p := main_push).
    + apply NoDup_singleton.
    + apply listed_unchanged.
    + apply seen_tips.
    + reflexivity.
    + apply introduced_reported. by_vm.
    + by left.
    + split; [by_vm|]. eapply rtc_once. apply (bool_decide_eq_true _). by_vm.
    + apply rtc_refl.
    + intros (e & tip & He & Hn & _). apply Hn. clear Hn. revert e He.
      apply Forall_forall, (bool_decide_eq_true _). by_vm.
  - assert (∀ i p l, cmp_refs (seen [branch_push]) !! i = Some p → [introduced branch_push] !! i = Some l →
      ∃ cs s', new_commits (seen [branch_push]) p (fresh_caches 1) with_pack = Some (Ok l, cs, s')) as Hr
      by (apply introduced_reported; by_vm).
    exact (proj1 (pushed_commits_partition (seen [branch_push]) with_pack _ with_pack [introduced branch_push]
      (NoDup_singleton _) listed_unchanged (seen_tips _) eq_refl Hr) 0%nat branch_push _ c2 eq_refl eq_refl).
Defined.

Definition who : Identity := {| id_name := b! "A"; id_email := b! "a@x"; id_time := b! "0" |}.
Definition armor : SignatureBlob :=
  {| sig_format := OpenPgp; sig_bytes := b! "-----BEGIN PGP SIGNATURE-----" |}.
Definition signed_commit : CommitInfo := {|
  c_oid := c1; c_tree := t1; c_parents := []; c_author := who; c_committer := who;
  c_message := b! "m"; c_encoding := None; c_signature := Some armor |}.
Definition signed_tag : TagInfo := {|
  t_oid := tag; t_target := c1; t_name := b! "v1"; t_tagger := Some who; t_message := b! "m";
  t_signature := Some armor |}.

Lemma verified_only_externally_witness :
  vouched (verify (comparison []) signed_commit (fresh_caches 0) server).1.1 ∧
  vouched (verify_tag (comparison []) signed_tag (fresh_caches 0) server).1.1.
Proof.
  destruct (verified_only_externally (comparison []) signed_commit signed_tag (fresh_caches 0) server)
    as [[H1 _] [H2 _]].
  - apply map_Forall_empty.
  - split; [exact H1|exact H2].
Defined.
End Demo.
