(* ===== verification/KvExamples.v ===== *)
(** * Concrete runs of the KV backend, on the repository of [Examples] *)

From stdpp Require Import base gmap list sorting strings.
From Stdlib Require Import Strings.Byte.
From S2P Require Import Prelude Bytes Gix Proto Types Handlers Graph Inspect KvKeys Kv PackCache PackTools KvPack KvBackend Examples.
Open Scope N_scope.

(** Two closed ids that differ. *)
Ltac by_vm_neq :=
  lazymatch goal with |- ?a ≠ ?b => apply (bool_decide_eq_false (a = b)); by_vm end.

(** A bound on closed numbers. *)
Ltac by_vm_le := apply N.leb_le; by_vm.

Module KvDemo.
Import Demo.

(** ** Keys *)

Lemma encode_key_inj_witness :
  encode_key (KPar 1 c1 0) = encode_key (KPar 1 c1 0) ∧ KPar 1 c1 0 = KPar 1 c1 0.
Proof. split; [reflexivity|]. apply (encode_key_inj (KPar 1 c1 0) (KPar 1 c1 0)); done. Defined.

Lemma scans_see_own_keys_witness :
  (in_range_of (refs_prefix_start 1) (refs_prefix_end 1) (encode_key (KRef 1 main)) = true ↔
   ∃ name, KRef 1 main = KRef 1 name) ∧
  (in_range_of (parents_prefix_start 1 c1) (parents_prefix_end 1 c1) (encode_key (KRef 1 main)) = true ↔
   ∃ pos, KRef 1 main = KPar 1 c1 pos).
Proof. apply (scans_see_own_keys 1 c1 (KRef 1 main)); done. Defined.

Lemma cache_preimage_faithful_witness :
  cache_preimage 1 [c1; c2] [] CacheExamples.no_opts = cache_preimage 1 [c2; c1] [] CacheExamples.no_opts.
Proof.
  apply (cache_preimage_faithful 1 1 [c1; c2] [c2; c1] [] [] CacheExamples.no_opts CacheExamples.no_opts).
  - apply perm_swap.
  - reflexivity.
Defined.

(** ** Refs *)

(** The refs of the demo repository: one, well formed. *)
Lemma demo_refs n v : database !! refkey 1 n = Some v → n = main ∧ v = oid_as_bytes c1.
Proof.
  unfold database, put_pairs. cbn [foldl fst snd]. rewrite lookup_insert_Some.
  intros [[E <-]|[_ Hv]]; [split; [by apply refkey_inj in E|done]|].
  exfalso. repeat (rewrite lookup_insert_ne in Hv by done). by rewrite lookup_empty in Hv.
Qed.

Lemma demo_intact : refs_intact 1 database.
Proof. intros n v [_ ->]%demo_refs. rewrite oid_try_from_as_bytes. by eexists. Qed.

Lemma kv_update_refs_cas_witness :
  (∃ m', update_refs 1 [update c1 c2 main] database = (Ok (), m') ∧
         kv_refs 1 m' = <[main := c2]> (kv_refs 1 database)) ∧
  (∃ e, update_refs 1 [update c2 c1 main] database = (Err e, database)).
Proof.
  assert (kv_refs 1 database !! main = Some c1) as Hc by (by_vm). split.
  - pose proof (kv_update_refs_cas 1 [update c1 c2 main] database never demo_intact) as Hu.
    unfold cas_updates, cas_update in Hu. cbn [old_oid new_oid refname update] in Hu.
    change (is_null c1) with false in Hu. change (is_null c2) with false in Hu.
    rewrite decide_True in Hu by exact Hc. exact Hu.
  - pose proof (kv_update_refs_cas 1 [update c2 c1 main] database never demo_intact) as Hu.
    unfold cas_updates, cas_update in Hu. cbn [old_oid new_oid refname update] in Hu.
    change (is_null c1) with false in Hu. change (is_null c2) with false in Hu.
    rewrite decide_False in Hu by (rewrite Hc; discriminate). exact Hu.
Defined.

Lemma kv_list_refs_correct_witness :
  ∃ snap, list_refs 1 database = (Ok snap, database) ∧
    (∀ n o, (n, o) ∈ ref_pair <$> rs_refs snap ↔ kv_refs 1 database !! n = Some o) ∧
    StronglySorted (λ a b, lex_ltb a b = true) (r_name <$> rs_refs snap) ∧
    rs_head snap = (λ o, {| h_oid := o; h_symref_target := Some (head_target 1 database) |}) <$>
                     kv_refs 1 database !! head_target 1 database ∧
    ∀ n, resolve_ref 1 n database = (Ok (kv_refs 1 database !! n), database).
Proof.
  apply (kv_list_refs_correct 1 database never demo_intact).
  - intros n [v [-> _]%demo_refs]. by_vm.
  - vm_compute. discriminate.
Defined.

(** ** Objects *)

Lemma inspect_pack_complete_witness :
  ∃ m, inspect_pack indexed = Ok m ∧ po_oid <$> m = [c2; t2; f2] ∧
    ∀ ci, ci ∈ commits m ↔
      ∃ e n data, e ∈ entries ∧ be_header e = Ok (GCommit, n) ∧ be_data e = Ok data ∧
                  parse_commit_info data (be_oid e) = Ok ci.
Proof.
  assert (inspect_pack indexed = Ok (default [] (ok (inspect_pack indexed)))) as Hi
    by (apply is_ok_Ok; by_vm).
  eexists. split; [exact Hi|]. apply (inspect_pack_complete indexed entries); [|exact Hi].
  by_vm.
Defined.

Definition extracted : list ExtractedObject * PackMetadata := default ([], []) (ok (extract_pack indexed)).

Definition demo_objects : list ExtractedObject :=
  [{| xo_oid := c2; xo_kind := KIND_COMMIT; xo_data := commit_data t2 [c1];
      xo_parents := parent_positions [c1] |};
   {| xo_oid := t2; xo_kind := KIND_TREE; xo_data := x42 :: oid_as_bytes f2;
      xo_parents := parent_positions [] |};
   {| xo_oid := f2; xo_kind := KIND_BLOB; xo_data := b! "two"; xo_parents := parent_positions [] |}].

Lemma extracted_objects : extracted.1 = demo_objects.
Proof. by_vm. Qed.

Lemma demo_objects_coherent : writes_coherent demo_objects.
Proof.
  split.
  - apply (bool_decide_unpack _). vm_compute. exact I.
  - intros x Hx. unfold demo_objects in Hx. rewrite !elem_of_cons, elem_of_nil in Hx.
    destruct Hx as [->|[->|[->|[]]]]; by eexists.
Qed.

Lemma kv_ingest_roundtrip_witness :
  ∃ m', ingest_pack 1 indexed database = (Ok (Some (extracted.2, xo_oid <$> extracted.1)), m') ∧
    (∀ x cap, x ∈ extracted.1 →
       read_object_with_kind 1 (xo_oid x) cap m' =
       (Ok (if cap <? len (xo_data x) then None else Some (xo_kind x, xo_data x)), m')) ∧
    (∀ ci, ci ∈ commits extracted.2 → (∀ s, database !! (parents_prefix_start 1 (c_oid ci) ++ s) = None) →
       N.of_nat (size m') ≤ u32_max → fetch_parents 1 (c_oid ci) m' = (Ok (c_parents ci), m')) ∧
    (∀ id', kv_refs id' m' = kv_refs id' database).
Proof.
  apply (kv_ingest_roundtrip 1 indexed extracted.1 extracted.2 database never).
  - by_vm.
  - rewrite <- surjective_pairing. apply is_ok_Ok. by_vm.
  - rewrite extracted_objects. discriminate.
  - rewrite extracted_objects. apply demo_objects_coherent.
Defined.

Lemma kv_init_repo_correct_witness :
  ∃ id m' next',
    init_repo_inner path ∅ = (Ok id, m') ∧ repos_wf m' next' ∧
    open_inner path m' = (Ok id, m') ∧ init_repo_inner path m' = (Ok id, m') ∧
    (∀ p, p ≠ path → m' !! repo_index p = (∅ : db) !! repo_index p ∧ open_inner p m' ≠ (Ok id, m')) ∧
    (∀ i, kv_refs i m' = kv_refs i ∅).
Proof. apply (kv_init_repo_correct path ∅ 1 never repos_wf_empty). reflexivity. Defined.

(** ** Packs *)

(** The objects of the demo repository. *)
Lemma demo_stored o v :
  database !! obj 1 o = Some v →
  (o = c1 ∨ o = t1 ∨ o = f1 ∨ o = tag) ∧ (o = t1 → v = encode_object KIND_TREE (x42 :: oid_as_bytes f1)).
Proof.
  unfold database, put_pairs. cbn [foldl fst snd]. intros Hv.
  rewrite lookup_insert_ne in Hv by done.
  repeat match goal with
  | Hv : <[obj 1 ?p := _]> _ !! obj 1 _ = Some _ |- _ =>
      apply lookup_insert_Some in Hv as [[E <-]|[_ Hv]];
      [apply obj_inj in E as <-; split; [by auto|by intros ?]|]
  end.
  repeat (rewrite lookup_insert_ne in Hv by done). by rewrite lookup_empty in Hv.
Qed.

Lemma demo_held o x :
  held 1 database o = Some x →
  (o = c1 ∧ x = (GCommit, commit_data t1 [])) ∨ (o = t1 ∧ x = (GTree, x42 :: oid_as_bytes f1)) ∨
  (o = f1 ∧ x = (GBlob, b! "one")) ∨ (o = tag ∧ x = (GTag, b! "Tag")).
Proof.
  intros Hx. assert (∃ v, database !! obj 1 o = Some v) as [v [Ho _]%demo_stored].
  { unfold held in Hx. destruct (database !! obj 1 o); [eauto|done]. }
  destruct Ho as [->|[->|[->| ->]]].
  - assert (held 1 database c1 = Some (GCommit, commit_data t1 [])) as E by by_vm. rewrite E in Hx. naive_solver.
  - assert (held 1 database t1 = Some (GTree, x42 :: oid_as_bytes f1)) as E by by_vm. rewrite E in Hx. naive_solver.
  - assert (held 1 database f1 = Some (GBlob, b! "one")) as E by by_vm. rewrite E in Hx. naive_solver.
  - assert (held 1 database tag = Some (GTag, b! "Tag")) as E by by_vm. rewrite E in Hx. naive_solver.
Qed.

(** The repository of [Examples] has no recorded parents. *)
Lemma kv_no_parents o : fetch_in 1 database o = Ok [].
Proof.
  unfold fetch_in, fetch_parents, read_txn, t_scan, call, mbind, ST_bind, lift.
  cbn [fault no_faults fst].
  destruct (scan_pairs _ _ _ database) as [|[k v] l] eqn:Hs; [done|]. exfalso.
  destruct (scan_pairs_spec (parents_prefix_start 1 o) (parents_prefix_end 1 o) u32_max database)
    as [Hspec _]; [vm_compute; discriminate|].
  destruct (proj1 (Hspec k v)) as [Hv [t ->]%parents_range]; [rewrite Hs; by left|].
  revert Hv. unfold database, put_pairs. cbn [foldl fst snd].
  repeat (rewrite lookup_insert_ne by done). by rewrite lookup_empty.
Qed.

Lemma demo_consistent : consistent (held 1 database) (kv_graph 1 database).
Proof.
  assert (∀ o, kv_graph 1 database o = []) as Hg by (intros o; unfold kv_graph, parents; by rewrite kv_no_parents).
  split.
  - intros o data Hx%demo_held. naive_solver.
  - intros o. rewrite Hg. destruct (held 1 database o) as [[k data]|] eqn:E; [|done].
    apply demo_held in E as [[_ [= -> ->]]|[[_ [= -> ->]]|[[_ [= -> ->]]|[_ [= -> ->]]]]]; by_vm.
  - intros o p Hp. rewrite Hg in Hp. by apply elem_of_nil in Hp.
  - intros o data t [[_ [= ->]]|[[? ?]|[[? ?]|[? ?]]]]%demo_held; [|done..]. intros Ht.
    change (Some t1 = Some t) in Ht. injection Ht as <-. intros k d E.
    apply demo_held in E as [[E _]|[[_ E]|[[E _]|[E _]]]]; by inversion E.
  - intros o data es b p [[? ?]|[[_ [= ->]]|[[? ?]|[? ?]]]]%demo_held; [done| |done..]. intros He.
    change (Ok (E := error) [(false, f1)] = Ok es) in He. injection He as <-.
    intros [= -> ->]%list_elem_of_singleton k d E.
    apply demo_held in E as [[E _]|[[E _]|[[_ E]|[E _]]]]; by inversion E.
Qed.

Lemma demo_objects_wf : objects_wf 1 database.
Proof.
  intros o v Hv. pose proof (demo_stored _ _ Hv) as [Ho _].
  destruct Ho as [->|[->|[->| ->]]].
  all: vm_compute in Hv; injection Hv as <-; eexists _, _; split_and!; [done|by eexists|by_vm_le].
Qed.

(** A fetch of [c1] by a client that holds the file, and of the tag. *)
Lemma kv_needed_exact_witness :
  (∃ S, needed_oids 1 [c1] [f1] database = Ok S ∧
    ∀ o, o ∈ S ↔ reached_from (links (held 1 database)) [c1] o ∧ ¬ reached_from (links (held 1 database)) [f1] o) ∧
  needed_oids 1 [tag] [] database = Ok {[tag]}.
Proof.
  assert (∀ o, is_ok (fetch_in 1 database o) = true) as Hp by (intros o; by rewrite kv_no_parents).
  split.
  - apply (kv_needed_exact 1 [c1] [f1] database); [done|done|apply demo_objects_wf|apply demo_consistent| |by_vm_le].
    apply Forall_cons_2; [|apply Forall_cons_2; [|apply Forall_nil_2]].
    + intros k data E. left.
      apply demo_held in E as [[_ [= -> _]]|[[E _]|[[E _]|[E _]]]]; [done|by inversion E..].
    + intros k data E. right.
      apply demo_held in E as [[E _]|[[E _]|[[_ [= -> ->]]|[E _]]]]; [by inversion E..| |by inversion E].
      split; [done|by_vm].
  - apply (kv_needed_exact 1 [] [] database) with (data := b! "Tag"); [done|done|apply demo_objects_wf|apply demo_consistent|by_vm|by_vm|by_vm_le].
Defined.

Lemma kv_fresh_pack_complete_witness :
  ∃ pack, fresh_pack 1 [c1] [] database = Ok pack ∧
  ∃ needed, needed_oids 1 [c1] [] database = Ok needed ∧
    (needed = ∅ → pack = build_empty_pack) ∧
    (needed ≠ ∅ → ∃ objects, let fetched := omap (stored_object 1 database) (elements needed) in
       gix_pack_objects objects ((λ x, x.1.1) <$> fetched) = Ok pack ∧
       (∀ o k data, (o, k, data) ∈ fetched →
          objects !! loose_path o = Some (zlib (loose_header k data ++ data))) ∧
       (∀ path, is_Some (objects !! path) → ∃ x, x ∈ fetched ∧ path = loose_path x.1.1)).
Proof.
  assert (fresh_pack 1 [c1] [] database = Ok (default [] (ok (fresh_pack 1 [c1] [] database)))) as Hf
    by (apply is_ok_Ok; by_vm).
  eexists. split; [exact Hf|]. exact (kv_fresh_pack_complete 1 [c1] [] database _ Hf).
Defined.

Definition no_opts : PackOptions := {| po_deepen := None; po_filter := None; po_thin_pack := false |}.
Definition fetch_c2 : result error PackOutput * store := sb_build_pack repo1 [c2] [] no_opts server.
Definition nothing : PackOutput :=
  {| out_reader := []; out_shallow := []; out_progress := None |}.

Lemma kv_build_pack_cached_witness :
  is_ok fetch_c2.1 = true ∧
  (kv_db fetch_c2.2 = kv_db server ∧ kv_cells fetch_c2.2 = kv_cells server) ∧
  ∀ s2, kv_cache s2 = kv_cache fetch_c2.2 →
    build_pack 1 [c2] [] no_opts s2 = (Ok (default nothing (ok fetch_c2.1)), s2).
Proof.
  assert (is_ok fetch_c2.1 = true) as Hok by by_vm. split; [exact Hok|].
  destruct (kv_build_pack_cached 1 [c2] [] no_opts server (default nothing (ok fetch_c2.1)) fetch_c2.2)
    as (Hdb & _ & Hc).
  - apply (run_fst fetch_c2), is_ok_Ok, Hok.
  - split; [exact Hdb|]. apply Hc; reflexivity.
Defined.

(** A fetch of a commit before it is pushed leaves an empty pack in the cache: the same
    fetch after the push still gets that pack, although a fresh one would hold the commit,
    its tree and its file. *)
Example fetch_before_push_poisons_cache :
  let pushed := {| kv_db := (ingest_pack 1 indexed database).2; kv_cache := kv_cache fetch_c2.2;
                   kv_cells := [] |} in
  (sb_build_pack repo1 [c2] [] no_opts pushed).1 = fetch_c2.1 ∧
  fetch_c2.1 = Ok (output_of (b! "PACK" ++ to_be_bytes 4 2 ++ to_be_bytes 4 0)) ∧
  fresh_pack 1 [c2] [c1] (kv_db pushed) =
    Ok (b! "PACK" ++ to_be_bytes 4 2 ++ to_be_bytes 4 3 ++
        concat (oid_as_bytes <$> elements ({[c2; t2; f2]} : gset ObjectId))).
Proof. cbv zeta. split; [by_vm|]. split; by_vm. Qed.

Lemma kv_tree_diff_complete_witness :
  ∃ (trees : gmap ObjectId bytes) changes,
    gix_tree_diff (λ o, trees !! o) oid_empty_tree t1 = Ok changes ∧
    [{| d_path := b! "f"; d_change := Added; d_mode := 33188; d_oid := t1 |}] = map ref_diff_entry changes ∧
    ∀ t, reaches (subtrees (kv_read_tree 1 database)) oid_empty_tree t ∨ reaches (subtrees (kv_read_tree 1 database)) t1 t →
      ∃ d, trees !! t = Some d ∧ tree_data (kv_read_tree 1 database) t = Some d.
Proof.
  apply (kv_tree_diff_complete 1 None t1 database
           [{| d_path := b! "f"; d_change := Added; d_mode := 33188; d_oid := t1 |}]).
  by_vm.
Defined.

(** ** The commit graph, after the push of [c2] *)

Definition pushed_db : db := (ingest_pack 1 indexed database).2.

Lemma kv_push_kind_correct_witness :
  compute_push_kind 1 c1 c2 pushed_db = FastForward ∧ reaches (kv_graph 1 pushed_db) c2 c1.
Proof.
  assert (compute_push_kind 1 c1 c2 pushed_db = FastForward) as Hk by by_vm.
  split; [exact Hk|]. apply (kv_push_kind_correct 1 c1 c2 pushed_db), Hk.
Defined.

Lemma kv_reachable_exact_witness :
  ∃ l, kv_reachable_excluding 1 [c2] [c1] 10 pushed_db = Ok l ∧ NoDup l ∧ len l ≤ 10 ∧
    ∀ o, o ∈ l ↔ reached_from (kv_graph 1 pushed_db) [c2] o ∧ ¬ reached_from (kv_graph 1 pushed_db) [c1] o.
Proof.
  assert (kv_reachable_excluding 1 [c2] [c1] 10 pushed_db = Ok [c2]) as Hr by by_vm.
  exists [c2]. split; [exact Hr|]. apply (kv_reachable_exact 1 [c2] [c1] 10 pushed_db), Hr.
Defined.

Lemma kv_tag_target_not_sent_witness : needed_oids 1 [tag] [] database = Ok {[tag]}.
Proof.
  apply (kv_tag_target_not_sent 1 tag database (b! "Tag") never); [by_vm|by_vm| |by_vm].
  vm_compute. discriminate.
Defined.
End KvDemo.
