(* ===== verification/LfsExamples.v ===== *)
(** * Concrete runs of the LFS endpoints and of the whole HTTP server *)

From stdpp Require Import base gmap list sorting strings vector relations.
From Stdlib Require Import Strings.Byte Lia.
From S2P Require Import Prelude Bytes Gix Proto Types Handlers Sigverify Auth Serve Kv KvBackend Lfs LfsHandlers LfsFs Axum Examples.
Open Scope N_scope.

Module LfsDemo.
Import Demo.

(** ** A toy digest, file system and forge *)

(** The first 32 bytes of the content, padded. *)
#[export] Instance digest : Sha256 := {|
  sha256 b := default (vreplicate 32 x00) (array_of (take 32 (b ++ replicate 32 x00))) |}.

(** Longer than every path there is. *)
Definition longest (s : files) : nat := max_list ((λ x, length (concat x.1)) <$> map_to_list s).

#[export] Instance disk : FsEnv := {|
  fs_fault _ _ := None;
  temp_name s _ := b! ".tmp" ++ replicate (S (longest s)) x78;
  file_reads b := match b with [] => [] | _ => [Ok b] end |}.

#[export] Instance disk_laws : FsEnvLaws.
Proof.
  split.
  - intros s dir. apply eq_None_not_Some. intros [b Hb].
    assert (length (concat (dir ++ [temp_name s dir])) ≤ longest s)%nat as Hle.
    { apply max_list_elem_of_le. apply list_elem_of_fmap.
      exists (dir ++ [temp_name s dir], b). split; [done|]. by apply elem_of_map_to_list. }
    rewrite concat_app, length_app in Hle. cbn [concat temp_name disk] in Hle.
    rewrite !length_app, length_replicate in Hle. lia.
  - intros s dir. apply starts_with_true. by eexists.
  - intros [|x b]; [done|]. cbn. by rewrite app_nil_r.
  - intros [|x b]; [done|]. cbn. by rewrite app_nil_r.
Qed.

#[export] Instance healthy : Healthy.
Proof. split; [done|]. intros [|x b]; [done|]. cbn. by rewrite app_nil_r. Qed.

(** Uploads are allowed, except for one ref. *)
#[export] Instance lfs_forge : LfsAccess := {|
  authorize_lfs _ r := if decide (r = Some (b! "refs/heads/secret")) then Err (b! "denied") else Ok () |}.

Definition hello : bytes := b! "hello".
Definition hello_oid : LfsOid := sha256 hello.

Definition hello_object : BatchRequestObject := {| bro_oid := hello_oid; bro_size := 5 |}.
Definition batch (op : Operation) (r : option BatchRef) : BatchRequest :=
  {| breq_operation := op; breq_transfers := []; breq_objects := [hello_object]; breq_git_ref := r |}.

(** In place of [serde_json]: three requests by name, and a response as its length. *)
#[export] Instance json : LfsEnv := {|
  request_from_slice b :=
    if decide (b = b! "download") then Ok (batch Download None)
    else if decide (b = b! "upload") then Ok (batch Upload None)
    else if decide (b = b! "secret") then Ok (batch Upload (Some {| bref_name := b! "refs/heads/secret" |}))
    else Err (Foreign (b! "expected value"));
  verify_from_slice b := if decide (b = b! "verify") then Ok hello_object else Err (Foreign (b! "expected value"));
  response_to_string r := Ok (decimal (len (br_objects r)));
  message_json m := m;
  render _ := b! "error";
  system_now := 0 |}.

Definition repo_path : LfsFs.path := [b! "srv"; b! "demo"].

(** ** Text formats *)

Lemma lfs_text_roundtrip_witness :
  parse_pointer (write_pointer {| ptr_oid := hello_oid; ptr_size := 5 |})
    = Some {| ptr_oid := hello_oid; ptr_size := 5 |} ∧
  lfs_deserialize (to_hex hello_oid) = Ok hello_oid.
Proof.
  destruct (lfs_text_roundtrip {| ptr_oid := hello_oid; ptr_size := 5 |} [] hello_oid)
    as (H1 & _ & H2 & _); [vm_compute; discriminate|]. by split.
Defined.

(** ** The store *)

Definition hello_path : LfsFs.path := object_path {| root := repo_path |} hello_oid.

Lemma fs_write_correct_witness :
  fs_write {| root := repo_path |} hello_oid 5 [Ok (b! "hel"); Ok (b! "lo")] ∅ =
  (Ok (), {[hello_path := hello]}).
Proof.
  rewrite (fs_write_correct {| root := repo_path |} hello_oid 5 [Ok (b! "hel"); Ok (b! "lo")] ∅).
  - by_vm.
  - reflexivity.
Defined.

Lemma concurrent_uploads_safe_witness :
  ∃ s, rtc upload_step (∅, ∅) (s, ∅) ∧ s !! hello_path = Some hello ∧
       ∀ r o b, s !! object_path r o = Some b → sha256 b = o.
Proof.
  exists {[hello_path := hello]}.
  assert (rtc upload_step (∅, ∅) ({[hello_path := hello]}, ∅)) as Hrun.
  { apply (fs_write_steps {| root := repo_path |} hello_oid 5 [Ok hello] ∅). by_vm. }
  split; [exact Hrun|]. split; [by_vm|].
  apply (concurrent_uploads_safe ∅ {[hello_path := hello]} ∅ Hrun).
  intros r o b Hb. by rewrite lookup_empty in Hb.
Defined.

Lemma handle_batch_correct_witness :
  ∃ repo s0 objs, @lfs_open _ FsLfs repo_path ({[hello_path := hello]} : files) = (Ok repo, s0) ∧
    Forall2 (answered Download repo (b! "http://h") ({[hello_path := hello]} : files))
      [hello_object] objs ∧
    response_to_string {| br_transfer := b! "basic"; br_objects := objs |} = Ok (b! "1").
Proof.
  assert (@handle_batch _ FsLfs _ _ repo_path (b! "http://h") (b! "download")
    ({[hello_path := hello]} : files) = ((200, b! "1"), ({[hello_path := hello]} : files))) as Hrun by by_vm.
  exact (proj2 (proj2 (proj2 (proj2 (handle_batch_correct _ _ _ _ _ _ _ Hrun))
           (batch Download None) ltac:(by_vm))) eq_refl).
Defined.

(** ** Over HTTP *)

Definition request (method : bytes) (headers : list (bytes * bytes)) (body : bytes) : Request := {|
  req_method := method; req_header n := (list_to_map headers : gmap bytes bytes) !! n;
  req_query := None; req_body := body |}.

Definition put_hello : Request := request (b! "PUT") [(b! "content-length", b! "5")] hello.
Definition get_hello : Request := request (b! "GET") [(b! "host", b! "h")] [].
Definition verify_hello : Request := request (b! "POST") [] (b! "verify").

Lemma lfs_object_lifecycle_witness :
  serve_lfs (T := ()) (L := FsLfs) repo_path (object_url (b! "demo") hello_oid) put_hello ∅ =
    (status_response 200, <[object_path {| root := repo_path ++ [b! "lfs"; b! "objects"] |} hello_oid := hello]> ∅) ∧
  batch_object (H := FsLfs) Download {| root := repo_path ++ [b! "lfs"; b! "objects"] |}
      (lfs_base_url get_hello (b! "demo")) hello_object
      (<[object_path {| root := repo_path ++ [b! "lfs"; b! "objects"] |} hello_oid := hello]> ∅) =
    (object_answer hello_object
       (Some {| boa_download := Some {| bad_href := b! "http://h/" ++ object_url (b! "demo") hello_oid;
                                        bad_header := ∅; bad_expires_in := None |};
                boa_upload := None; boa_verify := None |}) None,
     <[object_path {| root := repo_path ++ [b! "lfs"; b! "objects"] |} hello_oid := hello]> ∅).
Proof.
  destruct (lfs_object_lifecycle (T := ()) repo_path (b! "demo") hello ∅ put_hello get_hello verify_hello
              (b! "verify") 5) as (H1 & _ & _ & H2);
    [exact healthy|by_vm|by_vm|by_vm|by_vm|vm_compute; discriminate|by_vm|by_vm|by_vm|by_vm|by_vm|].
  split; [exact H1|exact H2].
Defined.

(** The KV backend's repositories, with their LFS objects below a directory of the same
    name. *)
#[export] Instance forge_lfs : LfsStore (@RepoId _ kv_backend) := {|
  lfs_store := files; LfsRepo := FsLfsRepo;
  lfs_open (id : bytes) := fs_open [id]; lfs_stat := fs_stat;
  lfs_download_action _ _ _ := mret Proxy; lfs_upload_action _ _ _ := mret Proxy;
  lfs_read := fs_read; lfs_write := fs_write |}.

#[export] Instance forge_lfs_laws : LfsLaws forge_lfs.
Proof.
  refine {| lfs_object := fs_object : @LfsRepo _ forge_lfs → LfsOid → @lfs_store _ forge_lfs → option bytes;
            lfs_alias r r' := r = r' |}.
  - done.
  - exact (lfs_stat_keeps (L := FsLfs)).
  - done.
  - done.
  - exact (lfs_read_keeps (L := FsLfs)).
  - exact (lfs_stat_Ok (L := FsLfs)).
  - exact (lfs_read_Ok (L := FsLfs)).
  - exact (lfs_write_stores (L := FsLfs)).
  - exact (lfs_write_Ok (L := FsLfs)).
Defined.

Definition no_files : @lfs_store _ forge_lfs := (∅ : files).

Definition hello_url : bytes := object_url (b! "demo") hello_oid.

Lemma server_request_effects_witness :
  let x := serve_with_backends (L := forge_lfs) hello_url default_limits put_hello (server, no_files) in
  http_status <$> x.1 = Some 200 ∧ x.2.1 = server ∧ content_addressed x.2.2.
Proof.
  intros x. split; [by_vm|].
  destruct (server_request_effects (L := forge_lfs) hello_url default_limits put_hello server no_files
              x.1 x.2.1 x.2.2 (eta3 x)) as [Hc Heff].
  split.
  - exact (proj1 (proj1 (Heff (b! "demo") _ (object_url_routes (b! "demo") hello_oid)) ltac:(by_vm))).
  - apply Hc. intros r o b Hb. exfalso. cbn in Hb. unfold fs_object, no_files in Hb.
    by rewrite lookup_empty in Hb.
Defined.
End LfsDemo.
