(* ===== verification/SqlExamples.v ===== *)
(** * Concrete runs of the SQL backend, on the repository of [Examples] *)

From stdpp Require Import base gmap list sorting strings relations.
From Stdlib Require Import Strings.Byte ZArith.
From S2P Require Import Prelude Bytes Gix Proto Types Handlers Graph Inspect KvKeys PackCache PackTools Sql SqlGraph SqlObjects SqlPack SqlBackend Examples.
From S2P Require Kv KvExamples Agree.
Open Scope N_scope.

Module SqlDemo.
Import Demo.

#[export] Instance sql_answers : Sqlx := {| sql_fault _ _ := None |}.

Lemma always m op : sql_fault m op = None.
Proof. reflexivity. Qed.

(** Repository 1: [main] is at [c1], whose tree holds the file [f1]. *)
Definition tables : SqlDb := {|
  repositories := {[1 := (path, None)]};
  Sql.objects := list_to_map
    [((1, oid_as_bytes c1), (KIND_COMMIT, commit_data t1 []));
     ((1, oid_as_bytes t1), (KIND_TREE, x42 :: oid_as_bytes f1));
     ((1, oid_as_bytes f1), (KIND_BLOB, b! "one"));
     ((1, oid_as_bytes tag), (KIND_TAG, b! "Tag"))];
  refs := {[(1, main) := oid_as_bytes c1]};
  commit_parents := ∅ |}.

(** ** Refs *)

Lemma tables_wf : refs_wf 1 tables.
Proof.
  split; [reflexivity|]. intros n v Hv. cbn [refs tables] in Hv. apply lookup_singleton_Some in Hv as [_ <-].
  exists c1. by split.
Qed.

Lemma sql_update_refs_cas_witness :
  (∃ m', sql_update_refs 1 [update c1 c2 main] tables = (Ok (), m') ∧
         sql_refs 1 m' = <[main := c2]> (sql_refs 1 tables)) ∧
  (∃ e, sql_update_refs 1 [update c2 c1 main] tables = (Err e, tables)) ∧
  (∃ e, sql_update_refs 1 [update oid_null oid_null main] tables = (Err e, tables)).
Proof.
  assert (sql_refs 1 tables !! main = Some c1) as Hc by by_vm. split_and!.
  - destruct (sql_update_refs_cas 1 [update c1 c2 main] tables always tables_wf) as [Hu _].
    specialize (Hu ltac:(constructor; [by intros [? _]|constructor])).
    unfold cas_updates, cas_update in Hu. cbn [old_oid new_oid refname update] in Hu.
    change (is_null c1) with false in Hu. change (is_null c2) with false in Hu.
    rewrite decide_True in Hu by exact Hc. exact Hu.
  - destruct (sql_update_refs_cas 1 [update c2 c1 main] tables always tables_wf) as [Hu _].
    specialize (Hu ltac:(constructor; [by intros [? _]|constructor])).
    unfold cas_updates, cas_update in Hu. cbn [old_oid new_oid refname update] in Hu.
    change (is_null c1) with false in Hu. change (is_null c2) with false in Hu.
    rewrite decide_False in Hu by (rewrite Hc; discriminate). exact Hu.
  - apply (sql_update_refs_cas 1 [update oid_null oid_null main] tables always tables_wf).
    left. split; by_vm.
Defined.

(** ** Objects *)

Definition extracted : list ExtractedObject * PackMetadata := default ([], []) (ok (extract_pack indexed)).

Definition pushed : SqlDb := (sql_ingest_pack 1 indexed tables).2.

Lemma extracted_distinct : NoDup (xo_oid <$> extracted.1).
Proof. apply (bool_decide_unpack _). vm_compute. exact I. Qed.

Lemma sql_ingest_roundtrip_witness :
  ∃ m', sql_ingest_pack 1 indexed tables = (Ok (Some (extracted.2, xo_oid <$> extracted.1)), m') ∧
    (∀ x, x ∈ extracted.1 → Sql.objects m' !! (1, oid_as_bytes (xo_oid x)) =
       Some (default (xo_kind x, xo_data x) (Sql.objects tables !! (1, oid_as_bytes (xo_oid x))))) ∧
    (∀ x cap, x ∈ extracted.1 → new_object 1 tables x → len (xo_data x) ≤ cap →
       sql_read_object_raw 1 (xo_oid x) cap m' = (Ok (Some (xo_data x)), m')) ∧
    (∀ k v, Sql.objects tables !! k = Some v → Sql.objects m' !! k = Some v) ∧
    (∀ ci, ci ∈ commits extracted.2 → len (c_parents ci) ≤ 2 ^ 31 → new_commit 1 tables ci →
       sql_graph 1 m' (c_oid ci) = c_parents ci) ∧
    (∀ id' k, id' ≠ 1 → Sql.objects m' !! (id', k) = Sql.objects tables !! (id', k)) ∧
    refs m' = refs tables ∧ repositories m' = repositories tables.
Proof.
  apply (sql_ingest_roundtrip 1 indexed extracted.1 extracted.2 tables always).
  - reflexivity.
  - by_vm.
  - rewrite <- surjective_pairing. apply is_ok_Ok. by_vm.
  - intros E. assert (length extracted.1 = 3%nat) as Hl by by_vm. by rewrite E in Hl.
  - apply extracted_distinct.
Defined.

(** ** The commit graph, after the push of [c2] *)

Lemma pushed_parents : commit_parents pushed = {[(1, oid_as_bytes c2, 0%Z) := oid_as_bytes c1]}.
Proof. by_vm. Qed.

Lemma pushed_history : history_wf 1 pushed.
Proof.
  assert (∀ c b, b ∈ cte_step 1 pushed c → c = oid_as_bytes c2 ∧ b = oid_as_bytes c1) as Hstep.
  { intros c b [pos Hp]%elem_of_cte_step. rewrite pushed_parents in Hp.
    apply lookup_singleton_Some in Hp as [[= <- _] <-]. done. }
  split.
  - intros c pos b Hb. rewrite pushed_parents in Hb. apply lookup_singleton_Some in Hb as [_ <-]. by eexists.
  - intros o p [-> ->]%Hstep Hr. apply rtc_inv in Hr as [E|(q & [E _]%Hstep & _)]; discriminate E.
Qed.

Lemma sql_push_kind_correct_witness :
  ∃ k, sql_compute_push_kind 1 c1 c2 pushed = Some k ∧
    (k = Create ↔ c1 = oid_null) ∧ (k = Delete ↔ c1 ≠ oid_null ∧ c2 = oid_null) ∧
    (k = FastForward ↔ c1 ≠ oid_null ∧ c2 ≠ oid_null ∧ reaches (sql_graph 1 pushed) c2 c1 ∧
       sql_fault pushed (OpStatement (b! "WITH RECURSIVE ancestors EXISTS")) = None).
Proof. apply (sql_push_kind_correct 1 c1 c2 pushed pushed_history). Defined.

Lemma sql_reachable_exact_witness :
  ∃ l, sql_reachable_excluding 1 [c2] [c1] 10 pushed = Some (Ok l) ∧ NoDup l ∧ len l ≤ 10 ∧
    ∀ o, o ∈ l ↔ reached_from (sql_graph 1 pushed) [c2] o ∧ ¬ reached_from (sql_graph 1 pushed) [c1] o.
Proof.
  assert (sql_reachable_excluding 1 [c2] [c1] 10 pushed = Some (Ok [c2])) as Hr by by_vm.
  exists [c2]. split; [exact Hr|]. apply (sql_reachable_exact 1 [c2] [c1] 10 pushed), Hr.
Defined.

(** ** Packs *)

Lemma tables_history : history_wf 1 tables.
Proof.
  assert (∀ c b, b ∉ cte_step 1 tables c) as Hstep.
  { intros c b [pos Hp]%elem_of_cte_step. done. }
  split; [done|]. by intros o p ?%Hstep.
Qed.

Lemma sql_demo_held o x :
  sql_held 1 tables o = Some x →
  (o = c1 ∧ x = (GCommit, commit_data t1 [])) ∨ (o = t1 ∧ x = (GTree, x42 :: oid_as_bytes f1)) ∨
  (o = f1 ∧ x = (GBlob, b! "one")) ∨ (o = tag ∧ x = (GTag, b! "Tag")).
Proof.
  intros Hx. assert (∃ row, Sql.objects tables !! (1, oid_as_bytes o) = Some row) as [row Hrow].
  { unfold sql_held in Hx. destruct (Sql.objects tables !! _); [eauto|done]. }
  apply elem_of_list_to_map_2 in Hrow. rewrite !elem_of_cons, elem_of_nil in Hrow.
  assert (sql_held 1 tables c1 = Some (GCommit, commit_data t1 [])) as E1 by by_vm.
  assert (sql_held 1 tables t1 = Some (GTree, x42 :: oid_as_bytes f1)) as E2 by by_vm.
  assert (sql_held 1 tables f1 = Some (GBlob, b! "one")) as E3 by by_vm.
  assert (sql_held 1 tables tag = Some (GTag, b! "Tag")) as E4 by by_vm.
  destruct Hrow as [E|[E|[E|[E|[]]]]];
    apply pair_equal_spec in E as [[_ E]%pair_equal_spec _]; apply oid_as_bytes_inj in E; subst o;
    [rewrite E1 in Hx|rewrite E2 in Hx|rewrite E3 in Hx|rewrite E4 in Hx]; naive_solver.
Qed.

Lemma sql_demo_consistent : consistent (sql_held 1 tables) (sql_graph 1 tables).
Proof.
  assert (∀ o, sql_graph 1 tables o = []) as Hg by (intros o; done).
  split.
  - intros o data Hx%sql_demo_held. naive_solver.
  - intros o. rewrite Hg. destruct (sql_held 1 tables o) as [[k data]|] eqn:E; [|done].
    apply sql_demo_held in E as [[_ [= -> ->]]|[[_ [= -> ->]]|[[_ [= -> ->]]|[_ [= -> ->]]]]]; by_vm.
  - intros o p Hp. rewrite Hg in Hp. by apply elem_of_nil in Hp.
  - intros o data t [[_ [= ->]]|[[? ?]|[[? ?]|[? ?]]]]%sql_demo_held; [|done..]. intros Ht.
    change (Some t1 = Some t) in Ht. injection Ht as <-. intros k d E.
    apply sql_demo_held in E as [[E _]|[[_ E]|[[E _]|[E _]]]]; by inversion E.
  - intros o data es b p [[? ?]|[[_ [= ->]]|[[? ?]|[? ?]]]]%sql_demo_held; [done| |done..]. intros He.
    change (Ok (E := error) [(false, f1)] = Ok es) in He. injection He as <-.
    intros [= -> ->]%list_elem_of_singleton k d E.
    apply sql_demo_held in E as [[E _]|[[E _]|[[_ E]|[E _]]]]; by inversion E.
Qed.

(** The rows of the demo table. *)
Lemma sql_demo_rows key k data :
  Sql.objects tables !! key = Some (k, data) →
  is_Some (kind_of_int k) ∧ (k = KIND_TREE → data = x42 :: oid_as_bytes f1).
Proof.
  intros Hx%elem_of_list_to_map_2. rewrite !elem_of_cons, elem_of_nil in Hx.
  destruct Hx as [[= _ -> ->]|[[= _ -> ->]|[[= _ -> ->]|[[= _ -> ->]|[]]]]]; (split; [by eexists|done]).
Qed.

(** A fetch of [c1] by a client that holds the file, and of the tag. *)
Lemma sql_needed_exact_witness :
  (∃ S, sql_needed_oids 1 [c1] [f1] tables = Ok S ∧
    ∀ o, o ∈ S ↔ reached_from (links (sql_held 1 tables)) [c1] o ∧
                 ¬ reached_from (links (sql_held 1 tables)) [f1] o) ∧
  sql_needed_oids 1 [tag] [] tables = Ok {[tag]}.
Proof.
  assert (trees_parse tables) as Hp by (intros key data [_ ->]%sql_demo_rows; by_vm || done).
  assert (sql_objects_wf tables) as Hwf by (by intros key k data [? _]%sql_demo_rows).
  split.
  - apply (sql_needed_exact 1 [c1] [f1] tables always tables_history Hp Hwf sql_demo_consistent);
      [|KvExamples.by_vm_le].
    apply Forall_cons_2; [|apply Forall_cons_2; [|apply Forall_nil_2]].
    + intros k data E. left.
      apply sql_demo_held in E as [[_ [= -> _]]|[[E _]|[[E _]|[E _]]]]; [done|by inversion E..].
    + intros k data E. right.
      apply sql_demo_held in E as [[E _]|[[E _]|[[_ [= -> ->]]|[E _]]]]; [by inversion E..| |by inversion E].
      split; [done|by_vm].
  - apply (sql_needed_exact 1 [] [] tables always tables_history Hp Hwf sql_demo_consistent)
      with (data := b! "Tag"); [by_vm|by_vm|KvExamples.by_vm_le].
Defined.

(** The selected objects, and the pack built for them. *)
Example sql_fetch_runs :
  sql_needed_oids 1 [c1] [] tables = Ok {[c1; t1; f1]} ∧
  is_ok (sql_build_pack 1 [c1] [] {| po_deepen := None; po_filter := None; po_thin_pack := false |}
           {| sql_db := tables; sql_cache := ∅; sql_cells := [] |}).1 = true.
Proof. split; by_vm. Qed.

(** ** The backends side by side *)

Lemma backends_agree_witness :
  (Agree.accepted (Kv.update_refs 1) [[update c1 c2 main]; [update c1 c2 main]] database).1 =
  (Agree.accepted (sql_update_refs 1) [[update c1 c2 main]; [update c1 c2 main]] tables).1 ∧
  sql_compute_push_kind 1 c1 c2 tables = Some (Kv.compute_push_kind 1 c1 c2 database) ∧
  sql_reachable_excluding 1 [c2] [c1] 10 tables = Some (Ok [c2]).
Proof.
  destruct (Agree.backends_agree 1 database 1 tables never always KvExamples.KvDemo.demo_intact tables_wf)
    as (Hb & _ & Hk & Hwalk & _).
  - intros o. by rewrite KvExamples.KvDemo.kv_no_parents.
  - apply tables_history.
  - split.
    + by_vm.
    + intros o. unfold Kv.kv_graph, parents. rewrite KvExamples.KvDemo.kv_no_parents. done.
  - split_and!; [apply Hb|apply Hk|apply Hwalk; by_vm]. repeat constructor; by intros [? _].
Defined.
End SqlDemo.
