(* ===== verification/BitmapExamples.v ===== *)
(** * Concrete bitmaps

    A pack of two commits and a file, with its [.rev] and [.bitmap] files. *)

From stdpp Require Import base gmap list sorting strings.
From Stdlib Require Import Strings.Byte NArith Lia.
From S2P Require Import Prelude Bytes Gix Proto Types Inspect Dense Bitmap.
Open Scope N_scope.

Module BitmapDemo.
#[export] Existing Instances Sha1.hash.

(** A stand-in for EWAH: the positions, each after a one, then a zero. *)
Fixpoint toy_decode (s : bytes) : result error (list byte * bytes) :=
  match s with
  | x00 :: rest => Ok ([], rest)
  | x01 :: p :: rest => '(ps, rest) ← toy_decode rest; Ok (p :: ps, rest)
  | _ => Err (Foreign (b! "not a bitmap"))
  end.

#[export] Instance toy_ewah : GixBitmap := {|
  ewah := list byte;
  ewah_decode := toy_decode;
  ewah_num_bits _ := 64;
  ewah_bits := map Byte.to_N |}.

Definition toy_encode (ps : list byte) : bytes := concat ((λ p, [x01; p]) <$> ps) ++ [x00].

Lemma toy_decode_encode (ps : list byte) rest : ewah_decode (toy_encode ps ++ rest) = Ok (ps, rest).
Proof.
  induction ps as [|p ps IH]; [done|]. unfold toy_encode. rewrite fmap_cons. cbn [concat app ewah_decode toy_ewah toy_decode].
  change (concat _ ++ [x00]) with (toy_encode ps). cbn [ewah_decode toy_ewah] in IH. by rewrite IH.
Qed.

(** [c1] and [c2] are commits, [c2] after [c1]; [f] is a file. *)
Definition oid (n : N) : ObjectId := default oid_null (match oid_try_from (to_be_bytes 20 n) with Ok o => Some o | Err _ => None end).
Definition c1 : ObjectId := oid 1.
Definition c2 : ObjectId := oid 2.
Definition f : ObjectId := oid 3.

Definition reach (o : ObjectId) : gset ObjectId :=
  if decide (o = c2) then {[c1; c2; f]} else if decide (o = c1) then {[c1; f]} else {[o]}.

Definition index : PackIndex := {| num_objects := 3; oid_at_index p := oid (p + 1) |}.

(** In the pack the file comes first.  The bitmap of [c2] is given relative to that of [c1]. *)
Definition rev : list N := [2; 0; 1].
Definition e1 : Entry := {| idx_pos := 0; xor_offset := 0; entry_ewah := [x00; x01] : list byte |}.
Definition e2 : Entry := {| idx_pos := 1; xor_offset := 1; entry_ewah := [x02] : list byte |}.
Definition hash20 : bytes := replicate 20 x00.

Definition idx_path : bytes := b! "objects/pack/pack-1.idx".
Definition rev_path : bytes := b! "objects/pack/pack-1.rev".
Definition bitmap_path : bytes := b! "objects/pack/pack-1.bitmap".

(** A directory with this pack, and the given bitmap file. *)
Definition disk (bitmap : bytes) : PackFiles := {|
  is_file p := bool_decide (p = rev_path ∨ p = bitmap_path);
  fs_read_file p := if decide (p = rev_path) then Ok (encode_rev rev hash20)
                    else if decide (p = bitmap_path) then Ok bitmap else Err (Foreign (b! "not found"));
  fs_read_dir _ := DirEntries [b! "objects/pack/tmp"; idx_path];
  index_at p := if decide (p = idx_path) then Ok index else Err (Foreign (b! "not found")) |}.

Definition bitmap_of (es : list Entry) : bytes :=
  encode_bitmap toy_encode 1 hash20 [[]; []; []; []] es hash20.

Definition loaded (es : list Entry) : PackBitmap :=
  {| offset_pos_to_idx_pos := rev; offset_pos_to_oid := [None; None; None]; oid_to_entry := ∅;
     entries := es; pack_object_count := 3 |}.

Lemma demo_describes : describes reach index (loaded [e1; e2]).
Proof.
  constructor; [done|by apply (bool_decide_unpack _); vm_compute|].
  intros [|[|k]] e He; cbn in He; simplify_eq; (split_and!; [done|cbn; lia|by apply (bool_decide_unpack _); vm_compute|]).
  all: intros [|[|[|i]]] p Hi; cbn in Hi; simplify_eq; by vm_compute.
Qed.

Lemma have_reachable_demo :
  fresh (loaded [e1; e2]) ∧ have_reachable (indexed index (loaded [e1; e2])) [c2] = Some (Some (closures reach [c2])).
Proof.
  split; [done|]. rewrite (have_reachable_spec reach index (loaded [e1; e2]) [c2] eq_refl demo_describes).
  rewrite decide_True; [done|]. apply (bool_decide_unpack _). by vm_compute.
Defined.

Definition good := disk (bitmap_of [e1; e2]).

Lemma sidecars_roundtrip_witness : load (files := good) idx_path (len rev) = Ok (Some (loaded [e1; e2])).
Proof.
  rewrite (sidecars_roundtrip (gix_bitmap := toy_ewah) (files := good) toy_encode toy_decode_encode idx_path rev hash20 1 hash20 [[]; []; []; []] [e1; e2] hash20).
  - reflexivity.
  - by repeat constructor.
  - by vm_compute.
  - by vm_compute.
  - by vm_compute.
  - reflexivity.
  - reflexivity.
  - by vm_compute.
  - by repeat constructor.
  - by vm_compute.
  - by vm_compute.
  - by vm_compute.
  - by vm_compute.
Defined.

Lemma demo_sidecars : sidecars_describe (files := good) reach [b! "objects/pack/tmp"; idx_path].
Proof.
  intros path i b Hp Hi Hl. unfold index_at, good, disk in Hi. destruct (decide (path = idx_path)) as [->|]; [|done]. injection Hi as <-.
  assert (load (files := good) idx_path 3 = Ok (Some (loaded [e1; e2]))) as E by by_vm.
  cbn [num_objects index] in Hl. rewrite E in Hl. injection Hl as <-. apply demo_describes.
Qed.

(** A clone of [c2] is given the pack. *)
Lemma find_reusable_pack_correct_witness :
  find_reusable_pack (files := good) (b! "objects/pack") [c2] [] = Some (Ok (Some (b! "objects/pack/pack-1.pack"))) ∧
  pack_objects index = closures reach [c2] ∖ closures reach [].
Proof.
  assert (find_reusable_pack (files := good) (b! "objects/pack") [c2] [] = Some (Ok (Some (b! "objects/pack/pack-1.pack")))) as E
    by by_vm.
  split; [exact E|].
  pose proof (find_reusable_pack_correct (files := good) reach (b! "objects/pack") _ [c2] []
                ltac:(done) eq_refl demo_sidecars) as H. rewrite E in H.
  destruct H as (path & _ & (_ & i & b & Hi & _ & _ & Hs) & _). unfold index_at, good, disk in Hi.
  destruct (decide (path = idx_path)); [|done]. injection Hi as <-. exact Hs.
Defined.

(** The first entry claims a base before it. *)
Definition e1_bad : Entry := {| idx_pos := 0; xor_offset := 7; entry_ewah := [x00; x01] : list byte |}.
Definition bad := disk (bitmap_of [e1_bad; e2]).

Lemma corrupt_bitmap_panics_witness : pack_is_exactly_reusable (files := bad) idx_path [c1] [] = None.
Proof.
  apply (corrupt_bitmap_panics (files := bad) idx_path index (loaded [e1_bad; e2]) c1 0 e1_bad); first [by_vm|by vm_compute].
Defined.

(** The same files with version 2 in the header of the bitmap. *)
Definition bitmap_v2 : bytes := b! "BITM" ++ to_be_bytes 2 2 ++ drop 6 (bitmap_of [e1; e2]).
Definition newer : PackFiles := {|
  is_file := is_file (PackFiles := good); fs_read_file := fs_read_file (PackFiles := disk bitmap_v2);
  fs_read_dir _ := DirEntries [idx_path]; index_at := index_at (PackFiles := good) |}.

Lemma unsupported_bitmap_fails_witness :
  find_reusable_pack (files := newer) (b! "objects/pack") [c2] [] = Some (bail (b! ".bitmap version 2 unsupported")).
Proof.
  refine (unsupported_bitmap_fails (files := newer) (b! "objects/pack") idx_path [] index rev bitmap_v2 (encode_rev rev hash20) c2 [] []
            _ _ _ _ _ _ _ _ _ _ _); first [by_vm|by vm_compute].
Defined.
End BitmapDemo.
