(* ===== verification/PackWalkExamples.v ===== *)
(** * A concrete object database for the pack walk *)

From stdpp Require Import base gmap list sorting strings relations.
From Stdlib Require Import Strings.Byte NArith Lia.
From S2P Require Import Prelude Bytes Gix Proto Types Graph Inspect PackWalk.
Open Scope N_scope.

Module WalkDemo.
#[export] Existing Instances Sha1.hash Sha1.hash_laws.

Definition id (n : N) : ObjectId := match oid_try_from (to_be_bytes 20 n) with Ok o => o | Err _ => oid_null end.

(** Two commits, [c2] after [c1].  The tree of [c2] holds the file [f2], the tree of [c1]
    as a directory, and the submodule [m], which is not stored. *)
Definition c1 : ObjectId := id 1.
Definition c2 : ObjectId := id 2.
Definition t1 : ObjectId := id 3.
Definition t2 : ObjectId := id 4.
Definition f1 : ObjectId := id 5.
Definition f2 : ObjectId := id 6.
Definition m : ObjectId := id 7.

(** A commit is [C], its tree and its parents, twenty bytes each; a tree is a list of entries, a
    byte for the kind and twenty bytes for the id. *)
Fixpoint chunks (fuel n : nat) (s : bytes) : list bytes :=
  match fuel, s with
  | S fuel, _ :: _ => take n s :: chunks fuel n (drop n s)
  | _, _ => []
  end.

Definition entry_of (s : bytes) : result error EntryRef :=
  match s with
  | k :: raw => o ← oid_try_from raw; Ok {| entry_is_tree := bool_decide (k = x54); entry_oid := o |}
  | [] => Err (Foreign (b! "empty entry"))
  end.

Definition stored : list (ObjectId * (Kind * bytes)) :=
  [(c1, (GCommit, x43 :: oid_as_bytes t1));
   (c2, (GCommit, x43 :: oid_as_bytes t2 ++ oid_as_bytes c1));
   (t1, (GTree, x42 :: oid_as_bytes f1));
   (t2, (GTree, (x42 :: oid_as_bytes f2) ++ (x54 :: oid_as_bytes t1) ++ (x53 :: oid_as_bytes m)));
   (f1, (GBlob, b! "one")); (f2, (GBlob, b! "two"))].

Fixpoint find_in (l : list (ObjectId * (Kind * bytes))) (o : ObjectId) : option (Kind * bytes) :=
  match l with
  | [] => None
  | (p, x) :: l' => if decide (p = o) then Some x else find_in l' o
  end.

Definition toy_tree_id (s : bytes) : result error ObjectId :=
  match s with x43 :: s' => oid_try_from (take 20 s') | _ => Err (Foreign (b! "not a commit")) end.
Definition toy_parents (s : bytes) : list ObjectId :=
  match s with x43 :: s' => omap (λ raw, ok (oid_try_from raw)) (chunks (length s) 20 (drop 20 s')) | _ => [] end.
Definition toy_tree_iter (s : bytes) : result error (list EntryRef) := mapM entry_of (chunks (length s) 21 s).

(** The commit walks, by the walks of [Graph]. *)
Definition fetch (o : ObjectId) : result error (list ObjectId) :=
  Ok (match find_in stored o with Some (_, data) => toy_parents data | None => [] end).

Definition toy_walk (tips hidden : list ObjectId) : list (result error ObjectId) :=
  match reachable_excluding fetch 10 tips hidden 10 with
  | Some (Ok l) => Ok <$> l
  | _ => [Err (Foreign (b! "not found"))]
  end.

(** The tree walk, one level at a time; the stored trees have two. *)
Fixpoint show_level {S} (V : Visit S) (pending : list ObjectId) (x : S * list ObjectId) : result error (S * list ObjectId) :=
  match pending with
  | [] => Ok x
  | t :: pending' =>
      match find_in stored t with
      | Some (GTree, data) => es ← toy_tree_iter data; show_level V pending' (foldl (show V) x es)
      | _ => Err (Foreign (b! "not found"))
      end
  end.

Fixpoint show_levels {S} (fuel : nat) (V : Visit S) (pending : list ObjectId) (s : S) : result error S :=
  match fuel, pending with
  | _, [] => Ok s
  | O, _ => Err (Foreign (b! "too deep"))
  | S fuel, _ => '(s', next) ← show_level V pending (s, []); show_levels fuel V next s'
  end.

#[export] Instance toy_odb : GixOdb := {|
  try_find o := Ok (find_in stored o);
  commit_tree_id := toy_tree_id;
  commit_parent_ids := toy_parents;
  tree_iter := toy_tree_iter;
  simple_new tips := toy_walk tips [];
  simple_hide tips hidden := Ok (toy_walk tips hidden);
  breadthfirst S V data s :=
    es ← toy_tree_iter data; let '(s', next) := foldl (show V) (s, []) es in show_levels 3 V next s' |}.

Lemma show_app {S} (V : Visit S) es s P s' P' :
  foldl (show V) (s, P) es = (s', P') → ∃ new, P' = P ++ new ∧ foldl (show V) (s, []) es = (s', new).
Proof.
  assert (∀ s P Q, foldl (show V) (s, P ++ Q) es = let '(s', P') := foldl (show V) (s, Q) es in (s', P ++ P')) as Hs.
  { clear. induction es as [|e es IH]; intros s P Q; [done|]. cbn [foldl]. unfold show at 2 4.
    destruct (entry_is_tree e); [destruct (visit_tree V e s) as [s1 []]|]; rewrite <- ?app_assoc; apply IH. }
  intros E. specialize (Hs s P []). rewrite app_nil_r, E in Hs. destruct (foldl (show V) (s, []) es) as [s1 new].
  injection Hs as -> ->. eauto.
Qed.

Lemma show_level_traversal {S} (V : Visit S) pending s acc s' acc' s2 :
  show_level V pending (s, acc) = Ok (s', acc') → traversal V acc' s' s2 → traversal V (pending ++ acc) s s2.
Proof.
  revert s acc; induction pending as [|t pending IH]; intros s acc; cbn [show_level app].
  { by intros [= <- <-]. }
  destruct (find_in stored t) as [[[] data]|] eqn:Ef; [done| |done..].
  intros (es & Hes & Hl)%result_bind_Ok Ht. destruct (foldl (show V) (s, acc) es) as [s1 acc1] eqn:E.
  apply show_app in E as (new & -> & E).
  apply (traversal_tree V t [] (pending ++ acc) data es s s1 new); [cbn [try_find toy_odb]; by rewrite Ef|done|done|].
  cbn [app]. rewrite <- app_assoc. by apply IH.
Qed.

Lemma show_levels_traversal {S} fuel (V : Visit S) pending s s' :
  show_levels fuel V pending s = Ok s' → traversal V pending s s'.
Proof.
  revert pending s; induction fuel as [|fuel IH]; intros [|t pending] s; cbn [show_levels]; [intros [= <-]; constructor|done|intros [= <-]; constructor|].
  intros ([s1 next] & Hl & Hr%IH)%result_bind_Ok. rewrite <- (app_nil_r (t :: pending)). by eapply show_level_traversal.
Qed.

(** The stored trees. *)
Definition blob (o : ObjectId) : EntryRef := {| entry_is_tree := false; entry_oid := o |}.
Definition dir (o : ObjectId) : EntryRef := {| entry_is_tree := true; entry_oid := o |}.

Definition data_t1 : bytes := x42 :: oid_as_bytes f1.
Definition data_t2 : bytes := (x42 :: oid_as_bytes f2) ++ (x54 :: oid_as_bytes t1) ++ (x53 :: oid_as_bytes m).

Lemma iter_t1 : toy_tree_iter data_t1 = Ok [blob f1].
Proof. by_vm. Qed.

Lemma iter_t2 : toy_tree_iter data_t2 = Ok [blob f2; dir t1; blob m].
Proof. by_vm. Qed.

Lemma stored_trees t data : find_in stored t = Some (GTree, data) →
  (t = t1 ∧ data = data_t1) ∨ (t = t2 ∧ data = data_t2).
Proof.
  unfold stored. cbn [find_in]. repeat (case_decide; [by intros [= <-]; auto|]). done.
Qed.

Lemma read_t1 : find_in stored t1 = Some (GTree, data_t1).
Proof. by_vm. Qed.

Lemma read_t2 : find_in stored t2 = Some (GTree, data_t2).
Proof. by_vm. Qed.

Lemma show_leaves {S} (V : Visit S) pending s acc :
  Forall (.= t1) pending → ∃ s', show_level V pending (s, acc) = Ok (s', acc).
Proof.
  intros Hp. revert s; induction Hp as [|t pending -> _ IH]; intros s; cbn [show_level]; [eauto|].
  rewrite read_t1, iter_t1. cbn [mbind result_bind foldl show blob entry_is_tree]. apply IH.
Qed.

Lemma show_roots {S} (V : Visit S) pending s acc :
  Forall (λ t, t = t1 ∨ t = t2) pending → Forall (.= t1) acc →
  ∃ s' next, show_level V pending (s, acc) = Ok (s', next) ∧ Forall (.= t1) next.
Proof.
  intros Hp. revert s acc; induction Hp as [|t pending Ht _ IH]; intros s acc Ha; cbn [show_level]; [eauto|].
  destruct Ht as [-> | ->].
  - rewrite read_t1, iter_t1. cbn [mbind result_bind foldl show blob entry_is_tree]. by apply IH.
  - rewrite read_t2, iter_t2. cbn [mbind result_bind foldl show blob dir entry_is_tree].
    destruct (visit_tree V _ _) as [s1 []]; apply IH; [|done]. apply Forall_app. split; [done|by constructor].
Qed.

Lemma intact_is_stored t : intact_tree t → t = t1 ∨ t = t2.
Proof. intros [t' data es Ef _ _]. cbn in Ef. injection Ef as Ef. by apply stored_trees in Ef as [[-> _]|[-> _]]; [left|right]. Qed.

Lemma show_levels_total {S} (V : Visit S) pending s :
  Forall (λ t, t = t1 ∨ t = t2) pending → ∃ s', show_levels 3 V pending s = Ok s'.
Proof.
  intros Hp. destruct pending as [|t pending]; [by exists s|]. cbn [show_levels].
  destruct (show_roots V (t :: pending) s [] Hp) as (s1 & next & -> & Hn); [constructor|]. cbn [mbind result_bind].
  destruct next as [|u next]; [by exists s1|].
  destruct (show_leaves V (u :: next) s1 [] Hn) as [s2 ->]. cbn. by exists s2.
Qed.

(** ** The laws hold of it *)

Lemma fetch_parents o : parents fetch o = odb_parents o.
Proof. unfold parents, fetch, odb_parents. cbn [try_find toy_odb]. by destruct (find_in stored o) as [[]|]. Qed.

Lemma reached_fetch tips c : reached_from (parents fetch) tips c ↔ reached_from odb_parents tips c.
Proof.
  unfold reached_from, reaches. f_equiv. intros f. f_equiv. split; apply rtc_subrel; intros x y; by rewrite fetch_parents.
Qed.

Lemma mapM_Ok {A} (l : list A) : mapM (λ r : result error A, r) (Ok <$> l) = Ok l.
Proof. induction l as [|x l IH]; [done|]. cbn. by rewrite IH. Qed.

Lemma toy_walk_spec tips hidden l :
  mapM (λ r, r) (toy_walk tips hidden) = Ok l →
  ∀ c, c ∈ l ↔ reached_from odb_parents tips c ∧ ¬ reached_from odb_parents hidden c.
Proof.
  unfold toy_walk. destruct (reachable_excluding _ _ _ _ _) as [[l'|]|] eqn:E; [|done..]. rewrite mapM_Ok. intros [= ->] c.
  apply reachable_excluding_Ok in E as (_ & _ & Hl). by rewrite Hl, !reached_fetch.
Qed.

Lemma demo_closed : closed fetch {[c1; c2]}.
Proof.
  intros o p Ho. rewrite fetch_parents. apply elem_of_union in Ho as [->%elem_of_singleton| ->%elem_of_singleton].
  - change (odb_parents c1) with (@nil ObjectId). by intros ?%elem_of_nil.
  - assert (odb_parents c2 = [c1]) as -> by (by_vm). set_solver.
Qed.

Lemma intact_commit_stored c : intact_commit c → c ∈ ({[c1; c2]} : gset ObjectId).
Proof.
  intros (data & t & Ef & _). cbn [try_find toy_odb] in Ef. injection Ef as Ef. revert Ef. unfold stored. cbn [find_in].
  repeat (case_decide; [intros [= <-]; set_solver|]). done.
Qed.

Lemma toy_walk_total tips hidden :
  (∀ c, reached_from odb_parents (tips ++ hidden) c → intact_commit c) →
  ∃ l, mapM (λ r, r) (toy_walk tips hidden) = Ok l.
Proof.
  intros Hi. destruct (reachable_excluding_healthy fetch (λ o, ex_intro _ _ eq_refl) {[c1; c2]} 10 tips hidden 10) as [l E].
  - apply demo_closed.
  - intros o Ho. apply intact_commit_stored, Hi. exists o. split; [done|apply rtc_refl].
  - vm_compute. lia.
  - by vm_compute.
  - exists l. unfold toy_walk. rewrite E. apply mapM_Ok.
Qed.

#[export] Instance toy_laws : GixOdbLaws.
Proof.
  constructor.
  - intros tips l Hl c. rewrite (toy_walk_spec tips [] l Hl). split; [tauto|]. intros ?. split; [done|]. by intros (f & ?%elem_of_nil & _).
  - intros tips hidden rs l [= <-]. apply toy_walk_spec.
  - intros S V data s s' (es & Hes & Hr)%result_bind_Ok. destruct (foldl (show V) (s, []) es) as [s1 new] eqn:E.
    exists es, s1, new. split_and!; [done|done|]. by eapply show_levels_traversal.
  - intros tips Hi. apply toy_walk_total. by rewrite app_nil_r.
  - intros tips hidden Hi. destruct (toy_walk_total tips hidden Hi) as [l Hl]. eauto.
  - intros S V data es s Hes Hi. cbn [breadthfirst toy_odb]. cbn in Hes. rewrite Hes. cbn [mbind result_bind].
    destruct (foldl (show V) (s, []) es) as [s1 new] eqn:E. apply show_levels_total.
    assert (∀ es s P s1 P1, foldl (show V) (s, P) es = (s1, P1) → (∀ e, e ∈ es → entry_is_tree e = true → intact_tree (entry_oid e)) →
              Forall (λ t, t = t1 ∨ t = t2) P → Forall (λ t, t = t1 ∨ t = t2) P1) as Hf.
    { clear. intros es; induction es as [|e es IH]; intros s P s1 P1; cbn [foldl]; [by intros [= <- <-]|]. intros E Hi HP.
      unfold show at 2 in E. destruct (entry_is_tree e) eqn:Et; [destruct (visit_tree V e s) as [s2 []]|]; (eapply IH; [exact E|set_solver|]); [|done..].
      apply Forall_app. split; [done|]. constructor; [|done]. apply intact_is_stored, Hi; [by left|done]. }
    eapply Hf; [exact E|done|constructor].
Qed.

(** ** Fetches *)

Lemma stored_commits c t : tree_of c t → (c = c1 ∧ t = t1) ∨ (c = c2 ∧ t = t2).
Proof.
  intros (k & data & Ef & Et). cbn [try_find toy_odb] in Ef. injection Ef as Ef. revert Ef Et. unfold stored. cbn [find_in].
  repeat (case_decide; [intros [= <- <-] [= Et]; subst; first [by left|by right|done]|]). done.
Qed.

Lemma entries_t1 : tree_entries t1 = [blob f1].
Proof. unfold tree_entries. cbn [try_find toy_odb tree_iter]. by rewrite read_t1, iter_t1. Qed.

Lemma entries_t2 : tree_entries t2 = [blob f2; dir t1; blob m].
Proof. unfold tree_entries. cbn [try_find toy_odb tree_iter]. by rewrite read_t2, iter_t2. Qed.

Lemma demo_kinds : well_kinded.
Proof.
  constructor.
  - intros c t k data [[-> _]|[-> _]]%stored_commits [= <- _]; done.
  - intros c t k data [[_ ->]|[_ ->]]%stored_commits [= <- _]; done.
  - intros o e He Hb. assert (o = t1 ∨ o = t2) as Ho.
    { unfold tree_entries in He. cbn [try_find toy_odb] in He. destruct (find_in stored o) as [[[] data]|] eqn:E; try by apply elem_of_nil in He.
      apply stored_trees in E as [[? _]|[? _]]; auto. }
    destruct Ho as [-> | ->]; rewrite ?entries_t1, ?entries_t2 in He.
    + apply list_elem_of_singleton in He as ->. by_vm.
    + rewrite !elem_of_cons in He. destruct He as [->|[->|[->|?%elem_of_nil]]]; try done; by_vm.
Qed.

(** What the selection gives for these wants and haves. *)
Definition fetched (want have : list ObjectId) (deepen : option N) (filter : option Filter) : PackObjects :=
  match objects_for_fetch_filtered 10 want have deepen filter with
  | Some (Ok po) => po
  | _ => {| objects := []; have_set := ∅; shallow := [] |}
  end.

Definition succeeds (want have : list ObjectId) (deepen : option N) (filter : option Filter) : bool :=
  match objects_for_fetch_filtered 10 want have deepen filter with Some (Ok _) => true | _ => false end.

Lemma fetched_Ok want have deepen filter :
  succeeds want have deepen filter = true →
  objects_for_fetch_filtered 10 want have deepen filter = Some (Ok (fetched want have deepen filter)).
Proof. unfold succeeds, fetched. by destruct (objects_for_fetch_filtered _ _ _ _ _) as [[]|]. Qed.

(** The client has [c1] and wants [c2]: it is sent [f2], and not [f1].  The client has [c2] and
    wants ten levels of [c1]: it is sent [c1], which it has. *)
Lemma objects_for_fetch_exact_witness :
  requested [c2] [c1] None None f2 ∧ ¬ requested [c2] [c1] None None f1 ∧
  c1 ∈ objects (fetched [c1] [c2] (Some 10) None) ∧ reached_from odb_parents [c2] c1 ∧
  exactly [c1] [c2] (Some 10) None (.∈ objects (fetched [c1] [c2] (Some 10) None)).
Proof.
  destruct (objects_for_fetch_exact 10 [c2] [c1] None None (fetched [c2] [c1] None None) demo_kinds) as (_ & Ho & _).
  - by intros o ->%list_elem_of_singleton.
  - apply fetched_Ok. by_vm.
  - specialize (Ho eq_refl). rewrite <- !Ho.
    split; [apply (bool_decide_eq_true _); by_vm|]. split; [apply (bool_decide_eq_false _); by_vm|].
    split; [apply (bool_decide_eq_true _); by_vm|]. split.
    + exists c2. split; [by left|]. apply rtc_once. apply (bool_decide_eq_true _). by_vm.
    + apply (objects_for_fetch_exact 10 [c1] [c2] (Some 10) None (fetched [c1] [c2] (Some 10) None) demo_kinds).
      * by intros o ->%list_elem_of_singleton.
      * apply fetched_Ok. by_vm.
Defined.

Definition data_c1 : bytes := x43 :: oid_as_bytes t1.
Definition data_c2 : bytes := x43 :: oid_as_bytes t2 ++ oid_as_bytes c1.

Lemma found_c1 : try_find c1 = Ok (Some (GCommit, data_c1)) ∧ commit_tree_id data_c1 = Ok t1.
Proof. split; by_vm. Qed.

Lemma found_c2 : try_find c2 = Ok (Some (GCommit, data_c2)) ∧ commit_tree_id data_c2 = Ok t2.
Proof. split; by_vm. Qed.

Lemma intact_t1 : intact_tree t1.
Proof.
  apply (intact_tree_intro t1 data_t1 [blob f1]); [cbn [try_find toy_odb]; by rewrite read_t1|apply iter_t1|].
  by intros e ->%list_elem_of_singleton.
Qed.

Lemma intact_t2 : intact_tree t2.
Proof.
  apply (intact_tree_intro t2 data_t2 [blob f2; dir t1; blob m]); [cbn [try_find toy_odb]; by rewrite read_t2|apply iter_t2|].
  intros e. rewrite !elem_of_cons. intros [->|[->|[->|?%elem_of_nil]]]; try done. intros _. apply intact_t1.
Qed.

Lemma intact_c1 : intact_commit c1.
Proof. exists data_c1, t1. destruct found_c1. split_and!; [done|done|apply intact_t1]. Qed.

Lemma intact_c2 : intact_commit c2.
Proof. exists data_c2, t2. destruct found_c2. split_and!; [done|done|apply intact_t2]. Qed.

Lemma objects_for_fetch_total_witness :
  ∃ po, objects_for_fetch_filtered 3 [c2] [c1] (Some 2) (Some BlobNone) = Some (Ok po).
Proof.
  apply (objects_for_fetch_total {[c1; c2]}).
  - intros c [->%elem_of_singleton| ->%elem_of_singleton]%elem_of_union; [apply intact_c1|apply intact_c2].
  - intros c p Hc. rewrite <- fetch_parents. by apply demo_closed.
  - intros c Hc. assert (c ∈ [c2; c1]) as Hc' by exact Hc. set_solver.
  - apply Nat.ltb_lt. by_vm.
Defined.

(** [c1] is wanted with its tree: the file in the tree is not sent. *)
Lemma wanted_tree_hides_contents_witness : f1 ∉ objects (fetched [c1; t1] [] None None).
Proof.
  rewrite (wanted_tree_hides_contents 10 [c1; t1] c1 t1 None (fetched [c1; t1] [] None None)).
  - apply (bool_decide_eq_false _). by_vm.
  - by_vm.
  - by_vm.
  - exists GCommit, data_c1. apply found_c1.
  - set_solver.
  - by_vm.
  - apply fetched_Ok. by_vm.
Defined.

(** The submodule [m] of [c2] is selected, and not stored. *)
Lemma submodule_commit_selected_witness :
  m ∈ objects (fetched [c2] [c1] None None) ∧ try_find m = Ok None.
Proof.
  split; [|by_vm].
  assert (∀ c, tree_of c t2 → c = c2) as Hone by (by intros c [[_ ?]|[? _]]%stored_commits).
  apply (submodule_commit_selected 10 [c2] [c1] None _ c2 t2 (blob m) demo_kinds).
  - by intros o ->%list_elem_of_singleton.
  - apply fetched_Ok. by_vm.
  - split; [exists c2; split; [by left|apply rtc_refl]|]. intros (f & ->%list_elem_of_singleton & Hr).
    apply reaches_leaf in Hr; [by apply (bool_decide_eq_true _) in Hr; vm_compute in Hr|by_vm].
  - exists GCommit, data_c2. apply found_c2.
  - rewrite entries_t2. set_solver.
  - done.
  - intros (c & (f & ->%list_elem_of_singleton & ->%reaches_leaf) & Hin); [|by_vm].
    destruct Hin as [E|(t & Ht & Hrt)]; [by apply (bool_decide_eq_true _) in E; vm_compute in E|].
    apply stored_commits in Ht as [[_ ->]|[E _]]; [|by apply (bool_decide_eq_true _) in E; vm_compute in E].
    apply rtc_inv in Hrt as [E|(y & Hy & Hrest)]; [by apply (bool_decide_eq_true _) in E; vm_compute in E|]. unfold sent_kids in Hy. rewrite entries_t1 in Hy.
    apply list_elem_of_singleton in Hy as ->. apply reaches_leaf in Hrest as E; [|by_vm].
    by apply (bool_decide_eq_true _) in E; vm_compute in E.
Defined.

(** A client with [c2] alone that asks for ten levels is sent nothing. *)
Lemma deepen_held_tip_sends_nothing_witness :
  objects (fetched [c2] [c2] (Some 10) None) = [] ∧ shallow (fetched [c2] [c2] (Some 10) None) = [].
Proof.
  destruct (deepen_held_tip_sends_nothing 10 [c2] [c2] 10 None (fetched [c2] [c2] (Some 10) None)) as [Ho Hs].
  - intros c Hc. exact Hc.
  - apply fetched_Ok. by_vm.
  - split; [|exact Hs]. apply elem_of_nil_inv. intros o [Hw Hd]%Ho. apply list_elem_of_singleton in Hw as ->. vm_compute in Hd. done.
Defined.
End WalkDemo.
