(* ===== verification/FsExamples.v ===== *)
(** * Concrete runs of the gitoxide backend *)

From stdpp Require Import base gmap list sorting strings relations.
From Stdlib Require Import Strings.Byte NArith Lia.
From S2P Require Import Prelude Bytes Gix Proto Types Graph Inspect PackTools Dense Bitmap BitmapExamples PackWalk PackWalkExamples FsStream FsGitoxide.
Open Scope N_scope.

Module FsDemo.
Import WalkDemo.
#[export] Existing Instance BitmapDemo.toy_ewah.

(** ** Streams *)

Definition chunks : list Channel.step_result :=
  [Channel.Chunk (b! "PACK"); Channel.Chunk []; Channel.Chunk (b! "data")].

Lemma read_all_delivers_witness :
  PackReader.read_all [3; 3; 3; 3; 3; 3; 3; 3; 3]%nat
    {| PackReader.rx := [b! "PACK"; b! "data"]; PackReader.current := []; PackReader.thread := Some (Returned (Ok ())) |}
  = (b! "PACKdata", Some (Ok ())).
Proof.
  set (r := {| PackReader.rx := _ |}).
  destruct (PackReader.read_all_delivers [3; 3; 3; 3; 3; 3; 3; 3; 3]%nat r) as [H1 H2]; [repeat constructor; lia|].
  specialize (H2 ltac:(cbn; lia)). destruct (PackReader.read_all _ r) as [got [out|]] eqn:E; [|done].
  destruct H1 as [-> ->]. reflexivity.
Defined.

(** The thread has sent a chunk, and the reader has received it. *)
Lemma stream_completes_witness :
  ∃ s, rtc Channel.step (Channel.start chunks) s ∧ Channel.received s = [b! "PACK"] ∧
       (Channel.final s ∨ ∃ s', Channel.step s s').
Proof.
  assert (rtc Channel.step (Channel.start chunks)
    {| Channel.pending := [Channel.Chunk []; Channel.Chunk (b! "data")]; Channel.chan := []; Channel.sender := None;
       Channel.received := [b! "PACK"]; Channel.reader := Channel.Reading |}) as Hr.
  { eapply rtc_l; [eapply Channel.step_send; [done|done|done|done|cbn; unfold Channel.CAPACITY; lia]|].
    eapply rtc_l; [by eapply Channel.step_recv|]. apply rtc_refl. }
  eexists. split; [exact Hr|]. split; [done|]. by destruct (Channel.stream_completes _ _ Hr) as (_ & _ & _ & H & _).
Defined.

Lemma progress_throttled_witness :
  ∃ lines, Progress.sent (Progress.counted [(1000, 1); (1050, 1); (1100, 1)] (Progress.new [] (b! "Counting"))) = lines ∧
    N.of_nat (length lines) * 100 ≤ 1100.
Proof.
  destruct (Progress.progress_throttled [(1000, 1); (1050, 1); (1100, 1)] (Progress.new [] (b! "Counting")) 1100) as (lines & E & Hl).
  - repeat constructor; cbn; lia.
  - repeat constructor; cbn; lia.
  - cbn. lia.
  - exists lines. split; [exact E|]. cbn in Hl. lia.
Defined.

(** ** Refs *)

Definition met (refs : ref_store) (e : RefEdit) : bool :=
  match edit_expected e with
  | MustExist => bool_decide (is_Some (refs !! edit_name e))
  | MustNotExist => bool_decide (refs !! edit_name e = None)
  | MustExistAndMatch t => bool_decide (refs !! edit_name e = Some t)
  end.

#[export] Instance toy_refs : GixRefs := {|
  valid_name n := if starts_with (b! "refs/") n then None else Some (Foreign (b! "bad name"));
  committer_error := None;
  prepare edits refs :=
    if bool_decide (NoDup (edit_name <$> edits)) && forallb (λ e, negb (deref e) && met refs e) edits
    then Ok () else Err (Foreign (b! "stale"));
  commit edits refs := (Ok (), foldl apply_edit refs edits);
  all_refs refs := Ok (Ok <$> map_to_list refs);
  peel_to_id refs t := match t with TObject o => Ok o | TSymbolic n =>
    match refs !! n with Some (TObject o) => Ok o | _ => Err (Foreign (b! "unborn")) end end;
  head_ref refs := Ok None;
  find_reference refs n := match refs !! n with Some t => Ok t | None => Err (Foreign (b! "not found")) end |}.

Lemma met_spec refs e : met refs e = true ↔ expected_met refs (edit_name e) (edit_expected e).
Proof. unfold met, expected_met. by destruct (edit_expected e); rewrite bool_decide_eq_true. Qed.

#[export] Instance toy_refs_laws : GixRefsLaws.
Proof.
  refine {| lock_held _ _ := False |}.
  - intros edits refs. cbn [prepare toy_refs].
    case_bool_decide as Hn; cbn [andb]; [|split; [done|naive_solver]].
    assert (forallb (λ e, negb (deref e) && met refs e) edits = true ↔
            Forall (λ e, deref e = false ∧ expected_met refs (edit_name e) (edit_expected e)) edits) as Hall.
    { rewrite forallb_forall, Forall_forall. setoid_rewrite andb_true_iff. setoid_rewrite negb_true_iff. setoid_rewrite met_spec.
      setoid_rewrite list_elem_of_In. done. }
    destruct (forallb _ edits); [tauto|]. split; [done|]. intros (_ & _ & Hf). by apply Hall in Hf.
  - intros edits refs refs' _ [= <-]. done.
Defined.

Definition main : bytes := b! "refs/heads/main".
Definition demo_refs : ref_store := {[main := TObject c1]}.

Lemma fs_update_refs_cas_witness :
  cas_updates (object_refs demo_refs) [{| old_oid := c1; new_oid := c2; refname := main |}]
  = Some (object_refs {[main := TObject c2]}).
Proof.
  destruct (fs_update_refs_cas [{| old_oid := c1; new_oid := c2; refname := main |}] demo_refs) as [H _].
  - constructor; [|constructor]. intros [E _]. apply (bool_decide_eq_true _) in E. vm_compute in E. done.
  - apply H. by_vm.
Defined.

Lemma create_push_deletes_ref_witness :
  fs_compute_push_kind {| old_oid := oid_null; new_oid := oid_null; refname := main |} = Create ∧
  fs_update_refs [{| old_oid := oid_null; new_oid := oid_null; refname := main |}] demo_refs = (Ok (), delete main demo_refs).
Proof.
  destruct (create_push_deletes_ref {| old_oid := oid_null; new_oid := oid_null; refname := main |} demo_refs (TObject c1)
              (delete main demo_refs)) as (H1 & H2 & _).
  - done.
  - by_vm.
  - by_vm.
  - done.
  - intros Hl. exact Hl.
  - by_vm.
  - split; [exact H1|exact H2].
Defined.

(** ** Ingested packs *)

#[export] Instance toy_bundle : GixBundle := {|
  write_to_directory staged _ := Ok [(b! "pack-7.pack", staged); (b! "pack-7.idx", b! "index")];
  staging_error := None;
  rename_error _ := Some (Foreign (b! "another file system"));
  copy_error _ := None;
  remove_source_error _ := None;
  remove_error _ := None |}.

Definition staged : bytes := b! "PACK" ++ to_be_bytes 4 2 ++ to_be_bytes 4 1 ++ b! "one object".

Definition written : FsWrittenPack :=
  {| pack := b! "pack-7.pack"; index := b! "pack-7.idx"; pack_owned := true; index_owned := true |}.
Definition shared : FsWrittenPack :=
  {| pack := b! "pack-7.pack"; index := b! "pack-7.idx"; pack_owned := false; index_owned := false |}.
Definition with_pack : pack_files := <[b! "pack-7.idx" := b! "index"]> {[b! "pack-7.pack" := staged]}.

Lemma rollback_scope_witness : fs_rollback_ingest written with_pack = ∅.
Proof.
  destruct (rollback_scope staged ∅ written with_pack) as [H _]; [by_vm|]. by apply H.
Defined.

(** The same pack pushed twice: the second push keeps its refs, the first is denied, and
    the objects of both are gone. *)
Lemma rollback_removes_shared_pack_witness :
  fs_ingest_pack staged with_pack = (Ok (Some shared), with_pack) ∧ fs_rollback_ingest written with_pack !! pack shared = None.
Proof.
  assert (fs_ingest_pack staged with_pack = (Ok (Some shared), with_pack)) as E by by_vm. split; [exact E|].
  destruct (rollback_removes_shared_pack staged ∅ written shared with_pack with_pack) as (_ & _ & _ & _ & _ & H & _);
    [by_vm|done|done|done|exact E|exact (H eq_refl)].
Defined.

(** ** Fetches *)

(** A pack with the objects of [c1], and its bitmap. *)
Definition index1 : PackIndex := {| num_objects := 3; oid_at_index p := if p =? 0 then c1 else if p =? 1 then t1 else f1 |}.
Definition entry1 : Entry := {| idx_pos := 0; xor_offset := 0; entry_ewah := [x00; x01; x02] : list byte |}.
Definition rev1 : list N := [0; 1; 2].

Definition pack_path : bytes := b! "pack/pack-1.pack".
Definition idx_path : bytes := b! "pack/pack-1.idx".

#[export] Instance disk1 : PackFiles := {|
  is_file p := bool_decide (p = b! "pack/pack-1.rev" ∨ p = b! "pack/pack-1.bitmap");
  fs_read_file p :=
    if decide (p = b! "pack/pack-1.rev") then Ok (encode_rev rev1 (replicate 20 x00))
    else if decide (p = b! "pack/pack-1.bitmap")
    then Ok (encode_bitmap BitmapDemo.toy_encode 1 (replicate 20 x00) [[]; []; []; []] [entry1] (replicate 20 x00))
    else if decide (p = pack_path) then Ok (b! "PACK") else Err (Foreign (b! "not found"));
  fs_read_dir _ := DirEntries [idx_path];
  index_at p := if decide (p = idx_path) then Ok index1 else Err (Foreign (b! "not found")) |}.

Definition bitmap1 : PackBitmap :=
  {| offset_pos_to_idx_pos := rev1; offset_pos_to_oid := [None; None; None]; oid_to_entry := ∅;
     entries := [entry1]; pack_object_count := 3 |}.

Lemma load1 : load idx_path 3 = Ok (Some bitmap1).
Proof. by_vm. Qed.

(** What is reachable. *)
Definition closure1 : gset ObjectId := {[c1; t1; f1]}.
Definition closure2 : gset ObjectId := closure1 ∪ {[c2; t2; f2; m]}.
Definition closure (o : ObjectId) : gset ObjectId :=
  if decide (o = c1) then closure1 else if decide (o = c2) then closure2 else {[o]}.

Lemma demo_describes1 : describes closure index1 bitmap1.
Proof.
  constructor; [done|by apply (bool_decide_unpack _); vm_compute|].
  intros [|k] e He; cbn in He; simplify_eq; (split_and!; [done|cbn; lia|by apply (bool_decide_unpack _); vm_compute|]).
  intros [|[|[|i]]] p Hi; cbn in Hi; simplify_eq; by vm_compute.
Qed.

Lemma kids_t1 : sent_kids false t1 = [f1].
Proof. unfold sent_kids. by rewrite entries_t1. Qed.

Lemma kids_t2 : sent_kids false t2 = [f2; t1; m].
Proof. unfold sent_kids. by rewrite entries_t2. Qed.

Lemma kids_leaves : sent_kids false f1 = [] ∧ sent_kids false f2 = [] ∧ sent_kids false m = [].
Proof. split_and!; by_vm. Qed.

Lemma demo_parents : odb_parents c2 = [c1] ∧ odb_parents c1 = [].
Proof. split; by_vm. Qed.

Lemma below_c1 o : below_commit false c1 o ↔ o = t1 ∨ o = f1.
Proof.
  pose proof kids_t1 as Hk. destruct kids_leaves as (Hf & _).
  split.
  - intros (t & [[_ ->]|[E _]]%stored_commits & Hr); [|by apply (bool_decide_eq_true _) in E; vm_compute in E].
    apply rtc_inv in Hr as [->|(x & Hx & Hr)]; [by left|]. right. rewrite Hk in Hx. apply list_elem_of_singleton in Hx as ->.
    by apply reaches_leaf in Hr.
  - intros Ho. exists t1. split; [exists GCommit, data_c1; apply found_c1|]. destruct Ho as [->| ->]; [apply rtc_refl|].
    apply rtc_once. rewrite Hk. by left.
Qed.

(** Membership of a list of the ids. *)
Ltac mem := apply (bool_decide_eq_true _); by_vm.

Lemma below_c2 o : below_commit false c2 o → o ∈ [t2; f2; t1; m; f1].
Proof.
  pose proof kids_t2 as H2. pose proof kids_t1 as H1.
  destruct kids_leaves as (Hf1 & Hf2 & Hm).
  intros (t & [[E _]|[_ ->]]%stored_commits & Hr); [by apply (bool_decide_eq_true _) in E; vm_compute in E|].
  apply rtc_inv in Hr as [<-|(x & Hx & Hr)]; [mem|]. rewrite H2, !elem_of_cons in Hx.
  destruct Hx as [->|[->|[->|?%elem_of_nil]]]; [|..|done].
  - apply reaches_leaf in Hr as ->; [mem|done].
  - apply rtc_inv in Hr as [<-|(y & Hy & Hr)]; [mem|]. rewrite H1 in Hy. apply list_elem_of_singleton in Hy as ->.
    apply reaches_leaf in Hr as ->; [mem|done].
  - apply reaches_leaf in Hr as ->; [mem|done].
Qed.

Lemma in_c2 o : o ∈ [t2; f2; t1; m; f1] → below_commit false c2 o.
Proof.
  pose proof kids_t2 as H2. pose proof kids_t1 as H1.
  intros Ho. exists t2. split; [exists GCommit, data_c2; apply found_c2|].
  assert (∀ x, x ∈ [f2; t1; m] → reaches (sent_kids false) t2 x) as Hstep by (intros x Hx; apply rtc_once; by rewrite H2).
  rewrite !elem_of_cons in Ho. destruct Ho as [->|[->|[->|[->|[->|?%elem_of_nil]]]]]; [apply rtc_refl|apply Hstep; mem..| |done].
  eapply rtc_r; [apply (Hstep t1); mem|]. rewrite H1. by left.
Qed.

Lemma reached_one o c : reached_from odb_parents [o] c ↔ c = o ∨ (o = c2 ∧ c = c1).
Proof.
  destruct demo_parents as [H2 H1].
  assert (∀ o, o ≠ c2 → odb_parents o = []) as Hother.
  { intros o' Hn. unfold odb_parents. cbn [try_find toy_odb]. unfold stored. cbn [find_in].
    repeat (case_decide; [subst; first [done|by_vm]|]). done. }
  rewrite reached_from_one. split.
  - intros Hr. apply rtc_inv in Hr as [->|(x & Hx & Hr)]; [by left|]. destruct (decide (o = c2)) as [->|Hn].
    + rewrite H2 in Hx. apply list_elem_of_singleton in Hx as ->. apply reaches_leaf in Hr as ->; [by right|done].
    + rewrite Hother in Hx by done. by apply elem_of_nil in Hx.
  - intros [->|[-> ->]]; [apply rtc_refl|]. apply rtc_once. rewrite H2. by left.
Qed.

Lemma not_below_c c o : below_commit false c o → o ≠ c1 ∧ o ≠ c2.
Proof.
  intros Hb. assert (o ∈ [t2; f2; t1; m; f1]) as Ho.
  { destruct Hb as (t & Ht & Hr). destruct (stored_commits c t Ht) as [[-> _]|[-> _]].
    - assert (below_commit false c1 o) as [->| ->]%below_c1 by (by exists t); mem.
    - apply below_c2. by exists t. }
  rewrite !elem_of_cons in Ho.
  destruct Ho as [->|[->|[->|[->|[->|?%elem_of_nil]]]]]; try done; split; intros E; apply (bool_decide_eq_true _) in E; by vm_compute in E.
Qed.

Lemma demo_closure o x : x ∈ closure o ↔ client_has [o] x.
Proof.
  unfold client_has, of_commit. setoid_rewrite reached_one.
  assert (c1 ≠ c2) as Hne by (intros E; apply (bool_decide_eq_true _) in E; by vm_compute in E).
  assert (∀ c y, below_commit false c y → c = c1 ∨ c = c2) as Honly.
  { intros c y (t & [[-> _]|[-> _]]%stored_commits & _); auto. }
  unfold closure, closure2, closure1. case_decide as E1; [|case_decide as E2]; subst.
  - split.
    + intros Hx. exists c1. split; [by left|]. rewrite below_c1. set_solver.
    + intros (c & [->|[? _]] & Hc); [|done]. rewrite below_c1 in Hc. set_solver.
  - split.
    + intros Hx. destruct (decide (x = c1)) as [->|Hx1]; [exists c1; split; [by right|by left]|]. exists c2. split; [by left|].
      destruct (decide (x = c2)) as [->|Hx2]; [by left|right]. apply in_c2. set_solver.
    + intros (c & [->|[_ ->]] & Hc).
      * destruct Hc as [->|Hc%below_c2]; set_solver.
      * rewrite below_c1 in Hc. set_solver.
  - split; [intros ->%elem_of_singleton; exists o; split; by left|].
    intros (c & [->|[-> _]] & Hc); [|done]. destruct Hc as [->|Hc]; [set_solver|]. by destruct (Honly _ _ Hc).
Qed.

Lemma demo_sound : sound_repo closure {[c1; c2]} [idx_path].
Proof.
  assert (∀ i b, index_at idx_path = Ok i → load idx_path (num_objects i) = Ok (Some b) → i = index1 ∧ b = bitmap1) as Hload.
  { intros i b Hi. unfold index_at, disk1 in Hi. rewrite decide_True in Hi by done. injection Hi as <-.
    cbn [num_objects index1]. rewrite load1. by intros [= <-]. }
  constructor.
  - apply demo_closure.
  - apply demo_kinds.
  - intros c [->%elem_of_singleton| ->%elem_of_singleton]%elem_of_union; [apply intact_c1|apply intact_c2].
  - intros c p Hc. rewrite <- fetch_parents. by apply demo_closed.
  - intros have c Hc (c' & Hr & [->|Hb]); [done|]. apply not_below_c in Hb. set_solver.
  - intros path i b ->%list_elem_of_singleton Hi Hl. destruct (Hload i b Hi Hl) as [-> ->]. apply demo_describes1.
  - intros path i b o ->%list_elem_of_singleton Hi Hl Ho. destruct (Hload i b Hi Hl) as [-> ->].
    assert (indexed_commits index1 bitmap1 = {[c1]}) as E by by_vm. rewrite E in Ho. apply elem_of_singleton in Ho as ->. by_vm.
Qed.

(** A clone of [c1] is answered with the stored pack. *)
Lemma fs_build_pack_exact_witness :
  fs_build_pack 3 (b! "pack") [c1] [] {| po_deepen := None; po_filter := None; po_thin_pack := false |} = Some (Ok (ShipAsIs pack_path)) ∧
  ∀ o, o ∈ Bitmap.pack_objects index1 ↔ requested [c1] [] None None o.
Proof.
  set (opts := {| po_deepen := _ |}).
  assert (fs_build_pack 3 (b! "pack") [c1] [] opts = Some (Ok (ShipAsIs pack_path))) as E by by_vm. split; [exact E|].
  pose proof (fs_build_pack_exact closure {[c1; c2]} [idx_path] 3 (b! "pack") [c1] [] opts demo_sound eq_refl) as H.
  rewrite E in H. destruct H as (_ & _ & path & i & ->%list_elem_of_singleton & _ & Ei & Hi).
  - intros o ->%list_elem_of_singleton. by_vm.
  - intros c Hc. assert (commit_wants [c1] ++ [] = [c1]) as Ec by by_vm. rewrite Ec in Hc. set_solver.
  - apply Nat.ltb_lt. by_vm.
  - injection Ei as <-. exact Hi.
Defined.
End FsDemo.
