(* ===== verification/CliExamples.v ===== *)
(** * Concrete runs of the git CLI backend and of the SSH server *)

From stdpp Require Import base gmap list sorting strings relations.
From Stdlib Require Import Strings.Byte NArith Lia.
From S2P Require Import Prelude Bytes Text Gix Proto Types Handlers Inspect Auth Serve Ssh GitPipes FsGitCli.
Open Scope N_scope.

Module CliDemo.
#[export] Existing Instances Sha1.hash Sha1.hash_laws.

Definition id (n : N) : ObjectId := match oid_try_from (to_be_bytes 20 n) with Ok o => o | Err _ => oid_null end.
Definition c1 : ObjectId := id 1.
Definition c2 : ObjectId := id 2.
Definition c3 : ObjectId := id 3.

Definition main : bytes := b! "refs/heads/main".
Definition advance : RefUpdate := {| old_oid := c1; new_oid := c2; refname := main |}.
Definition HEAD : bytes := b! "HEAD".
Definition advance_head : RefUpdate := {| old_oid := c1; new_oid := c2; refname := HEAD |}.
Definition before : gmap bytes ObjectId := {[main := c1]}.
Definition after : gmap bytes ObjectId := {[main := c2]}.

(** A file whose name is not UTF-8, and one whose name is. *)
Definition odd_name : bytes := b! "caf" ++ [xe9].
Definition demo_diff : list diff_side :=
  [({| d_path := odd_name; d_change := Added; d_mode := 33188; d_oid := c1 |}, (0, oid_null));
   ({| d_path := b! "src/main.rs"; d_change := Removed; d_mode := 33261; d_oid := c2 |}, (0, oid_null))].

Definition demo_refs : list RefInfo :=
  [{| r_name := main; r_oid := c1; r_peeled := None; r_symref_target := None |};
   {| r_name := b! "refs/remotes/origin/HEAD"; r_oid := c1; r_peeled := None; r_symref_target := Some main |};
   {| r_name := b! "refs/tags/v1"; r_oid := c3; r_peeled := Some c1; r_symref_target := None |};
   {| r_name := b! "refs/tags/wip"; r_oid := c2; r_peeled := None; r_symref_target := None |}].

Definition done_with (out : bytes) : result RunError Output := Ok {| success := true; status := b! "0"; stdout := out; stderr := [] |}.
Definition failed : result RunError Output := Ok {| success := false; status := b! "128"; stdout := []; stderr := b! "fatal" |}.

(** A git that knows this repository. *)
#[export] Instance toy_git : GitProgram := {|
  world := gmap bytes ObjectId;
  git _ args input w :=
    if decide (args = [b! "update-ref"; b! "--stdin"]) then
      if decide (w = before ∧ (input = cmd_line (command_of advance) ∨ input = cmd_line (command_of advance_head)))
      then (done_with [], after) else (failed, w)
    else if decide (head args = Some (b! "diff-tree")) then (done_with (raw_output demo_diff), w)
    else if decide (head args = Some (b! "for-each-ref")) then (done_with (refs_text demo_refs), w)
    else if decide (head args = Some (b! "rev-list")) then
      (done_with (if decide (last args = Some (b! "--max-count=0")) then [] else rev_text [c3; c2]), w)
    else (failed, w);
  git_pipe _ _ _ w := (Err (SpawnFailed (Foreign (b! "not here"))), w);
  path_exists _ _ := true;
  create_dir _ _ := None;
  staging_error := None;
  remove_file _ w := w |}.

Lemma main_one_word : one_word main.
Proof. split_and!; [done|by apply (bool_decide_eq_false _)..|done]. Qed.

Lemma head_one_word : one_word HEAD.
Proof. split_and!; [done|by apply (bool_decide_eq_false _)..|done]. Qed.

Definition head_of_main : gmap bytes bytes := {[HEAD := main]}.

Lemma main_direct : head_of_main !! main = None.
Proof. by_vm. Qed.

Lemma head_follows : follows head_of_main HEAD main.
Proof. apply follows_on with main; [by_vm|]. apply follows_here, main_direct. Qed.

(** The command on [main], under either name. *)
Lemma advance_performed (u : RefUpdate) :
  u = advance ∨ u = advance_head → performed head_of_main [command_of u] before after.
Proof.
  intros Hu. exists [command_of advance]. split_and!.
  - constructor; [|constructor]. exists main. destruct Hu as [->| ->]; (split; [|by_vm]); [apply follows_here, main_direct|apply head_follows].
  - apply NoDup_singleton.
  - constructor; [change (before !! main = Some c1); by_vm|constructor].
  - by_vm.
Qed.

#[export] Instance toy_update_ref : GitUpdateRef.
Proof.
  refine {| refs_at _ w := w; symrefs_at _ _ := head_of_main |}. intros path cmds w output w' Hw. cbn [git toy_git]. rewrite decide_True by done.
  destruct (decide _) as [[-> E]|]; [|by intros [= <- <-]]. intros [= <- <-] _.
  assert (∃ u, (u = advance ∨ u = advance_head) ∧ cmds = [command_of u]) as (u & Hu & ->); [|by apply advance_performed].
  destruct E as [E|E]; [exists advance|exists advance_head]; (split; [tauto|]); apply commands_unambiguous;
    [done|repeat constructor; apply main_one_word|by rewrite E, bind_cons, app_nil_r
    |done|repeat constructor; apply head_one_word|by rewrite E, bind_cons, app_nil_r].
Defined.

(** An update of [main]; and one of [HEAD], which moves [main]. *)
Lemma cli_update_refs_cas_witness :
  cli_update_refs (b! "repo.git") [advance] before = (Ok (), after) ∧ cas_updates before [advance] = Some after ∧
  cli_update_refs (b! "repo.git") [advance_head] before = (Ok (), after) ∧
  ∃ vs, Forall2 (update_follows head_of_main) [advance_head] vs ∧ cas_updates before vs = Some after.
Proof.
  assert (cli_update_refs (b! "repo.git") [advance] before = (Ok (), after)) as E by by_vm. split; [exact E|].
  destruct (cli_update_refs_cas (program := toy_git) (b! "repo.git") [advance] before after) as [_ H].
  { repeat constructor; apply main_one_word. }
  split; [apply (H E); constructor; [apply main_direct|constructor]|].
  assert (cli_update_refs (b! "repo.git") [advance_head] before = (Ok (), after)) as Eh by by_vm. split; [exact Eh|].
  destruct (cli_update_refs_cas (program := toy_git) (b! "repo.git") [advance_head] before after) as [_ Hh].
  { repeat constructor; apply head_one_word. }
  destruct (Hh Eh) as [(vs & Hvs & _ & _ & Hcas) _]. by exists vs.
Defined.

(** A push that may create refs of its own names moves [main] without an old value. *)
Lemma update_ref_injection_witness :
  ∃ body u, read_receive_request default_limits body = Ok ([u], b! "PACK") ∧ preliminary_push_kind u = Create ∧
    update_stdin [u] = (b! "create refs/heads/mine " ++ oid_to_hex c2 ++ [x0a])
                       ++ (b! "update refs/heads/main " ++ oid_to_hex c2 ++ [x0a]).
Proof.
  destruct (update_ref_injection default_limits (b! " report-status") (b! "PACK") (b! "refs/heads/mine") (b! "update") main c2)
    as (Hp & Hk & Hs & _).
  - intros E. apply (bool_decide_eq_true _) in E. by vm_compute in E.
  - by vm_compute.
  - split; (constructor; [|constructor]).
    + split; [by_vm|]. apply N.ltb_lt. by_vm.
    + apply (bool_decide_eq_false _). by_vm.
  - eexists _, _. split; [exact Hp|]. split; [exact Hk|]. rewrite Hs. by_vm.
Defined.

(** The odd name becomes another one, which a file may have. *)
Lemma cli_tree_diff_lossy_witness :
  cli_tree_diff (b! "repo.git") None c3 before =
  (Ok [{| d_path := b! "caf" ++ REPLACEMENT; d_change := Added; d_mode := 33188; d_oid := c1 |};
       {| d_path := b! "src/main.rs"; d_change := Removed; d_mode := 33261; d_oid := c2 |}], before).
Proof.
  destruct (cli_tree_diff_lossy (program := toy_git) (b! "repo.git") None c3 demo_diff before
              {| success := true; status := b! "0"; stdout := raw_output demo_diff; stderr := [] |} before) as [E _].
  - repeat constructor; by apply (bool_decide_eq_false _).
  - by_vm.
  - done.
  - done.
  - rewrite E. by_vm.
Defined.

Lemma cli_list_refs_roundtrip_witness :
  cli_list_refs (b! "repo.git") before = (Ok {| rs_head := None; rs_refs := demo_refs |}, before).
Proof.
  assert (∀ n, bool_decide (utf8_valid n = true ∧ (x20 ∉ n) ∧ (x0a ∉ n)) && match last n with Some b => graphic b | None => false end = true → plain_name n) as Hname.
  { intros n [(Hu & Hs & Hn)%bool_decide_eq_true Hl]%andb_true_iff. constructor; [done..|].
    destruct n as [|b n _] using rev_ind; [done|]. rewrite last_snoc in Hl. eauto. }
  assert (∀ r, plain_name (r_name r) → from_option plain_name True (r_symref_target r) →
            from_option (λ p, bool_decide (p ≠ r_oid r ∧ oid_to_hex p ≠ replicate 40 x30) = true) True (r_peeled r) → plain_ref r) as Href.
  { intros r Hn Ht Hp. constructor; [done| |].
    - intros t E. by rewrite E in Ht.
    - intros p E. rewrite E in Hp. by apply bool_decide_eq_true in Hp. }
  apply (cli_list_refs_roundtrip (program := toy_git) (b! "repo.git") demo_refs before before
           {| success := true; status := b! "0"; stdout := refs_text demo_refs; stderr := [] |}).
  - repeat first [apply Forall_nil_2|apply Forall_cons; split];
      (apply Href; [apply Hname; by_vm|..]);
      cbn [from_option r_symref_target r_peeled]; first [exact I|apply Hname; by_vm|by_vm].
  - by_vm.
  - by_vm.
  - done.
  - done.
Defined.

(** Three commits are new.  With a cap of one the walk is refused; with the largest cap it
    finds nothing. *)
Lemma cli_reachable_capped_witness :
  (cli_reachable_excluding (b! "repo.git") [c3] [] 1 before).1 = Err (CapExceeded 1) ∧
  (cli_reachable_excluding (b! "repo.git") [c3] [] usize_max before).1 = Ok [].
Proof.
  destruct (cli_reachable_capped (program := toy_git) (b! "repo.git") [c3] [] 1 [c3; c2; c1] before
              {| success := true; status := b! "0"; stdout := rev_text [c3; c2]; stderr := [] |} before) as [H1 _];
    [done|done|by_vm|done|by_vm|].
  destruct (cli_reachable_capped (program := toy_git) (b! "repo.git") [c3] [] usize_max [c3; c2; c1] before
              {| success := true; status := b! "0"; stdout := []; stderr := [] |} before) as [_ H2];
    [done|done|by_vm|done|by_vm|].
  split; [rewrite H1 by done; done|]. destruct (H2 eq_refl) as [_ ->]. done.
Defined.

(** The pipes of Linux hold 64 KiB, which is less than 1600 requests and less than 1400
    answers: with 4000 haves [has_objects] does not return. *)
Lemma batch_check_deadlock_witness :
  ¬ ∃ s, rtc (BatchCheck.step 4000 1600 1400) BatchCheck.start s ∧ BatchCheck.returned 4000 s.
Proof.
  intros (s & Hr & Hd). destruct (BatchCheck.batch_check_deadlock 4000 1600 1400 s) as (_ & _ & H); [lia|lia|exact Hr|].
  destruct H as (Hc & _); [lia|]. unfold BatchCheck.returned in Hd. lia.
Defined.
End CliDemo.
