(* ===== verification/SshExamples.v ===== *)
(** * A concrete SSH connection *)

From stdpp Require Import base gmap list sorting strings.
From Stdlib Require Import Strings.Byte NArith Lia.
From S2P Require Import Prelude Bytes Text Gix Proto Types Handlers Auth Serve Inspect Kv PackCache PackTools KvPack KvBackend Ssh Examples.
Open Scope N_scope.

Module SshDemo.
Import Demo.
#[export] Existing Instances Sha1.hash Sha1.hash_laws.

(** The forge lets the user [git] with key 7 work on [demo.git]. *)
Definition forge_says (name : bytes) (key : N) (repo_path : bytes) : option RepoAccess :=
  if decide (name = b! "git" ∧ key = 7 ∧ repo_path = b! "demo.git") then Some forge else None.

Definition visit : list (event N) :=
  [EvAuth _ (b! "git") 7; EvOpen _ 0 1; EvEnv _ 1 (b! "GIT_PROTOCOL") (b! "version=2");
   EvExec _ forge_says 1 (b! "git-upload-pack '/demo.git'")].

Lemma run_visit : (run _ visit (new_client N)).1 = [Start 1 UploadPack forge 2].
Proof. reflexivity. Qed.

Lemma ssh_serves_authorized_witness : authorized N visit 1 UploadPack forge 2.
Proof.
  destruct (run _ visit (new_client N)) as [out h] eqn:E.
  apply (ssh_serves_authorized N visit out h E). pose proof run_visit as Hr. rewrite E in Hr. cbn [fst] in Hr. rewrite Hr. by left.
Defined.

Lemma parse_git_command_roundtrip_witness :
  parse_git_command (b! "git-receive-pack '//srv/demo.git'") = Ok (ReceivePack, b! "/srv/demo.git").
Proof.
  apply (parse_git_command_roundtrip ReceivePack (b! "//srv/demo.git")); [done| |].
  - by intros q [->| ->].
  - reflexivity.
Defined.

(** A visitor who opens a channel and waits is gone after eleven seconds. *)
Definition waiting : list (event N) :=
  [EvAuth _ (b! "git") 7] ++ EvOpen _ 500 1 :: [EvClock _ 900] ++ [EvClock _ 11000].

Lemma exec_deadline_witness : (run _ waiting (new_client N)).2 = None.
Proof.
  apply (exec_deadline (H0 := kv_backend) N [EvAuth _ (b! "git") 7] 500 1 [EvClock _ 900] 11000); [done|done|].
  by vm_compute.
Defined.
End SshDemo.
