(* ===== verification/BackendExamples.v ===== *)
(** * Pushes to small concrete repositories on the filesystem backends *)

From stdpp Require Import base gmap list sorting strings.
From Stdlib Require Import Strings.Byte NArith Lia.
From S2P Require Import Prelude Bytes Text Gix Proto Types Handlers Sigverify Auth Serve Graph Inspect PackTools Dense Bitmap PackWalk FsStream FsGitoxide FsGitCli FsBackend CliBackend Examples BitmapExamples PackWalkExamples FsExamples CliExamples.
Open Scope N_scope.

(** How far a push gets before [authorize_push] is asked, on any backend. *)
Section pipeline.
Context `{StorageBackend} {access : RepoAccess} {transport : Transport}.
Context (body : bytes) (s : store) (us : list RefUpdate) (rest : bytes) (ctx : PushContext) (repo : Repo).

Definition opened : store := (sb_open ra_repo_id s).2.
Definition pushed_pack : option IngestedPack := default None (ok (stage_and_ingest repo rest opened).1).
Definition with_pack : store := (stage_and_ingest repo rest opened).2.
Definition inspected : flow GitResponse (option PackMetadata) * store := inspect_or_reject us pushed_pack with_pack.
Definition metadata : option PackMetadata := match inspected.1 with Go m => m | _ => None end.
Definition push_refs : list PushRef * store := build_push_refs_async us repo inspected.2.
Definition tips : list ObjectId * store := existing_ref_tips repo push_refs.1 push_refs.2.
Definition verdict : option (result bytes ()) * store :=
  run_comparison repo (default [] metadata) push_refs.1 tips.1 default_options (ra_authorize_push ctx) tips.2.

Lemma push_reaches :
  read_receive_request default_limits body = Ok (us, rest) →
  ra_authorize_preliminary (build_push_refs us preliminary_push_kind) = Ok ctx →
  (sb_open ra_repo_id s).1 = Ok repo →
  is_ok (stage_and_ingest repo rest opened).1 = true →
  match inspected.1 with Go _ => true | _ => false end = true →
  reaches_auth default_limits body s us ctx repo pushed_pack metadata push_refs.1 tips.1 tips.2.
Proof.
  intros Hr Hpre Ho Hi Hm. constructor.
  exists rest, opened, with_pack, inspected.2, push_refs.2.
  split_and!; [done|done|by apply Demo.run_fst| | |apply surjective_pairing|apply surjective_pairing].
  - unfold pushed_pack, with_pack. destruct (stage_and_ingest repo rest opened) as [[x|] s']; done.
  - unfold metadata. apply Demo.run_fst. unfold inspected in *.
    by destruct (inspect_or_reject us pushed_pack with_pack) as [[m|x|] s'].
Qed.
End pipeline.

(** A handler's answer that is computed to stream. *)
Lemma answer_streams `{StorageBackend} (x : option GitResponse * store) :
  match x.1 with Some {| reader := Some _ |} => true | _ => false end = true →
  ∃ resp s1 t, x = (Some resp, s1) ∧ reader resp = Some t.
Proof. destruct x as [[resp|] s1]; [|done]. destruct resp as [? ? [t|] ?]; [|done]. intros _. by do 3 eexists. Qed.

Module GitoxideServer.
#[export] Existing Instances Sha1.hash Sha1.hash_laws Demo.objects Demo.packs Demo.wire BitmapDemo.toy_ewah FsDemo.toy_bundle
  FsDemo.toy_refs_laws.
Import WalkDemo.

Definition toy_gitoxide_walks : GixRepo := {|
  topo_walk from excluding := simple_hide (GixOdb := toy_odb) from excluding;
  record_changes _ _ := Ok [] |}.

#[export] Instance toy_gitoxide : Gitoxide := {|
  gx_refs _ _ := FsDemo.toy_refs;
  gx_odb _ _ := toy_odb;
  gx_walks _ _ := toy_gitoxide_walks;
  gx_packs _ _ := FsDemo.disk1;
  gx_open path d := if decide (is_Some (d !! path)) then None else Some (Foreign (b! "no repository"));
  gx_init _ := {| create_parent _ := None; init_bare _ := Some (Foreign (b! "exists")); head_exists _ := true |};
  gx_initialised _ d := d;
  gx_no_bundle := Foreign (b! "not found");
  gx_pack_steps _ _ objects _ := [Channel.Chunk (b! "PACK"); Channel.Chunk (concat (oid_as_bytes <$> objects))];
  gx_progress _ _ _ _ := [];
  gx_file_reads data := [Ok data; Ok []];
  gx_commits _ _ := 2%nat |}.

#[export] Instance toy_gitoxide_laws : GitoxideLaws.
Proof.
  constructor.
  - intros path files. exact FsDemo.toy_refs_laws.
  - intros path files edits refs r refs' (_ & Hn & _)%(prepare_Ok (gix_refs := FsDemo.toy_refs)) [= _ <-].
    induction edits as [|e edits IH] using rev_ind; intros n; [by left|].
    rewrite fmap_app in Hn. apply NoDup_app in Hn as (Hn & Hd & _). rewrite foldl_app. cbn [foldl].
    destruct (decide (n = edit_name e)) as [->|Hne].
    + right. exists e. split; [apply elem_of_app; right; by left|]. split; [done|]. unfold apply_edit.
      destruct (change e); by rewrite ?lookup_delete_eq, ?lookup_insert_eq.
    + unfold apply_edit at 1. assert (∀ m : ref_store, apply_edit m e !! n = m !! n) as Ha.
      { intros m. unfold apply_edit. destruct (change e); by rewrite ?lookup_delete_ne, ?lookup_insert_ne. }
      fold (apply_edit (foldl apply_edit refs edits) e). rewrite Ha.
      destruct (IH Hn n) as [?|(e' & He & ? & ?)]; [by left|right]. exists e'. split; [apply elem_of_app; by left|done].
  - done.
  - intros path files from excluding items l Hi Hl. by eapply (simple_hide_spec (odb := toy_odb)).
Defined.

Definition path : bytes := b! "demo.git".
Definition main : bytes := b! "refs/heads/main".
Definition frozen : bytes := b! "refs/heads/frozen".

(** [main] is at [c1]. *)
Definition server : @store _ gitoxide_backend := {[ path := {| dir_refs := {[main := TObject c1]}; dir_files := ∅ |} ]}.

(** The forge: one branch may not be pushed to. *)
#[export] Instance forge : RepoAccess (H0 := gitoxide_backend) := {|
  PushContext := ();
  ra_repo_id := (path : RepoId (StorageBackend := gitoxide_backend));
  ra_auto_init := false;
  ra_authorize_preliminary refs := Ok ();
  ra_authorize_push _ :=
    PAsk QRefs (λ refs, PRet (if decide (frozen ∈ pr_refname <$> refs) then Err (b! "frozen") else Ok ()));
  ra_verification_keys _ := [];
  ra_verify_external _ := None;
  ra_post_receive := PRet () |}.

Definition no_context : @PushContext _ _ forge := ().

Definition advance : RefUpdate := {| old_oid := c1; new_oid := c2; refname := main |}.
Definition thaw : RefUpdate := {| old_oid := oid_null; new_oid := c2; refname := frozen |}.
Definition push (us : list RefUpdate) : bytes := encode_request (b! " report-status") us Demo.pack.

Definition post (us : list RefUpdate) : option GitResponse * store :=
  returned (recv_pack_post (access := forge) default_limits (push us)) server.
Definition session (us : list RefUpdate) : option (result error ()) * (store * writer) :=
  returned (serve_receive_pack (access := forge) default_limits (push us)) (server, open_writer).

(** The push of [c2] lands, over HTTP and over SSH. *)
Lemma gitoxide_push_witness :
  ∃ resp d1 t, post [advance] = (Some resp, d1) ∧ reader resp = Some t ∧
    let d2 := (t (d1, open_writer)).1 in
    let d3 := (session [advance]).2.1 in
    object_refs (refs_in path d2) !! main = Some c2 ∧ object_refs (refs_in path d3) !! main = Some c2 ∧
    ∀ r d, d = d2 ∨ d = d3 → object_refs (refs_in r d) = object_refs (refs_in r server) ∨
      ∃ us, accepted default_limits (push [advance]) us r ∧
        partial_push us (object_refs (refs_in r server)) (object_refs (refs_in r d)).
Proof.
  destruct (gitoxide_push default_limits (push [advance]) server open_writer) as [Hh Hs]. cbv zeta.
  destruct (answer_streams (post [advance])) as (resp & d1 & t & Hr & Ht); [by_vm|].
  exists resp, d1, t. split; [exact Hr|]. split; [exact Ht|]. split_and!; [|by_vm|].
  - assert (match post [advance] with
            | (Some {| reader := Some t |}, d1) => bool_decide (object_refs (refs_in path (t (d1, open_writer)).1) !! main = Some c2)
            | _ => false end = true) as E by by_vm.
    rewrite Hr in E. destruct resp as [? ? [t'|] ?]; [|done]. injection Ht as ->. by apply bool_decide_eq_true in E.
  - intros r d [->| ->]; [by apply (Hh resp d1 t Hr Ht)|by apply Hs].
Defined.

(** A push to the frozen branch stores its pack, is rejected, and leaves nothing. *)
Lemma gitoxide_rejection_restores_witness :
  with_pack server Demo.pack path ≠ server ∧
  ∃ t, recv_pack_post default_limits (push [thaw]) server = (Go (streaming (Some result_type) t), server) ∧
       ∀ d' w, t (d', w) = (d', (write_all (reject_packets [thaw] (b! "frozen")) w).2).
Proof.
  split.
  { intros E. apply (f_equal (λ d, size (files_at path d))) in E. by vm_compute in E. }
  destruct (gitoxide_rejection_restores default_limits (push [thaw]) server [thaw] no_context path
    (pushed_pack server Demo.pack path) (metadata server [thaw] Demo.pack path)
    (push_refs server [thaw] Demo.pack path).1 (tips server [thaw] Demo.pack path).1 (tips server [thaw] Demo.pack path).2
    (verdict server [thaw] Demo.pack no_context path).2 (b! "frozen")) as (t & d8 & Hp & (_ & _ & Hd) & Ht).
  - apply (push_reaches (push [thaw]) server [thaw] Demo.pack no_context path); by_vm.
  - done.
  - apply (Demo.run_fst (verdict server [thaw] Demo.pack no_context path)). by_vm.
  - exists t. split; [|exact Ht]. rewrite Hp. by rewrite Hd.
Defined.
End GitoxideServer.

Module CliServer.
#[export] Existing Instances Sha1.hash Sha1.hash_laws Demo.objects Demo.packs Demo.wire.
Import CliDemo.

(** A git that has one ref to advance and stores every pack under the same name. *)
Definition done_with (out : bytes) : result RunError Output :=
  Ok {| success := true; status := b! "0"; stdout := out; stderr := [] |}.
Definition failed : result RunError Output :=
  Ok {| success := false; status := b! "128"; stdout := []; stderr := b! "fatal" |}.

#[local] Instance small_git : GitProgram := {|
  world := gmap bytes (gmap bytes ObjectId);
  git dir args input w :=
    match dir with
    | Some path =>
        if decide (args = [b! "update-ref"; b! "--stdin"]) then
          if decide (input = cmd_line (command_of advance) ∧ default ∅ (w !! path) = before)
          then (done_with [], <[path := after]> w) else (failed, w)
        else if decide (head args = Some (b! "index-pack")) then (done_with (b! "pack" ++ [x09] ++ b! "7" ++ [x0a]), w)
        else if decide (head args = Some (b! "for-each-ref")) then (done_with (refs_text demo_refs), w)
        else (failed, w)
    | None => (failed, w)
    end;
  git_pipe _ _ _ w := (Err (SpawnFailed (Foreign (b! "not here"))), w);
  path_exists _ _ := true;
  create_dir _ _ := None;
  staging_error := None;
  remove_file _ w := w |}.

#[local] Instance small_files : GitFiles := {| contents _ _ := Some Demo.pack; no_bundle _ := Foreign (b! "not found") |}.

Definition refs_of (path : bytes) (w : gmap bytes (gmap bytes ObjectId)) : gmap bytes ObjectId := default ∅ (w !! path).

(** The only commands that it takes are those of [advance]. *)
Lemma small_git_updates (path : bytes) (cmds : list RefCommand) (w : gmap bytes (gmap bytes ObjectId)) (x : result RunError Output) (w' : gmap bytes (gmap bytes ObjectId)) :
  Forall (λ c, one_word (cmd_name c)) cmds →
  git (Some path) [b! "update-ref"; b! "--stdin"] (cmds ≫= cmd_line) w = (x, w') →
  (x = failed ∧ w' = w) ∨
  (x = done_with [] ∧ cmds = [command_of advance] ∧ refs_of path w = before ∧ w' = <[path := after]> w).
Proof.
  intros Hw. cbn [git small_git]. rewrite decide_True by done.
  destruct (decide _) as [[E Eb]|]; intros [= <- <-]; [right|by left]. split_and!; [done| |done|done].
  apply commands_unambiguous; [done| |by rewrite E, bind_cons, app_nil_r].
  repeat constructor; apply main_one_word.
Qed.

Lemma advance_here : performed ∅ [command_of advance] before after.
Proof.
  exists [command_of advance]. split_and!.
  - constructor; [|constructor]. exists CliDemo.main. split; [by apply follows_here|done].
  - apply NoDup_singleton.
  - constructor; [change (before !! CliDemo.main = Some c1); by_vm|constructor].
  - by_vm.
Qed.

Lemma refs_of_set (path : bytes) (w : gmap bytes (gmap bytes ObjectId)) : refs_of path (<[path := after]> w) = after.
Proof. unfold refs_of. by rewrite lookup_insert_eq. Qed.

#[local] Instance small_update_ref : GitUpdateRef.
Proof.
  refine {| refs_at := refs_of; symrefs_at _ _ := ∅ |}. intros path cmds w output w' Hw Hg Hs.
  destruct (small_git_updates _ _ _ _ _ Hw Hg) as [[[= ->] ->]|([= ->] & -> & Eb & ->)]; [done|].
  rewrite Eb, refs_of_set. apply advance_here.
Defined.

#[local] Instance small_git_refs : GitRefs.
Proof.
  split.
  - intros path cmds w x w' Hw Hg.
    destruct (small_git_updates _ _ _ _ _ Hw Hg) as [[_ ->]|(_ & -> & Eb & ->)]; [by left|right].
    change (refs_at path w) with (refs_of path w). change (refs_at path (<[path := after]> w)) with (refs_of path (<[path := after]> w)).
    rewrite Eb, refs_of_set. apply advance_here.
  - done.
  - intros path input w r Hr. cbn [git small_git]. rewrite decide_True by done. case_decide; [|done].
    unfold ref_state. cbn. unfold refs_of. by rewrite lookup_insert_ne.
  - intros [path|] args input w r Hk; [|done]. cbn [git small_git]. rewrite decide_False.
    + repeat case_decide; done.
    + intros ->. destruct Hk as [[=]|(c & [= <-] & Hc)]. apply (bool_decide_eq_true _) in Hc. by vm_compute in Hc.
  - done.
  - done.
Qed.

#[local] Instance forge : RepoAccess (H0 := cli_backend) := {|
  PushContext := ();
  ra_repo_id := (b! "repo.git" : RepoId (StorageBackend := cli_backend));
  ra_auto_init := false;
  ra_authorize_preliminary refs := Ok ();
  ra_authorize_push _ := PRet (Ok ());
  ra_verification_keys _ := [];
  ra_verify_external _ := None;
  ra_post_receive := PRet () |}.

Definition server : @store _ cli_backend := {[ b! "repo.git" := before ]}.
Definition body : bytes := encode_request (b! " report-status") [advance] Demo.pack.
Definition post : option GitResponse * store := returned (recv_pack_post (access := forge) default_limits body) server.

(** The push of [c2] lands, and nothing but it. *)
Lemma cli_push_witness :
  ∃ resp w1 t, post = (Some resp, w1) ∧ reader resp = Some t ∧
    refs_at (b! "repo.git") (t (w1, open_writer)).1 = after ∧
    ∀ r, ref_state r (t (w1, open_writer)).1 = ref_state r server ∨
      ∃ us, accepted default_limits body us r ∧
        (Forall (direct (delete HEAD ∅)) us →
         cas_updates (refs_at r server) us = Some (refs_at r (t (w1, open_writer)).1) ∧ delete HEAD ∅ = delete HEAD (∅ : gmap bytes bytes)).
Proof.
  destruct (cli_push default_limits body server open_writer) as [Hh _].
  destruct (answer_streams post) as (resp & w1 & t & Hr & Ht); [by_vm|].
  exists resp, w1, t. split; [exact Hr|]. split; [exact Ht|]. split; [|by apply (Hh resp w1 t Hr Ht)].
  assert (match post with
          | (Some {| reader := Some t |}, w1) => bool_decide (refs_of (b! "repo.git") (t (w1, open_writer)).1 = after)
          | _ => false end = true) as E by by_vm.
  rewrite Hr in E. destruct resp as [? ? [t'|] ?]; [|done]. injection Ht as ->. by apply bool_decide_eq_true in E.
Defined.
End CliServer.
