(* ===== verification/InterleaveExamples.v ===== *)
(** * Two pushes that race *)

From stdpp Require Import base gmap list sorting strings relations.
From Stdlib Require Import Strings.Byte.
From S2P Require Import Prelude Bytes Gix Proto Types Handlers Sigverify Auth Serve Graph Inspect KvKeys Kv PackCache PackTools KvPack KvBackend Interleave Examples.
Open Scope N_scope.

Module RaceDemo.
Import Demo.

Definition post_c2 : request := {|
  req_access := forge; req_transport := wire; req_limits := default_limits; req_body := fast_forward |}.

Definition answer (s : store) : option GitResponse * store :=
  returned (handled post_c2 true (b! "git-receive-pack") [] receive_request_type) s.

Definition future (x : option GitResponse * store) : task := default (λ y, y) (x.1 ≫= reader).

(** Both pushes of [c2] are accepted before the first of them updates a ref. *)
Definition s1 : store := (answer server).2.
Definition s2 : store := (answer s1).2.
Definition s3 : store := (future (answer s1) (s2, open_writer)).1.
Definition s4 : store := (future (answer server) (s3, open_writer)).1.

Definition finished : Interleave.server := {| stored := s4; running := []; taken := [post_c2; post_c2] |}.

Lemma answer_running s :
  match (answer s).1 with Some {| reader := Some _ |} => true | _ => false end = true →
  option_list ((answer s).1 ≫= reader) = [future (answer s)].
Proof.
  unfold future. destruct (answer s) as [[resp|] s']; [|done]. destruct resp as [? ? [t|] ?]; [|done]. done.
Qed.

Lemma races : rtc serves (idle server) finished.
Proof.
  assert (∀ s ts qs, match (answer s).1 with Some {| reader := Some _ |} => true | _ => false end = true →
    serves {| stored := s; running := ts; taken := qs |}
      {| stored := (answer s).2; running := ts ++ [(post_c2, future (answer s))]; taken := qs ++ [post_c2] |}) as Hreq.
  { intros s ts qs Ha. pose proof (serves_request {| stored := s; running := ts; taken := qs |} post_c2 true
      (b! "git-receive-pack") [] receive_request_type (answer s).1 (answer s).2 (surjective_pairing _)) as Hs.
    rewrite (answer_running s Ha) in Hs. exact Hs. }
  eapply rtc_l; [apply (Hreq server [] []); by_vm|]. eapply rtc_l; [apply (Hreq s1); by_vm|].
  eapply rtc_l; [eapply (serves_future _ [(post_c2, future (answer server))] post_c2 (future (answer s1)) [] open_writer s3); [done|apply surjective_pairing]|].
  eapply rtc_l; [eapply (serves_future _ [] post_c2 (future (answer server)) [] open_writer s4); [done|apply surjective_pairing]|].
  apply rtc_refl.
Qed.

(** The second push to run finds [main] moved and changes nothing. *)
Lemma pushes_serialize_witness :
  kv_db s4 = kv_db s3 ∧ refs_view repo1 s4 !! main = Some c2 ∧
  ∃ log : list (request * list RefUpdate),
    Forall (judged repo1) log ∧ log.*1 ++ [] ⊆+ [post_c2; post_c2] ∧
    cas_updates (refs_view repo1 server) (concat log.*2) = Some (refs_view repo1 s4).
Proof.
  split_and!.
  - apply (bool_decide_eq_true _). by_vm.
  - by_vm.
  - apply (pushes_serialize (H1 := kv_laws) server finished). apply races.
Defined.
End RaceDemo.
