(* ===== verification/InterfereExamples.v ===== *)
(** * A push during which others push *)

From stdpp Require Import base gmap list sorting strings.
From Stdlib Require Import Strings.Byte.
From S2P Require Import Prelude Bytes Gix Proto Types Handlers Sigverify Auth Serve Graph Inspect KvKeys Kv PackCache PackTools KvPack KvBackend Interfere Examples.
Open Scope N_scope.

Module SharedDemo.
Import Demo.

Definition dev : bytes := b! "refs/heads/dev".

(** Before each storage call, others try to create [dev] in the repository. *)
Definition create_dev : list RefUpdate := [update oid_null c1 dev].

Definition others (r : @Repo _ kv_backend) (us : list RefUpdate) : Prop := us = create_dev.

Definition busy : list (burst (H1 := kv_laws) others) :=
  replicate 20 (push_burst (H1 := kv_laws) others repo1 create_dev (λ _ _, eq_refl)).

#[local] Instance busy_backend : StorageBackend := shared_backend (H1 := kv_laws) others server.

(** The forge of [Examples], on the shared store. *)
#[local] Instance shared_forge : RepoAccess (H0 := busy_backend) :=
  @Build_RepoAccess _ busy_backend () path true
    (ra_authorize_preliminary (RepoAccess := forge)) (ra_authorize_push (RepoAccess := forge))
    (λ _, []) (λ _, None) (PRet ()).

Definition session : option (result error ()) * (@store _ busy_backend * writer) :=
  returned (serve_receive_pack (access := shared_forge) default_limits fast_forward) (share (H1 := kv_laws) others server busy, open_writer).

Definition after : @store _ kv_backend := cell (H1 := kv_laws) others server session.2.1.

(** Both pushes land. *)
Lemma push_among_others_witness :
  kv_refs 1 (kv_db after) !! main = Some c2 ∧ kv_refs 1 (kv_db after) !! dev = Some c1 ∧
  ∃ before mine later, Forall (others repo1) (before ++ later) ∧
    (mine = [] ∨ ∃ us (repo : @Repo _ kv_backend), mine = [us] ∧
       accepted (access := shared_forge) default_limits fast_forward us repo ∧
       tag_of (H1 := kv_laws) repo1 = tag_of (H1 := kv_laws) repo) ∧
    cas_updates (refs_view repo1 server) (concat (before ++ mine ++ later)) = Some (refs_view repo1 after).
Proof.
  split; [by_vm|]. split; [by_vm|].
  apply (push_among_others (laws := kv_laws) others server (access := shared_forge) busy default_limits fast_forward session.2.1
           (pushes_ssh (laws := kv_laws) others server default_limits fast_forward _ open_writer session.1 session.2.1
              session.2.2 (eta3 session)) repo1).
Defined.
End SharedDemo.
